(* ===== verification/_CoqProject ===== *)
-Q . S2P
Prelude.v
Errors.v
Rust.v
Format.v
Rng.v
RawKey.v
Normalize.v
Codex.v
Fragment.v
Decoy.v
Standard.v
Interleaved.v
RandomFrag.v
Layered.v
Layouts.v
Os.v
Guarded.v
Readers.v
AddressSpace.v
Pages.v
Pool.v
LockedBytes.v
Storage.v
StorageRefines.v
StorageTheorems.v
Handle.v
Events.v
Config.v
Lockout.v
VaultState.v
Vault.v
VaultFrame.v
VaultPipeline.v
VaultRead.v
VaultRegistry.v
VaultSpec.v
VaultProps.v
VaultDemo.v
VaultTheorems.v
Builder.v
BuilderTheorems.v
Tee.v
Fetchers.v
FileFetch.v
Concurrent.v
Linear.v
Linearize.v
ConcurrentTheorems.v
Sync.v
OsUnix.v
OsWindows.v
NoStd.v
AuditTrail.v
MasterUnlock.v
Atomics.v
LockoutThreads.v
LockoutSteps.v
LockoutWeak.v
FlagWeak.v
Process.v
ProcessLocks.v
ProcessTheorems.v
SyncWeak.v
