(* ===== verification/Prelude.v ===== *)
(** * key-vault: a verification development

    This library models the [key-vault] crate (Rust, under [src/src/]) and
    proves what makes it correct.  The crate keeps application keys in a
    process: a key is normalized (BLAKE3), passed through a codex, cut into
    chunks hidden among decoys, stored in locked, dump-excluded and optionally
    page-protected memory, and put together again only inside the callback of
    [KeyVault::with_key].  Around that are lockouts, a master credential with
    a backoff, monitors, an audit sink, key fetchers and TEE detection.

    ** How the code is modelled

    Fallible and stateful code is a function [M S A := S -> outcome A * S]
    ([Rust]): [Ok] and [Err] are the two sides of [crate::Result], [Panic] is
    unwinding, [Diverge] a loop that ran out of fuel.  The state returned is
    the one at the moment the computation stopped, so that [finally] gives
    the drop glue its meaning on every way out.  Integers are [Z] with the
    wrapping, saturating and checked operations of the source written out,
    on a 64-bit target; durations are nanoseconds; bytes are [byte]s.
    Everything outside the repository is a class whose instance is a
    parameter of the definitions: [Rng] (getrandom), [Blake3], [Os] (the
    memory system calls, as the portable code sees them), [Libc] and [Win32]
    (the calls of the two backends), [StdTime], [Threads], [PageRefs],
    [Tracing], [Allocator], the file system and the environment.  Their
    laws are the documented behaviour; their type of worlds [W] may be
    changed by any call.  Trait objects are records of functions
    ([dyn_codex], [dyn_decoy], [dyn_strategy], [dyn_monitor], [dyn_sink],
    [dyn_clock]); traits are classes, with the laws the vault relies on in
    the class or next to it.

    ** Files

    - [Errors] ([error.rs]), [Rust] (the embedding, its program logics [wp],
      [triple], [safe] and [quiet]), [Format] (what [{:?}] prints; every
      [Debug] instance the crate writes is next to its type), [Rng]
      ([rng.rs], [fragment/util.rs]), [RawKey] ([fetcher/mod.rs]), [Normalize] ([normalize.rs]).
    - Codices and fragmenters: [Codex] ([codex/]), [Fragment]
      ([fragment/mod.rs]: chunks, layouts, the strategy interface and its
      law), [Decoy] ([decoy/]), [Standard], [Interleaved], [RandomFrag],
      [Layered] (the files of [fragment/]), [Layouts] (bounds on layouts).
    - Memory: [Os] ([memory/mod.rs], the interface to the system),
      [Guarded] ([memory/guarded.rs] and [Fragments::into_protected]),
      [Readers] (threads that read one region at the same time),
      [AddressSpace] (what is assumed of memory), [Pages] (the page table of
      [memory/mod.rs]), [Pool] ([memory/pool.rs]), [LockedBytes]
      ([LockedBytes] of [memory/mod.rs]), [Storage] (fragments and regions
      once more, as buffers and mappings in one address space),
      [StorageRefines] and [StorageTheorems] (they refine [Fragment] and
      [Guarded]), [OsUnix] and [OsWindows] ([memory/unix.rs],
      [memory/windows.rs], the instances of [Os]; the stubs for other
      targets are next to the class).
    - [Handle] ([handle.rs], [metadata.rs]), [Events] ([monitor/], [audit/],
      [clock.rs]), [Sync] ([sync.rs]; [SyncWeak] is its spin lock under
      release/acquire memory; [Atomics] has what is common to the files that
      look at an atomic that way).
    - The vault ([vault/mod.rs]): [Config], [Lockout] (failure tracking, with
      the specification that counts over full histories), [VaultState] (data), [Vault]
      (every operation); then its theory: [VaultFrame], [VaultPipeline],
      [VaultRead], [VaultRegistry], [VaultSpec], [VaultProps], the concrete
      vault [VaultDemo] and the theorems [VaultTheorems],
      [AuditTrail]; [NoStd] is [read_key] of builds without [std].
    - [Builder], [BuilderTheorems]: [KeyVaultBuilder], up to the vault it
      returns.
    - Threads: [Concurrent] (interleaved calls, step by step), [Linear]
      (alone they are the sequential operations), [Linearize] (the
      invariant), [ConcurrentTheorems]; [MasterUnlock] (interleaved
      [unlock_with_master] calls); [LockoutThreads] (interleaved failure
      reports, lock queries and clears; [Concurrent] and [MasterUnlock] let
      the lockout state change at any time); [LockoutSteps] (the same, with
      callers that come and go), [LockoutWeak] and [FlagWeak] (the same, with
      the counter of locked names and with the vault-wide flag under
      release/acquire memory).  [Process] is the one process in which the
      three meet, on one state and three mutexes; [ProcessLocks] is what its
      lockout state sees, [ProcessTheorems] what follows.
    - [Tee] ([tee/]), [Fetchers] ([fetcher/env.rs], [keychain.rs], [tpm.rs]),
      [FileFetch] ([fetcher/file.rs]).

    ** How the parts meet

    [VaultState] is what one thread sees of the process: registry, lockout
    state, backoff, handle counter, scratch buffer, protected regions, world.
    [register] and [rotate] run [fragment_for_registry] (normalization, codex,
    strategy, page protection) and then write the registry; [with_key] finds
    the entry, asks the lockout state, and runs [read_key], which borrows the
    scratch, opens the pages, lets the strategy write into the scratch,
    closes the pages, decodes, calls the callback and wipes.  The vault's
    theorems use of a strategy only the class [FragmentStrategy] and its law
    [LawfulStrategy], which each built-in strategy discharges in its file; of a codex
    only [RoundTrips]; of memory only the interface of [Guarded].  [Builder]
    shows that what it builds meets the hypotheses [vault_wf] and [vault_inv]
    those theorems start from.  [Pages], [Pool] and [LockedBytes] prove that
    a locked buffer holds what was written to it and is wiped when dropped;
    [Storage] puts fragments and regions into the same address space, and
    [storage_refines_regions] is why they can be lists of bytes above that
    level; [OsUnix] and [OsWindows] are the systems below it.

    ** What the theorems show

    - Registry.  Sequences of vault operations refine a map from handles to
      named keys, with errors only where they are allowed and no panic, given
      keys a process can hold and, for [defragment], fragments the strategy
      returns on ([vault_refines_registry]); [with_key] hands the callback exactly the
      stored key ([with_key_contract]) and refuses locked keys
      ([locked_key_refused]); one-shot fragmentation round-trips.  Every
      interleaving of [register], [unregister], [rotate] and [with_key] is
      linearizable to the same map, one name is registered at most once, and
      no schedule deadlocks; there a protected region is opened, read and
      closed in one step, and [Readers] treats reads that overlap.
    - Secrets.  The scratch is wiped on every exit, panics included; without
      [std] the allocator is only ever given zeros; locked buffers are wiped
      when dropped; fetchers leave nothing behind; threads that read one
      protected key at the same time never fault, each gets the stored bytes,
      and the last one seals the region again if the system lets it
      ([overlapping_reads]).
    - Strategies and codices.  Each fragmenter is specified and round-trips
      for every key, seed and decoy; the standard one is pinned down to the
      words it draws and the order they shuffle the store to
      ([standard_fragment_spec]; [shuffle_by_reaches]: any order); a
      defragmenter rejects what fails its checks and writes nowhere else, but
      the checks let some layouts through that [fragment] never writes
      ([standard_accepts_overlap], [interleaved_accepts_repeats],
      [random_accepts_uncovered]); [from_swaps] and the dynamic codex are
      involutions.
    - Lockouts and the master credential.  The bounded failure tracker is
      indistinguishable from one that remembers everything, but for what a
      master failure drops under its reserved name ([lockout_refinement],
      [master_failure_forgets]); in threads, the
      counter that lets queries skip the map of locked names hides no lock
      ([lock_not_hidden]), unless [clear_lockout] resets the counter
      between a [clear_key_lockout]'s removal and its decrement
      ([clear_race_hides_lock]); under release/acquire memory it hides none
      from a thread that knows of it ([known_lock_refuses]), while others may
      still load an old value ([uninformed_query_misses]); of the reports
      that reach the vault-wide threshold exactly those that set the flag
      tell the monitor so, at most one per clear, and whoever knows of the
      lockout is refused until a clear ([lockout_told_once]); the backoff is what it is
      documented to be, and however many threads guess, a run of wrong guesses
      takes at least the sum of the backoff delays ([guesses_slowed]); only
      the right credential, after the backoff, clears the lockouts
      ([unlock_contract]).
    - The whole process.  With every call running at once, what the callers
      do is an execution of [Concurrent] and what the guessers do one of
      [MasterUnlock] ([process_refines]); a key whose lock has been counted
      is refused to every caller that asks from then on, until a clear and
      but for the same race of two clears ([locked_key_stays_closed]).
    - Locks.  With the orderings the source gives its accesses, the spin lock
      has no data race and every access happens after the one before it
      ([spin_lock_synchronizes]).
    - Audit.  The sink's journal is exactly the operations that took effect
      and the credentials compared ([audit_trail]).
    - Building.  A built vault starts in the invariant, never falls back to
      weaker normalization or verification in silence, and accepts its own
      master credential.
    - Memory.  The page table counts buffers and agrees with the system;
      pooled, heap and region buffers never overlap; what programs see of
      stored keys in memory is what the values above say, without a fault
      ([storage_refines_regions]); a protected key is inaccessible between
      uses and read-only during one, on a system that does not refuse to take
      access away and does nothing when it refuses to give it
      ([protected_keys_sealed]; [refused_open_leaves_readable]); on Unix a live
      guard keeps every byte of its mapping readable.
    - Environment.  A key file that was accepted had been found, between its
      opening and its first read, closed to group and others, and no directory
      on its path writable by others unless sticky ([accepted_file_was_secure]); TEE detection is the stated
      function of CPUID and the vendor text.

    The findings of the manifest name the lemmas that exhibit them.

    ** Fuel and bounds

    [sample_loop] (standard fragmenter) takes the total length as fuel: every
    round takes at least one byte, and [sample_chunk_sizes_spec] shows that
    it never diverges.  The other loops of the crate are structural in the
    model (over chunks, positions or indices), or take the fuel their
    termination theorem provides: [read_wiping_content] shows that the file
    reader returns once the fuel covers the reads that are left.
    [unlock_alone] and [run_alone] count program points; nine and eleven
    suffice, and the theorems say so ([lockout_alone]: eleven).  The spin lock has no fuel: its steps
    are a relation, and from every reachable state eight of them complete an
    access.  Executions of [Concurrent] and the programs of [VaultProps] stop
    short of the wrap of the 64-bit handle counter.

    ** What is not modelled, and why

    - Crate glue: re-exports of [lib.rs], [test_util.rs], tests and benches;
      [Default] instances that call [new], and derived [Debug] instances
      other than [VaultConfig]'s.
    - The version of the file checks for systems without Unix permissions,
      which accepts every file.
    - Panics of monitors, sinks and clocks, which their contracts exclude,
      and callbacks of theirs into the vault.
    - Running out of memory (the process aborts), and the overflow of [Arc]
      and page reference counts of [usize] width.
    - Weak memory elsewhere: but for the spin lock ([SyncWeak], which proves
      what the rest needs of it), the counter of locked names ([LockoutWeak])
      and the vault-wide flag ([FlagWeak]), threads interleave under
      sequential consistency.  That leaves the counter of handles, whose
      every use is one exchange, and the registry's cell: without [std] it
      is an [ArcCell] behind the spin lock, so that [SyncWeak] covers it;
      with [std] it is the third-party [arc_swap].
    - Time inside a step: [with_key]'s callback is a function of the bytes in
      [Concurrent] (its other effects are other threads' steps); in the
      sequential model it is any state transformer.
    - Sequential operations leave the region of a removed key in place;
      [Concurrent] frees it when its last reference goes.
    - The escaping of non-ASCII characters in [{:?}] of names.
    - Side channels: constant-time comparison is equality here.

    ** Extent

    Every component of the crate is modelled but its glue. *)

From stdpp Require Export prelude gmap strings list pretty.
From coqutil Require Export Byte.
From coqutil Require Export Word.LittleEndianList.
From Stdlib Require Export ZArith Lia.

#[export] Set Default Goal Selector "!".
#[export] Unset Program Cases.

(** Sizes, offsets and fixed-width integers are all [Z]. *)
#[global] Open Scope Z_scope.

(** ** Hint databases

    [kv] holds the resolution lemmas of the development, [kvlen] the
    rewriting rules that normalise lengths. *)
Create HintDb kv discriminated.
Create Rewrite HintDb kvlen.

(** ** Lengths as integers *)

Section zlen.
Context {A : Type}.
Implicit Types l k : list A.

Definition zlen l : Z := Z.of_nat (length l).

Lemma zlen_nonneg l : 0 <= zlen l.
Proof. unfold zlen; lia. Qed.

Lemma zlen_nil : zlen (@nil A) = 0.
Proof. done. Qed.

Lemma zlen_cons x l : zlen (x :: l) = 1 + zlen l.
Proof. unfold zlen; cbn [length]; lia. Qed.

Lemma zlen_app l k : zlen (l ++ k) = zlen l + zlen k.
Proof. unfold zlen; rewrite length_app; lia. Qed.

Lemma zlen_0_inv l : zlen l = 0 -> l = [].
Proof. destruct l; [done | unfold zlen; cbn; lia]. Qed.

Lemma zlen_insert l (i : nat) x : zlen (<[i:=x]> l) = zlen l.
Proof. unfold zlen; by rewrite length_insert. Qed.

Lemma zlen_replicate n (x : A) : zlen (replicate n x) = Z.of_nat n.
Proof. unfold zlen; by rewrite length_replicate. Qed.

Lemma zlen_Permutation l k : l ≡ₚ k -> zlen l = zlen k.
Proof. intros H; unfold zlen; by rewrite H. Qed.
End zlen.

Lemma zlen_map {A B : Type} (f : A -> B) (l : list A) : zlen (f <$> l) = zlen l.
Proof. unfold zlen; by rewrite length_fmap. Qed.

Lemma zlen_seqZ (a n : Z) : 0 <= n -> zlen (seqZ a n) = n.
Proof. intros; unfold zlen; rewrite length_seqZ; lia. Qed.

#[export] Hint Rewrite @zlen_nil @zlen_cons @zlen_app @zlen_insert @zlen_replicate
  @zlen_map : kvlen.
#[export] Hint Rewrite zlen_seqZ using lia : kvlen.

(** Close a goal about lengths: normalise every [zlen], then linear
    arithmetic (after making the natural-number view available). *)
Ltac zlen_lia := autorewrite with kvlen in *; unfold zlen in *; try lia.

(** ** Indexed access, ranges *)

Section ranges.
Context {A : Type}.
Implicit Types l k src dst : list A.

(** [l[a..b]] as a list, total; the bounds check is in [Rust.slice]. *)
Definition range (a b : Z) l : list A :=
  take (Z.to_nat (b - a)) (drop (Z.to_nat a) l).

Lemma zlen_range a b l : 0 <= a -> a <= b -> b <= zlen l -> zlen (range a b l) = b - a.
Proof.
  intros. unfold zlen, range in *. rewrite length_take, length_drop. lia.
Qed.

Lemma lookup_range a b l (i : nat) :
  0 <= a -> Z.of_nat i < b - a -> range a b l !! i = l !! (Z.to_nat a + i)%nat.
Proof.
  intros. unfold range. rewrite lookup_take_lt by lia. by rewrite lookup_drop.
Qed.

Lemma range_0 b l : b = zlen l -> range 0 b l = l.
Proof. intros ->. unfold range, zlen. rewrite drop_0. apply take_ge. lia. Qed.

Lemma range_app_exact l k m b e :
  b = zlen l -> e = zlen l + zlen k -> range b e (l ++ k ++ m) = k.
Proof.
  intros -> ->. unfold range, zlen.
  rewrite drop_app_ge by lia. replace (Z.to_nat _ - length l)%nat with 0%nat by lia.
  rewrite drop_0. rewrite take_app_length'; [done | lia].
Qed.

(** Pointwise equality up to a length decides list equality. *)
Lemma list_eq_zlen l k :
  zlen l = zlen k -> (forall i : nat, Z.of_nat i < zlen l -> l !! i = k !! i) -> l = k.
Proof.
  intros Hlen Hlook. apply list_eq. intros i.
  destruct (decide (Z.of_nat i < zlen l)) as [Hlt | Hge]; [by apply Hlook |].
  rewrite !lookup_ge_None_2; unfold zlen in *; [done | lia | lia].
Qed.

(** Writing [src] over [dst] from index [a]. *)
Lemma zlen_inserts (a : nat) src dst : zlen (list_inserts a src dst) = zlen dst.
Proof. unfold zlen; by rewrite length_inserts. Qed.

Lemma inserts_all src dst :
  zlen src = zlen dst -> list_inserts 0 src dst = src.
Proof.
  intros H. rewrite <- (app_nil_r dst), list_inserts_0_r; [apply app_nil_r |].
  unfold zlen in H; lia.
Qed.
End ranges.

(** Writing a piece of [key] at its own place leaves [dst] equal to [key] at
    every index where it was, and at every index written. *)
Definition agrees_at (key dst : list byte) (p : nat) : Prop := dst !! p = key !! p.

Lemma inserts_agrees (key dst : list byte) (a : Z) (c : list byte) (p : nat) :
  0 <= a -> a + zlen c <= zlen key -> c = range a (a + zlen c) key -> zlen dst = zlen key ->
  agrees_at key dst p \/ a <= Z.of_nat p < a + zlen c ->
  agrees_at key (list_inserts (Z.to_nat a) c dst) p.
Proof.
  unfold agrees_at. intros Ha Hle Hc Hlen Hp.
  destruct (decide (a <= Z.of_nat p < a + zlen c)) as [Hin | Hout].
  - rewrite list_lookup_inserts by (unfold zlen in *; lia). rewrite Hc at 1.
    rewrite lookup_range by lia. f_equal. lia.
  - destruct Hp as [Hp | Hp]; [| lia].
    destruct (decide (Z.of_nat p < a)).
    + rewrite list_lookup_inserts_lt by lia. done.
    + rewrite list_lookup_inserts_ge by (unfold zlen in *; lia). done.
Qed.

#[export] Hint Rewrite @zlen_inserts : kvlen.
#[export] Hint Rewrite @zlen_range using (unfold zlen in *; lia) : kvlen.

(** ** Sums *)

Fixpoint zsum (l : list Z) : Z :=
  match l with [] => 0 | x :: l' => x + zsum l' end.

Lemma zsum_app l k : zsum (l ++ k) = zsum l + zsum k.
Proof. induction l; cbn in *; lia. Qed.

#[export] Instance zsum_Permutation : Proper ((≡ₚ) ==> (=)) zsum.
Proof. intros l k. induction 1; cbn; lia. Qed.

Lemma zsum_nonneg l : Forall (Z.le 0) l -> 0 <= zsum l.
Proof. induction 1; cbn; lia. Qed.

Lemma zsum_zeros {A} (f : A -> Z) l : (forall x, x ∈ l -> f x = 0) -> zsum (f <$> l) = 0.
Proof.
  induction l as [| x l IH]; intros Hf; cbn; [done |].
  rewrite IH by (intros; apply Hf; by right). rewrite Hf by (by left). lia.
Qed.

(** ** Bytes *)

(** Index of a byte in a 256-entry table. *)
Definition byte_index (b : byte) : nat := Z.to_nat (byte.unsigned b).

Lemma byte_index_lt b : (byte_index b < 256)%nat.
Proof. unfold byte_index. pose proof (byte.unsigned_range b). lia. Qed.

Lemma byte_index_inj b c : byte_index b = byte_index c -> b = c.
Proof.
  unfold byte_index. intros H. apply byte.unsigned_inj.
  pose proof (byte.unsigned_range b). pose proof (byte.unsigned_range c). lia.
Qed.

Lemma byte_unsigned_of_Z z : 0 <= z < 256 -> byte.unsigned (byte.of_Z z) = z.
Proof. intros. rewrite byte.unsigned_of_Z. unfold byte.wrap. apply Z.mod_small. lia. Qed.

Lemma byte_index_of_Z (i : nat) : (i < 256)%nat -> byte_index (byte.of_Z (Z.of_nat i)) = i.
Proof. intros. unfold byte_index. rewrite byte_unsigned_of_Z; lia. Qed.

Lemma byte_of_index b : byte.of_Z (Z.of_nat (byte_index b)) = b.
Proof. apply byte_index_inj, byte_index_of_Z, byte_index_lt. Qed.

#[export] Instance byte_eq_dec : EqDecision byte.
Proof. intros a b. apply Byte.byte_eq_dec. Defined.

(** The all-zero buffer of [n] bytes ([vec![0u8; n]]). *)
Definition zeros (n : Z) : list byte := replicate (Z.to_nat n) Byte.x00.

Lemma zlen_zeros n : 0 <= n -> zlen (zeros n) = n.
Proof. intros. unfold zeros. rewrite zlen_replicate. lia. Qed.

#[export] Hint Rewrite zlen_zeros using lia : kvlen.

(** ** Little-endian words *)

(** [u32::to_le_bytes] / [u32::from_le_bytes] round trip. *)
Lemma le_word32 z : 0 <= z < 2 ^ 32 -> le_combine (le_split 4 z) = z.
Proof. intros. rewrite le_combine_split. apply Z.mod_small. lia. Qed.

Lemma zlen_le_split n z : zlen (le_split n z) = Z.of_nat n.
Proof. unfold zlen. by rewrite length_le_split. Qed.

Lemma le_combine_range bs : 0 <= le_combine bs.
Proof. pose proof (le_combine_bound bs). lia. Qed.

Lemma le_combine_lt bs n : zlen bs = n -> le_combine bs < 2 ^ (8 * n).
Proof. intros <-. pose proof (le_combine_bound bs). unfold zlen. lia. Qed.

#[export] Hint Rewrite zlen_le_split : kvlen.
