(* ===== verification/Errors.v ===== *)
(** * Errors ([error.rs])

    The error type every fallible operation returns, with its [Display]
    rendering.  The message strings are the source's. *)

From S2P Require Import Prelude.

Module Error.
(** [enum Error].  Durations are nanoseconds. *)
Inductive t :=
| Acquisition (source : string) (reason : string)
| KeyNotFound
| Fragment (reason : string)
| Defragment (reason : string)
| Decoy (reason : string)
| Codex (reason : string)
| LockedOut
| RateLimited (retry_after : Z)
| MemoryLock (reason : string)
| InvalidConfig (reason : string)
| Internal (reason : string).

#[global] Instance t_eq_dec : EqDecision t.
Proof. solve_decision. Defined.

(** [impl Display for Error]. *)
Definition fmt (e : t) : string :=
  match e with
  | Acquisition source reason => "key acquisition from " +:+ source +:+ " failed: " +:+ reason
  | KeyNotFound => "no key registered under the requested identifier"
  | Fragment reason => "fragmentation failed: " +:+ reason
  | Defragment reason => "defragmentation failed: " +:+ reason
  | Decoy reason => "decoy generation failed: " +:+ reason
  | Codex reason => "codex transformation failed: " +:+ reason
  | LockedOut => "vault is locked out by security monitor threshold"
  | RateLimited retry_after =>
      "master unlock attempt refused; retry in " +:+ pretty (retry_after / 1000000) +:+ " ms"
  | MemoryLock reason => "memory lock operation failed: " +:+ reason
  | InvalidConfig reason => "invalid vault configuration: " +:+ reason
  | Internal reason => "internal vault invariant violated: " +:+ reason
  end.
End Error.
