(* ===== verification/Rust.v ===== *)
(** * The embedding of the Rust subset the crate uses

    Fallible, panicking, state-changing code is a function
    [M S A := S -> outcome A * S]: the state that comes back is the one at
    the moment the computation stopped, whatever the outcome, as in Rust.
    [Err] is the [Err] of [crate::Result], [Panic] is unwinding (an index out
    of bounds, a panicking callback), [Diverge] marks a loop whose fuel ran
    out, so that a termination theorem can say it never does. *)

From S2P Require Import Prelude Errors.

(** ** Outcomes *)

Inductive outcome (A : Type) : Type :=
| Ok (a : A)
| Err (e : Error.t)
| Panic
| Diverge.
Arguments Ok {A} a.
Arguments Err {A} e.
Arguments Panic {A}.
Arguments Diverge {A}.

#[export] Instance outcome_eq_dec {A} `{EqDecision A} : EqDecision (outcome A).
Proof. solve_decision. Defined.

Definition outcome_map {A B} (f : A -> B) (o : outcome A) : outcome B :=
  match o with Ok a => Ok (f a) | Err e => Err e | Panic => Panic | Diverge => Diverge end.

Definition outcome_bind {A B} (o : outcome A) (f : A -> outcome B) : outcome B :=
  match o with Ok a => f a | Err e => Err e | Panic => Panic | Diverge => Diverge end.

Definition is_ok {A} (o : outcome A) : bool := match o with Ok _ => true | _ => false end.

(** A [Result] came back: no panic, and not a call that never returns. *)
Definition returns {A} (o : outcome A) : Prop := match o with Ok _ | Err _ => True | _ => False end.

(** ** The state-and-outcome monad *)

Definition M (S A : Type) : Type := S -> outcome A * S.

Section monad.
Context {S : Type}.

Definition ret {A} (a : A) : M S A := fun s => (Ok a, s).
Definition fail {A} (e : Error.t) : M S A := fun s => (Err e, s).
Definition panic {A} : M S A := fun s => (Panic, s).
Definition diverge {A} : M S A := fun s => (Diverge, s).
Definition lift {A} (o : outcome A) : M S A := fun s => (o, s).

Definition bind {A B} (m : M S A) (k : A -> M S B) : M S B := fun s =>
  match m s with
  | (Ok a, s') => k a s'
  | (Err e, s') => (Err e, s')
  | (Panic, s') => (Panic, s')
  | (Diverge, s') => (Diverge, s')
  end.

Definition get : M S S := fun s => (Ok s, s).
Definition gets {A} (f : S -> A) : M S A := fun s => (Ok (f s), s).
Definition put (s : S) : M S unit := fun _ => (Ok tt, s).
Definition modify (f : S -> S) : M S unit := fun s => (Ok tt, f s).

(** [match m { Ok a => .., Err e => .. }]: panics still propagate. *)
Definition try_ {A} (m : M S A) : M S (A + Error.t) := fun s =>
  match m s with
  | (Ok a, s') => (Ok (inl a), s')
  | (Err e, s') => (Ok (inr e), s')
  | (Panic, s') => (Panic, s')
  | (Diverge, s') => (Diverge, s')
  end.

(** Drop glue: [cleanup] runs on every way out of [m]. *)
Definition finally {A} (m : M S A) (cleanup : S -> S) : M S A := fun s =>
  let '(o, s') := m s in (o, cleanup s').

(** [for x in l { f(x) }]. *)
Fixpoint for_each {A} (l : list A) (f : A -> M S unit) : M S unit :=
  match l with
  | [] => ret tt
  | x :: l' => bind (f x) (fun _ => for_each l' f)
  end.

(** [l.iter().map(f).collect::<Result<Vec<_>>>()], left to right. *)
Fixpoint map_m {A B} (f : A -> M S B) (l : list A) : M S (list B) :=
  match l with
  | [] => ret []
  | x :: l' => bind (f x) (fun y => bind (map_m f l') (fun ys => ret (y :: ys)))
  end.

(** Collect [n] results of [m], in order ([for _ in 0..n { v.push(m?) }]). *)
Fixpoint repeat_m {A} (n : nat) (m : M S A) : M S (list A) :=
  match n with
  | O => ret []
  | Datatypes.S n' => bind m (fun x => bind (repeat_m n' m) (fun xs => ret (x :: xs)))
  end.
End monad.

Declare Scope rust_scope.
Delimit Scope rust_scope with rust.
#[global] Open Scope rust_scope.

(** [let x = m?; k] and [m?; k]. *)
Notation "'let!' x := m 'in' k" := (bind m (fun x => k))
  (at level 10, x binder, m at level 200, k at level 200, only parsing) : rust_scope.
Notation "'do!' m 'in' k" := (bind m (fun _ => k))
  (at level 10, m at level 200, k at level 200, only parsing) : rust_scope.

(** Run [m] on a part of the state. *)
Definition zoom {S T A} (get_ : S -> T) (set_ : T -> S -> S) (m : M T A) : M S A := fun s =>
  let '(o, t) := m (get_ s) in (o, set_ t s).

(** A computation that only uses the second component of a pair state. *)
Definition on_snd {S T A} (m : M T A) : M (S * T) A :=
  zoom snd (fun t s => (fst s, t)) m.
Definition on_fst {S T A} (m : M S A) : M (S * T) A :=
  zoom fst (fun t s => (t, snd s)) m.

(** A question to the outside world, which may change it. *)
Definition ask {S A} (q : S -> A * S) : M S A := fun s => let '(a, s) := q s in (Ok a, s).

(** ** Machine integers (64-bit target: [usize] is [u64]) *)

Definition u32_max : Z := 2 ^ 32 - 1.
Definition u64_max : Z := 2 ^ 64 - 1.
Definition usize_max : Z := 2 ^ 64 - 1.
Definition isize_max : Z := 2 ^ 63 - 1.

Definition wrap64 (x : Z) : Z := x mod 2 ^ 64.

Definition checked_add (a b : Z) : option Z := if a + b <=? usize_max then Some (a + b) else None.
Definition checked_mul (a b : Z) : option Z := if a * b <=? usize_max then Some (a * b) else None.
Definition saturating_add (a b : Z) : Z := Z.min usize_max (a + b).
Definition saturating_mul (a b : Z) : Z := Z.min usize_max (a * b).
Definition saturating_sub (a b : Z) : Z := Z.max 0 (a - b).

Definition u32_try_from (x : Z) : option Z := if x <=? u32_max then Some x else None.
Definition u32_saturating_add (a b : Z) : Z := Z.min u32_max (a + b).

(** [core::time::Duration], in nanoseconds. *)
Definition nanos_per_sec : Z := 1000000000.
Definition duration_max : Z := u64_max * nanos_per_sec + 999999999.
Definition duration_from_secs (s : Z) : Z := s * nanos_per_sec.
Definition duration_saturating_add (a b : Z) : Z := Z.min duration_max (a + b).
Definition duration_saturating_sub (a b : Z) : Z := Z.max 0 (a - b).
Definition duration_checked_mul (d n : Z) : option Z :=
  if d * n <=? duration_max then Some (d * n) else None.

(** ** Slices *)

Section slices.
Context {S A : Type}.

(** [l[i]]; out of bounds panics. *)
Definition index (l : list A) (i : Z) : M S A :=
  if i <? 0 then panic else
  match l !! Z.to_nat i with Some a => ret a | None => panic end.

(** [&l[a..b]]. *)
Definition slice (l : list A) (a b : Z) : M S (list A) :=
  if (0 <=? a) && (a <=? b) && (b <=? zlen l) then ret (range a b l) else panic.

(** [dst[a..b].copy_from_slice(src)]: panics if the range is out of bounds or
    the lengths differ. *)
Definition copy_into (dst : list A) (a b : Z) (src : list A) : M S (list A) :=
  if (0 <=? a) && (a <=? b) && (b <=? zlen dst) && (b - a =? zlen src)
  then ret (list_inserts (Z.to_nat a) src dst) else panic.

(** [l[i] = x]. *)
Definition index_set (l : list A) (i : Z) (x : A) : M S (list A) :=
  if (0 <=? i) && (i <? zlen l) then ret (<[Z.to_nat i := x]> l) else panic.

(** [l.swap(i, j)]. *)
Definition swap (l : list A) (i j : Z) : M S (list A) :=
  bind (index l i) (fun x => bind (index l j) (fun y =>
    bind (index_set l i y) (fun l' => index_set l' j x))).
End slices.

(** [vec![0u8; n]]: a request above [isize::MAX] bytes panics ("capacity
    overflow"); running out of memory, which aborts the process, is outside
    the model. *)
Definition vec_zeroed {S} (n : Z) : M S (list byte) :=
  if n <=? isize_max then ret (zeros n) else panic.

(** The same writes on a [&mut] slice that is the state:
    [out[a..b].copy_from_slice(src)] and [out[i] = x]. *)
Definition write_at {A} (a b : Z) (src : list A) : M (list A) unit :=
  bind get (fun out => bind (copy_into out a b src) put).

Definition store_at {A} (i : Z) (x : A) : M (list A) unit :=
  bind get (fun out => bind (index_set out i x) put).

(** [<[u8; 4]>::try_from(s)]. *)
Definition try_into_array (n : Z) (l : list byte) : option (list byte) :=
  if zlen l =? n then Some l else None.

Definition to_le_bytes32 (x : Z) : list byte := le_split 4 x.
Definition from_le_bytes (bs : list byte) : Z := le_combine bs.

(** [opt.ok_or(e)?]. *)
Definition ok_or {S A} (o : option A) (e : Error.t) : M S A :=
  match o with Some a => ret a | None => fail e end.

(** * Program logic

    [wp m Q s]: running [m] from [s] ends in an outcome and a state that
    satisfy [Q].  Every outcome is constrained, so a [Q] that is [False] on
    [Panic] and [Diverge] states that [m] neither panics nor diverges. *)

Definition wp {S A} (m : M S A) (Q : outcome A -> S -> Prop) (s : S) : Prop :=
  Q (fst (m s)) (snd (m s)).

(** A postcondition for results and one for errors; no panic, no divergence. *)
Definition post {A} (P : A -> Prop) (E : Error.t -> Prop) (o : outcome A) : Prop :=
  match o with Ok a => P a | Err e => E e | Panic => False | Diverge => False end.

(** [safe m P E]: from every state, [m] returns a value in [P] or an error
    in [E]. *)
Definition safe {S A} (m : M S A) (P : A -> Prop) (E : Error.t -> Prop) : Prop :=
  forall s, post P E (fst (m s)).

Lemma safe_ret {S A} (a : A) (P : A -> Prop) E : P a -> safe (S := S) (ret a) P E.
Proof. intros H s. exact H. Qed.

Lemma safe_fail {S A} e (P : A -> Prop) (E : Error.t -> Prop) : E e -> safe (S := S) (fail e) P E.
Proof. intros H s. exact H. Qed.

Lemma safe_bind {S A B} (m : M S A) (k : A -> M S B) P Q E :
  safe m P E -> (forall a, P a -> safe (k a) Q E) -> safe (bind m k) Q E.
Proof.
  intros Hm Hk s. specialize (Hm s). unfold bind.
  destruct (m s) as [[a | e | |] s']; cbn in *; [by apply Hk | done..].
Qed.

Lemma safe_mono {S A} (m : M S A) (P P' : A -> Prop) (E E' : Error.t -> Prop) :
  safe m P E -> (forall a, P a -> P' a) -> (forall e, E e -> E' e) -> safe m P' E'.
Proof.
  intros Hm HP HE s. specialize (Hm s).
  destruct (m s) as [[a | e | |] s']; cbn in *; auto.
Qed.

Lemma safe_map_m {S A B} (f : A -> M S B) (R : A -> B -> Prop) E (l : list A) :
  (forall a, a ∈ l -> safe (f a) (R a) E) -> safe (map_m f l) (Forall2 R l) E.
Proof.
  induction l as [| x l IH]; intros Hf; cbn; [by apply safe_ret |].
  eapply safe_bind; [apply Hf; constructor |]. intros y Hy.
  eapply safe_bind; [apply IH; intros; apply Hf; by constructor |]. intros ys Hys.
  apply safe_ret. by constructor.
Qed.

Lemma safe_repeat_m {S A} (n : nat) (m : M S A) P E :
  safe m P E -> safe (repeat_m n m) (fun l => Forall P l /\ length l = n) E.
Proof.
  intros Hm. induction n as [| n IH]; cbn; [by apply safe_ret |].
  eapply safe_bind; [apply Hm |]. intros x Hx.
  eapply safe_bind; [apply IH |]. intros xs [HF Hl].
  apply safe_ret. split; [by constructor | cbn; lia].
Qed.

Lemma safe_ok_or {S A} (o : option A) e (P : A -> Prop) (E : Error.t -> Prop) :
  (forall a, o = Some a -> P a) -> (o = None -> E e) -> safe (S := S) (ok_or o e) P E.
Proof. intros H1 H2 s. destruct o; cbn; auto. Qed.

Lemma safe_slice {S A} (l : list A) a b (P : list A -> Prop) E :
  0 <= a -> a <= b -> b <= zlen l -> P (range a b l) -> safe (S := S) (slice l a b) P E.
Proof.
  intros. unfold slice. rewrite !(proj2 (Z.leb_le _ _)) by lia. by apply safe_ret.
Qed.

Lemma safe_vec_zeroed {S} n (P : list byte -> Prop) E :
  n <= isize_max -> P (zeros n) -> safe (S := S) (vec_zeroed n) P E.
Proof. intros. unfold vec_zeroed. rewrite (proj2 (Z.leb_le _ _)) by lia. by apply safe_ret. Qed.

Lemma safe_index {S A} (l : list A) i (P : A -> Prop) E :
  0 <= i < zlen l -> (forall x, l !! Z.to_nat i = Some x -> P x) ->
  safe (S := S) (index l i) P E.
Proof.
  intros Hi HP. unfold index. rewrite (proj2 (Z.ltb_ge _ _)) by lia.
  destruct (lookup_lt_is_Some_2 l (Z.to_nat i)) as [x Hx]; [unfold zlen in *; lia |].
  rewrite Hx. by apply safe_ret, HP.
Qed.

Lemma safe_copy_into {S A} (dst : list A) a b src (P : list A -> Prop) E :
  0 <= a -> a <= b -> b <= zlen dst -> b - a = zlen src ->
  P (list_inserts (Z.to_nat a) src dst) -> safe (S := S) (copy_into dst a b src) P E.
Proof.
  intros. unfold copy_into. rewrite !(proj2 (Z.leb_le _ _)) by lia.
  rewrite (proj2 (Z.eqb_eq _ _)) by lia. by apply safe_ret.
Qed.

(** [triple P m Q E]: from a state in [P], [m] ends in a value and state in
    [Q] or an error and state in [E]; it neither panics nor diverges. *)
Definition triple {S A} (P : S -> Prop) (m : M S A) (Q : A -> S -> Prop)
    (E : Error.t -> S -> Prop) : Prop :=
  forall s, P s ->
    match m s with
    | (Ok a, s') => Q a s'
    | (Err e, s') => E e s'
    | (Panic, _) | (Diverge, _) => False
    end.

Section triples.
Context {S : Type}.
Implicit Types P : S -> Prop.
Implicit Types E : Error.t -> S -> Prop.

Lemma triple_ret {A} P (a : A) Q E : (forall s, P s -> Q a s) -> triple P (ret a) Q E.
Proof. intros H s. apply H. Qed.

Lemma triple_fail {A} P e (Q : A -> S -> Prop) E : (forall s, P s -> E e s) -> triple P (fail e) Q E.
Proof. intros H s. apply H. Qed.

Lemma triple_bind {A B} P (m : M S A) (k : A -> M S B) R Q E :
  triple P m R E -> (forall a, triple (R a) (k a) Q E) -> triple P (bind m k) Q E.
Proof.
  intros Hm Hk s Hs. specialize (Hm s Hs). unfold bind.
  destruct (m s) as [[a | e | |] s']; [by apply Hk | done..].
Qed.

Lemma triple_pre {A} P P' (m : M S A) Q E :
  triple P' m Q E -> (forall s, P s -> P' s) -> triple P m Q E.
Proof. intros Hm HP s Hs. apply Hm. by apply HP. Qed.

Lemma triple_post {A} P (m : M S A) (Q Q' : A -> S -> Prop) E E' :
  triple P m Q' E' -> (forall a s, Q' a s -> Q a s) -> (forall e s, E' e s -> E e s) ->
  triple P m Q E.
Proof.
  intros Hm HQ HE s Hs. specialize (Hm s Hs). destruct (m s) as [[a | e | |] s']; auto.
Qed.

(** A precondition can be moved into the context. *)
Lemma triple_assume {A} (F : Prop) P (m : M S A) Q E :
  (F -> triple P m Q E) -> triple (fun s => F /\ P s) m Q E.
Proof. intros H s [HF HP]. by apply H. Qed.

Lemma triple_get P E : triple P get (fun a s => a = s /\ P s) E.
Proof. intros s Hs. done. Qed.

Lemma triple_put P s' E : triple P (put s') (fun _ s => s = s' /\ exists s0, P s0) E.
Proof. intros s Hs. cbn. eauto. Qed.

Lemma triple_ok_or {A} P (o : option A) e E :
  (forall s, P s -> o = None -> E e s) ->
  triple P (ok_or o e) (fun a s => o = Some a /\ P s) E.
Proof. intros H s Hs. destruct o; cbn; auto. Qed.

Lemma triple_slice {A} P (l : list A) a b E :
  0 <= a -> a <= b -> b <= zlen l ->
  triple P (slice l a b) (fun r s => r = range a b l /\ P s) E.
Proof.
  intros ??? s Hs. unfold slice. by rewrite !(proj2 (Z.leb_le _ _)) by lia.
Qed.

Lemma triple_index {A} P (l : list A) i E :
  0 <= i < zlen l -> triple P (index l i) (fun x s => l !! Z.to_nat i = Some x /\ P s) E.
Proof.
  intros Hi s Hs. unfold index. rewrite (proj2 (Z.ltb_ge _ _)) by lia.
  destruct (lookup_lt_is_Some_2 l (Z.to_nat i)) as [x Hx]; [unfold zlen in *; lia |].
  by rewrite Hx.
Qed.

Lemma triple_copy_into {A} P (dst : list A) a b src E :
  0 <= a -> a <= b -> b <= zlen dst -> b - a = zlen src ->
  triple P (copy_into dst a b src)
    (fun r s => r = list_inserts (Z.to_nat a) src dst /\ P s) E.
Proof.
  intros ???? s Hs. unfold copy_into. rewrite !(proj2 (Z.leb_le _ _)) by lia.
  by rewrite (proj2 (Z.eqb_eq _ _)) by lia.
Qed.
End triples.

(** [for i in a..a+n] with a loop invariant. *)
Lemma triple_for_range {S} (I : Z -> S -> Prop) (f : Z -> M S unit) E (a n : Z) :
  0 <= n ->
  (forall i, a <= i < a + n -> triple (I i) (f i) (fun _ => I (i + 1)) E) ->
  triple (I a) (for_each (seqZ a n) f) (fun _ => I (a + n)) E.
Proof.
  intros Hn. revert a. pattern n. apply natlike_ind; [| clear n Hn; intros n Hn IH | done].
  - intros a _. cbn. apply triple_ret. by rewrite Z.add_0_r.
  - intros a Hf. rewrite seqZ_cons by lia. cbn [for_each].
    rewrite Z.pred_succ. eapply triple_bind; [apply Hf; lia |]. intros [].
    replace (a + Z.succ n) with (Z.succ a + n) by lia. apply (IH (Z.succ a)).
    intros i Hi. apply Hf. lia.
Qed.

(** A [&mut] slice keeps its length. *)
Definition len_stable {A B} (m : M (list A) B) : Prop :=
  forall out, length (snd (m out)) = length out.

Section len_stable.
Context {A : Type}.

Lemma len_stable_bind {B C} (m : M (list A) B) (k : B -> M (list A) C) :
  len_stable m -> (forall b, len_stable (k b)) -> len_stable (bind m k).
Proof.
  intros Hm Hk out. specialize (Hm out). unfold bind.
  destruct (m out) as [[b | e | |] out']; cbn in *; [by rewrite Hk | done..].
Qed.
Lemma len_stable_ret {B} (b : B) : len_stable (A := A) (ret b).
Proof. done. Qed.
Lemma len_stable_fail {B} e : len_stable (A := A) (B := B) (fail e).
Proof. done. Qed.
Lemma len_stable_lift {B} (o : outcome B) : len_stable (A := A) (lift o).
Proof. done. Qed.
Lemma len_stable_get : len_stable (A := A) get.
Proof. done. Qed.
Lemma len_stable_ok_or {B} (o : option B) e : len_stable (A := A) (ok_or o e).
Proof. by destruct o. Qed.
Lemma len_stable_slice {B} (l : list B) a b : len_stable (A := A) (slice l a b).
Proof. intros out. unfold slice. by case_match. Qed.
Lemma len_stable_index {B} (l : list B) i : len_stable (A := A) (index l i).
Proof. intros out. unfold index. by repeat case_match. Qed.
Lemma len_stable_write_at a b (src : list A) : len_stable (write_at a b src).
Proof.
  intros out. unfold write_at, bind, get, copy_into. destruct (_ && _); [| done]. cbn.
  apply length_inserts.
Qed.
Lemma len_stable_store_at i (x : A) : len_stable (store_at i x).
Proof.
  intros out. unfold store_at, bind, get, index_set. destruct (_ && _); [| done]. cbn.
  apply length_insert.
Qed.
Lemma len_stable_if {B} (b : bool) (m n : M (list A) B) :
  len_stable m -> len_stable n -> len_stable (if b then m else n).
Proof. by destruct b. Qed.
End len_stable.

Lemma len_stable_for_each {A B} (l : list B) (f : B -> M (list A) unit) :
  (forall x, len_stable (f x)) -> len_stable (for_each l f).
Proof.
  intros Hf. induction l as [| x l IH]; cbn; [apply len_stable_ret |].
  by apply len_stable_bind.
Qed.

#[export] Hint Resolve len_stable_for_each : kv.
#[export] Hint Resolve len_stable_ret len_stable_fail len_stable_lift len_stable_get
  len_stable_ok_or len_stable_slice len_stable_index len_stable_write_at len_stable_store_at : kv.
#[export] Hint Extern 1 (len_stable (bind _ _)) => (apply len_stable_bind; [| intros ?]) : kv.
#[export] Hint Extern 1 (len_stable (if _ then _ else _)) => apply len_stable_if : kv.
#[export] Hint Extern 1 (len_stable (let _ := _ in _)) => cbn zeta : kv.

Lemma triple_write_at {A} (P : list A -> Prop) a b src (Q : unit -> list A -> Prop) E :
  0 <= a -> a <= b -> b - a = zlen src ->
  (forall out, P out -> b <= zlen out /\ Q tt (list_inserts (Z.to_nat a) src out)) ->
  triple P (write_at a b src) Q E.
Proof.
  intros ??? H out Hout. destruct (H out Hout). unfold write_at, bind, get, copy_into.
  rewrite !(proj2 (Z.leb_le _ _)), (proj2 (Z.eqb_eq _ _)) by lia. done.
Qed.

Lemma triple_store_at {A} (P : list A -> Prop) i x (Q : unit -> list A -> Prop) E :
  0 <= i -> (forall out, P out -> i < zlen out /\ Q tt (<[Z.to_nat i := x]> out)) ->
  triple P (store_at i x) Q E.
Proof.
  intros Hi H out Hout. destruct (H out Hout). unfold store_at, bind, get, index_set.
  rewrite (proj2 (Z.leb_le _ _)), (proj2 (Z.ltb_lt _ _)) by lia. done.
Qed.

(** Equations for the primitives at a state where they succeed. *)
Lemma bind_ok {S A B} (m : M S A) (k : A -> M S B) s a s' :
  m s = (Ok a, s') -> bind m k s = k a s'.
Proof. intros H. unfold bind. by rewrite H. Qed.

Lemma index_Some {S A} (l : list A) i x s :
  0 <= i -> l !! Z.to_nat i = Some x -> index (S := S) l i s = (Ok x, s).
Proof. intros Hi Hl. unfold index. rewrite (proj2 (Z.ltb_ge _ _)) by lia. by rewrite Hl. Qed.

Lemma slice_ok {S A} (l : list A) a b s :
  0 <= a -> a <= b -> b <= zlen l -> slice (S := S) l a b s = (Ok (range a b l), s).
Proof. intros. unfold slice. by rewrite !(proj2 (Z.leb_le _ _)) by lia. Qed.

Lemma copy_into_ok {S A} (dst : list A) a b src s :
  0 <= a -> a <= b -> b <= zlen dst -> b - a = zlen src ->
  copy_into (S := S) dst a b src s = (Ok (list_inserts (Z.to_nat a) src dst), s).
Proof.
  intros. unfold copy_into. rewrite !(proj2 (Z.leb_le _ _)) by lia.
  by rewrite (proj2 (Z.eqb_eq _ _)) by lia.
Qed.

Lemma index_set_ok {S A} (l : list A) i x s :
  0 <= i -> i < zlen l -> index_set (S := S) l i x s = (Ok (<[Z.to_nat i := x]> l), s).
Proof.
  intros. unfold index_set. rewrite (proj2 (Z.leb_le _ _)), (proj2 (Z.ltb_lt _ _)) by lia. done.
Qed.

(** Equal parts make equal computations, state by state. *)
Lemma bind_ext {S A B} (m : M S A) (k k' : A -> M S B) s :
  (forall a s', k a s' = k' a s') -> bind m k s = bind m k' s.
Proof. intros Hk. unfold bind. by destruct (m s) as [[a | e | |] s']. Qed.

Lemma bind_ext_l {S A B} (m m' : M S A) (k : A -> M S B) s :
  m s = m' s -> bind m k s = bind m' k s.
Proof. intros Hm. unfold bind. by rewrite Hm. Qed.

Lemma try_ok {S A B} (c : M S A) (k : A + Error.t -> M S B) (s : S) a s' :
  c s = (Ok a, s') -> bind (try_ c) k s = k (inl a) s'.
Proof. intros E. unfold bind, try_. by rewrite E. Qed.

Lemma try_err {S A B} (c : M S A) (k : A + Error.t -> M S B) (s : S) e s' :
  c s = (Err e, s') -> bind (try_ c) k s = k (inr e) s'.
Proof. intros E. unfold bind, try_. by rewrite E. Qed.

Lemma for_each_app {S A} (k k' : list A) (f : A -> M S unit) (s : S) :
  for_each (k ++ k') f s = bind (for_each k f) (fun _ => for_each k' f) s.
Proof.
  revert s. induction k as [| x k IH]; intros s; cbn [app for_each]; [done |]. unfold bind.
  destruct (f x s) as [[[] | e | |] s1]; [| done..]. rewrite IH. done.
Qed.

Lemma finally_ext {S A} (m : M S A) (c c' : S -> S) s :
  (forall s', c s' = c' s') -> finally m c s = finally m c' s.
Proof. intros Hc. unfold finally. destruct (m s) as [o s']. by rewrite Hc. Qed.

(** Inversion: a bind that succeeded. *)
Lemma bind_inv_ok {S A B} (m : M S A) (k : A -> M S B) s b s'' :
  bind m k s = (Ok b, s'') -> exists a s', m s = (Ok a, s') /\ k a s' = (Ok b, s'').
Proof. unfold bind. destruct (m s) as [[a | e | |] s']; intros H; try discriminate. eauto. Qed.

(** * Observations

    [quiet obs m]: whatever its outcome, [m] leaves the observation [obs] of
    the state as it was. *)

Definition quiet {S A X} (obs : S -> X) (m : M S A) : Prop := forall s, obs (snd (m s)) = obs s.

Section quiet.
Context {S X : Type} (obs : S -> X).

Lemma quiet_ret {A} (a : A) : quiet obs (ret a). Proof. done. Qed.
Lemma quiet_fail {A} e : quiet obs (fail (A := A) e). Proof. done. Qed.
Lemma quiet_panic {A} : quiet obs (panic (A := A)). Proof. done. Qed.
Lemma quiet_diverge {A} : quiet obs (diverge (A := A)). Proof. done. Qed.
Lemma quiet_lift {A} (o : outcome A) : quiet obs (lift o). Proof. done. Qed.
Lemma quiet_gets {A} (f : S -> A) : quiet obs (gets f). Proof. done. Qed.

Lemma quiet_bind {A B} (m : M S A) (k : A -> M S B) :
  quiet obs m -> (forall a, quiet obs (k a)) -> quiet obs (bind m k).
Proof.
  intros Hm Hk s. specialize (Hm s). unfold bind.
  destruct (m s) as [[a | e | |] s']; cbn in *; [by rewrite Hk | done..].
Qed.

Lemma quiet_if {A} (b : bool) (m m' : M S A) : quiet obs m -> quiet obs m' -> quiet obs (if b then m else m').
Proof. by destruct b. Qed.

Lemma quiet_modify (f : S -> S) : (forall s, obs (f s) = obs s) -> quiet obs (modify f).
Proof. done. Qed.

Lemma quiet_finally {A} (m : M S A) c : quiet obs m -> (forall s, obs (c s) = obs s) -> quiet obs (finally m c).
Proof.
  intros Hm Hc s. specialize (Hm s). unfold finally. destruct (m s) as [o s']. cbn in *. congruence.
Qed.

Lemma quiet_ok_or {A} (o : option A) e : quiet obs (ok_or o e).
Proof. by destruct o. Qed.

Lemma quiet_index {A} (l : list A) i : quiet obs (index l i).
Proof. unfold index. apply quiet_if; [done |]. by destruct (l !! _). Qed.

Lemma quiet_slice {A} (l : list A) a b : quiet obs (slice l a b).
Proof. by apply quiet_if. Qed.

Lemma quiet_index_set {A} (l : list A) i (x : A) : quiet obs (index_set l i x).
Proof. by apply quiet_if. Qed.

Lemma quiet_copy_into {A} (dst : list A) a b src : quiet obs (copy_into dst a b src).
Proof. by apply quiet_if. Qed.

Lemma quiet_vec_zeroed n : quiet obs (vec_zeroed n).
Proof. by apply quiet_if. Qed.

Lemma quiet_swap {A} (l : list A) i j : quiet obs (swap l i j).
Proof.
  repeat (apply quiet_bind; [apply quiet_index |]; intros). apply quiet_bind; [apply quiet_index_set |].
  intros. apply quiet_index_set.
Qed.

Lemma quiet_map_m {A B} (f : A -> M S B) (l : list A) :
  (forall a, quiet obs (f a)) -> quiet obs (map_m f l).
Proof.
  intros Hf. induction l as [| a l IH]; cbn; [done |].
  apply quiet_bind; [done |]. intros b. by apply quiet_bind.
Qed.

Lemma quiet_repeat_m {A} n (m : M S A) : quiet obs m -> quiet obs (repeat_m n m).
Proof.
  intros Hm. induction n as [| n IH]; cbn; [done |].
  apply quiet_bind; [done |]. intros b. by apply quiet_bind.
Qed.
End quiet.

Lemma quiet_zoom {S T A X} (obs : S -> X) (get_ : S -> T) (set_ : T -> S -> S) (m : M T A) :
  (forall s, obs (set_ (snd (m (get_ s))) s) = obs s) -> quiet obs (zoom get_ set_ m).
Proof. intros H s. specialize (H s). unfold zoom. by destruct (m (get_ s)). Qed.

#[export] Hint Resolve quiet_ret quiet_fail quiet_panic quiet_diverge quiet_lift quiet_gets quiet_ok_or
  quiet_index quiet_slice quiet_index_set quiet_copy_into quiet_vec_zeroed quiet_swap : kv.

(** One step of a proof that a computation is quiet. *)
Ltac hush :=
  match goal with
  | _ => solve [eauto with kv]
  | |- quiet _ (bind _ _) => apply quiet_bind; [| intros ?]
  | |- quiet _ (if _ then _ else _) => apply quiet_if
  | |- quiet _ (map_m _ _) => apply quiet_map_m; intros ?
  | |- quiet _ (repeat_m _ _) => apply quiet_repeat_m
  | |- quiet _ (match ?x with _ => _ end) => destruct x
  | |- quiet _ (finally _ _) => apply quiet_finally
  end.

#[export] Hint Resolve safe_ret safe_fail : kv.

(** Decide the head boolean test of the goal. *)
Ltac case_test :=
  match goal with
  | |- context [if ?b then _ else _] =>
      let E := fresh "Ht" in destruct b eqn:E
  end.

(** Turn boolean comparisons in the context into propositions. *)
Ltac tests :=
  repeat match goal with
  | H : (_ <? _) = true |- _ => apply Z.ltb_lt in H
  | H : (_ <? _) = false |- _ => apply Z.ltb_ge in H
  | H : (_ <=? _) = true |- _ => apply Z.leb_le in H
  | H : (_ <=? _) = false |- _ => apply Z.leb_gt in H
  | H : (_ =? _) = true |- _ => apply Z.eqb_eq in H
  | H : (_ =? _) = false |- _ => apply Z.eqb_neq in H
  | H : (_ && _) = true |- _ => apply andb_true_iff in H as [? ?]
  | H : (_ || _) = false |- _ => apply orb_false_iff in H as [? ?]
  | H : negb _ = true |- _ => apply negb_true_iff in H
  | H : negb _ = false |- _ => apply negb_false_iff in H
  | H : bool_decide _ = true |- _ => apply bool_decide_eq_true in H
  | H : bool_decide _ = false |- _ => apply bool_decide_eq_false in H
  end.
