(* ===== verification/Format.v ===== *)
(** * What [{:?}] prints

    The [Debug] formatting of the standard library, as far as the crate's
    own [Debug] instances and messages use it: quoted strings, options,
    lists, durations and the [debug_struct] builder (without the alternate
    form).  Each type's [fmt] is in its component's file.

    ASCII control characters are escaped as Rust does; bytes of multi-byte
    characters are passed through, which is what Rust does with printable
    ones. *)

From S2P Require Import Prelude Rust.
From Stdlib Require Import Ascii.

(** ** Strings *)

Definition hex_digit (n : N) : ascii := ascii_of_N (if (n <? 10)%N then n + 48 else n + 87)%N.

Definition escape_char (c : ascii) : string :=
  let n := N_of_ascii c in
  if (n =? 0)%N then "\0" else if (n =? 9)%N then "\t" else if (n =? 10)%N then "\n" else
  if (n =? 13)%N then "\r" else if (n =? 92)%N then "\\" else
  if (n =? 34)%N then String "\" (String "034" EmptyString) else
  if (n <? 16)%N then "\u{" +:+ String (hex_digit n) "}" else
  if (n <? 32)%N then "\u{1" +:+ String (hex_digit (n - 16)) "}" else
  if (n =? 127)%N then "\u{7f}" else String c EmptyString.

Fixpoint escape (s : string) : string :=
  match s with EmptyString => EmptyString | String c s => escape_char c +:+ escape s end.

Definition quote : string := String "034" EmptyString.
Definition debug_str (s : string) : string := quote +:+ escape s +:+ quote.

(** ** Options, lists, booleans *)

Definition debug_bool (b : bool) : string := if b then "true" else "false".

Definition debug_option {A} (f : A -> string) (o : option A) : string :=
  match o with Some a => "Some(" +:+ f a +:+ ")" | None => "None" end.

Definition debug_list {A} (f : A -> string) (l : list A) : string :=
  "[" +:+ String.concat ", " (f <$> l) +:+ "]".

(** ** Durations

    [fmt_decimal] without a precision: the digits of the fraction up to the
    last that is not zero. *)

Fixpoint fraction_digits (fuel : nat) (fraction divisor : Z) : string :=
  match fuel with
  | S fuel =>
      if 0 <? fraction then
        pretty (fraction `div` divisor) +:+ fraction_digits fuel (fraction mod divisor) (divisor `div` 10)
      else EmptyString
  | O => EmptyString
  end.

Definition fmt_decimal (integer fraction divisor : Z) (postfix : string) : string :=
  pretty integer +:+
  (if 0 <? fraction then "." +:+ fraction_digits 9 fraction divisor else EmptyString) +:+ postfix.

Definition micro : string := String "194" (String "181" EmptyString).

Definition debug_duration (d : Z) : string :=
  let secs := d `div` nanos_per_sec in
  let nanos := d mod nanos_per_sec in
  if 0 <? secs then fmt_decimal secs nanos 100000000 "s"
  else if 1000000 <=? nanos then fmt_decimal (nanos `div` 1000000) (nanos mod 1000000) 100000 "ms"
  else if 1000 <=? nanos then fmt_decimal (nanos `div` 1000) (nanos mod 1000) 100 (micro +:+ "s")
  else fmt_decimal nanos 0 1 "ns".

Example debug_duration_60s : debug_duration 60000000000 = "60s". Proof. reflexivity. Qed.
Example debug_duration_2_7s : debug_duration 2070000000 = "2.07s". Proof. reflexivity. Qed.
Example debug_duration_zero : debug_duration 0 = "0ns". Proof. reflexivity. Qed.
Example debug_duration_ms : debug_duration 100000000 = "100ms". Proof. reflexivity. Qed.

(** ** [debug_struct] *)

Definition debug_fields (fields : list (string * string)) : string :=
  String.concat ", " ((fun f => f.1 +:+ ": " +:+ f.2) <$> fields).

(** [.finish()]. *)
Definition debug_struct (name : string) (fields : list (string * string)) : string :=
  match fields with
  | [] => name
  | _ => name +:+ " { " +:+ debug_fields fields +:+ " }"
  end.

(** [.finish_non_exhaustive()]. *)
Definition debug_struct_open (name : string) (fields : list (string * string)) : string :=
  match fields with
  | [] => name +:+ " { .. }"
  | _ => name +:+ " { " +:+ debug_fields fields +:+ ", .. }"
  end.
