(* ===== verification/Rng.v ===== *)
(** * Randomness ([rng.rs], [fragment/util.rs])

    [getrandom] is third-party: it is the class [Rng], whose only law is the
    documented one (on success the whole buffer was filled).  [W] is the
    outside world it changes.  Everything below holds for every instance. *)

From S2P Require Import Prelude Errors Rust.

(** The [getrandom] crate: [None] is a failed call. *)
Class Rng (W : Type) := {
  getrandom : Z -> W -> option (list byte) * W;
  getrandom_fills : forall n w bs w', 0 <= n -> getrandom n w = (Some bs, w') -> zlen bs = n
}.

Definition rng_failed : Error.t := Error.Internal "RNG failed".

Section rng.
Context {W : Type} `{Rng W}.

(** [rng::fill] on a buffer of [n] bytes; the bytes written come back. *)
Definition fill (n : Z) : M W (list byte) := fun w =>
  match getrandom n w with
  | (Some bs, w') => (Ok bs, w')
  | (None, w') => (Err rng_failed, w')
  end.

(** [rng::random_u64]. *)
Definition random_u64 : M W Z :=
  let! buf := fill 8 in
  ret (from_le_bytes buf).

(** [util::sample_range].  [max - min + 1] wraps like the source's [usize]
    arithmetic; a span of 0 divides by zero. *)
Definition sample_range (min max : Z) : M W Z :=
  let span := wrap64 (max - min + 1) in
  let! r := random_u64 in
  if span =? 0 then panic else
  let reduced := r mod span in
  ret (min + reduced).

(** The loop of [util::fisher_yates], counting [i] down to 0. *)
Fixpoint fisher_yates_loop {A} (i : nat) (l : list A) : M W (list A) :=
  match i with
  | O => ret l
  | S i' =>
      let j_span := Z.of_nat i + 1 in
      let! r := random_u64 in
      let j := r mod j_span in
      let! l' := swap l (Z.of_nat i) j in
      fisher_yates_loop i' l'
  end.

(** [util::fisher_yates]; the shuffled slice comes back. *)
Definition fisher_yates {A} (l : list A) : M W (list A) :=
  if zlen l <? 2 then ret l else fisher_yates_loop (length l - 1) l.

(** ** Lemmas *)

Lemma fill_safe n : 0 <= n -> safe (fill n) (fun bs => zlen bs = n) (eq rng_failed).
Proof.
  intros Hn w. unfold fill. destruct (getrandom n w) as [[bs |] w'] eqn:E; cbn; [| done].
  eauto using getrandom_fills.
Qed.

Lemma random_u64_safe : safe random_u64 (fun r => 0 <= r <= u64_max) (eq rng_failed).
Proof.
  eapply safe_bind; [by apply fill_safe |]. intros bs Hbs. apply safe_ret.
  pose proof (le_combine_range bs). pose proof (le_combine_lt bs 8 Hbs).
  unfold from_le_bytes, u64_max. lia.
Qed.

Lemma sample_range_safe min max :
  1 <= min -> min <= max -> max <= usize_max ->
  safe (sample_range min max) (fun p => min <= p <= max) (eq rng_failed).
Proof.
  intros. unfold usize_max in *. eapply safe_bind; [apply random_u64_safe |]. intros r Hr.
  unfold wrap64. rewrite (Z.mod_small (max - min + 1)) by lia.
  rewrite (proj2 (Z.eqb_neq _ _)) by lia. apply safe_ret.
  pose proof (Z.mod_pos_bound r (max - min + 1)). lia.
Qed.

(** Swapping two positions is a permutation. *)
Lemma swap_ok {A} (l : list A) (i j : Z) (w : W) :
  0 <= i < zlen l -> 0 <= j < zlen l ->
  exists x y, l !! Z.to_nat i = Some x /\ l !! Z.to_nat j = Some y /\
    swap l i j w = (Ok (<[Z.to_nat j := x]> (<[Z.to_nat i := y]> l)), w).
Proof.
  intros Hi Hj.
  destruct (lookup_lt_is_Some_2 l (Z.to_nat i)) as [x Hx]; [unfold zlen in *; lia |].
  destruct (lookup_lt_is_Some_2 l (Z.to_nat j)) as [y Hy]; [unfold zlen in *; lia |].
  exists x, y. split_and!; [done.. |]. unfold swap.
  erewrite bind_ok by (apply index_Some; [lia | done]).
  erewrite bind_ok by (apply index_Some; [lia | done]).
  erewrite bind_ok by (apply index_set_ok; lia).
  apply index_set_ok; [lia |]. rewrite zlen_insert. lia.
Qed.

Lemma swap_Permutation {A} (l : list A) (i j : nat) x y :
  l !! i = Some x -> l !! j = Some y -> <[j := x]> (<[i := y]> l) ≡ₚ l.
Proof.
  intros Hi Hj.
  apply Permutation_inj. split; [by rewrite !length_insert |].
  exists (fun k => if decide (k = i) then j else if decide (k = j) then i else k).
  split.
  - intros a b. repeat case_decide; congruence.
  - intros k. destruct (decide (k = j)) as [-> | Hkj].
    + rewrite list_lookup_insert_eq by (rewrite length_insert; by eapply lookup_lt_Some).
      repeat case_decide; congruence.
    + rewrite list_lookup_insert_ne by done.
      destruct (decide (k = i)) as [-> | Hki].
      * rewrite list_lookup_insert_eq by (by eapply lookup_lt_Some). congruence.
      * rewrite list_lookup_insert_ne by done. repeat case_decide; congruence.
Qed.

Lemma fisher_yates_loop_safe {A} (i : nat) (l : list A) :
  Z.of_nat i < zlen l \/ i = O ->
  safe (fisher_yates_loop i l) (fun l' => l' ≡ₚ l) (eq rng_failed).
Proof.
  revert l. induction i as [| i IH]; intros l Hi; cbn [fisher_yates_loop].
  { by apply safe_ret. }
  eapply safe_bind; [apply random_u64_safe |]. intros r Hr.
  pose proof (Z.mod_pos_bound r (Z.of_nat (S i) + 1)).
  intros w. destruct (swap_ok l (Z.of_nat (S i)) (r mod (Z.of_nat (S i) + 1)) w)
    as (x & y & Hx & Hy & Hsw); [lia.. |].
  erewrite bind_ok by exact Hsw.
  eapply safe_mono; [apply IH | |].
  - unfold zlen in *. rewrite !length_insert. lia.
  - intros l' Hl'. rewrite Hl'. by apply swap_Permutation.
  - done.
Qed.

Lemma fisher_yates_safe {A} (l : list A) :
  safe (fisher_yates l) (fun l' => l' ≡ₚ l) (eq rng_failed).
Proof.
  unfold fisher_yates. case_test; [by apply safe_ret |].
  tests. apply fisher_yates_loop_safe. left. unfold zlen in *. lia.
Qed.

(** ** The shuffle, given its random numbers *)

(** Two elements trade places. *)
Definition exchange {A} (i j : nat) (l : list A) : list A :=
  match l !! i, l !! j with
  | Some x, Some y => <[j := x]> (<[i := y]> l)
  | _, _ => l
  end.

(** From the last position down to the second, each trades places with the
    one at or below it that its random number picks. *)
Fixpoint shuffle_by {A} (rs : list Z) (l : list A) : list A :=
  match rs with
  | [] => l
  | r :: rs' => shuffle_by rs' (exchange (length rs) (Z.to_nat (r mod Z.of_nat (S (length rs)))) l)
  end.

Lemma length_exchange {A} i j (l : list A) : length (exchange i j l) = length l.
Proof. unfold exchange. repeat case_match; by rewrite ?length_insert. Qed.

Lemma exchange_Permutation {A} i j (l : list A) : exchange i j l ≡ₚ l.
Proof. unfold exchange. repeat case_match; [by apply swap_Permutation | done..]. Qed.

Lemma shuffle_by_Permutation {A} rs (l : list A) : shuffle_by rs l ≡ₚ l.
Proof. revert l. induction rs as [| r rs IH]; intros l; cbn; [done |]. rewrite IH. apply exchange_Permutation. Qed.

Lemma exchange_fmap {A B} (f : A -> B) i j l : exchange i j (f <$> l) = f <$> exchange i j l.
Proof.
  unfold exchange. rewrite !list_lookup_fmap. destruct (l !! i), (l !! j); cbn; by rewrite ?list_fmap_insert.
Qed.

Lemma shuffle_by_fmap {A B} (f : A -> B) rs l : shuffle_by rs (f <$> l) = f <$> shuffle_by rs l.
Proof. revert l. induction rs as [| r rs IH]; intros l; cbn; [done |]. by rewrite exchange_fmap, IH. Qed.

Lemma fisher_yates_loop_shuffles {A} (i : nat) (l : list A) w :
  (i < length l)%nat \/ i = O ->
  fisher_yates_loop i l w = bind (repeat_m i random_u64) (fun rs => ret (shuffle_by rs l)) w.
Proof.
  revert l w. induction i as [| i IH]; intros l w Hi; cbn [fisher_yates_loop repeat_m]; [done |].
  unfold bind at 1 3 4. destruct (random_u64 w) as [[r | e | |] w1]; [| done..].
  pose proof (Z.mod_pos_bound r (Z.of_nat (S i) + 1)).
  destruct (swap_ok l (Z.of_nat (S i)) (r mod (Z.of_nat (S i) + 1)) w1) as (x & y & Hx & Hy & E);
    [unfold zlen; lia.. |].
  rewrite (bind_ok _ _ _ _ _ E), Nat2Z.id. rewrite Nat2Z.id in Hx.
  assert (<[Z.to_nat (r mod (Z.of_nat (S i) + 1)) := x]> (<[S i := y]> l) =
    exchange (S i) (Z.to_nat (r mod (Z.of_nat (S i) + 1))) l) as -> by (unfold exchange; by rewrite Hx, Hy).
  rewrite IH by (rewrite length_exchange; lia). unfold bind, ret.
  pose proof (safe_repeat_m i random_u64 _ _ random_u64_safe w1) as Hl.
  destruct (repeat_m i random_u64 w1) as [[rs | e | |] w2]; [| done..]. destruct Hl as [_ <-].
  cbn [shuffle_by length]. do 6 f_equal. lia.
Qed.

(** [fisher_yates] is that shuffle, on one random word per position. *)
Lemma fisher_yates_shuffles {A} (l : list A) w :
  fisher_yates l w = bind (repeat_m (length l - 1) random_u64) (fun rs => ret (shuffle_by rs l)) w.
Proof.
  unfold fisher_yates. case_test; tests; unfold zlen in *.
  - by replace (length l - 1)%nat with O by lia.
  - apply fisher_yates_loop_shuffles. lia.
Qed.

(** No order is ruled out: each is the shuffle for some random words. *)
Lemma shuffle_by_reaches {A} n (l l' : list A) :
  l' ≡ₚ l -> drop (S n) l' = drop (S n) l -> (n < length l)%nat -> Z.of_nat n <= u64_max ->
  exists rs, length rs = n /\ Forall (fun r => 0 <= r <= u64_max) rs /\ shuffle_by rs l = l'.
Proof.
  revert l. induction n as [| n IH]; intros l Hp Hd Hn Hm.
  { exists []. split_and!; [done.. |]. cbn. destruct l as [| x l]; [cbn in Hn; lia |].
    destruct l' as [| y l']; [by apply Permutation_nil_cons in Hp |]. cbn in Hd. rewrite !drop_0 in Hd. subst l'.
    apply Permutation_app_inv_r with (l := l) (l1 := [y]) (l2 := [x]), Permutation_singleton_r in Hp.
    by injection Hp as ->. }
  pose proof (Permutation_length Hp) as Hlen.
  destruct (lookup_lt_is_Some_2 l' (S n)) as [x Hx]; [lia |].
  assert (take (S (S n)) l' ≡ₚ take (S (S n)) l) as Ht.
  { apply Permutation_app_inv_r with (l := drop (S (S n)) l).
    rewrite <- Hd at 1. by rewrite !take_drop. }
  assert (x ∈ take (S (S n)) l) as (j & Hj)%list_elem_of_lookup.
  { rewrite <- Ht. apply list_elem_of_lookup. exists (S n). by rewrite lookup_take_lt by lia. }
  pose proof (lookup_lt_Some _ _ _ Hj) as Hjl. rewrite length_take in Hjl.
  rewrite lookup_take_lt in Hj by lia.
  destruct (lookup_lt_is_Some_2 l (S n)) as [y Hy]; [lia |].
  set (l1 := exchange (S n) j l).
  assert (l1 = <[j := y]> (<[S n := x]> l)) as El by (unfold l1, exchange; by rewrite Hy, Hj).
  destruct (IH l1) as (rs & Hl & Hf & Hs).
  - rewrite Hp. symmetry. apply exchange_Permutation.
  - assert (l1 !! S n = Some x) as H1.
    { rewrite El. destruct (decide (j = S n)) as [-> | Hne].
      - rewrite list_lookup_insert_eq by (rewrite length_insert; lia). congruence.
      - rewrite list_lookup_insert_ne by done. by rewrite list_lookup_insert_eq by lia. }
    rewrite (drop_S _ _ _ Hx), (drop_S _ _ _ H1), Hd. f_equal. rewrite El.
    by rewrite !drop_insert_lt by lia.
  - unfold l1. rewrite length_exchange. lia.
  - lia.
  - exists (Z.of_nat j :: rs). split_and!; [cbn; by rewrite Hl | constructor; [lia | done] |].
    cbn [shuffle_by length]. rewrite Hl. rewrite Z.mod_small by lia. by rewrite Nat2Z.id.
Qed.

(** ** What was asked of the generator *)

(** The generator filled a buffer. *)
Definition draw (w w' : W) : Prop := exists n bs, getrandom n w = (Some bs, w').

(** It answered, until it refused. *)
Definition refused (w w' : W) : Prop := exists w0 n, rtc draw w w0 /\ getrandom n w0 = (None, w').

(** [m] only draws, and fails exactly when the generator does. *)
Definition drawing {A} (m : M W A) : Prop := forall w,
  match m w with
  | (Err e, w') => e = rng_failed /\ refused w w'
  | (_, w') => rtc draw w w'
  end.

Lemma drawing_ret {A} (a : A) : drawing (ret a).
Proof. intros w. apply rtc_refl. Qed.

Lemma drawing_panic {A} : drawing (A := A) panic.
Proof. intros w. apply rtc_refl. Qed.

Lemma drawing_diverge {A} : drawing (A := A) diverge.
Proof. intros w. apply rtc_refl. Qed.

Lemma drawing_bind {A B} (m : M W A) (k : A -> M W B) :
  drawing m -> (forall a, drawing (k a)) -> drawing (bind m k).
Proof.
  intros Hm Hk w. unfold bind. specialize (Hm w). destruct (m w) as [[a | e | |] w1]; [| done..].
  specialize (Hk a w1). destruct (k a w1) as [[b | e | |] w2]; [by etrans | | by etrans..].
  destruct Hk as (-> & w0 & n & Hr & E). split; [done |]. exists w0, n. split; [by etrans | done].
Qed.

Lemma drawing_random_u64 : drawing random_u64.
Proof.
  intros w. unfold random_u64, bind, fill, ret. destruct (getrandom 8 w) as [[bs |] w'] eqn:E.
  - apply rtc_once. by exists 8, bs.
  - split; [done |]. exists w, 8. split; [apply rtc_refl | done].
Qed.

Lemma drawing_sample_range min max : drawing (sample_range min max).
Proof.
  apply drawing_bind; [apply drawing_random_u64 |]. intros r.
  case_test; [apply drawing_panic | apply drawing_ret].
Qed.

Lemma drawing_repeat {A} n (m : M W A) : drawing m -> drawing (repeat_m n m).
Proof.
  intros Hm. induction n as [| n IH]; cbn [repeat_m]; [apply drawing_ret |].
  apply drawing_bind; [done |]. intros x. apply drawing_bind; [done |]. intros xs. apply drawing_ret.
Qed.
End rng.

#[export] Hint Resolve fill_safe random_u64_safe sample_range_safe fisher_yates_safe : kv.

(** ** A registered generator

    What [register_rng!] makes of the application's function [path], which
    says whether it filled the buffer: the function [getrandom] calls on
    targets it has no generator for, unless the buffer is empty.  The crate
    hands it zeroed buffers only.  [custom_start] is
    [getrandom::Error::CUSTOM_START]. *)
Section registered.
Context {W : Type} (custom_start : Z) (path : list byte -> W -> bool * list byte * W).

(** [__private::FAILED]: an error code is never zero. *)
Definition FAILED : Z := let code := custom_start + 1 in if code =? 0 then 1 else code.

(** [__key_vault_rng]. *)
Definition key_vault_rng (buf : list byte) (w : W) : (unit + Z) * list byte * W :=
  let '(filled, buf, w) := path buf w in
  (if filled then inl tt else inr FAILED, buf, w).

Definition registered (n : Z) (w : W) : option (list byte) * W :=
  if n =? 0 then (Some [], w) else
  let '(r, buf, w) := key_vault_rng (replicate (Z.to_nat n) Byte.x00) w in
  (match r with inl _ => Some buf | inr _ => None end, w).

(** The slice keeps its length, so the registered function is a generator. *)
Context (path_slice : forall buf w, length (path buf w).1.2 = length buf).

Lemma registered_fills n w bs w' : 0 <= n -> registered n w = (Some bs, w') -> zlen bs = n.
Proof.
  intros Hn. unfold registered, key_vault_rng. case_test; tests; [intros [= <- _]; by subst |].
  pose proof (path_slice (replicate (Z.to_nat n) Byte.x00) w) as Hl.
  destruct (path _ w) as [[[] buf] w1]; [| done]. intros [= <- _]. cbn in Hl.
  unfold zlen. rewrite Hl, length_replicate. lia.
Qed.

Definition registered_rng : Rng W := {| getrandom := registered; getrandom_fills := registered_fills |}.

(** A function that gives up makes [fill] fail, and nothing else. *)
Lemma registered_fill n w :
  0 < n ->
  fill (H := registered_rng) n w =
    let '(filled, buf, w') := path (replicate (Z.to_nat n) Byte.x00) w in
    (if filled then Ok buf else Err rng_failed, w').
Proof.
  intros Hn. unfold fill. cbn [getrandom registered_rng]. unfold registered, key_vault_rng.
  rewrite (proj2 (Z.eqb_neq _ _)) by lia. by destruct (path _ w) as [[[] buf] w1].
Qed.
End registered.

(** ** A scripted generator

    A concrete [Rng]: the world is the list of answers still to be given.  A
    call whose next answer has the wrong length, or that finds no answer,
    fails.  The witnesses run the code against it. *)
Module Script.
Definition world : Type := list (list byte).

Definition answer (n : Z) (w : world) : option (list byte) * world :=
  match w with
  | [] => (None, [])
  | bs :: w' => if zlen bs =? n then (Some bs, w') else (None, w')
  end.

Lemma answer_fills n w bs w' : 0 <= n -> answer n w = (Some bs, w') -> zlen bs = n.
Proof.
  intros _. destruct w as [| b w]; cbn; [done |].
  case_test; intros [= <- <-]. by tests.
Qed.

#[global] Instance rng : Rng world := {| getrandom := answer; getrandom_fills := answer_fills |}.

(** The answer that makes [random_u64] return [z]. *)
Definition word (z : Z) : list byte := le_split 8 z.

Lemma random_u64_word z w : 0 <= z <= u64_max -> random_u64 (word z :: w) = (Ok z, w).
Proof.
  intros Hz. unfold random_u64, bind, fill, word. cbn [getrandom rng answer].
  rewrite zlen_le_split. change (Z.of_nat 8 =? 8) with true. cbn beta iota.
  unfold ret, from_le_bytes. rewrite le_combine_split.
  rewrite Z.mod_small; [done | unfold u64_max in Hz; lia].
Qed.
End Script.
