(* ===== verification/RawKey.v ===== *)
(** * Raw key material ([fetcher/mod.rs])

    A [RawKey] owns a byte buffer.  Its [Drop] wipes the allocation: the
    buffer is modelled with its spare capacity in [Buffer], which is what
    [RawKey::wipe] (and every [Vec::zeroize] of the crate) clears. *)

From S2P Require Import Prelude Errors Rust Format.

(** A [Vec<u8>] allocation: the initialised bytes and whatever the spare
    capacity still holds. *)
Module Buffer.
Record t := { data : list byte; spare : list byte }.

Definition capacity (v : t) : Z := zlen (data v) + zlen (spare v).

(** Everything a memory scan of the allocation finds. *)
Definition allocation (v : t) : list byte := data v ++ spare v.

(** [v.truncate(n)]: the cut bytes stay in the spare capacity. *)
Definition truncate (n : Z) (v : t) : t :=
  {| data := take (Z.to_nat n) (data v); spare := drop (Z.to_nat n) (data v) ++ spare v |}.

(** [Vec::zeroize]: every byte of the allocation is overwritten, then the
    length is set to 0. *)
Definition zeroize (v : t) : t :=
  {| data := []; spare := zeros (zlen (data v)) ++ zeros (zlen (spare v)) |}.

Lemma allocation_truncate n v : allocation (truncate n v) = allocation v.
Proof. unfold allocation, truncate; cbn. by rewrite app_assoc, take_drop. Qed.

Lemma allocation_zeroize v : allocation (zeroize v) = zeros (capacity v).
Proof.
  unfold allocation, zeroize, capacity, zeros; cbn.
  rewrite <- replicate_add. f_equal. pose proof (zlen_nonneg (data v)).
  pose proof (zlen_nonneg (spare v)). lia.
Qed.
End Buffer.

Module RawKey.
(** [struct RawKey]. *)
Record t := { bytes : list byte }.

#[global] Instance t_eq_dec : EqDecision t.
Proof. solve_decision. Defined.

Definition new (bytes : list byte) : t := {| bytes := bytes |}.
Definition len (self : t) : Z := zlen (bytes self).
Definition is_empty (self : t) : bool := len self =? 0.
Definition expose_secret (self : t) : list byte := bytes self.
Definition as_bytes (self : t) : list byte := bytes self.

(** [impl Debug for RawKey]: the length and a fixed marker. *)
Definition fmt (self : t) : string :=
  debug_struct "RawKey" [("len", pretty (len self)); ("bytes", debug_str "<redacted>")].

(** [RawKey::wipe], which is also [Drop], on the buffer behind the key. *)
Definition wipe (v : Buffer.t) : Buffer.t := Buffer.zeroize v.
End RawKey.
