(* ===== verification/Normalize.v ===== *)
(** * BLAKE3 normalization ([normalize.rs])

    The [blake3] crate is the class [Blake3]: an extendable-output function
    per hashing mode, whose only law is that filling [n] bytes writes [n]
    bytes. *)

From S2P Require Import Prelude Errors Rust RawKey.

(** [Hasher::new], [Hasher::new_keyed], [Hasher::new_derive_key]. *)
Inductive hash_mode :=
| Unkeyed
| Keyed (key : list byte)
| DeriveKey (context : string).

(** [Hasher::update] on the concatenated input, then [finalize_xof().fill]
    on a buffer of [n] bytes. *)
Class Blake3 := {
  xof : hash_mode -> list byte -> Z -> list byte;
  xof_fills : forall mode input n, 0 <= n -> zlen (xof mode input n) = n
}.

Definition NORMALIZED_LEN : Z := 32.

Section normalize.
Context `{Blake3}.

Definition blake3_into (input : list byte) (out_len : Z) : list byte :=
  xof Unkeyed input out_len.

Definition blake3_keyed_into (hash_key input : list byte) (out_len : Z) : list byte :=
  xof (Keyed hash_key) input out_len.

Definition blake3_derive_into (context : string) (material : list byte) (out_len : Z) : list byte :=
  xof (DeriveKey context) material out_len.

Definition blake3_normalize (key : RawKey.t) : RawKey.t :=
  RawKey.new (blake3_into (RawKey.as_bytes key) NORMALIZED_LEN).

Definition blake3_keyed_normalize (hash_key : list byte) (key : RawKey.t) : RawKey.t :=
  RawKey.new (blake3_keyed_into hash_key (RawKey.as_bytes key) NORMALIZED_LEN).

Lemma blake3_normalize_len key : RawKey.len (blake3_normalize key) = 32.
Proof. apply xof_fills. done. Qed.

Lemma blake3_keyed_normalize_len hash_key key :
  RawKey.len (blake3_keyed_normalize hash_key key) = 32.
Proof. apply xof_fills. done. Qed.
End normalize.

(** A stand-in for the witnesses: the input and the key, padded or cut to the
    length asked for, which satisfies the law and is easy to read. *)
Module ToyBlake3.
Definition toy_xof (mode : hash_mode) (input : list byte) (n : Z) : list byte :=
  take (Z.to_nat n) (input ++ match mode with Keyed k => k | _ => [] end ++ zeros n).

Lemma toy_xof_fills mode input n : 0 <= n -> zlen (toy_xof mode input n) = n.
Proof.
  intros. unfold toy_xof, zlen. rewrite length_take, !length_app.
  pose proof (zlen_zeros n). unfold zlen in *. lia.
Qed.

Definition blake3 : Blake3 := {| xof := toy_xof; xof_fills := toy_xof_fills |}.
End ToyBlake3.
