(* ===== verification/Codex.v ===== *)
(** * Layer 5: codices ([codex/])

    The [Codex] trait is a class; [IdentityCodex], [FnCodex], [StaticCodex]
    and [DynamicCodex] are its instances, and [dyn_codex] is the trait object
    the vault stores.  A codex operation returns an [outcome]: the closure of
    an [FnCodex] is caller code and may panic. *)

From S2P Require Import Prelude Errors Rust Format Rng.

(** [trait Codex]. *)
Class Codex (C : Type) := {
  encode : C -> byte -> outcome byte;
  decode : C -> byte -> outcome byte
}.

(** [Arc<dyn Codex>]. *)
Record dyn_codex := { dyn_encode : byte -> outcome byte; dyn_decode : byte -> outcome byte }.

#[export] Instance codex_dyn : Codex dyn_codex :=
  {| encode := dyn_encode; decode := dyn_decode |}.

Definition codex_object {C} `{Codex C} (c : C) : dyn_codex :=
  {| dyn_encode := encode c; dyn_decode := decode c |}.

(** The first clause of the implementor contract: decoding undoes encoding
    (and neither panics). *)
Class RoundTrips {C} `{Codex C} (c : C) : Prop :=
  round_trips b : exists e, encode c b = Ok e /\ decode c e = Ok b.

(** The second clause, "the transformation is its own inverse". *)
Class SelfInverse {C} `{Codex C} (c : C) : Prop :=
  self_inverse b : encode c b = decode c b.

#[export] Instance codex_object_round_trips {C} `{Codex C} (c : C) :
  RoundTrips c -> RoundTrips (codex_object c).
Proof. intros Hc b. exact (Hc b). Qed.

#[export] Instance codex_object_self_inverse {C} `{Codex C} (c : C) :
  SelfInverse c -> SelfInverse (codex_object c).
Proof. intros Hc b. exact (Hc b). Qed.

(** ** The no-op codex ([identity.rs]) *)

Inductive IdentityCodex := identity_codex.

#[export] Instance codex_identity : Codex IdentityCodex :=
  {| encode := fun _ byte => Ok byte; decode := fun _ byte => Ok byte |}.

#[export] Instance identity_round_trips c : RoundTrips (C := IdentityCodex) c.
Proof. intros b. by exists b. Qed.

#[export] Instance identity_self_inverse c : SelfInverse (C := IdentityCodex) c.
Proof. done. Qed.

(** ** A closure as a codex ([mod.rs]) *)

Record FnCodex := { f : byte -> outcome byte }.

#[export] Instance codex_fn : Codex FnCodex :=
  {| encode := fun self byte => f self byte; decode := fun self byte => f self byte |}.

#[export] Instance fn_self_inverse c : SelfInverse (C := FnCodex) c.
Proof. done. Qed.

(** A closure that is a total involution satisfies the contract. *)
Lemma fn_codex_round_trips (g : byte -> byte) :
  (forall b, g (g b) = b) -> RoundTrips {| f := fun b => Ok (g b) |}.
Proof. intros Hg b. exists (g b). cbn. by rewrite Hg. Qed.

(** ** The table codices ([static_codex.rs], [dynamic.rs]) *)

Module StaticCodex.
(** [struct StaticCodex]: the contents of its locked 256-byte table. *)
Record t := { table : list byte }.

(** [self.table.as_bytes()[byte as usize]]. *)
Definition lookup (c : t) (b : byte) : outcome byte :=
  match table c !! byte_index b with Some e => Ok e | None => Panic end.

#[global] Instance codex : Codex t := {| encode := lookup; decode := lookup |}.

(** [Debug]: the table is the transformation. *)
Definition fmt (_ : t) : string := debug_struct "StaticCodex" [("table", debug_str "<redacted>")].

(** The table every constructor starts from: slot [i] holds [i as u8]. *)
Definition identity_table : list byte :=
  imap (fun i _ => byte.of_Z (Z.of_nat i)) (zeros 256).

Definition duplicate_byte : Error.t := Error.Codex "byte appears in more than one swap pair".

(** The two table writes of one swap pair. *)
Definition write_pair (table : list byte) (a b : byte) : list byte :=
  <[byte_index b := a]> (<[byte_index a := b]> table).

(** The loop of [from_swaps]; [used] is the 256-entry mark array. *)
Fixpoint from_swaps_loop (swaps : list (byte * byte)) (table : list byte) (used : list bool)
    : outcome (list byte) :=
  match swaps with
  | [] => Ok table
  | (a, b) :: swaps' =>
      if bool_decide (a = b) then
        from_swaps_loop swaps' table (<[byte_index a := true]> used)
      else if (used !!! byte_index a) || (used !!! byte_index b) then
        Err duplicate_byte
      else
        from_swaps_loop swaps' (write_pair table a b)
          (<[byte_index b := true]> (<[byte_index a := true]> used))
  end.

Definition from_swaps (swaps : list (byte * byte)) : outcome t :=
  outcome_map (fun table => {| table := table |})
    (from_swaps_loop swaps identity_table (replicate 256 false)).

(** The pairing loop of [random_involution]: [perm[i]] with [perm[i + 1]],
    two at a time. *)
Fixpoint pair_adjacent (perm : list byte) (table : list byte) : list byte :=
  match perm with
  | a :: b :: perm' => pair_adjacent perm' (write_pair table a b)
  | _ => table
  end.

(** [(0u8..=255).collect()]. *)
Definition all_bytes : list byte := (fun i => byte.of_Z (Z.of_nat i)) <$> seq 0 256.

Definition random_involution {W} `{Rng W} : M W t :=
  let! perm := fisher_yates all_bytes in
  ret {| table := pair_adjacent perm identity_table |}.

(** *** Tables *)

Lemma identity_table_length : length identity_table = 256%nat.
Proof. reflexivity. Qed.

Lemma identity_table_lookup b : identity_table !! byte_index b = Some b.
Proof.
  unfold identity_table, zeros. rewrite list_lookup_imap, lookup_replicate_2;
    [cbn | apply byte_index_lt].
  by rewrite byte_of_index.
Qed.

Lemma write_pair_length table a b : length (write_pair table a b) = length table.
Proof. unfold write_pair. by rewrite !length_insert. Qed.

Lemma write_pair_lookup table a b x :
  length table = 256%nat -> a <> b ->
  write_pair table a b !! byte_index x =
    if bool_decide (x = a) then Some b else if bool_decide (x = b) then Some a
    else table !! byte_index x.
Proof.
  intros Hl Hab. pose proof (byte_index_lt a). pose proof (byte_index_lt b).
  unfold write_pair. repeat case_bool_decide; subst.
  - rewrite list_lookup_insert_ne by (intros E; by apply byte_index_inj in E).
    apply list_lookup_insert_eq. lia.
  - apply list_lookup_insert_eq. rewrite length_insert. lia.
  - rewrite !list_lookup_insert_ne by (intros E; apply byte_index_inj in E; congruence). done.
Qed.

Lemma all_bytes_elem b : b ∈ all_bytes.
Proof.
  unfold all_bytes. apply list_elem_of_fmap. exists (byte_index b). split.
  - by rewrite byte_of_index.
  - apply elem_of_seq. pose proof (byte_index_lt b). lia.
Qed.

Lemma all_bytes_NoDup : NoDup all_bytes.
Proof.
  unfold all_bytes. apply NoDup_fmap_2_strong; [| apply NoDup_seq].
  intros i j Hi Hj E%(f_equal byte_index). apply elem_of_seq in Hi, Hj.
  rewrite !byte_index_of_Z in E by lia. done.
Qed.

(** *** Pairing a duplicate-free list of bytes *)

(** The table [table'] pairs up exactly the bytes of [perm] over [table]. *)
Record paired (perm table table' : list byte) : Prop := {
  paired_length : length table' = length table;
  paired_other x : x ∉ perm -> table' !! byte_index x = table !! byte_index x;
  paired_in x : x ∈ perm -> exists y, y ∈ perm /\ y <> x /\
    table' !! byte_index x = Some y /\ table' !! byte_index y = Some x
}.

Lemma pair_adjacent_paired (n : nat) perm table :
  length perm = (2 * n)%nat -> length table = 256%nat -> NoDup perm ->
  paired perm table (pair_adjacent perm table).
Proof.
  revert perm table. induction n as [| n IH]; intros perm table Hn Ht Hnd.
  { destruct perm; [| cbn in Hn; lia]. split; [done | done |]. intros x Hx. by apply not_elem_of_nil in Hx. }
  destruct perm as [| a [| b perm]]; cbn in Hn; [lia.. |].
  apply NoDup_cons in Hnd as [Ha Hnd]. apply NoDup_cons in Hnd as [Hb Hnd].
  apply not_elem_of_cons in Ha as [Hab Ha]. cbn [pair_adjacent].
  destruct (IH perm (write_pair table a b)) as [Hl Ho Hi];
    [lia | by rewrite write_pair_length | done |].
  split.
  - by rewrite Hl, write_pair_length.
  - intros x [? [? ?]%not_elem_of_cons]%not_elem_of_cons. rewrite Ho by done.
    rewrite write_pair_lookup by done. repeat case_bool_decide; congruence.
  - intros x Hx. destruct (decide (x ∈ perm)) as [Hx' | Hx'].
    { destruct (Hi x Hx') as (y & Hy & ? & ? & ?). exists y. split_and!; [by do 2 right | done..]. }
    assert (Hw : forall z, z ∉ perm -> pair_adjacent perm (write_pair table a b) !! byte_index z
      = if bool_decide (z = a) then Some b else if bool_decide (z = b) then Some a
        else table !! byte_index z) by (intros; rewrite Ho by done; by rewrite write_pair_lookup).
    apply elem_of_cons in Hx as [-> | [-> | ?]%elem_of_cons]; [| | done].
    + exists b. rewrite !Hw by done. repeat case_bool_decide; try congruence.
      split_and!; [set_solver | congruence | done..].
    + exists a. rewrite !Hw by done. repeat case_bool_decide; try congruence.
      split_and!; [set_solver | congruence | done..].
Qed.

(** *** What [from_swaps] accepts and what it builds *)

Definition proper (p : byte * byte) : Prop := p.1 <> p.2.
Definition mentions (p : byte * byte) (x : byte) : Prop := x = p.1 \/ x = p.2.

(** A swap list is accepted when no pair of two different bytes mentions a
    byte an earlier pair (self-swaps included) mentions. *)
Definition swaps_ok (swaps : list (byte * byte)) : Prop :=
  forall i j p q x, (i < j)%nat -> swaps !! i = Some p -> swaps !! j = Some q ->
    proper q -> mentions q x -> ~ mentions p x.

(** The byte [x] is exchanged with: the other half of the first pair that
    mentions it, [x] itself if there is none. *)
Fixpoint partner (swaps : list (byte * byte)) (x : byte) : byte :=
  match swaps with
  | [] => x
  | (a, b) :: swaps' =>
      if bool_decide (x = a) then b else if bool_decide (x = b) then a else partner swaps' x
  end.

Lemma swaps_ok_cons p swaps :
  swaps_ok (p :: swaps) <->
  (forall q x, q ∈ swaps -> proper q -> mentions q x -> ~ mentions p x) /\ swaps_ok swaps.
Proof.
  split.
  - intros H. split.
    + intros q x [j Hj]%list_elem_of_lookup Hq Hx. by apply (H 0%nat (S j) p q x); [lia | ..].
    + intros i j p' q x Hij Hi Hj. apply (H (S i) (S j) p' q x); [lia | done..].
  - intros [H1 H2] [| i] [| j] p' q x Hij Hi Hj; cbn in *; [lia | | lia |].
    + injection Hi as <-. apply H1. by eapply list_elem_of_lookup_2.
    + apply (H2 i j); [lia | done..].
Qed.

Lemma partner_mentioned swaps x :
  partner swaps x <> x ->
  exists q, q ∈ swaps /\ proper q /\ mentions q x /\ mentions q (partner swaps x).
Proof.
  induction swaps as [| [a b] swaps IH]; cbn; [done |]. intros Hne.
  repeat case_bool_decide; subst.
  - exists (a, b). unfold proper, mentions. cbn. split_and!; [by left | congruence | by left | by right].
  - exists (a, b). unfold proper, mentions. cbn. split_and!; [by left | congruence | by right | by left].
  - destruct (IH Hne) as (q & Hq & ?). exists q. split; [by right | done].
Qed.

Lemma partner_involutive swaps x : swaps_ok swaps -> partner swaps (partner swaps x) = x.
Proof.
  revert x. induction swaps as [| [a b] swaps IH]; intros x; [done |].
  intros [H1 H2]%swaps_ok_cons. cbn.
  assert (Hfix : forall y, mentions (a, b) (partner swaps y) -> partner swaps y = y).
  { intros y Hy. destruct (decide (partner swaps y = y)) as [| Hne]; [done |].
    destruct (partner_mentioned swaps y Hne) as (q & Hq & Hp & _ & Hm).
    by destruct (H1 q (partner swaps y)). }
  unfold mentions in Hfix; cbn in Hfix.
  repeat case_bool_decide; try congruence; try (rewrite IH by done; congruence).
  all: rewrite Hfix in * by tauto; congruence.
Qed.

(** The mark array after a pair, whatever the branch taken. *)
Definition mark (used : list bool) (a b : byte) : list bool :=
  <[byte_index b := true]> (<[byte_index a := true]> used).

Definition unmarked (used : list bool) (x : byte) : Prop := used !!! byte_index x = false.

#[global] Instance unmarked_dec used x : Decision (unmarked used x).
Proof. unfold unmarked. apply _. Defined.

(** No proper pair mentions a marked byte. *)
Definition free (used : list bool) (swaps : list (byte * byte)) : Prop :=
  forall q x, q ∈ swaps -> proper q -> mentions q x -> unmarked used x.

Lemma mark_lookup used a b x :
  length used = 256%nat ->
  unmarked (mark used a b) x <-> unmarked used x /\ ~ mentions (a, b) x.
Proof.
  intros Hl. pose proof (byte_index_lt a). pose proof (byte_index_lt b).
  unfold unmarked, mark, mentions; cbn.
  destruct (decide (x = b)) as [-> | Hb].
  { rewrite list_lookup_total_insert_eq by (rewrite length_insert; lia). split; [done | tauto]. }
  rewrite list_lookup_total_insert_ne by (intros E; by apply byte_index_inj in E).
  destruct (decide (x = a)) as [-> | Ha].
  { rewrite list_lookup_total_insert_eq by lia. split; [done | tauto]. }
  rewrite list_lookup_total_insert_ne by (intros E; by apply byte_index_inj in E). tauto.
Qed.

Lemma mark_self used a : mark used a a = <[byte_index a := true]> used.
Proof. unfold mark. by rewrite list_insert_insert_eq. Qed.

Lemma free_cons used a b swaps :
  length used = 256%nat ->
  free used ((a, b) :: swaps) /\ swaps_ok ((a, b) :: swaps) <->
  (a <> b -> unmarked used a /\ unmarked used b) /\ free (mark used a b) swaps /\ swaps_ok swaps.
Proof.
  intros Hl. rewrite swaps_ok_cons. unfold free. split.
  - intros (H1 & H2 & H3). split_and!; [| | done].
    + intros Hab. split; apply (H1 (a, b)); unfold proper, mentions; cbn; auto; by left.
    + intros q x Hq Hp Hx. apply mark_lookup; [done |]. split; [| by eapply H2].
      apply (H1 q); [by right | done..].
  - intros (H1 & H2 & H3). split_and!; [| | done].
    + intros q x [-> | Hq]%elem_of_cons Hp Hx.
      * destruct (H1 Hp). by destruct Hx as [-> | ->].
      * by apply (mark_lookup used a b x Hl), (H2 q).
    + intros q x Hq Hp Hx. by apply (mark_lookup used a b x Hl), (H2 q).
Qed.

(** One iteration, on each of the three branches. *)
Lemma from_swaps_loop_cons a b swaps table used :
  from_swaps_loop ((a, b) :: swaps) table used =
    if bool_decide (a <> b /\ ~ (unmarked used a /\ unmarked used b)) then Err duplicate_byte
    else from_swaps_loop swaps (if bool_decide (a = b) then table else write_pair table a b)
           (mark used a b).
Proof.
  cbn [from_swaps_loop]. unfold unmarked. case_bool_decide as Hab.
  - subst. rewrite bool_decide_eq_false_2 by tauto. by rewrite mark_self.
  - replace (bool_decide _) with ((used !!! byte_index a) || (used !!! byte_index b)); [done |].
    apply eq_bool_prop_intro. rewrite bool_decide_spec. unfold unmarked.
    destruct (used !!! byte_index a), (used !!! byte_index b); cbn; naive_solver.
Qed.

Lemma from_swaps_loop_spec swaps table used :
  length table = 256%nat -> length used = 256%nat ->
  (forall x, unmarked used x -> table !! byte_index x = Some x) ->
  match from_swaps_loop swaps table used with
  | Ok table' => (free used swaps /\ swaps_ok swaps) /\ length table' = 256%nat /\
      forall x, table' !! byte_index x =
        if bool_decide (unmarked used x) then Some (partner swaps x) else table !! byte_index x
  | Err e => e = duplicate_byte /\ ~ (free used swaps /\ swaps_ok swaps)
  | _ => False
  end.
Proof.
  revert table used. induction swaps as [| [a b] swaps IH]; intros table used Ht Hu Hid.
  { cbn. split_and!; [intros q x Hq; by apply not_elem_of_nil in Hq | by intros i j p q x _ [=] | done |].
    intros x. case_bool_decide; [by apply Hid | done]. }
  pose proof (free_cons used a b swaps Hu) as Hfree.
  rewrite from_swaps_loop_cons. case_bool_decide as Hd; [tauto |].
  assert (a <> b -> unmarked used a /\ unmarked used b)
    by (destruct (decide (unmarked used a /\ unmarked used b)); tauto).
  set (table1 := if bool_decide (a = b) then table else write_pair table a b).
  assert (Hlook : forall x, table1 !! byte_index x =
    if bool_decide (a <> b /\ x = a) then Some b else if bool_decide (a <> b /\ x = b) then Some a
    else table !! byte_index x).
  { intros x. subst table1. repeat case_bool_decide; try tauto;
      rewrite write_pair_lookup by done; repeat case_bool_decide; tauto || congruence. }
  assert (Hid1 : forall x, unmarked (mark used a b) x -> table1 !! byte_index x = Some x).
  { intros x [Hx Hm]%mark_lookup; [| done]. rewrite Hlook.
    unfold mentions in Hm; cbn in Hm. repeat case_bool_decide; try tauto. by apply Hid. }
  assert (Ht1 : length table1 = 256%nat)
    by (subst table1; case_bool_decide; [done | by rewrite write_pair_length]).
  assert (Hu1 : length (mark used a b) = 256%nat) by (unfold mark; by rewrite !length_insert).
  specialize (IH table1 (mark used a b) Ht1 Hu1 Hid1).
  destruct (from_swaps_loop swaps table1 (mark used a b)); [| tauto..].
  destruct IH as (IH1 & IH2 & IH3).
  split; [tauto |]. split; [done |]. intros x. rewrite IH3.
  pose proof (mark_lookup used a b x Hu) as Hm.
  unfold mentions in Hm; cbn in Hm. cbn [partner]. rewrite Hlook.
  destruct (decide (x = a \/ x = b)) as [Hx | Hx].
  - rewrite (bool_decide_eq_false_2 (unmarked (mark used a b) x)) by tauto.
    destruct (decide (a = b)) as [-> | Hab].
    + rewrite !(bool_decide_eq_false_2 (b <> b /\ _)) by tauto.
      assert (x = b) as -> by tauto. rewrite (bool_decide_eq_true_2 (b = b)) by done.
      case_bool_decide; [by apply Hid | done].
    + destruct (H Hab). rewrite (bool_decide_eq_true_2 (unmarked used x))
        by (destruct Hx; by subst).
      clear - Hab Hx. repeat case_bool_decide; tauto.
  - rewrite !(bool_decide_eq_false_2 (_ /\ _)) by tauto.
    rewrite !(bool_decide_eq_false_2 (x = _)) by tauto.
    rewrite (bool_decide_ext _ (unmarked used x)) by tauto.
    case_bool_decide; [done | done].
Qed.

Lemma from_swaps_cases swaps :
  match from_swaps swaps with
  | Ok c => swaps_ok swaps /\ length (table c) = 256%nat /\
      forall x, table c !! byte_index x = Some (partner swaps x)
  | Err e => e = duplicate_byte /\ ~ swaps_ok swaps
  | _ => False
  end.
Proof.
  assert (Hun : forall x, unmarked (replicate 256 false) x).
  { intros x. unfold unmarked. rewrite list_lookup_total_alt, lookup_replicate_2; [done |].
    apply byte_index_lt. }
  assert (Hfree : free (replicate 256 false) swaps) by (intros q x _ _ _; apply Hun).
  pose proof (from_swaps_loop_spec swaps identity_table (replicate 256 false)
    identity_table_length eq_refl (fun x _ => identity_table_lookup x)) as H.
  unfold from_swaps. destruct (from_swaps_loop _ _ _); cbn; [| tauto..].
  destruct H as (H1 & H2 & H3). split_and!; [tauto | done |]. intros x. rewrite H3.
  by rewrite bool_decide_eq_true_2.
Qed.

Lemma random_involution_table {W} `{Rng W} :
  safe random_involution (fun c => paired all_bytes identity_table (table c)) (eq rng_failed).
Proof.
  eapply safe_bind; [apply fisher_yates_safe |]. intros perm Hp. apply safe_ret. cbn.
  destruct (pair_adjacent_paired 128 perm identity_table) as [H1 H2 H3].
  - by rewrite Hp.
  - done.
  - rewrite Hp. apply all_bytes_NoDup.
  - split; [done | intros x Hx; by destruct (Hx (all_bytes_elem x)) |].
    intros x Hx. rewrite <- Hp in Hx. destruct (H3 x Hx) as (y & Hy & ?).
    exists y. by rewrite <- Hp.
Qed.
End StaticCodex.

Module DynamicCodex.
(** [struct DynamicCodex]: a [StaticCodex] built at random. *)
Record t := { inner : StaticCodex.t }.

Definition new {W} `{Rng W} : M W t :=
  let! inner := StaticCodex.random_involution in
  ret {| inner := inner |}.

#[global] Instance codex : Codex t :=
  {| encode := fun self byte => encode (inner self) byte;
     decode := fun self byte => decode (inner self) byte |}.

Definition fmt (_ : t) : string := debug_struct "DynamicCodex" [("table", debug_str "<redacted>")].
End DynamicCodex.

(** ** The properties *)

(** C33: [from_swaps] accepts a list exactly when no pair of two different bytes
    mentions a byte an earlier pair mentions; the codex it builds exchanges
    the two bytes of each pair and leaves every other byte alone; every other
    list is the [Codex] error, never a panic. *)
Theorem from_swaps_spec (swaps : list (byte * byte)) :
  match StaticCodex.from_swaps swaps with
  | Ok c => StaticCodex.swaps_ok swaps /\
      forall x, encode c x = Ok (StaticCodex.partner swaps x) /\
                decode c x = Ok (StaticCodex.partner swaps x)
  | Err e => e = StaticCodex.duplicate_byte /\ ~ StaticCodex.swaps_ok swaps
  | _ => False
  end.
Proof.
  pose proof (StaticCodex.from_swaps_cases swaps) as H.
  destruct (StaticCodex.from_swaps swaps); [| done..]. destruct H as (H1 & _ & H2).
  split; [done |]. intros x. cbn. unfold StaticCodex.lookup. by rewrite H2.
Qed.

(** Every codex [from_swaps] builds satisfies both clauses of the contract. *)
Theorem from_swaps_involution (swaps : list (byte * byte)) c :
  StaticCodex.from_swaps swaps = Ok c -> RoundTrips c /\ SelfInverse c.
Proof.
  intros E. pose proof (StaticCodex.from_swaps_cases swaps) as H. rewrite E in H.
  destruct H as (H1 & _ & H2). split; [| done]. intros b.
  exists (StaticCodex.partner swaps b). cbn. unfold StaticCodex.lookup. rewrite !H2.
  by rewrite StaticCodex.partner_involutive.
Qed.

(** C34: Whatever the generator answers, [DynamicCodex::new] (that is,
    [random_involution]) returns an involution that maps every byte to
    another byte, or fails with the RNG error; it never panics. *)
Theorem random_involution_spec {W} `{Rng W} :
  safe DynamicCodex.new
    (fun c => RoundTrips c /\ SelfInverse c /\ forall b, encode c b <> Ok b)
    (eq rng_failed).
Proof.
  eapply safe_bind; [apply StaticCodex.random_involution_table |]. intros c [H1 _ H3].
  apply safe_ret. split_and!; [| done |].
  - intros b. destruct (H3 b (StaticCodex.all_bytes_elem b)) as (y & _ & _ & E1 & E2).
    exists y. cbn. unfold StaticCodex.lookup. by rewrite E1, E2.
  - intros b. destruct (H3 b (StaticCodex.all_bytes_elem b)) as (y & _ & Hne & E1 & _).
    cbn. unfold StaticCodex.lookup. rewrite E1. congruence.
Qed.
