(* ===== verification/Fragment.v ===== *)
(** * Layer 3: fragments and strategies ([fragment/mod.rs])

    [Fragments] is the chunk store a strategy produces; [FragmentStrategy] is
    the trait.  Buffers are their contents: that locked, pooled and
    page-protected buffers hold what was written to them is the business of
    [LockedBytes], [Pool] and [Guarded]. *)

From S2P Require Import Prelude Errors Rust Format RawKey.

(** [struct Store].  [region] names the page-protected mapping the chunks
    point into, if any. *)
Record Store := {
  store_chunks : list (list byte);
  store_layout : list byte;
  store_region : option Z
}.

(** [struct Fragments]. *)
Record Fragments := {
  store : Store;
  layout_start : Z;
  total_len : Z
}.

Definition from_parts (chunks : list (list byte)) (layout : list byte) (total_len : Z) : Fragments :=
  {| store := {| store_chunks := chunks; store_layout := layout; store_region := None |};
     layout_start := 0; total_len := total_len |}.

(** [Fragments::from_chunks]: every chunk is copied into its own buffer. *)
Definition from_chunks (chunks : list (list byte)) (layout : list byte) (total_len : Z) : Fragments :=
  from_parts chunks layout total_len.

Definition chunk_count (self : Fragments) : Z := zlen (store_chunks (store self)).

Definition chunk (self : Fragments) (index : Z) : option (list byte) :=
  if index <? 0 then None else store_chunks (store self) !! Z.to_nat index.

(** [layout.get(layout_start..).unwrap_or_default()]. *)
Definition layout_bytes (self : Fragments) : list byte :=
  let layout := store_layout (store self) in
  if layout_start self <=? zlen layout then drop (Z.to_nat (layout_start self)) layout else [].

Definition chunks (self : Fragments) : list (list byte) := store_chunks (store self).

(** [Fragments::share]: another handle to the same storage. *)
Definition share (self : Fragments) : Fragments :=
  {| store := store self; layout_start := layout_start self; total_len := total_len self |}.

Definition view_skipping (self : Fragments) (skip : Z) : Fragments :=
  {| store := store self; layout_start := saturating_add (layout_start self) skip;
     total_len := total_len self |}.

(** [Fragments::into_chunks]: moved out of the only handle, copied out of a
    shared one; the same bytes either way. *)
Definition into_chunks (self : Fragments) : list (list byte) := store_chunks (store self).

(** [impl Debug for Fragments]. *)
Definition fragments_fmt (self : Fragments) : string :=
  debug_struct_open "Fragments" [("chunks", pretty (chunk_count self)); ("total_len", pretty (total_len self));
    ("contents", debug_str "<opaque>")].

(** ** What a strategy can see of a [Fragments]

    Two [Fragments] are equivalent when their public observations agree; a
    view whose hidden prefix differs is equivalent to a fresh value. *)
#[export] Instance fragments_equiv : Equiv Fragments := fun f g =>
  chunks f = chunks g /\ layout_bytes f = layout_bytes g /\ total_len f = total_len g.

#[export] Instance fragments_equivalence : Equivalence (≡@{Fragments}).
Proof.
  split; unfold equiv, fragments_equiv.
  - by intros f.
  - intros f g (? & ? & ?). by repeat split.
  - intros f g h (E1 & E2 & E3) (E4 & E5 & E6).
    split_and!; [by rewrite E1 | by rewrite E2 | by rewrite E3].
Qed.

Lemma layout_from_parts cs layout n : layout_bytes (from_parts cs layout n) = layout.
Proof.
  unfold layout_bytes; cbn. rewrite (proj2 (Z.leb_le _ _)) by apply zlen_nonneg. apply drop_0.
Qed.

Lemma zlen_layout_bytes_le f : zlen (layout_bytes f) <= zlen (store_layout (store f)).
Proof.
  unfold layout_bytes. case_test; unfold zlen; [rewrite length_drop |]; cbn; lia.
Qed.

Lemma share_equiv f : share f ≡ f.
Proof. done. Qed.

(** Hiding [n] bytes of a layout that starts with an [n]-byte header leaves
    the rest of the layout. *)
Lemma view_skipping_header f header layout n :
  0 <= layout_start f -> layout_start f + n <= usize_max -> 0 <= n -> zlen header = n ->
  layout_bytes f = header ++ layout ->
  layout_bytes (view_skipping f n) = layout.
Proof.
  unfold layout_bytes, view_skipping, saturating_add. cbn.
  intros Hs Hmax Hn Hh. rewrite (Z.min_r usize_max) by lia.
  destruct (layout_start f <=? zlen (store_layout (store f))) eqn:E; tests.
  - intros Hl. pose proof (f_equal zlen Hl) as Hlen.
    rewrite zlen_app in Hlen. unfold zlen at 1 in Hlen. rewrite length_drop in Hlen.
    pose proof (zlen_nonneg layout).
    rewrite (proj2 (Z.leb_le _ _)) by (unfold zlen in *; lia).
    rewrite Z2Nat.inj_add, <- drop_drop, Hl by lia.
    rewrite drop_app_length'; [done | unfold zlen in Hh; lia].
  - intros Hl. symmetry in Hl. apply app_eq_nil in Hl as [-> ->]. case_test; [| done].
    apply drop_ge. tests. unfold zlen in *. lia.
Qed.

(** [u32::from_le_bytes(layout[a..b].try_into().map_err(|_| err)?)]. *)
Definition read_u32 {S} (layout : list byte) (a b : Z) (err : Error.t) : M S Z :=
  let! s := slice layout a b in
  let! raw := ok_or (try_into_array 4 s) err in
  ret (from_le_bytes raw).

(** The number a layout holds at [a..a+4]. *)
Definition u32_at (layout : list byte) (a : Z) : Z := from_le_bytes (range a (a + 4) layout).

Lemma u32_at_bounds layout a : 0 <= a -> a + 4 <= zlen layout -> 0 <= u32_at layout a <= u32_max.
Proof.
  intros. unfold u32_at, u32_max, from_le_bytes.
  pose proof (le_combine_range (range a (a + 4) layout)).
  pose proof (le_combine_lt (range a (a + 4) layout) 4). rewrite zlen_range in * by lia. lia.
Qed.

Lemma read_u32_ok {S} layout a b err (s : S) :
  0 <= a -> b = a + 4 -> b <= zlen layout ->
  read_u32 layout a b err s = (Ok (u32_at layout a), s).
Proof.
  intros Ha -> Hb. unfold read_u32. erewrite bind_ok by (apply slice_ok; lia).
  unfold try_into_array. rewrite zlen_range by lia.
  by rewrite (proj2 (Z.eqb_eq (a + 4 - a) 4)) by lia.
Qed.

Lemma triple_read_u32 {S} (P : S -> Prop) layout a b err E :
  0 <= a -> b = a + 4 -> b <= zlen layout ->
  triple P (read_u32 layout a b err) (fun x s => x = u32_at layout a /\ P s) E.
Proof. intros Ha Hb Hl s Hs. by rewrite read_u32_ok by done. Qed.

Lemma u32_at_app pre x post a :
  a = zlen pre -> 0 <= x <= u32_max -> u32_at (pre ++ to_le_bytes32 x ++ post) a = x.
Proof.
  intros -> Hx. unfold u32_at. assert (H4 : zlen (to_le_bytes32 x) = 4) by apply zlen_le_split.
  rewrite (range_app_exact pre (to_le_bytes32 x)) by lia.
  apply le_word32. unfold u32_max in Hx. lia.
Qed.

(** A layout that is a list of numbers. *)
Definition encode_u32s (l : list Z) : list byte := flat_map to_le_bytes32 l.

Lemma zlen_encode_u32s l : zlen (encode_u32s l) = zlen l * 4.
Proof.
  unfold encode_u32s, to_le_bytes32. induction l as [| x l IH]; cbn [flat_map]; [done |].
  rewrite zlen_app, zlen_cons, zlen_le_split, IH. lia.
Qed.

Lemma encode_u32s_app l k : encode_u32s (l ++ k) = encode_u32s l ++ encode_u32s k.
Proof. apply flat_map_app. Qed.

Lemma u32_at_encode pre l post (i : nat) x a :
  l !! i = Some x -> 0 <= x <= u32_max -> a = zlen pre + Z.of_nat i * 4 ->
  u32_at (pre ++ encode_u32s l ++ post) a = x.
Proof.
  intros Hi Hx ->. apply list_elem_of_split_length in Hi as (l1 & l2 & -> & ->).
  rewrite encode_u32s_app.
  change (encode_u32s (x :: l2)) with (to_le_bytes32 x ++ encode_u32s l2).
  rewrite <- !app_assoc, (app_assoc pre).
  apply u32_at_app; [| done]. rewrite zlen_app, zlen_encode_u32s. unfold zlen. lia.
Qed.

(** ** The trait *)

(** [trait FragmentStrategy].  [fragment] may draw randomness from the world
    [W]; [defragment] reads fragments only.  [defragment_into] acts on the
    caller's buffer, whose length a [&mut [u8]] cannot change. *)
Class FragmentStrategy (W F : Type) := {
  fragment : F -> RawKey.t -> M W Fragments;
  defragment : F -> Fragments -> outcome RawKey.t;
  defragment_into : F -> Fragments -> M (list byte) unit;
  fragment_describe : F -> string;
  defragment_into_length : forall self frags out,
    length (snd (defragment_into self frags out)) = length out
}.

Definition scratch_size_mismatch : Error.t :=
  Error.Defragment "scratch buffer size does not match fragments.total_len()".

(** The trait's default [defragment_into]: defragment, then copy. *)
Definition default_defragment_into (defragment : Fragments -> outcome RawKey.t)
    (fragments : Fragments) : M (list byte) unit :=
  let! out := get in
  if negb (zlen out =? total_len fragments) then fail scratch_size_mismatch else
  let! raw := lift (defragment fragments) in
  let! out' := copy_into out 0 (zlen out) (RawKey.as_bytes raw) in
  put out'.

(** The [defragment] every strategy of the crate has: a zeroed buffer of
    [total_len] bytes, filled by [defragment_into]. *)
Definition defragment_via (into : Fragments -> M (list byte) unit) (fragments : Fragments)
    : outcome RawKey.t :=
  fst ((let! out := vec_zeroed (total_len fragments) in
        do! put out in
        do! into fragments in
        let! out := get in
        ret (RawKey.new out)) []).

(** [Arc<dyn FragmentStrategy>]. *)
Record dyn_strategy (W : Type) := {
  dyn_fragment : RawKey.t -> M W Fragments;
  dyn_defragment : Fragments -> outcome RawKey.t;
  dyn_defragment_into : Fragments -> M (list byte) unit;
  dyn_describe : string;
  dyn_defragment_into_length : forall frags out,
    length (snd (dyn_defragment_into frags out)) = length out
}.
Arguments dyn_fragment {W}.
Arguments dyn_defragment {W}.
Arguments dyn_defragment_into {W}.
Arguments dyn_describe {W}.
Arguments dyn_defragment_into_length {W}.

#[export] Instance strategy_dyn {W} : FragmentStrategy W (dyn_strategy W) := {|
  fragment := dyn_fragment;
  defragment := dyn_defragment;
  defragment_into := dyn_defragment_into;
  fragment_describe := dyn_describe;
  defragment_into_length := dyn_defragment_into_length
|}.

Definition strategy_object {W F} `{FragmentStrategy W F} (self : F) : dyn_strategy W := {|
  dyn_fragment := fragment self;
  dyn_defragment := defragment (W := W) self;
  dyn_defragment_into := defragment_into (W := W) self;
  dyn_describe := fragment_describe (W := W) self;
  dyn_defragment_into_length := defragment_into_length (W := W) self
|}.

(** ** The implementor contract *)

(** [frags] reassemble into [key], through either entry point, whatever the
    buffer held. *)
Definition reassembles (defragment : Fragments -> outcome RawKey.t)
    (defragment_into : Fragments -> M (list byte) unit) (frags : Fragments) (key : RawKey.t) : Prop :=
  total_len frags = RawKey.len key /\
  defragment frags = Ok key /\
  forall out, zlen out = RawKey.len key -> defragment_into frags out = (Ok tt, RawKey.bytes key).

(** What every [Fragments] of a running program satisfies: the layout is an
    allocation, so its length fits an [isize]. *)
Definition view_ok (f : Fragments) : Prop :=
  0 <= layout_start f /\ zlen (store_layout (store f)) <= isize_max.

Lemma view_skipping_ok f n : 0 <= n -> view_ok f -> view_ok (view_skipping f n).
Proof. intros Hn [Hs Hl]. split; cbn; [unfold saturating_add, usize_max; lia | done]. Qed.

(** A copy of a view that hides nothing. *)
Lemma equiv_view_ok p f : p ≡ f -> layout_start p = 0 -> view_ok f -> view_ok p.
Proof.
  intros (_ & Hl & _) Hp [_ Hv]. split; [lia |]. unfold layout_bytes in Hl at 1. rewrite Hp in Hl.
  rewrite (proj2 (Z.leb_le _ _)), drop_0 in Hl by apply zlen_nonneg. rewrite Hl.
  pose proof (zlen_layout_bytes_le f). lia.
Qed.

(** A strategy meets the contract when [fragment] either fails or returns
    heap fragments that every equivalent view reassembles from. *)
Class LawfulStrategy {W F} `{FragmentStrategy W F} (self : F) : Prop :=
  lawful_fragment key : RawKey.len key <= isize_max ->
    safe (fragment self key)
      (fun frags => store_region (store frags) = None /\ layout_start frags = 0 /\
        forall view, view_ok view -> view ≡ frags ->
          reassembles (defragment (W := W) self) (defragment_into (W := W) self) view key)
      (fun _ => True).

#[export] Instance strategy_object_lawful {W F} `{FragmentStrategy W F} (self : F) :
  LawfulStrategy (W := W) self -> LawfulStrategy (W := W) (strategy_object (W := W) self).
Proof. intros Hs key. exact (Hs key). Qed.

(** The common [defragment] reassembles what [defragment_into] does. *)
Lemma reassembles_via into frags key :
  total_len frags = RawKey.len key -> RawKey.len key <= isize_max ->
  (forall out, zlen out = RawKey.len key -> into frags out = (Ok tt, RawKey.bytes key)) ->
  reassembles (defragment_via into) into frags key.
Proof.
  intros Hl Hmax Hinto. split; [done |]. split; [| done].
  unfold defragment_via, vec_zeroed. rewrite Hl, (proj2 (Z.leb_le _ _)) by done.
  unfold bind, ret, put, get. rewrite Hinto; [by destruct key |].
  apply zlen_zeros, zlen_nonneg.
Qed.

(** So does the default [defragment_into], from [defragment] alone. *)
Lemma reassembles_default (defragment : Fragments -> outcome RawKey.t) frags key :
  total_len frags = RawKey.len key -> defragment frags = Ok key ->
  reassembles defragment (default_defragment_into defragment) frags key.
Proof.
  intros Hl Hd. split_and!; [done.. |]. intros out Hout.
  unfold default_defragment_into. rewrite (bind_ok _ _ out out out) by done.
  rewrite Hl, Hout, Z.eqb_refl. cbn [negb]. rewrite (bind_ok _ _ out key out) by (by rewrite Hd).
  erewrite bind_ok by (apply copy_into_ok; unfold RawKey.len, RawKey.as_bytes in *; zlen_lia; lia).
  unfold put, RawKey.as_bytes. f_equal. apply inserts_all. unfold RawKey.len in *. lia.
Qed.

Lemma default_defragment_into_length defragment frags out :
  length (snd (default_defragment_into defragment frags out)) = length out.
Proof.
  unfold default_defragment_into, bind, get. case_test; [done |]. unfold lift.
  destruct (defragment frags) as [raw | | |]; [| done..]. unfold copy_into.
  case_test; [| done]. cbn. apply length_inserts.
Qed.
