(* ===== verification/Decoy.v ===== *)
(** * Layer 4: decoys ([decoy/])

    [DecoyStrategy] is the trait; [RandomDecoy], [SelfReferenceDecoy] and
    [KeyDerivedDecoy] its instances, [dyn_decoy] the trait object. *)

From S2P Require Import Prelude Errors Rust Rng RawKey Normalize.

(** [trait DecoyStrategy]. *)
Class DecoyStrategy (W D : Type) := {
  generate : D -> RawKey.t -> Z -> M W (list byte);
  decoy_describe : D -> string
}.

(** [Arc<dyn DecoyStrategy>]. *)
Record dyn_decoy (W : Type) := {
  dyn_generate : RawKey.t -> Z -> M W (list byte);
  dyn_decoy_describe : string
}.
Arguments dyn_generate {W}.
Arguments dyn_decoy_describe {W}.

#[export] Instance decoy_dyn {W} : DecoyStrategy W (dyn_decoy W) :=
  {| generate := dyn_generate; decoy_describe := dyn_decoy_describe |}.

Definition decoy_object {W D} `{DecoyStrategy W D} (d : D) : dyn_decoy W :=
  {| dyn_generate := generate d; dyn_decoy_describe := decoy_describe (W := W) d |}.

Inductive RandomDecoy := random_decoy.
Inductive SelfReferenceDecoy := self_reference_decoy.
Inductive KeyDerivedDecoy := key_derived_decoy.

Section decoys.
Context {W : Type} `{Rng W} `{Blake3}.

(** [RandomDecoy::generate]. *)
Definition random_generate (_ : RandomDecoy) (_key : RawKey.t) (output_len : Z) : M W (list byte) :=
  if output_len =? 0 then ret [] else
  let! buf := vec_zeroed output_len in
  fill (zlen buf).

Definition self_reference_needs_key : Error.t :=
  Error.Decoy "self-reference decoy requires a non-empty key".

(** [SelfReferenceDecoy::generate]. *)
Definition self_reference_generate (_ : SelfReferenceDecoy) (key : RawKey.t) (output_len : Z)
    : M W (list byte) :=
  if output_len =? 0 then ret [] else
  let key_bytes := RawKey.as_bytes key in
  if zlen key_bytes =? 0 then fail self_reference_needs_key else
  let rand_byte_count := saturating_mul output_len 4 in
  let! rand_buf := vec_zeroed rand_byte_count in
  let! rand_buf := fill (zlen rand_buf) in
  let key_len := zlen key_bytes in
  map_m (fun i =>
    let! s := slice rand_buf (i * 4) (i * 4 + 4) in
    let! raw := ok_or (try_into_array 4 s) (Error.Internal "rand buffer slice did not size to u32") in
    let idx := from_le_bytes raw mod key_len in
    index key_bytes idx) (seqZ 0 output_len).

(** [KeyDerivedDecoy::generate]. *)
Definition key_derived_generate (_ : KeyDerivedDecoy) (key : RawKey.t) (output_len : Z)
    : M W (list byte) :=
  if output_len =? 0 then ret [] else
  let! nonce := fill 32 in
  let! out := vec_zeroed output_len in
  ret (xof Unkeyed (RawKey.as_bytes key ++ nonce) (zlen out)).

#[export] Instance decoy_random : DecoyStrategy W RandomDecoy :=
  {| generate := random_generate; decoy_describe := fun _ => "random" |}.
#[export] Instance decoy_self_reference : DecoyStrategy W SelfReferenceDecoy :=
  {| generate := self_reference_generate; decoy_describe := fun _ => "self-reference" |}.
#[export] Instance decoy_key_derived : DecoyStrategy W KeyDerivedDecoy :=
  {| generate := key_derived_generate; decoy_describe := fun _ => "key-derived" |}.
End decoys.

(** ** The contract the fragmenter relies on

    A decoy strategy answers or fails; it does not panic on an output whose
    randomness can be allocated.  Nothing is asked of the bytes: a decoy
    cannot break the round trip. *)
Definition decoy_max : Z := 2 ^ 61 - 1.

Class LawfulDecoy {W D} `{DecoyStrategy W D} (d : D) : Prop :=
  lawful_generate key n :
    0 <= n <= decoy_max -> safe (generate (W := W) d key n) (fun _ => True) (fun _ => True).

#[export] Instance decoy_object_lawful {W D} `{DecoyStrategy W D} (d : D) :
  LawfulDecoy (W := W) d -> LawfulDecoy (W := W) (decoy_object (W := W) d).
Proof. intros Hd key n. exact (Hd key n). Qed.

Section lemmas.
Context {W : Type} `{Rng W} `{Blake3}.

Lemma random_generate_safe d key n :
  0 <= n <= decoy_max -> safe (random_generate (W := W) d key n) (fun bs => zlen bs = n) (eq rng_failed).
Proof.
  intros Hn. unfold random_generate, decoy_max, isize_max in *.
  case_test; tests; [subst; by apply safe_ret |].
  eapply safe_bind; [apply (safe_vec_zeroed n (eq (zeros n))); [unfold isize_max; lia | done] |].
  intros _ <-. rewrite zlen_zeros by lia. apply fill_safe. lia.
Qed.

Lemma key_derived_generate_safe d key n :
  0 <= n <= decoy_max ->
  safe (key_derived_generate (W := W) d key n) (fun bs => zlen bs = n) (eq rng_failed).
Proof.
  intros Hn. unfold key_derived_generate, decoy_max, isize_max in *.
  case_test; tests; [subst; by apply safe_ret |].
  eapply safe_bind; [by apply fill_safe |]. intros nonce Hnonce.
  eapply safe_bind; [apply (safe_vec_zeroed n (eq (zeros n))); [unfold isize_max; lia | done] |].
  intros _ <-. apply safe_ret. rewrite zlen_zeros by lia. apply xof_fills. lia.
Qed.

(** The two errors of [SelfReferenceDecoy], by the input that causes each. *)
Lemma self_reference_generate_safe d key n :
  0 <= n <= decoy_max ->
  safe (self_reference_generate (W := W) d key n)
    (fun bs => zlen bs = n /\ forall b, b ∈ bs -> b ∈ RawKey.bytes key)
    (fun e => e = rng_failed \/ e = self_reference_needs_key /\ RawKey.bytes key = []).
Proof.
  intros Hn. unfold self_reference_generate, decoy_max, isize_max, saturating_mul, usize_max in *.
  case_test; tests; [subst; apply safe_ret; split; [done | intros b Hb; by apply not_elem_of_nil in Hb] |].
  case_test; tests; [apply safe_fail; right; split; [done | by apply zlen_0_inv] |].
  rewrite Z.min_r by lia. pose proof (zlen_nonneg (RawKey.as_bytes key)).
  eapply safe_bind; [apply (safe_vec_zeroed (n * 4) (eq (zeros (n * 4)))); [unfold isize_max; lia | done] |].
  intros _ <-. rewrite zlen_zeros by lia.
  eapply safe_bind; [eapply safe_mono; [apply fill_safe; lia | intros bs Hbs; exact Hbs | by left] |].
  intros rand Hrand. cbn beta in Hrand.
  eapply safe_mono; [apply (safe_map_m _ (fun _ b => b ∈ RawKey.bytes key)) | | intros e He; exact He].
  - intros i Hi%elem_of_seqZ.
    eapply safe_bind; [apply (safe_slice _ _ _ (eq (range (i * 4) (i * 4 + 4) rand))); [lia.. | done] |].
    intros _ <-. unfold try_into_array. rewrite zlen_range by lia.
    replace (i * 4 + 4 - i * 4) with 4 by lia. cbn [Z.eqb Pos.eqb].
    eapply safe_bind; [apply (safe_ok_or _ _ (fun _ => True)); done |]. intros raw _.
    apply safe_index; [apply Z.mod_pos_bound; lia |].
    intros b Hb. by eapply list_elem_of_lookup_2.
  - intros bs Hbs. split.
    + apply Forall2_length in Hbs. rewrite length_seqZ in Hbs. unfold zlen. lia.
    + intros b [j Hj]%list_elem_of_lookup.
      by destruct (Forall2_lookup_r _ _ _ _ _ Hbs Hj) as (i & _ & Hi).
Qed.
End lemmas.

#[export] Instance random_lawful {W} `{Rng W} d : LawfulDecoy (W := W) (D := RandomDecoy) d.
Proof. intros key n Hn. eapply safe_mono; [by apply random_generate_safe | done | done]. Qed.
#[export] Instance self_reference_lawful {W} `{Rng W} d :
  LawfulDecoy (W := W) (D := SelfReferenceDecoy) d.
Proof. intros key n Hn. eapply safe_mono; [by apply self_reference_generate_safe | done | done]. Qed.
#[export] Instance key_derived_lawful {W} `{Rng W} `{Blake3} d :
  LawfulDecoy (W := W) (D := KeyDerivedDecoy) d.
Proof. intros key n Hn. eapply safe_mono; [by apply key_derived_generate_safe | done | done]. Qed.

(** ** Properties *)

(** Every built-in decoy returns exactly the number of bytes asked for, or
    one of the documented errors; [SelfReferenceDecoy] emits only bytes of
    the key and refuses an empty key. *)
Theorem decoys_generate_exact {W} `{Rng W} `{Blake3} (key : RawKey.t) (n : Z) :
  0 <= n <= decoy_max ->
  safe (generate (W := W) random_decoy key n) (fun bs => zlen bs = n) (eq rng_failed) /\
  safe (generate (W := W) key_derived_decoy key n) (fun bs => zlen bs = n) (eq rng_failed) /\
  safe (generate (W := W) self_reference_decoy key n)
    (fun bs => zlen bs = n /\ forall b, b ∈ bs -> b ∈ RawKey.bytes key)
    (fun e => e = rng_failed \/ e = self_reference_needs_key /\ RawKey.bytes key = []).
Proof.
  intros Hn. split_and!; [by apply random_generate_safe | by apply key_derived_generate_safe |].
  by apply self_reference_generate_safe.
Qed.
