(* ===== verification/Standard.v ===== *)
(** * [StandardFragmenter] ([fragment/standard.rs])

    Variable-size contiguous chunks, an equal number of decoys, one shuffle;
    the layout records for each chunk its offset in the key, or the sentinel
    [DECOY_OFFSET]. *)

From S2P Require Import Prelude Errors Rust Format Rng RawKey Fragment Decoy.

Definition DECOY_OFFSET : Z := u32_max.
Definition DEFAULT_MIN_CHUNK : Z := 1.
Definition DEFAULT_MAX_CHUNK : Z := 8.

(** [struct StandardFragmenter]. *)
Record StandardFragmenter (W : Type) := {
  min_chunk : Z;
  max_chunk : Z;
  decoy : option (dyn_decoy W)
}.
Arguments min_chunk {W}.
Arguments max_chunk {W}.
Arguments decoy {W}.

Module StandardFragmenter.
Definition new {W} : StandardFragmenter W :=
  {| min_chunk := DEFAULT_MIN_CHUNK; max_chunk := DEFAULT_MAX_CHUNK; decoy := None |}.

Definition with_chunk_range {W} (min max : Z) : StandardFragmenter W :=
  let min := Z.max min 1 in
  let max := Z.max max min in
  {| min_chunk := min; max_chunk := max; decoy := None |}.

Definition with_decoy {W D} `{DecoyStrategy W D} (self : StandardFragmenter W) (d : D)
    : StandardFragmenter W :=
  {| min_chunk := min_chunk self; max_chunk := max_chunk self; decoy := Some (decoy_object d) |}.

(** [Debug]. *)
Definition fmt {W} (self : StandardFragmenter W) : string :=
  debug_struct "StandardFragmenter" [
    ("min_chunk", pretty (min_chunk self)); ("max_chunk", pretty (max_chunk self));
    ("decoy", debug_option (fun d => debug_str (dyn_decoy_describe d)) (decoy self))].
End StandardFragmenter.

(** [enum ChunkKind]. *)
Inductive ChunkKind := Real (idx : nat) | Decoy (idx : nat).

Definition empty_key : Error.t := Error.Fragment "empty key cannot be fragmented".
Definition key_too_large : Error.t := Error.Fragment "key too large for fragmentation".
Definition invalid_range : Error.t := Error.Fragment "invalid chunk-size range".
Definition decoy_taken_twice : Error.t :=
  Error.Internal "decoy slot taken twice during fragmentation".
Definition layout_chunk_mismatch : Error.t :=
  Error.Defragment "layout buffer length does not match chunk count".
Definition layout_slice : Error.t := Error.Defragment "layout buffer slice did not size to u32".
Definition offset_overflow : Error.t :=
  Error.Defragment "chunk offset overflowed when added to chunk length".
Definition write_past_end : Error.t := Error.Defragment "chunk would write past end of output buffer".
Definition length_mismatch : Error.t :=
  Error.Defragment "reassembled length does not match recorded total".

Section standard.
Context {W : Type} `{Rng W}.

(** The size picked in one iteration of [sample_chunk_sizes] from the sample
    [pick]. *)
Definition clamp_pick (pick remaining min max : Z) : Z :=
  let pick := Z.min pick (saturating_sub remaining min) in
  Z.min (Z.min (Z.max pick min) max) remaining.

(** The [while remaining > 0] loop of [sample_chunk_sizes]; every iteration
    takes at least one byte, so [total] units of fuel are enough. *)
Fixpoint sample_loop (fuel : nat) (remaining min max : Z) : M W (list Z) :=
  if 0 <? remaining then
    match fuel with
    | O => diverge
    | S fuel' =>
        if remaining <=? max then
          let! sizes := sample_loop fuel' 0 min max in
          ret (remaining :: sizes)
        else
          let! pick := sample_range min max in
          let pick := clamp_pick pick remaining min max in
          let! sizes := sample_loop fuel' (remaining - pick) min max in
          ret (pick :: sizes)
    end
  else ret [].

Definition sample_chunk_sizes (total min max : Z) : M W (list Z) :=
  if (min =? 0) || (max <? min) then fail invalid_range
  else sample_loop (Z.to_nat total) total min max.

(** Step 2 of [fragment]: [(offset, slice)] pairs in key order. *)
Fixpoint real_pairs (bytes : list byte) (offset : Z) (sizes : list Z)
    : M W (list (Z * list byte)) :=
  match sizes with
  | [] => ret []
  | size :: sizes' =>
      let! offset_u32 := ok_or (u32_try_from offset) key_too_large in
      let! s := slice bytes offset (offset + size) in
      let! pairs := real_pairs bytes (offset + size) sizes' in
      ret ((offset_u32, s) :: pairs)
  end.

(** Step 3: [n_decoy] decoys of independently sampled sizes. *)
Definition make_decoys (self : StandardFragmenter W) (key : RawKey.t) (n_decoy : nat)
    : M W (list (list byte)) :=
  match decoy self with
  | None => ret []
  | Some d =>
      repeat_m n_decoy (
        let! size := sample_range (min_chunk self) (max_chunk self) in
        generate d key size)
  end.

(** Step 5: walk the shuffled order, taking each decoy out of its slot. *)
Fixpoint materialize (pairs : list (Z * list byte)) (slots : list (option (list byte)))
    (order : list ChunkKind) : M W (list (list byte) * list byte) :=
  match order with
  | [] => ret ([], [])
  | Real idx :: order' =>
      let! p := index pairs (Z.of_nat idx) in
      let! rest := materialize pairs slots order' in
      ret (snd p :: fst rest, to_le_bytes32 (fst p) ++ snd rest)
  | Decoy idx :: order' =>
      let! slot := index slots (Z.of_nat idx) in
      let! lb := ok_or slot decoy_taken_twice in
      let! rest := materialize pairs (<[idx := None]> slots) order' in
      ret (lb :: fst rest, to_le_bytes32 DECOY_OFFSET ++ snd rest)
  end.

(** [StandardFragmenter::fragment]. *)
Definition standard_fragment (self : StandardFragmenter W) (key : RawKey.t) : M W Fragments :=
  let bytes := RawKey.as_bytes key in
  let total_len := zlen bytes in
  if total_len =? 0 then fail empty_key else
  if DECOY_OFFSET <=? total_len then fail key_too_large else
  let! sizes := sample_chunk_sizes total_len (min_chunk self) (max_chunk self) in
  let n_real := length sizes in
  let! pairs := real_pairs bytes 0 sizes in
  let n_decoy := match decoy self with Some _ => n_real | None => 0%nat end in
  let! decoy_chunks := make_decoys self key n_decoy in
  let order := (Real <$> seq 0 n_real) ++ (Decoy <$> seq 0 n_decoy) in
  let! order := fisher_yates order in
  let! r := materialize pairs (Some <$> decoy_chunks) order in
  let '(chunks, layout) := r in
  ret (from_parts chunks layout total_len).

(** The single pass of [defragment_into]; [i] is the chunk's index, the state
    is the caller's buffer, and the total written comes back. *)
Fixpoint defrag_loop (layout : list byte) (total_len : Z) (i : Z) (written : Z)
    (chunks : list (list byte)) : M (list byte) Z :=
  match chunks with
  | [] => ret written
  | chunk_bytes :: chunks' =>
      let! s := slice layout (i * 4) (i * 4 + 4) in
      let! raw := ok_or (try_into_array 4 s) layout_slice in
      let offset := from_le_bytes raw in
      if offset =? DECOY_OFFSET then defrag_loop layout total_len (i + 1) written chunks' else
      let start := offset in
      let! end_ := ok_or (checked_add start (zlen chunk_bytes)) offset_overflow in
      if total_len <? end_ then fail write_past_end else
      do! write_at start end_ chunk_bytes in
      defrag_loop layout total_len (i + 1) (saturating_add written (zlen chunk_bytes)) chunks'
  end.

(** [StandardFragmenter::defragment_into]. *)
Definition standard_defragment_into (self : StandardFragmenter W) (fragments : Fragments)
    : M (list byte) unit :=
  let n_chunks := chunk_count fragments in
  let layout := layout_bytes fragments in
  let total_len := total_len fragments in
  let! out := get in
  if negb (zlen layout =? n_chunks * 4) then fail layout_chunk_mismatch else
  if negb (zlen out =? total_len) then fail scratch_size_mismatch else
  let! written := defrag_loop layout total_len 0 0 (chunks fragments) in
  if negb (written =? total_len) then fail length_mismatch else
  ret tt.

Definition standard_defragment (self : StandardFragmenter W) (fragments : Fragments)
    : outcome RawKey.t :=
  defragment_via (standard_defragment_into self) fragments.
End standard.

(** ** The trait instance *)

Lemma defrag_loop_length layout total i written cs :
  len_stable (defrag_loop layout total i written cs).
Proof.
  revert i written. induction cs as [| c cs IH]; intros i written; cbn [defrag_loop]; auto 12 with kv.
Qed.

Lemma standard_defragment_into_length {W} (self : StandardFragmenter W) frags :
  len_stable (standard_defragment_into self frags).
Proof. unfold standard_defragment_into. pose proof defrag_loop_length. auto 12 with kv. Qed.

#[export] Instance strategy_standard {W} `{Rng W} : FragmentStrategy W (StandardFragmenter W) := {|
  fragment := standard_fragment;
  defragment := standard_defragment;
  defragment_into := standard_defragment_into;
  fragment_describe := fun _ => "standard";
  defragment_into_length := standard_defragment_into_length
|}.

(** ** Chunk sizes *)

(** What [sample_chunk_sizes] promises: sizes in [[min, max]] that add up to
    the total, except that the last one may be shorter than [min]. *)
Definition good_sizes (total min max : Z) (sizes : list Z) : Prop :=
  zsum sizes = total /\ Forall (fun n => 1 <= n <= max) sizes /\
  forall init last, sizes = init ++ [last] -> Forall (fun n => min <= n) init.

Lemma good_sizes_cons total min max n sizes :
  min <= n -> 1 <= n <= max -> good_sizes total min max sizes ->
  good_sizes (n + total) min max (n :: sizes).
Proof.
  intros Hn Hn1 (H1 & H2 & H3). split_and!; [cbn; lia | by constructor |].
  intros [| m init] last E; [constructor |]. cbn in E. injection E as -> E.
  constructor; [done | by eapply H3].
Qed.

Section sizes.
Context {W : Type} `{Rng W}.

Lemma clamp_pick_bounds pick remaining min max :
  1 <= min -> min <= max -> max < remaining ->
  min <= clamp_pick pick remaining min max <= max /\ clamp_pick pick remaining min max <= remaining.
Proof. unfold clamp_pick, saturating_sub. lia. Qed.

Lemma sample_loop_safe fuel remaining min max :
  1 <= min -> min <= max -> max <= usize_max -> 0 <= remaining <= Z.of_nat fuel ->
  safe (sample_loop fuel remaining min max) (good_sizes remaining min max) (eq rng_failed).
Proof.
  intros ? ? ?. revert remaining. induction fuel as [| fuel IH]; intros remaining Hr; cbn [sample_loop].
  { rewrite (proj2 (Z.ltb_ge _ _)) by lia. apply safe_ret. split_and!; [cbn; lia | done |].
    intros [] ? E; by cbn in E. }
  case_test; tests.
  2: { apply safe_ret. split_and!; [cbn; lia | done |]. by intros [] ? [=]. }
  case_test; tests.
  - replace (sample_loop fuel 0 min max) with (ret [] : M W (list Z)) by (by destruct fuel).
    eapply safe_bind; [by apply (safe_ret [] (eq [])) |]. intros _ <-. apply safe_ret.
    split_and!; [cbn; lia | constructor; [lia | done] |].
    intros [| m init] last E; [constructor |]. cbn in E. injection E as _ E. by destruct init.
  - eapply safe_bind; [apply sample_range_safe; lia |]. intros pick _. cbn zeta.
    pose proof (clamp_pick_bounds pick remaining min max) as Hb.
    set (n := clamp_pick pick remaining min max) in *.
    eapply safe_bind; [apply IH; lia |]. intros sizes Hs. apply safe_ret.
    replace remaining with (n + (remaining - n)) by lia.
    apply good_sizes_cons; [lia.. | done].
Qed.

Lemma sample_chunk_sizes_safe total min max :
  1 <= min -> min <= max -> max <= usize_max -> 0 <= total ->
  safe (sample_chunk_sizes total min max) (good_sizes total min max) (eq rng_failed).
Proof.
  intros. unfold sample_chunk_sizes.
  rewrite (proj2 (Z.eqb_neq _ _)), (proj2 (Z.ltb_ge max min)) by lia. cbn [orb].
  apply sample_loop_safe; lia.
Qed.

(** ** The entries of the store, as pairs of an offset and a chunk *)

Definition entry : Type := Z * list byte.

(** What [real_pairs] computes: consecutive pieces of the key. *)
Fixpoint pieces (bytes : list byte) (offset : Z) (sizes : list Z) : list entry :=
  match sizes with
  | [] => []
  | n :: sizes' => (offset, range offset (offset + n) bytes) :: pieces bytes (offset + n) sizes'
  end.

Lemma real_pairs_ok bytes offset sizes (w : W) :
  0 <= offset -> Forall (Z.le 0) sizes -> offset + zsum sizes <= zlen bytes ->
  zlen bytes <= u32_max ->
  real_pairs bytes offset sizes w = (Ok (pieces bytes offset sizes), w).
Proof.
  intros Ho Hs. revert offset Ho. induction Hs as [| n sizes Hn Hs IH]; intros offset Ho; cbn; [done |].
  intros Hle Hmax. pose proof (zsum_nonneg _ Hs).
  unfold u32_try_from. rewrite (proj2 (Z.leb_le _ _)) by lia.
  rewrite (bind_ok _ _ w offset w) by done.
  erewrite bind_ok by (apply slice_ok; lia).
  by erewrite bind_ok by (apply IH; lia).
Qed.

Lemma pieces_length bytes offset sizes : length (pieces bytes offset sizes) = length sizes.
Proof. revert offset. induction sizes; intros; cbn; auto. Qed.

(** A piece is the part of the key its offset and length say. *)
Definition piece_of (bytes : list byte) (e : entry) : Prop :=
  0 <= e.1 /\ e.1 + zlen e.2 <= zlen bytes /\ e.2 = range e.1 (e.1 + zlen e.2) bytes.

Lemma pieces_piece_of bytes offset sizes :
  0 <= offset -> Forall (Z.le 1) sizes -> offset + zsum sizes <= zlen bytes ->
  Forall (fun e => piece_of bytes e /\ e.1 < zlen bytes) (pieces bytes offset sizes).
Proof.
  intros Ho Hs. revert offset Ho. induction Hs as [| n sizes Hn Hs IH]; intros offset Ho; cbn; [done |].
  intros Hle. assert (0 <= zsum sizes) by (apply zsum_nonneg; eapply Forall_impl; [done | cbn; lia]).
  constructor; [| apply IH; lia]. unfold piece_of; cbn.
  rewrite zlen_range by lia. replace (offset + (offset + n - offset)) with (offset + n) by lia.
  split_and!; [lia.. | done | lia].
Qed.

Lemma pieces_total bytes offset sizes :
  0 <= offset -> Forall (Z.le 1) sizes -> offset + zsum sizes <= zlen bytes ->
  zsum ((fun e => zlen e.2) <$> pieces bytes offset sizes) = zsum sizes.
Proof.
  intros Ho Hs. revert offset Ho. induction Hs as [| n sizes Hn Hs IH]; intros offset Ho; cbn; [done |].
  intros Hle. assert (0 <= zsum sizes) by (apply zsum_nonneg; eapply Forall_impl; [done | cbn; lia]).
  rewrite IH, zlen_range by lia. lia.
Qed.

Lemma pieces_cover bytes offset sizes (p : Z) :
  0 <= offset -> Forall (Z.le 1) sizes -> offset + zsum sizes <= zlen bytes ->
  offset <= p < offset + zsum sizes ->
  exists e, e ∈ pieces bytes offset sizes /\ e.1 <= p < e.1 + zlen e.2.
Proof.
  intros Ho Hs. revert offset Ho. induction Hs as [| n sizes Hn Hs IH]; intros offset Ho; cbn; [lia |].
  intros Hle Hp. assert (0 <= zsum sizes) by (apply zsum_nonneg; eapply Forall_impl; [done | cbn; lia]).
  destruct (decide (p < offset + n)).
  - eexists. split; [by left |]. cbn. rewrite zlen_range by lia. lia.
  - destruct (IH (offset + n)) as (e & He & ?); [lia.. |]. exists e. split; [by right | done].
Qed.
End sizes.

(** ** The shuffled store *)

(** The layout buffer of a list of entries. *)
Definition encode_layout (es : list entry) : list byte := flat_map (fun e => to_le_bytes32 e.1) es.

Definition entry_of (pairs : list entry) (decoys : list (list byte)) (k : ChunkKind) : entry :=
  match k with Real i => pairs !!! i | Decoy i => (DECOY_OFFSET, decoys !!! i) end.

Lemma zlen_encode_layout es : zlen (encode_layout es) = zlen es * 4.
Proof.
  unfold encode_layout, to_le_bytes32. induction es as [| e es IH]; cbn [flat_map]; [done |].
  rewrite zlen_app, zlen_cons, zlen_le_split, IH. lia.
Qed.

Lemma entry_of_all pairs decoys :
  entry_of pairs decoys <$> ((Real <$> seq 0 (length pairs)) ++ (Decoy <$> seq 0 (length decoys)))
  = pairs ++ (pair DECOY_OFFSET <$> decoys).
Proof.
  rewrite fmap_app, <- !list_fmap_compose. f_equal.
  - apply list_eq. intros i. rewrite list_lookup_fmap.
    destruct (decide (i < length pairs)%nat).
    + rewrite lookup_seq_lt by done. cbn. by rewrite list_lookup_lookup_total_lt.
    + rewrite !lookup_ge_None_2 by (rewrite ?length_seq; lia). done.
  - apply list_eq. intros i. rewrite !list_lookup_fmap.
    destruct (decide (i < length decoys)%nat).
    + rewrite lookup_seq_lt by done. cbn. by rewrite (list_lookup_lookup_total_lt decoys).
    + rewrite !lookup_ge_None_2 by (rewrite ?length_seq; lia). done.
Qed.

Lemma kinds_NoDup n m : NoDup ((Real <$> seq 0 n) ++ (Decoy <$> seq 0 m)).
Proof.
  apply NoDup_app. split_and!.
  - apply NoDup_fmap_2; [by intros ? ? [=] | apply NoDup_seq].
  - intros k (i & -> & _)%list_elem_of_fmap (j & ? & _)%list_elem_of_fmap. done.
  - apply NoDup_fmap_2; [by intros ? ? [=] | apply NoDup_seq].
Qed.

Lemma materialize_ok {W} `{Rng W} pairs decoys slots order (w : W) :
  NoDup order ->
  (forall i, Real i ∈ order -> (i < length pairs)%nat) ->
  (forall i, Decoy i ∈ order -> slots !! i = Some (Some (decoys !!! i))) ->
  let es := entry_of pairs decoys <$> order in
  materialize pairs slots order w = (Ok (snd <$> es, encode_layout es), w).
Proof.
  intros Hnd. revert slots. induction Hnd as [| k order Hk Hnd IH]; intros slots Hr Hd; [done |].
  destruct k as [i | i]; cbn [materialize].
  - erewrite bind_ok by (apply index_Some; [lia |]; rewrite Nat2Z.id;
      apply list_lookup_lookup_total_lt, Hr; by left).
    erewrite bind_ok by (apply IH; intros; [apply Hr | apply Hd]; by right).
    done.
  - erewrite bind_ok by (apply index_Some; [lia |]; rewrite Nat2Z.id; apply Hd; by left).
    erewrite bind_ok by done.
    erewrite bind_ok; [| apply IH; [intros; apply Hr; by right |]].
    + done.
    + intros j Hj. rewrite list_lookup_insert_ne by (intros ->; done). apply Hd. by right.
Qed.

(** A configuration whose chunk range is usable; both constructors build
    one.  With decoys the sampled decoy sizes must be allocatable. *)
Record standard_valid {W} (self : StandardFragmenter W) : Prop := {
  sv_min : 1 <= min_chunk self;
  sv_max : min_chunk self <= max_chunk self;
  sv_usize : max_chunk self <= usize_max;
  sv_decoy : forall d, decoy self = Some d -> max_chunk self <= decoy_max /\ LawfulDecoy (W := W) d
}.

(** What [fragment] stores: the pieces of the key, as many decoys as pieces
    if a decoy strategy is set, in some order, with the matching layout. *)
Definition standard_store {W} (self : StandardFragmenter W) (key : RawKey.t) (frags : Fragments) : Prop :=
  exists sizes decoys entries,
    good_sizes (RawKey.len key) (min_chunk self) (max_chunk self) sizes /\
    length decoys = match decoy self with Some _ => length sizes | None => 0%nat end /\
    entries ≡ₚ pieces (RawKey.bytes key) 0 sizes ++ (pair DECOY_OFFSET <$> decoys) /\
    frags = from_parts (snd <$> entries) (encode_layout entries) (RawKey.len key).

(** The entries before the shuffle: the pieces in key order, then the decoys. *)
Definition unshuffled (key : RawKey.t) (sizes : list Z) (decoys : list (list byte)) : list entry :=
  pieces (RawKey.bytes key) 0 sizes ++ (pair DECOY_OFFSET <$> decoys).

Section fragment.
Context {W : Type} `{Rng W}.

(** What drawing [n] decoys comes to, and where it leaves the world: each
    takes a size from the generator and the bytes the decoy strategy answers
    for it, and the first failure, the generator's or the strategy's own,
    ends it. *)
Inductive decoys_drawn (self : StandardFragmenter W) (d : dyn_decoy W) (key : RawKey.t)
    : nat -> W -> outcome (list (list byte)) -> W -> Prop :=
| DrawnAll w : decoys_drawn self d key 0 w (Ok []) w
| DrawnRefused n w w1 :
    sample_range (min_chunk self) (max_chunk self) w = (Err rng_failed, w1) -> refused w w1 ->
    decoys_drawn self d key (S n) w (Err rng_failed) w1
| DrawnFailed n w size w1 e w2 :
    sample_range (min_chunk self) (max_chunk self) w = (Ok size, w1) ->
    rtc draw w w1 -> min_chunk self <= size <= max_chunk self ->
    generate d key size w1 = (Err e, w2) -> decoys_drawn self d key (S n) w (Err e) w2
| DrawnNext n w size w1 bytes w2 o w3 :
    sample_range (min_chunk self) (max_chunk self) w = (Ok size, w1) ->
    rtc draw w w1 -> min_chunk self <= size <= max_chunk self ->
    generate d key size w1 = (Ok bytes, w2) -> decoys_drawn self d key n w2 o w3 ->
    decoys_drawn self d key (S n) w (outcome_map (cons bytes) o) w3.

(** The decoys of [n] pieces. *)
Definition decoys_made (self : StandardFragmenter W) (key : RawKey.t) (n : nat) (w : W)
    (o : outcome (list (list byte))) (w' : W) : Prop :=
  match decoy self with
  | Some d => decoys_drawn self d key n w o w'
  | None => o = Ok [] /\ w' = w
  end.

(** The first stage: sizes for a key that is neither empty nor too large. *)
Definition key_cut (self : StandardFragmenter W) (key : RawKey.t) (w : W) (sizes : list Z) (w' : W) : Prop :=
  0 < RawKey.len key < DECOY_OFFSET /\ rtc draw w w' /\
  sample_chunk_sizes (RawKey.len key) (min_chunk self) (max_chunk self) w = (Ok sizes, w') /\
  good_sizes (RawKey.len key) (min_chunk self) (max_chunk self) sizes.

(** One [fragment], stage by stage, from [w]: what it returns, and where it
    leaves the world. *)
Inductive standard_run (self : StandardFragmenter W) (key : RawKey.t) (w : W)
    : outcome Fragments -> W -> Prop :=
| RunEmpty : RawKey.bytes key = [] -> standard_run self key w (Err empty_key) w
| RunTooLarge : DECOY_OFFSET <= RawKey.len key -> standard_run self key w (Err key_too_large) w
| RunNoSizes w1 :
    0 < RawKey.len key < DECOY_OFFSET ->
    sample_chunk_sizes (RawKey.len key) (min_chunk self) (max_chunk self) w = (Err rng_failed, w1) ->
    refused w w1 -> standard_run self key w (Err rng_failed) w1
| RunNoDecoys sizes w1 e w2 :
    key_cut self key w sizes w1 -> decoys_made self key (length sizes) w1 (Err e) w2 ->
    standard_run self key w (Err e) w2
| RunNoShuffle sizes w1 decoys w2 w3 :
    key_cut self key w sizes w1 -> decoys_made self key (length sizes) w1 (Ok decoys) w2 ->
    repeat_m (length (unshuffled key sizes decoys) - 1) random_u64 w2 = (Err rng_failed, w3) ->
    refused w2 w3 -> standard_run self key w (Err rng_failed) w3
| RunStored sizes w1 decoys w2 rs w3 :
    key_cut self key w sizes w1 -> decoys_made self key (length sizes) w1 (Ok decoys) w2 ->
    repeat_m (length (unshuffled key sizes decoys) - 1) random_u64 w2 = (Ok rs, w3) ->
    let entries := shuffle_by rs (unshuffled key sizes decoys) in
    standard_run self key w
      (Ok (from_parts (snd <$> entries) (encode_layout entries) (RawKey.len key))) w3.

Lemma decoys_drawn_length self d key n w o w' :
  decoys_drawn self d key n w o w' -> forall ds, o = Ok ds -> length ds = n.
Proof.
  induction 1 as [| | | n w size w1 bytes w2 o w3 _ _ _ _ _ IH]; [by intros ds [= <-] | done.. |].
  intros ds Hd. destruct o as [cs | e | |]; [| done..]. injection Hd as <-. cbn. by rewrite (IH cs).
Qed.

Lemma decoys_made_length self key n w ds w' :
  decoys_made self key n w (Ok ds) w' -> length ds = match decoy self with Some _ => n | None => 0%nat end.
Proof.
  unfold decoys_made. destruct (decoy self); [| by intros [[= ->] _]].
  intros Hd. by eapply decoys_drawn_length.
Qed.

(** A run that stores something stores a store of the key. *)
Lemma standard_run_store self key w frags w' :
  standard_run self key w (Ok frags) w' -> RawKey.len key < DECOY_OFFSET /\ standard_store self key frags.
Proof.
  remember (Ok frags) as o eqn:Eo. intros Hr. destruct Hr as [| | | | | sizes w1 decoys w2 rs w3 Hc Hd _];
    [done.. |]. injection Eo as <-. destruct Hc as ([_ Hlt] & _ & _ & Hg). split; [done |].
  eexists sizes, decoys, _. split_and!; [done | by eapply decoys_made_length | | done].
  apply shuffle_by_Permutation.
Qed.

Lemma drawing_sample_loop fuel remaining min max : drawing (sample_loop fuel remaining min max).
Proof.
  revert remaining. induction fuel as [| fuel IH]; intros remaining; cbn [sample_loop];
    (case_test; [| apply drawing_ret]); [apply drawing_diverge |].
  case_test; [apply drawing_bind; [apply IH | intros; apply drawing_ret] |].
  apply drawing_bind; [apply drawing_sample_range |]. intros pick.
  apply drawing_bind; [apply IH | intros; apply drawing_ret].
Qed.

(** The sizes, from the code's run. *)
Lemma sample_sizes_run self key w :
  standard_valid self -> 0 < RawKey.len key < DECOY_OFFSET ->
  match sample_chunk_sizes (RawKey.len key) (min_chunk self) (max_chunk self) w with
  | (Ok sizes, w') => key_cut self key w sizes w'
  | (Err e, w') => e = rng_failed /\ refused w w'
  | _ => False
  end.
Proof.
  intros [H1 H2 H3 _] Hlen.
  pose proof (sample_chunk_sizes_safe (RawKey.len key) _ _ H1 H2 H3 ltac:(lia) w) as Hs.
  pose proof (drawing_sample_loop (Z.to_nat (RawKey.len key)) (RawKey.len key)
    (min_chunk self) (max_chunk self) w) as Hd.
  assert (sample_chunk_sizes (RawKey.len key) (min_chunk self) (max_chunk self) w =
    sample_loop (Z.to_nat (RawKey.len key)) (RawKey.len key) (min_chunk self) (max_chunk self) w) as E.
  { unfold sample_chunk_sizes. by rewrite (proj2 (Z.eqb_neq _ _)), (proj2 (Z.ltb_ge _ _)) by lia. }
  destruct (sample_chunk_sizes _ _ _ w) as [[sizes | e | |] w'] eqn:Es; rewrite <- E in Hd; [| done..].
  split_and!; [lia.. | done | done | exact Hs].
Qed.

(** The decoys, from the code's run. *)
Lemma make_decoys_run self key n w :
  standard_valid self ->
  let m := match decoy self with Some _ => n | None => 0%nat end in
  match make_decoys self key m w with
  | (Ok ds, w') => decoys_made self key n w (Ok ds) w'
  | (Err e, w') => decoys_made self key n w (Err e) w'
  | _ => False
  end.
Proof.
  intros [H1 H2 H3 H4]. unfold make_decoys, decoys_made. destruct (decoy self) as [d |]; [| done].
  destruct (H4 d eq_refl) as [Hmax Hlaw]. cbn zeta. revert w.
  induction n as [| n IH]; intros w; cbn [repeat_m]; [constructor |].
  unfold bind at 1. unfold bind at 1.
  pose proof (sample_range_safe (min_chunk self) (max_chunk self) H1 H2 H3 w) as Hr.
  pose proof (drawing_sample_range (min_chunk self) (max_chunk self) w) as Hd.
  destruct (sample_range _ _ w) as [[size | e | |] w1] eqn:Er; [| destruct Hd as [-> ?]; by constructor | done..].
  pose proof (lawful_generate (d := d) key size ltac:(cbn in Hr; lia) w1) as Hg.
  destruct (generate d key size w1) as [[bytes | e | |] w2] eqn:Eg; [| by eapply (DrawnFailed _ _ _ _ _ size w1) | done..].
  specialize (IH w2). unfold bind.
  destruct (repeat_m n _ w2) as [[ds | e | |] w3]; [| | done..].
  - by apply (DrawnNext self d key n w size w1 bytes w2 (Ok ds)).
  - by apply (DrawnNext self d key n w size w1 bytes w2 (Err e)).
Qed.

(** The shuffled order, materialised. *)
Lemma materialize_shuffled key sizes decoys rs (w : W) :
  let pairs := pieces (RawKey.bytes key) 0 sizes in
  let order := (Real <$> seq 0 (length sizes)) ++ (Decoy <$> seq 0 (length decoys)) in
  let entries := shuffle_by rs (unshuffled key sizes decoys) in
  materialize pairs (Some <$> decoys) (shuffle_by rs order) w = (Ok (snd <$> entries, encode_layout entries), w).
Proof.
  intros pairs order entries. assert (length pairs = length sizes) as Hlen by apply pieces_length.
  assert (entries = entry_of pairs decoys <$> shuffle_by rs order) as ->.
  { unfold entries, unshuffled, order. rewrite <- Hlen, <- shuffle_by_fmap. by rewrite entry_of_all. }
  pose proof (shuffle_by_Permutation rs order) as Ho.
  apply materialize_ok.
  - rewrite Ho. apply kinds_NoDup.
  - intros i Hi. rewrite Ho in Hi. apply elem_of_app in Hi as [Hi | Hi];
      apply list_elem_of_fmap in Hi as (j & [= ->] & Hj%elem_of_seq). lia.
  - intros i Hi. rewrite Ho in Hi. apply elem_of_app in Hi as [Hi | Hi];
      apply list_elem_of_fmap in Hi as (j & [= ->] & Hj%elem_of_seq).
    rewrite list_lookup_fmap, list_lookup_lookup_total_lt by lia. done.
Qed.

Lemma standard_fragment_run (self : StandardFragmenter W) key w :
  standard_valid self ->
  match standard_fragment self key w with
  | (Ok frags, w') => standard_run self key w (Ok frags) w'
  | (Err e, w') => standard_run self key w (Err e) w'
  | _ => False
  end.
Proof.
  intros Hv. unfold standard_fragment, RawKey.as_bytes. fold (RawKey.len key).
  pose proof (zlen_nonneg (RawKey.bytes key)). unfold RawKey.len in *.
  case_test; tests; [apply RunEmpty; by apply zlen_0_inv |].
  case_test; tests; [by apply RunTooLarge |]. fold (RawKey.len key) in *.
  assert (0 < RawKey.len key < DECOY_OFFSET) as Hlen by lia.
  pose proof (sample_sizes_run self key w Hv Hlen) as Hs.
  unfold bind at 1. destruct (sample_chunk_sizes _ _ _ w) as [[sizes | e | |] w1] eqn:Ez;
    [| destruct Hs as [-> ?]; by apply RunNoSizes | done..].
  pose proof Hs as (_ & _ & _ & Hsum & Hpos & _).
  assert (Forall (Z.le 0) sizes) as Hnn by (eapply Forall_impl; [exact Hpos | cbn; lia]).
  rewrite (bind_ok _ _ w1 _ _ (real_pairs_ok (RawKey.bytes key) 0 sizes w1 ltac:(lia) Hnn
    ltac:(unfold RawKey.len in *; lia) ltac:(unfold RawKey.len, DECOY_OFFSET, u32_max in *; lia))).
  pose proof (make_decoys_run self key (length sizes) w1 Hv) as Hd. cbn zeta in Hd.
  unfold bind at 1. destruct (make_decoys _ _ _ w1) as [[decoys | e | |] w2]; [| by eapply RunNoDecoys | done..].
  rewrite <- (decoys_made_length _ _ _ _ _ _ Hd).
  unfold bind at 1. rewrite fisher_yates_shuffles. unfold bind at 1.
  set (order := _ ++ _).
  assert (length order = length (unshuffled key sizes decoys)) as ->.
  { unfold order, unshuffled. by rewrite !length_app, !length_fmap, !length_seq, pieces_length. }
  pose proof (drawing_repeat (length (unshuffled key sizes decoys) - 1) random_u64 drawing_random_u64 w2) as Hr.
  pose proof (safe_repeat_m (length (unshuffled key sizes decoys) - 1) random_u64 _ _ random_u64_safe w2) as Hsafe.
  destruct (repeat_m _ random_u64 w2) as [[rs | e | |] w3] eqn:Er;
    [| destruct Hr as [-> ?]; by eapply RunNoShuffle | done..].
  cbn [ret]. rewrite (bind_ok _ _ w3 _ _ (materialize_shuffled key sizes decoys rs w3)).
  by eapply RunStored.
Qed.

Lemma standard_fragment_safe (self : StandardFragmenter W) key :
  standard_valid self ->
  safe (standard_fragment self key)
    (fun frags => RawKey.len key < DECOY_OFFSET /\ standard_store self key frags) (fun _ => True).
Proof.
  intros Hv w. pose proof (standard_fragment_run self key w Hv) as Hr.
  destruct (standard_fragment self key w) as [[frags | e | |] w']; [by eapply standard_run_store | done..].
Qed.
End fragment.

(** ** Defragmentation *)

Definition real_len (e : entry) : Z := if e.1 =? DECOY_OFFSET then 0 else zlen e.2.

(** An entry that belongs to the store of [key]. *)
Definition good_entry (key : list byte) (e : entry) : Prop :=
  e.1 = DECOY_OFFSET \/ piece_of key e /\ e.1 < zlen key.

Definition covers (p : nat) (e : entry) : Prop :=
  e.1 <> DECOY_OFFSET /\ e.1 <= Z.of_nat p < e.1 + zlen e.2.

Lemma real_len_nonneg es : Forall (Z.le 0) (real_len <$> es).
Proof.
  apply Forall_fmap, Forall_true. intros e. unfold compose, real_len. case_test; [done | apply zlen_nonneg].
Qed.

Lemma defrag_loop_ok key pre entries i written out :
  zlen pre = i * 4 -> 0 <= i -> zlen out = zlen key -> zlen key < DECOY_OFFSET ->
  Forall (good_entry key) entries -> 0 <= written ->
  written + zsum (real_len <$> entries) <= zlen key ->
  exists out',
    defrag_loop (pre ++ encode_layout entries) (zlen key) i written (snd <$> entries) out
      = (Ok (written + zsum (real_len <$> entries)), out') /\
    zlen out' = zlen key /\
    forall p, agrees_at key out p \/ Exists (covers p) entries -> agrees_at key out' p.
Proof.
  intros Hpre Hi Hout Hkey Hall.
  revert pre i written out Hpre Hi Hout. induction Hall as [| e entries He Hall IH];
    intros pre i written out Hpre Hi Hout Hw Htot.
  { exists out. split_and!; [cbn; by rewrite Z.add_0_r | done |].
    by intros p [| ?%Exists_nil]. }
  assert (Henc : encode_layout (e :: entries) = to_le_bytes32 e.1 ++ encode_layout entries) by done.
  assert (H4 : zlen (to_le_bytes32 e.1) = 4) by apply zlen_le_split.
  assert (Hz : zsum (real_len <$> e :: entries) = real_len e + zsum (real_len <$> entries)) by done.
  rewrite Hz in *.
  pose proof (zsum_nonneg _ (real_len_nonneg entries)).
  assert (Hnext : zlen (pre ++ to_le_bytes32 e.1) = (i + 1) * 4) by (rewrite zlen_app; lia).
  cbn [defrag_loop fmap list_fmap]. rewrite Henc.
  erewrite bind_ok by (apply slice_ok; [lia.. | rewrite !zlen_app, H4;
    pose proof (zlen_nonneg (encode_layout entries)); lia]).
  rewrite (range_app_exact pre (to_le_bytes32 e.1)) by lia.
  unfold try_into_array. rewrite H4. change (4 =? 4) with true. cbv iota.
  erewrite bind_ok by done.
  assert (Hdec : from_le_bytes (to_le_bytes32 e.1) = e.1).
  { apply le_word32. destruct He as [-> | [[? _] ?]]; unfold DECOY_OFFSET, u32_max in *; lia. }
  rewrite Hdec, app_assoc. assert (Hrl : real_len e = if e.1 =? DECOY_OFFSET then 0 else zlen e.2) by done.
  rewrite Hrl in *. clear Hrl. destruct (e.1 =? DECOY_OFFSET) eqn:Hoff; tests.
  - destruct (IH (pre ++ to_le_bytes32 e.1) (i + 1) written out) as (out' & E & Hl & Ha);
      [lia.. |].
    exists out'. split_and!; [by rewrite Z.add_0_l | done |].
    intros p [Hp | [[Hne _] | Hp]%Exists_cons]; [apply Ha; by left | done | apply Ha; by right].
  - destruct He as [? | [(Hpos & Hend & Hr) Hlt]]; [done |].
    unfold checked_add. rewrite (proj2 (Z.leb_le (e.1 + _) usize_max))
      by (unfold DECOY_OFFSET, u32_max, usize_max in *; lia).
    erewrite bind_ok by done. rewrite (proj2 (Z.ltb_ge _ _)) by lia.
    pose proof (zlen_nonneg e.2).
    erewrite (bind_ok (write_at _ _ _)) by (unfold write_at;
      erewrite bind_ok by done; erewrite bind_ok by (apply copy_into_ok; lia); done).
    unfold saturating_add. rewrite Z.min_r by (unfold DECOY_OFFSET, u32_max, usize_max in *; lia).
    destruct (IH (pre ++ to_le_bytes32 e.1) (i + 1) (written + zlen e.2)
      (list_inserts (Z.to_nat e.1) e.2 out)) as (out' & E & Hl & Ha);
      [lia | lia | rewrite zlen_inserts; lia | lia .. |].
    exists out'. split_and!; [rewrite E; by rewrite Z.add_assoc | done |].
    intros p Hcov. apply Ha. destruct Hcov as [Hp | [[_ Hp] | Hp]%Exists_cons]; [left | left | by right];
      (apply inserts_agrees; [done | done | done | lia |]); tauto.
Qed.

(** Everything a store of [key] is good for. *)
Lemma standard_store_reassembles {W} (self : StandardFragmenter W) key frags view :
  standard_valid self -> RawKey.len key < DECOY_OFFSET ->
  standard_store self key frags -> view ≡ frags ->
  reassembles (standard_defragment self) (standard_defragment_into self) view key.
Proof.
  intros [Hmin Hmax _ _] Hlen (sizes & decoys & es & (Hsum & Hpos & _) & _ & Hes & ->) (Hc & Hl & Ht).
  unfold RawKey.len in *. cbn in Ht.
  rewrite layout_from_parts in Hl. cbn in Hc.
  set (bytes := RawKey.bytes key) in *. pose proof (zlen_nonneg bytes).
  assert (Hs1 : Forall (Z.le 1) sizes) by (eapply Forall_impl; [done | cbn; lia]).
  assert (Hp : Forall (fun e => piece_of bytes e /\ e.1 < zlen bytes) (pieces bytes 0 sizes))
    by (apply pieces_piece_of; [lia | done | lia]).
  assert (Hreal : forall e, e ∈ pieces bytes 0 sizes -> e.1 <> DECOY_OFFSET).
  { intros e He. rewrite Forall_forall in Hp. destruct (Hp e He). lia. }
  assert (Hgood : Forall (good_entry bytes) es).
  { rewrite Hes. apply Forall_app. split; [eapply Forall_impl; [exact Hp | by right] |].
    apply Forall_fmap, Forall_true. by left. }
  assert (Htot : zsum (real_len <$> es) = zlen bytes).
  { rewrite Hes, fmap_app, zsum_app.
    rewrite (zsum_zeros real_len (pair _ <$> _))
      by (intros e (d & -> & _)%list_elem_of_fmap; unfold real_len; cbn; by rewrite Z.eqb_refl).
    rewrite (list_fmap_ext real_len (fun e => zlen e.2))
      by (intros i e He%list_elem_of_lookup_2; unfold real_len;
          by rewrite (proj2 (Z.eqb_neq _ _)) by by apply Hreal).
    rewrite pieces_total; [lia | lia | done | lia]. }
  assert (Hinto : forall out, zlen out = zlen bytes ->
    standard_defragment_into self view out = (Ok tt, bytes)).
  { intros out Hout. unfold standard_defragment_into, chunk_count. erewrite bind_ok by done.
    fold (chunks view). rewrite Hc, Hl, Ht, zlen_encode_layout, zlen_map, Z.eqb_refl, Hout, Z.eqb_refl.
    cbn [negb]. destruct (defrag_loop_ok bytes [] es 0 0 out) as (out' & E & Hlo & Ha);
      [done.. | lia | lia |].
    cbn [app] in E. rewrite Htot in E. erewrite bind_ok by exact E.
    rewrite Z.eqb_refl. cbn [negb]. unfold ret. f_equal.
    apply list_eq_zlen; [done |]. intros p Hlt. apply Ha. right. rewrite Exists_exists.
    destruct (pieces_cover bytes 0 sizes (Z.of_nat p)) as (e & He & Hcov); [lia | done | lia.. |].
    exists e. split; [| split; [by apply Hreal | done]]. rewrite Hes. apply elem_of_app. by left. }
  apply reassembles_via; [done | | done].
  subst bytes. unfold RawKey.len, isize_max, DECOY_OFFSET, u32_max in *. lia.
Qed.

(** The strategy contract, for every valid configuration. *)
#[export] Instance standard_lawful {W} `{Rng W} (self : StandardFragmenter W) :
  standard_valid self -> LawfulStrategy (W := W) self.
Proof.
  intros Hv key _. eapply safe_mono; [by apply standard_fragment_safe | | done].
  intros frags [Hlen Hs]. split_and!.
  - by destruct Hs as (? & ? & ? & _ & _ & _ & ->).
  - by destruct Hs as (? & ? & ? & _ & _ & _ & ->).
  - intros view _ Hview. by eapply standard_store_reassembles.
Qed.

(** ** [defragment_into] on arbitrary fragments *)

(** The entries a layout gives to the chunks from index [i] on. *)
Fixpoint entries_at (layout : list byte) (i : Z) (cs : list (list byte)) : list entry :=
  match cs with
  | [] => []
  | c :: cs' => (from_le_bytes (range (i * 4) (i * 4 + 4) layout), c) :: entries_at layout (i + 1) cs'
  end.

(** A decoy, or a chunk that ends inside a key of [total] bytes. *)
Definition fits (total : Z) (e : entry) : Prop := e.1 = DECOY_OFFSET \/ e.1 + zlen e.2 <= total.

(** The real chunks written at their offsets, in order. *)
Fixpoint place (es : list entry) (out : list byte) : list byte :=
  match es with
  | [] => out
  | e :: es' =>
      place es' (if e.1 =? DECOY_OFFSET then out else list_inserts (Z.to_nat e.1) e.2 out)
  end.

Lemma defrag_loop_spec layout total i written cs out :
  0 <= i -> (i + zlen cs) * 4 <= zlen layout -> zlen out = total -> total <= isize_max ->
  0 <= written <= usize_max ->
  let es := entries_at layout i cs in
  match defrag_loop layout total i written cs out with
  | (Ok w, out') =>
      Forall (fits total) es /\ w = Z.min usize_max (written + zsum (real_len <$> es)) /\
      out' = place es out
  | (Err e, _) => (e = write_past_end \/ e = offset_overflow) /\ ~ Forall (fits total) es
  | _ => False
  end.
Proof.
  intros Hi. revert i Hi written out. induction cs as [| c cs IH];
    intros i Hi written out Hlay Hout Hmax Hw es.
  { cbn. split_and!; [constructor | lia | done]. }
  rewrite zlen_cons in Hlay. pose proof (zlen_nonneg cs). subst es. cbn [entries_at defrag_loop].
  erewrite bind_ok by (apply slice_ok; lia). set (raw := range (i * 4) (i * 4 + 4) layout).
  assert (H4 : zlen raw = 4) by (subst raw; rewrite zlen_range by lia; lia).
  unfold try_into_array. rewrite H4. change (4 =? 4) with true. cbv iota.
  erewrite bind_ok by done. set (off := from_le_bytes raw).
  assert (Hoff : 0 <= off) by apply le_combine_range. pose proof (zlen_nonneg c).
  assert (Hz : forall es, zsum (real_len <$> (off, c) :: es) = real_len (off, c) + zsum (real_len <$> es))
    by done.
  rewrite Hz. cbn [place fst snd]. unfold real_len at 1; cbn [fst snd].
  case_test; tests.
  - specialize (IH (i + 1) ltac:(lia) written out ltac:(lia) Hout Hmax Hw). cbn zeta in IH.
    destruct (defrag_loop _ _ (i + 1) _ _ _) as [[w | e | |] out']; [| | done..].
    + rewrite Z.add_0_l. destruct IH as (? & ? & ?). split_and!; [by constructor; [left |] | done..].
    + destruct IH as [He Hn]. split; [done |]. by intros [_ ?]%Forall_cons.
  - assert (Hfit : fits total (off, c) <-> off + zlen c <= total) by (unfold fits; cbn; tauto).
    unfold checked_add. case_test; tests.
    2: { unfold bind, ok_or, fail. split; [by right |]. intros [?%Hfit _]%Forall_cons.
         unfold usize_max, isize_max in *. lia. }
    erewrite bind_ok by done. case_test; tests.
    { split; [by left |]. intros [?%Hfit _]%Forall_cons. lia. }
    erewrite (bind_ok (write_at _ _ _)) by (unfold write_at;
      erewrite bind_ok by done; erewrite bind_ok by (apply copy_into_ok; lia); done).
    specialize (IH (i + 1) ltac:(lia) (saturating_add written (zlen c))
      (list_inserts (Z.to_nat off) c out) ltac:(lia) ltac:(by rewrite zlen_inserts) Hmax
      ltac:(unfold saturating_add, usize_max in *; lia)). cbn zeta in IH.
    destruct (defrag_loop _ _ (i + 1) _ _ _) as [[w | e | |] out']; [| | done..].
    + destruct IH as (IH1 & IH2 & ?). split_and!; [by constructor; [apply Hfit |] | | done].
      rewrite IH2. unfold saturating_add. pose proof (zsum_nonneg _ (real_len_nonneg (entries_at layout (i + 1) cs))).
      unfold entry, usize_max in *. lia.
    + destruct IH as [He Hn]. split; [done |]. by intros [_ ?]%Forall_cons.
Qed.

(** ** What the checks of [defragment_into] amount to *)

(** The real chunks that write byte [p]. *)
Definition covering (p : nat) (es : list entry) : list entry := filter (covers p) es.

(** Two real chunks write the same byte of the key. *)
Definition overlapping (total : Z) (es : list entry) : Prop :=
  exists p, Z.of_nat p < total /\ (2 <= length (covering p es))%nat.

Lemma covering_cons p e es :
  covering p (e :: es) = if decide (covers p e) then e :: covering p es else covering p es.
Proof. unfold covering. by rewrite filter_cons. Qed.

Lemma place_uncovered p es out :
  Forall (fun e => 0 <= e.1) es -> covering p es = [] -> place es out !! p = out !! p.
Proof.
  intros Hes. revert out. induction Hes as [| e es He _ IH]; intros out; [done |].
  rewrite covering_cons. case_decide as Hc; [done |]. intros Hn. cbn [place]. rewrite (IH _ Hn).
  case_test; tests; [done |]. unfold covers, zlen in Hc.
  destruct (decide (p < Z.to_nat e.1)%nat).
  - by rewrite list_lookup_inserts_lt by done.
  - rewrite list_lookup_inserts_ge by lia. done.
Qed.

Lemma place_covered p es out e :
  Forall (fun e => 0 <= e.1) es -> (p < length out)%nat -> covering p es = [e] ->
  place es out !! p = e.2 !! (p - Z.to_nat e.1)%nat.
Proof.
  intros Hes. revert out. induction Hes as [| e' es He Hes IH]; intros out Hp; [done |].
  rewrite covering_cons. cbn [place]. case_decide as Hc.
  - intros [= -> Hn]. rewrite place_uncovered by done. destruct Hc as [Hne Hc].
    rewrite (proj2 (Z.eqb_neq _ _)) by done. unfold zlen in Hc.
    by rewrite list_lookup_inserts by lia.
  - intros Hn. apply IH; [| done]. case_test; by rewrite ?length_inserts.
Qed.

Lemma zsum_cons x l : zsum (x :: l) = x + zsum l.
Proof. done. Qed.

(** How often a range counts a position below [n]. *)
Lemma zsum_in_range (a b : Z) n :
  0 <= a <= b ->
  zsum ((fun p => if decide (a <= Z.of_nat p < b) then 1 else 0) <$> seq 0 n) =
    Z.min b (Z.of_nat n) - Z.min a (Z.of_nat n).
Proof.
  intros Hab. induction n as [| n IH]; [cbn; lia |].
  rewrite seq_S, fmap_app, zsum_app, IH. cbn. case_decide; lia.
Qed.

(** Counting the bytes by chunk or by position is the same. *)
Lemma zsum_covering total es :
  0 <= total -> Forall (fun e => 0 <= e.1) es -> Forall (fits total) es ->
  zsum ((fun p => Z.of_nat (length (covering p es))) <$> seq 0 (Z.to_nat total)) = zsum (real_len <$> es).
Proof.
  intros Ht Hes Hf. induction es as [| e es IH].
  { apply zsum_zeros. intros p _. done. }
  apply Forall_cons in Hes as [He Hes]. apply Forall_cons in Hf as [Hfe Hf].
  rewrite fmap_cons, zsum_cons, <- (IH Hes Hf). clear IH. pose proof (zlen_nonneg e.2).
  assert (real_len e = zsum ((fun p => if decide (covers p e) then 1 else 0) <$> seq 0 (Z.to_nat total))) as ->.
  { unfold real_len, covers. case_test; tests.
    - symmetry. apply zsum_zeros. intros p _. by rewrite decide_False by tauto.
    - destruct Hfe as [? | Hfe]; [done |].
      transitivity (Z.min (e.1 + zlen e.2) (Z.of_nat (Z.to_nat total)) - Z.min e.1 (Z.of_nat (Z.to_nat total)));
        [lia |].
      rewrite <- zsum_in_range by lia. f_equal. apply list_fmap_ext. intros i p _.
      apply decide_ext. tauto. }
  generalize (seq 0 (Z.to_nat total)). intros l. induction l as [| p l IHl]; [done |].
  rewrite !fmap_cons, !zsum_cons, IHl, covering_cons.
  destruct (decide (covers p e)); cbn [length]; lia.
Qed.

Lemma zsum_all_one {A} (f : A -> Z) l :
  (forall x, x ∈ l -> f x <= 1) -> zsum (f <$> l) = zlen l -> forall x, x ∈ l -> f x = 1.
Proof.
  induction l as [| y l IH]; intros Hf Hs x; [by intros ?%not_elem_of_nil |].
  rewrite fmap_cons, zsum_cons, zlen_cons in Hs.
  assert (zsum (f <$> l) <= zlen l) as Hle.
  { clear -Hf. induction l as [| z l IH]; [done |].
    rewrite fmap_cons, zsum_cons, zlen_cons.
    pose proof (Hf z ltac:(set_solver)). assert (zsum (f <$> l) <= zlen l); [| lia].
    apply IH. set_solver. }
  pose proof (Hf y ltac:(by left)). intros [-> | Hx]%elem_of_cons; [lia |].
  apply IH; [set_solver | lia | done].
Qed.

(** Real chunks that fit and add up to the key leave no byte out, unless two
    of them overlap. *)
Lemma tiled_or_overlapping total es :
  0 <= total -> Forall (fun e => 0 <= e.1) es -> Forall (fits total) es -> zsum (real_len <$> es) = total ->
  overlapping total es \/ forall p, Z.of_nat p < total -> exists e, covering p es = [e].
Proof.
  intros Ht Hes Hf Hs. set (n := fun p => Z.of_nat (length (covering p es))).
  destruct (decide (Exists (fun p => 2 <= n p) (seq 0 (Z.to_nat total)))) as [Hex | Hno].
  - left. apply Exists_exists in Hex as (p & Hp%elem_of_seq & Hn). exists p. unfold n in Hn. lia.
  - right. intros p Hp. rewrite <- Forall_Exists_neg, Forall_forall in Hno.
    assert (n p = 1) as H1.
    { apply (zsum_all_one n (seq 0 (Z.to_nat total))).
      - intros q Hq. pose proof (Hno q Hq). lia.
      - unfold n. rewrite (zsum_covering total es Ht Hes Hf), Hs. unfold zlen. rewrite length_seq. lia.
      - apply elem_of_seq. lia. }
    unfold n in H1. destruct (covering p es) as [| e [|]]; cbn in H1; [lia | by exists e | lia].
Qed.

Lemma entries_at_nonneg layout i cs : Forall (fun e => 0 <= e.1) (entries_at layout i cs).
Proof.
  revert i. induction cs as [| c cs IH]; intros i; cbn [entries_at]; [constructor |].
  constructor; [| apply IH]. unfold from_le_bytes. cbn. apply le_combine_range.
Qed.

(** ** Properties *)

(** C32: [sample_chunk_sizes] terminates without panicking and returns sizes that
    add up to the key length, each between 1 and [max] and all but the last
    at least [min]; it fails only with the RNG, or on an unusable range. *)
Theorem sample_chunk_sizes_spec {W} `{Rng W} (total min max : Z) :
  0 <= total -> 0 <= min -> max <= usize_max ->
  safe (sample_chunk_sizes total min max)
    (fun sizes => 1 <= min <= max /\ good_sizes total min max sizes)
    (fun e => e = invalid_range /\ (min = 0 \/ max < min) \/ e = rng_failed).
Proof.
  intros Ht Hmin Hmax. destruct (decide (1 <= min <= max)) as [[H1 H2] | Hbad].
  - eapply safe_mono; [by apply sample_chunk_sizes_safe | done | intros e <-; by right].
  - unfold sample_chunk_sizes. case_test; [apply safe_fail; left; split; [done | lia] |].
    tests. lia.
Qed.

Lemma sample_chunk_sizes_spec_witness :
  sample_chunk_sizes (W := Script.world) 10 2 4 [Script.word 0; Script.word 4; Script.word 2] = (Ok [2; 3; 3; 2], []) /\
  safe (S := Script.world) (sample_chunk_sizes 10 2 4)
    (fun sizes => 1 <= 2 <= 4 /\ good_sizes 10 2 4 sizes)
    (fun e => e = invalid_range /\ (2 = 0 \/ 4 < 2) \/ e = rng_failed).
Proof.
  split; [vm_compute; reflexivity |]. apply (sample_chunk_sizes_spec 10 2 4); unfold usize_max; lia.
Defined.

(** A concrete key, configuration and generator for the witnesses: six bytes,
    chunks of two to four bytes, random decoys. *)
Definition demo_key : RawKey.t := RawKey.new [Byte.x01; Byte.x02; Byte.x03; Byte.x04; Byte.x05; Byte.x06].
Definition demo_standard : StandardFragmenter Script.world :=
  StandardFragmenter.with_decoy (StandardFragmenter.with_chunk_range 2 4) random_decoy.
Definition demo_world : Script.world :=
  [Script.word 0;
   Script.word 0; [Byte.x0a; Byte.x0b]; Script.word 1; [Byte.x0a; Byte.x0b; Byte.x0c];
   Script.word 1; Script.word 0; Script.word 1].
Definition demo_frags : Fragments :=
  from_parts [[Byte.x0a; Byte.x0b]; [Byte.x0a; Byte.x0b; Byte.x0c];
              [Byte.x01; Byte.x02]; [Byte.x03; Byte.x04; Byte.x05; Byte.x06]]
    (to_le_bytes32 DECOY_OFFSET ++ to_le_bytes32 DECOY_OFFSET ++ to_le_bytes32 0 ++ to_le_bytes32 2) 6.

Lemma demo_standard_valid : standard_valid demo_standard.
Proof.
  split; [done | done | done |]. intros d [= <-]. split; [done | apply _].
Defined.

(** C19: [fragment], exactly.  It never panics, and what it returns is what
    one run of its stages gives, from the world it starts in to the world it
    leaves: an empty key and a key of [u32::MAX] bytes or more are refused
    before anything is drawn; the sizes are drawn; then, when a decoy strategy
    is set, one decoy per piece, of a drawn size; then one random word per
    position but the first of the store, and what is stored is the pieces of
    the key, cut in order at the sampled sizes, and the decoys, in the order
    those words shuffle them to, the layout holding each piece's offset and
    [u32::MAX] for each decoy.  Otherwise it fails at the first stage that
    fails: with [RNG failed] where the generator refused a buffer, or with the
    decoy strategy's own error on the size it was asked for. *)
Theorem standard_fragment_spec {W} `{Rng W} (self : StandardFragmenter W) (key : RawKey.t) (w : W) :
  standard_valid self ->
  match standard_fragment self key w with
  | (Ok frags, w') => standard_run self key w (Ok frags) w'
  | (Err e, w') => standard_run self key w (Err e) w'
  | _ => False
  end.
Proof. apply standard_fragment_run. Qed.

Lemma standard_fragment_spec_witness :
  standard_fragment demo_standard demo_key demo_world = (Ok demo_frags, []) /\
  standard_run demo_standard demo_key demo_world (Ok demo_frags) [].
Proof.
  assert (standard_fragment demo_standard demo_key demo_world = (Ok demo_frags, [])) as E
    by (vm_compute; reflexivity).
  split; [exact E |].
  pose proof (standard_fragment_spec demo_standard demo_key demo_world demo_standard_valid) as Hr.
  rewrite E in Hr. exact Hr.
Defined.

(** C18: Round trip.  Whatever the generator and the decoy strategy answer, the
    fragments of [key] reassemble into [key], through [defragment] and through
    [defragment_into] on any buffer of the right length; and [fragment] fails
    only where one of its stages does. *)
Theorem standard_round_trip {W} `{Rng W} (self : StandardFragmenter W) (key : RawKey.t) (w : W) :
  standard_valid self ->
  match standard_fragment self key w with
  | (Ok frags, _) =>
      standard_defragment self frags = Ok key /\
      forall out, zlen out = RawKey.len key ->
        standard_defragment_into self frags out = (Ok tt, RawKey.bytes key)
  | (Err e, w') => standard_run self key w (Err e) w'
  | _ => False
  end.
Proof.
  intros Hv. pose proof (standard_fragment_run self key w Hv) as Hr.
  destruct (standard_fragment self key w) as [[frags | e | |] w']; [| done..].
  apply standard_run_store in Hr as [Hlen Hs].
  by destruct (standard_store_reassembles self key frags frags) as (_ & ? & ?).
Qed.

Lemma standard_round_trip_witness :
  standard_fragment demo_standard demo_key demo_world = (Ok demo_frags, []) /\
  standard_defragment demo_standard demo_frags = Ok demo_key /\
  forall out, zlen out = RawKey.len demo_key ->
    standard_defragment_into demo_standard demo_frags out = (Ok tt, RawKey.bytes demo_key).
Proof.
  assert (standard_fragment demo_standard demo_key demo_world = (Ok demo_frags, [])) as E
    by (vm_compute; reflexivity).
  split; [exact E |].
  pose proof (standard_round_trip demo_standard demo_key demo_world demo_standard_valid) as Hr.
  rewrite E in Hr. exact Hr.
Defined.

(** The checks let overlapping chunks through: two one-byte chunks both at
    offset 0 of a two-byte key are accepted, and the second byte of the buffer
    is whatever it was. *)
Lemma standard_accepts_overlap {W} (self : StandardFragmenter W) b :
  let frags := from_chunks [[Byte.x01]; [Byte.x02]] (to_le_bytes32 0 ++ to_le_bytes32 0) 2 in
  standard_defragment_into self frags [Byte.x00; b] = (Ok tt, [Byte.x02; b]).
Proof. vm_compute. reflexivity. Qed.

(** C20: [defragment_into] on arbitrary, possibly corrupt, fragments, and any
    buffer a process can hold: it never panics; it succeeds exactly when its
    four checks pass - the layout has four bytes per chunk, the buffer has
    [total_len] bytes, every real chunk ends inside the buffer, and the real
    chunks' lengths add up to [total_len]; every failure is the [Defragment]
    error of the first check that fails.  On success the buffer holds the real
    chunks written at their offsets in order, and unless two of them overlap
    every byte of it comes from exactly one chunk, at its place in it, so
    nothing of the old buffer is left.  Overlapping real chunks pass the
    checks, and do leave old bytes ([standard_accepts_overlap]), although the
    trait asks for an error when the layout disagrees with the strategy. *)
Theorem standard_defragment_into_spec {W} (self : StandardFragmenter W) (frags : Fragments)
    (out : list byte) :
  zlen out <= isize_max ->
  let es := entries_at (layout_bytes frags) 0 (chunks frags) in
  let layout_ok := zlen (layout_bytes frags) = chunk_count frags * 4 in
  let out_ok := zlen out = total_len frags in
  let total := zsum (real_len <$> es) in
  match standard_defragment_into self frags out with
  | (Ok _, out') => layout_ok /\ out_ok /\ Forall (fits (total_len frags)) es /\
      total = total_len frags /\ out' = place es out /\
      (overlapping (total_len frags) es \/
       forall p, Z.of_nat p < total_len frags ->
         exists e, covering p es = [e] /\ out' !! p = e.2 !! (p - Z.to_nat e.1)%nat)
  | (Err e, out') => length out' = length out /\
      (e = layout_chunk_mismatch /\ ~ layout_ok \/
       layout_ok /\ (e = scratch_size_mismatch /\ ~ out_ok \/
       out_ok /\ ((e = write_past_end \/ e = offset_overflow) /\ ~ Forall (fits (total_len frags)) es \/
       e = length_mismatch /\ Forall (fits (total_len frags)) es /\ total <> total_len frags)))
  | _ => False
  end.
Proof.
  intros Hmax es layout_ok out_ok total.
  pose proof (standard_defragment_into_length self frags out) as Hstable.
  destruct (standard_defragment_into self frags out) as [o out'] eqn:E. cbn in Hstable.
  unfold standard_defragment_into in E. erewrite bind_ok in E by done.
  destruct (zlen (layout_bytes frags) =? _) eqn:E1; tests; cbn [negb] in E.
  2: { injection E as <- <-. split; [done | by left]. }
  destruct (zlen out =? _) eqn:E2; tests; cbn [negb] in E.
  2: { injection E as <- <-. split; [done | right; split; [done | by left]]. }
  pose proof (defrag_loop_spec (layout_bytes frags) (total_len frags) 0 0 (chunks frags) out) as H.
  specialize (H ltac:(lia) ltac:(unfold chunk_count, chunks in *; lia) E2 ltac:(lia)
    ltac:(unfold usize_max; lia)). cbn zeta in H. fold es total in H.
  unfold bind in E. destruct (defrag_loop _ _ _ _ _ out) as [[w | e | |] out1]; [| | done..].
  - destruct H as (H1 & H2 & ->). pose proof (zsum_nonneg _ (real_len_nonneg es)).
    assert (Hw : w = total_len frags <-> total = total_len frags)
      by (unfold total, isize_max, usize_max in *; lia).
    destruct (w =? _) eqn:E3; tests; cbn [negb] in E; injection E as <- <-.
    + apply Hw in E3. split_and!; [done.. |].
      pose proof (entries_at_nonneg (layout_bytes frags) 0 (chunks frags)) as Hnn. fold es in Hnn.
      pose proof (zlen_nonneg out).
      destruct (tiled_or_overlapping (total_len frags) es ltac:(lia) Hnn H1 E3) as [? | Ht]; [by left | right].
      intros p Hp. destruct (Ht p Hp) as [e He]. exists e. split; [done |].
      apply place_covered; [done | unfold zlen in *; lia | done].
    + split; [done |]. right; split; [done |]. right; split; [done |]. right. tauto.
  - injection E as <- <-. split; [done |]. right; split; [done |]. right; split; [done |]. by left.
Qed.

Lemma standard_defragment_into_spec_witness :
  standard_defragment_into demo_standard demo_frags (zeros 6) = (Ok tt, RawKey.bytes demo_key) /\
  Forall (fits 6) (entries_at (layout_bytes demo_frags) 0 (chunks demo_frags)).
Proof.
  pose proof (standard_defragment_into_spec demo_standard demo_frags (zeros 6) ltac:(done)) as H.
  assert (E : standard_defragment_into demo_standard demo_frags (zeros 6) = (Ok tt, RawKey.bytes demo_key))
    by (vm_compute; reflexivity).
  rewrite E in H. split; [exact E | apply H].
Defined.
