(* ===== verification/Interleaved.v ===== *)
(** * [InterleavedFragmenter] ([fragment/interleaved.rs])

    One pool of random bytes with the key bytes at random positions; the
    layout is the pool size followed by the position of each key byte. *)

From S2P Require Import Prelude Errors Rust Rng RawKey Fragment Standard.

Definition DEFAULT_POOL_FACTOR : Z := 4.

(** [struct InterleavedFragmenter]. *)
Record InterleavedFragmenter := { pool_factor : Z }.

Module InterleavedFragmenter.
Definition new : InterleavedFragmenter := {| pool_factor := DEFAULT_POOL_FACTOR |}.
Definition with_pool_factor (factor : Z) : InterleavedFragmenter :=
  {| pool_factor := Z.max factor 2 |}.
End InterleavedFragmenter.

Definition pool_overflow : Error.t := Error.Fragment "pool size overflowed".
Definition pool_too_large : Error.t := Error.Fragment "pool size exceeds u32 layout encoding".
Definition one_chunk : Error.t := Error.Defragment "interleaved fragments expects exactly one chunk".
Definition layout_size : Error.t :=
  Error.Defragment "interleaved layout size does not match key length".
Definition slice_error : Error.t := Error.Defragment "layout slice".
Definition pool_size_mismatch : Error.t :=
  Error.Defragment "interleaved layout pool size disagrees with chunk size".
Definition position_out_of_range : Error.t :=
  Error.Defragment "interleaved layout position out of range".

Section interleaved.
Context {W : Type} `{Rng W}.

(** Step 2's loop: [for (i, &pos) in positions.iter().enumerate()]. *)
Fixpoint overlay (bytes : list byte) (i : Z) (positions : list Z) (pool : list byte)
    : M W (list byte) :=
  match positions with
  | [] => ret pool
  | pos :: positions' =>
      let! x := index bytes i in
      let! pool := index_set pool pos x in
      overlay bytes (i + 1) positions' pool
  end.

(** [InterleavedFragmenter::fragment]. *)
Definition interleaved_fragment (self : InterleavedFragmenter) (key : RawKey.t) : M W Fragments :=
  let bytes := RawKey.as_bytes key in
  let key_len := zlen bytes in
  if key_len =? 0 then fail empty_key else
  let! pool_size := ok_or (checked_mul key_len (pool_factor self)) pool_overflow in
  if u32_max <? pool_size then fail pool_too_large else
  let! all_positions := fisher_yates (seqZ 0 pool_size) in
  let! _tail := slice all_positions key_len (zlen all_positions) in
  let positions := take (Z.to_nat key_len) all_positions in
  let! pool := vec_zeroed pool_size in
  let! pool := fill (zlen pool) in
  let! pool := overlay bytes 0 positions pool in
  let layout := to_le_bytes32 pool_size ++ encode_u32s positions in
  ret (from_parts [pool] layout key_len).

(** [InterleavedFragmenter::defragment_into]. *)
Definition interleaved_defragment_into (self : InterleavedFragmenter) (fragments : Fragments)
    : M (list byte) unit :=
  let chunks := chunks fragments in
  if negb (zlen chunks =? 1) then fail one_chunk else
  let! pool_bytes := index chunks 0 in
  let layout := layout_bytes fragments in
  let key_len := total_len fragments in
  let! out := get in
  if negb (zlen out =? key_len) then fail scratch_size_mismatch else
  if negb (zlen layout =? 4 + key_len * 4) then fail layout_size else
  let! pool_size := read_u32 layout 0 4 slice_error in
  if negb (pool_size =? zlen pool_bytes) then fail pool_size_mismatch else
  for_each (seqZ 0 key_len) (fun i =>
    let! pos := read_u32 layout (4 + i * 4) (4 + (i + 1) * 4) slice_error in
    if pool_size <=? pos then fail position_out_of_range else
    let! x := index pool_bytes pos in
    store_at i x).

Definition interleaved_defragment (self : InterleavedFragmenter) (fragments : Fragments)
    : outcome RawKey.t :=
  defragment_via (interleaved_defragment_into self) fragments.
End interleaved.

Lemma len_stable_read_u32 {A} layout a b e : len_stable (A := A) (read_u32 layout a b e).
Proof. unfold read_u32. auto with kv. Qed.
#[export] Hint Resolve len_stable_read_u32 : kv.

Lemma interleaved_defragment_into_length self frags : len_stable (interleaved_defragment_into self frags).
Proof. unfold interleaved_defragment_into. auto 20 with kv. Qed.

#[export] Instance strategy_interleaved {W} `{Rng W} : FragmentStrategy W InterleavedFragmenter := {|
  fragment := interleaved_fragment;
  defragment := interleaved_defragment;
  defragment_into := interleaved_defragment_into;
  fragment_describe := fun _ => "interleaved";
  defragment_into_length := interleaved_defragment_into_length
|}.

(** ** Filling the pool *)

Lemma overlay_ok {W} bytes i positions pool (w : W) :
  0 <= i -> i + zlen positions <= zlen bytes -> NoDup positions ->
  Forall (fun p => 0 <= p < zlen pool) positions ->
  exists pool', overlay bytes i positions pool w = (Ok pool', w) /\ zlen pool' = zlen pool /\
    (forall p, 0 <= p -> p ∉ positions -> pool' !! Z.to_nat p = pool !! Z.to_nat p) /\
    (forall j p, positions !! j = Some p ->
       pool' !! Z.to_nat p = bytes !! (Z.to_nat i + j)%nat).
Proof.
  intros Hi Hle Hnd. revert i pool Hi Hle.
  induction Hnd as [| p positions Hp Hnd IH]; intros i pool Hi Hle Hall.
  { exists pool. split_and!; [done..|]. by intros j p [=]. }
  apply Forall_cons in Hall as [Hrange Hall]. rewrite zlen_cons in Hle.
  pose proof (zlen_nonneg positions). cbn [overlay].
  destruct (lookup_lt_is_Some_2 bytes (Z.to_nat i)) as [x Hx]; [unfold zlen in *; lia |].
  erewrite bind_ok by (apply index_Some; [lia | done]).
  erewrite bind_ok by (apply index_set_ok; lia).
  destruct (IH (i + 1) (<[Z.to_nat p := x]> pool)) as (pool' & E & Hl & Hout & Hin);
    [lia | lia | eapply Forall_impl; [exact Hall | cbn; by rewrite zlen_insert] |].
  exists pool'. split_and!.
  - exact E.
  - by rewrite Hl, zlen_insert.
  - intros q Hq [Hne Hnq]%not_elem_of_cons. rewrite Hout by done.
    apply list_lookup_insert_ne. lia.
  - intros [| j] q Hj; cbn in Hj.
    + injection Hj as <-. rewrite Hout by (done || lia).
      rewrite list_lookup_insert_eq by (unfold zlen in *; lia). rewrite Nat.add_0_r. done.
    + rewrite (Hin j q Hj). f_equal. lia.
Qed.

(** ** What [fragment] stores *)

Definition interleaved_valid (self : InterleavedFragmenter) : Prop := 2 <= pool_factor self.

Definition interleaved_store (self : InterleavedFragmenter) (key : RawKey.t) (frags : Fragments) : Prop :=
  exists pool positions,
    zlen pool = RawKey.len key * pool_factor self /\ zlen pool <= u32_max /\
    zlen positions = RawKey.len key /\ NoDup positions /\
    Forall (fun p => 0 <= p < zlen pool) positions /\
    (forall j p, positions !! j = Some p -> pool !! Z.to_nat p = RawKey.bytes key !! j) /\
    frags = from_parts [pool] (to_le_bytes32 (zlen pool) ++ encode_u32s positions) (RawKey.len key).

Definition interleaved_error (self : InterleavedFragmenter) (key : RawKey.t) (e : Error.t) : Prop :=
  (e = empty_key /\ RawKey.bytes key = []) \/
  (e = pool_overflow /\ usize_max < RawKey.len key * pool_factor self) \/
  (e = pool_too_large /\ u32_max < RawKey.len key * pool_factor self) \/
  e = rng_failed.

Lemma interleaved_fragment_safe {W} `{Rng W} self key :
  interleaved_valid self ->
  safe (interleaved_fragment self key) (interleaved_store self key) (interleaved_error self key).
Proof.
  intros Hv. unfold interleaved_valid, interleaved_fragment, interleaved_error, RawKey.as_bytes, RawKey.len in *.
  pose proof (zlen_nonneg (RawKey.bytes key)). set (bytes := RawKey.bytes key) in *.
  case_test; tests; [apply safe_fail; left; split; [done | by apply zlen_0_inv] |].
  eapply (safe_bind _ _ (eq (zlen bytes * pool_factor self))).
  { unfold checked_mul. case_test; tests; [by apply safe_ret | apply safe_fail; auto]. }
  intros size Hsize. rewrite Hsize. case_test; tests; [apply safe_fail; auto |].
  assert (zlen bytes * 2 <= size) by nia. unfold u32_max in *.
  eapply safe_bind; [eapply safe_mono; [apply fisher_yates_safe | intros l Hl; exact Hl | auto] |].
  intros all Hall. cbn beta in Hall.
  assert (Hlen : zlen all = size) by (rewrite (zlen_Permutation _ _ Hall), zlen_seqZ; lia).
  assert (Hin : forall p, p ∈ all -> 0 <= p < size)
    by (intros p Hp; rewrite Hall, elem_of_seqZ in Hp; lia).
  assert (Hnd : NoDup all) by (rewrite Hall; apply NoDup_seqZ).
  eapply (safe_bind _ _ (fun _ => True)); [apply safe_slice; [lia.. | done] |]. intros _ _.
  set (positions := take (Z.to_nat (zlen bytes)) all).
  assert (Hpos : zlen positions = zlen bytes)
    by (unfold positions, zlen in *; rewrite length_take; lia).
  assert (Hndp : NoDup positions).
  { rewrite <- (take_drop (Z.to_nat (zlen bytes)) all) in Hnd. by apply NoDup_app in Hnd as [? _]. }
  eapply (safe_bind _ _ (fun l => zlen l = size));
    [apply safe_vec_zeroed; [unfold isize_max; lia | apply zlen_zeros; lia] |].
  intros z Hz. rewrite Hz.
  eapply safe_bind; [eapply safe_mono; [apply fill_safe; lia | intros l Hl; exact Hl | auto] |].
  intros pad Hpad. cbn beta in Hpad.
  assert (Hrange : Forall (fun p => 0 <= p < zlen pad) positions).
  { apply Forall_forall. intros p Hp. rewrite Hpad. apply Hin. rewrite <- (take_drop (Z.to_nat (zlen bytes)) all). apply elem_of_app. by left. }
  eapply (safe_bind _ _ (fun pool => zlen pool = size /\
    forall j p, positions !! j = Some p -> pool !! Z.to_nat p = bytes !! j)).
  { intros w. destruct (overlay_ok bytes 0 positions pad w) as (pool & -> & Hl & _ & Hj);
      [lia.. | exact Hndp | done |]. split; [lia | exact Hj]. }
  intros pool [Hl Hj]. apply safe_ret. exists pool, positions. rewrite Hl.
  split_and!; [done | unfold u32_max; lia | done | exact Hndp | by rewrite <- Hpad | done | done].
Qed.

(** ** [defragment_into] on arbitrary fragments *)

(** Where the layout says byte [i] of the key is. *)
Definition position_at (layout : list byte) (i : Z) : Z := u32_at layout (4 + i * 4).

(** The fragments and the buffer pass every check. *)
Definition interleaved_ok (frags : Fragments) (out : list byte) : Prop :=
  exists pool, chunks frags = [pool] /\ zlen out = total_len frags /\
    zlen (layout_bytes frags) = 4 + total_len frags * 4 /\
    u32_at (layout_bytes frags) 0 = zlen pool /\
    forall i, 0 <= i < total_len frags -> position_at (layout_bytes frags) i < zlen pool.

Lemma interleaved_loop_triple (layout : list byte) (key_len : Z) (pool : list byte) :
  zlen layout = 4 + key_len * 4 -> 0 <= key_len ->
  triple (fun out => zlen out = key_len)
    (for_each (seqZ 0 key_len) (fun i =>
       let! pos := read_u32 layout (4 + i * 4) (4 + (i + 1) * 4) slice_error in
       if zlen pool <=? pos then fail position_out_of_range else
       let! x := index pool pos in
       store_at i x))
    (fun _ (out : list byte) => zlen out = key_len /\
       forall i, 0 <= i < key_len -> position_at layout i < zlen pool /\
         out !! Z.to_nat i = pool !! Z.to_nat (position_at layout i))
    (fun e _ => e = position_out_of_range /\ exists i, 0 <= i < key_len /\ zlen pool <= position_at layout i).
Proof.
  intros Hl Hk.
  set (I := fun n (out : list byte) => zlen out = key_len /\ forall i, 0 <= i < n -> position_at layout i < zlen pool /\
         out !! Z.to_nat i = pool !! Z.to_nat (position_at layout i)).
  eapply triple_pre; [apply (triple_for_range I); [done |] | intros out Hout; split; [done | lia]].
  intros n Hn. cbn [Z.add] in Hn.
  eapply triple_bind; [apply triple_read_u32; lia |]. intros pos. apply triple_assume. intros ->.
  change (u32_at layout (4 + n * 4)) with (position_at layout n).
  assert (Hp : 0 <= position_at layout n <= u32_max) by (apply u32_at_bounds; lia).
  case_test; tests; [apply triple_fail; intros; split; [done |]; exists n; split; [lia | done] |].
  eapply triple_bind; [apply triple_index; lia |]. intros x. apply triple_assume. intros Hx.
  apply triple_store_at; [lia |]. intros out [Hlen Hout]. split; [lia |].
  split; [by rewrite zlen_insert |]. intros i Hi. destruct (decide (i = n)) as [-> | Hne].
  - rewrite list_lookup_insert_eq by (unfold zlen in *; lia). by rewrite Hx.
  - rewrite list_lookup_insert_ne by lia. apply Hout. lia.
Qed.

Lemma interleaved_defragment_into_cases self frags out :
  match interleaved_defragment_into self frags out with
  | (Ok _, out') => interleaved_ok frags out /\ zlen out' = total_len frags /\
      forall pool i, chunks frags = [pool] -> 0 <= i < total_len frags ->
        out' !! Z.to_nat i = pool !! Z.to_nat (position_at (layout_bytes frags) i)
  | (Err e, out') => length out' = length out /\ (exists reason, e = Error.Defragment reason) /\
      ~ interleaved_ok frags out
  | _ => False
  end.
Proof.
  pose proof (interleaved_defragment_into_length self frags out) as Hstable.
  destruct (interleaved_defragment_into self frags out) as [o out'] eqn:E. cbn in Hstable.
  unfold interleaved_defragment_into in E. unfold interleaved_ok.
  destruct (chunks frags) as [| pool [| c cs]] eqn:Hc.
  1, 3: (replace (_ =? 1) with false in E by (symmetry; apply Z.eqb_neq; unfold zlen; cbn; lia);
         injection E as <- <-; split_and!; [done | by eexists | by intros (? & ? & _)]).
  change (zlen [pool] =? 1) with true in E. cbn [negb] in E.
  erewrite bind_ok in E by (apply (index_Some _ _ pool); done). erewrite bind_ok in E by done.
  assert (Hpool : forall p, [pool] = [p] -> p = pool) by congruence.
  destruct (zlen out =? _) eqn:E1; tests; cbn [negb] in E.
  2: { injection E as <- <-. split_and!; [done | by eexists | by intros (? & _ & ? & _)]. }
  destruct (zlen (layout_bytes frags) =? _) eqn:E2; tests; cbn [negb] in E.
  2: { injection E as <- <-. split_and!; [done | by eexists | by intros (? & _ & _ & ? & _)]. }
  pose proof (zlen_nonneg out).
  erewrite bind_ok in E by (apply read_u32_ok; lia).
  destruct (u32_at (layout_bytes frags) 0 =? _) eqn:E3; tests; cbn [negb] in E.
  2: { injection E as <- <-. split_and!; [done | by eexists |].
       intros (p & <-%Hpool & _ & _ & ? & _). done. }
  rewrite E3 in E.
  pose proof (interleaved_loop_triple (layout_bytes frags) (total_len frags) pool E2 ltac:(lia) out E1) as H'.
  rewrite E in H'. destruct o as [[] | e | |]; [| | done..].
  - destruct H' as [Hlo Hall]. split_and!.
    + exists pool. split_and!; [done.. |]. intros i Hi. by apply Hall.
    + done.
    + intros p i <-%Hpool Hi. by apply Hall.
  - destruct H' as (-> & i & Hi & Hge). split_and!; [done | by eexists |].
    intros (p & <-%Hpool & _ & _ & _ & Hlt). specialize (Hlt i Hi). lia.
Qed.

(** ** The strategy contract *)

Lemma interleaved_store_reassembles self key frags view :
  interleaved_valid self -> interleaved_store self key frags -> view ≡ frags ->
  reassembles (interleaved_defragment self) (interleaved_defragment_into self) view key.
Proof.
  intros Hv (pool & positions & Hsize & Hmax & Hlen & Hnd & Hrange & Hbytes & ->) (Hc & Hl & Ht).
  rewrite layout_from_parts in Hl. cbn in Hc, Ht. unfold interleaved_valid, RawKey.len in *.
  set (bytes := RawKey.bytes key) in *. pose proof (zlen_nonneg bytes). pose proof (zlen_nonneg pool).
  assert (H4 : zlen (to_le_bytes32 (zlen pool)) = 4) by apply zlen_le_split.
  assert (Hpos : forall i, 0 <= i < zlen bytes ->
    exists p, positions !! Z.to_nat i = Some p /\ 0 <= p < zlen pool /\ position_at (layout_bytes view) i = p).
  { intros i Hi. destruct (lookup_lt_is_Some_2 positions (Z.to_nat i)) as [p Hp];
      [unfold zlen in *; lia |].
    rewrite Forall_forall in Hrange. pose proof (Hrange p (list_elem_of_lookup_2 _ _ _ Hp)) as Hpr.
    exists p. split_and!; [done | lia | lia |]. rewrite Hl. unfold position_at.
    rewrite <- (app_nil_r (encode_u32s positions)).
    apply (u32_at_encode _ _ _ (Z.to_nat i)); [done | lia | lia]. }
  assert (Hinto : forall out, zlen out = zlen bytes ->
    interleaved_defragment_into self view out = (Ok tt, bytes)).
  { intros out Hout. pose proof (interleaved_defragment_into_cases self view out) as H1.
    assert (Hok : interleaved_ok view out).
    { exists pool. rewrite Hl, Ht, Hc. split_and!; [done.. | | |].
      - rewrite zlen_app, zlen_encode_u32s, H4. lia.
      - apply (u32_at_app [] _ (encode_u32s positions)); [done | lia].
      - intros i Hi. rewrite <- Hl. destruct (Hpos i Hi) as (p & _ & ? & ->). lia. }
    destruct (interleaved_defragment_into self view out) as [[[] | e | |] out']; [| tauto | done..].
    destruct H1 as (_ & Hlo & Hall). f_equal. apply list_eq_zlen; [lia |].
    intros i Hi. destruct (Hpos (Z.of_nat i)) as (p & Hp & _ & Ep); [lia |].
    specialize (Hall pool (Z.of_nat i) Hc ltac:(lia)). rewrite Nat2Z.id in *.
    rewrite Hall, Ep. by apply Hbytes. }
  apply reassembles_via; [done | | done].
  subst bytes. unfold RawKey.len, isize_max, u32_max in *. nia.
Qed.

#[export] Instance interleaved_lawful {W} `{Rng W} (self : InterleavedFragmenter) :
  interleaved_valid self -> LawfulStrategy (W := W) self.
Proof.
  intros Hv key _. eapply safe_mono; [by apply interleaved_fragment_safe | | done].
  intros frags Hs. pose proof Hs as (pool & positions & _ & _ & _ & _ & _ & _ & E). split_and!; [by rewrite E.. |].
  intros view _ Hview. by eapply interleaved_store_reassembles.
Qed.

(** ** Properties *)

(** Round trip.  For every generator, pool factor of at least 2 (the
    constructors' clamp) and key, [fragment] either returns fragments that
    reassemble into the key or fails for one of its four reasons; it never
    panics.  The stored pool has [pool_factor] bytes per key byte. *)
Theorem interleaved_round_trip {W} `{Rng W} (self : InterleavedFragmenter) (key : RawKey.t) :
  2 <= pool_factor self ->
  safe (interleaved_fragment self key)
    (fun frags =>
       (exists pool, chunks frags = [pool] /\ zlen pool = RawKey.len key * pool_factor self) /\
       interleaved_defragment self frags = Ok key /\
       forall out, zlen out = RawKey.len key ->
         interleaved_defragment_into self frags out = (Ok tt, RawKey.bytes key))
    (interleaved_error self key).
Proof.
  intros Hv. eapply safe_mono; [by apply interleaved_fragment_safe | | done].
  intros frags Hs. split.
  - destruct Hs as (pool & positions & ? & _ & _ & _ & _ & _ & ->). by exists pool.
  - by destruct (interleaved_store_reassembles self key frags frags) as (_ & ? & ?).
Qed.

Lemma interleaved_round_trip_witness :
  let key := RawKey.new [Byte.x41; Byte.x42] in
  let self := InterleavedFragmenter.with_pool_factor 1 in
  let world : Script.world :=
    [Script.word 0; Script.word 1; Script.word 0; [Byte.x61; Byte.x62; Byte.x63; Byte.x64]] in
  is_ok (fst (interleaved_fragment self key world)) = true /\
  safe (S := Script.world) (interleaved_fragment self key)
    (fun frags =>
       (exists pool, chunks frags = [pool] /\ zlen pool = RawKey.len key * pool_factor self) /\
       interleaved_defragment self frags = Ok key /\
       forall out, zlen out = RawKey.len key ->
         interleaved_defragment_into self frags out = (Ok tt, RawKey.bytes key))
    (interleaved_error self key).
Proof.
  intros key self world. split; [vm_compute; reflexivity |].
  apply (interleaved_round_trip self key). vm_compute. discriminate.
Defined.

(** [defragment_into] on arbitrary fragments: it never panics; it succeeds
    exactly when every check of the layout passes, and then byte [i] of the
    buffer is the pool byte the layout points to; otherwise it fails with a
    [Defragment] error. *)
Theorem interleaved_defragment_into_spec (self : InterleavedFragmenter) (frags : Fragments) (out : list byte) :
  match interleaved_defragment_into self frags out with
  | (Ok _, out') => interleaved_ok frags out /\ zlen out' = total_len frags /\
      forall pool i, chunks frags = [pool] -> 0 <= i < total_len frags ->
        out' !! Z.to_nat i = pool !! Z.to_nat (position_at (layout_bytes frags) i)
  | (Err e, out') => length out' = length out /\ (exists reason, e = Error.Defragment reason) /\
      ~ interleaved_ok frags out
  | _ => False
  end.
Proof. apply interleaved_defragment_into_cases. Qed.

(** A layout that names one pool position twice passes the checks, although
    [fragment] never writes one. *)
Lemma interleaved_accepts_repeats (self : InterleavedFragmenter) :
  let frags := from_chunks [[Byte.x07]] (to_le_bytes32 1 ++ to_le_bytes32 0 ++ to_le_bytes32 0) 2 in
  interleaved_defragment_into self frags (zeros 2) = (Ok tt, [Byte.x07; Byte.x07]).
Proof. vm_compute. reflexivity. Qed.
