(* ===== verification/RandomFrag.v ===== *)
(** * [RandomFragmenter] ([fragment/random.rs])

    Every chunk holds bytes from randomly chosen positions of the key; the
    layout lists, chunk by chunk, the size and then the original position of
    each byte. *)

From S2P Require Import Prelude Errors Rust Rng RawKey Fragment Standard Interleaved.

Definition RANDOM_MIN_CHUNK : Z := 1.
Definition RANDOM_MAX_CHUNK : Z := 4.

(** [struct RandomFragmenter]. *)
Record RandomFragmenter := { random_min : Z; random_max : Z }.

Module RandomFragmenter.
Definition new : RandomFragmenter := {| random_min := RANDOM_MIN_CHUNK; random_max := RANDOM_MAX_CHUNK |}.
Definition with_chunk_range (min max : Z) : RandomFragmenter :=
  let min := Z.max min 1 in
  let max := Z.max max min in
  {| random_min := min; random_max := max |}.
End RandomFragmenter.

Definition truncated_size : Error.t := Error.Defragment "layout buffer truncated before size prefix".
Definition size_mismatch : Error.t := Error.Defragment "layout size does not match chunk length".
Definition truncated_positions : Error.t :=
  Error.Defragment "layout buffer truncated before position list".
Definition random_position_range : Error.t := Error.Defragment "layout position out of range".
Definition trailing_bytes : Error.t := Error.Defragment "trailing bytes in layout buffer".

Section random.
Context {W : Type} `{Rng W}.

(** Step 2 of [fragment]: the [while cursor < positions.len()] loop; every
    iteration takes at least one position. *)
Fixpoint scatter (fuel : nat) (self : RandomFragmenter) (bytes : list byte) (positions : list Z)
    (cursor : Z) : M W (list (list byte) * list byte) :=
  if cursor <? zlen positions then
    match fuel with
    | O => diverge
    | S fuel' =>
        let remaining := zlen positions - cursor in
        let! size :=
          (if remaining <=? random_max self then ret remaining
           else
             let! pick := sample_range (random_min self) (random_max self) in
             ret (clamp_pick pick remaining (random_min self) (random_max self))) in
        let! group := slice positions cursor (cursor + size) in
        let! chunk_bytes := map_m (index bytes) group in
        let! rest := scatter fuel' self bytes positions (cursor + size) in
        ret (chunk_bytes :: fst rest, to_le_bytes32 size ++ encode_u32s group ++ snd rest)
    end
  else ret ([], []).

(** [RandomFragmenter::fragment]. *)
Definition random_fragment (self : RandomFragmenter) (key : RawKey.t) : M W Fragments :=
  let bytes := RawKey.as_bytes key in
  let total_len := zlen bytes in
  if total_len =? 0 then fail empty_key else
  if u32_max <? total_len then fail key_too_large else
  let! positions := fisher_yates (seqZ 0 total_len) in
  let! r := scatter (length positions) self bytes positions 0 in
  let '(chunks, layout) := r in
  ret (from_parts chunks layout total_len).

(** [for (i, byte) in chunk.as_bytes().iter().enumerate()]. *)
Fixpoint place_loop (layout : list byte) (total_len cursor i : Z) (chunk : list byte)
    : M (list byte) unit :=
  match chunk with
  | [] => ret tt
  | byte :: chunk' =>
      let! pos := read_u32 layout (cursor + i * 4) (cursor + (i + 1) * 4) slice_error in
      if total_len <=? pos then fail random_position_range else
      do! store_at pos byte in
      place_loop layout total_len cursor (i + 1) chunk'
  end.

(** [for chunk in chunks]; [layout_cursor] comes back. *)
Fixpoint gather (layout : list byte) (total_len layout_cursor : Z) (chunks : list (list byte))
    : M (list byte) Z :=
  match chunks with
  | [] => ret layout_cursor
  | chunk :: chunks' =>
      if zlen layout <? layout_cursor + 4 then fail truncated_size else
      let! size := read_u32 layout layout_cursor (layout_cursor + 4) slice_error in
      let layout_cursor := layout_cursor + 4 in
      if negb (size =? zlen chunk) then fail size_mismatch else
      if zlen layout <? layout_cursor + size * 4 then fail truncated_positions else
      do! place_loop layout total_len layout_cursor 0 chunk in
      gather layout total_len (layout_cursor + size * 4) chunks'
  end.

(** [RandomFragmenter::defragment_into]. *)
Definition random_defragment_into (self : RandomFragmenter) (fragments : Fragments)
    : M (list byte) unit :=
  let layout := layout_bytes fragments in
  let chunks := chunks fragments in
  let total_len := total_len fragments in
  let! out := get in
  if negb (zlen out =? total_len) then fail scratch_size_mismatch else
  let! layout_cursor := gather layout total_len 0 chunks in
  if negb (layout_cursor =? zlen layout) then fail trailing_bytes else
  ret tt.

Definition random_defragment (self : RandomFragmenter) (fragments : Fragments) : outcome RawKey.t :=
  defragment_via (random_defragment_into self) fragments.
End random.

Lemma place_loop_length layout total cursor i chunk : len_stable (place_loop layout total cursor i chunk).
Proof. revert i. induction chunk; intros i; cbn [place_loop]; auto 12 with kv. Qed.
#[export] Hint Resolve place_loop_length : kv.

Lemma gather_length layout total cursor cs : len_stable (gather layout total cursor cs).
Proof. revert cursor. induction cs; intros cursor; cbn [gather]; auto 12 with kv. Qed.
#[export] Hint Resolve gather_length : kv.

Lemma random_defragment_into_length self frags : len_stable (random_defragment_into self frags).
Proof. unfold random_defragment_into. auto 12 with kv. Qed.

#[export] Instance strategy_random {W} `{Rng W} : FragmentStrategy W RandomFragmenter := {|
  fragment := random_fragment;
  defragment := random_defragment;
  defragment_into := random_defragment_into;
  fragment_describe := fun _ => "random";
  defragment_into_length := random_defragment_into_length
|}.

(** ** Reading a layout *)

(** The positions a layout lists from [a] for the bytes of a chunk. *)
Fixpoint positions_at (layout : list byte) (a : Z) (chunk : list byte) : list Z :=
  match chunk with
  | [] => []
  | _ :: chunk' => u32_at layout a :: positions_at layout (a + 4) chunk'
  end.

(** A chunk with the size and positions recorded for it. *)
Record group := { group_size : Z; group_positions : list Z; group_bytes : list byte }.

Fixpoint groups_at (layout : list byte) (a : Z) (cs : list (list byte)) : list group :=
  match cs with
  | [] => []
  | c :: cs' =>
      {| group_size := u32_at layout a; group_positions := positions_at layout (a + 4) c;
         group_bytes := c |} :: groups_at layout (a + 4 + zlen c * 4) cs'
  end.

Definition encoded_len (cs : list (list byte)) : Z := zsum ((fun c => 4 + zlen c * 4) <$> cs).

Definition group_fits (total : Z) (g : group) : Prop :=
  group_size g = zlen (group_bytes g) /\ Forall (fun p => p < total) (group_positions g).

Fixpoint write_bytes (positions : list Z) (bytes out : list byte) : list byte :=
  match positions, bytes with
  | p :: positions', b :: bytes' => write_bytes positions' bytes' (<[Z.to_nat p := b]> out)
  | _, _ => out
  end.

Fixpoint write_groups (gs : list group) (out : list byte) : list byte :=
  match gs with
  | [] => out
  | g :: gs' => write_groups gs' (write_bytes (group_positions g) (group_bytes g) out)
  end.

Lemma zlen_write_bytes ps bs out : zlen (write_bytes ps bs out) = zlen out.
Proof.
  revert bs out. induction ps as [| p ps IH]; intros [| b bs] out; cbn; [done.. |].
  by rewrite IH, zlen_insert.
Qed.

Lemma encoded_len_nonneg cs : 0 <= encoded_len cs.
Proof.
  unfold encoded_len. apply zsum_nonneg, Forall_fmap, Forall_true.
  intros c. pose proof (zlen_nonneg c). unfold compose. lia.
Qed.

Lemma place_loop_spec layout total cursor i chunk out :
  0 <= cursor -> 0 <= i -> cursor + (i + zlen chunk) * 4 <= zlen layout -> zlen out = total ->
  let ps := positions_at layout (cursor + i * 4) chunk in
  match place_loop layout total cursor i chunk out with
  | (Ok _, out') => Forall (fun p => p < total) ps /\ out' = write_bytes ps chunk out
  | (Err e, _) => e = random_position_range /\ ~ Forall (fun p => p < total) ps
  | _ => False
  end.
Proof.
  intros Hc. revert i out. induction chunk as [| b chunk IH]; intros i out Hi Hl Ho; cbn zeta;
    cbn [place_loop positions_at]; [done |].
  rewrite zlen_cons in Hl. pose proof (zlen_nonneg chunk).
  erewrite bind_ok by (apply read_u32_ok; lia). pose proof (u32_at_bounds layout (cursor + i * 4)).
  set (p := u32_at layout (cursor + i * 4)) in *.
  case_test; tests; [split; [done |]; intros [? _]%Forall_cons; lia |].
  erewrite (bind_ok (store_at _ _)) by (unfold store_at; erewrite bind_ok by done;
    erewrite bind_ok by (apply index_set_ok; lia); done).
  specialize (IH (i + 1) (<[Z.to_nat p := b]> out) ltac:(lia) ltac:(lia) ltac:(by rewrite zlen_insert)).
  cbn zeta in IH. replace (cursor + (i + 1) * 4) with (cursor + i * 4 + 4) in IH by lia.
  destruct (place_loop layout total cursor (i + 1) chunk _) as [[[] | e | |] out']; [| | done..].
  - destruct IH as [? ->]. split; [by constructor | done].
  - destruct IH as [-> Hn]. split; [done |]. by intros [_ ?]%Forall_cons.
Qed.

Lemma gather_spec layout total cursor cs out :
  0 <= cursor <= zlen layout -> zlen out = total ->
  let gs := groups_at layout cursor cs in
  let ok := cursor + encoded_len cs <= zlen layout /\ Forall (group_fits total) gs in
  match gather layout total cursor cs out with
  | (Ok c, out') => c = cursor + encoded_len cs /\ ok /\ out' = write_groups gs out
  | (Err e, _) => (exists reason, e = Error.Defragment reason) /\ ~ ok
  | _ => False
  end.
Proof.
  revert cursor out. induction cs as [| c cs IH]; intros cursor out Hc Ho; cbn zeta.
  { cbn. split_and!; [lia | lia | constructor | done]. }
  cbn [gather groups_at write_groups group_positions group_bytes].
  change (encoded_len (c :: cs)) with (4 + zlen c * 4 + encoded_len cs).
  pose proof (encoded_len_nonneg cs). pose proof (zlen_nonneg c).
  case_test; tests; [split; [by eexists | lia] |].
  erewrite bind_ok by (apply read_u32_ok; lia).
  destruct (u32_at layout cursor =? zlen c) eqn:Hs; tests; cbn [negb].
  2: { split; [by eexists |]. by intros [_ [[? _] _]%Forall_cons]. }
  rewrite Hs. case_test; tests; [split; [by eexists | lia] |].
  pose proof (place_loop_spec layout total (cursor + 4) 0 c out ltac:(lia) ltac:(lia) ltac:(lia) Ho) as Hp.
  cbn zeta in Hp. rewrite Z.add_0_r in Hp. unfold bind at 1.
  destruct (place_loop layout total (cursor + 4) 0 c out) as [[[] | e | |] out1]; [| | done..].
  - destruct Hp as [Hp ->]. specialize (IH (cursor + 4 + zlen c * 4)
      (write_bytes (positions_at layout (cursor + 4) c) c out) ltac:(lia)
      ltac:(by rewrite zlen_write_bytes)). cbn zeta in IH.
    destruct (gather layout total _ cs _) as [[c' | e | |] out']; [| | done..].
    + destruct IH as (-> & [Hle Hall] & ->). split_and!; [lia | lia | | done].
      constructor; [by split | done].
    + destruct IH as [? Hn]. split; [done |]. intros [Hle [_ Hall]%Forall_cons]. apply Hn. split; [lia | done].
  - destruct Hp as [-> Hn]. split; [by eexists |]. by intros [_ [[_ ?] _]%Forall_cons].
Qed.

(** ** What [fragment] stores *)

Definition encode_groups (gs : list group) : list byte :=
  flat_map (fun g => to_le_bytes32 (group_size g) ++ encode_u32s (group_positions g)) gs.

(** A group of [bytes]: position by position, the chunk holds the key byte. *)
Definition good_group (bytes : list byte) (max : Z) (g : group) : Prop :=
  group_size g = zlen (group_bytes g) /\ 1 <= group_size g <= max /\
  Forall2 (fun p b => 0 <= p < zlen bytes /\ bytes !! Z.to_nat p = Some b)
    (group_positions g) (group_bytes g).

Definition random_store (self : RandomFragmenter) (key : RawKey.t) (frags : Fragments) : Prop :=
  exists gs,
    Forall (good_group (RawKey.bytes key) (random_max self)) gs /\
    concat (group_positions <$> gs) ≡ₚ seqZ 0 (RawKey.len key) /\
    frags = from_parts (group_bytes <$> gs) (encode_groups gs) (RawKey.len key).

Record random_valid (self : RandomFragmenter) : Prop := {
  rv_min : 1 <= random_min self;
  rv_max : random_min self <= random_max self;
  rv_usize : random_max self <= usize_max
}.

Definition random_error (key : RawKey.t) (e : Error.t) : Prop :=
  (e = empty_key /\ RawKey.bytes key = []) \/
  (e = key_too_large /\ u32_max < RawKey.len key) \/ e = rng_failed.

Section scatter.
Context {W : Type} `{Rng W}.

Lemma map_index_safe (bytes : list byte) (l : list Z) :
  Forall (fun p => 0 <= p < zlen bytes) l ->
  safe (S := W) (map_m (index bytes) l)
    (Forall2 (fun p b => 0 <= p < zlen bytes /\ bytes !! Z.to_nat p = Some b) l) (fun _ => False).
Proof.
  intros Hl. apply safe_map_m. intros p Hp. rewrite Forall_forall in Hl.
  apply safe_index; [by apply Hl |]. intros b Hb. split; [by apply Hl | done].
Qed.

Lemma scatter_safe fuel self bytes positions cursor :
  random_valid self -> 0 <= cursor <= zlen positions -> zlen positions - cursor <= Z.of_nat fuel ->
  Forall (fun p => 0 <= p < zlen bytes) positions ->
  safe (scatter fuel self bytes positions cursor)
    (fun r => exists gs, Forall (good_group bytes (random_max self)) gs /\
       concat (group_positions <$> gs) = drop (Z.to_nat cursor) positions /\
       r = (group_bytes <$> gs, encode_groups gs)) (eq rng_failed).
Proof.
  intros [H1 H2 H3] Hc Hf Hall. revert cursor Hc Hf.
  induction fuel as [| fuel IH]; intros cursor Hc Hf; cbn [scatter].
  all: case_test; tests; [try lia |
    apply safe_ret; exists []; split_and!;
      [constructor | symmetry; apply drop_ge; unfold zlen in *; lia | done]].
  set (remaining := zlen positions - cursor) in *.
  eapply (safe_bind _ _ (fun size => 1 <= size <= random_max self /\ size <= remaining)).
  { case_test; tests; [apply safe_ret; lia |].
    eapply safe_bind; [by apply sample_range_safe |]. intros pick _. apply safe_ret.
    pose proof (clamp_pick_bounds pick remaining (random_min self) (random_max self)). lia. }
  intros size Hsize.
  eapply (safe_bind _ _ (eq (range cursor (cursor + size) positions)));
    [apply safe_slice; [lia.. | done] |].
  intros _ <-. set (grp := range cursor (cursor + size) positions).
  assert (Hdrop : drop (Z.to_nat cursor) positions = grp ++ drop (Z.to_nat (cursor + size)) positions).
  { unfold grp, range. replace (cursor + size - cursor) with size by lia.
    rewrite Z2Nat.inj_add, <- drop_drop by lia. by rewrite take_drop. }
  assert (Hgrp : zlen grp = size) by (unfold grp; rewrite zlen_range; lia).
  assert (Hin : Forall (fun p => 0 <= p < zlen bytes) grp).
  { apply Forall_take, Forall_drop, Hall. }
  eapply safe_bind; [eapply safe_mono; [by apply map_index_safe | intros c Hcb; exact Hcb | done] |].
  intros c Hcb. cbn beta in Hcb.
  eapply safe_bind; [apply IH; lia |]. intros r (gs & Hgs & Hcat & ->). apply safe_ret.
  exists ({| group_size := size; group_positions := grp; group_bytes := c |} :: gs).
  split_and!; [| cbn; by rewrite Hcat, Hdrop |].
  - constructor; [| done]. split_and!; cbn; [| lia.. | done].
    apply Forall2_length in Hcb. unfold zlen in *. lia.
  - cbn. by rewrite <- app_assoc.
Qed.

Lemma random_fragment_safe self key :
  random_valid self ->
  safe (random_fragment self key)
    (fun frags => RawKey.len key <= u32_max /\ random_store self key frags) (random_error key).
Proof.
  intros Hv. unfold random_fragment, random_error, RawKey.as_bytes, RawKey.len in *.
  pose proof (zlen_nonneg (RawKey.bytes key)).
  case_test; tests; [apply safe_fail; left; split; [done | by apply zlen_0_inv] |].
  case_test; tests; [apply safe_fail; auto |].
  eapply safe_bind; [eapply safe_mono; [apply fisher_yates_safe | intros l Hl; exact Hl | auto] |].
  intros ps Hps. cbn beta in Hps.
  eapply safe_bind; [eapply safe_mono; [apply (scatter_safe _ _ _ _ 0 Hv) | intros r Hr; exact Hr | auto] |].
  - pose proof (zlen_nonneg ps). lia.
  - unfold zlen. lia.
  - apply Forall_forall. intros p Hp. rewrite Hps, elem_of_seqZ in Hp. lia.
  - intros r (gs & Hgs & Hcat & ->). apply safe_ret. split; [done |]. exists gs.
    split_and!; [done | by rewrite Hcat, drop_0 | done].
Qed.
End scatter.

(** ** Reading back what was stored *)

Lemma positions_at_encode pre ps post c :
  Forall (fun p => 0 <= p <= u32_max) ps -> length ps = length c ->
  positions_at (pre ++ encode_u32s ps ++ post) (zlen pre) c = ps.
Proof.
  intros Hps. revert pre c. induction Hps as [| p ps Hp Hps IH]; intros pre [| b c] Hl; try done.
  cbn [positions_at]. change (encode_u32s (p :: ps)) with (to_le_bytes32 p ++ encode_u32s ps).
  rewrite <- app_assoc. f_equal; [by apply u32_at_app |].
  rewrite app_assoc. replace (zlen pre + 4) with (zlen (pre ++ to_le_bytes32 p))
    by (rewrite zlen_app; unfold to_le_bytes32; rewrite zlen_le_split; lia).
  apply IH. cbn in Hl. lia.
Qed.

Lemma groups_at_encode bytes max pre gs :
  Forall (good_group bytes max) gs -> zlen bytes <= u32_max ->
  Forall (fun g => zlen (group_bytes g) <= u32_max) gs ->
  groups_at (pre ++ encode_groups gs) (zlen pre) (group_bytes <$> gs) = gs.
Proof.
  intros Hgs Hb Hsz. revert pre. induction gs as [| g gs IH]; intros pre; [done |].
  apply Forall_cons in Hgs as [(Hs & _ & Hf) Hgs]. apply Forall_cons in Hsz as [Hg Hsz].
  cbn [groups_at fmap list_fmap].
  change (encode_groups (g :: gs)) with
    ((to_le_bytes32 (group_size g) ++ encode_u32s (group_positions g)) ++ encode_groups gs).
  rewrite <- app_assoc. assert (H4 : zlen (to_le_bytes32 (group_size g)) = 4) by apply zlen_le_split.
  pose proof (zlen_nonneg (group_bytes g)).
  assert (Hl : length (group_positions g) = length (group_bytes g)) by by eapply Forall2_length.
  rewrite u32_at_app by (done || lia). f_equal.
  - destruct g as [sz ps c]; cbn in *. f_equal.
    rewrite app_assoc. replace (zlen pre + 4) with (zlen (pre ++ to_le_bytes32 sz)) by (rewrite zlen_app; lia).
    apply positions_at_encode; [| done]. apply Forall_forall. intros p [i Hi]%list_elem_of_lookup.
    destruct (Forall2_lookup_l _ _ _ _ _ Hf Hi) as (b & _ & ? & _). lia.
  - rewrite !app_assoc. replace (zlen pre + 4 + zlen (group_bytes g) * 4)
      with (zlen ((pre ++ to_le_bytes32 (group_size g)) ++ encode_u32s (group_positions g)))
      by (rewrite !zlen_app, zlen_encode_u32s; unfold zlen in *; lia).
    by apply IH.
Qed.

Lemma zlen_encode_groups bytes max gs :
  Forall (good_group bytes max) gs -> zlen (encode_groups gs) = encoded_len (group_bytes <$> gs).
Proof.
  induction 1 as [| g gs (Hs & _ & Hf) Hgs IH]; [done |].
  change (encode_groups (g :: gs)) with
    ((to_le_bytes32 (group_size g) ++ encode_u32s (group_positions g)) ++ encode_groups gs).
  rewrite !zlen_app, zlen_encode_u32s, IH. unfold to_le_bytes32. rewrite zlen_le_split.
  apply Forall2_length in Hf. cbn. unfold encoded_len, zlen in *. cbn. lia.
Qed.

Lemma write_bytes_agrees bytes ps bs out p :
  Forall2 (fun p b => 0 <= p < zlen bytes /\ bytes !! Z.to_nat p = Some b) ps bs ->
  zlen out = zlen bytes ->
  agrees_at bytes out p \/ Z.of_nat p ∈ ps -> agrees_at bytes (write_bytes ps bs out) p.
Proof.
  intros Hf. revert out. induction Hf as [| q b ps bs [Hq Hb] Hf IH]; intros out Hlen Hp; cbn.
  { destruct Hp as [| Hp]; [done |]. by apply not_elem_of_nil in Hp. }
  apply IH; [by rewrite zlen_insert |]. unfold agrees_at in *.
  destruct (decide (p = Z.to_nat q)) as [-> | Hne].
  - left. rewrite list_lookup_insert_eq by (unfold zlen in *; lia). done.
  - destruct Hp as [Hp | [E | Hp]%elem_of_cons].
    + left. by rewrite list_lookup_insert_ne by done.
    + lia.
    + by right.
Qed.

Lemma write_groups_agrees bytes max gs out p :
  Forall (good_group bytes max) gs -> zlen out = zlen bytes ->
  agrees_at bytes out p \/ Z.of_nat p ∈ concat (group_positions <$> gs) ->
  agrees_at bytes (write_groups gs out) p.
Proof.
  intros Hgs. revert out. induction Hgs as [| g gs (_ & _ & Hf) Hgs IH]; intros out Hlen Hp; cbn in *.
  { destruct Hp as [| Hp]; [done |]. by apply not_elem_of_nil in Hp. }
  apply IH; [by rewrite zlen_write_bytes |].
  destruct Hp as [Hp | [Hp | Hp]%elem_of_app]; [left | left | by right].
  - apply write_bytes_agrees; auto.
  - apply write_bytes_agrees; auto.
Qed.

Lemma zlen_write_groups gs out : zlen (write_groups gs out) = zlen out.
Proof. revert out. induction gs; intros; cbn; [done |]. by rewrite IHgs, zlen_write_bytes. Qed.

Lemma random_defragment_into_cases self frags out :
  let ok := zlen out = total_len frags /\
    zlen (layout_bytes frags) = encoded_len (chunks frags) /\
    Forall (group_fits (total_len frags)) (groups_at (layout_bytes frags) 0 (chunks frags)) in
  match random_defragment_into self frags out with
  | (Ok _, out') => ok /\ out' = write_groups (groups_at (layout_bytes frags) 0 (chunks frags)) out
  | (Err e, out') => length out' = length out /\ (exists reason, e = Error.Defragment reason) /\ ~ ok
  | _ => False
  end.
Proof.
  intros ok. subst ok. pose proof (random_defragment_into_length self frags out) as Hstable.
  destruct (random_defragment_into self frags out) as [o out'] eqn:E. cbn in Hstable.
  unfold random_defragment_into in E. erewrite bind_ok in E by done.
  destruct (zlen out =? _) eqn:E1; tests; cbn [negb] in E.
  2: { injection E as <- <-. split_and!; [done | by eexists | tauto]. }
  pose proof (zlen_nonneg (layout_bytes frags)).
  pose proof (gather_spec (layout_bytes frags) (total_len frags) 0 (chunks frags) out ltac:(lia) E1) as Hg.
  cbn zeta in Hg. unfold bind in E.
  destruct (gather _ _ 0 _ out) as [[c | e | |] out1]; [| | done..].
  - destruct Hg as (-> & [Hle Hall] & ->). destruct (_ =? _) eqn:E2; tests; cbn [negb] in E; injection E as <- <-.
    + split_and!; [done | lia | done | done].
    + split_and!; [done | by eexists | intros (_ & ? & _); lia].
  - injection E as <- <-. split_and!; [done | apply Hg |]. intros (_ & ? & ?). apply Hg. split; [lia | done].
Qed.

Lemma random_store_reassembles self key frags view :
  RawKey.len key <= u32_max -> random_store self key frags -> view ≡ frags ->
  reassembles (random_defragment self) (random_defragment_into self) view key.
Proof.
  intros Hmax (gs & Hgs & Hcat & ->) (Hc & Hl & Ht). rewrite layout_from_parts in Hl.
  cbn in Hc, Ht. unfold RawKey.len in *. set (bytes := RawKey.bytes key) in *.
  pose proof (zlen_nonneg bytes).
  assert (Hsub : forall g, g ∈ gs -> zlen (group_bytes g) <= zlen bytes).
  { intros g Hg. rewrite Forall_forall in Hgs. destruct (Hgs g Hg) as (_ & _ & Hf).
    apply Forall2_length in Hf. unfold zlen at 1. rewrite <- Hf.
    assert (Hs : group_positions g ⊆+ seqZ 0 (zlen bytes)).
    { rewrite <- Hcat. apply list_elem_of_split in Hg as (g1 & g2 & ->).
      rewrite fmap_app, fmap_cons, concat_app. cbn.
      by apply submseteq_inserts_l, submseteq_inserts_r. }
    apply submseteq_length in Hs. rewrite length_seqZ in Hs. lia. }
  assert (Hgroups : groups_at (layout_bytes view) 0 (chunks view) = gs).
  { rewrite Hl, Hc. apply (groups_at_encode bytes (random_max self) []); [done | lia |].
    apply Forall_forall. intros g Hg. specialize (Hsub g Hg). lia. }
  assert (Hinto : forall out, zlen out = zlen bytes ->
    random_defragment_into self view out = (Ok tt, bytes)).
  { intros out Hout. pose proof (random_defragment_into_cases self view out) as H1. cbn zeta in H1.
    rewrite Hgroups in H1.
    assert (Hfits : Forall (group_fits (total_len view)) gs).
    { rewrite Ht. eapply Forall_impl; [exact Hgs |]. intros g (Hs & _ & Hf). split; [done |].
      apply Forall_forall. intros p [i Hi]%list_elem_of_lookup.
      destruct (Forall2_lookup_l _ _ _ _ _ Hf Hi) as (b & _ & ? & _). lia. }
    assert (Hlen : zlen (layout_bytes view) = encoded_len (chunks view))
      by (rewrite Hl, Hc; by eapply zlen_encode_groups).
    destruct (random_defragment_into self view out) as [[[] | e | |] out']; [| | done..].
    - destruct H1 as [_ ->]. f_equal. apply list_eq_zlen; [by rewrite zlen_write_groups |].
      rewrite zlen_write_groups. intros p Hp.
      apply (write_groups_agrees bytes (random_max self)); [done | done |]. right.
      rewrite Hcat, elem_of_seqZ. lia.
    - destruct H1 as (_ & _ & []). split_and!; [by rewrite Ht | done | done]. }
  apply reassembles_via; [done | | done].
  subst bytes. unfold RawKey.len, isize_max, u32_max in *. lia.
Qed.

#[export] Instance random_fragmenter_lawful {W} `{Rng W} (self : RandomFragmenter) :
  random_valid self -> LawfulStrategy (W := W) self.
Proof.
  intros Hv key _. eapply safe_mono; [by apply random_fragment_safe | | done].
  intros frags [Hlen Hs]. pose proof Hs as (gs & _ & _ & E). split_and!; [by rewrite E.. |].
  intros view _ Hview. by eapply random_store_reassembles.
Qed.

(** ** Properties *)

(** C36: Round trip.  For every generator, valid configuration and key,
    [fragment] returns fragments in which every key position occurs exactly
    once and which reassemble into the key, or fails for one of its three
    reasons; the scatter loop terminates and nothing panics. *)
Theorem random_round_trip {W} `{Rng W} (self : RandomFragmenter) (key : RawKey.t) :
  random_valid self ->
  safe (random_fragment self key)
    (fun frags =>
       random_store self key frags /\
       random_defragment self frags = Ok key /\
       forall out, zlen out = RawKey.len key ->
         random_defragment_into self frags out = (Ok tt, RawKey.bytes key))
    (random_error key).
Proof.
  intros Hv. eapply safe_mono; [by apply random_fragment_safe | | done].
  intros frags [Hlen Hs]. split; [done |].
  by destruct (random_store_reassembles self key frags frags) as (_ & ? & ?).
Qed.

Lemma random_round_trip_witness :
  let self := RandomFragmenter.with_chunk_range 1 2 in
  let key := RawKey.new [Byte.x41; Byte.x42; Byte.x43] in
  let world : Script.world := [Script.word 0; Script.word 1; Script.word 1] in
  is_ok (fst (random_fragment self key world)) = true /\
  safe (S := Script.world) (random_fragment self key)
    (fun frags =>
       random_store self key frags /\
       random_defragment self frags = Ok key /\
       forall out, zlen out = RawKey.len key ->
         random_defragment_into self frags out = (Ok tt, RawKey.bytes key))
    (random_error key).
Proof.
  intros self key world. split; [vm_compute; reflexivity |].
  apply (random_round_trip self key). split; vm_compute; discriminate.
Defined.

(** [defragment_into] on arbitrary fragments never panics, and succeeds
    exactly when the layout has the right length and every recorded size and
    position fits.  It does not check that the positions cover the key: the
    buffer is then whatever it was, overwritten at the listed positions. *)
Theorem random_defragment_into_spec (self : RandomFragmenter) (frags : Fragments) (out : list byte) :
  let gs := groups_at (layout_bytes frags) 0 (chunks frags) in
  let ok := zlen out = total_len frags /\
    zlen (layout_bytes frags) = encoded_len (chunks frags) /\
    Forall (group_fits (total_len frags)) gs in
  match random_defragment_into self frags out with
  | (Ok _, out') => ok /\ out' = write_groups gs out
  | (Err e, out') => length out' = length out /\ (exists reason, e = Error.Defragment reason) /\ ~ ok
  | _ => False
  end.
Proof. apply random_defragment_into_cases. Qed.

(** A chunk can hold a contiguous run of the key (here the whole key), in
    spite of the type's documentation. *)
Lemma random_chunk_contiguous :
  exists (world : Script.world) frags,
    fst (random_fragment RandomFragmenter.new (RawKey.new [Byte.x41; Byte.x42; Byte.x43; Byte.x44]) world)
      = Ok frags /\
    chunks frags = [[Byte.x41; Byte.x42; Byte.x43; Byte.x44]].
Proof.
  exists [Script.word 3; Script.word 2; Script.word 1]. eexists.
  split; vm_compute; reflexivity.
Qed.

(** Fragments that list no position at all are accepted, and the key read
    back is all zeros. *)
Lemma random_accepts_uncovered :
  random_defragment RandomFragmenter.new (from_chunks [] [] 4) = Ok (RawKey.new (zeros 4)).
Proof. vm_compute. reflexivity. Qed.
