(* ===== verification/Layered.v ===== *)
(** * [LayeredFragmenter] ([fragment/layered.rs])

    Routes each call to one of several sub-strategies and records which in a
    four-byte header of the layout; [defragment_into] hands the recorded
    sub-strategy a view of the same chunks with the header hidden.  Its
    theorems are proved against the strategy interface: they hold for any
    lawful sub-strategies, nested ones included. *)

From S2P Require Import Prelude Errors Rust Format Rng RawKey Fragment Decoy Standard Interleaved RandomFrag.

(** [struct LayeredFragmenter]. *)
Record LayeredFragmenter (W : Type) := { sub_strategies : list (dyn_strategy W) }.
Arguments sub_strategies {W}.

Definition no_sub_strategy : Error.t :=
  Error.InvalidConfig "LayeredFragmenter requires at least one sub-strategy".
Definition too_many_sub_strategies : Error.t :=
  Error.InvalidConfig "LayeredFragmenter sub-strategy count exceeds u32".
Definition index_exceeds_u32 : Error.t :=
  Error.Internal "LayeredFragmenter sub-strategy index exceeded u32".
Definition short_header : Error.t := Error.Defragment "layered layout shorter than 4-byte header".
Definition strategy_out_of_range (pick : Z) : Error.t :=
  Error.Defragment ("layered layout strategy index " +:+ pretty pick +:+ " out of range").

Module LayeredFragmenter.
Definition new {W} (sub_strategies : list (dyn_strategy W)) : outcome (LayeredFragmenter W) :=
  if zlen sub_strategies =? 0 then Err no_sub_strategy else
  if u32_max <? zlen sub_strategies then Err too_many_sub_strategies else
  Ok {| sub_strategies := sub_strategies |}.

Definition sub_strategy_count {W} (self : LayeredFragmenter W) : Z := zlen (sub_strategies self).

(** [Debug]: the names of the sub-strategies. *)
Definition fmt {W} (self : LayeredFragmenter W) : string :=
  let names := dyn_describe <$> sub_strategies self in
  debug_struct "LayeredFragmenter" [("sub_strategies", debug_list debug_str names)].
End LayeredFragmenter.

Section layered.
Context {W : Type} `{Rng W}.

(** [LayeredFragmenter::pick]. *)
Definition pick (self : LayeredFragmenter W) (fragments : Fragments) : outcome Z :=
  let layout := layout_bytes fragments in
  if zlen layout <? 4 then Err short_header else
  let pick := from_le_bytes (range 0 4 layout) in
  if zlen (sub_strategies self) <=? pick then Err (strategy_out_of_range pick) else Ok pick.

(** [LayeredFragmenter::fragment]; a zero [n] divides by zero. *)
Definition layered_fragment (self : LayeredFragmenter W) (key : RawKey.t) : M W Fragments :=
  let n := zlen (sub_strategies self) in
  let! r := random_u64 in
  if n =? 0 then panic else
  let pick := r mod n in
  let! sub := index (sub_strategies self) pick in
  let! sub_fragments := fragment sub key in
  let! pick_u32 := ok_or (u32_try_from pick) index_exceeds_u32 in
  let new_layout := to_le_bytes32 pick_u32 ++ layout_bytes sub_fragments in
  let total_len := total_len sub_fragments in
  let chunks := into_chunks sub_fragments in
  ret (from_parts chunks new_layout total_len).

(** [LayeredFragmenter::defragment_into]. *)
Definition layered_defragment_into (self : LayeredFragmenter W) (fragments : Fragments)
    : M (list byte) unit :=
  let! pick := lift (pick self fragments) in
  let sub_fragments := view_skipping fragments 4 in
  let! sub := index (sub_strategies self) pick in
  defragment_into (W := W) sub sub_fragments.

Definition layered_defragment (self : LayeredFragmenter W) (fragments : Fragments) : outcome RawKey.t :=
  defragment_via (layered_defragment_into self) fragments.

Lemma layered_defragment_into_length self frags : len_stable (layered_defragment_into self frags).
Proof.
  unfold layered_defragment_into. apply len_stable_bind; [auto with kv | intros p].
  apply len_stable_bind; [auto with kv | intros sub out]. apply defragment_into_length.
Qed.
End layered.

#[export] Instance strategy_layered {W} `{Rng W} : FragmentStrategy W (LayeredFragmenter W) := {|
  fragment := layered_fragment;
  defragment := layered_defragment;
  defragment_into := layered_defragment_into;
  fragment_describe := fun _ => "layered";
  defragment_into_length := layered_defragment_into_length
|}.

(** A configuration [new] returns, over lawful sub-strategies. *)
Record layered_valid {W} (self : LayeredFragmenter W) : Prop := {
  lv_count : 1 <= zlen (sub_strategies self) <= u32_max;
  lv_subs : Forall (fun s => LawfulStrategy (W := W) s) (sub_strategies self)
}.

Lemma new_valid {W} (subs : list (dyn_strategy W)) self :
  LayeredFragmenter.new subs = Ok self -> Forall (fun s => LawfulStrategy (W := W) s) subs ->
  layered_valid self.
Proof.
  unfold LayeredFragmenter.new. case_test; [done |]. case_test; [done |]. tests.
  intros [= <-] Hs. pose proof (zlen_nonneg subs). split; cbn; [lia | done].
Qed.

(** A view of a layered store, with the header hidden, is a view of the
    sub-strategy's own fragments. *)
Lemma layered_view {W} (self : LayeredFragmenter W) view sub p :
  view_ok view -> view ≡ from_parts (into_chunks sub) (to_le_bytes32 p ++ layout_bytes sub) (total_len sub) ->
  0 <= p < zlen (sub_strategies self) -> p <= u32_max ->
  pick self view = Ok p /\ view_skipping view 4 ≡ sub.
Proof.
  intros [Hs Hm] (Hc & Hl & Ht) Hp Hmax. rewrite layout_from_parts in Hl.
  assert (H4 : zlen (to_le_bytes32 p) = 4) by apply zlen_le_split.
  pose proof (zlen_nonneg (layout_bytes sub)). split.
  - unfold pick. rewrite Hl, zlen_app, H4, (proj2 (Z.ltb_ge _ _)) by lia.
    change (to_le_bytes32 p ++ _) with ([] ++ to_le_bytes32 p ++ layout_bytes sub).
    rewrite range_app_exact by (rewrite ?H4; done).
    rewrite le_word32 by (unfold u32_max in *; lia).
    by rewrite (proj2 (Z.leb_gt _ _)) by lia.
  - split_and!; [exact Hc | | exact Ht].
    apply (view_skipping_header view (to_le_bytes32 p)); [done | | done | done | done].
    assert (layout_start view <= zlen (store_layout (store view))).
    { destruct (decide (layout_start view <= zlen (store_layout (store view)))) as [| Hgt]; [done |].
      unfold layout_bytes in Hl at 1. rewrite (proj2 (Z.leb_gt _ _)) in Hl by lia.
      apply (f_equal zlen) in Hl. rewrite zlen_app, H4 in Hl. unfold zlen in Hl at 1; cbn in Hl. lia. }
    unfold isize_max, usize_max in *. lia.
Qed.

#[export] Instance layered_lawful {W} `{Rng W} (self : LayeredFragmenter W) :
  layered_valid self -> LawfulStrategy (W := W) self.
Proof.
  intros [Hn Hsubs] key Hkey. cbn [fragment strategy_layered]. unfold layered_fragment.
  eapply safe_bind; [eapply safe_mono; [apply random_u64_safe | intros r Hr; exact Hr | done] |].
  intros r Hr. cbn beta in Hr. rewrite (proj2 (Z.eqb_neq _ _)) by lia.
  set (p := r mod zlen (sub_strategies self)).
  assert (Hp : 0 <= p < zlen (sub_strategies self)) by (apply Z.mod_pos_bound; lia).
  eapply (safe_bind _ _ (fun s => sub_strategies self !! Z.to_nat p = Some s)); [by apply safe_index |].
  intros s Hlook. rewrite Forall_forall in Hsubs.
  pose proof (Hsubs s (list_elem_of_lookup_2 _ _ _ Hlook)) as Hs.
  eapply safe_bind; [by apply (Hs key) |]. intros sub (_ & _ & Hsub).
  unfold u32_try_from. rewrite (proj2 (Z.leb_le p u32_max)) by lia.
  eapply (safe_bind _ _ (eq p)); [by apply safe_ret |]. intros _ <-. apply safe_ret.
  split_and!; [done.. |]. intros view Hok Hview.
  destruct (layered_view self view sub p Hok Hview) as [Hpick Hskip]; [lia.. |].
  destruct (Hsub (view_skipping view 4)) as (Ht & Hd & Hi); [by apply view_skipping_ok | done |].
  assert (Hinto : layered_defragment_into self view = defragment_into (W := W) s (view_skipping view 4)).
  { unfold layered_defragment_into. rewrite Hpick. unfold bind, lift, index.
    rewrite (proj2 (Z.ltb_ge _ _)) by lia. by rewrite Hlook. }
  apply reassembles_via; [exact Ht | exact Hkey |]. intros out Hout.
  change (layered_defragment_into self view out = (Ok tt, RawKey.bytes key)). rewrite Hinto. by apply Hi.
Qed.

(** ** Properties *)

(** C35: Composition.  Over any non-empty list of at most [u32::MAX] lawful
    sub-strategies, [LayeredFragmenter::new] succeeds and whatever
    sub-strategy a call picks, the fragments reassemble into the key; the
    composite never panics.  Nothing is assumed of the sub-strategies beyond
    the trait's contract. *)
Theorem layered_round_trip {W} `{Rng W} (subs : list (dyn_strategy W)) (key : RawKey.t) :
  1 <= zlen subs <= u32_max -> Forall (fun s => LawfulStrategy (W := W) s) subs ->
  RawKey.len key <= isize_max ->
  exists self, LayeredFragmenter.new subs = Ok self /\
    safe (layered_fragment self key)
      (fun frags => view_ok frags ->
         layered_defragment self frags = Ok key /\
         forall out, zlen out = RawKey.len key ->
           layered_defragment_into self frags out = (Ok tt, RawKey.bytes key))
      (fun _ => True).
Proof.
  intros Hn Hs Hkey. exists {| sub_strategies := subs |}.
  assert (Hnew : LayeredFragmenter.new subs = Ok {| sub_strategies := subs |}).
  { unfold LayeredFragmenter.new.
    by rewrite (proj2 (Z.eqb_neq _ _)), (proj2 (Z.ltb_ge u32_max _)) by lia. }
  split; [done |]. pose proof (new_valid subs _ Hnew Hs) as Hv.
  eapply safe_mono; [by apply (layered_lawful _ Hv key) | | done].
  intros frags (_ & _ & Hf) Hok. by destruct (Hf frags Hok) as (_ & ? & ?).
Qed.

(** The three built-in strategies, and a layer of them, as sub-strategies. *)
Definition demo_subs : list (dyn_strategy Script.world) :=
  [strategy_object (StandardFragmenter.new (W := Script.world));
   strategy_object InterleavedFragmenter.new; strategy_object RandomFragmenter.new].

Lemma demo_subs_lawful : Forall (fun s => LawfulStrategy (W := Script.world) s) demo_subs.
Proof.
  repeat constructor; apply strategy_object_lawful.
  - apply standard_lawful. by split.
  - apply interleaved_lawful. by unfold interleaved_valid.
  - apply random_fragmenter_lawful. by split.
Defined.

Lemma layered_round_trip_witness :
  let key := RawKey.new [Byte.x41; Byte.x42] in
  let world : Script.world := [Script.word 5; Script.word 1] in
  is_ok (fst (layered_fragment {| sub_strategies := demo_subs |} key world)) = true /\
  exists self, LayeredFragmenter.new demo_subs = Ok self /\
    safe (layered_fragment self key)
      (fun frags => view_ok frags ->
         layered_defragment self frags = Ok key /\
         forall out, zlen out = RawKey.len key ->
           layered_defragment_into self frags out = (Ok tt, RawKey.bytes key))
      (fun _ => True).
Proof.
  intros key world. split; [vm_compute; reflexivity |].
  apply (layered_round_trip demo_subs key).
  - split; vm_compute; discriminate.
  - apply demo_subs_lawful.
  - done.
Defined.
