(* ===== verification/Layouts.v ===== *)
(** * Layout sizes of the built-in strategies

    [BoundedLayout self n]: no layout [self] produces is longer than [n]
    bytes.  The vault's theorems need the layout of a stored key to fit an
    allocation; every strategy of the crate is far below that, because key
    positions are [u32]s. *)

From S2P Require Import Prelude Errors Rust Rng RawKey Fragment.
From S2P Require Import Standard Interleaved RandomFrag Layered.

Class BoundedLayout {W F} `{FragmentStrategy W F} (self : F) (n : Z) : Prop :=
  bounded_layout key :
    safe (fragment self key) (fun frags => zlen (store_layout (store frags)) <= n) (fun _ => True).

#[export] Instance strategy_object_bounded {W F} `{FragmentStrategy W F} (self : F) n :
  BoundedLayout (W := W) self n -> BoundedLayout (W := W) (strategy_object (W := W) self) n.
Proof. intros Hs key. exact (Hs key). Qed.

(** The built-in strategies below the layered one stay under 64 GiB. *)
Definition layout_bound : Z := 2 ^ 36.

Lemma zlen_le_zsum (l : list Z) : Forall (Z.le 1) l -> zlen l <= zsum l.
Proof. induction 1; [done |]. cbn [zsum]. rewrite zlen_cons. lia. Qed.

#[export] Instance standard_bounded {W} `{Rng W} (self : StandardFragmenter W) :
  standard_valid self -> BoundedLayout (W := W) self layout_bound.
Proof.
  intros Hv key. eapply safe_mono; [by apply standard_fragment_safe | | done].
  intros frags [Hlen (sizes & decoys & es & (Hsum & Hpos & _) & Hd & Hes & ->)].
  cbn [store store_layout from_parts]. rewrite zlen_encode_layout, (zlen_Permutation _ _ Hes).
  rewrite zlen_app, zlen_map. unfold zlen at 1 2. rewrite pieces_length, Hd.
  assert (zlen sizes <= zsum sizes)
    by (apply zlen_le_zsum; eapply Forall_impl; [done | cbn; lia]).
  unfold layout_bound, DECOY_OFFSET, u32_max, zlen in *. destruct (decoy self); lia.
Qed.

#[export] Instance interleaved_bounded {W} `{Rng W} (self : InterleavedFragmenter) :
  interleaved_valid self -> BoundedLayout (W := W) self layout_bound.
Proof.
  intros Hv key. eapply safe_mono; [by apply interleaved_fragment_safe | | done].
  intros frags (pool & positions & Hp & Hmax & Hl & _ & _ & _ & ->).
  cbn [store store_layout from_parts].
  rewrite zlen_app, zlen_encode_u32s, Hl. unfold to_le_bytes32. rewrite zlen_le_split.
  unfold interleaved_valid, RawKey.len in *. pose proof (zlen_nonneg (RawKey.bytes key)).
  unfold layout_bound, u32_max in *. nia.
Qed.

Lemma encoded_len_bound bytes max gs :
  Forall (good_group bytes max) gs ->
  encoded_len (group_bytes <$> gs) <= 8 * zlen (concat (group_positions <$> gs)).
Proof.
  induction 1 as [| g gs (Hs & Hb & Hf) _ IH]; [done |].
  apply Forall2_length in Hf. unfold encoded_len in *. cbn. rewrite zlen_app.
  cbn in IH. unfold zlen in *. lia.
Qed.

#[export] Instance random_bounded {W} `{Rng W} (self : RandomFragmenter) :
  random_valid self -> BoundedLayout (W := W) self layout_bound.
Proof.
  intros Hv key. eapply safe_mono; [by apply random_fragment_safe | | done].
  intros frags [Hmax (gs & Hgs & Hp & ->)]. cbn [store store_layout from_parts].
  rewrite (zlen_encode_groups _ _ _ Hgs). pose proof (encoded_len_bound _ _ _ Hgs).
  rewrite (zlen_Permutation _ _ Hp), zlen_seqZ in * by apply zlen_nonneg.
  unfold layout_bound, u32_max in *. lia.
Qed.

(** A layer adds its four-byte header. *)
#[export] Instance layered_bounded {W} `{Rng W} (self : LayeredFragmenter W) n :
  layered_valid self -> Forall (fun s => BoundedLayout (W := W) s n) (sub_strategies self) ->
  BoundedLayout (W := W) self (4 + n).
Proof.
  intros [Hn _] Hsubs key. cbn [fragment strategy_layered]. unfold layered_fragment.
  eapply safe_bind; [eapply safe_mono; [apply random_u64_safe | intros r Hr; exact Hr | done] |].
  intros r Hr. cbn beta in Hr. rewrite (proj2 (Z.eqb_neq _ _)) by lia.
  set (p := r mod zlen (sub_strategies self)).
  assert (0 <= p < zlen (sub_strategies self)) by (apply Z.mod_pos_bound; lia).
  eapply (safe_bind _ _ (fun s => sub_strategies self !! Z.to_nat p = Some s)); [by apply safe_index |].
  intros s Hlook. rewrite Forall_forall in Hsubs.
  pose proof (Hsubs s (list_elem_of_lookup_2 _ _ _ Hlook)) as Hs.
  eapply safe_bind; [by apply (Hs key) |]. intros sub Hsub. cbn beta in Hsub.
  unfold u32_try_from. rewrite (proj2 (Z.leb_le p u32_max)) by lia.
  eapply (safe_bind _ _ (eq p)); [by apply safe_ret |]. intros _ <-. apply safe_ret.
  cbn [store store_layout from_parts]. rewrite zlen_app. unfold to_le_bytes32.
  rewrite zlen_le_split. pose proof (zlen_layout_bytes_le sub). lia.
Qed.
