(* ===== verification/Os.v ===== *)
(** * The operating system ([memory/unix.rs], [memory/windows.rs], [memory/mod.rs])

    The system calls behind the memory layer are the class [Os]: each may
    refuse, and each may change the world.  [page_size] is what the crate
    makes of the system's answer. *)

From S2P Require Import Prelude Errors Rust.

(** [enum Access]. *)
Inductive Access := AccessNone | AccessRead | AccessReadWrite.

#[export] Instance access_eq_dec : EqDecision Access.
Proof. solve_decision. Defined.

(** The OS calls of [unix.rs] and [windows.rs].  [map_region] yields an
    address or fails; the others report whether the change was made. *)
Class Os (W : Type) := {
  system_page_size : option Z;
  lock_survives_no_access : bool;
  map_region : Z -> W -> option Z * W;
  lock_pages : Z -> Z -> W -> bool * W;
  unlock_pages : Z -> Z -> W -> W;
  exclude_from_dumps : Z -> Z -> W -> bool * W;
  include_in_dumps : Z -> Z -> W -> W;
  protect : Z -> Z -> Access -> W -> bool * W;
  unmap_region : Z -> Z -> W -> W
}.

Definition FALLBACK_PAGE_SIZE : Z := 4096.

(** [usize::is_power_of_two]: exactly one bit is set. *)
Definition is_power_of_two (n : Z) : bool := (0 <? n) && (Z.land n (n - 1) =? 0).

(** [page_size] (the cached value never changes). *)
Definition page_size {W} `{Os W} : Z :=
  match system_page_size with
  | Some n => if is_power_of_two n then n else FALLBACK_PAGE_SIZE
  | None => FALLBACK_PAGE_SIZE
  end.

Lemma power_of_two_spec n : is_power_of_two n = true -> n = 2 ^ Z.log2 n.
Proof.
  unfold is_power_of_two. rewrite andb_true_iff, Z.ltb_lt, Z.eqb_eq. intros [Hn Hl].
  pose proof (Z.log2_spec n Hn) as [Hlo Hhi]. pose proof (Z.log2_nonneg n).
  destruct (Z.eq_dec n (2 ^ Z.log2 n)) as [| Hne]; [done | exfalso].
  assert (Z.log2 (n - 1) = Z.log2 n) as Hp by (apply Z.log2_unique; lia).
  assert (Z.testbit (Z.land n (n - 1)) (Z.log2 n) = true) as Hb.
  { rewrite Z.land_spec, Z.bit_log2 by done. rewrite <- Hp. apply Z.bit_log2. lia. }
  by rewrite Hl, Z.bits_0 in Hb.
Qed.

(** The page size is a power of two whatever the system says. *)
Lemma page_size_pow {W} `{Os W} : exists k, 0 <= k /\ page_size (W := W) = 2 ^ k.
Proof.
  unfold page_size. destruct system_page_size as [n |]; [| by exists 12].
  destruct (is_power_of_two n) eqn:E; [| by exists 12].
  exists (Z.log2 n). split; [apply Z.log2_nonneg | by apply power_of_two_spec].
Qed.

Lemma page_size_pos {W} `{Os W} : 0 < page_size (W := W).
Proof. destruct (page_size_pow (W := W)) as (k & Hk & ->). lia. Qed.

(** An OS that grants everything: pages of 4096 bytes, every mapping at the
    same address, the world untouched. *)
Module GrantingOs.
Definition os {W} : Os W := {|
  system_page_size := Some 4096;
  lock_survives_no_access := true;
  map_region := fun _ w => (Some 65536, w);
  lock_pages := fun _ _ w => (true, w);
  unlock_pages := fun _ _ w => w;
  exclude_from_dumps := fun _ _ w => (true, w);
  include_in_dumps := fun _ _ w => w;
  protect := fun _ _ _ w => (true, w);
  unmap_region := fun _ _ w => w
|}.
End GrantingOs.

(** ** Targets that are neither Unix nor Windows

    The stubs of [memory/mod.rs]: nothing is locked or left out of dumps, and
    the page size is the fallback.  Regions are not compiled there; the
    builder of such a target cannot ask for them, so the calls they would
    make are refused. *)
Module NoSystem.
Section stubs.
Context {W : Type}.

Definition stub_lock_pages (_ptr _len : Z) : W -> bool * W := pair false.
Definition stub_unlock_pages (_ptr _len : Z) : W -> W := id.
Definition stub_exclude_from_dumps (_ptr _len : Z) : W -> bool * W := pair false.
Definition stub_include_in_dumps (_ptr _len : Z) : W -> W := id.
Definition stub_system_page_size : option Z := None.

Definition os : Os W := {|
  system_page_size := stub_system_page_size;
  lock_survives_no_access := true;
  map_region := fun _ => pair None;
  lock_pages := stub_lock_pages;
  unlock_pages := stub_unlock_pages;
  exclude_from_dumps := stub_exclude_from_dumps;
  include_in_dumps := stub_include_in_dumps;
  protect := fun _ _ _ => pair false;
  unmap_region := fun _ _ => id
|}.
End stubs.
End NoSystem.

(** ** What the vault uses of the process besides system calls

    [heap_address n]: where the allocator puts a new buffer of [n] bytes.
    [acquire_region] and [release_region] are the page references of
    [memory/mod.rs]; [Pages] has their model and its laws.  [thread] is
    [std::thread::current().id()]. *)
Class PageRefs (W : Type) := {
  heap_address : Z -> W -> Z * W;
  acquire_pages : Z -> Z -> W -> bool * W;
  release_pages : Z -> Z -> W -> W
}.

Class Threads (W : Type) := { current_thread : W -> Z }.
