(* ===== verification/Guarded.v ===== *)
(** * Page-protected regions ([memory/guarded.rs], [Fragments::into_protected])

    A region is a private mapping: its bytes, its current protection and the
    count of live readers.  The operating system is the class [Os]; reading
    a mapping that is not readable is a fault (modelled as [Panic]: the
    process dies).  The regions of a process are a finite map from an
    identity to the region; protected [Fragments] carry the identity. *)

From S2P Require Import Prelude Errors Rust Format Rng RawKey Fragment Decoy Standard Os.

(** [struct GuardedRegion], with the mapping it owns: its contents and its
    protection. *)
Record GuardedRegion := {
  base : Z;
  map_len : Z;
  region_len : Z;
  region_locked : bool;
  no_dump : bool;
  readers : Z;
  contents : list byte;
  protection : Access
}.

Definition set_protection (a : Access) (r : GuardedRegion) : GuardedRegion :=
  {| base := base r; map_len := map_len r; region_len := region_len r;
     region_locked := region_locked r; no_dump := no_dump r; readers := readers r;
     contents := contents r; protection := a |}.
Definition set_readers (n : Z) (r : GuardedRegion) : GuardedRegion :=
  {| base := base r; map_len := map_len r; region_len := region_len r;
     region_locked := region_locked r; no_dump := no_dump r; readers := n;
     contents := contents r; protection := protection r |}.
Definition set_contents (bs : list byte) (r : GuardedRegion) : GuardedRegion :=
  {| base := base r; map_len := map_len r; region_len := region_len r;
     region_locked := region_locked r; no_dump := no_dump r; readers := readers r;
     contents := bs; protection := protection r |}.

(** [Debug] for [GuardedRegion]. *)
Definition region_fmt (r : GuardedRegion) : string :=
  debug_struct_open "GuardedRegion" [
    ("len", pretty (region_len r)); ("locked", debug_bool (region_locked r)); ("bytes", debug_str "<redacted>")].

Definition size_overflow : Error.t := Error.MemoryLock "protected region size overflowed".
Definition map_failed : Error.t :=
  Error.MemoryLock "could not map a page-protected region for the key".
Definition seal_failed : Error.t := Error.MemoryLock "could not make the key's pages inaccessible".
Definition open_failed : Error.t := Error.MemoryLock "could not make the key's pages readable".
Definition storage_overflow : Error.t := Error.Internal "fragment storage size overflowed".

(** [n.checked_next_multiple_of(page)]. *)
Definition checked_next_multiple_of (n page : Z) : option Z :=
  let r := n mod page in
  if r =? 0 then Some n else checked_add n (page - r).

(** The regions of the process and the identity of the next one. *)
Record Regions := { table : gmap Z GuardedRegion; next_region : Z }.

Definition regions_init : Regions := {| table := ∅; next_region := 0 |}.

Definition is_readable (a : Access) : bool := match a with AccessNone => false | _ => true end.

Section guarded.
Context {W : Type} `{Os W}.

(** [GuardedRegion::new]: a fresh mapping is zero-filled and read-write. *)
Definition region_new (len : Z) : M W GuardedRegion := 
  let! map_len := ok_or (checked_next_multiple_of (Z.max len 1) (page_size (W := W))) size_overflow in
  fun w =>
  match map_region map_len w with
  | (None, w) => (Err map_failed, w)
  | (Some ptr, w) =>
      let '(locked, w) := if lock_survives_no_access then lock_pages ptr map_len w else (false, w) in
      let '(no_dump, w) := exclude_from_dumps ptr map_len w in
      (Ok {| base := ptr; map_len := map_len; region_len := len; region_locked := locked;
             no_dump := no_dump; readers := 0; contents := zeros map_len;
             protection := AccessReadWrite |}, w)
  end.

(** [bytes_mut], overwritten with [bs]: the first [region_len] bytes. *)
Definition region_write (bs : list byte) (r : GuardedRegion) : GuardedRegion :=
  set_contents (list_inserts 0 bs (contents r)) r.

(** [GuardedRegion::seal]. *)
Definition seal (r : GuardedRegion) : M W GuardedRegion := fun w =>
  match protect (base r) (map_len r) AccessNone w with
  | (true, w) => (Ok (set_protection AccessNone r), w)
  | (false, w) => (Err seal_failed, w)
  end.

(** [GuardedRegion::open]: only the first reader changes the protection. *)
Definition open (r : GuardedRegion) : M W GuardedRegion := fun w =>
  if readers r =? 0 then
    match protect (base r) (map_len r) AccessRead w with
    | (true, w) => (Ok (set_readers (readers r + 1) (set_protection AccessRead r)), w)
    | (false, w) => (Err open_failed, w)
    end
  else (Ok (set_readers (readers r + 1) r), w).

(** [Drop] for [RegionAccess]: the last reader seals the region again; a
    refusal is ignored. *)
Definition close (r : GuardedRegion) (w : W) : GuardedRegion * W :=
  let r := set_readers (readers r - 1) r in
  if readers r =? 0 then
    match protect (base r) (map_len r) AccessNone w with
    | (true, w) => (set_protection AccessNone r, w)
    | (false, w) => (r, w)
    end
  else (r, w).

(** [Drop] for [GuardedRegion]: what the mapping holds when it is unmapped. *)
Definition region_drop (r : GuardedRegion) (w : W) : list byte * W :=
  let '(writable, w) := protect (base r) (map_len r) AccessReadWrite w in
  let bytes := if writable then zeros (map_len r) else contents r in
  let w := if no_dump r then include_in_dumps (base r) (map_len r) w else w in
  let w := if region_locked r then unlock_pages (base r) (map_len r) w else w in
  (bytes, unmap_region (base r) (map_len r) w).

(** Reading [at..at+n] of the mapping, from anywhere. *)
Definition region_read (r : GuardedRegion) (at_ n : Z) : option (list byte) :=
  if is_readable (protection r) then Some (range at_ (at_ + n) (contents r)) else None.

(** [try_fold(layout.len(), |acc, &n| acc.checked_add(n))]. *)
Fixpoint checked_sum (acc : Z) (sizes : list Z) : option Z :=
  match sizes with
  | [] => Some acc
  | n :: sizes' => match checked_add acc n with Some acc => checked_sum acc sizes' | None => None end
  end.

(** The copy loop of [into_protected]: the chunks one after the other. *)
Fixpoint copy_chunks (dst : list byte) (at_ : Z) (chunks : list (list byte)) : M W (list byte * Z) :=
  match chunks with
  | [] => ret (dst, at_)
  | bytes :: chunks' =>
      let! dst := copy_into dst at_ (at_ + zlen bytes) bytes in
      copy_chunks dst (at_ + zlen bytes) chunks'
  end.

(** The views: [(at, n)] pairs into the region. *)
Fixpoint view_ranges (at_ : Z) (sizes : list Z) : list (Z * Z) :=
  match sizes with
  | [] => []
  | n :: sizes' => (at_, n) :: view_ranges (at_ + n) sizes'
  end.

(** [Fragments::into_protected].  The result's chunks are what its views
    show when the region is readable. *)
Definition into_protected (self : Fragments) : M (Regions * W) Fragments :=
  let layout := layout_bytes self in
  let sizes := zlen <$> chunks self in
  let! total := ok_or (checked_sum (zlen layout) sizes) storage_overflow in
  let! region := on_snd (region_new total) in
  let! r := on_snd (copy_chunks (take (Z.to_nat total) (contents region)) 0 (chunks self)) in
  let '(dst, at_) := r in
  let! dst := copy_into dst at_ (at_ + zlen layout) layout in
  let region := region_write dst region in
  let views := view_ranges 0 sizes in
  let layout_view := (at_, zlen layout) in
  let show v := range v.1 (v.1 + v.2) (contents region) in
  fun st =>
  match seal region st.2 with
  | (Ok region, w) =>
      let id := next_region st.1 in
      (Ok {| store := {| store_chunks := show <$> views; store_layout := show layout_view;
                         store_region := Some id |};
             layout_start := 0; total_len := total_len self |},
       ({| table := <[id := region]> (table st.1); next_region := id + 1 |}, w))
  | (Err e, w) => (Err e, (st.1, (region_drop region w).2))
  | (_, w) => (Panic, (st.1, w))
  end.

(** [Fragments::open] and the drop of the guard it returns. *)
Definition fragments_open (self : Fragments) : M (Regions * W) unit := fun st =>
  match store_region (store self) with
  | None => (Ok tt, st)
  | Some id =>
      match table st.1 !! id with
      | None => (Panic, st)
      | Some r =>
          match open r st.2 with
          | (Ok r, w) => (Ok tt, ({| table := <[id := r]> (table st.1); next_region := next_region st.1 |}, w))
          | (Err e, w) => (Err e, (st.1, w))
          | (_, w) => (Panic, (st.1, w))
          end
      end
  end.

Definition fragments_close (self : Fragments) (st : Regions * W) : Regions * W :=
  match store_region (store self) with
  | None => st
  | Some id =>
      match table st.1 !! id with
      | None => st
      | Some r =>
          let '(r, w) := close r st.2 in
          ({| table := <[id := r]> (table st.1); next_region := next_region st.1 |}, w)
      end
  end.

(** Whether the chunks and the layout can be read without a fault. *)
Definition fragments_readable (self : Fragments) (regions : Regions) : bool :=
  match store_region (store self) with
  | None => true
  | Some id => match table regions !! id with Some r => is_readable (protection r) | None => false end
  end.
End guarded.

(** A program's uses of one region between [seal] and its drop. *)
Inductive GuardOp := OpenGuard | DropGuard.

#[export] Instance guard_op_eq_dec : EqDecision GuardOp.
Proof. solve_decision. Defined.

(** Replay opens and guard drops; [live] counts the guards in existence.  A
    refused open creates none, and there is nothing to drop when none is. *)
Fixpoint run_guards {W} `{Os W} (ops : list GuardOp) (r : GuardedRegion) (live : Z) (w : W)
    : GuardedRegion * Z * W :=
  match ops with
  | [] => (r, live, w)
  | OpenGuard :: ops' =>
      match open r w with
      | (Ok r, w) => run_guards ops' r (live + 1) w
      | (_, w) => run_guards ops' r live w
      end
  | DropGuard :: ops' =>
      if live =? 0 then run_guards ops' r live w
      else let '(r, w) := close r w in run_guards ops' r (live - 1) w
  end.

(** The OS grants every request to remove access. *)
Definition seals_granted {W} `{Os W} : Prop := forall p n w, fst (protect p n AccessNone w) = true.

(** ** Copying and viewing *)

Lemma inserts_middle {A} (pre mid post src : list A) :
  length mid = length src -> list_inserts (length pre) src (pre ++ mid ++ post) = pre ++ src ++ post.
Proof.
  intros Hl. replace (length pre) with (length pre + 0)%nat by lia.
  rewrite list_inserts_app_r. f_equal. by apply list_inserts_0_r.
Qed.

Lemma copy_chunks_ok {W} (done rest : list byte) (cs : list (list byte)) (w : W) :
  zlen (concat cs) <= zlen rest ->
  copy_chunks (done ++ rest) (zlen done) cs w =
    (Ok (done ++ concat cs ++ drop (length (concat cs)) rest, zlen done + zlen (concat cs)), w).
Proof.
  revert done rest. induction cs as [| c cs IH]; intros done rest Hl; cbn [copy_chunks concat].
  { by rewrite Z.add_0_r. }
  cbn [concat] in Hl. rewrite zlen_app in Hl. pose proof (zlen_nonneg c). pose proof (zlen_nonneg done).
  pose proof (zlen_nonneg (concat cs)).
  erewrite bind_ok by (apply copy_into_ok; rewrite ?zlen_app; lia).
  rewrite <- (take_drop (length c) rest) at 1. replace (Z.to_nat (zlen done)) with (length done) by (unfold zlen; lia).
  rewrite inserts_middle by (rewrite length_take; unfold zlen in *; lia).
  rewrite app_assoc. replace (zlen done + zlen c) with (zlen (done ++ c)) by (by rewrite zlen_app).
  rewrite IH.
  - do 2 f_equal. f_equal; [| rewrite !zlen_app; lia].
    by rewrite drop_drop, length_app, <- !app_assoc.
  - unfold zlen in *. rewrite length_drop. lia.
Qed.

Lemma view_ranges_show (pre post : list byte) (cs : list (list byte)) (at_ : Z) :
  at_ = zlen pre ->
  (fun v => range v.1 (v.1 + v.2) (pre ++ concat cs ++ post)) <$> view_ranges at_ (zlen <$> cs) = cs.
Proof.
  intros ->. revert pre. induction cs as [| c cs IH]; intros pre; [done |].
  cbn [fmap list_fmap view_ranges fst snd concat]. rewrite <- app_assoc. f_equal.
  - by apply range_app_exact.
  - rewrite app_assoc. replace (zlen pre + zlen c) with (zlen (pre ++ c)) by (by rewrite zlen_app).
    apply IH.
Qed.

Lemma checked_sum_spec acc sizes :
  0 <= acc <= usize_max -> Forall (Z.le 0) sizes ->
  checked_sum acc sizes = if acc + zsum sizes <=? usize_max then Some (acc + zsum sizes) else None.
Proof.
  intros Ha Hs. revert acc Ha. induction Hs as [| n sizes Hn Hs IH]; intros acc Ha; cbn [checked_sum zsum].
  { rewrite Z.add_0_r. by rewrite (proj2 (Z.leb_le _ _)) by lia. }
  pose proof (zsum_nonneg _ Hs). unfold checked_add. destruct (Z.leb_spec (acc + n) usize_max).
  - rewrite IH by lia. by rewrite Z.add_assoc.
  - by rewrite (proj2 (Z.leb_gt _ _)) by lia.
Qed.

Lemma zsum_zlen_concat (cs : list (list byte)) : zsum (zlen <$> cs) = zlen (concat cs).
Proof. induction cs as [| c cs IH]; [done |]. cbn. rewrite zlen_app, <- IH. done. Qed.

Lemma next_multiple_ge n page m : 0 < page -> checked_next_multiple_of n page = Some m -> n <= m.
Proof.
  unfold checked_next_multiple_of, checked_add. intros Hp. pose proof (Z.mod_pos_bound n page Hp).
  repeat case_test; intros [= <-]; lia.
Qed.

Section into_protected.
Context {W : Type} `{Os W}.

Lemma region_new_spec len w :
  match region_new len w with
  | (Ok r, _) => region_len r = len /\ readers r = 0 /\ contents r = zeros (map_len r) /\
      len <= map_len r /\ protection r = AccessReadWrite
  | (Err e, _) => e = size_overflow \/ e = map_failed
  | _ => False
  end.
Proof.
  unfold region_new, ok_or. destruct (checked_next_multiple_of (Z.max len 1) (page_size (W := W))) as [m |] eqn:Em.
  2: { cbn. by left. }
  pose proof (next_multiple_ge _ _ _ page_size_pos Em). unfold bind, ret.
  destruct (map_region m w) as [[ptr |] w1]; [| by right].
  destruct lock_survives_no_access; [destruct (lock_pages ptr m w1) as [locked w2] |];
    destruct (exclude_from_dumps ptr m _) as [nd w3]; cbn; split_and!; lia || done.
Qed.

(** A region that holds a key: sealed, nobody reading. *)
Definition at_rest (r : GuardedRegion) : Prop := readers r = 0 /\ protection r = AccessNone.

(** What [into_protected] comes to: map, fill, seal. *)
Lemma into_protected_eq frags rs w :
  zlen (layout_bytes frags) <= usize_max ->
  into_protected frags (rs, w) =
    let total := zlen (layout_bytes frags) + zlen (concat (chunks frags)) in
    if total <=? usize_max then
      match region_new total w with
      | (Ok r, w1) =>
          let r := region_write (concat (chunks frags) ++ layout_bytes frags) r in
          match seal r w1 with
          | (Ok r, w2) =>
              (Ok {| store := {| store_chunks := chunks frags; store_layout := layout_bytes frags;
                                 store_region := Some (next_region rs) |};
                     layout_start := 0; total_len := total_len frags |},
               ({| table := <[next_region rs := r]> (table rs); next_region := next_region rs + 1 |}, w2))
          | (Err e, w2) => (Err e, (rs, (region_drop r w2).2))
          | (_, w2) => (Panic, (rs, w2))
          end
      | (Err e, w1) => (Err e, (rs, w1))
      | (Panic, w1) => (Panic, (rs, w1))
      | (Diverge, w1) => (Diverge, (rs, w1))
      end
    else (Err storage_overflow, (rs, w)).
Proof.
  intros Hlay. unfold into_protected. pose proof (zlen_nonneg (layout_bytes frags)).
  rewrite checked_sum_spec by (done || (apply Forall_fmap, Forall_true; intros c; apply zlen_nonneg)).
  rewrite zsum_zlen_concat. set (cs := chunks frags). set (layout := layout_bytes frags) in *. cbv zeta.
  pose proof (zlen_nonneg (concat cs)).
  destruct (_ <=? usize_max); [| done]. rewrite (bind_ok _ _ (rs, w) (zlen layout + zlen (concat cs)) (rs, w)) by done.
  pose proof (region_new_spec (zlen layout + zlen (concat cs)) w) as Hn.
  unfold bind at 1, on_snd, zoom at 1. cbn [snd fst].
  destruct (region_new _ w) as [[r | e | |] w1]; [| done..].
  destruct Hn as (_ & _ & Hct & Hml & _). set (total := zlen layout + zlen (concat cs)) in *.
  set (buf := take (Z.to_nat total) (contents r)).
  assert (Hbuf : zlen buf = total).
  { unfold buf, zlen. rewrite length_take, Hct. pose proof (zlen_zeros (map_len r)). unfold zlen in *. lia. }
  pose proof (copy_chunks_ok [] buf cs w1 ltac:(lia)) as Hcopy. cbn [app] in Hcopy.
  change (zlen []) with 0 in Hcopy. rewrite Z.add_0_l in Hcopy.
  unfold bind at 1, zoom at 1. cbn [snd fst]. rewrite Hcopy. cbn [fst snd].
  set (tl := drop (length (concat cs)) buf).
  assert (Htl : zlen tl = zlen layout) by (unfold tl, zlen in *; rewrite length_drop; lia).
  erewrite bind_ok by (apply copy_into_ok; rewrite ?zlen_app; lia).
  replace (Z.to_nat (zlen (concat cs))) with (length (concat cs)) by (unfold zlen; lia).
  rewrite <- (app_nil_r tl). rewrite inserts_middle by (unfold zlen in Htl; lia). rewrite app_nil_r.
  set (dst := concat cs ++ layout).
  assert (Hcont : contents (region_write dst r) = concat cs ++ layout ++ drop (Z.to_nat total) (contents r)).
  { unfold region_write; cbn. rewrite <- (take_drop (Z.to_nat total) (contents r)) at 1.
    fold buf. rewrite list_inserts_0_r.
    - unfold dst. by rewrite <- app_assoc.
    - unfold dst. rewrite length_app. unfold zlen in *. lia. }
  cbn [snd fst]. destruct (seal (region_write dst r) w1) as [[r' | e | |] w2]; [| done..].
  rewrite Hcont. pose proof (view_ranges_show [] (layout ++ drop (Z.to_nat total) (contents r)) cs 0 eq_refl) as Hv.
  cbn [app] in Hv. rewrite Hv. by rewrite (range_app_exact (concat cs) layout) by done.
Qed.

Lemma into_protected_spec frags st :
  zlen (layout_bytes frags) <= usize_max ->
  match into_protected frags st with
  | (Ok frags', st') => frags' ≡ frags /\ layout_start frags' = 0 /\
      store_region (store frags') = Some (next_region st.1) /\
      exists r, at_rest r /\ st'.1 = {| table := <[next_region st.1 := r]> (table st.1);
                                        next_region := next_region st.1 + 1 |}
  | (Err e, st') => st'.1 = st.1 /\
      (e = storage_overflow \/ e = size_overflow \/ e = map_failed \/ e = seal_failed)
  | _ => False
  end.
Proof.
  intros Hlay. destruct st as [rs w]. rewrite into_protected_eq by done. cbv zeta. destruct (_ <=? usize_max); [| by auto].
  pose proof (region_new_spec (zlen (layout_bytes frags) + zlen (concat (chunks frags))) w) as Hn.
  destruct (region_new _ w) as [[r | e | |] w1]; [| split; [done |]; tauto | done..].
  destruct Hn as (_ & Hrd & _). unfold seal. destruct (protect _ _ AccessNone w1) as [[] w2]; [| by auto]. cbn [fst snd].
  split_and!; [split_and!; [done | | done] | done | done | eexists; split; [| done]; by split]. apply (layout_from_parts (chunks frags) _ 0).
Qed.

(** A region under [live] guards: the count is exact, and while a guard lives
    the bytes can be read. *)
Definition guarded_by (bs : list byte) (live : Z) (r : GuardedRegion) : Prop :=
  readers r = live /\ 0 <= live /\ contents r = bs /\
  (0 < live -> is_readable (protection r) = true) /\
  (live = 0 -> seals_granted -> protection r = AccessNone).

Lemma open_guarded bs live r w :
  guarded_by bs live r ->
  match open r w with
  | (Ok r', _) => guarded_by bs (live + 1) r'
  | (Err e, _) => e = open_failed
  | _ => False
  end.
Proof.
  intros (Hr & Hl & Hb & Ho & _). unfold open. case_test; tests.
  - destruct (protect _ _ AccessRead w) as [[] w']; [| done].
    split_and!; cbn; [lia.. | done | done | lia].
  - split_and!; cbn; [lia.. | done | intros _; apply Ho; lia | lia].
Qed.

Lemma close_guarded bs live r w :
  guarded_by bs live r -> 0 < live -> guarded_by bs (live - 1) (fst (close r w)).
Proof.
  intros (Hr & Hl & Hb & Ho & Hs) Hp. unfold close. case_test; tests; cbn in *.
  - pose proof (fun H : seals_granted => H (base r) (map_len r) w) as Hg. cbn in Hg.
    destruct (protect _ _ AccessNone w) as [[] w']; cbn in *.
    + split_and!; cbn; [lia | lia | done | lia | done].
    + split_and!; cbn; [lia | lia | done | lia |]. intros _ H'. by apply Hg in H'.
  - split_and!; cbn; [lia | lia | done | intros _; by apply Ho | lia].
Qed.

(** A region is readable exactly while guards live, whatever the order of
    opens and drops: from a sealed region, after any sequence of opens
    (refused ones included) and guard drops, the reader count is the number of
    live guards, the bytes are unchanged, they are readable if a guard lives,
    and they are inaccessible again when none does, provided the OS does not
    refuse to remove access. *)
Theorem guards_bracket_access ops r w :
  at_rest r ->
  match run_guards ops r 0 w with
  | (r', live, _) => readers r' = live /\ 0 <= live /\ contents r' = contents r /\
      (0 < live -> is_readable (protection r') = true) /\
      (live = 0 -> seals_granted -> protection r' = AccessNone)
  end.
Proof.
  intros [Hr Hp]. enough (forall bs r live w, guarded_by bs live r ->
    match run_guards ops r live w with (r', live', _) => guarded_by bs live' r' end) as H'.
  { apply (H' (contents r) r 0 w). by split_and!. }
  clear r Hr Hp w. intros bs. induction ops as [| [] ops IH]; intros r live w Hg; cbn [run_guards]; [done | |].
  - pose proof (open_guarded _ _ _ w Hg). destruct (open r w) as [[r' | e | |] w'];
      [by apply IH | by apply IH | done..].
  - case_test; tests; [by apply IH |]. pose proof (close_guarded _ _ _ w Hg).
    destruct (close r w) as [r' w']. apply IH, H0. destruct Hg. lia.
Qed.
End into_protected.

Definition demo_region : GuardedRegion :=
  {| base := 65536; map_len := 4096; region_len := 3; region_locked := true; no_dump := true;
     readers := 0; contents := [Byte.x01; Byte.x02; Byte.x03] ++ zeros 4093;
     protection := AccessNone |}.

Lemma guards_bracket_access_witness :
  match run_guards (H := GrantingOs.os) [OpenGuard; OpenGuard; DropGuard] demo_region 0 tt with
  | (r', live, _) => readers r' = live /\ 0 <= live /\ contents r' = contents demo_region /\
      (0 < live -> is_readable (protection r') = true) /\
      (live = 0 -> seals_granted (H := GrantingOs.os (W := unit)) -> protection r' = AccessNone)
  end.
Proof.
  apply (guards_bracket_access (H := GrantingOs.os) [OpenGuard; OpenGuard; DropGuard] demo_region tt).
  split; reflexivity.
Defined.

(** ** The pipeline through protected pages *)

Section protected_pipeline.
Context {W F : Type} `{Os W} `{FragmentStrategy W F} (strategy : F).
Context `{!LawfulStrategy (W := W) strategy}.

(** Moving a key's fragments into page-protected storage loses nothing and
    hides them: the moved value is unreadable at rest, a successful [open]
    makes it readable, dropping that guard hides it again when the OS allows,
    and it reassembles the key through either entry point.  If the OS
    refuses, the process's regions are as before. *)
Theorem protected_round_trip key rs w frags w1 :
  RawKey.len key <= isize_max -> fragment strategy key w = (Ok frags, w1) -> view_ok frags ->
  match into_protected frags (rs, w1) with
  | (Ok p, st) =>
      fragments_readable p st.1 = false /\
      reassembles (defragment (W := W) strategy) (defragment_into (W := W) strategy) p key /\
      match fragments_open p st with
      | (Ok _, st') => fragments_readable p st'.1 = true /\
          (seals_granted -> fragments_readable p (fragments_close p st').1 = false)
      | (Err e, st') => e = open_failed /\ st'.1 = st.1
      | _ => False
      end
  | (Err e, st) => st.1 = rs /\
      (e = storage_overflow \/ e = size_overflow \/ e = map_failed \/ e = seal_failed)
  | _ => False
  end.
Proof.
  intros Hk Hf Hv. pose proof (LawfulStrategy0 key Hk w) as Hs. rewrite Hf in Hs. cbn in Hs.
  destruct Hs as (_ & Hls & Hre). assert (zlen (layout_bytes frags) <= usize_max) as Hlay.
  { destruct Hv as [_ Hl]. pose proof (zlen_layout_bytes_le frags).
    unfold usize_max, isize_max in *. lia. }
  pose proof (into_protected_spec frags (rs, w1) Hlay) as Hp.
  destruct (into_protected frags (rs, w1)) as [[p | e | |] st]; [| done..].
  destruct Hp as (Heq & Hpl & Hpr & r & (Hr0 & Hrp) & Hst). cbn in Hpr, Hst.
  pose proof (equiv_view_ok p frags Heq Hpl Hv) as Hvp.
  unfold fragments_readable, fragments_open. rewrite Hpr, Hst. cbn [table].
  rewrite lookup_insert_eq, Hrp. split_and!; [done | by apply Hre |].
  assert (guarded_by (contents r) 0 r) as Hg by (by split_and!).
  pose proof (open_guarded _ _ _ st.2 Hg) as Ho.
  destruct (open r st.2) as [[r' | e | |] w2]; [| | done..].
  2: { by split. }
  cbn [fst table]. rewrite lookup_insert_eq. split; [apply Ho; lia |].
  intros Hseal. unfold fragments_close. rewrite Hpr. cbn [fst table]. rewrite lookup_insert_eq.
  cbn [snd]. pose proof (close_guarded _ _ _ w2 Ho ltac:(lia)) as (_ & _ & _ & _ & Hc).
  destruct (close r' w2) as [r'' w3]. cbn in *. rewrite lookup_insert_eq. by rewrite Hc.
Qed.
End protected_pipeline.

Lemma protected_round_trip_witness :
  exists w1, fragment demo_standard demo_key demo_world = (Ok demo_frags, w1) /\
  match into_protected (H := GrantingOs.os) demo_frags (regions_init, w1) with
  | (Ok p, st) =>
      fragments_readable p st.1 = false /\
      reassembles (defragment (W := Script.world) demo_standard)
        (defragment_into (W := Script.world) demo_standard) p demo_key /\
      match fragments_open (H := GrantingOs.os) p st with
      | (Ok _, st') => fragments_readable p st'.1 = true /\
          (seals_granted (H := GrantingOs.os (W := Script.world)) ->
           fragments_readable p (fragments_close (H := GrantingOs.os) p st').1 = false)
      | (Err e, st') => e = open_failed /\ st'.1 = st.1
      | _ => False
      end
  | (Err e, st) => st.1 = regions_init /\
      (e = storage_overflow \/ e = size_overflow \/ e = map_failed \/ e = seal_failed)
  | _ => False
  end.
Proof.
  eexists. split; [vm_compute; reflexivity |].
  apply (protected_round_trip (H := GrantingOs.os)
    (LawfulStrategy0 := standard_lawful _ demo_standard_valid) demo_standard demo_key regions_init demo_world).
  - done.
  - vm_compute. reflexivity.
  - split; done.
Defined.

(** Dropping a region wipes the whole mapping first, if the OS makes it
    writable. *)
Theorem region_drop_wipes {W} `{Os W} (r : GuardedRegion) (w : W) :
  (forall p n v, fst (protect p n AccessReadWrite v) = true) ->
  fst (region_drop r w) = zeros (map_len r).
Proof.
  intros Hg. unfold region_drop. specialize (Hg (base r) (map_len r) w).
  destruct (protect _ _ _ w) as [b w']. cbn in *. by subst b.
Qed.

Lemma region_drop_wipes_witness :
  (forall p n v, fst (protect (Os := GrantingOs.os (W := unit)) p n AccessReadWrite v) = true) /\
  fst (region_drop (H := GrantingOs.os) demo_region tt) = zeros 4096.
Proof.
  split; [reflexivity |].
  apply (region_drop_wipes (H := GrantingOs.os) demo_region tt). reflexivity.
Defined.
