(* ===== verification/Readers.v ===== *)
(** * Overlapping readers of one key ([memory/guarded.rs], [vault/mod.rs])

    [with_key] on a page-protected key opens the region, reads it and drops
    the guard.  [open] and the guard's drop each hold the mutex of [readers];
    the reads in between hold nothing, so the windows of several threads
    overlap.  A reader is cut at every one of these: the [open], each load,
    the drop.  What it does with the bytes is its own: a plan says, from what
    it has read, which part of the region it loads next, or what it comes to
    (a result, an error of the strategy, a panic: the guard is dropped on each
    of these ways out).  [Concurrent] runs open, loads and drop as one step;
    the theorem here is what makes that step's view of the bytes right. *)

From S2P Require Import Prelude Errors Rust Fragment Os Guarded.

(** The next load, as an offset and a length, or the outcome. *)
Definition plan (A : Type) : Type := list (list byte) -> (Z * Z) + outcome A.

(** A thread between the start of the read and its end. *)
Inductive reader (A : Type) :=
| AtOpen (p : plan A)
| AtLoad (p : plan A) (got : list (list byte))
| AtDrop (p : plan A) (o : outcome A)
| Finished (p : plan A) (o : outcome A)
| Faulted.
Arguments AtOpen {A}.
Arguments AtLoad {A}.
Arguments AtDrop {A}.
Arguments Finished {A}.
Arguments Faulted {A}.

(** Whether it holds a guard. *)
Definition inside {A} (x : reader A) : bool :=
  match x with AtLoad _ _ | AtDrop _ _ => true | _ => false end.

Section readers.
Context {W A : Type} `{Os W}.

(** Its next step. *)
Definition reader_step (x : reader A) (r : GuardedRegion) (w : W) : option (reader A * GuardedRegion * W) :=
  match x with
  | AtOpen p => Some
      match open r w with
      | (Ok r, w) => (AtLoad p [], r, w)
      | (Err e, w) => (Finished p (Err e), r, w)
      | (_, w) => (Finished p Panic, r, w)
      end
  | AtLoad p got => Some
      match p got with
      | inl v =>
          match region_read r v.1 v.2 with
          | Some bytes => (AtLoad p (got ++ [bytes]), r, w)
          | None => (Faulted, r, w)
          end
      | inr o => (AtDrop p o, r, w)
      end
  | AtDrop p o => Some (let '(r, w) := close r w in (Finished p o, r, w))
  | Finished _ _ | Faulted => None
  end.

(** Any number of threads, in any order; more may come, and the rest of the
    process may do what it likes to the outside world. *)
Inductive readers_step : list (reader A) * GuardedRegion * W -> list (reader A) * GuardedRegion * W -> Prop :=
| ReaderMoves t x x' xs r r' w w' :
    xs !! t = Some x -> reader_step x r w = Some (x', r', w') ->
    readers_step (xs, r, w) (<[t := x']> xs, r', w')
| ReaderComes p xs r w : readers_step (xs, r, w) (xs ++ [AtOpen p], r, w)
| OthersRun xs r w w' : readers_step (xs, r, w) (xs, r, w').

(** What a plan comes to on the bytes [cs], once it has read [got]. *)
Inductive comes_to (p : plan A) (cs : list byte) : list (list byte) -> outcome A -> Prop :=
| ComesNow got o : p got = inr o -> comes_to p cs got o
| ComesLater got v o :
    p got = inl v -> comes_to p cs (got ++ [range v.1 (v.1 + v.2) cs]) o -> comes_to p cs got o.

(** ** The invariant *)

Definition guards (xs : list (reader A)) : Z := zsum ((fun x => if inside x then 1 else 0) <$> xs).

(** Where a reader stands with the bytes [cs]. *)
Definition on_track (cs : list byte) (x : reader A) : Prop :=
  match x with
  | AtOpen _ => True
  | AtLoad p got => forall o, comes_to p cs got o -> comes_to p cs [] o
  | AtDrop p o => comes_to p cs [] o
  | Finished p o => o = Err open_failed \/ comes_to p cs [] o
  | Faulted => False
  end.

Record readers_inv (cs : list byte) (xs : list (reader A)) (r : GuardedRegion) : Prop := {
  ri_contents : contents r = cs;
  ri_count : Guarded.readers r = guards xs;
  ri_readable : 0 < guards xs -> protection r = AccessRead;
  ri_sealed : seals_granted (W := W) -> guards xs = 0 -> protection r = AccessNone;
  ri_track : Forall (on_track cs) xs
}.

Lemma guards_cons x xs : guards (x :: xs) = (if inside x then 1 else 0) + guards xs.
Proof. done. Qed.

Lemma guards_insert xs t x x' :
  xs !! t = Some x ->
  guards (<[t := x']> xs) = guards xs - (if inside x then 1 else 0) + (if inside x' then 1 else 0).
Proof.
  revert t. induction xs as [| y xs IH]; intros [| t] Hx; [done.. | |].
  - injection Hx as ->. cbn [insert list_insert]. rewrite !guards_cons. lia.
  - change (<[S t := x']> (y :: xs)) with (y :: <[t := x']> xs). rewrite !guards_cons, (IH t Hx). lia.
Qed.

Lemma guards_nonneg xs : 0 <= guards xs.
Proof. apply zsum_nonneg, Forall_fmap, Forall_true. intros x. unfold compose. by destruct (inside x). Qed.

Lemma guards_inside xs t x : xs !! t = Some x -> inside x = true -> 0 < guards xs.
Proof.
  intros Hx Hi. pose proof (guards_insert xs t x Faulted Hx) as Hg. rewrite Hi in Hg.
  pose proof (guards_nonneg (<[t := Faulted]> xs)). cbn in Hg. lia.
Qed.

(** One step of one reader. *)
Lemma reader_step_inv cs xs r t x x' r' (w w' : W) :
  readers_inv cs xs r -> xs !! t = Some x -> reader_step x r w = Some (x', r', w') ->
  readers_inv cs (<[t := x']> xs) r'.
Proof.
  intros [Hc Hn Hr Hz Hf] Hx Hs.
  pose proof (guards_insert xs t x x' Hx) as Hg. pose proof (guards_nonneg xs) as Hpos.
  pose proof (guards_inside xs t x Hx) as Hin.
  assert (on_track cs x) as Ht by (eapply Forall_lookup_1; eauto).
  assert (forall x', on_track cs x' -> Forall (on_track cs) (<[t := x']> xs)) as Hf'
    by (intros; by apply Forall_insert).
  destruct x as [p | p got | p o | p o |]; cbn [reader_step inside] in *; [| | | done..].
  - unfold open in Hs. destruct (Guarded.readers r =? 0) eqn:E; tests.
    + destruct (protect _ _ _ _) as [[] w1]; injection Hs as <- <- <-; cbn [inside] in Hg.
      * split; [done | cbn; lia | done | intros _ ?; lia | apply Hf'; cbn; auto].
      * split; [done | lia | intros; apply Hr; lia | intros ??; apply Hz; [done | lia] | apply Hf'; cbn; auto].
    + injection Hs as <- <- <-. cbn [inside] in Hg.
      split; [done | cbn; lia | intros; apply Hr; lia | intros _ ?; lia | apply Hf'; cbn; auto].
  - specialize (Hin eq_refl). destruct (p got) as [v | o] eqn:Ep.
    + unfold region_read in Hs. rewrite (Hr Hin), Hc in Hs. cbn [is_readable] in Hs. injection Hs as <- <- <-.
      cbn [inside] in Hg. split; [done | lia | intros; apply Hr; lia | intros _ ?; lia |]. apply Hf'. cbn.
      intros o Ho. apply Ht. by eapply ComesLater.
    + injection Hs as <- <- <-. cbn [inside] in Hg.
      split; [done | lia | intros; apply Hr; lia | intros _ ?; lia |]. apply Hf'. cbn. by apply Ht, ComesNow.
  - specialize (Hin eq_refl). unfold close in Hs. cbn [Guarded.readers set_readers] in Hs.
    destruct (Guarded.readers r - 1 =? 0) eqn:E; tests.
    + pose proof (fun Hseal : seals_granted => Hseal (base r) (map_len r) w) as Hseal.
      cbn [base map_len set_readers] in Hs.
      destruct (protect _ _ _ w) as [[] w1]; injection Hs as <- <- <-; cbn [inside] in Hg;
        (split; [done | cbn; lia | intros; lia | | apply Hf'; cbn; auto]); [done |].
      intros Hall _. by specialize (Hseal Hall).
    + injection Hs as <- <- <-. cbn [inside] in Hg.
      split; [done | cbn; lia | intros; apply Hr; lia | intros _ ?; lia | apply Hf'; cbn; auto].
Qed.

Lemma readers_steps_inv cs c c' :
  rtc readers_step c c' -> readers_inv cs c.1.1 c.1.2 -> readers_inv cs c'.1.1 c'.1.2.
Proof.
  induction 1 as [| c1 c2 c3 Hs _ IH]; [done |]. intros Hi. apply IH. clear IH.
  destruct Hs as [t x x' xs r r' w w' Hx Hs | p xs r w | xs r w w']; cbn in *; [by eapply reader_step_inv | | done].
  assert (guards (xs ++ [AtOpen p]) = guards xs) as Eg.
  { unfold guards. rewrite fmap_app, zsum_app. cbn. lia. }
  destruct Hi as [Hc Hn Hr Hz Hf]. split; rewrite ?Eg; [done.. |]. by apply Forall_app; split; [| constructor].
Qed.

Lemma no_readers_inv r : at_rest r -> readers_inv (contents r) [] r.
Proof. intros [Hr Hp]. by split. Qed.
End readers.


(** Two threads read a region of three bytes, the second through while the
    first still holds its guard; the guard dropped last seals it. *)
Definition read_all (views : list (Z * Z)) : plan (list (list byte)) := fun got =>
  match views !! length got with Some v => inl v | None => inr (Ok got) end.

(** On its own it comes to the views' bytes: what [into_protected] and the
    sequential model give as the chunks. *)
Lemma read_all_shows (views : list (Z * Z)) (cs : list byte) :
  comes_to (read_all views) cs [] (Ok ((fun v => range v.1 (v.1 + v.2) cs) <$> views)).
Proof.
  set (show := fun v : Z * Z => range v.1 (v.1 + v.2) cs).
  enough (forall rest front, views = front ++ rest ->
    comes_to (read_all views) cs (show <$> front) (Ok (show <$> views))) as Hall by by apply (Hall views []).
  induction rest as [| v rest IH]; intros front Hv.
  - rewrite app_nil_r in Hv. subst front. apply ComesNow. unfold read_all.
    by rewrite length_fmap, lookup_ge_None_2 by done.
  - eapply (ComesLater _ _ _ v).
    + unfold read_all. by rewrite length_fmap, Hv, list_lookup_middle.
    + specialize (IH (front ++ [v])). rewrite fmap_app in IH. apply IH. by rewrite Hv, <- app_assoc.
Qed.

(** The reader at [t] takes a step, if it can. *)
Definition run_reader {W A} `{Os W} (c : list (reader A) * GuardedRegion * W) (t : nat)
    : list (reader A) * GuardedRegion * W :=
  match c.1.1 !! t with
  | Some x => match reader_step x c.1.2 c.2 with
              | Some (x', r, w) => (<[t := x']> c.1.1, r, w)
              | None => c
              end
  | None => c
  end.

Lemma run_reader_steps {W A} `{Os W} (ts : list nat) (c : list (reader A) * GuardedRegion * W) :
  rtc readers_step c (foldl run_reader c ts).
Proof.
  revert c. induction ts as [| t ts IH]; intros [[xs r] w]; cbn; [apply rtc_refl |].
  etrans; [| apply IH]. unfold run_reader. cbn. destruct (xs !! t) as [x |] eqn:Ex; [| apply rtc_refl].
  destruct (reader_step x r w) as [[[x' r'] w'] |] eqn:Es; [| apply rtc_refl].
  apply rtc_once. by eapply ReaderMoves.
Qed.

Definition demo_readers : list (reader (list (list byte))) * GuardedRegion * unit :=
  foldl (run_reader (H := GrantingOs.os))
    ([AtOpen (read_all [(0, 2); (2, 1)]); AtOpen (read_all [(1, 2)])], demo_region, tt)
    [0; 0; 1; 1; 1; 1; 0; 0]%nat.

