(* ===== verification/AddressSpace.v ===== *)
(** * The address space

    What the memory layer relies on: loads and stores, the protection of
    every address, the global allocator, and the OS's mappings, over one set
    of addresses in use.  A new mapping or heap buffer is disjoint from
    everything in use; locking pages or excluding them from dumps moves no
    byte; only [protect] changes a protection. *)

From S2P Require Import Prelude Errors Rust Os.

(** Loads and stores through a pointer, what the page tables allow there, and
    the global allocator ([Box::from], dropping a [Box]); the allocator gives
    [None] when memory is exhausted. *)
Class Memory (W : Type) := {
  peek : W -> Z -> byte;
  access : W -> Z -> Access;
  poke : Z -> list byte -> W -> W;
  box_alloc : Z -> W -> option Z * W;
  box_free : Z -> Z -> W -> W
}.

Definition within (a n x : Z) : Prop := a <= x < a + n.
#[export] Instance within_dec a n x : Decision (within a n x).
Proof. unfold within. apply _. Defined.

(** What is at an address. *)
Definition cell {W} `{Memory W} (w : W) (x : Z) : byte * Access := (peek w x, access w x).

(** Whole pages, which is all the crate maps, protects and unmaps. *)
Definition whole_pages {W} `{Os W} (p n : Z) : Prop := (page_size (W := W) | p) /\ (page_size (W := W) | n).

Class AddressSpace (W : Type) `{Os W, Memory W} := {
  owned : W -> Z -> Prop;

  lock_pages_same p n w x : (owned (lock_pages p n w).2 x <-> owned w x) /\ cell (lock_pages p n w).2 x = cell w x;
  unlock_pages_same p n w x : (owned (unlock_pages p n w) x <-> owned w x) /\ cell (unlock_pages p n w) x = cell w x;
  exclude_same p n w x :
    (owned (exclude_from_dumps p n w).2 x <-> owned w x) /\ cell (exclude_from_dumps p n w).2 x = cell w x;
  include_same p n w x :
    (owned (include_in_dumps p n w) x <-> owned w x) /\ cell (include_in_dumps p n w) x = cell w x;

  (** A mapping is new, zero, readable and writable, and starts a page; a
      refused one changes nothing. *)
  map_region_law n w x : 0 < n ->
    match map_region n w with
    | (Some base, w') => 0 < base /\ base + n - 1 <= usize_max /\ (page_size (W := W) | base) /\
        if decide (within base n x) then ~ owned w x /\ owned w' x /\ cell w' x = (Byte.x00, AccessReadWrite)
        else (owned w' x <-> owned w x) /\ (owned w x -> cell w' x = cell w x)
    | (None, w') => (owned w' x <-> owned w x) /\ cell w' x = cell w x
    end;

  box_alloc_law n w x : 0 < n ->
    match box_alloc n w with
    | (Some base, w') => 0 < base /\ base + n - 1 <= usize_max /\
        if decide (within base n x) then ~ owned w x /\ owned w' x
        else (owned w' x <-> owned w x) /\ (owned w x -> cell w' x = cell w x)
    | (None, _) => True
    end;

  (** Freeing gives the range back and leaves every other byte in use. *)
  box_free_law a n w x :
    if decide (within a n x) then ~ owned (box_free a n w) x
    else (owned (box_free a n w) x <-> owned w x) /\ (owned w x -> cell (box_free a n w) x = cell w x);
  unmap_region_law a n w x : whole_pages (W := W) a n ->
    if decide (within a n x) then ~ owned (unmap_region a n w) x
    else (owned (unmap_region a n w) x <-> owned w x) /\ (owned w x -> cell (unmap_region a n w) x = cell w x);

  (** A protection that is granted holds of the whole range; one that is
      refused may hold of a part of it. *)
  protect_law a n new w x : whole_pages (W := W) a n ->
    let '(granted, w') := protect a n new w in
    (owned w' x <-> owned w x) /\ peek w' x = peek w x /\
    (access w' x = new \/ access w' x = access w x) /\
    if decide (within a n x) then granted = true -> access w' x = new else access w' x = access w x;

  poke_law a bs w x :
    (owned (poke a bs w) x <-> owned w x) /\
    peek (poke a bs w) x = (if decide (within a (zlen bs) x) then default Byte.x00 (bs !! Z.to_nat (x - a)) else peek w x) /\
    access (poke a bs w) x = access w x
}.

Section space.
Context {W : Type} `{AddressSpace W}.
Implicit Types w : W.

(** Same addresses in use, same bytes, same protections. *)
Definition same_memory w w' : Prop := forall x, (owned w' x <-> owned w x) /\ cell w' x = cell w x.

Lemma cell_peek w w' x : cell w' x = cell w x -> peek w' x = peek w x.
Proof. by intros [= ? _]. Qed.

#[export] Instance same_memory_equiv : Equivalence same_memory.
Proof.
  split.
  - intros w x. done.
  - intros w w' Hs x. destruct (Hs x) as [Ho Hp]. by rewrite Ho, Hp.
  - intros w w' w'' H1' H2' x. destruct (H1' x) as [A1 A2], (H2' x) as [B1 B2]. by rewrite B1, B2.
Qed.

(** The bytes from [a]. *)
Definition holds_bytes w (a : Z) (bs : list byte) : Prop :=
  forall i b, bs !! i = Some b -> peek w (a + Z.of_nat i) = b.

Definition all_zeros w (a n : Z) : Prop := forall x, within a n x -> peek w x = Byte.x00.

Lemma poke_holds a bs w : holds_bytes (poke a bs w) a bs.
Proof.
  intros i b Hi. pose proof (lookup_lt_Some _ _ _ Hi) as Hl. destruct (poke_law a bs w (a + Z.of_nat i)) as (_ & -> & _).
  rewrite decide_True by (unfold within, zlen; lia).
  replace (Z.to_nat (a + Z.of_nat i - a)) with i by lia. by rewrite Hi.
Qed.

Lemma poke_zeros a n w : 0 <= n -> all_zeros (poke a (zeros n) w) a n.
Proof.
  intros Hn x Hx. destruct (poke_law a (zeros n) w x) as (_ & -> & _).
  rewrite zlen_zeros, decide_True by done. unfold zeros.
  rewrite lookup_replicate_2 by (unfold within in Hx; lia). done.
Qed.

Lemma poke_other a bs w x : ~ within a (zlen bs) x -> cell (poke a bs w) x = cell w x.
Proof. intros Hx. unfold cell. destruct (poke_law a bs w x) as (_ & -> & ->). by rewrite decide_False. Qed.

(** Two states that agree on a range. *)
Lemma holds_bytes_agree w w' a bs :
  (forall x, within a (zlen bs) x -> peek w' x = peek w x) -> holds_bytes w a bs -> holds_bytes w' a bs.
Proof.
  intros Ha Hb i b Hi. pose proof (lookup_lt_Some _ _ _ Hi). rewrite Ha; [by apply Hb |].
  unfold within, zlen. lia.
Qed.

Lemma all_zeros_agree w w' a n :
  (forall x, within a n x -> peek w' x = peek w x) -> all_zeros w a n -> all_zeros w' a n.
Proof. intros Ha Hz x Hx. rewrite Ha by done. by apply Hz. Qed.
End space.

(** ** Ranges of addresses, pairwise disjoint *)

(** A range is its start and its size. *)
Definition addresses (r : Z * Z) : list Z := seqZ r.1 r.2.

Lemma elem_of_addresses r x : x ∈ addresses r <-> within r.1 r.2 x.
Proof. unfold addresses. rewrite elem_of_seqZ. done. Qed.

Definition disjoint_ranges (rs : list (Z * Z)) : Prop := NoDup (rs ≫= addresses).

#[export] Instance disjoint_ranges_perm : Proper ((≡ₚ) ==> iff) disjoint_ranges.
Proof. intros l k E. unfold disjoint_ranges. by rewrite E. Qed.

Lemma disjoint_ranges_cons r rs :
  disjoint_ranges (r :: rs) <-> (forall r' x, r' ∈ rs -> within r.1 r.2 x -> within r'.1 r'.2 x -> False) /\
    disjoint_ranges rs.
Proof.
  unfold disjoint_ranges. cbn. rewrite NoDup_app. split.
  - intros (_ & Hd & Hn). split; [| done]. intros r' x Hr Hx Hx'. apply (Hd x); [by apply elem_of_addresses |].
    apply list_elem_of_bind. exists r'. by rewrite elem_of_addresses.
  - intros [Hd Hn]. split_and!; [apply NoDup_seqZ | | done].
    intros x Hx (r' & Hx' & Hr)%list_elem_of_bind. apply elem_of_addresses in Hx, Hx'. by eapply Hd.
Qed.

(** [k] ranges of [size] bytes each, from [base]. *)
Definition blocks_of (base size : Z) (k : nat) : list (Z * Z) :=
  (fun i => (base + i * size, size)) <$> seqZ 0 (Z.of_nat k).

Lemma blocks_of_S base size k :
  blocks_of base size (S k) ≡ₚ (base + Z.of_nat k * size, size) :: blocks_of base size k.
Proof.
  unfold blocks_of. rewrite seqZ_S, fmap_app. cbn [fmap list_fmap].
  by rewrite Permutation_app_comm.
Qed.

Lemma blocks_of_inside base size k r x :
  0 < size -> r ∈ blocks_of base size k -> within r.1 r.2 x -> within base (Z.of_nat k * size) x.
Proof.
  intros Hs (i & -> & Hi%elem_of_seqZ)%list_elem_of_fmap. unfold within. cbn. nia.
Qed.

Lemma blocks_of_disjoint base size k : 0 < size -> disjoint_ranges (blocks_of base size k).
Proof.
  intros Hs. induction k as [| k IH]; [constructor |]. rewrite blocks_of_S. apply disjoint_ranges_cons.
  split; [| done]. intros r x Hr Hx Hx'. pose proof (blocks_of_inside _ _ _ _ _ Hs Hr Hx').
  unfold within in *. cbn in *. lia.
Qed.

(** ** Ranges in use and ranges free *)

Section inv.
Context {W : Type} `{AddressSpace W}.
Implicit Types (w : W) (live free rs : list (Z * Z)).

(** The ranges handed out ([live]) and kept for later ([free]) are owned and
    pairwise disjoint, and the free ones are zero. *)
Record space_inv live free w : Prop := {
  si_disjoint : disjoint_ranges (live ++ free);
  si_owned : forall r x, r ∈ live ++ free -> within r.1 r.2 x -> owned w x;
  si_zero : forall r, r ∈ free -> all_zeros w r.1 r.2
}.

Lemma space_inv_perm live live' free free' w :
  live ≡ₚ live' -> free ≡ₚ free' -> space_inv live free w -> space_inv live' free' w.
Proof.
  intros El Ef [Hd Ho Hz]. split.
  - by rewrite <- El, <- Ef.
  - intros r x. rewrite <- El, <- Ef. apply Ho.
  - intros r. rewrite <- Ef. apply Hz.
Qed.

Lemma space_inv_same live free w w' : same_memory w w' -> space_inv live free w -> space_inv live free w'.
Proof.
  intros Hs [Hd Ho Hz]. split; [done | |].
  - intros r x Hr Hx. destruct (Hs x) as [-> _]. by eapply Ho.
  - intros r Hr x Hx. destruct (Hs x) as [_ ->%cell_peek]. by apply (Hz r).
Qed.

Lemma space_inv_take live free r w : space_inv live (r :: free) w -> space_inv (r :: live) free w.
Proof.
  intros [Hd Ho Hz]. assert (live ++ r :: free ≡ₚ (r :: live) ++ free) as E by (symmetry; apply Permutation_middle).
  split; [by rewrite <- E | intros r' x; rewrite <- E; apply Ho |]. intros r' Hr'. apply Hz. by right.
Qed.

Lemma space_inv_give live free r w :
  all_zeros w r.1 r.2 -> space_inv (r :: live) free w -> space_inv live (r :: free) w.
Proof.
  intros Hr [Hd Ho Hz]. assert ((r :: live) ++ free ≡ₚ live ++ r :: free) as E by apply Permutation_middle.
  split; [by rewrite <- E | intros r' x; rewrite <- E; apply Ho |].
  intros r' [-> | Hr']%elem_of_cons; [done | by apply Hz].
Qed.

Lemma space_inv_give_all live free rs w :
  (forall r, r ∈ rs -> all_zeros w r.1 r.2) -> space_inv (rs ++ live) free w -> space_inv live (rs ++ free) w.
Proof.
  intros Hz. revert free. induction rs as [| r rs IH]; intros free Hi; [done |]. cbn in *.
  eapply (space_inv_perm live live (rs ++ r :: free)); [done | symmetry; apply Permutation_middle |].
  apply IH; [intros r' Hr'; apply Hz; by right |]. apply space_inv_give; [apply Hz; by left | done].
Qed.

(** A live range meets no other. *)
Lemma space_inv_apart live free r r' x w :
  space_inv (r :: live) free w -> r' ∈ live ++ free -> within r.1 r.2 x -> within r'.1 r'.2 x -> False.
Proof. intros [Hd _ _]. apply disjoint_ranges_cons in Hd as [Hd _]. intros Hr. by apply Hd. Qed.

(** Writing inside a live range. *)
Lemma space_inv_poke live free r a bs w :
  (forall x, within a (zlen bs) x -> within r.1 r.2 x) -> space_inv (r :: live) free w ->
  space_inv (r :: live) free (poke a bs w).
Proof.
  intros Hin Hi. pose proof Hi as [Hd Ho Hz]. split; [done | |].
  - intros r' x Hr' Hx. destruct (poke_law a bs w x) as [-> _]. by eapply Ho.
  - intros r' Hr' x Hx. rewrite (cell_peek w); [by eapply Hz | apply poke_other]. intros Hx'.
    apply (space_inv_apart live free r r' x w Hi); [apply elem_of_app; by right | by apply Hin | done].
Qed.

(** New ranges inside a range nobody owned. *)
Lemma space_inv_fresh live free base n rs w w' :
  (forall x, if decide (within base n x) then ~ owned w x /\ owned w' x
             else (owned w' x <-> owned w x) /\ (owned w x -> cell w' x = cell w x)) ->
  disjoint_ranges rs -> (forall r x, r ∈ rs -> within r.1 r.2 x -> within base n x) ->
  space_inv live free w ->
  space_inv (rs ++ live) free w' /\
  forall r x, r ∈ live ++ free -> within r.1 r.2 x -> cell w' x = cell w x.
Proof.
  intros Hf Hrs Hin [Hd Ho Hz].
  assert (forall r x, r ∈ live ++ free -> within r.1 r.2 x -> ~ within base n x) as Hout.
  { intros r x Hr Hx Hb. specialize (Hf x). rewrite decide_True in Hf by done. by apply Hf, (Ho r). }
  assert (forall r x, r ∈ live ++ free -> within r.1 r.2 x -> cell w' x = cell w x /\ owned w' x) as Hkeep.
  { intros r x Hr Hx. specialize (Hf x). rewrite decide_False in Hf by (by eapply Hout).
    destruct Hf as [Ho' Hp']. split; [| apply Ho']; eauto. }
  split; [| intros r x Hr Hx; by apply (Hkeep r)]. split.
  - rewrite <- app_assoc. unfold disjoint_ranges. rewrite bind_app. apply NoDup_app. split_and!; [done | | done].
    intros x (r & Hx & Hr)%list_elem_of_bind (r' & Hx' & Hr')%list_elem_of_bind.
    apply elem_of_addresses in Hx, Hx'. eapply (Hout r'); eauto.
  - rewrite <- app_assoc. intros r x [Hr | Hr]%elem_of_app Hx; [| by apply (Hkeep r)].
    specialize (Hf x). rewrite decide_True in Hf by (by eapply Hin). apply Hf.
  - intros r Hr x Hx. destruct (Hkeep r x) as [->%cell_peek _]; [apply elem_of_app; by right | done |]. by apply (Hz r).
Qed.

(** Giving a live range back. *)
Lemma space_inv_free live free r w w' :
  (forall x, if decide (within r.1 r.2 x) then ~ owned w' x
             else (owned w' x <-> owned w x) /\ (owned w x -> cell w' x = cell w x)) ->
  space_inv (r :: live) free w ->
  space_inv live free w' /\
  forall r' x, r' ∈ live ++ free -> within r'.1 r'.2 x -> cell w' x = cell w x.
Proof.
  intros Hl Hi. pose proof Hi as [Hd Ho Hz].
  assert (forall r' x, r' ∈ live ++ free -> within r'.1 r'.2 x ->
    (owned w' x <-> owned w x) /\ cell w' x = cell w x) as Hk.
  { intros r' x Hr' Hx. specialize (Hl x). rewrite decide_False in Hl by (intros Hx'; by eapply space_inv_apart).
    destruct Hl as [Hl1 Hl2]. split; [done |]. apply Hl2, (Ho r'); [by right | done]. }
  split; [| intros r' x Hr' Hx; by apply (Hk r')]. split.
  - by apply disjoint_ranges_cons in Hd as [_ Hd].
  - intros r' x Hr' Hx. destruct (Hk r' x Hr' Hx) as [-> _]. apply (Ho r'); [by right | done].
  - intros r' Hr' x Hx. destruct (Hk r' x) as [_ ->%cell_peek]; [apply elem_of_app; by right | done |]. by apply (Hz r').
Qed.
End inv.

(** ** A concrete address space

    The log of all writes (bytes never written are zero), the changes of
    protection, newest first, and an allocator that hands out ever higher
    addresses below [2^47].  The OS refuses to make more than two pages
    readable at once and grants everything else. *)
Module Ram.
Record world := { log : list (Z * list byte); prots : list (Z * Z * Access); freed : list (Z * Z); top : Z }.

Definition start : world := {| log := []; prots := []; freed := []; top := 4096 |}.

Fixpoint read_log (l : list (Z * list byte)) (x : Z) : byte :=
  match l with
  | [] => Byte.x00
  | (a, bs) :: l' => if decide (within a (zlen bs) x) then default Byte.x00 (bs !! Z.to_nat (x - a)) else read_log l' x
  end.
Definition read (w : world) : Z -> byte := read_log (log w).
Fixpoint read_prots (l : list (Z * Z * Access)) (x : Z) : Access :=
  match l with
  | [] => AccessReadWrite
  | (a, n, p) :: l' => if decide (within a n x) then p else read_prots l' x
  end.
Definition write (a : Z) (bs : list byte) (w : world) : world :=
  {| log := (a, bs) :: log w; prots := prots w; freed := freed w; top := top w |}.

(** [freed] holds start and end of the ranges given back. *)
Definition given_back (w : world) (x : Z) : Prop := Exists (fun r => r.1 <= x < r.2) (freed w).
Definition in_use (w : world) (x : Z) : Prop := 4096 <= x < top w /\ ~ given_back w x.

(** The next [n] addresses from a multiple of [align]; [clear] zeroes them
    and makes them readable and writable. *)
Definition align_up (align x : Z) : Z := (x + align - 1) / align * align.
Definition take (clear : bool) (align n : Z) (w : world) : option Z * world :=
  let base := align_up align (top w) in
  if (4096 <=? top w) && (base + n <=? 2 ^ 47) then
    (Some base,
     {| log := (if clear then [(base, zeros n)] else []) ++ log w;
        prots := (if clear then [(base, n, AccessReadWrite)] else []) ++ prots w;
        freed := (top w, base) :: ((fun r => (r.1, Z.min r.2 (top w))) <$> freed w); top := base + n |})
  else (None, w).
Definition release (a n : Z) (w : world) : world :=
  {| log := log w; prots := prots w; freed := (a, a + n) :: freed w; top := top w |}.
Definition set_prot (a n : Z) (p : Access) (w : world) : bool * world :=
  if (n <=? 8192) || negb (bool_decide (p = AccessRead)) then
    (true, {| log := log w; prots := (a, n, p) :: prots w; freed := freed w; top := top w |})
  else (false, w).

#[global] Instance os : Os world := {|
  system_page_size := Some 4096;
  lock_survives_no_access := true;
  map_region := take true 4096;
  lock_pages := fun _ _ w => (true, w);
  unlock_pages := fun _ _ w => w;
  exclude_from_dumps := fun _ _ w => (true, w);
  include_in_dumps := fun _ _ w => w;
  protect := set_prot;
  unmap_region := release
|}.

#[global] Instance memory : Memory world :=
  {| peek := read; access := fun w => read_prots (prots w); poke := write; box_alloc := take false 1; box_free := release |}.

Lemma align_up_bounds align x : 0 < align -> x <= align_up align x /\ (align | align_up align x).
Proof.
  intros Ha. unfold align_up. split; [| by exists ((x + align - 1) / align)].
  pose proof (Z.div_mod (x + align - 1) align). pose proof (Z.mod_pos_bound (x + align - 1) align). lia.
Qed.

Lemma take_law clear align n w x : 0 < n -> 0 < align ->
  match take clear align n w with
  | (Some base, w') => 0 < base /\ base + n - 1 <= usize_max /\ (align | base) /\
      if decide (within base n x)
      then ~ in_use w x /\ in_use w' x /\ (clear = true -> cell w' x = (Byte.x00, AccessReadWrite))
      else (in_use w' x <-> in_use w x) /\ cell w' x = cell w x
  | (None, w') => w' = w
  end.
Proof.
  intros Hn Ha. unfold take. destruct (align_up_bounds align (top w) Ha) as [Hup Hdiv].
  set (base := align_up align (top w)) in *. destruct (4096 <=? top w) eqn:E1; [| done].
  destruct (base + n <=? 2 ^ 47) eqn:E2; [| done]. cbn [andb]. tests.
  assert (2 ^ 47 <= usize_max) by done. split_and!; [lia | lia | done |].
  set (w' := {| log := _; prots := _; freed := _; top := _ |}).
  assert (given_back w' x <-> top w <= x < base \/ (given_back w x /\ x < top w)) as Hg.
  { unfold given_back. cbn [w' freed]. rewrite Exists_cons, Exists_fmap, !Exists_exists. cbn. apply or_iff_compat_l.
    split; [intros (r & Hr & Hx) | intros [(r & Hr & Hx) Ht]].
    - split; [exists r; split; [done | lia] | lia].
    - exists r. cbn. split; [done | lia]. }
  unfold in_use, cell. destruct (decide (within base n x)) as [Hx | Hx]; rewrite Hg; cbn [w' top].
  - unfold within in Hx. split_and!; [lia | lia | lia | lia |]. intros ->. cbn. unfold read, within. cbn.
    unfold within. rewrite zlen_zeros, !decide_True by lia. unfold zeros. by rewrite lookup_replicate_2 by lia.
  - split; [unfold within in *; intuition lia |]. destruct clear; [| done]. cbn. unfold read. cbn.
    by rewrite zlen_zeros, !decide_False by (done || lia).
Qed.

#[global, program] Instance space : AddressSpace world := {| owned := in_use |}.
Next Obligation. done. Qed.
Next Obligation. done. Qed.
Next Obligation. done. Qed.
Next Obligation. done. Qed.
Next Obligation.
  intros n w x Hn. pose proof (take_law true 4096 n w x Hn) as Ht. cbn. destruct (take true 4096 n w) as [[base |] w'].
  - destruct Ht as (? & ? & ? & Ht); [lia |]. split_and!; [done.. |]. destruct (decide (within base n x)); intuition.
  - by rewrite Ht.
Qed.
Next Obligation.
  intros n w x Hn. pose proof (take_law false 1 n w x Hn) as Ht. cbn. destruct (take false 1 n w) as [[base |] w']; [| done].
  destruct Ht as (? & ? & _ & Ht); [lia |]. split_and!; [done.. |]. destruct (decide (within base n x)); intuition.
Qed.
Next Obligation.
  intros a n w x. cbn. unfold in_use, release, given_back. cbn [top freed].
  destruct (decide (within a n x)) as [Hx | Hx]; rewrite Exists_cons; cbn; unfold within in Hx; [tauto | split; [tauto | done]].
Qed.
Next Obligation.
  intros a n w x _. cbn. unfold in_use, release, given_back. cbn [top freed].
  destruct (decide (within a n x)) as [Hx | Hx]; rewrite Exists_cons; cbn; unfold within in Hx; [tauto | split; [tauto | done]].
Qed.
Next Obligation.
  intros a n new w x _. cbn. unfold set_prot. destruct ((n <=? 8192) || _); cbn.
  - destruct (decide (within a n x)); split_and!; auto.
  - destruct (decide (within a n x)); split_and!; auto; done.
Qed.
Next Obligation. done. Qed.
End Ram.
