(* ===== verification/Pages.v ===== *)
(** * The page table ([memory/mod.rs])

    Buffers share pages, and page locks do not nest, so the crate counts the
    live buffers on each page: the first locks the page and excludes it from
    dumps, the last undoes both.  [acquire_region] and [release_region] hold
    the table's mutex throughout, so a run is a sequence of whole calls. *)

From S2P Require Import Prelude Errors Rust Os.

(** ** Data *)

Record PageState := { refs : Z; ps_locked : bool; no_dump : bool }.

(** Page start address to state. *)
Abbreviation PageTable := (gmap Z PageState).

Definition PAGES : PageTable := ∅.

(** The state [entry(addr).or_insert(..)] starts from. *)
Definition new_page : PageState := {| refs := 0; ps_locked := false; no_dump := false |}.

Definition page_span (addr len page : Z) : Z * Z :=
  let first := Z.land addr (Z.lnot (page - 1)) in
  let last := Z.land (saturating_add addr (len - 1)) (Z.lnot (page - 1)) in
  (first, last).

(** ** Operations *)

Section pages.
Context {W : Type} `{Os W}.

(** One iteration of the loop of [acquire_region]: is the page locked now? *)
Definition acquire_page (page addr : Z) : M (PageTable * W) bool :=
  let! table := gets fst in
  let state := default new_page (table !! addr) in
  let! locked := if ps_locked state then ret true else on_snd (ask (lock_pages addr page)) in
  let! no_dump := if no_dump state then ret true else on_snd (ask (exclude_from_dumps addr page)) in
  do! on_fst (modify (<[addr := {| refs := wrap64 (refs state + 1); ps_locked := locked; no_dump := no_dump |}]>)) in
  ret locked.

Fixpoint acquire_loop (fuel : nat) (page last addr : Z) (all_locked : bool) : M (PageTable * W) bool :=
  match fuel with
  | O => diverge
  | S fuel' =>
      let! locked := acquire_page page addr in
      let all_locked := all_locked && locked in
      if addr =? last then ret all_locked
      else acquire_loop fuel' page last (wrap64 (addr + page)) all_locked
  end.

(** One iteration per page of the span. *)
Definition span_fuel (first last page : Z) : nat := S (Z.to_nat ((last - first) / page)).

Definition acquire_region (ptr len : Z) : M (PageTable * W) bool :=
  let page := page_size (W := W) in
  let '(first, last) := page_span ptr len page in
  acquire_loop (span_fuel first last page) page last first true.

(** One iteration of the loop of [release_region]. *)
Definition release_page (page addr : Z) : M (PageTable * W) unit :=
  let! table := gets fst in
  match table !! addr with
  | None => ret tt
  | Some state =>
      let state := {| refs := wrap64 (refs state - 1); ps_locked := ps_locked state; no_dump := no_dump state |} in
      if refs state =? 0 then
        do! on_fst (modify (delete addr)) in
        do! (if ps_locked state then on_snd (modify (unlock_pages addr page)) else ret tt) in
        (if no_dump state then on_snd (modify (include_in_dumps addr page)) else ret tt)
      else on_fst (modify (<[addr := state]>))
  end.

Fixpoint release_loop (fuel : nat) (page last addr : Z) : M (PageTable * W) unit :=
  match fuel with
  | O => diverge
  | S fuel' =>
      do! release_page page addr in
      if addr =? last then ret tt else release_loop fuel' page last (wrap64 (addr + page))
  end.

Definition release_region (ptr len : Z) : M (PageTable * W) unit :=
  let page := page_size (W := W) in
  let '(first, last) := page_span ptr len page in
  release_loop (span_fuel first last page) page last first.
End pages.

(** ** What the OS promises about locks

    Locks and exclusions are per page and do not nest: a granted request
    changes the page it names and no other; a refused one changes nothing. *)
Class LockView (W : Type) `{Os W} := {
  page_locked : W -> Z -> bool;
  page_excluded : W -> Z -> bool;
  lock_pages_law p w q :
    let '(granted, w') := lock_pages p page_size w in
    page_locked w' q = (granted && bool_decide (q = p)) || page_locked w q /\
    page_excluded w' q = page_excluded w q;
  unlock_pages_law p w q :
    let w' := unlock_pages p page_size w in
    page_locked w' q = negb (bool_decide (q = p)) && page_locked w q /\
    page_excluded w' q = page_excluded w q;
  exclude_law p w q :
    let '(granted, w') := exclude_from_dumps p page_size w in
    page_excluded w' q = (granted && bool_decide (q = p)) || page_excluded w q /\
    page_locked w' q = page_locked w q;
  include_law p w q :
    let w' := include_in_dumps p page_size w in
    page_excluded w' q = negb (bool_decide (q = p)) && page_excluded w q /\
    page_locked w' q = page_locked w q
}.

(** ** The pages of a buffer *)

Section span.
Context {W : Type} `{Os W}.
Abbreviation page := (page_size (W := W)).

(** The page an address lies on. *)
Definition page_of (addr : Z) : Z := addr / page * page.

(** [n] consecutive pages from [a]. *)
Fixpoint page_seq (a : Z) (n : nat) : list Z :=
  match n with O => [] | S n' => a :: page_seq (a + page) n' end.

Definition pages_of (addr len : Z) : list Z :=
  page_seq (page_of addr) (span_fuel (page_of addr) (page_of (addr + len - 1)) page).

Lemma elem_of_page_seq a n p : p ∈ page_seq a n <-> exists i, 0 <= i < Z.of_nat n /\ p = a + i * page.
Proof.
  revert a. induction n as [| n IH]; intros a; cbn [page_seq].
  - split; [by intros ?%not_elem_of_nil | intros (i & Hi & _); lia].
  - rewrite elem_of_cons, IH. split.
    + intros [-> | (i & Hi & ->)]; [exists 0; lia | exists (i + 1); lia].
    + intros (i & Hi & ->). destruct (decide (i = 0)) as [-> |]; [left; lia | right]. exists (i - 1). lia.
Qed.

Lemma page_seq_NoDup a n : NoDup (page_seq a n).
Proof.
  revert a. induction n as [| n IH]; intros a; constructor; [| apply IH].
  rewrite elem_of_page_seq. intros (i & Hi & E). pose proof (page_size_pos (W := W)). nia.
Qed.

(** A buffer of the address space: not empty, within 2^64 bytes. *)
Definition buffer_ok (b : Z * Z) : Prop := 0 <= b.1 /\ 0 < b.2 /\ b.1 + b.2 - 1 <= usize_max.

Lemma mask_page a : Z.land a (Z.lnot (page - 1)) = page_of a.
Proof.
  unfold page_of. destruct (page_size_pow (W := W)) as (k & Hk & ->).
  replace (2 ^ k - 1) with (Z.ones k) by (rewrite Z.ones_equiv; lia).
  rewrite <- Z.ldiff_land, Z.ldiff_ones_r by done.
  by rewrite Z.shiftl_mul_pow2, Z.shiftr_div_pow2 by done.
Qed.

Lemma page_span_eq addr len : buffer_ok (addr, len) ->
  page_span addr len page = (page_of addr, page_of (addr + len - 1)).
Proof.
  intros (H1 & H2 & H3). cbn in *. unfold page_span. rewrite !mask_page. unfold saturating_add.
  by replace (usize_max `min` (addr + (len - 1))) with (addr + len - 1) by lia.
Qed.

Lemma page_of_le a b : a <= b -> page_of a <= page_of b.
Proof.
  intros Hab. unfold page_of. pose proof (page_size_pos (W := W)).
  apply Z.mul_le_mono_nonneg_r; [lia |]. by apply Z.div_le_mono.
Qed.

Lemma page_of_bounds a : page_of a <= a < page_of a + page.
Proof.
  pose proof (page_size_pos (W := W)) as Hp. unfold page_of. pose proof (Z.mul_div_le a page Hp).
  pose proof (Z.mul_succ_div_gt a page Hp). lia.
Qed.

Lemma page_of_nonneg a : 0 <= a -> 0 <= page_of a.
Proof.
  intros Ha. unfold page_of. pose proof (page_size_pos (W := W)).
  pose proof (Z.div_pos a page Ha). lia.
Qed.

(** The pages of a buffer are the pages of its bytes. *)
Lemma elem_of_pages_of addr len p : 0 < len ->
  p ∈ pages_of addr len <-> exists x, addr <= x < addr + len /\ page_of x = p.
Proof.
  intros Hl. pose proof (page_size_pos (W := W)) as Hp. unfold pages_of. rewrite elem_of_page_seq.
  pose proof (Z.div_le_mono addr (addr + len - 1) page Hp ltac:(lia)) as Hle.
  assert (Z.of_nat (span_fuel (page_of addr) (page_of (addr + len - 1)) page) =
    (addr + len - 1) / page - addr / page + 1) as ->.
  { unfold span_fuel, page_of. rewrite <- Z.mul_sub_distr_r, Z.div_mul by lia. lia. }
  split.
  - intros (i & Hi & ->). exists (Z.max addr (page_of addr + i * page)).
    pose proof (page_of_bounds addr) as Ha. pose proof (page_of_bounds (addr + len - 1)) as Hb.
    unfold page_of in *. split; [nia |].
    replace (addr / page * page + i * page) with ((addr / page + i) * page) in * by lia.
    f_equal. symmetry. destruct (decide (i = 0)) as [-> | Hi0].
    + apply (Z.div_unique _ _ _ (addr `max` ((addr / page + 0) * page) - addr / page * page)); lia.
    + apply (Z.div_unique _ _ _ 0); nia.
  - intros (x & Hx & <-). exists (x / page - addr / page). split; [| unfold page_of; lia].
    pose proof (Z.div_le_mono addr x page Hp ltac:(lia)).
    pose proof (Z.div_le_mono x (addr + len - 1) page Hp ltac:(lia)). lia.
Qed.
End span.

(** ** The table counts buffers *)

Section invariant.
Context {W : Type} `{LockView W}.
Abbreviation page := (page_size (W := W)).
Implicit Types c : Z -> Z.

(** [c p] live buffers touch page [p]: the table holds exactly the touched
    pages, with their counts and with what the OS has done to them. *)
Definition table_inv c (s : PageTable * W) : Prop := forall p,
  match s.1 !! p with
  | Some st => refs st = c p /\ 1 <= c p <= usize_max
  | None => c p = 0
  end /\
  page_locked s.2 p = default false (ps_locked <$> s.1 !! p) /\
  page_excluded s.2 p = default false (no_dump <$> s.1 !! p).

Definition bump (p d : Z) c : Z -> Z := fun q => if bool_decide (q = p) then c q + d else c q.

Lemma bump_eq p d c : bump p d c p = c p + d.
Proof. unfold bump. by rewrite bool_decide_true. Qed.
Lemma bump_ne p d c q : q <> p -> bump p d c q = c q.
Proof. intros. unfold bump. by rewrite bool_decide_false. Qed.

Lemma table_inv_count c s p : table_inv c s -> 0 <= c p.
Proof. intros Hi. destruct (Hi p) as [Hp _]. destruct (s.1 !! p); lia. Qed.

(** Conditional requests: skipped when already granted. *)
Lemma lock_step (b : bool) p t w : page_locked w p = b ->
  exists l w', (if b then ret true else on_snd (ask (lock_pages p page))) (t, w) = (Ok l, ((t : PageTable), w')) /\
    forall q, page_locked w' q = (if bool_decide (q = p) then l else page_locked w q) /\
      page_excluded w' q = page_excluded w q.
Proof.
  intros Hb. destruct b.
  - exists true, w. split; [done |]. intros q. case_bool_decide; by subst.
  - pose proof (lock_pages_law p w) as Hl. unfold on_snd, zoom, ask. cbn [fst snd].
    destruct (lock_pages p page w) as [l w']. exists l, w'. split; [done |]. intros q.
    destruct (Hl q) as [-> ->]. case_bool_decide; [subst; by rewrite Hb, andb_true_r, orb_false_r | by rewrite andb_false_r].
Qed.

Lemma exclude_step (b : bool) p t w : page_excluded w p = b ->
  exists l w', (if b then ret true else on_snd (ask (exclude_from_dumps p page))) (t, w) = (Ok l, ((t : PageTable), w')) /\
    forall q, page_excluded w' q = (if bool_decide (q = p) then l else page_excluded w q) /\
      page_locked w' q = page_locked w q.
Proof.
  intros Hb. destruct b.
  - exists true, w. split; [done |]. intros q. case_bool_decide; by subst.
  - pose proof (exclude_law p w) as Hl. unfold on_snd, zoom, ask. cbn [fst snd].
    destruct (exclude_from_dumps p page w) as [l w']. exists l, w'. split; [done |]. intros q.
    destruct (Hl q) as [-> ->]. case_bool_decide; [subst; by rewrite Hb, andb_true_r, orb_false_r | by rewrite andb_false_r].
Qed.

(** Locked pages stay locked. *)
Definition locks_grow (w w' : W) : Prop := forall q, page_locked w q = true -> page_locked w' q = true.

(** Pages still in use stay locked. *)
Definition locks_kept c (w w' : W) : Prop := forall q,
  1 <= c q -> page_locked w q = true -> page_locked w' q = true.

Lemma acquire_page_spec c t w p :
  table_inv c (t, w) -> c p < usize_max ->
  exists b s', acquire_page page p (t, w) = (Ok b, s') /\ table_inv (bump p 1 c) s' /\
    b = page_locked s'.2 p /\ locks_grow w s'.2.
Proof.
  intros Hi Hc. pose proof (table_inv_count _ _ p Hi) as H0'. unfold acquire_page.
  erewrite bind_ok by done. cbn [fst]. destruct (Hi p) as (Hp & Hpl & Hpe). cbn [fst snd] in Hp, Hpl, Hpe.
  set (st := default new_page (t !! p)).
  assert (refs st = c p /\ ps_locked st = page_locked w p /\ no_dump st = page_excluded w p) as (Er & El & Ee).
  { subst st. rewrite Hpl, Hpe. destruct (t !! p); cbn in *; [by destruct Hp as [-> _] | by rewrite Hp]. }
  destruct (lock_step (ps_locked st) p t w ltac:(congruence)) as (l & w1 & E1 & H1').
  rewrite (bind_ok _ _ _ _ _ E1).
  destruct (exclude_step (no_dump st) p t w1) as (e & w2 & E2 & H2'); [destruct (H1' p); congruence |].
  rewrite (bind_ok _ _ _ _ _ E2). exists l. eexists. split; [reflexivity |]. cbn [fst snd].
  assert (forall q, page_locked w2 q = (if bool_decide (q = p) then l else page_locked w q) /\
    page_excluded w2 q = (if bool_decide (q = p) then e else page_excluded w q)) as Hw.
  { intros q. destruct (H1' q) as [A1 A2], (H2' q) as [B1 B2]. rewrite B2, A1, B1, A2. done. }
  split_and!; [| by destruct (Hw p) as [-> _]; rewrite bool_decide_true |].
  - intros q. cbn [fst snd]. destruct (Hw q) as [-> ->]. destruct (decide (q = p)) as [-> | Hne].
    + rewrite lookup_insert_eq, bump_eq, !bool_decide_true by done. cbn. unfold wrap64.
      rewrite Er, Z.mod_small by (unfold usize_max in *; lia). split_and!; [lia | lia | lia | done..].
    + rewrite lookup_insert_ne, bump_ne, !bool_decide_false by done. apply Hi.
  - intros q Hq. destruct (Hw q) as [-> _]. case_bool_decide; [subst q | done].
    assert (ps_locked st = true) as Est by congruence. rewrite Est in E1. by injection E1 as <- <-.
Qed.

Lemma release_page_spec c t w p :
  table_inv c (t, w) -> 1 <= c p ->
  exists s', release_page page p (t, w) = (Ok tt, s') /\ table_inv (bump p (-1) c) s' /\
    locks_kept (bump p (-1) c) w s'.2.
Proof.
  intros Hi Hc. unfold release_page. erewrite bind_ok by done. cbn [fst].
  destruct (Hi p) as (Hp & Hpl & Hpe). cbn [fst snd] in Hp, Hpl, Hpe.
  destruct (t !! p) as [st |]; [| lia]. destruct Hp as [Er Hr]. cbn [fmap option_fmap option_map default refs ps_locked no_dump] in *.
  unfold wrap64. rewrite Er, Z.mod_small by (unfold usize_max in *; lia). case_test; tests.
  - set (w1 := if ps_locked st then unlock_pages p page w else w).
    set (w2 := if no_dump st then include_in_dumps p page w1 else w1).
    exists (delete p t, w2). split.
    { erewrite bind_ok by done. subst w2 w1. by destruct (ps_locked st), (no_dump st). }
    assert (forall q, page_locked w1 q = negb (bool_decide (q = p)) && page_locked w q /\
      page_excluded w1 q = page_excluded w q) as H1'.
    { intros q. subst w1. destruct (ps_locked st) eqn:E; [apply unlock_pages_law |].
      case_bool_decide; [subst; by rewrite Hpl | done]. }
    assert (forall q, page_locked w2 q = negb (bool_decide (q = p)) && page_locked w q /\
      page_excluded w2 q = negb (bool_decide (q = p)) && page_excluded w q) as H2'.
    { intros q. subst w2. destruct (H1' q) as [A1 A2]. destruct (no_dump st) eqn:E.
      - destruct (include_law p w1 q) as [-> ->]. by rewrite A1, A2.
      - rewrite A1, A2. case_bool_decide; [subst; by rewrite Hpe | done]. }
    split.
    2: { intros q Hq Hlq. cbn [fst snd]. destruct (H2' q) as [-> _]. rewrite Hlq. case_bool_decide; [| done].
      subst q. rewrite bump_eq in Hq. lia. }
    intros q. cbn [fst snd]. destruct (H2' q) as [-> ->]. destruct (decide (q = p)) as [-> | Hne].
    + rewrite lookup_delete_eq, bump_eq, !bool_decide_true by done. cbn. split; [lia | done].
    + rewrite lookup_delete_ne, bump_ne, !bool_decide_false by done. apply Hi.
  - eexists. split; [reflexivity |]. split; [| by intros q]. intros q. cbn [fst snd].
    destruct (decide (q = p)) as [-> | Hne].
    + rewrite lookup_insert_eq, bump_eq. cbn. split_and!; [lia | lia | lia | done..].
    + rewrite lookup_insert_ne, bump_ne by done. apply Hi.
Qed.

(** ** Whole calls *)

Definition bumps (ps : list Z) (d : Z) c : Z -> Z := fun q => if bool_decide (q ∈ ps) then c q + d else c q.

Lemma bumps_seq a n d c q :
  bumps (page_seq a (S n)) d c q = bumps (page_seq (a + page) n) d (bump a d c) q.
Proof.
  pose proof (page_seq_NoDup (W := W) a (S n)) as [Hp _]%NoDup_cons. unfold bumps.
  change (page_seq a (S n)) with (a :: page_seq (a + page) n). destruct (decide (q = a)) as [-> | Hne].
  - rewrite bump_eq, bool_decide_true by by left. by rewrite bool_decide_false.
  - rewrite bump_ne by done.
    rewrite (bool_decide_ext (q ∈ a :: _) (q ∈ page_seq (a + page) n)); [done |].
    rewrite elem_of_cons. split; [by intros [] | by right].
Qed.

Lemma table_inv_ext c c' s : (forall q, c q = c' q) -> table_inv c s -> table_inv c' s.
Proof. intros He Hi q. rewrite <- !He. apply Hi. Qed.

Lemma acquire_loop_S n last a all :
  acquire_loop (S n) page last a all =
    (let! locked := acquire_page page a in
     if a =? last then ret (all && locked) else acquire_loop n page last (wrap64 (a + page)) (all && locked)).
Proof. done. Qed.

Lemma release_loop_S n last a :
  release_loop (S n) page last a =
    (do! release_page page a in
     if a =? last then ret tt else release_loop n page last (wrap64 (a + page))).
Proof. done. Qed.

Lemma next_page a n last :
  0 <= a -> last = a + Z.of_nat (S n) * page -> last <= usize_max -> (a =? last) = false /\ wrap64 (a + page) = a + page.
Proof.
  pose proof (page_size_pos (W := W)). intros Ha -> Hl. split; [apply Z.eqb_neq; nia |].
  unfold wrap64. apply Z.mod_small. unfold usize_max in Hl. nia.
Qed.

Lemma acquire_loop_spec n : forall c t w a all last,
  table_inv c (t, w) -> 0 <= a -> last = a + Z.of_nat n * page -> last <= usize_max ->
  (forall q, q ∈ page_seq a (S n) -> c q < usize_max) ->
  exists b s', acquire_loop (S n) page last a all (t, w) = (Ok b, s') /\
    table_inv (bumps (page_seq a (S n)) 1 c) s' /\ locks_grow w s'.2 /\
    (b = true -> all = true /\ forall q, q ∈ page_seq a (S n) -> page_locked s'.2 q = true).
Proof.
  induction n as [| n IH]; intros c t w a all last Hi Ha Hlast Hmax Hc.
  all: destruct (acquire_page_spec c t w a Hi) as (l & [t1 w1] & E & Hi1 & Hl & Hg); [apply Hc; by left |].
  all: rewrite acquire_loop_S, (bind_ok _ _ _ _ _ E).
  - rewrite (proj2 (Z.eqb_eq _ _)) by lia. exists (all && l), (t1, w1). split_and!; [done | | done |].
    + eapply table_inv_ext; [| exact Hi1]. intros q. by rewrite bumps_seq.
    + intros [Hall Hl']%andb_true_iff. split; [done |]. intros q ->%list_elem_of_singleton. cbn [snd] in Hl |- *. congruence.
  - destruct (next_page a n last Ha Hlast Hmax) as [-> ->]. pose proof (page_size_pos (W := W)).
    assert (a ∉ page_seq (a + page) (S n)) as Hnot by (pose proof (page_seq_NoDup a (S (S n))) as Hn; by inversion Hn).
    destruct (IH _ _ _ (a + page) (all && l) last Hi1) as (b & s' & E2 & Hi2 & Hg2 & Hb); [lia.. | |].
    { intros q Hq. rewrite bump_ne by (by intros ->). apply Hc. by right. }
    exists b, s'. split_and!; [exact E2 | | |].
    + eapply table_inv_ext; [| exact Hi2]. intros q. by rewrite (bumps_seq a).
    + intros q Hq. by apply Hg2, Hg.
    + intros Hbt. destruct (Hb Hbt) as [[Hall Hl']%andb_true_iff Hrest]. split; [done |].
      intros q [-> | Hq]%elem_of_cons; [| by apply Hrest]. apply Hg2. cbn [snd] in Hl |- *. congruence.
Qed.

Lemma release_loop_spec n : forall c t w a last,
  table_inv c (t, w) -> 0 <= a -> last = a + Z.of_nat n * page -> last <= usize_max ->
  (forall q, q ∈ page_seq a (S n) -> 1 <= c q) ->
  exists s', release_loop (S n) page last a (t, w) = (Ok tt, s') /\
    table_inv (bumps (page_seq a (S n)) (-1) c) s' /\ locks_kept (bumps (page_seq a (S n)) (-1) c) w s'.2.
Proof.
  induction n as [| n IH]; intros c t w a last Hi Ha Hlast Hmax Hc.
  all: destruct (release_page_spec c t w a Hi) as ([t1 w1] & E & Hi1 & Hk1); [apply Hc; by left |].
  all: rewrite release_loop_S, (bind_ok _ _ _ _ _ E).
  - rewrite (proj2 (Z.eqb_eq _ _)) by lia. exists (t1, w1). split_and!; [done | |].
    + eapply table_inv_ext; [| exact Hi1]. intros q. by rewrite bumps_seq.
    + intros q. rewrite bumps_seq. apply Hk1.
  - destruct (next_page a n last Ha Hlast Hmax) as [-> ->]. pose proof (page_size_pos (W := W)).
    assert (a ∉ page_seq (a + page) (S n)) as Hnot by (pose proof (page_seq_NoDup a (S (S n))) as Hn; by inversion Hn).
    destruct (IH _ _ _ (a + page) last Hi1) as (s' & E2 & Hi2 & Hk2); [lia.. | |].
    { intros q Hq. rewrite bump_ne by (by intros ->). apply Hc. by right. }
    exists s'. split_and!; [exact E2 | |].
    + eapply table_inv_ext; [| exact Hi2]. intros q. by rewrite (bumps_seq a).
    + intros q. rewrite (bumps_seq a). intros Hq Hlq. apply Hk2; [done |]. apply Hk1; [| done].
      unfold bumps in Hq. case_bool_decide; lia.
Qed.

(** The pages of a buffer as the loops visit them. *)
Lemma span_last addr len : buffer_ok (addr, len) ->
  page_of (W := W) (addr + len - 1) =
    page_of (W := W) addr + Z.of_nat (Z.to_nat ((page_of (W := W) (addr + len - 1) - page_of (W := W) addr) / page)) * page.
Proof.
  intros (H1' & H2' & H3'). cbn in *. pose proof (page_size_pos (W := W)) as Hp.
  pose proof (Z.div_le_mono addr (addr + len - 1) page Hp ltac:(lia)) as Hle.
  unfold page_of. rewrite <- Z.mul_sub_distr_r, Z.div_mul by lia. rewrite Z2Nat.id by lia. lia.
Qed.

Lemma acquire_region_spec c t w addr len :
  table_inv c (t, w) -> buffer_ok (addr, len) ->
  (forall q, q ∈ pages_of (W := W) addr len -> c q < usize_max) ->
  exists b s', acquire_region addr len (t, w) = (Ok b, s') /\
    table_inv (bumps (pages_of (W := W) addr len) 1 c) s' /\ locks_grow w s'.2 /\
    (b = true -> forall q, q ∈ pages_of (W := W) addr len -> page_locked s'.2 q = true).
Proof.
  intros Hi Hb Hc. unfold acquire_region. rewrite page_span_eq by done.
  pose proof (page_of_bounds (W := W) (addr + len - 1)). pose proof Hb as (H1' & H2' & H3'). cbn in *.
  set (n := Z.to_nat ((page_of (W := W) (addr + len - 1) - page_of (W := W) addr) / page)).
  destruct (acquire_loop_spec n c t w (page_of (W := W) addr) true (page_of (W := W) (addr + len - 1)) Hi) as (b & s' & E & Hi' & Hg & Hl);
    [by apply page_of_nonneg | by apply span_last | lia | exact Hc |].
  exists b, s'. split_and!; [exact E | exact Hi' | exact Hg | intros Hbt; by apply Hl].
Qed.

Lemma release_region_spec c t w addr len :
  table_inv c (t, w) -> buffer_ok (addr, len) ->
  (forall q, q ∈ pages_of (W := W) addr len -> 1 <= c q) ->
  exists s', release_region addr len (t, w) = (Ok tt, s') /\
    table_inv (bumps (pages_of (W := W) addr len) (-1) c) s' /\
    locks_kept (bumps (pages_of (W := W) addr len) (-1) c) w s'.2.
Proof.
  intros Hi Hb Hc. unfold release_region. rewrite page_span_eq by done.
  pose proof (page_of_bounds (W := W) (addr + len - 1)). pose proof Hb as (H1' & H2' & H3'). cbn in *.
  set (n := Z.to_nat ((page_of (W := W) (addr + len - 1) - page_of (W := W) addr) / page)).
  destruct (release_loop_spec n c t w (page_of (W := W) addr) (page_of (W := W) (addr + len - 1)) Hi) as (s' & E & Hi' & Hk);
    [by apply page_of_nonneg | by apply span_last | lia | exact Hc |].
  exists s'. split_and!; [exact E | exact Hi' | exact Hk].
Qed.

(** ** Programs of buffer allocations and frees *)

Inductive buffer_op := AllocBuffer (addr len : Z) | FreeBuffer (i : nat).

(** The live buffers, each with the answer of its [acquire_region]. *)
Definition run_buffer_op (op : buffer_op) (live : list (Z * Z * bool)) : M (PageTable * W) (list (Z * Z * bool)) :=
  match op with
  | AllocBuffer addr len => let! b := acquire_region addr len in ret ((addr, len, b) :: live)
  | FreeBuffer i =>
      match live !! i with
      | Some (addr, len, _) => do! release_region addr len in ret (delete i live)
      | None => ret live
      end
  end.

Fixpoint run_buffer_ops (ops : list buffer_op) (live : list (Z * Z * bool)) : M (PageTable * W) (list (Z * Z * bool)) :=
  match ops with
  | [] => ret live
  | op :: ops' => let! live := run_buffer_op op live in run_buffer_ops ops' live
  end.

Definition op_fits (op : buffer_op) : Prop :=
  match op with AllocBuffer addr len => buffer_ok (addr, len) | FreeBuffer _ => True end.

Definition touches (p : Z) (b : Z * Z * bool) : Prop := p ∈ pages_of (W := W) b.1.1 b.1.2.
#[local] Instance touches_dec p b : Decision (touches p b).
Proof. unfold touches. apply _. Defined.

(** How many live buffers touch a page. *)
Definition users (live : list (Z * Z * bool)) (p : Z) : Z := zlen (filter (touches p) live).

Lemma users_cons b live p : users (b :: live) p = bumps (pages_of (W := W) b.1.1 b.1.2) 1 (users live) p.
Proof.
  unfold users, bumps. rewrite filter_cons. unfold touches at 1. case_bool_decide.
  - rewrite decide_True by done. rewrite zlen_cons. lia.
  - by rewrite decide_False by done.
Qed.

Lemma users_delete live i b p : live !! i = Some b ->
  users (delete i live) p = bumps (pages_of (W := W) b.1.1 b.1.2) (-1) (users live) p.
Proof.
  intros Hi. apply delete_Permutation in Hi. assert (users live p = users (b :: delete i live) p) as E
    by (by apply zlen_Permutation, filter_Permutation).
  unfold bumps. rewrite E, users_cons. unfold bumps. case_bool_decide; lia.
Qed.

Lemma users_le live p : users live p <= zlen live.
Proof. unfold users, zlen. pose proof (length_filter (touches p) live). lia. Qed.

Lemma users_pos live b p : b ∈ live -> touches p b -> 1 <= users live p.
Proof.
  intros Hb Hp. assert (b ∈ filter (touches p) live) as Hf by by apply list_elem_of_filter.
  unfold users. destruct (filter (touches p) live); [by apply not_elem_of_nil in Hf |].
  rewrite zlen_cons. pose proof (zlen_nonneg l). lia.
Qed.

(** Every flag that says locked is true. *)
Definition flags_true (live : list (Z * Z * bool)) (w : W) : Prop := forall b p,
  b ∈ live -> b.2 = true -> touches p b -> page_locked w p = true.

Lemma run_buffer_op_spec op live t w :
  op_fits op -> zlen live < usize_max -> Forall (fun b => buffer_ok b.1) live ->
  table_inv (users live) (t, w) -> flags_true live w ->
  exists live' s', run_buffer_op op live (t, w) = (Ok live', s') /\ table_inv (users live') s' /\
    flags_true live' s'.2 /\ Forall (fun b => buffer_ok b.1) live' /\ zlen live' <= zlen live + 1.
Proof.
  intros Hop Hlen Hok Hi Hf. destruct op as [addr len | i]; cbn [run_buffer_op].
  - destruct (acquire_region_spec _ t w addr len Hi Hop) as (b & s' & E & Hi' & Hg & Hl).
    { intros q _. pose proof (users_le live q). lia. }
    rewrite (bind_ok _ _ _ _ _ E). eexists _, s'. split; [reflexivity |]. split_and!.
    + eapply table_inv_ext; [| exact Hi']. intros q. by rewrite users_cons.
    + intros b' p [-> | Hb]%elem_of_cons Hbt Hp; [by apply Hl |]. apply Hg. by apply (Hf b').
    + by constructor.
    + rewrite zlen_cons. lia.
  - destruct (live !! i) as [[[addr len] b] |] eqn:Ei.
    2: { exists live, (t, w). split_and!; [done.. | lia]. }
    pose proof (Forall_lookup_1 _ _ _ _ Hok Ei) as Hb.
    destruct (release_region_spec _ t w addr len Hi Hb) as (s' & E & Hi' & Hk).
    { intros q Hq. eapply (users_pos live (addr, len, b)); [by eapply list_elem_of_lookup_2 | exact Hq]. }
    rewrite (bind_ok _ _ _ _ _ E). exists (delete i live), s'. split_and!.
    + done.
    + eapply table_inv_ext; [| exact Hi']. intros q. by rewrite (users_delete live i _ q Ei).
    + intros b' p Hb' Hbt Hp. assert (b' ∈ live) as Hin.
      { apply delete_Permutation in Ei. rewrite Ei. by right. }
      apply Hk; [| by apply (Hf b')]. pose proof (users_delete live i _ p Ei) as Hu. cbn [fst snd] in Hu.
      rewrite <- Hu. by apply (users_pos _ b').
    + by apply Forall_delete.
    + apply delete_Permutation, zlen_Permutation in Ei. rewrite zlen_cons in Ei. lia.
Qed.

Lemma run_buffer_ops_spec ops : forall live t w,
  Forall op_fits ops -> zlen live + zlen ops < usize_max -> Forall (fun b => buffer_ok b.1) live ->
  table_inv (users live) (t, w) -> flags_true live w ->
  exists live' s', run_buffer_ops ops live (t, w) = (Ok live', s') /\ table_inv (users live') s' /\
    flags_true live' s'.2 /\ Forall (fun b => buffer_ok b.1) live'.
Proof.
  induction ops as [| op ops IH]; intros live t w Hops Hlen Hok Hi Hf.
  { by exists live, (t, w). }
  apply Forall_cons in Hops as [Hop Hops]. rewrite zlen_cons in Hlen. pose proof (zlen_nonneg ops).
  destruct (run_buffer_op_spec op live t w Hop ltac:(lia) Hok Hi Hf) as (l1 & [t1 w1] & E & Hi1 & Hf1 & Hok1 & Hl1).
  destruct (IH l1 t1 w1 Hops ltac:(lia) Hok1 Hi1 Hf1) as (l2 & s2 & E2 & Hrest).
  exists l2, s2. split; [| exact Hrest]. cbn [run_buffer_ops]. by rewrite (bind_ok _ _ _ _ _ E).
Qed.

(** C26: The page table counts buffers.  After any sequence of buffer
    allocations and frees, whatever the OS refuses, and with no page locked
    at the start: the calls return (no panic, no endless loop); the table
    holds exactly the pages some live buffer touches, with their number as
    the count; a page is locked (excluded from dumps) at the OS exactly when
    its entry says so, so a page no buffer uses is neither; and every byte
    of a live buffer whose allocation reported success is on a locked page. *)
Theorem page_table_counts_buffers (ops : list buffer_op) (w : W) :
  (forall p, page_locked w p = false /\ page_excluded w p = false) ->
  Forall op_fits ops -> zlen ops < usize_max ->
  exists live s', run_buffer_ops ops [] (∅, w) = (Ok live, s') /\
    (forall p, match s'.1 !! p with
       | Some st => refs st = users live p /\ 1 <= users live p /\
           page_locked s'.2 p = ps_locked st /\ page_excluded s'.2 p = no_dump st
       | None => users live p = 0 /\ page_locked s'.2 p = false /\ page_excluded s'.2 p = false
       end) /\
    (forall addr len x, (addr, len, true) ∈ live -> addr <= x < addr + len ->
       page_locked s'.2 (page_of (W := W) x) = true).
Proof.
  intros Hw Hops Hlen.
  destruct (run_buffer_ops_spec ops [] ∅ w Hops) as (live & s' & E & Hi & Hf & Hok); [done | done | | by intros ? ? ?%not_elem_of_nil |].
  { intros p. cbn [fst snd]. rewrite lookup_empty. split; [done | apply Hw]. }
  exists live, s'. split_and!; [exact E | |].
  - intros p. destruct (Hi p) as (Hp & Hl & He). destruct (s'.1 !! p) as [st |]; cbn in Hl, He; [| by split_and!].
    destruct Hp. split_and!; [done | lia | done..].
  - intros addr len x Hb Hx. apply (Hf _ _ Hb eq_refl), elem_of_pages_of; [cbn; lia | by exists x].
Qed.
End invariant.

(** Whatever the table holds, the calls return; the world moves only by lock
    and dump requests. *)
Section total.
Context {W : Type} `{Os W} (R : W -> W -> Prop) `{!PreOrder R}.
Abbreviation page := (page_size (W := W)).
Context (lock_R : forall p w, R w (lock_pages p page w).2) (unlock_R : forall p w, R w (unlock_pages p page w))
  (exclude_R : forall p w, R w (exclude_from_dumps p page w).2) (include_R : forall p w, R w (include_in_dumps p page w)).

Definition moves {A} (m : M (PageTable * W) A) : Prop := forall s,
  match m s with (Ok _, s') => R s.2 s'.2 | _ => False end.

Lemma moves_bind {A B} (m : M (PageTable * W) A) (k : A -> M (PageTable * W) B) :
  moves m -> (forall a, moves (k a)) -> moves (bind m k).
Proof.
  intros Hm Hk s. specialize (Hm s). unfold bind. destruct (m s) as [[a | e | |] s1]; [| done..].
  specialize (Hk a s1). destruct (k a s1) as [[b | e | |] s2]; [| done..]. by trans s1.2.
Qed.

Lemma moves_ret {A} (a : A) : moves (ret a).
Proof. intros s. cbn. reflexivity. Qed.

Lemma moves_gets {A} (f : PageTable * W -> A) : moves (gets f).
Proof. intros s. cbn. reflexivity. Qed.

Lemma moves_table (f : PageTable -> PageTable) : moves (on_fst (modify f)).
Proof. intros s. cbn. reflexivity. Qed.

Lemma moves_ask {A} (f : W -> A * W) : (forall w, R w (f w).2) -> moves (on_snd (ask f)).
Proof. intros Hf s. specialize (Hf s.2). unfold on_snd, zoom, ask. by destruct (f s.2). Qed.

Lemma moves_tell (f : W -> W) : (forall w, R w (f w)) -> moves (on_snd (modify f)).
Proof. intros Hf s. apply Hf. Qed.

Lemma acquire_page_moves p : moves (acquire_page page p).
Proof.
  unfold acquire_page. repeat (apply moves_bind; [| intros]); try apply moves_gets; try apply moves_table;
    try apply moves_ret; case_match; try apply moves_ret; by apply moves_ask.
Qed.

Lemma release_page_moves p : moves (release_page page p).
Proof.
  unfold release_page. apply moves_bind; [apply moves_gets |]. intros table.
  destruct (table !! p) as [st |]; [| apply moves_ret]. case_match; [| apply moves_table].
  apply moves_bind; [apply moves_table |]. intros _. apply moves_bind; [| intros _];
    case_match; try apply moves_ret; by apply moves_tell.
Qed.

Lemma acquire_loop_moves n : forall a last all,
  0 <= a -> last = a + Z.of_nat n * page -> last <= usize_max -> moves (acquire_loop (S n) page last a all).
Proof.
  induction n as [| n IH]; intros a last all Ha Hl Hm; rewrite acquire_loop_S;
    (apply moves_bind; [apply acquire_page_moves | intros l]).
  - rewrite (proj2 (Z.eqb_eq _ _)) by lia. apply moves_ret.
  - destruct (next_page a n last Ha Hl Hm) as [-> ->]. pose proof (page_size_pos (W := W)). apply IH; lia.
Qed.

Lemma release_loop_moves n : forall a last,
  0 <= a -> last = a + Z.of_nat n * page -> last <= usize_max -> moves (release_loop (S n) page last a).
Proof.
  induction n as [| n IH]; intros a last Ha Hl Hm; rewrite release_loop_S;
    (apply moves_bind; [apply release_page_moves | intros l]).
  - rewrite (proj2 (Z.eqb_eq _ _)) by lia. apply moves_ret.
  - destruct (next_page a n last Ha Hl Hm) as [-> ->]. pose proof (page_size_pos (W := W)). apply IH; lia.
Qed.

Lemma region_moves addr len : buffer_ok (addr, len) ->
  moves (acquire_region addr len) /\ moves (release_region addr len).
Proof.
  intros Hb. unfold acquire_region, release_region. rewrite page_span_eq by done.
  pose proof (page_of_bounds (W := W) (addr + len - 1)). pose proof Hb as (H1' & H2' & H3'). cbn in H1', H2', H3'.
  pose proof (page_of_nonneg (W := W) addr H1') as Hn. pose proof (span_last addr len Hb) as Hl. unfold span_fuel.
  split; [apply acquire_loop_moves | apply release_loop_moves]; done || lia.
Qed.
End total.

(** ** A concrete OS

    The world is the sets of locked and of excluded pages; pages below
    [limit] can be locked, as under a lock limit. *)
Module PageWorld.
Record world := { locked_pages : gset Z; excluded_pages : gset Z; limit : Z }.

Definition set_locked (f : gset Z -> gset Z) (w : world) : world :=
  {| locked_pages := f (locked_pages w); excluded_pages := excluded_pages w; limit := limit w |}.
Definition set_excluded (f : gset Z -> gset Z) (w : world) : world :=
  {| locked_pages := locked_pages w; excluded_pages := f (excluded_pages w); limit := limit w |}.

#[global] Instance os : Os world := {|
  system_page_size := Some 4096;
  lock_survives_no_access := true;
  map_region := fun _ w => (None, w);
  lock_pages := fun p _ w => if p <? limit w then (true, set_locked (union {[p]}) w) else (false, w);
  unlock_pages := fun p _ w => set_locked (fun s => s ∖ {[p]}) w;
  exclude_from_dumps := fun p _ w => (true, set_excluded (union {[p]}) w);
  include_in_dumps := fun p _ w => set_excluded (fun s => s ∖ {[p]}) w;
  protect := fun _ _ _ w => (true, w);
  unmap_region := fun _ _ w => w
|}.

Lemma in_add (s : gset Z) p q : bool_decide (q ∈ {[p]} ∪ s) = bool_decide (q = p) || bool_decide (q ∈ s).
Proof. rewrite <- bool_decide_or. apply bool_decide_ext. set_solver. Qed.

Lemma in_remove (s : gset Z) p q : bool_decide (q ∈ s ∖ {[p]}) = negb (bool_decide (q = p)) && bool_decide (q ∈ s).
Proof. rewrite <- bool_decide_not, <- bool_decide_and. apply bool_decide_ext. set_solver. Qed.

#[global, program] Instance lock_view : LockView world := {|
  page_locked := fun w p => bool_decide (p ∈ locked_pages w);
  page_excluded := fun w p => bool_decide (p ∈ excluded_pages w)
|}.
Next Obligation. intros p w q. cbn. destruct (p <? limit w); cbn; by rewrite ?in_add. Qed.
Next Obligation. intros p w q. cbn. by rewrite in_remove. Qed.
Next Obligation. intros p w q. cbn. by rewrite in_add. Qed.
Next Obligation. intros p w q. cbn. by rewrite in_remove. Qed.
End PageWorld.

(** Two buffers share page 4096; freeing one keeps it, freeing both drops it. *)
Definition demo_buffers : list buffer_op :=
  [AllocBuffer 5000 100; AllocBuffer 8000 300; AllocBuffer 9000000 10; FreeBuffer 2; FreeBuffer 7].

Lemma page_table_counts_buffers_witness :
  exists live s', run_buffer_ops demo_buffers [] (∅, {| PageWorld.locked_pages := ∅;
      PageWorld.excluded_pages := ∅; PageWorld.limit := 100000 |}) = (Ok live, s') /\
    (forall p, match s'.1 !! p with
       | Some st => refs st = users live p /\ 1 <= users live p /\
           page_locked s'.2 p = ps_locked st /\ page_excluded s'.2 p = no_dump st
       | None => users live p = 0 /\ page_locked s'.2 p = false /\ page_excluded s'.2 p = false
       end) /\
    (forall addr len x, (addr, len, true) ∈ live -> addr <= x < addr + len ->
       page_locked s'.2 (page_of (W := PageWorld.world) x) = true).
Proof.
  apply (page_table_counts_buffers demo_buffers).
  - done.
  - unfold demo_buffers. repeat apply List.Forall_cons; try apply List.Forall_nil; done.
  - done.
Defined.

(** The same run, evaluated. *)
Example demo_buffers_run :
  let '(o, s) := run_buffer_ops demo_buffers [] (∅, {| PageWorld.locked_pages := ∅;
      PageWorld.excluded_pages := ∅; PageWorld.limit := 100000 |}) in
  o = Ok [(9000000, 10, false); (8000, 300, true)] /\
  (fun st => (refs st, ps_locked st)) <$> (s.1 !! 4096) = Some (1, true) /\
  (fun st => (refs st, ps_locked st)) <$> (s.1 !! 8192) = Some (1, true).
Proof. vm_compute. done. Qed.

(** ** Without a system

    Elsewhere than on Unix and Windows the calls return all the same, and no
    buffer claims to be locked. *)
Section no_system.
Context {W : Type}.
#[local] Instance no_os : Os W := NoSystem.os.
#[local] Instance no_locks : LockView W.
Proof. by refine {| page_locked := fun _ _ => false; page_excluded := fun _ _ => false |}; intros; cbn; rewrite ?andb_false_r. Defined.

Lemma no_buffer_locked (ops : list buffer_op) (w : W) :
  Forall op_fits ops -> zlen ops < usize_max ->
  exists live s', run_buffer_ops ops [] (∅, w) = (Ok live, s') /\ Forall (fun b => b.2 = false) live.
Proof.
  intros Hops Hlen. destruct (run_buffer_ops_spec ops [] ∅ w Hops) as (live & s' & E & _ & Hf & Hok);
    [done | done | by intros p | by intros ? ? ?%not_elem_of_nil |].
  exists live, s'. split; [exact E |]. apply Forall_forall. intros [[addr len] b] Hb.
  apply not_true_is_false. intros Hbt. cbn in Hbt. subst b.
  eapply Forall_forall in Hok; [| exact Hb]. destruct Hok as (? & ? & _).
  enough (page_locked s'.2 (page_of (W := W) addr) = true) by done.
  apply (Hf _ _ Hb eq_refl), elem_of_pages_of; [done |]. exists addr. cbn in *. split; [lia | done].
Qed.
End no_system.
