(* ===== verification/Pool.v ===== *)
(** * The pool of small locked blocks ([memory/pool.rs])

    Eight free lists, one per block size; [alloc] pops a block, mapping one
    more page when its list is empty; [free] pushes it back.  Each runs under
    the pool's mutex, so a run is a sequence of whole calls. *)

From S2P Require Import Prelude Errors Rust Os AddressSpace.

(** ** Data *)

Definition CLASSES : list Z := [16; 32; 64; 128; 256; 512; 1024; 2048].

(** Address, and whether its page is locked. *)
Abbreviation FreeBlock := (Z * bool)%type.
Abbreviation Pool := (list (list FreeBlock)).

Definition POOL : Pool := replicate (length CLASSES) [].

Record Block := { block_ptr : Z; block_class : Z; block_locked : bool }.

(** ** Operations *)

Section pool.
Context {W : Type} `{Os W}.

(** [&mut pool.free[class]]. *)
Definition on_class {A} (class : nat) (m : M (list FreeBlock * W) A) : M (Pool * W) A := fun s =>
  match s.1 !! class with
  | Some free => let '(o, (free, w)) := m (free, s.2) in (o, (<[class := free]> s.1, w))
  | None => (Panic, s)
  end.

Definition grow (size : Z) : M (list FreeBlock * W) (option unit) :=
  let page := Z.max (page_size (W := W)) size in
  let! base := on_snd (ask (map_region page)) in
  match base with
  | None => ret None
  | Some base =>
      let! locked := on_snd (ask (lock_pages base page)) in
      do! on_snd (ask (exclude_from_dumps base page)) in
      let count := page / size in
      do! for_each (rev (seqZ 0 count)) (fun i =>
        on_fst (modify (fun free => free ++ [(base + i * size, locked)]))) in
      ret (Some tt)
  end.

(** [CLASSES.iter().position(|&size| len <= size)]. *)
Definition class_of (len : Z) : option nat := fst <$> list_find (fun size => len <= size) CLASSES.

(** [Vec::pop]. *)
Definition pop : M (list FreeBlock * W) (option FreeBlock) :=
  let! free := gets fst in
  match last free with
  | Some b => do! on_fst (modify (@removelast FreeBlock)) in ret (Some b)
  | None => ret None
  end.

(** [u8::try_from(class).ok()]. *)
Definition u8_try_from (n : nat) : option Z :=
  if Z.of_nat n <=? 255 then Some (Z.of_nat n) else None.

Definition alloc (len : Z) : M (Pool * W) (option Block) :=
  match class_of len with
  | None => ret None
  | Some class =>
      if len =? 0 then ret None else
      let! grown := on_class class (
        let! free := gets fst in
        match free with
        | [] => grow (default 0 (CLASSES !! class))
        | _ => ret (Some tt)
        end) in
      match grown with
      | None => ret None
      | Some _ =>
          let! popped := on_class class pop in
          ret (popped ≫= fun b => u8_try_from class ≫= fun c =>
               Some {| block_ptr := b.1; block_class := c; block_locked := b.2 |})
      end
  end.

Definition free (block : Block) : M (Pool * W) unit :=
  on_class (Z.to_nat (block_class block)) (on_fst (modify (fun free => free ++ [(block_ptr block, block_locked block)]))).
End pool.

(** ** The blocks of the free lists *)

(** The ranges of a list of blocks of one size. *)
Definition list_ranges (size : Z) (l : list FreeBlock) : list (Z * Z) := (fun b => (b.1, size)) <$> l.

Definition free_ranges (p : Pool) : list (Z * Z) := mjoin (zip_with list_ranges CLASSES p).

Lemma free_ranges_insert_aux (cs : list Z) (p : Pool) class size l :
  cs !! class = Some size -> (class < length p)%nat ->
  mjoin (zip_with list_ranges cs (<[class := l]> p)) ≡ₚ
    list_ranges size l ++ mjoin (zip_with list_ranges cs (<[class := []]> p)).
Proof.
  revert p class. induction cs as [| c cs IH]; intros [| f p] [| class] Hc Hl; cbn in *; try done; try lia.
  - by injection Hc as ->.
  - rewrite (IH p class Hc) by lia. rewrite !app_assoc. apply Permutation_app_tail, Permutation_app_comm.
Qed.

Lemma free_ranges_insert p class size l :
  CLASSES !! class = Some size -> length p = length CLASSES ->
  free_ranges (<[class := l]> p) ≡ₚ list_ranges size l ++ free_ranges (<[class := []]> p).
Proof.
  intros Hc Hl. apply free_ranges_insert_aux; [done |]. apply lookup_lt_Some in Hc. lia.
Qed.

Lemma free_ranges_split p class size l :
  CLASSES !! class = Some size -> length p = length CLASSES -> p !! class = Some l ->
  free_ranges p ≡ₚ list_ranges size l ++ free_ranges (<[class := []]> p).
Proof. intros Hc Hl Hp. rewrite <- (free_ranges_insert p class size l) by done. by rewrite list_insert_id. Qed.

Lemma class_of_spec len class :
  class_of len = Some class -> exists size, CLASSES !! class = Some size /\ len <= size.
Proof.
  unfold class_of. destruct (list_find _ CLASSES) as [[i size] |] eqn:E; [| done]. intros [= <-].
  apply list_find_Some in E as (Hi & Hle & _). by exists size.
Qed.

Lemma classes_size class size : CLASSES !! class = Some size -> 0 < size /\ (class < 8)%nat.
Proof. intros Hc. do 8 (destruct class as [| class]; [injection Hc as <-; split; lia |]). by destruct class. Qed.

(** ** What the operations do *)

Section spec.
Context {W : Type} `{AddressSpace W}.
Implicit Types (w : W) (p : Pool) (live : list (Z * Z)).

(** The pool's free blocks and the ranges in use elsewhere. *)
Record pool_inv live p w : Prop := {
  pi_classes : length p = length CLASSES;
  pi_space : space_inv live (free_ranges p) w;
  pi_nonnull : forall r, r ∈ free_ranges p -> 0 < r.1
}.

Lemma push_blocks base size locked (ids : list Z) (free : list FreeBlock) w :
  for_each ids (fun i => on_fst (modify (fun free => free ++ [(base + i * size, locked)]))) (free, w) =
    (Ok tt, (free ++ ((fun i => (base + i * size, locked)) <$> ids), w)).
Proof.
  revert free. induction ids as [| i ids IH]; intros free; cbn [for_each fmap list_fmap].
  - by rewrite app_nil_r.
  - erewrite bind_ok by done. rewrite IH. by rewrite <- app_assoc.
Qed.

Lemma grow_spec live rest size free w :
  0 < size -> space_inv live (list_ranges size free ++ rest) w ->
  match grow size (free, w) with
  | (Ok None, (free', w')) => free' = free /\ same_memory w w'
  | (Ok (Some _), (free', w')) =>
      space_inv live (list_ranges size free' ++ rest) w' /\ (length free < length free')%nat /\
      (forall r, r ∈ list_ranges size free' -> r ∈ list_ranges size free \/ 0 < r.1) /\
      forall r x, r ∈ live -> within r.1 r.2 x -> cell w' x = cell w x
  | _ => False
  end.
Proof.
  intros Hs Hi. unfold grow. set (page := Z.max page_size size). assert (0 < page) as Hp by lia.
  unfold bind at 1, on_snd at 1, zoom at 1, ask at 1. cbn [fst snd].
  pose proof (fun x => map_region_law page w x Hp) as Hm. destruct (map_region page w) as [[base |] w1]; [| by split].
  unfold bind at 1, on_snd at 1, zoom at 1, ask at 1. cbn [fst snd].
  pose proof (fun x => lock_pages_same base page w1 x) as Hl. destruct (lock_pages base page w1) as [locked w2].
  unfold bind at 1, on_snd at 1, zoom at 1, ask at 1. cbn [fst snd].
  pose proof (fun x => exclude_same base page w2 x) as Hx. destruct (exclude_from_dumps base page w2) as [e w3].
  cbn [snd] in Hl, Hx. assert (same_memory w1 w3) as Hs3 by (by trans w2).
  erewrite bind_ok by apply push_blocks. cbn [ret]. set (count := page / size).
  assert (0 < count) as Hc by (apply Z.div_str_pos; lia).
  assert (count * size <= page) as Hcs by (rewrite Z.mul_comm; by apply Z.mul_div_le).
  set (new := blocks_of base size (Z.to_nat count)).
  assert (list_ranges size ((fun i => (base + i * size, locked)) <$> rev (seqZ 0 count)) ≡ₚ new) as En.
  { unfold new, list_ranges, blocks_of. rewrite <- list_fmap_compose, Z2Nat.id by lia.
    rewrite <- Permutation_rev. done. }
  assert (forall r x, r ∈ new -> within r.1 r.2 x -> within base page x) as Hin.
  { intros r x Hr Hw. pose proof (blocks_of_inside _ _ _ _ _ Hs Hr Hw). unfold within in *. lia. }
  destruct (space_inv_fresh live (list_ranges size free ++ rest) base page new w w1) as [Hf Hk];
    [intros x; destruct (Hm x) as (_ & _ & _ & Hmx); destruct (decide _); intuition | by apply blocks_of_disjoint | done | done |].
  assert (0 < base) as Hb by apply (Hm 0). split_and!.
  - apply (space_inv_same _ _ w1); [done |].
    apply (space_inv_perm live live (new ++ list_ranges size free ++ rest)); [done | |].
    { unfold list_ranges. rewrite fmap_app. fold (list_ranges size free). rewrite <- En, <- app_assoc.
      rewrite (app_assoc _ (list_ranges size free)), (app_assoc (list_ranges size free)).
      apply Permutation_app_tail, Permutation_app_comm. }
    apply space_inv_give_all; [| done]. intros r Hr x Hw. destruct (Hm x) as (_ & _ & _ & Hmx).
    rewrite decide_True in Hmx by by eapply Hin. by destruct Hmx as (_ & _ & [= -> _]).
  - rewrite length_app, length_fmap, length_rev, length_seqZ. lia.
  - intros r. unfold list_ranges. rewrite fmap_app. intros [Hr | Hr]%elem_of_app; [by left | right].
    change (r ∈ list_ranges size ((fun i => (base + i * size, locked)) <$> rev (seqZ 0 count))) in Hr.
    rewrite En in Hr. apply list_elem_of_fmap in Hr as (i & -> & Hi'%elem_of_seqZ). cbn. nia.
  - intros r x Hr Hw. destruct (Hs3 x) as [_ ->]. apply (Hk r); [apply elem_of_app; by left | done].
Qed.

(** Working on one class. *)
Lemma pool_inv_class live p w class size free :
  CLASSES !! class = Some size -> p !! class = Some free -> pool_inv live p w ->
  space_inv live (list_ranges size free ++ free_ranges (<[class := []]> p)) w.
Proof.
  intros Hc Hp [Hl Hs _]. eapply space_inv_perm; [reflexivity | | exact Hs].
  by apply free_ranges_split.
Qed.

Lemma pool_inv_insert live live' p w w' class size free free' :
  CLASSES !! class = Some size -> p !! class = Some free -> pool_inv live p w ->
  (forall r, r ∈ list_ranges size free' -> r ∈ list_ranges size free \/ 0 < r.1) ->
  space_inv live' (list_ranges size free' ++ free_ranges (<[class := []]> p)) w' ->
  pool_inv live' (<[class := free']> p) w'.
Proof.
  intros Hc Hp [Hl Hs Hn] Hnew Hi. split.
  - by rewrite length_insert.
  - eapply space_inv_perm; [reflexivity | | exact Hi]. symmetry. by apply free_ranges_insert.
  - intros r. rewrite (free_ranges_insert p class size free' Hc Hl).
    pose proof (free_ranges_split p class size free Hc Hl Hp) as Es.
    intros [Hr | Hr]%elem_of_app; [destruct (Hnew r Hr) as [Hr' |]; [| done] |];
      apply Hn; rewrite Es; apply elem_of_app; auto.
Qed.

Lemma last_removelast {A} (l : list A) x : last l = Some x -> l = removelast l ++ [x].
Proof.
  intros Hl. apply last_Some in Hl as [l' ->]. by rewrite removelast_last.
Qed.

(** Bytes and protections of the ranges in use elsewhere stay. *)
Definition keeps_live live w w' : Prop := forall r x, r ∈ live -> within r.1 r.2 x -> cell w' x = cell w x.

Lemma same_memory_keeps live w w' : same_memory w w' -> keeps_live live w w'.
Proof. intros Hs r x _ _. apply Hs. Qed.

Lemma on_class_eq {A} class (m : M (list FreeBlock * W) A) p w free :
  p !! class = Some free ->
  on_class class m (p, w) = let '(o, (free', w')) := m (free, w) in (o, (<[class := free']> p, w')).
Proof. intros Hp. unfold on_class. cbn [fst snd]. by rewrite Hp. Qed.

(** The growth step of [alloc]. *)
Lemma alloc_grow_spec live p w class size :
  CLASSES !! class = Some size -> pool_inv live p w ->
  match on_class class (let! free := gets fst in
          match free with [] => grow (default 0 (CLASSES !! class)) | _ => ret (Some tt) end) (p, w) with
  | (Ok None, (p', w')) => pool_inv live p' w' /\ keeps_live live w w'
  | (Ok (Some _), (p', w')) => pool_inv live p' w' /\ keeps_live live w w' /\
      exists free, p' !! class = Some free /\ free <> []
  | _ => False
  end.
Proof.
  intros Hc Hi. pose proof (classes_size _ _ Hc) as [Hs H8]. pose proof (pi_classes _ _ _ Hi) as Hl.
  destruct (lookup_lt_is_Some_2 p class) as [free Hp]; [rewrite Hl; cbn; lia |].
  rewrite (on_class_eq _ _ _ _ free Hp). erewrite bind_ok by done. cbn [fst].
  destruct free as [| b free].
  - rewrite Hc. change (default 0 (Some size)) with size. pose proof (pool_inv_class _ _ _ _ _ _ Hc Hp Hi) as Hsp.
    pose proof (grow_spec live _ size [] w Hs Hsp) as Hg.
    destruct (grow size ([], w)) as [[[u |] | e | |] [free' w']]; [| | done..].
    + destruct Hg as (Hsp' & Hlen & Hn & Hk). split_and!.
      * by eapply pool_inv_insert.
      * intros r x Hr Hx. by apply (Hk r).
      * exists free'. split; [apply list_lookup_insert_eq; rewrite Hl; cbn; lia | intros ->; cbn in Hlen; lia].
    + destruct Hg as [-> Hm]. split; [| by apply same_memory_keeps].
      eapply pool_inv_insert; [done | done | done | by left |]. by eapply space_inv_same.
  - cbn [ret]. rewrite list_insert_id by done. split_and!; [done | done |]. by exists (b :: free).
Qed.

Lemma alloc_spec live p w len :
  pool_inv live p w -> 0 <= len ->
  match alloc len (p, w) with
  | (Ok None, (p', w')) => pool_inv live p' w' /\ keeps_live live w w'
  | (Ok (Some b), (p', w')) => keeps_live live w w' /\ exists size,
      0 <= block_class b /\ CLASSES !! Z.to_nat (block_class b) = Some size /\ 0 < len <= size /\
      0 < block_ptr b /\ all_zeros w' (block_ptr b) size /\
      pool_inv ((block_ptr b, size) :: live) p' w'
  | _ => False
  end.
Proof.
  intros Hi Hlen. unfold alloc. destruct (class_of len) as [class |] eqn:Ec; [| by split].
  apply class_of_spec in Ec as (size & Hc & Hle). case_test; tests; [by split |].
  pose proof (classes_size _ _ Hc) as [Hs H8]. pose proof (alloc_grow_spec live p w class size Hc Hi) as Hg.
  unfold bind at 1. destruct (on_class class _ (p, w)) as [[[u |] | e | |] [p1 w1]]; [| done..].
  destruct Hg as (Hi1 & Hk & free & Hp & Hne). unfold bind at 1. rewrite (on_class_eq _ _ _ _ free Hp).
  unfold pop. erewrite bind_ok by done. cbn [fst].
  destruct (last free) as [[addr locked] |] eqn:El; [| by apply last_None in El].
  erewrite bind_ok by done. cbn [fst snd ret mbind option_bind]. unfold u8_try_from.
  rewrite (proj2 (Z.leb_le _ _)) by lia. cbn. rewrite Nat2Z.id.
  pose proof (pool_inv_class _ _ _ _ _ _ Hc Hp Hi1) as Hsp. apply last_removelast in El.
  assert (list_ranges size free ≡ₚ (addr, size) :: list_ranges size (removelast free)) as Er.
  { rewrite El at 1. unfold list_ranges. rewrite fmap_app. cbn. by rewrite Permutation_app_comm. }
  assert (forall r, r ∈ list_ranges size (removelast free) -> r ∈ list_ranges size free) as Hsub
    by (intros r Hr; rewrite Er; by right).
  split; [done |]. exists size. split_and!; [lia | done | lia | done | | |].
  - apply (pi_nonnull _ _ _ Hi1 (addr, size)). rewrite (free_ranges_split _ _ _ _ Hc (pi_classes _ _ _ Hi1) Hp).
    rewrite Er. by left.
  - apply (si_zero _ _ _ Hsp (addr, size)). rewrite Er. by left.
  - eapply pool_inv_insert; [exact Hc | exact Hp | exact Hi1 | by intros r ?%Hsub; left |].
    apply space_inv_take. eapply space_inv_perm; [reflexivity | | exact Hsp]. by rewrite Er.
Qed.

Lemma free_spec live p w b size :
  0 <= block_class b -> CLASSES !! Z.to_nat (block_class b) = Some size -> 0 < block_ptr b ->
  all_zeros w (block_ptr b) size ->
  pool_inv ((block_ptr b, size) :: live) p w ->
  exists p', free b (p, w) = (Ok tt, (p', w)) /\ pool_inv live p' w.
Proof.
  intros Hb Hc Hn Hz Hi. pose proof (classes_size _ _ Hc) as [Hs H8]. pose proof (pi_classes _ _ _ Hi) as Hl.
  destruct (lookup_lt_is_Some_2 p (Z.to_nat (block_class b))) as [l Hp]; [rewrite Hl; cbn; lia |].
  unfold free. rewrite (on_class_eq _ _ _ _ l Hp). eexists. split; [reflexivity |].
  pose proof (pool_inv_class _ _ _ _ _ _ Hc Hp Hi) as Hsp.
  assert (list_ranges size (l ++ [(block_ptr b, block_locked b)]) ≡ₚ (block_ptr b, size) :: list_ranges size l) as Er.
  { unfold list_ranges. rewrite fmap_app. cbn. by rewrite Permutation_app_comm. }
  eapply pool_inv_insert; [exact Hc | exact Hp | exact Hi | |].
  - intros r. rewrite Er. intros [-> | Hr]%elem_of_cons; [by right | by left].
  - apply (space_inv_perm live live ((block_ptr b, size) :: list_ranges size l ++
      free_ranges (<[Z.to_nat (block_class b) := []]> p))); [done | by rewrite Er | by apply space_inv_give].
Qed.
End spec.
