(* ===== verification/LockedBytes.v ===== *)
(** * Locked buffers ([memory/mod.rs], [LockedBytes])

    A buffer of key bytes: a block of the pool when it is small, else a heap
    allocation whose pages are referenced through the page table, else a view
    into a page-protected region ([Guarded]).  Dropping one wipes it. *)

From S2P Require Import Prelude Errors Rust Format Os AddressSpace Pages Pool.

(** ** Data *)

Inductive Storage := Heap | Pooled (class : Z) | RegionView.

Record LockedBytes := { lb_ptr : Z; lb_len : Z; lb_storage : Storage; lb_locked : bool }.

(** The process's memory state: the pool, the page table, the world. *)
Record MemState (W : Type) := { ms_pool : Pool; ms_pages : PageTable; ms_world : W }.
Arguments ms_pool {W}.
Arguments ms_pages {W}.
Arguments ms_world {W}.

(** ** Operations *)

Section locked.
Context {W : Type} `{Os W, Memory W}.

Definition on_pool {A} (m : M (Pool * W) A) : M (MemState W) A :=
  zoom (fun s => (ms_pool s, ms_world s))
    (fun pw s => {| ms_pool := pw.1; ms_pages := ms_pages s; ms_world := pw.2 |}) m.
Definition on_pages {A} (m : M (PageTable * W) A) : M (MemState W) A :=
  zoom (fun s => (ms_pages s, ms_world s))
    (fun tw s => {| ms_pool := ms_pool s; ms_pages := tw.1; ms_world := tw.2 |}) m.
Definition on_mem {A} (m : M W A) : M (MemState W) A :=
  zoom ms_world (fun w s => {| ms_pool := ms_pool s; ms_pages := ms_pages s; ms_world := w |}) m.

(** [Box::from(bytes)]; an empty box does not allocate.  Exhausted memory
    aborts the process; [Panic] stands for that. *)
Definition DANGLING : Z := 1.
Definition box_from (bytes : list byte) : M W Z :=
  if zlen bytes =? 0 then ret DANGLING else
  let! ptr := ask (box_alloc (zlen bytes)) in
  match ptr with
  | Some ptr => do! modify (poke ptr bytes) in ret ptr
  | None => panic
  end.

Definition from_slice (bytes : list byte) : M (MemState W) LockedBytes :=
  let! block := on_pool (alloc (zlen bytes)) in
  match block with
  | Some block =>
      do! on_mem (modify (poke (block_ptr block) bytes)) in
      ret {| lb_ptr := block_ptr block; lb_len := zlen bytes;
             lb_storage := Pooled (block_class block); lb_locked := block_locked block |}
  | None =>
      let! ptr := on_mem (box_from bytes) in
      let len := zlen bytes in
      let! locked := if len =? 0 then ret false else on_pages (acquire_region ptr len) in
      ret {| lb_ptr := ptr; lb_len := len; lb_storage := Heap; lb_locked := locked |}
  end.

Definition region_view (ptr len : Z) (locked : bool) : LockedBytes :=
  {| lb_ptr := ptr; lb_len := len; lb_storage := RegionView; lb_locked := locked |}.

(** [Debug]. *)
Definition fmt (b : LockedBytes) : string :=
  debug_struct_open "LockedBytes" [
    ("len", pretty (lb_len b)); ("locked", debug_bool (lb_locked b)); ("bytes", debug_str "<redacted>")].

Definition as_bytes (b : LockedBytes) (w : W) : list byte :=
  (fun i => peek w (lb_ptr b + i)) <$> seqZ 0 (lb_len b).

(** [Drop for LockedBytes]. *)
Definition drop (b : LockedBytes) : M (MemState W) unit :=
  match lb_storage b with
  | RegionView => ret tt
  | Pooled class =>
      do! on_mem (modify (poke (lb_ptr b) (zeros (lb_len b)))) in
      on_pool (free {| block_ptr := lb_ptr b; block_class := class; block_locked := lb_locked b |})
  | Heap =>
      do! (if 0 <? lb_len b then
             do! on_mem (modify (poke (lb_ptr b) (zeros (lb_len b)))) in
             on_pages (release_region (lb_ptr b) (lb_len b))
           else ret tt) in
      if lb_len b =? 0 then ret tt else on_mem (modify (box_free (lb_ptr b) (lb_len b)))
  end.

(** [ScratchBuf], the scratch of builds without [std]: one per call. *)
Record ScratchBuf := { sb_ptr : Z; sb_len : Z }.

Definition scratch_new (len : Z) : M (MemState W) ScratchBuf :=
  let! ptr := on_mem (box_from (zeros len)) in
  do! (if 0 <? len then do! on_pages (acquire_region ptr len) in ret tt else ret tt) in
  ret {| sb_ptr := ptr; sb_len := len |}.

Definition scratch_drop (b : ScratchBuf) : M (MemState W) unit :=
  do! on_mem (modify (poke (sb_ptr b) (zeros (sb_len b)))) in
  do! (if sb_len b =? 0 then ret tt else on_pages (release_region (sb_ptr b) (sb_len b))) in
  if sb_len b =? 0 then ret tt else on_mem (modify (box_free (sb_ptr b) (sb_len b))).
End locked.

(** ** Live buffers *)

Section live.
Context {W : Type} `{AddressSpace W}.
Implicit Types (s : MemState W) (w : W).

(** A live buffer and the bytes it was made from. *)
Abbreviation buffer := (LockedBytes * list byte)%type.

(** The range a buffer occupies: the whole block for a pooled one. *)
Definition extent (b : LockedBytes) : list (Z * Z) :=
  match lb_storage b with
  | Heap => if lb_len b =? 0 then [] else [(lb_ptr b, lb_len b)]
  | Pooled class => [(lb_ptr b, default 0 (CLASSES !! Z.to_nat class))]
  | RegionView => []
  end.

Definition extents (live : list buffer) : list (Z * Z) := live ≫= fun b => extent b.1.

Record buffer_inv w (b : buffer) : Prop := {
  bi_len : lb_len b.1 = zlen b.2;
  bi_holds : holds_bytes w (lb_ptr b.1) b.2;
  bi_storage :
    match lb_storage b.1 with
    | Heap => lb_len b.1 <> 0 -> 0 < lb_ptr b.1 /\ buffer_ok (lb_ptr b.1, lb_len b.1)
    | Pooled class => 0 <= class /\ 0 < lb_ptr b.1 /\ exists size, CLASSES !! Z.to_nat class = Some size /\
        lb_len b.1 <= size /\ all_zeros w (lb_ptr b.1 + lb_len b.1) (size - lb_len b.1)
    | RegionView => False
    end
}.

(** [others] are ranges the process uses besides: mappings. *)
Record mem_inv (others : list (Z * Z)) (live : list buffer) s : Prop := {
  mi_pool : pool_inv (extents live ++ others) (ms_pool s) (ms_world s);
  mi_buffers : Forall (buffer_inv (ms_world s)) live
}.

(** A buffer's bytes are inside its extent. *)
Lemma buffer_extent w b : buffer_inv w b -> lb_len b.1 <> 0 ->
  exists n, extent b.1 = [(lb_ptr b.1, n)] /\ lb_len b.1 <= n.
Proof.
  intros [_ _ Hs] Hne. unfold extent. destruct (lb_storage b.1) as [| class |].
  - exists (lb_len b.1). by rewrite (proj2 (Z.eqb_neq _ _)).
  - destruct Hs as (_ & _ & size & Hc & Hle & _). exists size. by rewrite Hc.
  - done.
Qed.

(** Buffers survive what leaves their extents alone. *)
Lemma buffer_inv_keep w w' b :
  (forall r x, r ∈ extent b.1 -> within r.1 r.2 x -> peek w' x = peek w x) ->
  buffer_inv w b -> buffer_inv w' b.
Proof.
  intros Hk Hb. pose proof Hb as [Hl Hh Hs]. split; [done | |].
  - destruct (decide (lb_len b.1 = 0)) as [E | Hne].
    + rewrite Hl in E. apply zlen_0_inv in E. rewrite E. by intros i x.
    + destruct (buffer_extent w b Hb Hne) as (n & En & Hn). eapply holds_bytes_agree; [| done].
      intros x Hx. apply (Hk (lb_ptr b.1, n)); [rewrite En; by left |]. unfold within in *. cbn. lia.
  - unfold extent in Hk. destruct (lb_storage b.1) as [| class |]; [done | | done].
    destruct Hs as (H1' & H2' & size & Hc & Hle & Hz). split_and!; [done | done |].
    exists size. split_and!; [done | done |]. eapply all_zeros_agree; [| done].
    intros x Hx. apply (Hk (lb_ptr b.1, size)); [rewrite Hc; by left |].
    pose proof (zlen_nonneg b.2). unfold within in *. cbn. lia.
Qed.

Lemma buffers_keep w w' live :
  keeps_live (extents live) w w' -> Forall (buffer_inv w) live -> Forall (buffer_inv w') live.
Proof.
  intros Hk Hf. apply Forall_forall. intros b Hb. eapply buffer_inv_keep; [| by eapply Forall_forall].
  intros r x Hr Hx. apply cell_peek, (Hk r); [| done]. apply list_elem_of_bind. by exists b.
Qed.

(** What a caller reads through a live buffer. *)
Lemma as_bytes_eq w b : buffer_inv w b -> as_bytes b.1 w = b.2.
Proof.
  intros [Hl Hh _]. apply list_eq. intros i. unfold as_bytes. rewrite list_lookup_fmap, Hl.
  destruct (decide (i < length b.2)%nat) as [Hi |].
  - rewrite lookup_seqZ_lt by (unfold zlen; lia). destruct (lookup_lt_is_Some_2 _ _ Hi) as [x Hx].
    rewrite Hx. cbn. f_equal. by apply Hh.
  - rewrite lookup_seqZ_ge, lookup_ge_None_2 by (unfold zlen; lia). done.
Qed.

(** The pool beside a change of the world. *)
Lemma pool_inv_world live live' p w w' :
  (space_inv live (free_ranges p) w -> space_inv live' (free_ranges p) w') -> pool_inv live p w -> pool_inv live' p w'.
Proof. intros Hs []. split; auto. Qed.

Lemma mem_inv_same others live s s' :
  ms_pool s' = ms_pool s -> same_memory (ms_world s) (ms_world s') -> mem_inv others live s -> mem_inv others live s'.
Proof.
  intros Ep Hs [Hp Hb]. split; [rewrite Ep |].
  - eapply pool_inv_world; [| exact Hp]. by apply space_inv_same.
  - eapply buffers_keep; [| exact Hb]. by apply same_memory_keeps.
Qed.

Lemma mem_inv_perm others others' live live' s :
  others ≡ₚ others' -> live ≡ₚ live' -> mem_inv others live s -> mem_inv others' live' s.
Proof.
  intros Eo E [Hp Hb]. split.
  - eapply pool_inv_world; [| exact Hp]. apply space_inv_perm; [| done]. unfold extents. by rewrite E, Eo.
  - by rewrite <- E.
Qed.

(** A range alone. *)
Lemma range_disjoint r : disjoint_ranges [r].
Proof. apply disjoint_ranges_cons. split; [by intros ? ? ?%not_elem_of_nil | constructor]. Qed.

Lemma range_inside a n r x : r ∈ [(a, n)] -> within r.1 r.2 x -> within a n x.
Proof. by intros ->%list_elem_of_singleton. Qed.

(** Page requests do not touch memory. *)
Lemma on_pages_region addr len s : buffer_ok (addr, len) ->
  (exists l s', on_pages (acquire_region addr len) s = (Ok l, s') /\
     ms_pool s' = ms_pool s /\ same_memory (ms_world s) (ms_world s')) /\
  (exists s', on_pages (release_region addr len) s = (Ok tt, s') /\
     ms_pool s' = ms_pool s /\ same_memory (ms_world s) (ms_world s')).
Proof.
  intros Hb. destruct (region_moves (W := W) same_memory (fun p w x => lock_pages_same p _ w x)
    (fun p w x => unlock_pages_same p _ w x) (fun p w x => exclude_same p _ w x)
    (fun p w x => include_same p _ w x) addr len Hb) as [Ha Hr].
  specialize (Ha (ms_pages s, ms_world s)). specialize (Hr (ms_pages s, ms_world s)). unfold on_pages, zoom. split.
  - destruct (acquire_region addr len _) as [[l | e | |] [t w]]; [| done..]. by eexists _, _.
  - destruct (release_region addr len _) as [[[] | e | |] [t w]]; [| done..]. by eexists.
Qed.

(** The world a refused heap request left.  A state says only so much about
    the past; but the theorems hold over every address space, among them those
    whose heap records what it refuses, where this says that a request of the
    run was refused ([StorageTheorems.exhausted_was_refused]). *)
Definition exhausted s : Prop := exists n w, 0 < n /\ box_alloc n w = (None, ms_world s).

Lemma box_from_eq bytes p t w ptr w2 :
  zlen bytes <> 0 -> box_alloc (zlen bytes) w = (Some ptr, w2) ->
  on_mem (box_from bytes) {| ms_pool := p; ms_pages := t; ms_world := w |} =
    (Ok ptr, {| ms_pool := p; ms_pages := t; ms_world := poke ptr bytes w2 |}).
Proof.
  intros Hn E. unfold on_mem, box_from, zoom. cbn [ms_world]. rewrite (proj2 (Z.eqb_neq _ _)) by done.
  by erewrite bind_ok by (unfold ask; by rewrite E).
Qed.

Lemma keeps_live_app l k w w' : keeps_live (l ++ k) w w' <-> keeps_live l w w' /\ keeps_live k w w'.
Proof.
  unfold keeps_live. setoid_rewrite elem_of_app. split; [intros Hk; split; intros; eapply Hk; eauto |].
  intros [Hl Hk] r x [Hr | Hr]; eauto.
Qed.

Lemma keeps_live_trans l w w' w'' : keeps_live l w w' -> keeps_live l w' w'' -> keeps_live l w w''.
Proof. intros H1' H2' r x Hr Hx. rewrite (H2' r) by done. by apply (H1' r). Qed.

(** Writing a range that meets none of [l]. *)
Lemma poke_keeps l a bs w :
  (forall r x, r ∈ l -> within r.1 r.2 x -> ~ within a (zlen bs) x) -> keeps_live l w (poke a bs w).
Proof. intros Ha r x Hr Hx. by apply poke_other, (Ha r x). Qed.

Lemma pool_inv_apart live p w r r' x :
  pool_inv (r :: live) p w -> r' ∈ live -> within r'.1 r'.2 x -> ~ within r.1 r.2 x.
Proof.
  intros Hp Hr Hx Hx'. eapply (space_inv_apart _ _ r r' x _ (pi_space _ _ _ Hp)); [| done..].
  apply elem_of_app. by left.
Qed.

(** A buffer in a block the pool handed out. *)
Lemma block_buffer others live s bytes b size p w t :
  Forall (buffer_inv (ms_world s)) live -> keeps_live (extents live ++ others) (ms_world s) w ->
  0 <= block_class b -> CLASSES !! Z.to_nat (block_class b) = Some size -> zlen bytes <= size ->
  0 < block_ptr b -> all_zeros w (block_ptr b) size ->
  pool_inv ((block_ptr b, size) :: extents live ++ others) p w ->
  let w' := poke (block_ptr b) bytes w in
  mem_inv others (({| lb_ptr := block_ptr b; lb_len := zlen bytes; lb_storage := Pooled (block_class b);
                      lb_locked := block_locked b |}, bytes) :: live)
    {| ms_pool := p; ms_pages := t; ms_world := w' |} /\ keeps_live others (ms_world s) w'.
Proof.
  intros Hb Hk Hc0 Hc Hle Hptr Hz Hp w'.
  assert (forall x, within (block_ptr b) (zlen bytes) x -> within (block_ptr b) size x) as Hin
    by (unfold within; intros; lia).
  assert (keeps_live (extents live ++ others) (ms_world s) w') as [Hk1 Hk2]%keeps_live_app.
  { eapply keeps_live_trans; [exact Hk |]. apply poke_keeps. intros r x Hr Hx Hx'.
    by eapply (pool_inv_apart _ _ _ (block_ptr b, size)), Hin. }
  split; [| done]. split; cbn [ms_pool ms_world].
  - unfold extents. cbn [extent lb_storage lb_ptr]. cbn. rewrite Hc. cbn. eapply pool_inv_world; [| exact Hp].
    by apply space_inv_poke.
  - constructor; [| by eapply buffers_keep]. split; cbn; [done | apply poke_holds |].
    split_and!; [done | done |]. exists size. split_and!; [done | done |].
    intros x Hx. unfold w'. rewrite (cell_peek w) by (apply poke_other; unfold within in *; lia). apply Hz.
    unfold within in *. pose proof (zlen_nonneg bytes). lia.
Qed.

(** A buffer on the heap. *)
Lemma heap_buffer others live s bytes ptr p w w2 t locked :
  Forall (buffer_inv (ms_world s)) live -> keeps_live (extents live ++ others) (ms_world s) w ->
  pool_inv (extents live ++ others) p w -> zlen bytes <> 0 -> box_alloc (zlen bytes) w = (Some ptr, w2) ->
  let w' := poke ptr bytes w2 in
  buffer_ok (ptr, zlen bytes) /\
  mem_inv others (({| lb_ptr := ptr; lb_len := zlen bytes; lb_storage := Heap; lb_locked := locked |}, bytes) :: live)
    {| ms_pool := p; ms_pages := t; ms_world := w' |} /\ keeps_live others (ms_world s) w'.
Proof.
  intros Hb Hk Hp Hne Ebox w'. pose proof (zlen_nonneg bytes) as Hn.
  assert (forall x, 0 < ptr /\ ptr + zlen bytes - 1 <= usize_max /\ if decide (within ptr (zlen bytes) x)
    then ~ owned w x /\ owned w2 x else (owned w2 x <-> owned w x) /\ (owned w x -> cell w2 x = cell w x)) as Hl.
  { intros x. pose proof (box_alloc_law (zlen bytes) w x ltac:(lia)) as Hl. by rewrite Ebox in Hl. }
  destruct (space_inv_fresh _ _ ptr (zlen bytes) [(ptr, zlen bytes)] w w2
    (fun x => proj2 (proj2 (Hl x))) (range_disjoint _) (range_inside _ _) (pi_space _ _ _ Hp)) as [Hsp Hk2].
  assert (0 < ptr /\ ptr + zlen bytes - 1 <= usize_max) as [Hp0 Hpm] by (destruct (Hl 0); tauto).
  assert (pool_inv ((ptr, zlen bytes) :: extents live ++ others) p w2) as Hp2 by by (eapply pool_inv_world; [| exact Hp]).
  assert (keeps_live (extents live ++ others) (ms_world s) w') as [Hk3 Hk4]%keeps_live_app.
  { eapply keeps_live_trans; [exact Hk |]. eapply keeps_live_trans;
      [intros r x Hr Hx; apply (Hk2 r); [apply elem_of_app; by left | done] |].
    apply poke_keeps. intros r x Hr Hx. by eapply (pool_inv_apart _ _ _ (ptr, zlen bytes)). }
  assert (buffer_ok (ptr, zlen bytes)) as Hok by (split_and!; cbn; lia).
  split_and!; [done.. | | done]. split; cbn [ms_pool ms_world].
  - unfold extents. cbn. rewrite (proj2 (Z.eqb_neq _ _)) by done. cbn.
    eapply pool_inv_world; [| exact Hp2]. by apply space_inv_poke.
  - constructor; [| by eapply buffers_keep]. split; cbn; [done | apply poke_holds | done].
Qed.

Lemma from_slice_spec others live s bytes : mem_inv others live s ->
  match from_slice bytes s with
  | (Ok b, s') => mem_inv others ((b, bytes) :: live) s' /\ keeps_live others (ms_world s) (ms_world s')
  | (Panic, s') => exhausted s'
  | _ => False
  end.
Proof.
  intros [Hp Hb]. pose proof (zlen_nonneg bytes) as Hn. unfold from_slice, bind at 1, on_pool, zoom.
  pose proof (alloc_spec _ _ _ (zlen bytes) Hp Hn) as Ha.
  destruct (alloc (zlen bytes) (ms_pool s, ms_world s)) as [[[block |] | e | |] [p1 w1]]; [| | done..].
  { destruct Ha as (Hk & size & Hc0 & Hc & Hle & Hptr & Hz & Hp1). erewrite bind_ok by done. cbn [ret fst snd].
    by apply (block_buffer _ _ _ _ _ size); try lia. }
  destruct Ha as [Hp1 Hk]. destruct (zlen bytes =? 0) eqn:E0; tests.
  { apply zlen_0_inv in E0. subst bytes. cbn -[extents]. apply keeps_live_app in Hk as [Hk1 Hk2]. split; [| done].
    split; cbn [ms_pool ms_world]; [by unfold extents |].
    constructor; [split; cbn; [done | by intros i x | done] | by eapply buffers_keep]. }
  destruct (box_alloc (zlen bytes) w1) as [[ptr |] w2] eqn:Ebox.
  2: { unfold bind, on_mem, zoom, box_from. cbn [ms_world fst snd]. rewrite (proj2 (Z.eqb_neq _ _)) by done.
    unfold bind, ask. cbn [ms_world fst snd]. rewrite Ebox. cbn. exists (zlen bytes), w1. split; [lia | done]. }
  rewrite (bind_ok _ _ _ _ _ (box_from_eq _ _ _ _ _ _ E0 Ebox)). cbn [fst snd].
  set (s2 := {| ms_pool := p1; ms_pages := ms_pages s; ms_world := poke ptr bytes w2 |}).
  destruct (heap_buffer others live s bytes ptr p1 w1 w2 (ms_pages s) false Hb Hk Hp1 E0 Ebox) as (Hok & _).
  destruct (proj1 (on_pages_region ptr (zlen bytes) s2 Hok)) as (l & s3 & E & Ep & Hs3).
  rewrite (bind_ok _ _ _ _ _ E). cbn [ret].
  destruct (heap_buffer others live s bytes ptr p1 w1 w2 (ms_pages s) l Hb Hk Hp1 E0 Ebox) as (_ & Hi & Hk').
  split; [by eapply mem_inv_same |]. eapply keeps_live_trans; [exact Hk' |]. by apply same_memory_keeps.
Qed.

(** Dropping a live buffer: it is wiped, and everything else stays. *)
Lemma drop_heap others live s b bs : mem_inv others ((b, bs) :: live) s ->
  lb_storage b = Heap -> lb_len b <> 0 ->
  exists s' w1, drop b s = (Ok tt, s') /\ mem_inv others live s' /\ keeps_live others (ms_world s) (ms_world s') /\
    all_zeros w1 (lb_ptr b) (lb_len b) /\ ms_world s' = box_free (lb_ptr b) (lb_len b) w1.
Proof.
  intros [Hp [Hb Hlive]%Forall_cons] Est Hne. pose proof Hb as [Hlen _ Hst]. cbn in Hlen, Hst.
  pose proof (zlen_nonneg bs) as Hn. unfold drop. unfold extents in Hp. cbn in Hp. fold (extents live) in Hp.
  unfold extent in *. rewrite Est in *. rewrite (proj2 (Z.eqb_neq _ _)) in * by done. cbn in Hp. specialize (Hst Hne) as [_ Hst].
  rewrite (proj2 (Z.ltb_lt _ _)) by lia.
  set (w1 := poke (lb_ptr b) (zeros (lb_len b)) (ms_world s)).
  set (s1 := {| ms_pool := ms_pool s; ms_pages := ms_pages s; ms_world := w1 |}).
  destruct (proj2 (on_pages_region (lb_ptr b) (lb_len b) s1 Hst)) as (s2 & E & Ep & Hs2).
  assert (zlen (zeros (lb_len b)) = lb_len b) as Hz by (apply zlen_zeros; lia).
  erewrite bind_ok by (erewrite bind_ok by done; exact E).
  assert (space_inv ((lb_ptr b, lb_len b) :: extents live ++ others) (free_ranges (ms_pool s)) (ms_world s2)) as Hsp.
  { eapply space_inv_same; [exact Hs2 |]. apply space_inv_poke; [by rewrite Hz | apply Hp]. }
  destruct (space_inv_free _ _ (lb_ptr b, lb_len b) _ _ (box_free_law (lb_ptr b) (lb_len b) (ms_world s2)) Hsp) as [Hsp' Hk].
  assert (keeps_live (extents live ++ others) (ms_world s) (box_free (lb_ptr b) (lb_len b) (ms_world s2)))
    as [Hk1 Hk2]%keeps_live_app.
  { intros r x Hr Hx. rewrite (Hk r) by (done || (apply elem_of_app; by left)). destruct (Hs2 x) as [_ ->].
    cbn [s1 ms_world]. unfold w1. rewrite poke_other; [done |]. rewrite Hz.
    by eapply (pool_inv_apart _ _ _ (lb_ptr b, lb_len b)). }
  eexists _, (ms_world s2). split_and!; [reflexivity | | done | | done].
  - split; cbn [ms_pool ms_world]; [| by eapply buffers_keep]. rewrite Ep. by eapply pool_inv_world; [| exact Hp].
  - intros x Hx. destruct (Hs2 x) as [_ ->%cell_peek]. cbn [s1 ms_world]. by apply poke_zeros; [lia |].
Qed.

Lemma drop_pooled others live s b bs class : mem_inv others ((b, bs) :: live) s -> lb_storage b = Pooled class ->
  exists s', drop b s = (Ok tt, s') /\ mem_inv others live s' /\ keeps_live others (ms_world s) (ms_world s') /\
    forall r, r ∈ extent b -> all_zeros (ms_world s') r.1 r.2.
Proof.
  intros [Hp [Hb Hlive]%Forall_cons] Est. pose proof Hb as [Hlen _ Hst]. cbn in Hlen, Hst.
  pose proof (zlen_nonneg bs) as Hn. unfold drop. unfold extents in Hp. cbn in Hp. fold (extents live) in Hp.
  unfold extent in *. rewrite Est in *.
  destruct Hst as (Hc0 & Hptr & size & Hc & Hle & Hrest). rewrite Hc in Hp. cbn in Hp.
  set (w1 := poke (lb_ptr b) (zeros (lb_len b)) (ms_world s)).
  assert (zlen (zeros (lb_len b)) = lb_len b) as Hz by (apply zlen_zeros; lia).
  assert (all_zeros w1 (lb_ptr b) size) as Hzero.
  { intros x Hx. destruct (decide (within (lb_ptr b) (lb_len b) x)) as [Hin | Hin].
    - by apply poke_zeros; [lia |].
    - unfold w1. rewrite (cell_peek (ms_world s)) by (apply poke_other; by rewrite Hz). apply Hrest. unfold within in *. lia. }
  assert (pool_inv ((lb_ptr b, size) :: extents live ++ others) (ms_pool s) w1) as Hp1.
  { eapply pool_inv_world; [| exact Hp]. apply space_inv_poke. rewrite Hz. unfold within. cbn. lia. }
  assert (keeps_live (extents live ++ others) (ms_world s) w1) as [Hk1 Hk2]%keeps_live_app.
  { apply poke_keeps. rewrite Hz. intros r x Hr Hx Hx'.
    eapply (pool_inv_apart _ _ _ (lb_ptr b, size)); [exact Hp | exact Hr | exact Hx |].
    unfold within in *. cbn. lia. }
  destruct (free_spec (extents live ++ others) (ms_pool s) w1
    {| block_ptr := lb_ptr b; block_class := class; block_locked := lb_locked b |} size) as (p2 & E & Hp2); [done.. |].
  erewrite bind_ok by done. unfold on_pool, zoom. cbn [ms_pool ms_pages ms_world]. fold w1.
  setoid_rewrite E. eexists. split; [reflexivity |]. split_and!; [| done |].
  - split; [exact Hp2 |]. cbn [ms_world]. by eapply buffers_keep.
  - intros r Hr. rewrite Hc in Hr. apply list_elem_of_singleton in Hr as ->. exact Hzero.
Qed.

Lemma drop_spec others live s b bs : mem_inv others ((b, bs) :: live) s ->
  exists s', drop b s = (Ok tt, s') /\ mem_inv others live s' /\ keeps_live others (ms_world s) (ms_world s') /\
    match lb_storage b with
    | Heap => lb_len b <> 0 -> exists w1, all_zeros w1 (lb_ptr b) (lb_len b) /\
        ms_world s' = box_free (lb_ptr b) (lb_len b) w1
    | _ => forall r, r ∈ extent b -> all_zeros (ms_world s') r.1 r.2
    end.
Proof.
  intros Hi. destruct (lb_storage b) as [| class |] eqn:Est.
  - destruct (decide (lb_len b = 0)) as [E0 | Hne].
    + destruct Hi as [Hp [_ Hlive]%Forall_cons]. exists s. unfold drop. rewrite Est, E0. cbn.
      split_and!; [done | | done | done]. split; [| done]. unfold extents in Hp. cbn in Hp.
      unfold extent in Hp at 1. by rewrite Est, E0 in Hp.
    + destruct (drop_heap _ _ _ _ _ Hi Est Hne) as (s' & w1 & ? & ? & ? & ? & ?). exists s'.
      split_and!; [done.. |]. intros _. by exists w1.
  - destruct (drop_pooled _ _ _ _ _ _ Hi Est) as (s' & ? & ? & ? & ?). by exists s'.
  - pose proof (mi_buffers _ _ _ Hi) as [[_ _ Hst] _]%Forall_cons. cbn in Hst. by rewrite Est in Hst.
Qed.

(** ** Programs of buffers *)

Inductive buffer_step := NewBuffer (bytes : list byte) | DropBuffer (i : nat).

Definition run_buffer_step (op : buffer_step) (live : list buffer) : M (MemState W) (list buffer) :=
  match op with
  | NewBuffer bytes => let! b := from_slice bytes in ret ((b, bytes) :: live)
  | DropBuffer i =>
      match live !! i with
      | Some (b, _) => do! drop b in ret (delete i live)
      | None => ret live
      end
  end.

Fixpoint run_buffer_steps (ops : list buffer_step) (live : list buffer) : M (MemState W) (list buffer) :=
  match ops with
  | [] => ret live
  | op :: ops' => let! live := run_buffer_step op live in run_buffer_steps ops' live
  end.

(** The same program on plain byte strings. *)
Definition plain_step (op : buffer_step) (live : list (list byte)) : list (list byte) :=
  match op with NewBuffer bytes => bytes :: live | DropBuffer i => delete i live end.
Definition plain_steps (ops : list buffer_step) (live : list (list byte)) : list (list byte) :=
  foldl (fun l op => plain_step op l) live ops.

Lemma fmap_delete {A B} (f : A -> B) (l : list A) i : f <$> delete i l = delete i (f <$> l).
Proof. revert i. induction l as [| x l IH]; intros [| i]; cbn; [done.. |]. f_equal. apply IH. Qed.

Lemma delete_none {A} (l : list A) i : l !! i = None -> delete i l = l.
Proof. revert i. induction l as [| x l IH]; intros [| i] Hi; cbn; [done.. |]. f_equal. by apply IH. Qed.

Lemma run_buffer_step_spec op live s : mem_inv [] live s ->
  match run_buffer_step op live s with
  | (Ok live', s') => mem_inv [] live' s' /\ snd <$> live' = plain_step op (snd <$> live)
  | (Panic, s') => exhausted s'
  | _ => False
  end.
Proof.
  intros Hi. destruct op as [bytes | i]; cbn [run_buffer_step plain_step].
  - pose proof (from_slice_spec [] live s bytes Hi) as Hs. unfold bind.
    destruct (from_slice bytes s) as [[b | e | |] s']; [| done..]. by destruct Hs.
  - destruct (live !! i) as [[b bs] |] eqn:Ei.
    + pose proof (delete_Permutation _ _ _ Ei) as Ep.
      destruct (drop_spec [] (delete i live) s b bs) as (s' & E & Hi' & _); [by eapply mem_inv_perm |].
      rewrite (bind_ok _ _ _ _ _ E). split; [done | apply fmap_delete].
    + split; [done |]. by rewrite delete_none by (by rewrite list_lookup_fmap, Ei).
Qed.

Lemma run_buffer_steps_spec ops : forall live s, mem_inv [] live s ->
  match run_buffer_steps ops live s with
  | (Ok live', s') => mem_inv [] live' s' /\ snd <$> live' = plain_steps ops (snd <$> live)
  | (Panic, s') => exhausted s'
  | _ => False
  end.
Proof.
  induction ops as [| op ops IH]; intros live s Hi; [done |]. cbn [run_buffer_steps]. unfold bind, plain_steps.
  pose proof (run_buffer_step_spec op live s Hi) as Hs.
  destruct (run_buffer_step op live s) as [[l1 | e | |] s1]; [| done..]. destruct Hs as [Hi1 E]. cbn [foldl].
  rewrite <- E. by apply IH.
Qed.

(** A process that has no buffer yet. *)
Definition fresh_memory (w : W) : MemState W := {| ms_pool := POOL; ms_pages := PAGES; ms_world := w |}.

Lemma fresh_memory_inv w : mem_inv [] [] (fresh_memory w).
Proof.
  split; [| constructor]. split; [done | | by intros r ?%not_elem_of_nil].
  split; [constructor | by intros r x ?%not_elem_of_nil | by intros r ?%not_elem_of_nil].
Qed.

(** Locked buffers are separate and faithful.  After any sequence of
    buffer creations (of any length, through pool or heap) and drops, from a
    fresh process, whatever the OS refuses: the live buffers are those of
    the plain program; each reads back exactly the bytes it was made from;
    no two buffers and no free pool block share a byte; and every free pool
    block is zero, so a dropped key leaves nothing in the pool.  The only
    failure is a heap that is exhausted. *)
Theorem locked_buffers_isolated (ops : list buffer_step) (w : W) :
  match run_buffer_steps ops [] (fresh_memory w) with
  | (Ok live, s') =>
      (fun b => as_bytes b.1 (ms_world s')) <$> live = plain_steps ops [] /\
      disjoint_ranges (extents live ++ free_ranges (ms_pool s')) /\
      (forall r, r ∈ free_ranges (ms_pool s') -> all_zeros (ms_world s') r.1 r.2)
  | (Panic, s') => exhausted s'
  | _ => False
  end.
Proof.
  pose proof (run_buffer_steps_spec ops [] _ (fresh_memory_inv w)) as Hs.
  destruct (run_buffer_steps ops [] (fresh_memory w)) as [[live | e | |] s']; [| done..].
  destruct Hs as [[Hp Hb] E]. rewrite app_nil_r in Hp. cbn in E. split_and!; [| apply (pi_space _ _ _ Hp).. ].
  rewrite <- E. apply list_fmap_ext. intros i b Hi. apply as_bytes_eq. by eapply Forall_lookup_1.
Qed.

(** C37: Dropping wipes first.  Dropping a live buffer returns; a pooled
    block is zero to its last byte when it is back on the free list; a heap
    buffer is given back to the allocator from a state in which all its
    bytes are zero; every other live buffer keeps its bytes. *)
Theorem drop_wipes (others : list (Z * Z)) (live : list buffer) s b bs :
  mem_inv others ((b, bs) :: live) s ->
  exists s', drop b s = (Ok tt, s') /\
    match lb_storage b with
    | Heap => lb_len b <> 0 -> exists w1, all_zeros w1 (lb_ptr b) (lb_len b) /\
        ms_world s' = box_free (lb_ptr b) (lb_len b) w1
    | Pooled class => exists size, CLASSES !! Z.to_nat class = Some size /\ lb_len b <= size /\
        all_zeros (ms_world s') (lb_ptr b) size
    | RegionView => False
    end /\
    forall b', b' ∈ live -> as_bytes b'.1 (ms_world s') = b'.2.
Proof.
  intros Hi. destruct (drop_spec others live s b bs Hi) as (s' & E & [_ Hb] & _ & Hz). exists s'. split; [done |].
  split; [| intros b' Hb'; apply as_bytes_eq; by eapply Forall_forall].
  pose proof (mi_buffers _ _ _ Hi) as [[_ _ Hst] _]%Forall_cons. cbn in Hst. unfold extent in Hz.
  destruct (lb_storage b) as [| class |]; [done | | done].
  destruct Hst as (_ & _ & size & Hc & Hle & _). exists size. split_and!; [done | done |].
  apply (Hz (lb_ptr b, size)). rewrite Hc. by left.
Qed.
End live.

(** ** Witnesses *)

Definition demo_step : list buffer_step :=
  [NewBuffer [Byte.x01; Byte.x02]; NewBuffer (replicate 20 Byte.xff); DropBuffer 1; NewBuffer [Byte.x09]].

Example demo_steps_run :
  let '(o, s) := run_buffer_steps demo_step [] (fresh_memory Ram.start) in
  match o with
  | Ok live => (fun b => as_bytes b.1 (ms_world s)) <$> live = [[Byte.x09]; replicate 20 Byte.xff]
  | _ => False
  end.
Proof. vm_compute. done. Qed.

Definition demo_heap_state : MemState Ram.world :=
  snd (run_buffer_step (NewBuffer (replicate 3000 Byte.xaa)) [] (fresh_memory Ram.start)).
Definition demo_heap_buffer : LockedBytes :=
  {| lb_ptr := 4096; lb_len := 3000; lb_storage := Heap; lb_locked := true |}.

Lemma demo_heap_inv : mem_inv [] [(demo_heap_buffer, replicate 3000 Byte.xaa)] demo_heap_state.
Proof.
  pose proof (run_buffer_step_spec (NewBuffer (replicate 3000 Byte.xaa)) [] _ (fresh_memory_inv Ram.start)) as Hs.
  unfold demo_heap_state. destruct (run_buffer_step _ [] _) as [o s'] eqn:E.
  assert (o = Ok [(demo_heap_buffer, replicate 3000 Byte.xaa)]) as ->.
  { change o with (o, s').1. rewrite <- E. vm_compute. reflexivity. }
  apply Hs.
Defined.

Lemma drop_wipes_witness :
  exists s', drop demo_heap_buffer demo_heap_state = (Ok tt, s') /\
    (3000 <> 0 -> exists w1, all_zeros w1 4096 3000 /\ ms_world s' = box_free 4096 3000 w1) /\
    forall b' : LockedBytes * list byte, b' ∈ [] -> as_bytes b'.1 (ms_world s') = b'.2.
Proof. exact (drop_wipes [] [] demo_heap_state demo_heap_buffer (replicate 3000 Byte.xaa) demo_heap_inv). Defined.
