(* ===== verification/Storage.v ===== *)
(** * Fragments in one address space ([fragment/mod.rs], [memory/guarded.rs])

    [Fragment] and [Guarded] take buffers and regions as their contents.
    Here they are what the source makes of them: chunks are locked buffers
    ([LockedBytes]) or views into a mapping, every byte is in the one address
    space the pool, the heap and the mappings share, and reading or writing
    memory whose protection forbids it is a fault ([Panic]).  The pool and
    the heap are never protected, so only views check.  [StorageRefines]
    shows that nothing is lost by the abstraction. *)

From S2P Require Import Prelude Errors Rust RawKey Fragment Os Guarded AddressSpace Pages Pool LockedBytes.

(** [struct GuardedRegion]: its bytes and their protection are the world's. *)
Record MappedRegion := {
  mr_ptr : Z;
  mr_map_len : Z;
  mr_len : Z;
  mr_locked : bool;
  mr_no_dump : bool;
  mr_readers : Z
}.

Definition set_mr_readers (n : Z) (r : MappedRegion) : MappedRegion :=
  {| mr_ptr := mr_ptr r; mr_map_len := mr_map_len r; mr_len := mr_len r;
     mr_locked := mr_locked r; mr_no_dump := mr_no_dump r; mr_readers := n |}.

(** [struct Store] and [struct Fragments]. *)
Record Stored := {
  st_chunks : list LockedBytes;
  st_layout : LockedBytes;
  st_region : option MappedRegion;
  st_start : Z;
  st_total : Z
}.

Definition set_region (r : MappedRegion) (self : Stored) : Stored :=
  {| st_chunks := st_chunks self; st_layout := st_layout self; st_region := Some r;
     st_start := st_start self; st_total := st_total self |}.

(** ** Operations *)

Section storage.
Context {W : Type} `{Os W, Memory W}.

(** Loads and stores, as the processor allows them. *)
Definition readable (w : W) (a n : Z) : bool := forallb (fun x => is_readable (access w x)) (seqZ a n).
Definition writable (w : W) (a n : Z) : bool :=
  forallb (fun x => bool_decide (access w x = AccessReadWrite)) (seqZ a n).

Definition load (b : LockedBytes) : M W (list byte) := fun w =>
  if readable w (lb_ptr b) (lb_len b) then (Ok (as_bytes b w), w) else (Panic, w).
Definition store_bytes (a : Z) (bs : list byte) : M W unit := fun w =>
  if writable w a (zlen bs) then (Ok tt, poke a bs w) else (Panic, w).

(** [LockedBytes::as_bytes]. *)
Definition read_buffer (b : LockedBytes) : M W (list byte) :=
  match lb_storage b with RegionView => load b | _ => gets (as_bytes b) end.

(** [GuardedRegion::new]. *)
Definition mapped_new (len : Z) : M W MappedRegion :=
  let! map_len := ok_or (checked_next_multiple_of (Z.max len 1) (page_size (W := W))) size_overflow in
  let! raw := ask (map_region map_len) in
  let! ptr := ok_or raw map_failed in
  let! locked := if lock_survives_no_access then ask (lock_pages ptr map_len) else ret false in
  let! no_dump := ask (exclude_from_dumps ptr map_len) in
  ret {| mr_ptr := ptr; mr_map_len := map_len; mr_len := len; mr_locked := locked;
         mr_no_dump := no_dump; mr_readers := 0 |}.

(** [bytes_mut()[at..at + bytes.len()].copy_from_slice(bytes)]. *)
Definition region_store (r : MappedRegion) (at_ : Z) (bytes : list byte) : M W unit :=
  if (0 <=? at_) && (at_ + zlen bytes <=? mr_len r) then store_bytes (mr_ptr r + at_) bytes else panic.

(** [GuardedRegion::seal]. *)
Definition mapped_seal (r : MappedRegion) : M W unit :=
  let! granted := ask (protect (mr_ptr r) (mr_map_len r) AccessNone) in
  if granted then ret tt else fail seal_failed.

(** [GuardedRegion::open]. *)
Definition mapped_open (r : MappedRegion) : M W MappedRegion :=
  let! granted := if mr_readers r =? 0 then ask (protect (mr_ptr r) (mr_map_len r) AccessRead) else ret true in
  if granted then ret (set_mr_readers (mr_readers r + 1) r) else fail open_failed.

(** [Drop for RegionAccess]. *)
Definition mapped_close (r : MappedRegion) : M W MappedRegion :=
  let r := set_mr_readers (mr_readers r - 1) r in
  do! (if mr_readers r =? 0 then
         do! ask (protect (mr_ptr r) (mr_map_len r) AccessNone) in ret tt
       else ret tt) in
  ret r.

(** [Drop for GuardedRegion]. *)
Definition mapped_drop (r : MappedRegion) : M W unit :=
  let! granted := ask (protect (mr_ptr r) (mr_map_len r) AccessReadWrite) in
  do! (if granted then store_bytes (mr_ptr r) (zeros (mr_map_len r)) else ret tt) in
  do! (if mr_no_dump r then modify (include_in_dumps (mr_ptr r) (mr_map_len r)) else ret tt) in
  do! (if mr_locked r then modify (unlock_pages (mr_ptr r) (mr_map_len r)) else ret tt) in
  modify (unmap_region (mr_ptr r) (mr_map_len r)).

(** [Fragments::from_chunks]. *)
Definition store_chunks_in (chunks : list (list byte)) (layout : list byte) (total_len : Z) : M (MemState W) Stored :=
  let! chunks := map_m from_slice chunks in
  let! layout := from_slice layout in
  ret {| st_chunks := chunks; st_layout := layout; st_region := None; st_start := 0; st_total := total_len |}.

(** [Fragments::layout_bytes]. *)
Definition stored_layout (self : Stored) : M W (list byte) :=
  let! layout := read_buffer (st_layout self) in
  ret (if st_start self <=? zlen layout then skipn (Z.to_nat (st_start self)) layout else []).

(** The copy loop of [into_protected], and its views. *)
Fixpoint copy_buffers (region : MappedRegion) (at_ : Z) (buffers : list LockedBytes) : M W Z :=
  match buffers with
  | [] => ret at_
  | chunk :: buffers' =>
      let! bytes := read_buffer chunk in
      do! region_store region at_ bytes in
      copy_buffers region (at_ + zlen bytes) buffers'
  end.

Fixpoint region_views (region : MappedRegion) (at_ : Z) (sizes : list Z) : list LockedBytes :=
  match sizes with
  | [] => []
  | n :: sizes' => region_view (mr_ptr region + at_) n (mr_locked region) :: region_views region (at_ + n) sizes'
  end.

(** [Fragments::into_protected], up to the drop of [self]. *)
Definition move_to_region (self : Stored) : M (MemState W) Stored :=
  let! layout := on_mem (stored_layout self) in
  let sizes := lb_len <$> st_chunks self in
  let! total := ok_or (checked_sum (zlen layout) sizes) storage_overflow in
  let! region := on_mem (mapped_new total) in
  let! at_ := on_mem (copy_buffers region 0 (st_chunks self)) in
  do! on_mem (region_store region at_ layout) in
  let chunks := region_views region 0 sizes in
  let layout := region_view (mr_ptr region + zsum sizes) (zlen layout) (mr_locked region) in
  let! sealed := try_ (on_mem (mapped_seal region)) in
  match sealed with
  | inl _ => ret {| st_chunks := chunks; st_layout := layout; st_region := Some region;
                    st_start := 0; st_total := st_total self |}
  | inr e => do! on_mem (mapped_drop region) in fail e
  end.

(** The drop of a [Fragments] that is the last handle: its fields in order. *)
Definition stored_drop (self : Stored) : M (MemState W) unit :=
  do! for_each (st_chunks self) drop in
  do! drop (st_layout self) in
  match st_region self with Some r => on_mem (mapped_drop r) | None => ret tt end.

Definition stored_protect (self : Stored) : M (MemState W) Stored :=
  let! moved := try_ (move_to_region self) in
  do! stored_drop self in
  match moved with inl p => ret p | inr e => fail e end.

(** [Fragments::open], and the drop of the guard it returned. *)
Definition stored_open (self : Stored) : M (MemState W) Stored :=
  match st_region self with
  | None => ret self
  | Some r => let! r := on_mem (mapped_open r) in ret (set_region r self)
  end.

Definition stored_close (self : Stored) : M (MemState W) Stored :=
  match st_region self with
  | None => ret self
  | Some r => let! r := on_mem (mapped_close r) in ret (set_region r self)
  end.

(** What a strategy reads of a [Fragments]: every chunk and the layout. *)
Definition stored_read (self : Stored) : M W (list (list byte) * list byte) :=
  let! chunks := map_m read_buffer (st_chunks self) in
  let! layout := stored_layout self in
  ret (chunks, layout).
End storage.

(** ** The interface

    What the vault does with stored fragments. *)
Class FragmentStore (S F : Type) := {
  store_new : list (list byte) -> list byte -> Z -> M S F;
  store_protect : F -> M S F;
  store_open : F -> M S F;
  store_read : F -> M S (list (list byte) * list byte);
  store_close : F -> M S F;
  store_drop : F -> M S unit;
  store_protected : F -> bool
}.

#[export] Instance memory_store {W} `{Os W, Memory W} : FragmentStore (MemState W) Stored := {|
  store_new := store_chunks_in;
  store_protect := stored_protect;
  store_open := stored_open;
  store_read := fun f => on_mem (stored_read f);
  store_close := stored_close;
  store_drop := stored_drop;
  store_protected := fun f => bool_decide (is_Some (st_region f))
|}.

(** The same by [Fragment] and [Guarded]: dropping a key's last handle drops
    its region. *)
Definition regions_drop {V} `{Os V} (f : Fragments) : M (Regions * V) unit := fun st =>
  match store_region (store f) with
  | None => (Ok tt, st)
  | Some id =>
      match table st.1 !! id with
      | Some r => (Ok tt, ({| table := delete id (table st.1); next_region := next_region st.1 |}, (region_drop r st.2).2))
      | None => (Panic, st)
      end
  end.

Definition regions_read {V} (f : Fragments) : M (Regions * V) (list (list byte) * list byte) :=
  let! regions := gets fst in
  if fragments_readable f regions then ret (chunks f, layout_bytes f) else panic.

#[export] Instance regions_store {V} `{Os V} : FragmentStore (Regions * V) Fragments := {|
  store_new := fun chunks layout total_len => ret (from_chunks chunks layout total_len);
  store_protect := into_protected;
  store_open := fun f => do! fragments_open f in ret f;
  store_read := regions_read;
  store_close := fun f => do! modify (fragments_close f) in ret f;
  store_drop := regions_drop;
  store_protected := fun f => bool_decide (is_Some (store_region (store f)))
|}.

(** Programs over the interface.  A slot is a value and its live guards; what
    Rust's borrows exclude (dropping or moving under a guard, reading
    protected fragments without one) is skipped. *)
Inductive store_op :=
| OpNew (chunks : list (list byte)) (layout : list byte) (total_len : Z)
| OpProtect (i : nat) | OpOpen (i : nat) | OpRead (i : nat) | OpClose (i : nat) | OpDrop (i : nat).

Inductive store_event := Done | Skipped | Refused (e : Error.t) | Bytes (chunks : list (list byte)) (layout : list byte).

Section programs.
Context {S F : Type} `{FragmentStore S F}.
Abbreviation slots := (list (F * Z)).

Definition run_store_op (op : store_op) (l : slots) : M S (slots * store_event) :=
  match op with
  | OpNew chunks layout total_len =>
      let! f := store_new chunks layout total_len in ret ((f, 0) :: l, Done)
  | OpProtect i =>
      match l !! i with
      | Some (f, guards) =>
          if store_protected f || (0 <? guards) then ret (l, Skipped) else
          let! r := try_ (store_protect f) in
          ret (match r with inl p => (<[i := (p, 0)]> l, Done) | inr e => (delete i l, Refused e) end)
      | None => ret (l, Skipped)
      end
  | OpOpen i =>
      match l !! i with
      | Some (f, guards) =>
          let! r := try_ (store_open f) in
          ret (match r with inl f => (<[i := (f, guards + 1)]> l, Done) | inr e => (l, Refused e) end)
      | None => ret (l, Skipped)
      end
  | OpRead i =>
      match l !! i with
      | Some (f, guards) =>
          if store_protected f && (guards =? 0) then ret (l, Skipped) else
          let! b := store_read f in ret (l, Bytes b.1 b.2)
      | None => ret (l, Skipped)
      end
  | OpClose i =>
      match l !! i with
      | Some (f, guards) =>
          if guards =? 0 then ret (l, Skipped) else
          let! f := store_close f in ret (<[i := (f, guards - 1)]> l, Done)
      | None => ret (l, Skipped)
      end
  | OpDrop i =>
      match l !! i with
      | Some (f, guards) =>
          if 0 <? guards then ret (l, Skipped) else
          do! store_drop f in ret (delete i l, Done)
      | None => ret (l, Skipped)
      end
  end.

Fixpoint run_store (ops : list store_op) (l : slots) : M S (slots * list store_event) :=
  match ops with
  | [] => ret (l, [])
  | op :: ops' =>
      let! r := run_store_op op l in
      let! r' := run_store ops' r.1 in
      ret (r'.1, r.2 :: r'.2)
  end.
End programs.

(** ** An operating system that answers from a list

    The abstract regions run on some system; this one gives the answers it
    is told. *)
Inductive reply := Mapped (base : option Z) | Granted (b : bool).

Definition next_flag (l : list reply) : bool * list reply :=
  match l with Granted b :: l' => (b, l') | _ => (false, l) end.
Definition next_mapping (l : list reply) : option Z * list reply :=
  match l with Mapped o :: l' => (o, l') | _ => (None, l) end.

(** It has the page size and the kind of the system [W]. *)
Definition scripted_os {W} `{Os W} : Os (list reply) := {|
  system_page_size := system_page_size (W := W);
  lock_survives_no_access := lock_survives_no_access (W := W);
  map_region := fun _ => next_mapping;
  lock_pages := fun _ _ => next_flag;
  unlock_pages := fun _ _ l => l;
  exclude_from_dumps := fun _ _ => next_flag;
  include_in_dumps := fun _ _ l => l;
  protect := fun _ _ _ => next_flag;
  unmap_region := fun _ _ l => l
|}.
