(* ===== verification/StorageRefines.v ===== *)
(** * The address space refines the regions

    What [Storage] does in memory, [Guarded] and [Fragment] do with values:
    the same results, the same errors, the same bytes read, for some answers
    of the abstract operating system. *)

From S2P Require Import Prelude Errors Rust RawKey Fragment Os Guarded AddressSpace Pages Pool LockedBytes Storage.

Section mappings.
Context {W : Type} `{AddressSpace W}.
Implicit Types (s : MemState W) (w : W) (live : list (LockedBytes * list byte)) (others : list (Z * Z)) (m : MappedRegion).

Definition with_world w s : MemState W := {| ms_pool := ms_pool s; ms_pages := ms_pages s; ms_world := w |}.

Lemma with_world_id s : with_world (ms_world s) s = s.
Proof. by destruct s. Qed.

Lemma on_mem_eq {A} (c : M W A) s o w : c (ms_world s) = (o, w) -> on_mem c s = (o, with_world w s).
Proof. unfold on_mem, zoom. by intros ->. Qed.

(** The mapping's own range. *)
Definition mr_range m : Z * Z := (mr_ptr m, mr_map_len m).

(** Steps that change nothing but one range. *)
Definition only_at (r : Z * Z) w w' : Prop :=
  forall x, (owned w' x <-> owned w x) /\ (~ within r.1 r.2 x -> cell w' x = cell w x).

Lemma only_at_step r others live s w' :
  mem_inv (r :: others) live s -> only_at r (ms_world s) w' ->
  mem_inv (r :: others) live (with_world w' s) /\ keeps_live (extents live ++ others) (ms_world s) w'.
Proof.
  intros [Hp Hb] Ho. assert (r :: extents live ++ others ≡ₚ extents live ++ r :: others) as Ep by apply Permutation_middle.
  assert (pool_inv (r :: extents live ++ others) (ms_pool s) (ms_world s)) as Hp1.
  { eapply pool_inv_world; [| exact Hp]. by apply space_inv_perm. }
  assert (forall r' x, r' ∈ (extents live ++ others) ++ free_ranges (ms_pool s) -> within r'.1 r'.2 x ->
    cell w' x = cell (ms_world s) x) as Hk.
  { intros r' x Hr' Hx. apply Ho. intros Hx'. by eapply (space_inv_apart _ _ r r' x _ (pi_space _ _ _ Hp1)). }
  assert (keeps_live (extents live ++ others) (ms_world s) w') as Hk'
    by (intros r' x Hr'; apply (Hk r'), elem_of_app; by left).
  split; [| done]. split; cbn [with_world ms_pool ms_world].
  - eapply pool_inv_world; [| exact Hp1]. intros [Hd Hw Hz]. split.
    + by rewrite <- Ep.
    + intros r' x Hr' Hx. apply Ho, (Hw r'); [| done]. by rewrite Ep.
    + intros r' Hr' x Hx. rewrite (cell_peek (ms_world s)); [by apply (Hz r') |].
      apply (Hk r'); [apply elem_of_app; by right | done].
  - apply keeps_live_app in Hk' as [Hk' _]. by eapply buffers_keep.
Qed.

Lemma only_at_poke a bs r w : (forall x, within a (zlen bs) x -> within r.1 r.2 x) -> only_at r w (poke a bs w).
Proof.
  intros Hin x. destruct (poke_law a bs w x) as (? & _ & _). split; [done |]. intros Hx. apply poke_other. auto.
Qed.

Lemma only_at_protect p n new w : whole_pages (W := W) p n -> only_at (p, n) w (protect p n new w).2.
Proof.
  intros Hw x. pose proof (protect_law p n new w x Hw) as Hl. destruct (protect p n new w) as [g w'].
  destruct Hl as (? & Hpk & _ & Ha). split; [done |]. cbn. intros Hx. rewrite decide_False in Ha by done.
  unfold cell. by rewrite Hpk, Ha.
Qed.

Lemma only_at_same r w w' : same_memory w w' -> only_at r w w'.
Proof. intros Hs x. destruct (Hs x). done. Qed.

(** Every byte of the mapping has this protection. *)
Definition mapped_as (a : Access) m w : Prop := forall x, within (mr_ptr m) (mr_map_len m) x -> access w x = a.

Lemma forallb_seqZ (f : Z -> bool) a n : (forall x, within a n x -> f x = true) -> forallb f (seqZ a n) = true.
Proof. intros Hf. apply forallb_forall. intros x Hx%list_elem_of_In%elem_of_seqZ. by apply Hf. Qed.

Lemma load_ok b bs w :
  lb_len b = zlen bs -> holds_bytes w (lb_ptr b) bs ->
  (forall x, within (lb_ptr b) (lb_len b) x -> access w x <> AccessNone) -> load b w = (Ok bs, w).
Proof.
  intros Hl Hh Ha. unfold load, readable. rewrite forallb_seqZ.
  - f_equal. f_equal. apply list_eq. intros i. unfold as_bytes. rewrite list_lookup_fmap, Hl.
    destruct (decide (i < length bs)%nat) as [Hi |].
    + rewrite lookup_seqZ_lt by (unfold zlen; lia). destruct (lookup_lt_is_Some_2 _ _ Hi) as [x Hx].
      rewrite Hx. cbn. f_equal. by apply Hh.
    + rewrite lookup_seqZ_ge, lookup_ge_None_2 by (unfold zlen; lia). done.
  - intros x Hx. specialize (Ha x Hx). by destruct (access w x).
Qed.

Lemma store_bytes_ok a bs w :
  (forall x, within a (zlen bs) x -> access w x = AccessReadWrite) -> store_bytes a bs w = (Ok tt, poke a bs w).
Proof.
  intros Ha. unfold store_bytes, writable. rewrite forallb_seqZ; [done |].
  intros x Hx. by apply bool_decide_true, Ha.
Qed.

Lemma holds_bytes_app w a bs cs :
  holds_bytes w a (bs ++ cs) <-> holds_bytes w a bs /\ holds_bytes w (a + zlen bs) cs.
Proof.
  unfold holds_bytes. split.
  - intros Hh. split; intros i b Hi; [by apply Hh, lookup_app_l_Some |].
    rewrite <- Z.add_assoc. unfold zlen. rewrite <- Nat2Z.inj_add. apply Hh. rewrite lookup_app_r by lia. rewrite <- Hi. f_equal. lia.
  - intros [Hb Hc] i b [Hi | [Hl Hi]]%lookup_app_Some; [by apply Hb |].
    specialize (Hc _ _ Hi). rewrite <- Hc. f_equal. unfold zlen. lia.
Qed.

(** ** New mappings *)

Record fresh_mapping (len : Z) m w : Prop := {
  fm_pages : whole_pages (W := W) (mr_ptr m) (mr_map_len m);
  fm_len : mr_len m = len;
  fm_fits : len <= mr_map_len m;
  fm_readers : mr_readers m = 0;
  fm_access : mapped_as AccessReadWrite m w
}.

Lemma next_multiple_pages n page k : 0 < page -> checked_next_multiple_of n page = Some k -> (page | k).
Proof.
  intros Hp. unfold checked_next_multiple_of, checked_add. pose proof (Z.div_mod n page ltac:(lia)) as Hd.
  case_match; [| case_match; [| done]]; tests; intros [= <-]; [exists (n / page) | exists (n / page + 1)]; lia.
Qed.

(** A mapping that was granted, in the process's memory. *)
Lemma granted_mapping others live s base n w w' :
  mem_inv others live s -> 0 < n -> map_region n (ms_world s) = (Some base, w) -> same_memory w w' ->
  mem_inv ((base, n) :: others) live (with_world w' s) /\ keeps_live others (ms_world s) w' /\
  (page_size (W := W) | base) /\ forall x, within base n x -> access w' x = AccessReadWrite.
Proof.
  intros [Hp Hb] Hn Em Hs.
  assert (forall x, (page_size (W := W) | base) /\ if decide (within base n x)
    then ~ owned (ms_world s) x /\ owned w x /\ cell w x = (Byte.x00, AccessReadWrite)
    else (owned w x <-> owned (ms_world s) x) /\ (owned (ms_world s) x -> cell w x = cell (ms_world s) x)) as Hl.
  { intros x. pose proof (map_region_law n (ms_world s) x Hn) as Hl. rewrite Em in Hl. tauto. }
  destruct (space_inv_fresh (extents live ++ others) (free_ranges (ms_pool s)) base n [(base, n)] (ms_world s) w)
    as [Hsp Hk]; [| apply range_disjoint | apply range_inside | apply Hp |].
  { intros x. destruct (Hl x) as [_ Hx]. destruct (decide _); tauto. }
  assert (keeps_live (extents live ++ others) (ms_world s) w') as [Hk1 Hk2]%keeps_live_app.
  { intros r x Hr Hx. destruct (Hs x) as [_ ->]. apply (Hk r); [apply elem_of_app; by left | done]. }
  split_and!; [| done | apply (Hl 0) |].
  - split; [| by eapply buffers_keep]. cbn [with_world ms_pool ms_world].
    eapply pool_inv_world; [| exact Hp]. intros _. eapply space_inv_same; [exact Hs |].
    eapply (space_inv_perm ((base, n) :: extents live ++ others)); [| reflexivity | exact Hsp].
    apply Permutation_middle.
  - intros x Hx. destruct (Hl x) as [_ Hx']. rewrite decide_True in Hx' by done.
    destruct Hx' as (_ & _ & [= _ <-]). by destruct (Hs x) as [_ [= _ ->]].
Qed.
End mappings.

(** ** Filling a mapping *)

Section filling.
Context {W : Type} `{AddressSpace W}.
Implicit Types (s : MemState W) (w : W) (live : list (LockedBytes * list byte)) (others : list (Z * Z)) (m : MappedRegion).

(** A mapping that is being filled: writable, [done] written so far. *)
Record filling others live m (done : list byte) s w : Prop := {
  fi_mem : mem_inv (mr_range m :: others) live (with_world w s);
  fi_keeps : keeps_live others (ms_world s) w;
  fi_access : mapped_as AccessReadWrite m w;
  fi_done : holds_bytes w (mr_ptr m) done
}.

Lemma region_store_fills others live m done bytes s w :
  filling others live m done s w -> zlen done + zlen bytes <= mr_len m -> mr_len m <= mr_map_len m ->
  exists w', region_store m (zlen done) bytes w = (Ok tt, w') /\ filling others live m (done ++ bytes) s w'.
Proof.
  intros [Hm Hk Ha Hd] Hle Hmap. pose proof (zlen_nonneg done). pose proof (zlen_nonneg bytes).
  unfold region_store. rewrite !(proj2 (Z.leb_le _ _)) by lia. cbn [andb].
  assert (forall x, within (mr_ptr m + zlen done) (zlen bytes) x -> within (mr_ptr m) (mr_map_len m) x) as Hin
    by (unfold within; lia).
  rewrite store_bytes_ok by (intros x Hx; by apply Ha, Hin). eexists. split; [reflexivity |].
  destruct (only_at_step _ _ _ _ (poke (mr_ptr m + zlen done) bytes w) Hm (only_at_poke _ _ (mr_range m) w Hin)) as [Hm' Hk'].
  apply keeps_live_app in Hk' as [_ Hk']. split.
  - exact Hm'.
  - by eapply keeps_live_trans.
  - intros x Hx. destruct (poke_law (mr_ptr m + zlen done) bytes w x) as (_ & _ & ->). by apply Ha.
  - apply holds_bytes_app. split; [| apply poke_holds]. eapply holds_bytes_agree; [| exact Hd].
    intros x Hx. apply cell_peek, poke_other. unfold within in *. lia.
Qed.

(** Reading a buffer of the pool or the heap. *)
Lemma read_live others live s b bs w : mem_inv others live (with_world w s) -> (b, bs) ∈ live -> read_buffer b w = (Ok bs, w).
Proof.
  intros [_ Hb] Hin. eapply Forall_forall in Hb; [| exact Hin]. cbn in Hb. pose proof (as_bytes_eq _ _ Hb) as E.
  cbn in E. unfold read_buffer. destruct Hb as [_ _ Hst]. cbn in Hst. destruct (lb_storage b); [| | done]; unfold gets; by rewrite E.
Qed.

Lemma copy_buffers_fills others live m s bufs cs : Forall2 (fun b bs => (b, bs) ∈ live) bufs cs ->
  mr_len m <= mr_map_len m -> forall done w,
  filling others live m done s w -> zlen done + zlen (concat cs) <= mr_len m ->
  exists w', copy_buffers m (zlen done) bufs w = (Ok (zlen done + zlen (concat cs)), w') /\
    filling others live m (done ++ concat cs) s w'.
Proof.
  intros Hf Hmap. induction Hf as [| b bs bufs cs Hb Hf IH]; intros done w Hi Hle; cbn [copy_buffers concat] in *.
  { exists w. rewrite app_nil_r, Z.add_0_r. by split. }
  rewrite zlen_app in *. pose proof (zlen_nonneg (concat cs)).
  erewrite bind_ok by (eapply read_live; [apply Hi | exact Hb]).
  destruct (region_store_fills _ _ _ _ bs _ _ Hi) as (w1 & E1 & Hi1); [lia | done |].
  erewrite bind_ok by exact E1. destruct (IH (done ++ bs) w1 Hi1) as (w2 & E2 & Hi2); [rewrite zlen_app; lia |].
  rewrite zlen_app, <- Z.add_assoc in E2. rewrite app_assoc. by exists w2.
Qed.

(** The views of [bss], one after the other. *)
Definition view_of m w (b : LockedBytes) (bs : list byte) : Prop :=
  lb_storage b = RegionView /\ lb_len b = zlen bs /\ holds_bytes w (lb_ptr b) bs /\
  forall x, within (lb_ptr b) (lb_len b) x -> within (mr_ptr m) (mr_map_len m) x.

Lemma region_views_hold m w cs rest : forall at_,
  0 <= at_ -> holds_bytes w (mr_ptr m + at_) (concat cs ++ rest) -> at_ + zlen (concat cs ++ rest) <= mr_map_len m ->
  Forall2 (view_of m w) (region_views m at_ (zlen <$> cs) ++ [region_view (mr_ptr m + at_ + zsum (zlen <$> cs)) (zlen rest) (mr_locked m)])
    (cs ++ [rest]).
Proof.
  induction cs as [| c cs IH]; intros at_ Ha Hh Hle; cbn [fmap list_fmap region_views concat app zsum] in *.
  - constructor; [| constructor]. rewrite Z.add_0_r. split_and!; [done | done | done |].
    unfold within. cbn. lia.
  - rewrite <- app_assoc in *. rewrite zlen_app in Hle. apply holds_bytes_app in Hh as [Hc Hh].
    pose proof (zlen_nonneg c). pose proof (zlen_nonneg (concat cs ++ rest)). constructor.
    + split_and!; [done | done | done |]. unfold within. cbn. lia.
    + rewrite <- Z.add_assoc in Hh. specialize (IH (at_ + zlen c) ltac:(lia) Hh ltac:(lia)).
      by rewrite <- !Z.add_assoc in *.
Qed.
End filling.

(** ** Protecting and dropping a mapping *)

Section protecting.
Context {W : Type} `{AddressSpace W}.
Implicit Types (s : MemState W) (w : W) (live : list (LockedBytes * list byte)) (others : list (Z * Z)) (m : MappedRegion).

Lemma protect_step others live s m new granted w :
  mem_inv (mr_range m :: others) live s -> whole_pages (W := W) (mr_ptr m) (mr_map_len m) ->
  protect (mr_ptr m) (mr_map_len m) new (ms_world s) = (granted, w) ->
  mem_inv (mr_range m :: others) live (with_world w s) /\ keeps_live others (ms_world s) w /\
  (forall x, peek w x = peek (ms_world s) x) /\ (granted = true -> mapped_as new m w).
Proof.
  intros Hi Hw E. pose proof (only_at_protect _ _ new (ms_world s) Hw) as Ho. rewrite E in Ho. cbn in Ho.
  destruct (only_at_step _ _ _ _ _ Hi Ho) as [Hi' Hk]. apply keeps_live_app in Hk as [_ Hk]. split_and!; [done | done | |].
  - intros x. pose proof (protect_law _ _ new (ms_world s) x Hw) as Hl. rewrite E in Hl. apply Hl.
  - intros Hg x Hx. pose proof (protect_law _ _ new (ms_world s) x Hw) as Hl. rewrite E in Hl.
    destruct Hl as (_ & _ & _ & Hl). rewrite decide_True in Hl by done. by apply Hl.
Qed.

Lemma unmap_step others live s m :
  mem_inv (mr_range m :: others) live s -> whole_pages (W := W) (mr_ptr m) (mr_map_len m) ->
  let w := unmap_region (mr_ptr m) (mr_map_len m) (ms_world s) in
  mem_inv others live (with_world w s) /\ keeps_live others (ms_world s) w.
Proof.
  intros [Hp Hb] Hw w.
  assert (space_inv (mr_range m :: extents live ++ others) (free_ranges (ms_pool s)) (ms_world s)) as Hsp.
  { eapply space_inv_perm; [| reflexivity | apply (pi_space _ _ _ Hp)]. symmetry. apply Permutation_middle. }
  destruct (space_inv_free _ _ (mr_range m) _ w (fun x => unmap_region_law _ _ (ms_world s) x Hw) Hsp) as [Hsp' Hk].
  assert (keeps_live (extents live ++ others) (ms_world s) w) as [Hk1 Hk2]%keeps_live_app
    by (intros r x Hr; apply (Hk r), elem_of_app; by left).
  split; [| done]. split; [| by eapply buffers_keep]. by eapply pool_inv_world; [| exact Hp].
Qed.

(** The mapping is unmapped after it was wiped, unless the system refused to
    make it writable. *)
Lemma mapped_drop_spec others live s m :
  mem_inv (mr_range m :: others) live s -> whole_pages (W := W) (mr_ptr m) (mr_map_len m) -> 0 <= mr_map_len m ->
  exists s' w1, on_mem (mapped_drop m) s = (Ok tt, s') /\ mem_inv others live s' /\
    keeps_live others (ms_world s) (ms_world s') /\
    ms_world s' = unmap_region (mr_ptr m) (mr_map_len m) w1 /\
    ((protect (mr_ptr m) (mr_map_len m) AccessReadWrite (ms_world s)).1 = true ->
     all_zeros w1 (mr_ptr m) (mr_map_len m)).
Proof.
  intros Hi Hw Hlen. unfold mapped_drop.
  destruct (protect (mr_ptr m) (mr_map_len m) AccessReadWrite (ms_world s)) as [granted w1] eqn:Ep.
  destruct (protect_step _ _ _ _ _ _ _ Hi Hw Ep) as (Hi1 & Hk1 & _ & Hg).
  assert (exists w2, (if granted then store_bytes (mr_ptr m) (zeros (mr_map_len m)) else ret tt) w1 = (Ok tt, w2) /\
    mem_inv (mr_range m :: others) live (with_world w2 s) /\ keeps_live others (ms_world s) w2 /\
    (granted = true -> all_zeros w2 (mr_ptr m) (mr_map_len m))) as (w2 & E2 & Hi2 & Hk2 & Hz).
  { destruct granted; [| by exists w1].
    rewrite store_bytes_ok by (rewrite zlen_zeros by done; intros x Hx; by apply Hg). eexists. split; [reflexivity |].
    destruct (only_at_step _ _ _ _ (poke (mr_ptr m) (zeros (mr_map_len m)) w1) Hi1) as [Hi2 Hk2].
    { apply only_at_poke. by rewrite zlen_zeros. }
    apply keeps_live_app in Hk2 as [_ Hk2]. split_and!; [exact Hi2 | by eapply keeps_live_trans | intros _; by apply poke_zeros]. }
  set (w3 := if mr_no_dump m then include_in_dumps (mr_ptr m) (mr_map_len m) w2 else w2).
  set (w4 := if mr_locked m then unlock_pages (mr_ptr m) (mr_map_len m) w3 else w3).
  assert (same_memory w2 w4) as Hs.
  { trans w3; [unfold w3; destruct (mr_no_dump m); [intros x; apply include_same | reflexivity] |].
    unfold w4. destruct (mr_locked m); [intros x; apply unlock_pages_same | reflexivity]. }
  assert (mem_inv (mr_range m :: others) live (with_world w4 s)) as Hi4 by by eapply (mem_inv_same _ _ (with_world w2 s)).
  destruct (unmap_step _ _ _ _ Hi4 Hw) as [Hi5 Hk5].
  exists (with_world (unmap_region (mr_ptr m) (mr_map_len m) w4) s), w4. split_and!; [| exact Hi5 | | done |].
  - apply on_mem_eq. erewrite bind_ok by (unfold ask; by rewrite Ep). erewrite bind_ok by exact E2.
    erewrite (bind_ok _ _ w2 tt w3) by (unfold w3; by destruct (mr_no_dump m)).
    erewrite (bind_ok _ _ w3 tt w4) by (unfold w4; by destruct (mr_locked m)). done.
  - eapply keeps_live_trans; [exact Hk2 |]. eapply keeps_live_trans; [by apply same_memory_keeps | exact Hk5].
  - intros Hgr. eapply all_zeros_agree; [| by apply Hz]. intros x _. apply cell_peek, Hs.
Qed.
End protecting.

(** ** The script of an operation *)

Section scripts.
Context {W : Type} `{AddressSpace W}.
#[local] Instance the_script : Os (list reply) := scripted_os (W := W).

(** What of a region is in its struct. *)
Definition mapping_of (r : GuardedRegion) : MappedRegion :=
  {| mr_ptr := base r; mr_map_len := map_len r; mr_len := region_len r; mr_locked := region_locked r;
     mr_no_dump := Guarded.no_dump r; mr_readers := readers r |}.

(** With these answers, and whatever comes after them, [c] has this result. *)
Definition scripted {A} (c : M (list reply) A) (answers : list reply) (o : outcome A) : Prop :=
  forall rest, c (answers ++ rest) = (o, rest).

Lemma lock_moves ptr len (w : W) :
  exists locked answers w',
    (if lock_survives_no_access (W := W) then ask (lock_pages ptr len) else ret false) w = (Ok locked, w') /\
    same_memory w w' /\
    forall rest, (if lock_survives_no_access (W := list reply) then lock_pages ptr len (answers ++ rest)
                  else (false, answers ++ rest)) = (locked, rest).
Proof.
  cbn [lock_survives_no_access the_script scripted_os]. destruct lock_survives_no_access; [| by exists false, [], w].
  unfold ask. destruct (lock_pages ptr len w) as [locked w'] eqn:El. exists locked, [Granted locked], w'.
  split_and!; [done | | done]. intros x. pose proof (lock_pages_same ptr len w x) as Hl. by rewrite El in Hl.
Qed.

Lemma mapped_new_sim len others live (s : MemState W) : mem_inv others live s ->
  exists o s', on_mem (mapped_new len) s = (o, s') /\ keeps_live others (ms_world s) (ms_world s') /\
    match o with
    | Ok m => mem_inv (mr_range m :: others) live s' /\ fresh_mapping len m (ms_world s') /\
        exists r answers, mapping_of r = m /\ scripted (region_new len) answers (Ok r)
    | Err e => mem_inv others live s' /\ exists answers, scripted (region_new len) answers (Err e)
    | _ => False
    end.
Proof.
  intros Hi. unfold mapped_new. set (page := page_size (W := W)).
  destruct (checked_next_multiple_of (Z.max len 1) page) as [k |] eqn:Ek.
  2: { exists (Err size_overflow), s. split; [by rewrite (on_mem_eq _ s (Err size_overflow) (ms_world s)), with_world_id |].
    split; [done |]. split; [done |]. exists []. intros rest. unfold region_new.
    change (page_size (W := list reply)) with page. by rewrite Ek. }
  pose proof (next_multiple_ge _ _ _ page_size_pos Ek) as Hge. assert (0 < k) as Hk by lia.
  destruct (map_region k (ms_world s)) as [[base |] w1] eqn:Em.
  2: { exists (Err map_failed), (with_world w1 s).
    assert (same_memory (ms_world s) w1) as Hs
      by (intros x; pose proof (map_region_law k (ms_world s) x Hk) as Hl; by rewrite Em in Hl).
    split_and!; [| by apply same_memory_keeps | by eapply (mem_inv_same _ _ s) |].
    - apply on_mem_eq. erewrite bind_ok by done. erewrite bind_ok by (unfold ask; by rewrite Em). done.
    - exists [Mapped None]. intros rest. unfold region_new. change (page_size (W := list reply)) with page. by rewrite Ek. }
  destruct (lock_moves base k w1) as (locked & ans & w2 & El & Hs2 & Hl).
  destruct (exclude_from_dumps base k w2) as [nd w3] eqn:Ex.
  assert (same_memory w1 w3) as Hs3.
  { trans w2; [done |]. intros x. pose proof (exclude_same base k w2 x) as Hx. by rewrite Ex in Hx. }
  destruct (granted_mapping others live s base k w1 w3 Hi Hk Em Hs3) as (Hi' & Hkeep & Hdiv & Hacc).
  set (m := {| mr_ptr := base; mr_map_len := k; mr_len := len; mr_locked := locked; mr_no_dump := nd; mr_readers := 0 |}).
  exists (Ok m), (with_world w3 s). split_and!; [| done | done | |].
  - apply on_mem_eq. erewrite bind_ok by done. erewrite bind_ok by (unfold ask; by rewrite Em).
    erewrite bind_ok by done. erewrite bind_ok by exact El. by erewrite bind_ok by (unfold ask; by rewrite Ex).
  - split; [| done | cbn; lia | done | done]. split; [done | by eapply next_multiple_pages, Ek; apply page_size_pos].
  - exists {| Guarded.base := base; map_len := k; region_len := len; region_locked := locked;
              Guarded.no_dump := nd; readers := 0; contents := zeros k; protection := AccessReadWrite |},
           (Mapped (Some base) :: ans ++ [Granted nd]).
    split; [done |]. intros rest. unfold region_new. change (page_size (W := list reply)) with page. rewrite Ek.
    cbn -[lock_pages lock_survives_no_access zeros]. rewrite <- app_assoc, Hl. done.
Qed.

(** ** The two sides, slot by slot *)

(** A slot as memory has it, as [Guarded] has it, and its live guards. *)
Record slot := { in_memory : Stored; as_value : Fragments; guards : Z }.

Definition parts (st : Stored) : list LockedBytes := st_chunks st ++ [st_layout st].
Definition contents_of (f : Fragments) : list (list byte) := chunks f ++ [store_layout (store f)].

Definition slot_buffers (x : slot) : list (LockedBytes * list byte) :=
  match st_region (in_memory x) with None => zip (parts (in_memory x)) (contents_of (as_value x)) | Some _ => [] end.
Definition slot_ranges (x : slot) : list (Z * Z) :=
  match st_region (in_memory x) with None => [] | Some m => [mr_range m] end.
Definition slot_id (x : slot) : option Z := store_region (store (as_value x)).

(** A system that never refuses to take access away, and changes nothing when
    it refuses to give it. *)
Definition seals_kept : Prop := forall p n w, whole_pages (W := W) p n ->
  (protect p n AccessNone w).1 = true /\
  ((protect p n AccessRead w).1 = false -> forall a, access (protect p n AccessRead w).2 a = access w a).

(** A protected slot: its entry in the table of regions, its mapping, its
    views. *)
Record protected_ok (regs : Regions) (w : W) (x : slot) (m : MappedRegion) (id : Z) : Prop := {
  po_entry : exists r, table regs !! id = Some r /\ mapping_of r = m /\
    (0 < guards x -> protection r = AccessRead);
  po_next : id < next_region regs;
  po_readers : mr_readers m = guards x;
  po_pages : whole_pages (W := W) (mr_ptr m) (mr_map_len m);
  po_len : 0 <= mr_map_len m;
  po_access : 0 < guards x -> mapped_as AccessRead m w;
  po_sealed : seals_kept -> guards x = 0 -> mapped_as AccessNone m w;
  po_views : Forall2 (view_of m w) (parts (in_memory x)) (contents_of (as_value x))
}.

Record slot_ok (regs : Regions) (w : W) (x : slot) : Prop := {
  so_total : st_total (in_memory x) = total_len (as_value x);
  so_start : st_start (in_memory x) = layout_start (as_value x);
  so_guards : 0 <= guards x;
  so_length : length (parts (in_memory x)) = length (contents_of (as_value x));
  so_region : match st_region (in_memory x), slot_id x with
    | None, None => True
    | Some m, Some id => protected_ok regs w x m id
    | _, _ => False
    end
}.

Record storage_inv (l : list slot) (regs : Regions) (s : MemState W) : Prop := {
  sg_mem : mem_inv (l ≫= slot_ranges) (l ≫= slot_buffers) s;
  sg_slots : Forall (slot_ok regs (ms_world s)) l;
  sg_ids : NoDup (omap slot_id l)
}.

Lemma storage_inv_perm l l' regs s : l ≡ₚ l' -> storage_inv l regs s -> storage_inv l' regs s.
Proof.
  intros E [Hm Hs Hi]. split; [| by rewrite <- E | by rewrite <- E].
  eapply mem_inv_perm; [.. | exact Hm]; by rewrite E.
Qed.

Lemma view_keep m w w' b bs :
  (forall x, within (mr_ptr m) (mr_map_len m) x -> peek w' x = peek w x) -> view_of m w b bs -> view_of m w' b bs.
Proof.
  intros Hk (Hst & Hl & Hh & Hin). split_and!; [done | done | | done].
  eapply holds_bytes_agree; [| exact Hh]. intros x Hx. apply Hk, Hin. by rewrite Hl.
Qed.

(** A slot stands what leaves its mapping and its region's entry alone. *)
Lemma slot_keep regs regs' w w' x :
  keeps_live (slot_ranges x) w w' -> (forall id, slot_id x = Some id -> table regs' !! id = table regs !! id) ->
  next_region regs <= next_region regs' -> slot_ok regs w x -> slot_ok regs' w' x.
Proof.
  intros Hk Ht Hn [? ? ? ? Hr]. split; [done.. |]. unfold slot_ranges in Hk.
  destruct (st_region (in_memory x)) as [m |], (slot_id x) as [id |]; try done.
  assert (forall a, within (mr_ptr m) (mr_map_len m) a -> cell w' a = cell w a) as Hc
    by (intros a Ha; apply (Hk (mr_range m)); [by left | done]).
  destruct Hr as [He Hnx ? ? ? Ha Hs Hv]. split; [by rewrite Ht | lia | done | done | done | | |].
  - intros Hg a Hin. pose proof (Hc a Hin) as [= _ ->]. by apply Ha.
  - intros Hsk Hg a Hin. pose proof (Hc a Hin) as [= _ ->]. by apply Hs.
  - eapply Forall2_impl; [exact Hv |]. intros b bs. apply view_keep. intros a Ha'. by apply cell_peek, Hc.
Qed.

Lemma slots_keep l regs regs' w w' :
  keeps_live (l ≫= slot_ranges) w w' ->
  (forall id, id ∈ omap slot_id l -> table regs' !! id = table regs !! id) ->
  next_region regs <= next_region regs' -> Forall (slot_ok regs w) l -> Forall (slot_ok regs' w') l.
Proof.
  intros Hk Ht Hn Hf. apply Forall_forall. intros x Hx. eapply slot_keep; [.. | by eapply Forall_forall].
  - intros r a Hr. apply Hk, list_elem_of_bind. by exists x.
  - intros id Hid. apply Ht, list_elem_of_omap. by exists x.
  - done.
Qed.
End scripts.
