(* ===== verification/StorageTheorems.v ===== *)
(** * Stored keys in memory are the stored keys of the model

    Every operation of [Storage] does in the address space what [Guarded]
    does with values; so every program over the interface sees the same. *)

From S2P Require Import Prelude Errors Rust RawKey Fragment Os Guarded AddressSpace Pages Pool LockedBytes.
From S2P Require Import Storage StorageRefines.

Section simulation.
Context {W : Type} `{AddressSpace W}.
#[local] Instance the_script : Os (list reply) := scripted_os (W := W).
Implicit Types (s : MemState W) (live : list (LockedBytes * list byte)) (others : list (Z * Z)) (l : list slot).

(** ** Many buffers at once *)

Lemma from_slices_spec others cs : forall live s, mem_inv others live s ->
  match map_m from_slice cs s with
  | (Ok bufs, s') => mem_inv others (zip bufs cs ++ live) s' /\ length bufs = length cs /\
      keeps_live others (ms_world s) (ms_world s')
  | (Panic, s') => exhausted s'
  | _ => False
  end.
Proof.
  induction cs as [| c cs IH]; intros live s Hi; cbn [map_m]; [done |].
  pose proof (from_slice_spec _ _ _ c Hi) as Hf. unfold bind at 1.
  destruct (from_slice c s) as [[b | e | |] s1]; [| done..]. destruct Hf as [Hi1 Hk1].
  pose proof (IH _ _ Hi1) as Hr. unfold bind.
  destruct (map_m from_slice cs s1) as [[bufs | e | |] s2]; [| done..]. destruct Hr as (Hi2 & Hl & Hk2). cbn.
  split_and!; [| by rewrite Hl | by eapply keeps_live_trans].
  eapply mem_inv_perm; [done | | exact Hi2]. symmetry. apply Permutation_middle.
Qed.

Lemma drop_all_spec others bufs : forall bss live s, length bufs = length bss ->
  mem_inv others (zip bufs bss ++ live) s ->
  exists s', for_each bufs drop s = (Ok tt, s') /\ mem_inv others live s' /\ keeps_live others (ms_world s) (ms_world s').
Proof.
  induction bufs as [| b bufs IH]; intros [| bs bss] live s Hl Hi; try done; cbn [for_each].
  { by exists s. }
  destruct (drop_spec _ _ _ _ _ Hi) as (s1 & E1 & Hi1 & Hk1 & _).
  destruct (IH bss live s1) as (s2 & E2 & Hi2 & Hk2); [by injection Hl | done |].
  exists s2. split_and!; [by rewrite (bind_ok _ _ _ _ _ E1) | done | by eapply keeps_live_trans].
Qed.

Lemma drop_parts st s : (do! for_each (st_chunks st) drop in drop (st_layout st)) s = for_each (parts st) drop s.
Proof.
  unfold parts. rewrite for_each_app. apply bind_ext. intros [] s1. cbn [for_each]. unfold bind.
  by destruct (drop (st_layout st) s1) as [[[] | e | |] s2].
Qed.

Implicit Types (x : slot) (st p : Stored) (f : Fragments) (regs : Regions).
Abbreviation ranges l := (l ≫= slot_ranges).
Abbreviation buffers l := (l ≫= slot_buffers).

(** ** New fragments *)

Lemma new_sim l regs s cs layout total_len : storage_inv l regs s ->
  match store_chunks_in cs layout total_len s with
  | (Ok st, s') => storage_inv ({| in_memory := st; as_value := from_chunks cs layout total_len; guards := 0 |} :: l) regs s'
  | (Panic, s') => exhausted s'
  | _ => False
  end.
Proof.
  intros [Hm Hs Hi]. unfold store_chunks_in, bind at 1. pose proof (from_slices_spec _ cs _ _ Hm) as Hc.
  destruct (map_m from_slice cs s) as [[bufs | e | |] s1]; [| done..]. destruct Hc as (Hm1 & Hl & Hk1).
  pose proof (from_slice_spec _ _ _ layout Hm1) as Hf. unfold bind.
  destruct (from_slice layout s1) as [[b | e | |] s2]; [| done..]. destruct Hf as [Hm2 Hk2]. cbn. split.
  - eapply mem_inv_perm; [done | | exact Hm2]. cbn. unfold slot_buffers, parts, contents_of. cbn.
    rewrite zip_with_app by done. cbn. rewrite <- app_assoc. apply Permutation_middle.
  - constructor.
    + split; cbn; [done | done | done | | done]. unfold parts, contents_of. cbn. rewrite !length_app, Hl. done.
    + eapply (slots_keep l regs regs (ms_world s)); [by eapply keeps_live_trans | done | done | exact Hs].
  - done.
Qed.

(** ** Moving into a protected region *)

(** A buffer's bytes are an allocation. *)
Lemma buffer_size w b bs : buffer_inv w (b, bs) -> zlen bs <= usize_max.
Proof.
  intros [Hl _ Hst]. cbn in *. rewrite <- Hl. destruct (lb_storage b) as [| class |]; [| | done].
  - destruct (decide (lb_len b = 0)) as [-> | Hne]; [done |]. destruct (Hst Hne) as (? & ? & ? & ?). cbn in *. lia.
  - destruct Hst as (_ & _ & size & Hc & Hle & _).
    assert (Forall (fun size => size <= 2048) CLASSES) as Hf by (by apply (bool_decide_unpack (Forall (fun size => size <= 2048) CLASSES))).
    pose proof (Forall_lookup_1 _ _ _ _ Hf Hc) as Hm. cbv beta in Hm.
    trans size; [done |]. trans 2048; [exact Hm | done].
Qed.

(** What the parts of an unprotected slot are in memory. *)
Lemma unprotected_parts others live s st f :
  length (parts st) = length (contents_of f) ->
  mem_inv others (zip (parts st) (contents_of f) ++ live) s ->
  Forall2 (fun b bs => (b, bs) ∈ zip (parts st) (contents_of f) ++ live) (parts st) (contents_of f).
Proof.
  intros Hl _. apply Forall2_same_length_lookup. split; [done |]. intros i b bs Hb Hbs.
  apply elem_of_app. left. apply list_elem_of_lookup. exists i. by rewrite lookup_zip_with, Hb, Hbs.
Qed.

Lemma layout_of_parts st f w : st_start st = layout_start f ->
  read_buffer (st_layout st) w = (Ok (store_layout (store f)), w) -> stored_layout st w = (Ok (layout_bytes f), w).
Proof. intros Hs Hr. unfold stored_layout. erewrite bind_ok by exact Hr. by rewrite Hs. Qed.

(** The mapping [move_to_region] makes, full and open: its views show the
    chunks and the layout. *)
Lemma fill_mapping others live s m st f :
  mem_inv (mr_range m :: others) live s ->
  fresh_mapping (zlen (layout_bytes f) + zlen (concat (chunks f))) m (ms_world s) ->
  Forall2 (fun b bs => (b, bs) ∈ live) (st_chunks st) (chunks f) -> lb_len <$> st_chunks st = zlen <$> chunks f ->
  exists w,
    (let! at_ := copy_buffers m 0 (st_chunks st) in region_store m at_ (layout_bytes f)) (ms_world s) = (Ok tt, w) /\
    mem_inv (mr_range m :: others) live (with_world w s) /\ keeps_live others (ms_world s) w /\
    Forall2 (view_of m w)
      (region_views m 0 (lb_len <$> st_chunks st) ++
       [region_view (mr_ptr m + zsum (lb_len <$> st_chunks st)) (zlen (layout_bytes f)) (mr_locked m)])
      (chunks f ++ [layout_bytes f]).
Proof.
  intros Hi [Hp Hlen Hfit Hrd Hacc] Hc Hsz. pose proof (zlen_nonneg (layout_bytes f)).
  assert (filling others live m [] s (ms_world s)) as Hf0.
  { split; [by rewrite with_world_id | done | done | by intros i b]. }
  destruct (copy_buffers_fills others live m s _ _ Hc ltac:(lia) [] _ Hf0) as (w1 & E1 & Hf1); [rewrite zlen_nil; lia |].
  cbn [app] in *. change (zlen []) with 0 in E1. rewrite Z.add_0_l in E1.
  destruct (region_store_fills _ _ _ _ (layout_bytes f) _ _ Hf1) as (w2 & E2 & [Hm Hk _ Hd]); [lia | lia |].
  exists w2. split_and!; [by rewrite (bind_ok _ _ _ _ _ E1) | done | done |]. rewrite Hsz.
  pose proof (region_views_hold m w2 (chunks f) (layout_bytes f) 0) as Hv. rewrite Z.add_0_r in Hv.
  apply Hv; [lia | done |]. rewrite zlen_app. lia.
Qed.

Lemma then_ok {A B} (c : M W A) (k : A -> M W unit) (rest : M (MemState W) B) s w :
  bind c k (ms_world s) = (Ok tt, w) ->
  bind (on_mem c) (fun a => bind (on_mem (k a)) (fun _ => rest)) s = rest (with_world w s).
Proof.
  unfold bind, on_mem, zoom. destruct (c (ms_world s)) as [[a | e | |] w1]; try done. cbn.
  destruct (k a w1) as [[[] | e | |] w2]; try done. by intros [= <-].
Qed.

Lemma seal_result m s w (g : bool) w' : protect (mr_ptr m) (mr_map_len m) AccessNone w = (g, w') ->
  on_mem (mapped_seal m) (with_world w s) = (if g then Ok tt else Err seal_failed, with_world w' s).
Proof.
  intros E. unfold on_mem, zoom. cbn [with_world ms_world]. unfold mapped_seal. erewrite bind_ok by (unfold ask; by rewrite E). by destruct g.
Qed.

Lemma region_drop_script (r : GuardedRegion) b rest : (region_drop r (Granted b :: rest)).2 = rest.
Proof. unfold region_drop. cbn. by destruct b, (Guarded.no_dump r), (region_locked r). Qed.

(** The parts of a slot whose buffers are [live]. *)
Record parts_live live st f w : Prop := {
  pl_live : Forall2 (fun b bs => (b, bs) ∈ live) (parts st) (contents_of f);
  pl_buffers : Forall (buffer_inv w) live;
  pl_start : st_start st = layout_start f
}.

Lemma parts_live_chunks live st f w : parts_live live st f w ->
  Forall2 (fun b bs => (b, bs) ∈ live) (st_chunks st) (chunks f) /\ (st_layout st, store_layout (store f)) ∈ live /\
  lb_len <$> st_chunks st = zlen <$> chunks f /\ zlen (layout_bytes f) <= usize_max.
Proof.
  intros [Hl Hb _]. unfold parts, contents_of in Hl. apply Forall2_app_inv in Hl as [Hc Hy%Forall2_cons_1].
  2: { apply Forall2_length in Hl. rewrite !length_app in Hl. cbn in Hl. lia. }
  destruct Hy as [Hy _]. split_and!; [done | done | |].
  - clear Hy. induction Hc as [| b bs bufs bss Hin Hc IH]; [done |]. cbn. rewrite IH. f_equal.
    eapply Forall_forall in Hb; [| exact Hin]. apply Hb.
  - trans (zlen (store_layout (store f))); [apply zlen_layout_bytes_le |].
    eapply Forall_forall in Hb; [| exact Hy]. by eapply buffer_size.
Qed.

(** What a move made: a sealed mapping whose views show the parts, and the
    same in the table of regions. *)
Record moved others live regs f p f' (m : MappedRegion) (r : GuardedRegion) s : Prop := {
  mv_region : st_region p = Some m;
  mv_mem : mem_inv (mr_range m :: others) live s;
  mv_pages : whole_pages (W := W) (mr_ptr m) (mr_map_len m);
  mv_len : 0 <= mr_map_len m;
  mv_views : Forall2 (view_of m (ms_world s)) (parts p) (contents_of f');
  mv_sealed : mapped_as AccessNone m (ms_world s);
  mv_mapping : mapping_of r = m;
  mv_readers : mr_readers m = 0;
  mv_total : st_total p = total_len f';
  mv_start : st_start p = layout_start f';
  mv_id : store_region (store f') = Some (next_region regs)
}.

Definition add_region (r : GuardedRegion) regs : Regions :=
  {| table := <[next_region regs := r]> (table regs); next_region := next_region regs + 1 |}.

Lemma move_sim others live s st f regs :
  mem_inv others live s -> parts_live live st f (ms_world s) -> st_total st = total_len f ->
  exists o s', move_to_region st s = (o, s') /\ keeps_live others (ms_world s) (ms_world s') /\
    match o with
    | Ok p => exists f' m r answers, moved others live regs f p f' m r s' /\
        forall rest, into_protected f (regs, answers ++ rest) = (Ok f', (add_region r regs, rest))
    | Err e => mem_inv others live s' /\
        exists answers, forall rest, into_protected f (regs, answers ++ rest) = (Err e, (regs, rest))
    | _ => False
    end.
Proof.
  intros Hi Hpl Htot. pose proof (parts_live_chunks _ _ _ _ Hpl) as (Hc & Hy & Hsz & Hlay).
  pose proof (zlen_nonneg (layout_bytes f)) as Hn0.
  set (layout := layout_bytes f) in *. set (total := zlen layout + zlen (concat (chunks f))).
  assert (forall answers rest, into_protected f (regs, answers ++ rest) = _) as Habs
    by (intros answers rest; by apply (into_protected_eq f regs (answers ++ rest))).
  cbv zeta in Habs. fold layout total in Habs.
  unfold move_to_region.
  erewrite bind_ok by (apply on_mem_eq, layout_of_parts; [apply Hpl | by eapply read_live; [rewrite with_world_id |]]).
  rewrite with_world_id, Hsz, checked_sum_spec, zsum_zlen_concat
    by (done || (apply Forall_fmap, Forall_true; intros c; apply zlen_nonneg)).
  fold layout total. destruct (total <=? usize_max) eqn:Et.
  2: { exists (Err storage_overflow), s. split_and!; [done | done | done |]. by exists []. }
  erewrite bind_ok by done.
  destruct (mapped_new_sim total others live s Hi) as (o & s1 & E1 & Hk1 & Ho).
  destruct o as [m | e | |]; [| | done..].
  2: { exists (Err e), s1. destruct Ho as (Hi1 & ans & Hs). split_and!; [by unfold bind at 1; rewrite E1 | done | done |].
    exists ans. intros rest. by rewrite Habs, Hs. }
  erewrite bind_ok by exact E1. destruct Ho as (Hi1 & Hfm & r & ans & Hr & Hs).
  destruct (fill_mapping _ _ _ _ _ _ Hi1 Hfm Hc Hsz) as (w2 & E2 & Hi2 & Hk2 & Hv).
  rewrite Hsz, zsum_zlen_concat in Hv. rewrite (then_ok _ _ _ _ _ E2).
  destruct (protect (mr_ptr m) (mr_map_len m) AccessNone w2) as [g w3] eqn:Ep.
  destruct (protect_step _ _ _ _ _ _ _ Hi2 (fm_pages _ _ _ Hfm) Ep) as (Hi3 & Hk3 & Hpk & Hg).
  assert (keeps_live others (ms_world s) w3) as Hk by (do 2 (eapply keeps_live_trans; [done |]); done).
  assert (mapping_of (region_write (concat (chunks f) ++ layout) r) = m) as Hrw by done.
  assert (forall rest, seal (region_write (concat (chunks f) ++ layout) r) (Granted g :: rest) =
    (if g then Ok (set_protection AccessNone (region_write (concat (chunks f) ++ layout) r)) else Err seal_failed, rest))
    as Hseal by (intros rest; unfold seal; cbn; by destruct g).
  pose proof (fm_fits _ _ _ Hfm) as Hfit. assert (0 <= total) by (unfold total; pose proof (zlen_nonneg (concat (chunks f))); lia).
  destruct g.
  - eexists (Ok _), (with_world w3 s1).
    split_and!; [by rewrite (try_ok _ _ _ _ _ (seal_result _ _ _ true _ Ep)) | done |].
    eexists _, m, (set_protection AccessNone (region_write (concat (chunks f) ++ layout) r)), (ans ++ [Granted true]). split.
    2: { intros rest. rewrite Habs, <- app_assoc, Hs. cbn [app]. by rewrite Hseal. }
    split; cbn; [done | done | by apply (fm_pages _ _ _ Hfm) | lia | | by apply Hg | done | by apply (fm_readers _ _ _ Hfm) | done | done | done].
    eapply Forall2_impl; [exact Hv |]. intros b bs. apply view_keep. intros a _. apply Hpk.
  - destruct (mapped_drop_spec _ _ _ _ Hi3 (fm_pages _ _ _ Hfm) ltac:(lia)) as (s4 & w4 & E4 & Hi4 & Hk4 & _).
    exists (Err seal_failed), s4.
    split_and!; [| by eapply keeps_live_trans | done |].
    + rewrite (try_err _ _ _ _ _ (seal_result _ _ _ false _ Ep)). by erewrite bind_ok by exact E4.
    + eexists (ans ++ [Granted false; Granted false]). intros rest. rewrite Habs, <- app_assoc, Hs. cbn [app].
      rewrite Hseal. by rewrite region_drop_script.
Qed.

Lemma ids_below regs w l id : Forall (slot_ok regs w) l -> id ∈ omap slot_id l -> id < next_region regs.
Proof.
  intros Hf (x & Hx & E)%list_elem_of_omap. eapply Forall_forall in Hf; [| exact Hx].
  pose proof (so_region _ _ _ Hf) as Hr. rewrite E in Hr. destruct (st_region (in_memory x)); [| done]. by destruct Hr.
Qed.

Lemma drop_unprotected others live s st f :
  st_region st = None -> length (parts st) = length (contents_of f) ->
  mem_inv others (zip (parts st) (contents_of f) ++ live) s ->
  exists s', stored_drop st s = (Ok tt, s') /\ mem_inv others live s' /\ keeps_live others (ms_world s) (ms_world s').
Proof.
  intros Hr Hl Hi. destruct (drop_all_spec _ _ _ _ _ Hl Hi) as (s' & E & Hi' & Hk).
  exists s'. split_and!; [| done | done]. rewrite <- E, <- drop_parts. unfold stored_drop. rewrite Hr.
  unfold bind. destruct (for_each (st_chunks st) drop s) as [[[] | e | |] s1]; [| done..].
  by destruct (drop (st_layout st) s1) as [[[] | e | |] s2].
Qed.

Lemma protect_sim l regs s x :
  storage_inv (x :: l) regs s -> st_region (in_memory x) = None ->
  exists o s', stored_protect (in_memory x) s = (o, s') /\
    match o with
    | Ok p => exists f regs' answers, storage_inv ({| in_memory := p; as_value := f; guards := 0 |} :: l) regs' s' /\
        forall rest, into_protected (as_value x) (regs, answers ++ rest) = (Ok f, (regs', rest))
    | Err e => storage_inv l regs s' /\
        exists answers, forall rest, into_protected (as_value x) (regs, answers ++ rest) = (Err e, (regs, rest))
    | _ => False
    end.
Proof.
  intros [Hm [Hx Hl]%Forall_cons Hids] Hr. cbn in Hm, Hids. unfold slot_ranges at 1, slot_buffers at 1 in Hm.
  rewrite Hr in Hm. cbn [app] in Hm.
  assert (NoDup (omap slot_id l)) as Hids' by (destruct (slot_id x); [by apply NoDup_cons in Hids as [_ ?] | done]).
  set (st := in_memory x) in *. set (f := as_value x) in *.
  assert (parts_live (zip (parts st) (contents_of f) ++ buffers l) st f (ms_world s)) as Hpl.
  { split; [by eapply unprotected_parts; [apply Hx | exact Hm] | apply Hm | apply Hx]. }
  destruct (move_sim _ _ _ _ _ regs Hm Hpl (so_total _ _ _ Hx)) as (o & s1 & E & Hk & Ho). unfold stored_protect.
  destruct o as [p | e | |]; [| | done..].
  - rewrite (try_ok _ _ _ _ _ E). destruct Ho as (f' & m & r & ans & Hmv & Habs).
    destruct (drop_unprotected _ _ _ _ _ Hr (so_length _ _ _ Hx) (mv_mem _ _ _ _ _ _ _ _ _ Hmv)) as (s2 & E2 & Hm2 & Hk2).
    rewrite (bind_ok _ _ _ _ _ E2). exists (Ok p), s2. split; [done |]. exists f', (add_region r regs), ans. split; [| done].
    apply (keeps_live_app [mr_range m]) in Hk2 as [Hk3 Hk4]. destruct Hmv. split.
    + cbn. unfold slot_ranges at 1, slot_buffers at 1. cbn. by rewrite mv_region0.
    + constructor.
      * split; cbn; [done | done | done | by eapply Forall2_length |]. rewrite mv_region0. unfold slot_id. cbn. rewrite mv_id0.
        split; cbn; [| lia | done | done | done | done | |].
        -- exists r. by rewrite lookup_insert_eq.
        -- intros _ _ a Ha. pose proof (Hk3 (mr_range m) a ltac:(by left) Ha) as [= _ ->]. by apply mv_sealed0.
        -- eapply Forall2_impl; [exact mv_views0 |]. intros b bs. apply view_keep. intros a Ha.
           apply cell_peek, (Hk3 (mr_range m)); [by left | done].
      * eapply (slots_keep l regs _ (ms_world s)); [by eapply keeps_live_trans | | cbn; lia | done].
        intros id Hid. cbn. pose proof (ids_below _ _ _ _ Hl Hid). by rewrite lookup_insert_ne by lia.
    + cbn. unfold slot_id at 1. cbn. rewrite mv_id0. constructor; [| done].
      intros Hid. pose proof (ids_below _ _ _ _ Hl Hid). lia.
  - rewrite (try_err _ _ _ _ _ E). destruct Ho as (Hm1 & ans & Habs).
    destruct (drop_unprotected _ _ _ _ _ Hr (so_length _ _ _ Hx) Hm1) as (s2 & E2 & Hm2 & Hk2).
    rewrite (bind_ok _ _ _ _ _ E2). exists (Err e), s2. split_and!; [done | | by exists ans]. split; [done | | done].
    eapply (slots_keep l regs _ (ms_world s)); [by eapply keeps_live_trans | done | done | done].
Qed.

(** ** Guards on a protected slot *)

Lemma protected_head x l regs s m :
  storage_inv (x :: l) regs s -> st_region (in_memory x) = Some m ->
  mem_inv (mr_range m :: ranges l) (buffers l) s /\
  exists id, slot_id x = Some id /\ protected_ok regs (ms_world s) x m id.
Proof.
  intros [Hm [Hx _]%Forall_cons _] Hr. cbn in Hm. unfold slot_ranges at 1, slot_buffers at 1 in Hm. rewrite Hr in Hm.
  split; [done |]. pose proof (so_region _ _ _ Hx) as Hreg. rewrite Hr in Hreg.
  destruct (slot_id x) as [id |]; [| done]. by exists id.
Qed.

(** The slot after a call that changes its protection or its readers. *)
Definition with_region m n x : slot :=
  {| in_memory := set_region m (in_memory x); as_value := as_value x; guards := n |}.
Definition with_entry (id : Z) (r : GuardedRegion) regs : Regions :=
  {| table := <[id := r]> (table regs); next_region := next_region regs |}.

Lemma protected_update x l regs s w m id n r :
  storage_inv (x :: l) regs s -> st_region (in_memory x) = Some m -> slot_id x = Some id -> 0 <= n ->
  mem_inv (mr_range m :: ranges l) (buffers l) (with_world w s) -> keeps_live (ranges l) (ms_world s) w ->
  (forall a, peek w a = peek (ms_world s) a) ->
  mapping_of r = set_mr_readers n m -> (0 < n -> protection r = AccessRead /\ mapped_as AccessRead m w) ->
  (seals_kept (W := W) -> n = 0 -> mapped_as AccessNone m w) ->
  storage_inv (with_region (set_mr_readers n m) n x :: l) (with_entry id r regs) (with_world w s).
Proof.
  intros Hi Hr Hid Hn Hm Hk Hpk Hmap Hacc Hsl. destruct (protected_head _ _ _ _ _ Hi Hr) as (_ & id' & Hid' & Hp).
  rewrite Hid in Hid'. injection Hid' as <-.
  destruct Hi as [_ [Hx Hl]%Forall_cons Hids]. cbn in Hids. rewrite Hid in Hids. pose proof Hids as [Hnin Hids']%NoDup_cons.
  split; [exact Hm | constructor |].
  - destruct Hx as [Ht Hs Hg Hlen _]. split; cbn; [done | done | done | exact Hlen |].
    change (slot_id (with_region (set_mr_readers n m) n x)) with (slot_id x). rewrite Hid.
    destruct Hp as [He Hnx _ Hpg Hln _ _ Hv]. split; cbn; [| done | done | done | done | | done |].
    + exists r. rewrite lookup_insert_eq. split_and!; [done | done | intros Hg'; by apply Hacc].
    + intros Hg'. by apply Hacc.
    + eapply Forall2_impl; [exact Hv |]. intros b bs Hb. by apply (view_keep m _ w) in Hb.
  - eapply (slots_keep l regs _ (ms_world s)); [done | | cbn; lia | done].
    intros id' Hid'. cbn. rewrite lookup_insert_ne; [done |]. by intros <-.
  - cbn. change (slot_id (with_region (set_mr_readers n m) n x)) with (slot_id x). by rewrite Hid.
Qed.

(** A refused change leaves the slot, which nobody is reading, as it was. *)
Lemma protected_refused x l regs s w m :
  storage_inv (x :: l) regs s -> st_region (in_memory x) = Some m -> guards x = 0 ->
  mem_inv (mr_range m :: ranges l) (buffers l) (with_world w s) -> keeps_live (ranges l) (ms_world s) w ->
  (forall a, peek w a = peek (ms_world s) a) ->
  (seals_kept (W := W) -> forall a, access w a = access (ms_world s) a) -> storage_inv (x :: l) regs (with_world w s).
Proof.
  intros Hi Hr Hg Hm Hk Hpk Hsk. destruct (protected_head _ _ _ _ _ Hi Hr) as (_ & id & Hid & Hp).
  destruct Hi as [Hm0 [Hx Hl]%Forall_cons Hids]. split; [| constructor | done].
  - cbn. unfold slot_ranges at 1, slot_buffers at 1. by rewrite Hr.
  - destruct Hx. split; [done.. |]. rewrite Hr, Hid. destruct Hp as [? ? ? ? ? ? Hsl ?]. split; [done.. | lia | |].
    { intros Hs _ a Ha. cbn. rewrite Hsk by done. by apply Hsl. }
    eapply Forall2_impl; [done |]. intros b bs. by apply view_keep.
  - by eapply (slots_keep l regs _ (ms_world s)).
Qed.

Lemma fragments_open_entry x regs id r (a : list reply) : slot_id x = Some id -> table regs !! id = Some r ->
  fragments_open (as_value x) (regs, a) =
    match open r a with
    | (Ok r, a) => (Ok tt, (with_entry id r regs, a))
    | (Err e, a) => (Err e, (regs, a))
    | (_, a) => (Panic, (regs, a))
    end.
Proof. unfold slot_id, fragments_open. intros -> Ht. cbn [fst snd]. by rewrite Ht. Qed.

Lemma fragments_close_entry x regs id r (a : list reply) : slot_id x = Some id -> table regs !! id = Some r ->
  fragments_close (as_value x) (regs, a) = (with_entry id (close r a).1 regs, (close r a).2).
Proof. unfold slot_id, fragments_close. intros -> Ht. cbn [fst snd]. rewrite Ht. by destruct (close r a). Qed.

Lemma open_sim l regs s x : storage_inv (x :: l) regs s ->
  exists o s', stored_open (in_memory x) s = (o, s') /\
    match o with
    | Ok st => exists regs' answers,
        storage_inv ({| in_memory := st; as_value := as_value x; guards := guards x + 1 |} :: l) regs' s' /\
        forall rest, fragments_open (as_value x) (regs, answers ++ rest) = (Ok tt, (regs', rest))
    | Err e => storage_inv (x :: l) regs s' /\
        exists answers, forall rest, fragments_open (as_value x) (regs, answers ++ rest) = (Err e, (regs, rest))
    | _ => False
    end.
Proof.
  intros Hi. unfold stored_open. destruct (st_region (in_memory x)) as [m |] eqn:Hr.
  2: { exists (Ok (in_memory x)), s. split; [done |]. pose proof Hi as [Hm [Hx Hl]%Forall_cons Hids].
    destruct Hx as [? ? ? ? Hreg]. rewrite Hr in Hreg. destruct (slot_id x) eqn:Hid; [done |].
    exists regs, []. split; [| intros rest; unfold fragments_open; by change (store_region (store (as_value x))) with (slot_id x); rewrite Hid].
    split; [done | | done]. constructor; [| done]. split; cbn; [done | done | lia | done |].
    change (slot_id _) with (slot_id x). by rewrite Hr, Hid. }
  destruct (protected_head _ _ _ _ _ Hi Hr) as (Hm & id & Hid & Hp).
  destruct Hp as [(r & Ht & Hmr & Hpr) _ Hrd Hpg Hln Hac Hsl _]. pose proof (fun a => fragments_open_entry x regs id r a Hid Ht) as Habs.
  assert (0 <= guards x) as Hg by (destruct Hi as [_ [Hx _]%Forall_cons _]; apply Hx).
  assert (base r = mr_ptr m /\ map_len r = mr_map_len m /\ readers r = mr_readers m) as (_ & _ & Hrr) by by rewrite <- Hmr.
  unfold open in Habs. unfold mapped_open. rewrite Hrr in Habs. rewrite Hrd in *. destruct (guards x =? 0) eqn:E0; tests.
  - destruct (protect (mr_ptr m) (mr_map_len m) AccessRead (ms_world s)) as [g w] eqn:Ep.
    destruct (protect_step _ _ _ _ _ _ _ Hm Hpg Ep) as (Hm1 & Hk & Hpk & Hgr). destruct g.
    + eexists (Ok _), (with_world w s). split.
      { erewrite bind_ok; [reflexivity |]. apply on_mem_eq. by erewrite bind_ok by (unfold ask; by rewrite Ep). }
      exists (with_entry id (set_readers (guards x + 1) (set_protection AccessRead r)) regs), [Granted true].
      split; [| intros rest; by rewrite Habs].
      apply (protected_update _ _ _ _ _ m); [done | done | done | lia | done | done | done | by rewrite <- Hmr | | lia].
      intros _. split; [done | by apply Hgr].
    + exists (Err open_failed), (with_world w s). split_and!.
      * unfold bind at 1, on_mem, zoom, ask. unfold bind. by rewrite Ep.
      * eapply protected_refused; [done.. |]. intros Hsk a. destruct (Hsk _ _ (ms_world s) Hpg) as [_ Href].
        rewrite Ep in Href. by apply Href.
      * exists [Granted false]. intros rest. by rewrite Habs.
  - exists (Ok (set_region (set_mr_readers (guards x + 1) m) (in_memory x))), s. split.
    { erewrite bind_ok; [reflexivity |]. rewrite <- (with_world_id s) at 2. by apply on_mem_eq. }
    exists (with_entry id (set_readers (guards x + 1) r) regs), []. split; [| intros rest; by rewrite Habs].
    rewrite <- (with_world_id s).
    apply (protected_update _ _ _ _ _ m); [done | done | done | lia | by rewrite with_world_id | done | done | by rewrite <- Hmr | | lia].
    intros _. split; [apply Hpr | apply Hac]; lia.
Qed.

Lemma close_sim l regs s x : storage_inv (x :: l) regs s -> 0 < guards x ->
  exists st s' regs' answers, stored_close (in_memory x) s = (Ok st, s') /\
    storage_inv ({| in_memory := st; as_value := as_value x; guards := guards x - 1 |} :: l) regs' s' /\
    forall rest, fragments_close (as_value x) (regs, answers ++ rest) = (regs', rest).
Proof.
  intros Hi Hg. unfold stored_close. destruct (st_region (in_memory x)) as [m |] eqn:Hr.
  2: { pose proof Hi as [Hm [Hx Hl]%Forall_cons Hids]. destruct Hx as [? ? ? ? Hreg]. rewrite Hr in Hreg.
    destruct (slot_id x) eqn:Hid; [done |]. exists (in_memory x), s, regs, []. split; [done |].
    split; [| intros rest; unfold fragments_close; by change (store_region (store (as_value x))) with (slot_id x); rewrite Hid].
    split; [done | | done]. constructor; [| done]. split; cbn; [done | done | lia | done |].
    change (slot_id _) with (slot_id x). by rewrite Hr, Hid. }
  destruct (protected_head _ _ _ _ _ Hi Hr) as (Hm & id & Hid & Hp).
  destruct Hp as [(r & Ht & Hmr & Hpr) _ Hrd Hpg Hln Hac Hsl _].
  pose proof (fun a => fragments_close_entry x regs id r a Hid Ht) as Habs.
  assert (readers r = mr_readers m) as Hrr by by rewrite <- Hmr.
  unfold close in Habs. cbn [readers set_readers] in Habs. rewrite Hrr in Habs. unfold mapped_close.
  cbn [mr_readers set_mr_readers]. rewrite Hrd in *. destruct (guards x - 1 =? 0) eqn:E0; tests.
  - destruct (protect (mr_ptr m) (mr_map_len m) AccessNone (ms_world s)) as [g w] eqn:Ep.
    destruct (protect_step _ _ _ _ _ _ _ Hm Hpg Ep) as (Hm1 & Hk & Hpk & Hgr).
    set (r' := set_readers (guards x - 1) r).
    exists (set_region (set_mr_readers (guards x - 1) m) (in_memory x)), (with_world w s),
      (with_entry id (if g then set_protection AccessNone r' else r') regs), [Granted g]. split_and!.
    + erewrite bind_ok; [reflexivity |]. apply on_mem_eq. erewrite bind_ok by (by erewrite bind_ok by (unfold ask; cbn; by rewrite Ep)).
      done.
    + apply (protected_update _ _ _ _ _ m); [done | done | done | lia | done | done | done | by rewrite <- Hmr; destruct g | lia |].
      intros Hsk _. apply Hgr. destruct (Hsk _ _ (ms_world s) Hpg) as [Hs _]. by rewrite Ep in Hs.
    + intros rest. rewrite Habs. by destruct g.
  - exists (set_region (set_mr_readers (guards x - 1) m) (in_memory x)), s,
      (with_entry id (set_readers (guards x - 1) r) regs), []. split_and!.
    + erewrite bind_ok; [reflexivity |]. rewrite <- (with_world_id s) at 2. by apply on_mem_eq.
    + rewrite <- (with_world_id s).
      apply (protected_update _ _ _ _ _ m); [done | done | done | lia | by rewrite with_world_id | done | done | by rewrite <- Hmr | | lia].
      intros _. split; [apply Hpr | apply Hac]; lia.
    + intros rest. by rewrite Habs.
Qed.

(** ** Reading and dropping *)

Lemma read_buffers bufs bss (w : W) : Forall2 (fun b bs => read_buffer b w = (Ok bs, w)) bufs bss ->
  map_m read_buffer bufs w = (Ok bss, w).
Proof.
  induction 1 as [| b bs bufs bss Hb _ IH]; [done |]. cbn [map_m]. erewrite bind_ok by exact Hb. by erewrite bind_ok by exact IH.
Qed.

Lemma read_parts st f (w : W) : st_start st = layout_start f -> length (parts st) = length (contents_of f) ->
  Forall2 (fun b bs => read_buffer b w = (Ok bs, w)) (parts st) (contents_of f) ->
  stored_read st w = (Ok (chunks f, layout_bytes f), w).
Proof.
  unfold parts, contents_of. intros Hs Hl [Hc Hy]%Forall2_app_inv; [| rewrite !length_app in Hl; cbn in Hl; lia].
  apply Forall2_cons_1 in Hy as [Hy _]. unfold stored_read. erewrite bind_ok by by apply read_buffers.
  by erewrite bind_ok by by apply layout_of_parts.
Qed.

Lemma view_read m (w : W) b bs : mapped_as AccessRead m w -> view_of m w b bs -> read_buffer b w = (Ok bs, w).
Proof.
  intros Ha (Hst & Hl & Hh & Hin). unfold read_buffer. rewrite Hst. apply load_ok; [done | done |].
  intros a Hx. by rewrite Ha by auto.
Qed.

Lemma read_sim l regs s x : storage_inv (x :: l) regs s -> st_region (in_memory x) = None \/ 0 < guards x ->
  on_mem (stored_read (in_memory x)) s = (Ok (chunks (as_value x), layout_bytes (as_value x)), s) /\
  forall a : list reply, regions_read (as_value x) (regs, a) = (Ok (chunks (as_value x), layout_bytes (as_value x)), (regs, a)).
Proof.
  intros Hi Hor. pose proof Hi as [Hm [Hx _]%Forall_cons _].
  enough (stored_read (in_memory x) (ms_world s) = (Ok (chunks (as_value x), layout_bytes (as_value x)), ms_world s) /\
    fragments_readable (as_value x) regs = true) as [Hr Hf].
  { split; [rewrite <- (with_world_id s) at 2; by apply on_mem_eq |]. intros a. unfold regions_read.
    erewrite bind_ok by done. cbn [fst]. by rewrite Hf. }
  unfold fragments_readable. change (store_region (store (as_value x))) with (slot_id x).
  destruct (st_region (in_memory x)) as [m |] eqn:Hr.
  - destruct Hor as [| Hg]; [done |]. destruct (protected_head _ _ _ _ _ Hi Hr) as (_ & id & Hid & Hp).
    destruct Hp as [(r & Ht & _ & Hpr) _ _ _ _ Hac _ Hv]. rewrite Hid, Ht, Hpr by done. split; [| done].
    apply read_parts; [apply Hx | apply Hx |]. eapply Forall2_impl; [exact Hv |]. intros b bs. apply view_read. by apply Hac.
  - pose proof (so_region _ _ _ Hx) as Hreg. rewrite Hr in Hreg. destruct (slot_id x); [done |]. split; [| done].
    cbn in Hm. unfold slot_buffers at 1 in Hm. rewrite Hr in Hm.
    apply read_parts; [apply Hx | apply Hx |].
    assert (Forall2 (fun b bs => (b, bs) ∈ zip (parts (in_memory x)) (contents_of (as_value x)) ++ buffers l)
      (parts (in_memory x)) (contents_of (as_value x))) as Hlive by (eapply unprotected_parts; [apply Hx | exact Hm]).
    eapply Forall2_impl; [exact Hlive |]. intros b bs Hin. eapply read_live; [| exact Hin].
    rewrite with_world_id. exact Hm.
Qed.

Lemma drop_views bufs s : Forall (fun b => lb_storage b = RegionView) bufs -> for_each bufs drop s = (Ok tt, s).
Proof.
  induction 1 as [| b bufs Hb _ IH]; [done |]. cbn [for_each]. erewrite bind_ok; [exact IH |]. unfold drop. by rewrite Hb.
Qed.

Lemma drop_sim l regs s x : storage_inv (x :: l) regs s ->
  exists s' regs' answers, stored_drop (in_memory x) s = (Ok tt, s') /\ storage_inv l regs' s' /\
    forall rest, regions_drop (as_value x) (regs, answers ++ rest) = (Ok tt, (regs', rest)).
Proof.
  intros Hi. unfold regions_drop. change (store_region (store (as_value x))) with (slot_id x).
  destruct (st_region (in_memory x)) as [m |] eqn:Hr.
  - destruct (protected_head _ _ _ _ _ Hi Hr) as (Hm & id & Hid & Hp).
    destruct Hp as [(r & Ht & _ & _) _ _ Hpg Hln _ _ Hv]. destruct Hi as [_ [Hx Hl]%Forall_cons Hids].
    cbn in Hids. rewrite Hid in Hids. apply NoDup_cons in Hids as [Hnin Hids].
    destruct (mapped_drop_spec _ _ _ _ Hm Hpg Hln) as (s' & w1 & E & Hm' & Hk & _).
    exists s', {| table := delete id (table regs); next_region := next_region regs |}, [Granted true]. rewrite Hid. split_and!.
    + unfold stored_drop. rewrite Hr.
      assert (Forall (fun b => lb_storage b = RegionView) (st_chunks (in_memory x) ++ [st_layout (in_memory x)])) as Hvs.
      { apply Forall_lookup. intros i b Hb. destruct (Forall2_lookup_l _ _ _ _ _ Hv Hb) as (bs & _ & Hst & _). done. }
      apply Forall_app in Hvs as [Hc [Hy _]%Forall_cons].
      erewrite bind_ok by by apply drop_views. erewrite bind_ok; [exact E |]. unfold drop. by rewrite Hy.
    + split; [done | | done]. eapply (slots_keep l regs _ (ms_world s)); [done | | done | done].
      intros id' Hid'. cbn. apply lookup_delete_ne. by intros <-.
    + intros rest. cbn [fst snd]. rewrite Ht. cbn [app]. by rewrite region_drop_script.
  - destruct Hi as [Hm [Hx Hl]%Forall_cons Hids]. cbn in Hm, Hids. unfold slot_ranges at 1, slot_buffers at 1 in Hm. rewrite Hr in Hm.
    pose proof (so_region _ _ _ Hx) as Hreg. rewrite Hr in Hreg. destruct (slot_id x); [done |].
    destruct (drop_unprotected _ _ _ _ _ Hr (so_length _ _ _ Hx) Hm) as (s' & E & Hm' & Hk).
    exists s', regs, []. split_and!; [done | | done]. split; [done | | done]. by eapply (slots_keep l regs _ (ms_world s)).
Qed.

(** ** Programs *)

Definition mem_slots l : list (Stored * Z) := (fun x => (in_memory x, guards x)) <$> l.
Definition val_slots l : list (Fragments * Z) := (fun x => (as_value x, guards x)) <$> l.

(** What a program step must come to on both sides. *)
Definition same_step (l : list slot) regs (op : store_op) (r : outcome (list (Stored * Z) * store_event) * MemState W) : Prop :=
  match r with
  | (Ok (slots, e), s') => exists l' regs' answers, slots = mem_slots l' /\ storage_inv l' regs' s' /\
      forall rest, run_store_op op (val_slots l) (regs, answers ++ rest) = (Ok (val_slots l', e), (regs', rest))
  | (Panic, s') => exhausted s'
  | _ => False
  end.

Lemma insert_delete_perm {A} (k : list A) i (a b : A) : k !! i = Some a -> <[i := b]> k ≡ₚ b :: delete i k.
Proof.
  revert i. induction k as [| c k IH]; intros [| i] Hi; try done; cbn in *.
  rewrite (IH i Hi). apply perm_swap.
Qed.

Lemma slot_in l regs s i x y : l !! i = Some x -> storage_inv (y :: delete i l) regs s -> storage_inv (<[i := y]> l) regs s.
Proof. intros Hx Hi. eapply storage_inv_perm; [| exact Hi]. symmetry. by apply (insert_delete_perm l i x). Qed.

Lemma same_ok l regs op slots e s' l' regs' answers :
  slots = mem_slots l' -> storage_inv l' regs' s' ->
  (forall rest, run_store_op op (val_slots l) (regs, answers ++ rest) = (Ok (val_slots l', e), (regs', rest))) ->
  same_step l regs op (Ok (slots, e), s').
Proof. intros. by exists l', regs', answers. Qed.

Lemma skipped_step l regs op s :
  storage_inv l regs s -> (forall st : Regions * list reply, run_store_op op (val_slots l) st = (Ok (val_slots l, Skipped), st)) ->
  same_step l regs op (Ok (mem_slots l, Skipped), s).
Proof. intros Hi Hv. apply (same_ok _ _ _ _ _ _ l regs []); [done | done |]. intros rest. apply Hv. Qed.

Lemma same_protected l regs s x : storage_inv (x :: l) regs s ->
  bool_decide (is_Some (store_region (store (as_value x)))) = bool_decide (is_Some (st_region (in_memory x))).
Proof.
  intros [_ [Hx _]%Forall_cons _]. pose proof (so_region _ _ _ Hx) as Hr. unfold slot_id in Hr.
  destruct (st_region (in_memory x)), (store_region (store (as_value x))); done.
Qed.

Section one_slot.
Context (l : list slot) (regs : Regions) (s : MemState W) (i : nat) (x : slot).
Context (Hi : storage_inv l regs s) (Hx : l !! i = Some x).
Abbreviation step op := (same_step l regs op (run_store_op op (mem_slots l) s)).

Lemma slot_out : storage_inv (x :: delete i l) regs s.
Proof. eapply storage_inv_perm; [| exact Hi]. by apply delete_Permutation. Qed.

Lemma mem_at : mem_slots l !! i = Some (in_memory x, guards x).
Proof. unfold mem_slots. by rewrite list_lookup_fmap, Hx. Qed.
Lemma val_at : val_slots l !! i = Some (as_value x, guards x).
Proof. unfold val_slots. by rewrite list_lookup_fmap, Hx. Qed.

Lemma mem_put y : <[i := (in_memory y, guards y)]> (mem_slots l) = mem_slots (<[i := y]> l).
Proof. unfold mem_slots. by rewrite list_fmap_insert. Qed.
Lemma val_put y : <[i := (as_value y, guards y)]> (val_slots l) = val_slots (<[i := y]> l).
Proof. unfold val_slots. by rewrite list_fmap_insert. Qed.
Lemma mem_delete : delete i (mem_slots l) = mem_slots (delete i l).
Proof. symmetry. apply fmap_delete. Qed.
Lemma val_delete : delete i (val_slots l) = val_slots (delete i l).
Proof. symmetry. apply fmap_delete. Qed.

Lemma step_protect : step (OpProtect i).
Proof.
  cbn [run_store_op]. rewrite mem_at. pose proof (same_protected _ _ _ _ slot_out) as Hp. cbn [store_protected memory_store].
  destruct (bool_decide (is_Some (st_region (in_memory x))) || (0 <? guards x)) eqn:E.
  { apply skipped_step; [done |]. intros st. cbn [run_store_op]. rewrite val_at. cbn [store_protected regions_store].
    by rewrite Hp, E. }
  pose proof E as [Er Eg]%orb_false_elim. apply bool_decide_eq_false, eq_None_not_Some in Er.
  destruct (protect_sim _ _ _ _ slot_out Er) as (o & s' & Eo & Ho). cbn [store_protect].
  destruct o as [p | e | |]; [| | done..].
  - rewrite (try_ok _ _ _ _ _ Eo). destruct Ho as (f & regs' & answers & Hi' & Hv).
    set (y := {| in_memory := p; as_value := f; guards := 0 |}) in *.
    apply (same_ok _ _ _ _ _ _ (<[i := y]> l) regs' answers); [apply (mem_put y) | by eapply slot_in |].
    intros rest. cbn [run_store_op]. rewrite val_at.
    cbn [store_protected store_protect regions_store]. rewrite Hp, E, (try_ok _ _ _ _ _ (Hv rest)).
    unfold ret. do 3 f_equal. apply (val_put y).
  - rewrite (try_err _ _ _ _ _ Eo). destruct Ho as (Hi' & answers & Hv). apply (same_ok _ _ _ _ _ _ (delete i l) regs answers); [apply mem_delete | done |].
    intros rest. cbn [run_store_op]. rewrite val_at.
    cbn [store_protected store_protect regions_store]. rewrite Hp, E, (try_err _ _ _ _ _ (Hv rest)).
    unfold ret. by rewrite val_delete.
Qed.

Lemma step_open : step (OpOpen i).
Proof.
  cbn [run_store_op]. rewrite mem_at. destruct (open_sim _ _ _ _ slot_out) as (o & s' & Eo & Ho). cbn [store_open memory_store].
  destruct o as [st | e | |]; [| | done..].
  - rewrite (try_ok _ _ _ _ _ Eo). destruct Ho as (regs' & answers & Hi' & Hv).
    set (y := {| in_memory := st; as_value := as_value x; guards := guards x + 1 |}) in *.
    apply (same_ok _ _ _ _ _ _ (<[i := y]> l) regs' answers); [apply (mem_put y) | by eapply slot_in |].
    intros rest. cbn [run_store_op]. rewrite val_at.
    cbn [store_open regions_store]. rewrite (try_ok _ _ _ (as_value x) (regs', rest)) by by rewrite (bind_ok _ _ _ _ _ (Hv rest)).
    unfold ret. do 3 f_equal. apply (val_put y).
  - rewrite (try_err _ _ _ _ _ Eo). destruct Ho as (Hi' & answers & Hv). apply (same_ok _ _ _ _ _ _ l regs answers); [done | eapply storage_inv_perm; [| exact Hi']; symmetry; by apply delete_Permutation |].
    intros rest. cbn [run_store_op]. rewrite val_at. cbn [store_open regions_store].
    rewrite (try_err _ _ _ e (regs, rest)); [done |]. unfold bind. by rewrite Hv.
Qed.

Lemma step_read : step (OpRead i).
Proof.
  cbn [run_store_op]. rewrite mem_at. pose proof (same_protected _ _ _ _ slot_out) as Hp.
  assert (0 <= guards x) as Hg by (pose proof slot_out as [_ [Hok _]%Forall_cons _]; apply Hok).
  cbn [store_protected memory_store]. destruct (bool_decide (is_Some (st_region (in_memory x))) && (guards x =? 0)) eqn:E.
  { apply skipped_step; [done |]. intros st. cbn [run_store_op]. rewrite val_at. cbn [store_protected regions_store].
    by rewrite Hp, E. }
  destruct (read_sim _ _ _ _ slot_out) as [Er Hv].
  { apply andb_false_iff in E as [E%bool_decide_eq_false | E]; [left; by apply eq_None_not_Some | right; tests; lia]. }
  cbn [store_read]. erewrite bind_ok by exact Er. apply (same_ok _ _ _ _ _ _ l regs []); [done | done |]. intros rest.
  cbn [run_store_op]. rewrite val_at. cbn [store_protected store_read regions_store]. rewrite Hp, E. by erewrite bind_ok by apply Hv.
Qed.

Lemma step_close : step (OpClose i).
Proof.
  cbn [run_store_op]. rewrite mem_at. assert (0 <= guards x) as Hg by (pose proof slot_out as [_ [Hok _]%Forall_cons _]; apply Hok).
  destruct (guards x =? 0) eqn:E.
  { apply skipped_step; [done |]. intros st. cbn [run_store_op]. by rewrite val_at, E. }
  tests. destruct (close_sim _ _ _ _ slot_out) as (st & s' & regs' & answers & Ec & Hi' & Hv); [lia |].
  cbn [store_close memory_store]. rewrite (bind_ok _ _ _ _ _ Ec).
  set (y := {| in_memory := st; as_value := as_value x; guards := guards x - 1 |}) in *.
    apply (same_ok _ _ _ _ _ _ (<[i := y]> l) regs' answers); [apply (mem_put y) | by eapply slot_in |].
    intros rest. cbn [run_store_op]. rewrite val_at, (proj2 (Z.eqb_neq _ _)) by done.
  cbn [store_close regions_store]. rewrite (bind_ok _ _ _ (as_value x) (regs', rest)).
  - unfold ret. do 3 f_equal. apply (val_put y).
  - erewrite bind_ok by (unfold modify; by rewrite Hv). done.
Qed.

Lemma step_drop : step (OpDrop i).
Proof.
  cbn [run_store_op]. rewrite mem_at. destruct (0 <? guards x) eqn:E.
  { apply skipped_step; [done |]. intros st. cbn [run_store_op]. by rewrite val_at, E. }
  destruct (drop_sim _ _ _ _ slot_out) as (s' & regs' & answers & Ed & Hi' & Hv). cbn [store_drop memory_store].
  rewrite (bind_ok _ _ _ _ _ Ed). apply (same_ok _ _ _ _ _ _ (delete i l) regs' answers); [apply mem_delete | done |].
    intros rest. cbn [run_store_op]. rewrite val_at, E. cbn [store_drop regions_store].
  rewrite (bind_ok _ _ _ _ _ (Hv rest)). unfold ret. by rewrite val_delete.
Qed.
End one_slot.

Lemma step_sim op l regs s : storage_inv l regs s -> same_step l regs op (run_store_op op (mem_slots l) s).
Proof.
  intros Hi. destruct op as [cs layout n | i | i | i | i | i]; cbn [run_store_op].
  { unfold bind, same_step. cbn [store_new memory_store]. pose proof (new_sim l regs s cs layout n Hi) as Hn.
    destruct (store_chunks_in cs layout n s) as [[st | e | |] s']; [| done..]. eapply (same_ok _ _ _ _ _ _ (_ :: l) regs []); [| exact Hn |]; done. }
  all: destruct (l !! i) as [x |] eqn:Ex;
    [eauto using step_protect, step_open, step_read, step_close, step_drop |].
  all: unfold mem_slots at 1; rewrite list_lookup_fmap, Ex; apply skipped_step; [done |]; intros st; cbn [run_store_op];
    unfold val_slots at 1; by rewrite list_lookup_fmap, Ex.
Qed.

Lemma run_sim ops : forall l regs s, storage_inv l regs s ->
  match run_store ops (mem_slots l) s with
  | (Ok (slots, seen), s') => exists l' regs' answers, slots = mem_slots l' /\ storage_inv l' regs' s' /\
      forall rest, run_store ops (val_slots l) (regs, answers ++ rest) = (Ok (val_slots l', seen), (regs', rest))
  | (Panic, s') => exhausted s'
  | _ => False
  end.
Proof.
  induction ops as [| op ops IH]; intros l regs s Hi; cbn [run_store].
  { by exists l, regs, []. }
  pose proof (step_sim op l regs s Hi) as Hs. unfold bind at 1.
  destruct (run_store_op op (mem_slots l) s) as [[[slots e] | e | |] s1]; [| done..].
  destruct Hs as (l1 & regs1 & a1 & -> & Hi1 & Hv1). cbn [fst snd]. specialize (IH l1 regs1 s1 Hi1). unfold bind at 1.
  destruct (run_store ops (mem_slots l1) s1) as [[[slots es] | e' | |] s2]; [| done..].
  destruct IH as (l2 & regs2 & a2 & -> & Hi2 & Hv2). exists l2, regs2, (a1 ++ a2). split_and!; [done | done |].
  intros rest. rewrite <- app_assoc, (bind_ok _ _ _ _ _ (Hv1 _)). cbn [fst snd].
  by rewrite (bind_ok _ _ _ _ _ (Hv2 _)).
Qed.

Lemma fresh_storage (w : W) : storage_inv [] regions_init (fresh_memory w).
Proof. split; [apply fresh_memory_inv | done | constructor]. Qed.

(** C24: Stored keys in memory are the stored keys of the model.  Take any
    program that stores fragments, moves them into protected regions, opens,
    reads and closes them and drops them, and run it in the address space,
    where chunks are pool blocks, heap buffers or views into mappings, and
    reading or writing memory whose protection forbids it kills the process;
    whatever the operating system refuses.  It never faults, and everything
    it sees (each byte read, each error, each success) is what [Fragment] and
    [Guarded], on which the vault is built, give for some answers of an
    operating system.  The only other end is an exhausted heap. *)
Theorem storage_refines_regions (ops : list store_op) (w : W) :
  match run_store (F := Stored) ops [] (fresh_memory w) with
  | (Ok (slots, seen), _) => exists answers values regs,
      run_store ops [] (regions_init, answers) = (Ok (values, seen), (regs, [])) /\
      slots.*2 = (values : list (Fragments * Z)).*2
  | (Panic, s') => exhausted s'
  | _ => False
  end.
Proof.
  pose proof (run_sim ops [] _ _ (fresh_storage w)) as Hs. change (mem_slots []) with (@nil (Stored * Z)) in Hs.
  destruct (run_store ops [] (fresh_memory w)) as [[[slots seen] | e | |] s']; [| done..].
  destruct Hs as (l & regs & answers & -> & _ & Hv). exists answers, (val_slots l), regs. split.
  - specialize (Hv []). by rewrite app_nil_r in Hv.
  - unfold mem_slots, val_slots. by rewrite <- !list_fmap_compose.
Qed.

(** The ranges a stored value occupies. *)
Definition occupied (st : Stored) : list (Z * Z) :=
  match st_region st with Some m => [mr_range m] | None => parts st ≫= extent end.

Lemma extents_zip bufs (bss : list (list byte)) : length bufs = length bss -> extents (zip bufs bss) = bufs ≫= extent.
Proof.
  unfold extents. revert bss. induction bufs as [| b bufs IH]; intros [| bs bss] Hl; try done. cbn. f_equal.
  apply IH. by injection Hl.
Qed.

Lemma occupied_all l regs (w : W) : Forall (slot_ok regs w) l ->
  mem_slots l ≫= (fun y => occupied y.1) ≡ₚ extents (buffers l) ++ ranges l.
Proof.
  induction 1 as [| x l Hx _ IH]; [done |]. change (mem_slots (x :: l)) with ((in_memory x, guards x) :: mem_slots l).
  cbn [mbind list_bind fst]. rewrite IH. unfold extents. rewrite bind_app. fold (extents (slot_buffers x)) (extents (buffers l)).
  enough (occupied (in_memory x) ≡ₚ extents (slot_buffers x) ++ slot_ranges x) as ->.
  { rewrite <- !app_assoc. apply Permutation_app_head. rewrite !app_assoc. apply Permutation_app_tail, Permutation_app_comm. }
  unfold occupied, slot_buffers, slot_ranges. destruct (st_region (in_memory x)); [done |].
  rewrite app_nil_r, extents_zip by apply Hx. done.
Qed.

(** C25: Protected keys are sealed between uses.  After any such program,
    on a system that never refuses to take access away and on which a refused
    request for read access changes nothing (POSIX promises neither, and where
    a refused request takes effect in part an open that fails leaves bytes
    readable: [OsUnix.refused_open_leaves_readable]): every byte of a
    protected key's mapping is inaccessible unless a guard lives, and
    read-only while one does; the mapping's count is the number of live
    guards; and no two stored keys, nor a stored key and a free block of the
    pool, share a byte. *)
Theorem protected_keys_sealed (ops : list store_op) (w : W) :
  seals_kept (W := W) ->
  match run_store (F := Stored) ops [] (fresh_memory w) with
  | (Ok (slots, _), s') =>
      (forall st held m, (st, held) ∈ slots -> st_region st = Some m ->
         mr_readers m = held /\ mapped_as (if held =? 0 then AccessNone else AccessRead) m (ms_world s')) /\
      disjoint_ranges ((slots ≫= fun y => occupied y.1) ++ free_ranges (ms_pool s'))
  | (Panic, s') => exhausted s'
  | _ => False
  end.
Proof.
  intros Hk. pose proof (run_sim ops [] _ _ (fresh_storage w)) as Hs. change (mem_slots []) with (@nil (Stored * Z)) in Hs.
  destruct (run_store ops [] (fresh_memory w)) as [[[slots seen] | e | |] s']; [| done..].
  destruct Hs as (l & regs & answers & -> & [Hm Hl _] & _). split.
  - intros st held m (x & [= -> ->] & Hx)%list_elem_of_fmap Hr. eapply Forall_forall in Hl; [| exact Hx].
    pose proof (so_region _ _ _ Hl) as Hreg. rewrite Hr in Hreg. destruct (slot_id x); [| done].
    destruct Hreg as [_ _ ? _ _ Hac Hsl _].
    split; [done |]. case_test; tests; [by apply Hsl |]. apply Hac. pose proof (so_guards _ _ _ Hl). lia.
  - rewrite (occupied_all l regs _ Hl), <- app_assoc. rewrite app_assoc. apply (pi_space _ _ _ (mi_pool _ _ _ Hm)).
Qed.
End simulation.

(** ** A heap that keeps a record

    Any address space, with the sizes of the requests its heap refused. *)
Section recorded.
Context {W : Type} `{AddressSpace W}.

Definition recorded : Type := W * list Z.

#[local] Instance recorded_os : Os recorded := {|
  system_page_size := system_page_size (W := W);
  lock_survives_no_access := lock_survives_no_access (W := W);
  map_region n w := let '(r, w') := map_region n w.1 in (r, (w', w.2));
  lock_pages p n w := let '(r, w') := lock_pages p n w.1 in (r, (w', w.2));
  unlock_pages p n w := (unlock_pages p n w.1, w.2);
  exclude_from_dumps p n w := let '(r, w') := exclude_from_dumps p n w.1 in (r, (w', w.2));
  include_in_dumps p n w := (include_in_dumps p n w.1, w.2);
  protect p n a w := let '(r, w') := protect p n a w.1 in (r, (w', w.2));
  unmap_region p n w := (unmap_region p n w.1, w.2)
|}.

#[local] Instance recorded_memory : Memory recorded := {|
  peek w := peek w.1;
  access w := access w.1;
  poke a bs w := (poke a bs w.1, w.2);
  box_alloc n w :=
    match box_alloc n w.1 with (Some p, w') => (Some p, (w', w.2)) | (None, w') => (None, (w', n :: w.2)) end;
  box_free a n w := (box_free a n w.1, w.2)
|}.

#[local] Instance recorded_space : AddressSpace recorded.
Proof.
  refine {| owned := fun w : recorded => owned w.1 |}; intros; cbn.
  - pose proof (lock_pages_same (W := W) p n w.1 x). by destruct (lock_pages p n w.1).
  - exact (unlock_pages_same (W := W) p n w.1 x).
  - pose proof (exclude_same (W := W) p n w.1 x). by destruct (exclude_from_dumps p n w.1).
  - exact (include_same (W := W) p n w.1 x).
  - pose proof (map_region_law (W := W) n w.1 x ltac:(done)). by destruct (map_region n w.1) as [[] ?].
  - pose proof (box_alloc_law (W := W) n w.1 x ltac:(done)). by destruct (box_alloc n w.1) as [[] ?].
  - exact (box_free_law (W := W) a n w.1 x).
  - by apply (unmap_region_law (W := W)).
  - match goal with Hw : whole_pages _ _ |- _ => pose proof (protect_law (W := W) a n new w.1 x Hw) end.
    by destruct (protect a n new w.1).
  - exact (poke_law (W := W) a bs w.1 x).
Defined.

(** What [exhausted] says of a run: a program that ends for want of memory
    made a request, for at least one byte, that the heap refused. *)
Lemma exhausted_was_refused (ops : list store_op) (w : W) :
  match run_store (F := Stored) ops [] (fresh_memory ((w, []) : recorded)) with
  | (Panic, s') => exists n, 0 < n /\ n ∈ (ms_world s').2
  | _ => True
  end.
Proof.
  pose proof (run_sim (W := recorded) ops [] _ _ (fresh_storage (W := recorded) (w, []))) as Hs.
  change (mem_slots []) with (@nil (Stored * Z)) in Hs.
  destruct (run_store ops [] (fresh_memory ((w, []) : recorded))) as [[[slots seen] | e | |] s']; [done.. | | done].
  destruct Hs as (n & w1 & Hn & E). exists n. split; [done |]. cbn in E.
  destruct (box_alloc n w1.1) as [[p |] w2]; [done |]. injection E as <-. by left.
Qed.
End recorded.

(** ** In the concrete address space *)

Definition store_program : list store_op :=
  [OpNew [[Byte.x01; Byte.x02]; [Byte.x03]] [Byte.x09] 3; OpNew [[Byte.x05]] [] 1; OpProtect 1; OpRead 1; OpOpen 1;
   OpOpen 1; OpRead 1; OpRead 0; OpDrop 1; OpClose 1; OpRead 1; OpDrop 0].

Example store_program_seen :
  let '(o, s) := run_store (F := Stored) store_program [] (fresh_memory Ram.start) in
  match o with
  | Ok (slots, seen) =>
      seen = [Done; Done; Done; Skipped; Done; Done; Bytes [[Byte.x01; Byte.x02]; [Byte.x03]] [Byte.x09];
              Bytes [[Byte.x05]] []; Skipped; Done; Bytes [[Byte.x01; Byte.x02]; [Byte.x03]] [Byte.x09]; Done] /\
      slots.*2 = [1]
  | _ => False
  end.
Proof. vm_compute. done. Qed.

Lemma ram_seals : seals_kept (W := Ram.world).
Proof.
  intros p n w _. cbn. unfold Ram.set_prot. rewrite (bool_decide_false (AccessNone = AccessRead)) by done.
  rewrite orb_true_r. split; [done |]. rewrite (bool_decide_true (AccessRead = AccessRead)) by done.
  rewrite orb_false_r. by destruct (n <=? 8192).
Defined.

Lemma protected_keys_sealed_witness :
  match run_store (F := Stored) store_program [] (fresh_memory Ram.start) with
  | (Ok (slots, _), s') =>
      (forall st held m, (st, held) ∈ slots -> st_region st = Some m ->
         mr_readers m = held /\ mapped_as (if held =? 0 then AccessNone else AccessRead) m (ms_world s')) /\
      disjoint_ranges ((slots ≫= fun y => occupied y.1) ++ free_ranges (ms_pool s'))
  | (Panic, s') => exhausted s'
  | _ => False
  end.
Proof. exact (protected_keys_sealed store_program Ram.start ram_seals). Defined.
