(* ===== verification/Handle.v ===== *)
(** * Handles and metadata ([handle.rs], [metadata.rs])

    Identifiers come from a process-global 64-bit counter; a handle is an
    identifier; metadata is what callers may see of a key. *)

From S2P Require Import Prelude Errors Rust.

(** [struct KeyId]: a non-zero [u64]. *)
Abbreviation KeyId := Z (only parsing).

(** [next_raw]: [COUNTER.fetch_add(1)], which wraps; the state is the
    counter. *)
Definition next_raw : M Z Z := fun counter => (Ok counter, wrap64 (counter + 1)).

Module KeyId.
Definition next : M Z KeyId :=
  let! raw := next_raw in
  ret (if raw =? 0 then 1 else raw).

Definition from_raw (raw : Z) : KeyId := raw.
Definition get (self : KeyId) : Z := self.
Definition fmt (_ : KeyId) : string := "KeyId(<redacted>)".
End KeyId.

(** [struct KeyHandle]. *)
Record KeyHandle := { handle_id : KeyId }.

Module KeyHandle.
Definition allocate : M Z KeyHandle :=
  let! id := KeyId.next in
  ret {| handle_id := id |}.

Definition from_id (id : KeyId) : KeyHandle := {| handle_id := id |}.
Definition id (self : KeyHandle) : KeyId := handle_id self.

(** [ct_eq], and [PartialEq] through it: equality of the identifiers. *)
Definition ct_eq (self other : KeyHandle) : bool := handle_id self =? handle_id other.

Definition fmt (_ : KeyHandle) : string := "KeyHandle(<redacted>)".
End KeyHandle.

#[export] Instance handle_eq_dec : EqDecision KeyHandle.
Proof. solve_decision. Defined.

(** [enum AlgorithmHint]. *)
Inductive AlgorithmHint :=
| Symmetric128 | Symmetric256 | Ed25519 | X25519 | P256 | P384
| Rsa2048 | Rsa3072 | Rsa4096 | Hmac | Other.

(** [struct KeyMetadata]; times are nanoseconds. *)
Record KeyMetadata := {
  registered_since_epoch : Z;
  key_length : Z;
  algorithm : option AlgorithmHint
}.

Module KeyMetadata.
Definition new (registered_since_epoch length : Z) (algorithm : option AlgorithmHint) : KeyMetadata :=
  {| registered_since_epoch := registered_since_epoch; key_length := length; algorithm := algorithm |}.
Definition length (self : KeyMetadata) : Z := key_length self.
Definition algorithm (self : KeyMetadata) : option AlgorithmHint := algorithm self.
Definition registered_since_epoch (self : KeyMetadata) : Z := registered_since_epoch self.
End KeyMetadata.

(** ** Lemmas *)

Lemma allocate_ok counter :
  0 < counter < 2 ^ 64 ->
  KeyHandle.allocate counter = (Ok {| handle_id := counter |}, wrap64 (counter + 1)).
Proof.
  intros Hc. unfold KeyHandle.allocate, KeyId.next, next_raw, bind, ret.
  by rewrite (proj2 (Z.eqb_neq _ _)) by lia.
Qed.

Lemma ct_eq_spec h k : reflect (h = k) (KeyHandle.ct_eq h k).
Proof.
  unfold KeyHandle.ct_eq. destruct (Z.eqb_spec (handle_id h) (handle_id k)) as [E | Hne].
  - constructor. destruct h, k; cbn in *. by subst.
  - constructor. congruence.
Qed.

(** [n] allocations from a counter that does not reach [2^64]. *)
Lemma repeat_allocate (n : nat) counter :
  0 < counter -> counter + Z.of_nat n <= 2 ^ 64 ->
  fst (repeat_m n KeyHandle.allocate counter) =
    Ok (KeyHandle.from_id <$> seqZ counter (Z.of_nat n)).
Proof.
  revert counter. induction n as [| n IH]; intros counter Hc Hn; [done |].
  cbn [repeat_m]. unfold bind at 1. rewrite allocate_ok by lia. unfold bind, ret.
  destruct (decide (n = O)) as [-> | Hn0].
  - done.
  - specialize (IH (counter + 1) ltac:(lia) ltac:(lia)).
    unfold wrap64. rewrite Z.mod_small by lia.
    destruct (repeat_m n KeyHandle.allocate (counter + 1)) as [o c'] eqn:E.
    cbn in IH. subst o. cbn [fst]. f_equal.
    rewrite (seqZ_cons counter) by lia. cbn. unfold KeyHandle.from_id at 1. do 2 f_equal.
    f_equal; lia.
Qed.

(** ** Properties *)

(** Handle uniqueness.  From the counter's initial value 1, the first
    [2^64 - 1] allocations of a process are pairwise distinct, and none is
    the forbidden identifier 0. *)
Theorem handles_unique (n : nat) :
  Z.of_nat n < 2 ^ 64 ->
  exists handles, fst (repeat_m n KeyHandle.allocate 1) = Ok handles /\
    length handles = n /\ NoDup handles /\ Forall (fun h => 1 <= KeyHandle.id h < 2 ^ 64) handles.
Proof.
  intros Hn. eexists. rewrite repeat_allocate by lia. split_and!; [done | | |].
  - rewrite length_fmap, length_seqZ. lia.
  - apply NoDup_fmap_2; [by intros x y [=] | apply NoDup_seqZ].
  - apply Forall_fmap, Forall_forall. intros x Hx%elem_of_seqZ. unfold compose; cbn. lia.
Qed.

Lemma handles_unique_witness :
  exists handles, fst (repeat_m 3 KeyHandle.allocate 1) = Ok handles /\
    length handles = 3%nat /\ NoDup handles /\
    Forall (fun h => 1 <= KeyHandle.id h < 2 ^ 64) handles.
Proof. apply (handles_unique 3). lia. Defined.
