(* ===== verification/Events.v ===== *)
(** * Monitors, audit sinks and clocks ([monitor/], [audit/], [clock.rs])

    The three observers of a vault are trait objects over the outside world
    [W].  Their contracts say that a call returns promptly and does not
    panic; a callback is therefore a world transformer.  A callback that
    calls back into the vault is outside the model. *)

From S2P Require Import Prelude Errors Rust Format Rng.

(** ** Contexts and events *)

Record FailureContext := {
  fc_key_name : string;
  consecutive_failures : Z;
  window_elapsed : Z;
  fc_note : string
}.

Record AccessContext := { ac_key_name : string; ac_note : string }.

Inductive LockoutScope := VaultScope | KeyScope.

Record ThresholdContext := {
  tc_key_name : string;
  failures_in_window : Z;
  tc_window : Z;
  lockout_triggered : bool;
  scope : LockoutScope
}.

Inductive AccessKind :=
| Register | Unregister | Read | Rotate | OneShotFragment | OneShotDefragment
| MasterUnlockAttempt (matched : bool).

Definition access_kind_fmt (k : AccessKind) : string :=
  match k with
  | Register => "register"
  | Unregister => "unregister"
  | Read => "read"
  | Rotate => "rotate"
  | OneShotFragment => "one-shot-fragment"
  | OneShotDefragment => "one-shot-defragment"
  | MasterUnlockAttempt true => "master-unlock-ok"
  | MasterUnlockAttempt false => "master-unlock-fail"
  end.

(** [struct AuditEvent]; the thread id is a number. *)
Record AuditEvent := {
  timestamp : Z;
  ae_key_name : string;
  kind : AccessKind;
  thread_id : Z;
  ae_note : string
}.

(** ** The traits *)

Class SecurityMonitor (W M : Type) := {
  on_decryption_failure : M -> FailureContext -> W -> W;
  on_anomalous_access : M -> AccessContext -> W -> W;
  on_threshold_breach : M -> ThresholdContext -> W -> W
}.

Class AuditSink (W A : Type) := {
  on_event : A -> AuditEvent -> W -> W;
  is_no_op : A -> bool
}.

(** [trait Clock]: times are nanoseconds; reading may change the world. *)
Class Clock (W C : Type) := {
  now : C -> W -> Z * W;
  unix_time : C -> W -> Z * W
}.

(** [Arc<dyn SecurityMonitor>], [Arc<dyn AuditSink>], [Arc<dyn Clock>]. *)
Record dyn_monitor (W : Type) := {
  dyn_failure : FailureContext -> W -> W;
  dyn_anomalous : AccessContext -> W -> W;
  dyn_breach : ThresholdContext -> W -> W
}.
Arguments dyn_failure {W}.
Arguments dyn_anomalous {W}.
Arguments dyn_breach {W}.

Record dyn_sink (W : Type) := { dyn_event : AuditEvent -> W -> W; dyn_no_op : bool }.
Arguments dyn_event {W}.
Arguments dyn_no_op {W}.

Record dyn_clock (W : Type) := { dyn_now : W -> Z * W; dyn_unix : W -> Z * W }.
Arguments dyn_now {W}.
Arguments dyn_unix {W}.

#[export] Instance monitor_dyn {W} : SecurityMonitor W (dyn_monitor W) :=
  {| on_decryption_failure := dyn_failure; on_anomalous_access := dyn_anomalous;
     on_threshold_breach := dyn_breach |}.
#[export] Instance sink_dyn {W} : AuditSink W (dyn_sink W) :=
  {| on_event := dyn_event; is_no_op := dyn_no_op |}.
#[export] Instance clock_dyn {W} : Clock W (dyn_clock W) :=
  {| now := dyn_now; unix_time := dyn_unix |}.

Definition monitor_object {W M} `{SecurityMonitor W M} (m : M) : dyn_monitor W :=
  {| dyn_failure := on_decryption_failure m; dyn_anomalous := on_anomalous_access m;
     dyn_breach := on_threshold_breach m |}.
Definition sink_object {W A} `{AuditSink W A} (a : A) : dyn_sink W :=
  {| dyn_event := on_event a; dyn_no_op := is_no_op (W := W) a |}.
Definition clock_object {W C} `{Clock W C} (c : C) : dyn_clock W :=
  {| dyn_now := now c; dyn_unix := unix_time c |}.

(** ** The implementations in the crate *)

Inductive NoMonitor := no_monitor.
#[export] Instance monitor_none {W} : SecurityMonitor W NoMonitor :=
  {| on_decryption_failure := fun _ _ w => w; on_anomalous_access := fun _ _ w => w;
     on_threshold_breach := fun _ _ w => w |}.

Inductive NoAudit := no_audit.
#[export] Instance sink_none {W} : AuditSink W NoAudit :=
  {| on_event := fun _ _ w => w; is_no_op := fun _ => true |}.

(** [CompositeMonitor]: every inner monitor in registration order. *)
Record CompositeMonitor (W : Type) := { inner_monitors : list (dyn_monitor W) }.
Arguments inner_monitors {W}.

Module CompositeMonitor.
Definition new {W} (inner : list (dyn_monitor W)) : CompositeMonitor W := {| inner_monitors := inner |}.
Definition len {W} (self : CompositeMonitor W) : Z := zlen (inner_monitors self).
Definition is_empty {W} (self : CompositeMonitor W) : bool := len self =? 0.

(** [Debug]. *)
Definition fmt {W} (self : CompositeMonitor W) : string :=
  debug_struct "CompositeMonitor" [("inner_count", pretty (len self))].
End CompositeMonitor.

#[export] Instance monitor_composite {W} : SecurityMonitor W (CompositeMonitor W) := {|
  on_decryption_failure := fun self ctx w =>
    foldl (fun w m => on_decryption_failure m ctx w) w (inner_monitors self);
  on_anomalous_access := fun self ctx w =>
    foldl (fun w m => on_anomalous_access m ctx w) w (inner_monitors self);
  on_threshold_breach := fun self ctx w =>
    foldl (fun w m => on_threshold_breach m ctx w) w (inner_monitors self)
|}.

(** The [tracing] crate: one structured event. *)
Inductive level := INFO | WARN | ERROR.
Record trace_event := {
  trace_level : level;
  trace_target : string;
  trace_fields : list (string * string);
  trace_message : string
}.
Class Tracing (W : Type) := { trace : trace_event -> W -> W }.

(** [u64::try_from(d.as_millis()).unwrap_or(u64::MAX)]. *)
Definition millis_u64 (d : Z) : Z :=
  let ms := d / 1000000 in if ms <=? u64_max then ms else u64_max.

Definition scope_fmt (s : LockoutScope) : string :=
  match s with VaultScope => "Vault" | KeyScope => "Key" end.

Inductive LogMonitor := log_monitor.
#[export] Instance monitor_log {W} `{Tracing W} : SecurityMonitor W LogMonitor := {|
  on_decryption_failure := fun _ ctx => trace
    {| trace_level := WARN; trace_target := "key_vault::monitor";
       trace_fields := [("key_name", fc_key_name ctx);
         ("consecutive_failures", pretty (consecutive_failures ctx));
         ("window_elapsed_ms", pretty (millis_u64 (window_elapsed ctx)));
         ("note", fc_note ctx)];
       trace_message := "key access failure" |};
  on_anomalous_access := fun _ ctx => trace
    {| trace_level := WARN; trace_target := "key_vault::monitor";
       trace_fields := [("key_name", ac_key_name ctx); ("note", ac_note ctx)];
       trace_message := "anomalous key access" |};
  on_threshold_breach := fun _ ctx => trace
    {| trace_level := ERROR; trace_target := "key_vault::monitor";
       trace_fields := [("key_name", tc_key_name ctx);
         ("failures_in_window", pretty (failures_in_window ctx));
         ("window_ms", pretty (millis_u64 (tc_window ctx)));
         ("lockout_triggered", debug_bool (lockout_triggered ctx));
         ("scope", scope_fmt (scope ctx))];
       trace_message := "threshold breach" |}
|}.

Inductive LogAudit := log_audit.
#[export] Instance sink_log {W} `{Tracing W} : AuditSink W LogAudit := {|
  on_event := fun _ event => trace
    {| trace_level := INFO; trace_target := "key_vault::audit";
       trace_fields := [("key_name", ae_key_name event);
         ("kind", access_kind_fmt (kind event));
         ("thread_id", "ThreadId(" +:+ pretty (thread_id event) +:+ ")");
         ("timestamp_ms_since_epoch", pretty (millis_u64 (timestamp event)));
         ("note", ae_note event)];
       trace_message := "audit event" |};
  is_no_op := fun _ => false
|}.

(** [std::time] behind [StdClock]: time since the process's first reading,
    and time since the epoch (zero when the system clock is before it). *)
Class StdTime (W : Type) := { instant_elapsed : W -> Z * W; system_time : W -> option Z * W }.

Inductive StdClock := std_clock.
#[export] Instance clock_std {W} `{StdTime W} : Clock W StdClock := {|
  now := fun _ => instant_elapsed;
  unix_time := fun _ w => let '(t, w') := system_time w in (default 0 t, w')
|}.

(** The trait's default [unix_time]. *)
Definition default_unix_time {W} (w : W) : Z * W := (0, w).

(** ** A concrete world

    A world for the witnesses: the generator's script, the time with the
    steps it will make at the next readings, and the log of everything the
    observers were told. *)
Module Tape.
Inductive observation :=
| Failed (ctx : FailureContext)
| Anomalous (ctx : AccessContext)
| Breached (ctx : ThresholdContext)
| Audited (event : AuditEvent).

Record world := { answers : Script.world; time : Z; steps : list N; log : list observation }.

Definition start (time : Z) (steps : list N) (answers : Script.world) : world :=
  {| answers := answers; time := time; steps := steps; log := [] |}.

Definition observe (o : observation) (w : world) : world :=
  {| answers := answers w; time := time w; steps := steps w; log := log w ++ [o] |}.

(** Each reading moves the time forward by the next step. *)
Definition tick (w : world) : Z * world :=
  let t := time w + Z.of_N (default 0%N (head (steps w))) in
  (t, {| answers := answers w; time := t; steps := tail (steps w); log := log w |}).

Definition answer (n : Z) (w : world) : option (list byte) * world :=
  let '(r, a) := Script.answer n (answers w) in
  (r, {| answers := a; time := time w; steps := steps w; log := log w |}).

Lemma tape_answer_fills n w bs w' : 0 <= n -> answer n w = (Some bs, w') -> zlen bs = n.
Proof.
  unfold answer. intros Hn. destruct (Script.answer n (answers w)) as [r a] eqn:E.
  intros [= -> <-]. by eapply Script.answer_fills.
Qed.

#[global] Instance rng : Rng world := {| getrandom := answer; getrandom_fills := tape_answer_fills |}.

Definition monitor : dyn_monitor world :=
  {| dyn_failure := fun c => observe (Failed c); dyn_anomalous := fun c => observe (Anomalous c);
     dyn_breach := fun c => observe (Breached c) |}.
Definition sink : dyn_sink world := {| dyn_event := fun e => observe (Audited e); dyn_no_op := false |}.
Definition clock : dyn_clock world := {| dyn_now := tick; dyn_unix := default_unix_time |}.
End Tape.

(** ** Properties *)

(** A composite of composites is the composite of all their monitors, in
    order: every event reaches every monitor exactly once. *)
Theorem composite_flatten {W} (groups : list (list (dyn_monitor W))) (w : W) :
  let nested := CompositeMonitor.new ((fun g => monitor_object (CompositeMonitor.new g)) <$> groups) in
  let flat := CompositeMonitor.new (concat groups) in
  (forall ctx, on_decryption_failure nested ctx w = on_decryption_failure flat ctx w) /\
  (forall ctx, on_anomalous_access nested ctx w = on_anomalous_access flat ctx w) /\
  (forall ctx, on_threshold_breach nested ctx w = on_threshold_breach flat ctx w).
Proof.
  cbn. split_and!; intros ctx; revert w; induction groups as [| g groups IH]; intros w; cbn;
    try done; rewrite foldl_app; apply IH.
Qed.
