(* ===== verification/Config.v ===== *)
(** * Vault configuration ([vault/mod.rs])

    [VaultConfig], its defaults, and what it means for its fields to hold
    values of their types. *)

From S2P Require Import Prelude Errors Rust Format.

Definition DEFAULT_MAX_FAILURES : Z := 0.
Definition DEFAULT_FAILURE_WINDOW : Z := duration_from_secs 60.
Definition MASTER_NAME : string := "<master>".
Definition NORMALIZATION_KEY_CONTEXT : string := "key-vault 2026-10 normalization key v1".

(** [struct VaultConfig]; durations are nanoseconds. *)
Record VaultConfig := {
  key_normalization : bool;
  keyed_normalization : bool;
  max_failures_before_lockout : Z;
  failure_window : Z;
  key_lockout_threshold : Z;
  key_lockout_window : Z;
  key_lockout_duration : option Z;
  master_backoff_base : Z;
  master_backoff_max : Z;
  page_protection : bool
}.

Module VaultConfig.
Definition new : VaultConfig := {|
  key_normalization := true;
  keyed_normalization := false;
  max_failures_before_lockout := DEFAULT_MAX_FAILURES;
  failure_window := DEFAULT_FAILURE_WINDOW;
  key_lockout_threshold := 0;
  key_lockout_window := DEFAULT_FAILURE_WINDOW;
  key_lockout_duration := None;
  master_backoff_base := 0;
  master_backoff_max := 0;
  page_protection := false
|}.

(** [derive(Debug)]. *)
Definition fmt (self : VaultConfig) : string :=
  debug_struct "VaultConfig" [
    ("key_normalization", debug_bool (key_normalization self));
    ("keyed_normalization", debug_bool (keyed_normalization self));
    ("max_failures_before_lockout", pretty (max_failures_before_lockout self));
    ("failure_window", debug_duration (failure_window self));
    ("key_lockout_threshold", pretty (key_lockout_threshold self));
    ("key_lockout_window", debug_duration (key_lockout_window self));
    ("key_lockout_duration", debug_option debug_duration (key_lockout_duration self));
    ("master_backoff_base", debug_duration (master_backoff_base self));
    ("master_backoff_max", debug_duration (master_backoff_max self));
    ("page_protection", debug_bool (page_protection self))].
End VaultConfig.

(** The fields hold values of their Rust types. *)
Record config_wf (c : VaultConfig) : Prop := {
  cw_max_failures : 0 <= max_failures_before_lockout c <= u32_max;
  cw_window : 0 <= failure_window c <= duration_max;
  cw_key_threshold : 0 <= key_lockout_threshold c <= u32_max;
  cw_key_window : 0 <= key_lockout_window c <= duration_max;
  cw_key_duration : forall d, key_lockout_duration c = Some d -> 0 <= d <= duration_max;
  cw_base : 0 <= master_backoff_base c <= duration_max;
  cw_max : 0 <= master_backoff_max c <= duration_max
}.

Lemma default_config_wf : config_wf VaultConfig.new.
Proof. split; cbn; unfold u32_max, duration_max, u64_max, nanos_per_sec; try done; lia. Qed.
