(* ===== verification/Lockout.v ===== *)
(** * Failure tracking and lockouts ([vault/mod.rs])

    The state the threshold detectors share and every operation on it, as
    transformers of that state and the outside world (clock and monitor).
    An abstract specification that remembers the whole failure history is at
    the end, with the proof that the eviction, the saturating counters and
    the fast path refine it. *)

From S2P Require Import Prelude Errors Rust Config Events.

(** The lockout fields of [VaultInner]. *)
Record LockState := {
  failure_tracker : gmap string (list Z);
  locked_out : bool;
  key_locks : gmap string (option Z);
  key_locks_active : Z
}.

Definition lock_init : LockState :=
  {| failure_tracker := ∅; locked_out := false; key_locks := ∅; key_locks_active := 0 |}.

Definition with_tracker (f : gmap string (list Z) -> gmap string (list Z)) (s : LockState) : LockState :=
  {| failure_tracker := f (failure_tracker s); locked_out := locked_out s;
     key_locks := key_locks s; key_locks_active := key_locks_active s |}.
Definition with_locked_out (b : bool) (s : LockState) : LockState :=
  {| failure_tracker := failure_tracker s; locked_out := b;
     key_locks := key_locks s; key_locks_active := key_locks_active s |}.
Definition with_locks (locks : gmap string (option Z)) (active : Z) (s : LockState) : LockState :=
  {| failure_tracker := failure_tracker s; locked_out := locked_out s;
     key_locks := locks; key_locks_active := active |}.

(** [struct FailureCounts]. *)
Record FailureCounts := {
  in_window : Z;
  in_key_window : Z;
  fc_window_elapsed : Z
}.

(** The eviction loop of [record_failure]. *)
Fixpoint evict (now keep : Z) (entries : list Z) : list Z :=
  match entries with
  | [] => []
  | front :: rest => if keep <? duration_saturating_sub now front then evict now keep rest else entries
  end.

Definition within (now window t : Z) : bool := duration_saturating_sub now t <=? window.

(** [count_within]: the number of entries in a window, as a [u32]. *)
Definition count_within (now : Z) (entries : list Z) (window : Z) : Z :=
  let n := zlen (filter (fun t => within now window t = true) entries) in
  default u32_max (u32_try_from n).

(** [.iter().find(..).copied()]. *)
Definition find_within (now window : Z) (entries : list Z) : option Z :=
  head (filter (fun t => within now window t = true) entries).

(** [record_failure] on the entries of one name. *)
Definition record_entries (config : VaultConfig) (now : Z) (per_key : bool) (entries : list Z)
    : FailureCounts * list Z :=
  let keep := failure_window config in
  let keep := if per_key then Z.max keep (key_lockout_window config) else keep in
  let entries := evict now keep entries ++ [now] in
  let oldest_in_window := default now (find_within now (failure_window config) entries) in
  ({| in_window := count_within now entries (failure_window config);
      in_key_window := if per_key then count_within now entries (key_lockout_window config) else 0;
      fc_window_elapsed := duration_saturating_sub now oldest_in_window |}, entries).

Section lockout.
Context {W C : Type} `{Clock W C}.
Context (config : VaultConfig) (monitor : dyn_monitor W) (clock : C).
Implicit Types s : LockState.
Implicit Types w : W.

(** [KeyVault::record_failure]. *)
Definition record_failure (key_name : string) (per_key : bool) s w : FailureCounts * LockState * W :=
  let '(now, w) := now clock w in
  let entries := default [] (failure_tracker s !! key_name) in
  let '(counts, entries) := record_entries config now per_key entries in
  (counts, with_tracker <[key_name := entries]> s, w).

(** The vault-wide half of [handle_failure]. *)
Definition vault_threshold (key_name : string) (counts : FailureCounts) s w : LockState * W :=
  let threshold := max_failures_before_lockout config in
  if (0 <? threshold) && (threshold <=? in_window counts) then
    let was_locked := locked_out s in
    let s := with_locked_out true s in
    let breach := {| tc_key_name := key_name; failures_in_window := in_window counts;
                     tc_window := failure_window config; lockout_triggered := negb was_locked;
                     scope := VaultScope |} in
    (s, on_threshold_breach monitor breach w)
  else (s, w).

(** The per-key half of [handle_failure]. *)
Definition key_threshold_step (key_name : string) (key_threshold : Z) (counts : FailureCounts) s w
    : LockState * W :=
  if (0 <? key_threshold) && (key_threshold <=? in_key_window counts) then
    let '(until, w) :=
      match key_lockout_duration config with
      | Some d => let '(now, w) := now clock w in (Some (duration_saturating_add now d), w)
      | None => (None, w)
      end in
    let previous := key_locks s !! key_name in
    let newly_locked := bool_decide (previous = None) in
    let s := with_locks (<[key_name := until]> (key_locks s))
               (if newly_locked then wrap64 (key_locks_active s + 1) else key_locks_active s) s in
    let breach := {| tc_key_name := key_name; failures_in_window := in_key_window counts;
                     tc_window := key_lockout_window config; lockout_triggered := newly_locked;
                     scope := KeyScope |} in
    (s, on_threshold_breach monitor breach w)
  else (s, w).

(** [KeyVault::handle_failure]. *)
Definition handle_failure (key_name : string) (note : option string) (per_key : bool) s w
    : LockState * W :=
  let note := default EmptyString note in
  let key_threshold := if per_key then key_lockout_threshold config else 0 in
  let '(counts, s, w) := record_failure key_name (0 <? key_threshold) s w in
  let ctx := {| fc_key_name := key_name; consecutive_failures := in_window counts;
                window_elapsed := fc_window_elapsed counts; fc_note := note |} in
  let w := on_decryption_failure monitor ctx w in
  let '(s, w) := vault_threshold key_name counts s w in
  key_threshold_step key_name key_threshold counts s w.

(** [KeyVault::report_failure]. *)
Definition report_failure (key_name : string) (note : option string) s w : LockState * W :=
  handle_failure key_name note true s w.

(** [KeyVault::report_anomalous_access]. *)
Definition report_anomalous_access (key_name : string) (note : option string) w : W :=
  on_anomalous_access monitor {| ac_key_name := key_name; ac_note := default EmptyString note |} w.

(** [KeyVault::key_locked_slow]. *)
Definition key_locked_slow (name : string) s w : bool * LockState * W :=
  match key_locks s !! name with
  | None => (false, s, w)
  | Some None => (true, s, w)
  | Some (Some until) =>
      let '(now, w) := now clock w in
      if now <? until then (true, s, w)
      else
        let s := with_locks (delete name (key_locks s)) (wrap64 (key_locks_active s - 1)) s in
        (false, with_tracker (delete name) s, w)
  end.

(** [KeyVault::key_locked], with the fast path. *)
Definition key_locked (name : string) s w : bool * LockState * W :=
  if key_locks_active s =? 0 then (false, s, w) else key_locked_slow name s w.
End lockout.

(** [KeyVault::clear_key_lockout]. *)
Definition clear_key_lockout (name : string) (s : LockState) : bool * LockState :=
  let removed := bool_decide (is_Some (key_locks s !! name)) in
  let s := with_locks (delete name (key_locks s))
             (if removed then wrap64 (key_locks_active s - 1) else key_locks_active s) s in
  (removed, with_tracker (delete name) s).

(** [KeyVault::clear_lockout]. *)
Definition clear_lockout (s : LockState) : LockState :=
  with_tracker (fun _ => ∅) (with_locks ∅ 0 (with_locked_out false s)).

(** ** The counter of active locks *)

(** [key_locks_active] is the number of entries of [key_locks], as a [u64]. *)
Definition lock_inv (s : LockState) : Prop :=
  key_locks_active s = wrap64 (Z.of_nat (size (key_locks s))).

Lemma wrap64_add a b : wrap64 (wrap64 a + b) = wrap64 (a + b).
Proof. unfold wrap64. by rewrite Zplus_mod_idemp_l. Qed.

Lemma wrap64_sub a b : wrap64 (wrap64 a - b) = wrap64 (a - b).
Proof. unfold wrap64. by rewrite Zminus_mod_idemp_l. Qed.

Lemma lock_init_inv : lock_inv lock_init.
Proof. unfold lock_inv; cbn. by rewrite map_size_empty. Qed.

Lemma delete_lock_inv s name :
  lock_inv s -> is_Some (key_locks s !! name) ->
  lock_inv (with_locks (delete name (key_locks s)) (wrap64 (key_locks_active s - 1)) s).
Proof.
  unfold lock_inv; cbn. intros -> [v Hv]. rewrite wrap64_sub, map_size_delete, Hv. f_equal.
  assert (size (key_locks s) <> 0%nat) by (intros E; apply map_size_empty_inv in E; by rewrite E in Hv).
  lia.
Qed.

Lemma insert_lock_inv s name v :
  lock_inv s ->
  lock_inv (with_locks (<[name := v]> (key_locks s))
    (if bool_decide (key_locks s !! name = None) then wrap64 (key_locks_active s + 1)
     else key_locks_active s) s).
Proof.
  unfold lock_inv; cbn. intros ->. rewrite map_size_insert.
  case_bool_decide as Hn; [rewrite Hn, wrap64_add; f_equal; lia |].
  by destruct (key_locks s !! name).
Qed.

Lemma clear_key_lockout_inv name s : lock_inv s -> lock_inv (clear_key_lockout name s).2.
Proof.
  intros Hs. unfold clear_key_lockout. cbn. case_bool_decide as Hd.
  - exact (delete_lock_inv s name Hs Hd).
  - unfold lock_inv; cbn. apply eq_None_not_Some in Hd. by rewrite delete_id.
Qed.

Lemma clear_lockout_inv s : lock_inv (clear_lockout s).
Proof. unfold lock_inv; cbn. by rewrite map_size_empty. Qed.

Section ops.
Context {W C : Type} `{Clock W C}.
Context (config : VaultConfig) (monitor : dyn_monitor W) (clock : C).

Lemma key_locked_slow_inv name s w : lock_inv s -> lock_inv (key_locked_slow clock name s w).1.2.
Proof.
  intros Hs. unfold key_locked_slow. destruct (key_locks s !! name) as [[until |] |] eqn:E; [| done..].
  destruct (now clock w) as [t w']. case_test; [done |]. cbn.
  by apply (delete_lock_inv s name Hs); rewrite E.
Qed.

(** With fewer than [2^64] locked names the fast path changes nothing. *)
Lemma key_locked_fast name s w :
  lock_inv s -> Z.of_nat (size (key_locks s)) < 2 ^ 64 ->
  key_locked clock name s w = key_locked_slow clock name s w.
Proof.
  intros Hs Hb. unfold key_locked. case_test; [| done]. tests. rewrite Hs in Ht.
  unfold wrap64 in Ht. rewrite Z.mod_small in Ht by lia.
  assert (size (key_locks s) = 0%nat) as E%map_size_empty_inv by lia.
  unfold key_locked_slow. by rewrite E, lookup_empty.
Qed.

Lemma key_locked_inv name s w : lock_inv s -> lock_inv (key_locked clock name s w).1.2.
Proof. intros Hs. unfold key_locked. case_test; [done | by apply key_locked_slow_inv]. Qed.

Lemma handle_failure_inv name note per_key s w :
  lock_inv s -> lock_inv (handle_failure config monitor clock name note per_key s w).1.
Proof.
  intros Hs. unfold handle_failure, record_failure. destruct (now clock w) as [t w1].
  destruct (record_entries _ _ _ _) as [counts entries].
  unfold vault_threshold. set (s1 := with_tracker _ s).
  assert (Hs1 : lock_inv s1) by done.
  case_test; unfold key_threshold_step; (case_test; [| done]);
    (destruct (key_lockout_duration config) as [d |]; [destruct (now clock _) as [t2 w2] |]);
    cbn [fst]; by apply insert_lock_inv.
Qed.

(** ** Whether a name is locked *)

(** The abstract reading of [key_locks] at a time. *)
Definition locked_at (s : LockState) (t : Z) (name : string) : bool :=
  match key_locks s !! name with
  | None => false
  | Some None => true
  | Some (Some until) => t <? until
  end.

(** The clock reading [key_locked] makes, if it makes one. *)
Definition reading (w : W) : Z := (now clock w).1.

Lemma key_locked_slow_spec name s w :
  let '(b, s', w') := key_locked_slow clock name s w in
  b = locked_at s (reading w) name /\
  locked_out s' = locked_out s /\
  (if b then s' = s
   else key_locks s' = delete name (key_locks s) /\
        failure_tracker s' = (if bool_decide (is_Some (key_locks s !! name))
          then delete name (failure_tracker s) else failure_tracker s)).
Proof.
  unfold key_locked_slow, locked_at, reading.
  destruct (key_locks s !! name) as [[until |] |] eqn:E.
  - destruct (now clock w) as [t w']. cbn [fst]. case_test; [done |].
    split_and!; [done.. |]. by rewrite bool_decide_eq_true_2 by done.
  - done.
  - split_and!; [done | done | by rewrite delete_id |].
    by rewrite bool_decide_eq_false_2 by (by intros []).
Qed.
End ops.

(** * The specification: full histories

    The abstract state keeps every failure reported for a name since it was
    last cleared; counts are taken over that history.  One thing is forgotten:
    master failures are filed under [MASTER_NAME], and each drops the leading
    entries of that name that are older than the vault-wide window, which a
    longer per-key window could still have counted had [report_failure] been
    called with that name. *)

Record History := {
  hist : gmap string (list Z);
  h_locked_out : bool;
  h_locks : gmap string (option Z)
}.

Definition history_init : History := {| hist := ∅; h_locked_out := false; h_locks := ∅ |}.

Definition count_history (now window : Z) (times : list Z) : Z :=
  zlen (filter (fun t => now - t <= window) times).

(** [times] without its leading entries older than [window]. *)
Fixpoint recent (now window : Z) (times : list Z) : list Z :=
  match times with
  | [] => []
  | t :: rest => if decide (window < now - t) then recent now window rest else times
  end.

Definition spec_times (config : VaultConfig) (per_key : bool) (h : History) (name : string) (now : Z) : list Z :=
  let times := default [] (hist h !! name) in
  (if per_key then times else recent now (failure_window config) times) ++ [now].

(** A failure reported for [name] at [t], with a later reading [t2] for the
    lockout's deadline. *)
Definition spec_report (config : VaultConfig) (per_key : bool) (name : string) (t t2 : Z)
    (h : History) : History :=
  let times := spec_times config per_key h name t in
  let n := count_history t (failure_window config) times in
  let k := count_history t (key_lockout_window config) times in
  let vault := max_failures_before_lockout config in
  let key := if per_key then key_lockout_threshold config else 0 in
  {| hist := <[name := times]> (hist h);
     h_locked_out := h_locked_out h || ((0 <? vault) && (vault <=? n));
     h_locks :=
       if (0 <? key) && (key <=? k)
       then <[name := option_map (duration_saturating_add t2) (key_lockout_duration config)]> (h_locks h)
       else h_locks h |}.

Definition spec_clear_key (name : string) (h : History) : History :=
  {| hist := delete name (hist h); h_locked_out := h_locked_out h; h_locks := delete name (h_locks h) |}.

Definition spec_clear (h : History) : History := history_init.

(** Asking at [t]: a lock whose deadline has come is cleared with the name's
    history. *)
Definition spec_query (t : Z) (name : string) (h : History) : bool * History :=
  match h_locks h !! name with
  | None => (false, h)
  | Some None => (true, h)
  | Some (Some until) => if t <? until then (true, h) else (false, spec_clear_key name h)
  end.

(** ** Refinement *)

(** How long an entry can count for some threshold. *)
Definition keep_window (config : VaultConfig) : Z :=
  if 0 <? key_lockout_threshold config
  then Z.max (failure_window config) (key_lockout_window config) else failure_window config.

(** [entries] is [times] without failures too old to matter at [t] or later. *)
Definition represents (keep t : Z) (entries times : list Z) : Prop :=
  exists dropped, times = dropped ++ entries /\ Forall (fun u => keep < t - u) dropped.

Record refines (config : VaultConfig) (t : Z) (s : LockState) (h : History) : Prop := {
  rf_locked : locked_out s = h_locked_out h;
  rf_locks : key_locks s = h_locks h;
  rf_entries name : represents (keep_window config) t
    (default [] (failure_tracker s !! name)) (default [] (hist h !! name))
}.

Lemma represents_later keep t t' entries times :
  t <= t' -> represents keep t entries times -> represents keep t' entries times.
Proof.
  intros Ht (d & -> & Hd). exists d. split; [done |]. eapply Forall_impl; [exact Hd |]. cbn. lia.
Qed.

Lemma evict_represents keep t entries times :
  0 <= keep -> represents keep t entries times -> represents keep t (evict t keep entries) times.
Proof.
  intros Hk. revert times. induction entries as [| u entries IH]; intros times (d & -> & Hd); cbn.
  { by exists d. }
  case_test; tests; [| by exists d].
  apply IH. exists (d ++ [u]). split; [by rewrite <- app_assoc |].
  apply Forall_app. split; [done |]. constructor; [| done].
  unfold duration_saturating_sub in Ht. lia.
Qed.

Lemma evict_recent t window times : 0 <= window -> evict t window times = recent t window times.
Proof.
  intros Hw. induction times as [| u times IH]; cbn; [done |]. unfold duration_saturating_sub.
  destruct (decide (window < t - u)).
  - by rewrite (proj2 (Z.ltb_lt _ _)) by lia.
  - by rewrite (proj2 (Z.ltb_ge _ _)) by lia.
Qed.

(** Evicting by a shorter window gives the recent part of the history. *)
Lemma represents_recent keep window t entries times :
  0 <= window <= keep -> represents keep t entries times -> evict t window entries = recent t window times.
Proof.
  intros Hw (d & -> & Hd). rewrite evict_recent by lia.
  induction Hd as [| u d Hu _ IH]; [done |]. cbn. rewrite decide_True by lia. exact IH.
Qed.

Lemma represents_refl keep t times : represents keep t times times.
Proof. by exists []. Qed.

Lemma represents_push keep t entries times :
  represents keep t entries times -> represents keep t (entries ++ [t]) (times ++ [t]).
Proof. intros (d & -> & Hd). exists d. by rewrite app_assoc. Qed.

Lemma count_within_history keep t entries times window :
  represents keep t entries times -> 0 <= window <= keep ->
  count_within t entries window = Z.min u32_max (count_history t window times).
Proof.
  intros (d & -> & Hd) Hw. unfold count_within, count_history.
  assert (E : filter (fun u => t - u <= window) (d ++ entries)
    = filter (fun u => within t window u = true) entries).
  { rewrite filter_app. replace (filter _ d) with (@nil Z).
    - cbn. apply list_filter_iff. intros u. unfold within, duration_saturating_sub.
      rewrite Z.leb_le. lia.
    - symmetry. induction Hd as [| u d Hu Hd IH]; [done |]. rewrite filter_cons_False; [done | lia]. }
  rewrite E. unfold u32_try_from. case_test; tests; cbn; lia.
Qed.

(** ** The clock contract *)

(** [time] bounds every reading from below and no callback turns it back:
    the documented monotonicity of [Clock::now]. *)
Class Monotone {W C} `{Clock W C} (monitor : dyn_monitor W) (clock : C) (time : W -> Z) : Prop := {
  mono_now w : time w <= (now clock w).1 <= time (now clock w).2;
  mono_failure ctx w : time w <= time (on_decryption_failure monitor ctx w);
  mono_breach ctx w : time w <= time (on_threshold_breach monitor ctx w)
}.

#[export] Instance tape_monotone : Monotone Tape.monitor Tape.clock Tape.time.
Proof. split; intros; cbn; lia. Qed.

Section refinement.
Context {W C : Type} `{Clock W C}.
Context (config : VaultConfig) (monitor : dyn_monitor W) (clock : C) (time : W -> Z).
Context `{!Monotone monitor clock time} (Hwf : config_wf config).

Lemma refines_later t t' s h :
  t <= t' -> refines config t s h -> refines config t' s h.
Proof. intros Ht [H1 H2 H3]. split; [done.. |]. intros name. by eapply represents_later. Qed.

(** The counts and the entries of one failure agree with the history. *)
Lemma record_entries_refines (per_key : bool) t0 t entries (h : History) (name : string) :
  t0 <= t -> represents (keep_window config) t0 entries (default [] (hist h !! name)) ->
  let key := if per_key then key_lockout_threshold config else 0 in
  let times := spec_times config per_key h name t in
  let '(counts, entries') := record_entries config t (0 <? key) entries in
  represents (keep_window config) t entries' times /\
  in_window counts = Z.min u32_max (count_history t (failure_window config) times) /\
  (0 < key -> in_key_window counts = Z.min u32_max (count_history t (key_lockout_window config) times)).
Proof.
  intros Ht Hr. destruct Hwf as [_ Hw _ Hkw _ _ _]. cbn zeta.
  apply represents_later with (t' := t) in Hr; [| done].
  assert (Hk : 0 <= failure_window config <= keep_window config) by (unfold keep_window; case_test; lia).
  assert (represents (keep_window config) t
    (record_entries config t (0 <? if per_key then key_lockout_threshold config else 0) entries).2
    (spec_times config per_key h name t)) as Hr'.
  { unfold record_entries, spec_times. cbn [snd]. apply represents_push. destruct per_key.
    - unfold keep_window in *. case_test; apply evict_represents; done || lia.
    - cbv iota. change (0 <? 0) with false. cbv iota.
      rewrite (represents_recent _ _ _ _ _ Hk Hr). apply represents_refl. }
  unfold record_entries in *. cbn [snd] in Hr'. split_and!; [done | by eapply count_within_history |].
  intros Hkey. cbn [in_key_window]. rewrite (proj2 (Z.ltb_lt _ _) Hkey) in *.
  eapply count_within_history; [exact Hr' |]. unfold keep_window.
  destruct per_key; [| lia]. rewrite (proj2 (Z.ltb_lt _ _) Hkey). lia.
Qed.

Lemma threshold_min threshold n :
  threshold <= u32_max -> (threshold <=? Z.min u32_max n) = (threshold <=? n).
Proof. intros. destruct (Z.leb_spec threshold n); [apply Z.leb_le | apply Z.leb_gt]; lia. Qed.

Lemma vault_threshold_spec name counts s w :
  let '(s', w') := vault_threshold config monitor name counts s w in
  let vault := max_failures_before_lockout config in
  time w <= time w' /\
  s' = with_locked_out (locked_out s || ((0 <? vault) && (vault <=? in_window counts))) s.
Proof.
  unfold vault_threshold. case_test.
  - split; [apply mono_breach | by rewrite orb_true_r].
  - split; [lia | rewrite orb_false_r; by destruct s].
Qed.

Lemma key_threshold_step_spec name key counts s w :
  exists t2,
  let '(s', w') := key_threshold_step config monitor clock name key counts s w in
  time w <= t2 <= time w' /\ failure_tracker s' = failure_tracker s /\ locked_out s' = locked_out s /\
  key_locks s' = if (0 <? key) && (key <=? in_key_window counts)
    then <[name := option_map (duration_saturating_add t2) (key_lockout_duration config)]> (key_locks s)
    else key_locks s.
Proof.
  unfold key_threshold_step. pose proof (mono_breach (monitor := monitor) (clock := clock)) as Hb.
  case_test; [| exists (time w); split_and!; [lia.. | done | done | done]].
  destruct (key_lockout_duration config) as [d |].
  - pose proof (mono_now (monitor := monitor) (clock := clock) w) as Hm.
    destruct (now clock w) as [t w1]. exists t. cbn [fst snd] in *.
    split_and!; [lia | etrans; [apply Hm | apply Hb] | done..].
  - exists (time w). split_and!; [lia | apply Hb | done..].
Qed.

(** Reporting a failure simulates the specification: the failure count over
    the whole history decides both lockouts. *)
Lemma handle_failure_refines name note (per_key : bool) s h w :
  refines config (time w) s h ->
  exists t2,
    let t := reading clock w in
    let '(s', w') := handle_failure config monitor clock name note per_key s w in
    time w <= t <= t2 /\ t2 <= time w' /\
    refines config (time w') s' (spec_report config per_key name t t2 h).
Proof.
  intros [Hl Hk He]. unfold handle_failure, record_failure, reading.
  pose proof (mono_now (monitor := monitor) (clock := clock) w) as Hm.
  destruct (now clock w) as [t w1] eqn:En. cbn [fst snd] in *.
  set (key := if per_key then key_lockout_threshold config else 0).
  pose proof (record_entries_refines per_key (time w) t _ h name ltac:(lia) (He name)) as Hr.
  cbn zeta in Hr. fold key in Hr.
  destruct (record_entries config t (0 <? key) _) as [counts entries]. destruct Hr as (Hr & Hc & Hck).
  set (s1 := with_tracker _ s). set (ctx := Build_FailureContext _ _ _ _).
  pose proof (mono_failure (monitor := monitor) (clock := clock) ctx w1) as Hmf.
  set (w2 := on_decryption_failure monitor ctx w1) in *.
  pose proof (vault_threshold_spec name counts s1 w2) as Hv.
  destruct (vault_threshold config monitor name counts s1 w2) as [s2 w3]. destruct Hv as [Hw3 ->].
  set (s2 := with_locked_out _ s1).
  destruct (key_threshold_step_spec name key counts s2 w3) as (t2 & Hks).
  exists t2. destruct (key_threshold_step config monitor clock name key counts s2 w3) as [s3 w4].
  destruct Hks as (Hw4 & Htr & Hlo & Hlk). split_and!; [lia.. |].
  destruct Hwf as [Hmax _ Hkt _ _ _ _]. split.
  - rewrite Hlo. cbn. rewrite Hl, Hc, threshold_min by lia. done.
  - rewrite Hlk. cbn. rewrite Hk. fold key.
    destruct (0 <? key) eqn:Ek; [| done]. tests. rewrite Hck by done.
    rewrite threshold_min by (subst key; destruct per_key; lia). done.
  - intros name'. rewrite Htr. cbn. destruct (decide (name' = name)) as [-> | Hne].
    + rewrite !lookup_insert_eq. cbn. eapply represents_later; [| exact Hr]. lia.
    + rewrite !lookup_insert_ne by done. eapply represents_later; [| apply He]. lia.
Qed.

Lemma clear_key_lockout_refines name s h w :
  refines config (time w) s h ->
  refines config (time w) (clear_key_lockout name s).2 (spec_clear_key name h).
Proof.
  intros [Hl Hk He]. split; cbn; [done | by rewrite Hk |].
  intros name'. destruct (decide (name' = name)) as [-> | Hne].
  - rewrite !lookup_delete_eq. by exists [].
  - rewrite !lookup_delete_ne by done. apply He.
Qed.

Lemma clear_lockout_refines s h w :
  refines config (time w) s h -> refines config (time w) (clear_lockout s) (spec_clear h).
Proof. intros _. split; cbn; [done.. |]. intros name. rewrite !lookup_empty. by exists []. Qed.

(** Asking whether a name is locked answers for some time during the call; a
    lock found expired is cleared together with the name's history. *)
Lemma key_locked_refines name s h w :
  lock_inv s -> Z.of_nat (size (key_locks s)) < 2 ^ 64 -> refines config (time w) s h ->
  let '(b, s', w') := key_locked clock name s w in
  exists t, time w <= t <= time w' /\ b = (spec_query t name h).1 /\
    refines config (time w') s' (spec_query t name h).2.
Proof.
  intros Hinv Hb Hr. rewrite key_locked_fast by done. unfold key_locked_slow, spec_query.
  pose proof (rf_locks _ _ _ _ Hr) as Hk. rewrite Hk.
  pose proof (mono_now (monitor := monitor) (clock := clock) w) as Hm.
  destruct (h_locks h !! name) as [[until |] |]; [| exists (time w); split_and!; done || lia..].
  destruct (now clock w) as [t w1]. cbn [fst snd] in *.
  assert (refines config (time w1) s h) as Hr1 by (eapply refines_later; [| exact Hr]; lia).
  destruct (t <? until) eqn:E; exists t; rewrite E; (split; [lia |]); (split; [done |]); [done |]. cbn [snd].
  destruct Hr1 as [Hl _ He]. split; cbn; [done | done |].
  intros name'. destruct (decide (name' = name)) as [-> | Hne].
  - rewrite !lookup_delete_eq. by exists [].
  - rewrite !lookup_delete_ne by done. apply He.
Qed.
End refinement.

(** ** Traces of operations *)

Inductive lock_op :=
| OpReport (name : string) (note : option string)
| OpMasterFailure (note : option string)
| OpQuery (name : string)
| OpClearKey (name : string)
| OpClear.

(** An operation, with the answer it gives its caller, if it gives one. *)
Definition run_op {W C} `{Clock W C} (config : VaultConfig) (monitor : dyn_monitor W) (clock : C)
    (op : lock_op) (sw : LockState * W) : option bool * (LockState * W) :=
  let '(s, w) := sw in
  match op with
  | OpReport name note => (None, report_failure config monitor clock name note s w)
  | OpMasterFailure note => (None, handle_failure config monitor clock MASTER_NAME note false s w)
  | OpQuery name => let '(b, s, w) := key_locked clock name s w in (Some b, (s, w))
  | OpClearKey name => let '(b, s) := clear_key_lockout name s in (Some b, (s, w))
  | OpClear => (None, (clear_lockout s, w))
  end.

Fixpoint run_ops {W C} `{Clock W C} (config : VaultConfig) (monitor : dyn_monitor W) (clock : C)
    (ops : list lock_op) (sw : LockState * W) : list (option bool) * (LockState * W) :=
  match ops with
  | [] => ([], sw)
  | op :: ops =>
      let '(a, sw) := run_op config monitor clock op sw in
      let '(answers, sw) := run_ops config monitor clock ops sw in
      (a :: answers, sw)
  end.

(** One operation of the specification, at times between [t0] and [t1]. *)
Inductive spec_step (config : VaultConfig) (t0 t1 : Z) : lock_op -> History -> option bool -> History -> Prop :=
| SReport name note t t2 h : t0 <= t <= t2 -> t2 <= t1 ->
    spec_step config t0 t1 (OpReport name note) h None (spec_report config true name t t2 h)
| SMaster note t t2 h : t0 <= t <= t2 -> t2 <= t1 ->
    spec_step config t0 t1 (OpMasterFailure note) h None (spec_report config false MASTER_NAME t t2 h)
| SQuery name t h : t0 <= t <= t1 ->
    spec_step config t0 t1 (OpQuery name) h (Some (spec_query t name h).1) (spec_query t name h).2
| SClearKey name h :
    spec_step config t0 t1 (OpClearKey name) h (Some (bool_decide (is_Some (h_locks h !! name))))
      (spec_clear_key name h)
| SClear h : spec_step config t0 t1 OpClear h None (spec_clear h).

Inductive spec_run (config : VaultConfig)
    : Z -> list lock_op -> History -> list (option bool) -> Z -> History -> Prop :=
| RunNil t h : spec_run config t [] h [] t h
| RunCons t0 t1 t2 op ops h a h1 answers h2 : t0 <= t1 -> spec_step config t0 t1 op h a h1 ->
    spec_run config t1 ops h1 answers t2 h2 -> spec_run config t0 (op :: ops) h (a :: answers) t2 h2.

Section traces.
Context {W C : Type} `{Clock W C}.
Context (config : VaultConfig) (monitor : dyn_monitor W) (clock : C) (time : W -> Z).
Context `{!Monotone monitor clock time} (Hwf : config_wf config).

Lemma refines_init w : refines config (time w) lock_init history_init.
Proof. split; cbn; [done.. |]. intros name. rewrite !lookup_empty. by exists []. Qed.

Lemma spec_report_size per_key name t t2 h :
  (size (h_locks (spec_report config per_key name t t2 h)) <= S (size (h_locks h)))%nat.
Proof.
  cbn. case_match; [| lia]. rewrite map_size_insert. destruct (h_locks h !! name); cbn; lia.
Qed.

Lemma spec_clear_key_size name h : (size (h_locks (spec_clear_key name h)) <= S (size (h_locks h)))%nat.
Proof. cbn. rewrite map_size_delete. case_match; cbn; lia. Qed.

Lemma spec_step_size t0 t1 op h a h' :
  spec_step config t0 t1 op h a h' -> (size (h_locks h') <= S (size (h_locks h)))%nat.
Proof.
  intros []; [apply spec_report_size.. | | apply spec_clear_key_size | cbn; rewrite map_size_empty; lia].
  unfold spec_query. repeat case_match; cbn [snd]; try lia. apply spec_clear_key_size.
Qed.

(** One operation simulates one step of the specification. *)
Lemma run_op_refines op s h w :
  lock_inv s -> Z.of_nat (size (key_locks s)) < 2 ^ 64 -> refines config (time w) s h ->
  let '(a, (s', w')) := run_op config monitor clock op (s, w) in
  exists h', time w <= time w' /\ spec_step config (time w) (time w') op h a h' /\
    refines config (time w') s' h' /\ lock_inv s'.
Proof.
  intros Hinv Hb Hr. destruct op as [name note | note | name | name |]; cbn [run_op].
  - destruct (handle_failure_refines config monitor clock time Hwf name note true s h w Hr) as (t2 & Hs).
    pose proof (handle_failure_inv config monitor clock name note true s w Hinv) as Hinv'.
    unfold report_failure. cbn zeta in Hs. destruct (handle_failure _ _ _ name note true s w) as [s' w'].
    destruct Hs as (Ht & Hw & Hr'). eexists. split_and!; [lia | by apply SReport | done | done].
  - destruct (handle_failure_refines config monitor clock time Hwf MASTER_NAME note false s h w Hr) as (t2 & Hs).
    pose proof (handle_failure_inv config monitor clock MASTER_NAME note false s w Hinv) as Hinv'.
    cbn zeta in Hs. destruct (handle_failure _ _ _ MASTER_NAME note false s w) as [s' w'].
    destruct Hs as (Ht & Hw & Hr'). eexists. split_and!; [lia | by apply SMaster | done | done].
  - pose proof (key_locked_refines config monitor clock time name s h w Hinv Hb Hr) as Hs.
    pose proof (key_locked_inv clock name s w Hinv) as Hinv'.
    destruct (key_locked clock name s w) as [[b s'] w']. destruct Hs as (t & Ht & -> & Hr').
    eexists. split_and!; [lia | by apply SQuery | done..].
  - pose proof (clear_key_lockout_inv name s Hinv) as Hinv'.
    pose proof (clear_key_lockout_refines config time name s h w Hr) as Hr'.
    pose proof (SClearKey config (time w) (time w) name h) as Hq. rewrite <- (rf_locks _ _ _ _ Hr) in Hq.
    unfold clear_key_lockout in *. cbn [snd] in *. eexists. split_and!; [lia | exact Hq | done..].
  - eexists. split_and!; [lia | constructor | by eapply clear_lockout_refines | by apply clear_lockout_inv].
Qed.

Lemma run_ops_refines ops s h w :
  lock_inv s -> Z.of_nat (size (key_locks s) + length ops) < 2 ^ 64 -> refines config (time w) s h ->
  let '(answers, (s', w')) := run_ops config monitor clock ops (s, w) in
  exists h', spec_run config (time w) ops h answers (time w') h' /\ refines config (time w') s' h' /\
    lock_inv s' /\ Z.of_nat (size (key_locks s')) < 2 ^ 64.
Proof.
  revert s h w. induction ops as [| op ops IH]; intros s h w Hinv Hb Hr; cbn [run_ops].
  { exists h. split_and!; [constructor | done | done | cbn in Hb; lia]. }
  cbn [length] in Hb. pose proof (run_op_refines op s h w Hinv ltac:(lia) Hr) as Hs.
  destruct (run_op config monitor clock op (s, w)) as [a [s1 w1]].
  destruct Hs as (h1 & Hw & Hst & Hr1 & Hinv1). pose proof (spec_step_size _ _ _ _ _ _ Hst) as Hsz.
  rewrite <- (rf_locks _ _ _ _ Hr), <- (rf_locks _ _ _ _ Hr1) in Hsz.
  pose proof (IH s1 h1 w1 Hinv1 ltac:(lia) Hr1) as Hrest.
  destruct (run_ops config monitor clock ops (s1, w1)) as [answers [s' w']]. destruct Hrest as (h' & Hrun & ?).
  exists h'. split; [by econstructor | done].
Qed.

(** From the initial state. *)
Lemma run_ops_init ops w :
  Z.of_nat (length ops) < 2 ^ 64 ->
  let '(answers, (s, w')) := run_ops config monitor clock ops (lock_init, w) in
  exists h, spec_run config (time w) ops history_init answers (time w') h /\ refines config (time w') s h /\
    lock_inv s /\ Z.of_nat (size (key_locks s)) < 2 ^ 64.
Proof.
  intros Hl. apply run_ops_refines; [apply lock_init_inv | | apply refines_init].
  assert (size (key_locks lock_init) = 0%nat) as -> by apply map_size_empty. cbn. lia.
Qed.
End traces.

(** A run of reports for one name, all within one failure window. *)
Lemma reports_in_window config name note k T t h answers t' h' :
  spec_run config t (replicate k (OpReport name note)) h answers t' h' ->
  T <= t -> t' - T <= failure_window config ->
  Forall (Z.le T) (default [] (hist h !! name)) ->
  h_locked_out h = ((0 <? max_failures_before_lockout config) &&
    (max_failures_before_lockout config <=? zlen (default [] (hist h !! name)))) ->
  h_locked_out h' = ((0 <? max_failures_before_lockout config) &&
    (max_failures_before_lockout config <=? zlen (default [] (hist h !! name)) + Z.of_nat k)).
Proof.
  revert t h answers. induction k as [| k IH]; cbn [replicate]; intros t h answers Hrun HT Hw Hall Hl.
  { inversion Hrun; subst. by rewrite Z.add_0_r. }
  inversion Hrun as [| t0 t1 t2' op ops h0 a h1 answers' h2 Ht Hst Hrest]; subst. clear Hrun.
  inversion Hst as [name' note' t1' t2 h0 Ht1 Ht2 | | | |]; subst. clear Hst.
  assert (Hmono : t1 <= t').
  { clear -Hrest. remember (replicate k (OpReport name note)) as ops eqn:E. clear E.
    induction Hrest; lia. }
  set (times := spec_times config true h name t1') in *.
  assert (Hall' : Forall (Z.le T) times) by (apply Forall_app; split; [done | constructor; [lia | done]]).
  assert (Hcount : count_history t1' (failure_window config) times = zlen times).
  { unfold count_history. f_equal. clear -Hall' Hmono Hw Ht2 Ht1.
    induction Hall' as [| u us Hu Hus IH]; [done |]. rewrite filter_cons_True by lia. by rewrite IH. }
  assert (Hlen : zlen times = zlen (default [] (hist h !! name)) + 1)
    by (unfold times, spec_times; rewrite zlen_app; done).
  assert (Eh : default [] (hist (spec_report config true name t1' t2 h) !! name) = times)
    by (cbn [spec_report hist]; by rewrite lookup_insert_eq).
  apply IH in Hrest; [| lia | done | by rewrite Eh |].
  - rewrite Hrest, Eh. do 2 f_equal. lia.
  - rewrite Eh. cbn [spec_report h_locked_out]. fold times. rewrite Hl, Hcount, Hlen.
    destruct (0 <? max_failures_before_lockout config); cbn; [| done].
    destruct (Z.leb_spec (max_failures_before_lockout config) (zlen (default [] (hist h !! name)))); cbn; [| done].
    symmetry. apply Z.leb_le. lia.
Qed.

(** ** Properties *)

(** C23: Refinement.  Under a monotone clock (what the trait documents), every
    sequence of failure reports, for any names, master failures, lock queries
    and clears from the initial state gives the answers, the vault-wide flag
    and the locks of the specification that keeps every failure since the
    last clear and counts over them: the bounded tracker, its evictions, the
    saturating counters, the active-lock counter and its fast path are
    unobservable.  The one exception is part of the specification: a master
    failure forgets those reports made under the reserved name [<master>]
    that have left the vault-wide window. *)
Theorem lockout_refinement {W C} `{Clock W C} (config : VaultConfig) (monitor : dyn_monitor W)
    (clock : C) (time : W -> Z) `{!Monotone monitor clock time} (ops : list lock_op) (w : W) :
  config_wf config -> Z.of_nat (length ops) < 2 ^ 64 ->
  let '(answers, (s, w')) := run_ops config monitor clock ops (lock_init, w) in
  exists h, spec_run config (time w) ops history_init answers (time w') h /\
    locked_out s = h_locked_out h /\ key_locks s = h_locks h /\
    forall name, represents (keep_window config) (time w')
      (default [] (failure_tracker s !! name)) (default [] (hist h !! name)).
Proof.
  intros Hwf Hlen. pose proof (run_ops_init config monitor clock time Hwf ops w Hlen) as Hr.
  destruct (run_ops _ _ _ ops _) as [answers [s w']]. destruct Hr as (h & Hrun & [H1 H2 H3] & _).
  by exists h.
Qed.

(** A configuration with both lockouts, for the witnesses: two failures lock
    one key for 100 ns, three lock the vault, windows of 50 and 60 ns. *)
Definition demo_config : VaultConfig := {|
  key_normalization := false; keyed_normalization := false;
  max_failures_before_lockout := 3; failure_window := 60;
  key_lockout_threshold := 2; key_lockout_window := 50; key_lockout_duration := Some 100;
  master_backoff_base := 0; master_backoff_max := 0; page_protection := false
|}.

Lemma demo_config_wf : config_wf demo_config.
Proof.
  split; cbn; unfold u32_max, duration_max, u64_max, nanos_per_sec; try done; try lia.
  intros d [= <-]. done.
Defined.

Lemma lockout_refinement_witness :
  let ops := [OpReport "k" None; OpQuery "k"; OpReport "k" None; OpQuery "k"; OpMasterFailure None;
              OpClearKey "k"; OpReport MASTER_NAME None] in
  let w := Tape.start 0 [10; 20; 30]%N [] in
  (run_ops demo_config Tape.monitor Tape.clock ops (lock_init, w)).1 =
    [None; Some false; None; Some true; None; Some true; None] /\
  let '(answers, (s, w')) := run_ops demo_config Tape.monitor Tape.clock ops (lock_init, w) in
  exists h, spec_run demo_config (Tape.time w) ops history_init answers (Tape.time w') h /\
    locked_out s = h_locked_out h /\ key_locks s = h_locks h /\
    forall name, represents (keep_window demo_config) (Tape.time w')
      (default [] (failure_tracker s !! name)) (default [] (hist h !! name)).
Proof.
  intros ops w. split; [vm_compute; reflexivity |].
  apply (lockout_refinement demo_config Tape.monitor Tape.clock Tape.time ops w).
  - apply demo_config_wf.
  - done.
Defined.

(** What the exception comes to.  The windows are 10 and 100 ns and four
    failures lock a key.  Four reports under the reserved name, at 0, 50, 60
    and 61, lock it.  If the one at 50 is a wrong master credential instead,
    it is filed under the same name, but it also drops the report at 0, so the
    lock comes one report late. *)
Definition master_config : VaultConfig := {|
  key_normalization := false; keyed_normalization := false;
  max_failures_before_lockout := 0; failure_window := 10;
  key_lockout_threshold := 4; key_lockout_window := 100; key_lockout_duration := None;
  master_backoff_base := 0; master_backoff_max := 0; page_protection := false
|}.

Lemma master_failure_forgets :
  let locks ops ticks := key_locks (run_ops master_config Tape.monitor Tape.clock ops
    (lock_init, Tape.start 0 ticks [])).2.1 !! MASTER_NAME in
  let report := OpReport MASTER_NAME None in
  locks [report; report; report; report] [0; 50; 10; 1]%N = Some None /\
  locks [report; OpMasterFailure None; report; report] [0; 50; 10; 1]%N = None /\
  locks [report; OpMasterFailure None; report; report; report] [0; 50; 10; 1; 1]%N = Some None.
Proof. vm_compute. done. Qed.

(** The active-lock counter is exact after every sequence of operations, so
    the fast path of [key_locked] never changes its answer or its effect. *)
Theorem key_locked_fast_path {W C} `{Clock W C} (config : VaultConfig) (monitor : dyn_monitor W)
    (clock : C) (time : W -> Z) `{!Monotone monitor clock time} (ops : list lock_op) (w : W) :
  config_wf config -> Z.of_nat (length ops) < 2 ^ 64 ->
  let '(_, (s, w')) := run_ops config monitor clock ops (lock_init, w) in
  key_locks_active s = Z.of_nat (size (key_locks s)) /\
  forall name w1, key_locked clock name s w1 = key_locked_slow clock name s w1.
Proof.
  intros Hwf Hlen. pose proof (run_ops_init config monitor clock time Hwf ops w Hlen) as Hr.
  destruct (run_ops _ _ _ ops _) as [answers [s w']]. destruct Hr as (h & _ & _ & Hinv & Hb). split.
  - rewrite Hinv. unfold wrap64. apply Z.mod_small. lia.
  - intros name w1. by apply key_locked_fast.
Qed.

(** The vault-wide threshold, end to end.  From the initial state, [k]
    reports for one name, all within one failure window, lock the vault
    exactly when the threshold is on and [k] reaches it. *)
Theorem vault_lockout_threshold {W C} `{Clock W C} (config : VaultConfig) (monitor : dyn_monitor W)
    (clock : C) (time : W -> Z) `{!Monotone monitor clock time} (name : string) (note : option string)
    (k : nat) (w : W) :
  config_wf config -> Z.of_nat k < 2 ^ 64 ->
  let '(_, (s, w')) := run_ops config monitor clock (replicate k (OpReport name note)) (lock_init, w) in
  time w' - time w <= failure_window config ->
  locked_out s = true <->
    0 < max_failures_before_lockout config /\ max_failures_before_lockout config <= Z.of_nat k.
Proof.
  intros Hwf Hk. set (ops := replicate k (OpReport name note)).
  pose proof (run_ops_init config monitor clock time Hwf ops w
    ltac:(subst ops; by rewrite length_replicate)) as Hr.
  destruct (run_ops _ _ _ ops _) as [answers [s w']]. destruct Hr as (h & Hrun & Hr & _). intros Hw.
  rewrite (rf_locked _ _ _ _ Hr).
  rewrite (reports_in_window config name note k (time w) _ _ _ _ _ Hrun ltac:(lia) Hw).
  - cbn. rewrite lookup_empty. cbn. rewrite andb_true_iff, Z.ltb_lt, Z.leb_le. done.
  - cbn. by rewrite lookup_empty.
  - cbn. rewrite lookup_empty. cbn. symmetry. apply andb_false_iff.
    destruct (Z.leb_spec (max_failures_before_lockout config) 0); [left; by apply Z.ltb_ge | right; by apply Z.leb_gt].
Qed.

(** Per-key isolation.  Reporting failures for one name, asking about it or
    clearing it never changes another name's lock or its recorded failures. *)
Theorem lockout_isolation {W C} `{Clock W C} (config : VaultConfig) (monitor : dyn_monitor W)
    (clock : C) (name other : string) (note : option string) (per_key : bool) (s : LockState) (w : W) :
  other <> name ->
  let same s' := key_locks s' !! other = key_locks s !! other /\
                 failure_tracker s' !! other = failure_tracker s !! other in
  same (handle_failure config monitor clock name note per_key s w).1 /\
  same (key_locked clock name s w).1.2 /\
  same (clear_key_lockout name s).2.
Proof.
  intros Hne same. subst same. split_and!.
  1, 2: unfold handle_failure, record_failure; destruct (now clock w) as [t w1];
    destruct (record_entries _ _ _ _) as [counts entries];
    unfold vault_threshold; case_test; unfold key_threshold_step;
    (case_test; [destruct (key_lockout_duration config); [destruct (now clock _) |] |]);
    cbn; by rewrite ?lookup_insert_ne by done.
  1, 2: unfold key_locked, key_locked_slow; case_test; [done |];
    destruct (key_locks s !! name) as [[until |] |]; [destruct (now clock w); case_test | |];
    cbn; by rewrite ?lookup_delete_ne by done.
  all: cbn; by rewrite lookup_delete_ne by done.
Qed.

Lemma lockout_isolation_witness :
  let w := Tape.start 0 [10; 20]%N [] in
  let s := with_locks {["b" := Some 5]} 1 lock_init in
  let same s' := key_locks s' !! "b" = key_locks s !! "b" /\
                 failure_tracker s' !! "b" = failure_tracker s !! "b" in
  same (handle_failure demo_config Tape.monitor Tape.clock "a" None true s w).1 /\
  same (key_locked Tape.clock "a" s w).1.2 /\ same (clear_key_lockout "a" s).2.
Proof.
  intros w s. exact (lockout_isolation demo_config Tape.monitor Tape.clock "a" "b" None true s w
    ltac:(discriminate)).
Defined.

(** A per-key lock that has expired but was not looked up since is still in
    the map: a new breach replaces it and tells the monitor that it did not
    start a lockout, although the key was usable a moment before. *)
Lemma expired_lock_not_reported_as_new :
  exists (s : LockState) (w : Tape.world) (t : Z),
    (now Tape.clock w).1 = t /\ locked_at s t "k" = false /\
    let '(s', w') := report_failure demo_config Tape.monitor Tape.clock "k" None s w in
    locked_at s' t "k" = true /\
    last (Tape.log w') = Some (Tape.Breached
      {| tc_key_name := "k"; failures_in_window := 2; tc_window := 50;
         lockout_triggered := false; scope := KeyScope |}).
Proof.
  exists {| failure_tracker := {["k" := [200]]}; locked_out := false;
            key_locks := {["k" := Some 150]}; key_locks_active := 1 |}.
  exists (Tape.start 200 [20]%N []), 220. split_and!; vm_compute; done.
Qed.

(** For the same reason [clear_key_lockout] reports [true] for a name that
    is not locked. *)
Lemma clear_expired_reports_true :
  exists s t, locked_at s t "k" = false /\ (clear_key_lockout "k" s).1 = true.
Proof.
  exists {| failure_tracker := ∅; locked_out := false;
            key_locks := {["k" := Some 150]}; key_locks_active := 1 |}, 200.
  split; vm_compute; reflexivity.
Qed.
