(* ===== verification/VaultState.v ===== *)
(** * The vault: data and the one-shot pipeline ([vault/mod.rs])

    [VaultInner] is what never changes after [build]; [VaultState] is what a
    thread of the process sees: the registry, the lockout state, the backoff,
    the handle counter, this thread's scratch buffer, the process's protected
    regions and the outside world.  Every operation is a computation over
    [VaultState]. *)

From S2P Require Import Prelude Errors Rust Format Rng RawKey Normalize Codex Fragment Standard.
From S2P Require Import Os Guarded Handle Events Config Lockout.

(** ** Data *)

(** [struct KeyEntry]. *)
Record KeyEntry := {
  entry_name : string;
  entry_fragments : Fragments;
  entry_metadata : KeyMetadata
}.

(** [enum Fragmenter]. *)
Inductive Fragmenter (W : Type) :=
| FragmenterStandard (s : StandardFragmenter W)
| FragmenterCustom (c : dyn_strategy W).
Arguments FragmenterStandard {W}.
Arguments FragmenterCustom {W}.

Lemma fragmenter_into_length {W} `{Rng W} (self : Fragmenter W) frags out :
  length (snd (match self with
               | FragmenterStandard s => defragment_into (W := W) s frags
               | FragmenterCustom c => defragment_into (W := W) c frags
               end out)) = length out.
Proof. destruct self; apply (defragment_into_length (W := W)). Qed.

(** [impl Fragmenter]: dispatch. *)
#[export] Instance strategy_fragmenter {W} `{Rng W} : FragmentStrategy W (Fragmenter W) := {|
  fragment := fun self key =>
    match self with FragmenterStandard s => fragment s key | FragmenterCustom c => fragment c key end;
  defragment := fun self fragments =>
    match self with
    | FragmenterStandard s => defragment (W := W) s fragments
    | FragmenterCustom c => defragment (W := W) c fragments
    end;
  defragment_into := fun self fragments =>
    match self with
    | FragmenterStandard s => defragment_into (W := W) s fragments
    | FragmenterCustom c => defragment_into (W := W) c fragments
    end;
  fragment_describe := fun self =>
    match self with
    | FragmenterStandard s => fragment_describe (W := W) s
    | FragmenterCustom c => fragment_describe (W := W) c
    end;
  defragment_into_length := fragmenter_into_length
|}.

(** [struct SecretBytes]. *)
Record SecretBytes := { secret_fragments : Fragments }.

(** [enum Normalizer], [enum MasterVerifier]. *)
Inductive Normalizer :=
| NormalizerOff | NormalizerPlain | NormalizerKeyed (secret : SecretBytes)
| NormalizerUnavailable (reason : string).

Inductive MasterVerifier :=
| MasterReady (secret : SecretBytes) | MasterUnavailable (reason : string).

(** [enum VaultClock]. *)
Inductive VaultClock (W : Type) := ClockStd | ClockCustom (c : dyn_clock W).
Arguments ClockStd {W}.
Arguments ClockCustom {W}.

#[export] Instance clock_vault {W} `{StdTime W} : Clock W (VaultClock W) := {|
  now := fun self => match self with ClockStd => now std_clock | ClockCustom c => now c end;
  unix_time := fun self => match self with ClockStd => unix_time std_clock | ClockCustom c => unix_time c end
|}.

(** [struct Backoff]. *)
Record Backoff := { failures : Z; next_allowed : Z }.
Definition backoff_default : Backoff := {| failures := 0; next_allowed := 0 |}.

(** The fields of [VaultInner] that [build] fixes. *)
Record VaultInner (W : Type) := {
  config : VaultConfig;
  fragmenter : Fragmenter W;
  decoy_ignored : bool;
  normalizer : Normalizer;
  codex : option dyn_codex;
  monitor : dyn_monitor W;
  clock : VaultClock W;
  master : option MasterVerifier;
  audit : dyn_sink W
}.
Arguments config {W}.
Arguments fragmenter {W}.
Arguments decoy_ignored {W}.
Arguments normalizer {W}.
Arguments codex {W}.
Arguments monitor {W}.
Arguments clock {W}.
Arguments master {W}.
Arguments audit {W}.

(** [struct Scratch], with the flag of the [RefCell] around it and the
    address of its buffer. *)
Record Scratch := { scratch_ptr : Z; buf : list byte; borrowed : bool }.
Definition scratch_init : Scratch := {| scratch_ptr := 0; buf := []; borrowed := false |}.

Record VaultState (W : Type) := {
  keys : gmap Z KeyEntry;
  lock : LockState;
  backoff : Backoff;
  next_id : Z;
  scratch : Scratch;
  regions : Regions;
  world : W
}.
Arguments keys {W}.
Arguments lock {W}.
Arguments backoff {W}.
Arguments next_id {W}.
Arguments scratch {W}.
Arguments regions {W}.
Arguments world {W}.

Section setters.
Context {W : Type}.
Implicit Types s : VaultState W.
Definition set_keys k s : VaultState W :=
  {| keys := k; lock := lock s; backoff := backoff s; next_id := next_id s; scratch := scratch s;
     regions := regions s; world := world s |}.
Definition set_lock l s : VaultState W :=
  {| keys := keys s; lock := l; backoff := backoff s; next_id := next_id s; scratch := scratch s;
     regions := regions s; world := world s |}.
Definition set_backoff b s : VaultState W :=
  {| keys := keys s; lock := lock s; backoff := b; next_id := next_id s; scratch := scratch s;
     regions := regions s; world := world s |}.
Definition set_next_id n s : VaultState W :=
  {| keys := keys s; lock := lock s; backoff := backoff s; next_id := n; scratch := scratch s;
     regions := regions s; world := world s |}.
Definition set_scratch c s : VaultState W :=
  {| keys := keys s; lock := lock s; backoff := backoff s; next_id := next_id s; scratch := c;
     regions := regions s; world := world s |}.
Definition set_regions r s : VaultState W :=
  {| keys := keys s; lock := lock s; backoff := backoff s; next_id := next_id s; scratch := scratch s;
     regions := r; world := world s |}.
Definition set_world w s : VaultState W :=
  {| keys := keys s; lock := lock s; backoff := backoff s; next_id := next_id s; scratch := scratch s;
     regions := regions s; world := w |}.
End setters.

(** ** Computations on a part of the state *)

Section parts.
Context {W A : Type}.

Definition on_world (m : M W A) : M (VaultState W) A := zoom world set_world m.
Definition on_regions (m : M (Regions * W) A) : M (VaultState W) A :=
  zoom (fun s => (regions s, world s)) (fun rw s => set_world rw.2 (set_regions rw.1 s)) m.
Definition on_lock (f : LockState -> W -> A * LockState * W) : M (VaultState W) A := fun s =>
  let '(a, l, w) := f (lock s) (world s) in (Ok a, set_world w (set_lock l s)).
Definition on_next_id (m : M Z A) : M (VaultState W) A := zoom next_id set_next_id m.

(** A change of the outside world. *)
Definition tell (f : W -> W) : M (VaultState W) unit := modify (fun s => set_world (f (world s)) s).
End parts.

(** ** Secrets *)

Section secrets.
Context {W : Type} `{Os W}.

(** [SecretBytes::new]. *)
Definition secret_new (bytes : list byte) (protected : bool) : M (Regions * W) SecretBytes :=
  let fragments := from_parts [bytes] [] (zlen bytes) in
  if protected then
    let! fragments := into_protected fragments in ret {| secret_fragments := fragments |}
  else ret {| secret_fragments := fragments |}.

(** [SecretBytes::read]. *)
Definition secret_read {T} (self : SecretBytes) (f : list byte -> T) : M (Regions * W) T :=
  do! fragments_open (secret_fragments self) in
  finally (gets (fun _ => f (default [] (chunk (secret_fragments self) 0))))
    (fragments_close (secret_fragments self)).
End secrets.

(** ** Codex passes *)

(** [codex_apply]. *)
Definition codex_apply {S} (c : dyn_codex) (key : RawKey.t) : M S RawKey.t :=
  let! out := map_m (fun b => lift (encode c b)) (RawKey.as_bytes key) in
  ret (RawKey.new out).

(** [codex_decode_in_place]: the state is the slice. *)
Definition codex_decode_in_place (c : dyn_codex) : M (list byte) unit :=
  let! bytes := get in
  for_each (seqZ 0 (zlen bytes)) (fun i =>
    let! bytes := get in
    let! b := index bytes i in
    let! d := lift (decode c b) in
    store_at i d).

(** ** Backoff *)

(** [backoff_delay]. *)
Definition backoff_delay (config : VaultConfig) (failures : Z) : Z :=
  if master_backoff_base config =? 0 then 0 else
  let shift := Z.min (saturating_sub failures 1) 31 in
  Z.min (default (master_backoff_max config)
           (duration_checked_mul (master_backoff_base config) (Z.shiftl 1 shift)))
        (master_backoff_max config).

(** ** The backoff delay in closed form *)

Lemma shiftl_1 n : 0 <= n -> Z.shiftl 1 n = 2 ^ n.
Proof. intros. rewrite Z.shiftl_mul_pow2 by done. lia. Qed.

(** [min(max, base * 2^(failures - 1))], with the exponent capped at 31. *)
Lemma backoff_delay_eq config failures :
  config_wf config -> 1 <= failures ->
  backoff_delay config failures =
    if master_backoff_base config =? 0 then 0
    else Z.min (master_backoff_max config) (master_backoff_base config * 2 ^ Z.min (failures - 1) 31).
Proof.
  intros [] Hf. unfold backoff_delay. case_test; [done |]. tests.
  unfold saturating_sub. rewrite Z.max_r by lia. rewrite shiftl_1 by lia.
  unfold duration_checked_mul. case_test; tests; cbn; lia.
Qed.

Lemma backoff_delay_nonneg config failures : config_wf config -> 0 <= backoff_delay config failures.
Proof.
  intros [] . unfold backoff_delay. case_test; [done |]. tests.
  pose proof (Z.shiftl_nonneg 1 (Z.min (saturating_sub failures 1) 31)).
  unfold duration_checked_mul. case_test; cbn; nia.
Qed.

(** ** Messages *)

Definition duplicate (name : string) : Error.t :=
  Error.InvalidConfig ("key name " +:+ debug_str name +:+ " is already registered").

Definition wrong_key_length : Error.t := Error.Internal "normalization key has the wrong length".
Definition no_master : Error.t :=
  Error.InvalidConfig "vault has no master key registered; pass with_master_key at build time".
Definition master_mismatch : Error.t :=
  Error.Acquisition "master" "master credential did not match".
