(* ===== verification/Vault.v ===== *)
(** * The vault's operations ([vault/mod.rs])

    Every public operation of [KeyVault] and what it is made of, over
    [VaultState].  Registry writers are split at the writer lock: [_prepare]
    is what runs before the lock is taken, [_commit] what runs under it. *)

From S2P Require Import Prelude Errors Rust Format Rng RawKey Normalize Codex Fragment Standard.
From S2P Require Import Os Guarded Handle Events Config Lockout VaultState.

(** The closure given to [with_key]: it sees the bytes, may do anything to
    the process that the API lets it do (the state), and returns or panics. *)
Definition callback (W T : Type) : Type := list byte -> VaultState W -> option T * VaultState W.

Definition call {W T} (f : callback W T) (bytes : list byte) : M (VaultState W) T := fun s =>
  match f bytes s with (Some x, s) => (Ok x, s) | (None, s) => (Panic, s) end.

Section vault.
Context {W : Type} `{Rng W} `{Os W} `{Blake3} `{StdTime W} `{PageRefs W} `{Threads W}.
Context (self : VaultInner W).

Definition clock_now : M (VaultState W) Z := on_world (ask (now (clock self))).
Definition clock_unix : M (VaultState W) Z := on_world (ask (unix_time (clock self))).

(** [emit_audit]. *)
Definition emit_audit (key_name : string) (kind : AccessKind) (note : string) : M (VaultState W) unit :=
  if is_no_op (W := W) (audit self) then ret tt else
  let! timestamp := clock_unix in
  let! thread := gets (fun s => current_thread (world s)) in
  tell (on_event (audit self)
    {| timestamp := timestamp; ae_key_name := key_name; kind := kind; thread_id := thread;
       ae_note := note |}).

(** ** Lockout gates *)

Definition is_locked_out : M (VaultState W) bool := gets (fun s => locked_out (lock s)).

(** [Debug] for [KeyVault]. *)
Definition vault_fmt : M (VaultState W) string :=
  let! locked := is_locked_out in
  let! active := gets (fun s => key_locks_active (lock s)) in
  ret (debug_struct "KeyVault" [
    ("locked_out", debug_bool locked); ("keys_locked_out", pretty active);
    ("fragmenter", debug_str (fragment_describe (W := W) (fragmenter self)));
    ("decoy_ignored", debug_bool (decoy_ignored self)); ("config", VaultConfig.fmt (config self))]).

Definition name_locked (name : string) : M (VaultState W) bool :=
  on_lock (key_locked (clock self) name).

Definition is_key_locked_out (handle : KeyHandle) : M (VaultState W) bool :=
  let! keys := gets keys in
  match keys !! KeyHandle.id handle with
  | Some entry => name_locked (entry_name entry)
  | None => ret false
  end.

Definition vault_clear_key_lockout (name : string) : M (VaultState W) bool :=
  on_lock (fun l w => let '(removed, l) := clear_key_lockout name l in (removed, l, w)).

Definition vault_clear_lockout : M (VaultState W) unit :=
  modify (fun s => set_lock (clear_lockout (lock s)) s).

Definition vault_handle_failure (name : string) (note : option string) (per_key : bool)
    : M (VaultState W) unit :=
  on_lock (fun l w =>
    let '(l, w) := handle_failure (config self) (monitor self) (clock self) name note per_key l w in
    (tt, l, w)).

Definition vault_report_failure (name : string) (note : option string) : M (VaultState W) unit :=
  vault_handle_failure name note true.

Definition vault_report_anomalous_access (name : string) (note : option string)
    : M (VaultState W) unit :=
  tell (report_anomalous_access (monitor self) name note).

(** ** The pipeline *)

(** The normalization step of [fragment_pipeline]. *)
Definition normalize_key (key : RawKey.t) : M (VaultState W) RawKey.t :=
  match normalizer self with
  | NormalizerOff => ret (RawKey.new (RawKey.as_bytes key))
  | NormalizerPlain => ret (blake3_normalize key)
  | NormalizerKeyed secret =>
      let! r := on_regions (secret_read secret (fun k =>
        match try_into_array 32 k with
        | Some k => Ok (blake3_keyed_normalize k key)
        | None => Err wrong_key_length
        end)) in
      lift r
  | NormalizerUnavailable reason => fail (Error.Internal reason)
  end.

(** [codex_apply], if there is a codex: the step after normalization, and
    what [defragment] does to the reassembled bytes. *)
Definition transform (key : RawKey.t) : M (VaultState W) RawKey.t :=
  match codex self with Some codex => codex_apply codex key | None => ret key end.

(** [fragment_pipeline]. *)
Definition fragment_pipeline (key : RawKey.t) : M (VaultState W) Fragments :=
  let! working := normalize_key key in
  let! encoded := transform working in
  on_world (fragment (fragmenter self) encoded).

(** [fragment_for_registry]. *)
Definition fragment_for_registry (key : RawKey.t) : M (VaultState W) Fragments :=
  let! fragments := fragment_pipeline key in
  if page_protection (config self) then on_regions (into_protected fragments) else ret fragments.

(** [KeyVault::fragment]. *)
Definition vault_fragment (key : RawKey.t) : M (VaultState W) Fragments :=
  let! locked := is_locked_out in
  if locked then fail Error.LockedOut else
  let! result := fragment_pipeline key in
  do! emit_audit EmptyString OneShotFragment EmptyString in
  ret result.

(** [KeyVault::defragment]; one-shot fragments are never protected. *)
Definition vault_defragment (fragments : Fragments) : M (VaultState W) RawKey.t :=
  let! locked := is_locked_out in
  if locked then fail Error.LockedOut else
  let! encoded := lift (defragment (W := W) (fragmenter self) fragments) in
  let! decoded := transform encoded in
  do! emit_audit EmptyString OneShotDefragment EmptyString in
  ret decoded.

(** ** The registry *)

(** [current.values().any(|e| e.name == name)]. *)
Definition name_taken (name : string) (keys : gmap Z KeyEntry) : bool :=
  existsb (fun p => bool_decide (entry_name p.2 = name)) (map_to_list keys).

(** [register], up to the writer lock. *)
Definition register_prepare (name : string) (key : RawKey.t) : M (VaultState W) (KeyHandle * KeyEntry) :=
  let! locked := is_locked_out in
  if locked then fail Error.LockedOut else
  let! keys := gets keys in
  if name_taken name keys then fail (duplicate name) else
  let key_len := RawKey.len key in
  let! fragments := fragment_for_registry key in
  let! handle := on_next_id KeyHandle.allocate in
  let! now := clock_unix in
  let metadata := KeyMetadata.new now key_len None in
  ret (handle, {| entry_name := name; entry_fragments := fragments; entry_metadata := metadata |}).

(** [register], under the writer lock. *)
Definition register_commit (handle : KeyHandle) (entry : KeyEntry) : M (VaultState W) unit :=
  let! current := gets keys in
  if name_taken (entry_name entry) current then fail (duplicate (entry_name entry)) else
  modify (set_keys (<[KeyHandle.id handle := entry]> current)).

Definition register (name : string) (key : RawKey.t) : M (VaultState W) KeyHandle :=
  let! p := register_prepare name key in
  do! register_commit p.1 p.2 in
  do! emit_audit name Register EmptyString in
  ret p.1.

(** [unregister], under the writer lock: the name of the removed key. *)
Definition unregister_commit (handle : KeyHandle) : M (VaultState W) string :=
  let! current := gets keys in
  let! entry := ok_or (current !! KeyHandle.id handle) Error.KeyNotFound in
  do! modify (set_keys (delete (KeyHandle.id handle) current)) in
  ret (entry_name entry).

Definition unregister (handle : KeyHandle) : M (VaultState W) unit :=
  let! name := unregister_commit handle in
  emit_audit name Unregister EmptyString.

(** [rotate], up to the writer lock. *)
Definition rotate_prepare (handle : KeyHandle) (new_key : RawKey.t)
    : M (VaultState W) (Fragments * KeyMetadata) :=
  let! locked := is_locked_out in
  if locked then fail Error.LockedOut else
  let! snapshot := gets keys in
  let! entry := ok_or (snapshot !! KeyHandle.id handle) Error.KeyNotFound in
  let! key_locked := name_locked (entry_name entry) in
  if (key_locked : bool) then fail Error.LockedOut else
  let new_len := RawKey.len new_key in
  let! new_fragments := fragment_for_registry new_key in
  let! now := clock_unix in
  ret (new_fragments, KeyMetadata.new now new_len None).

(** [rotate], under the writer lock: the name of the rotated key. *)
Definition rotate_commit (handle : KeyHandle) (new_fragments : Fragments) (new_metadata : KeyMetadata)
    : M (VaultState W) string :=
  let! current := gets keys in
  let! entry := ok_or (current !! KeyHandle.id handle) Error.KeyNotFound in
  let entry := {| entry_name := entry_name entry; entry_fragments := new_fragments;
                  entry_metadata := new_metadata |} in
  do! modify (set_keys (<[KeyHandle.id handle := entry]> current)) in
  ret (entry_name entry).

Definition rotate (handle : KeyHandle) (new_key : RawKey.t) : M (VaultState W) unit :=
  let! p := rotate_prepare handle new_key in
  let! name := rotate_commit handle p.1 p.2 in
  emit_audit name Rotate EmptyString.

Definition contains (handle : KeyHandle) : M (VaultState W) bool :=
  gets (fun s => bool_decide (is_Some (keys s !! KeyHandle.id handle))).

Definition metadata (handle : KeyHandle) : M (VaultState W) (option KeyMetadata) :=
  gets (fun s => entry_metadata <$> (keys s !! KeyHandle.id handle)).

(** [handle_for_name]: the first match in iteration order. *)
Definition handle_for_name (name : string) : M (VaultState W) (option KeyHandle) :=
  gets (fun s => (fun p => KeyHandle.from_id p.1) <$>
    head (filter (fun p => bool_decide (entry_name p.2 = name) = true) (map_to_list (keys s)))).

Definition key_count : M (VaultState W) Z := gets (fun s => Z.of_nat (size (keys s))).

(** ** The scratch buffer *)

Definition set_buf (bytes : list byte) (s : VaultState W) : VaultState W :=
  set_scratch {| scratch_ptr := scratch_ptr (scratch s); buf := bytes; borrowed := borrowed (scratch s) |} s.
Definition set_borrowed (b : bool) (s : VaultState W) : VaultState W :=
  set_scratch {| scratch_ptr := scratch_ptr (scratch s); buf := buf (scratch s); borrowed := b |} s.

(** [Scratch::release]: the old buffer is zeroed, its page references are
    dropped, and it is freed. *)
Definition scratch_release : M (VaultState W) unit :=
  do! modify (fun s => set_buf (zeros (zlen (buf (scratch s)))) s) in
  let! c := gets scratch in
  do! (if zlen (buf c) =? 0 then ret tt else tell (release_pages (scratch_ptr c) (zlen (buf c)))) in
  modify (set_buf []).

(** [Scratch::ensure_len]. *)
Definition ensure_len (len : Z) : M (VaultState W) unit :=
  let! c := gets scratch in
  if len <=? zlen (buf c) then ret tt else
  let! new_buf := vec_zeroed len in
  let! ptr := on_world (ask (heap_address len)) in
  do! (if zlen new_buf =? 0 then ret tt else
       do! on_world (ask (acquire_pages ptr (zlen new_buf))) in ret tt) in
  do! scratch_release in
  modify (fun s =>
    set_scratch {| scratch_ptr := ptr; buf := new_buf; borrowed := borrowed (scratch s) |} s).

(** [&mut scratch.buf[..total]] as the state of [m]. *)
Definition on_scratch {A} (total : Z) (m : M (list byte) A) : M (VaultState W) A :=
  zoom (fun s => take (Z.to_nat total) (buf (scratch s)))
    (fun out s => set_buf (out ++ drop (Z.to_nat total) (buf (scratch s))) s) m.

(** [volatile_zero_slice], which [ZeroOnExit] runs on [buf[..total]]. *)
Fixpoint volatile_zero_slice (s : list byte) : list byte :=
  match s with [] => [] | _ :: s' => Byte.x00 :: volatile_zero_slice s' end.

Definition zero_on_exit (total : Z) (s : VaultState W) : VaultState W :=
  set_buf (volatile_zero_slice (take (Z.to_nat total) (buf (scratch s)))
             ++ drop (Z.to_nat total) (buf (scratch s))) s.

(** ** Reading a key *)

(** Reading the fragments: a fault unless their pages are readable. *)
Definition read_fragments (fragments : Fragments) (total : Z) : M (VaultState W) unit := fun s =>
  if fragments_readable fragments (regions s)
  then on_scratch total (defragment_into (W := W) (fragmenter self) fragments) s
  else (Panic, s).

(** The drop of the guard [fragments.open()] returned. *)
Definition close_access (fragments : Fragments) (s : VaultState W) : VaultState W :=
  let '(r, w) := fragments_close fragments (regions s, world s) in set_world w (set_regions r s).

(** The block of [reassemble] in which the pages are open. *)
Definition read_opened (fragments : Fragments) (total : Z) : M (VaultState W) unit :=
  if page_protection (config self) then
    do! on_regions (fragments_open fragments) in
    finally (read_fragments fragments total) (close_access fragments)
  else read_fragments fragments total.

(** [reassemble] into [buf[..total]]. *)
Definition reassemble (fragments : Fragments) (total : Z) : M (VaultState W) unit :=
  do! read_opened fragments total in
  match codex self with
  | Some c => on_scratch total (codex_decode_in_place c)
  | None => ret tt
  end.

(** [read_key]: [RefCell::borrow_mut] panics when the scratch is in use; the
    borrow ends and the guard zeroes on every way out. *)
Definition read_key {T} (fragments : Fragments) (f : callback W T) : M (VaultState W) T := fun s =>
  if borrowed (scratch s) then (Panic, s) else
  let total := total_len fragments in
  finally (
    do! ensure_len total in
    finally (
      do! reassemble fragments total in
      let! bytes := gets (fun s => take (Z.to_nat total) (buf (scratch s))) in
      call f bytes) (zero_on_exit total))
    (set_borrowed false) (set_borrowed true s).

(** [KeyVault::with_key]. *)
Definition with_key {T} (handle : KeyHandle) (f : callback W T) : M (VaultState W) T :=
  let! locked := is_locked_out in
  if locked then fail Error.LockedOut else
  let! snapshot := gets keys in
  let! entry := ok_or (snapshot !! KeyHandle.id handle) Error.KeyNotFound in
  let! key_locked := name_locked (entry_name entry) in
  if (key_locked : bool) then fail Error.LockedOut else
  let fragments := share (entry_fragments entry) in
  let name := if is_no_op (W := W) (audit self) then None else Some (entry_name entry) in
  let! result := read_key fragments f in
  do! match name with Some name => emit_audit name Read EmptyString | None => ret tt end in
  ret result.

(** ** Master unlock *)

(** The comparison of [unlock_with_master] against the stored verifier. *)
Definition verify_master (attempt stored : list byte) : bool :=
  if zlen stored <? 32 then false else
  let hash_key := take 32 stored in
  let digest := drop 32 stored in
  bool_decide (digest = blake3_keyed_into hash_key attempt 32).

(** The backoff after an attempt at [now]. *)
Definition next_backoff (matched : bool) (now : Z) (b : Backoff) : Backoff :=
  if matched then backoff_default else
  let failures := u32_saturating_add (failures b) 1 in
  {| failures := failures;
     next_allowed := duration_saturating_add now (backoff_delay (config self) failures) |}.

(** [unlock_with_master] from the backoff update on. *)
Definition finish_unlock (matched : bool) (now : Z) (b : Backoff) : M (VaultState W) unit :=
  do! modify (set_backoff (next_backoff matched now b)) in
  do! emit_audit MASTER_NAME (MasterUnlockAttempt matched) EmptyString in
  if matched then vault_clear_lockout
  else
    do! vault_handle_failure MASTER_NAME (Some "invalid master credential") false in
    fail master_mismatch.

(** [KeyVault::unlock_with_master]. *)
Definition unlock_with_master (attempt : list byte) : M (VaultState W) unit :=
  let! master := ok_or (master self) no_master in
  let! now := clock_now in
  let! b := gets backoff in
  if now <? next_allowed b
  then fail (Error.RateLimited (duration_saturating_sub (next_allowed b) now)) else
  let! matched :=
    match master with
    | MasterUnavailable reason => fail (Error.Internal reason)
    | MasterReady secret => on_regions (secret_read secret (verify_master attempt))
    end in
  finish_unlock matched now b.

Definition has_master_key : bool := bool_decide (is_Some (master self)).
End vault.
