(* ===== verification/VaultFrame.v ===== *)
(** * Framing lemmas for the vault

    What each building block of a vault operation leaves alone.  [frame]
    relates the states before and after a step that may only use the
    protected regions and the outside world; [framed] is a program logic for
    such steps. *)

From S2P Require Import Prelude Errors Rust Rng RawKey Normalize Codex Fragment Standard Layouts.
From S2P Require Import Os Guarded Handle Events Config Lockout VaultState Vault.

(** ** Regions *)

(** Nobody is reading. *)
Definition regions_ok (rs : Regions) : Prop := map_Forall (fun _ r => readers r = 0) (table rs).

Definition regions_le (rs rs' : Regions) : Prop :=
  forall id, is_Some (table rs !! id) -> is_Some (table rs' !! id).

(** The region [frags] point into, if any, exists. *)
Definition region_present (rs : Regions) (frags : Fragments) : Prop :=
  forall id, store_region (store frags) = Some id -> is_Some (table rs !! id).

#[export] Instance regions_le_preorder : PreOrder regions_le.
Proof. split; [by intros rs id | intros x y z H1 H2 id Hid; by apply H2, H1]. Qed.

Lemma region_present_le rs rs' frags :
  regions_le rs rs' -> region_present rs frags -> region_present rs' frags.
Proof. intros Hle Hp id Hid. by apply Hle, Hp. Qed.

Lemma insert_region_le rs id r n :
  regions_le rs {| table := <[id := r]> (table rs); next_region := n |}.
Proof.
  intros i Hi. cbn. destruct (decide (i = id)) as [-> | Hne].
  - by rewrite lookup_insert_eq.
  - by rewrite lookup_insert_ne by done.
Qed.

Lemma insert_region_ok rs id r n :
  regions_ok rs -> readers r = 0 ->
  regions_ok {| table := <[id := r]> (table rs); next_region := n |}.
Proof. intros Hok Hr. by apply map_Forall_insert_2. Qed.

Section regions.
Context {W : Type} `{Os W}.

(** Opening fragments at rest, and what closing them again does. *)
Lemma open_close_spec frags rs w :
  regions_ok rs -> region_present rs frags ->
  match fragments_open frags (rs, w) with
  | (Ok _, (rs1, w1)) =>
      fragments_readable frags rs1 = true /\ regions_le rs rs1 /\
      forall w2, regions_ok (fragments_close frags (rs1, w2)).1 /\
        regions_le rs (fragments_close frags (rs1, w2)).1
  | (Err e, (rs1, _)) => e = open_failed /\ rs1 = rs /\ is_Some (store_region (store frags))
  | _ => False
  end.
Proof.
  intros Hok Hp. unfold fragments_open, fragments_readable, fragments_close.
  destruct (store_region (store frags)) as [id |] eqn:Eid; [| done].
  destruct (Hp id Eid) as [r Hr]. cbn [fst snd]. rewrite Hr.
  pose proof (map_Forall_lookup_1 _ _ _ _ Hok Hr) as Hr0. cbn beta in Hr0.
  unfold open. rewrite Hr0, Z.eqb_refl.
  destruct (protect (base r) (map_len r) AccessRead w) as [[] w1]; [| by split_and!; [| | eexists]].
  cbn [fst snd table]. rewrite !lookup_insert_eq. split_and!; [done | apply insert_region_le |].
  intros w2. unfold close. cbn [set_readers set_protection readers]. rewrite Z.eqb_refl.
  cbn [base map_len set_readers set_protection].
  destruct (protect _ _ AccessNone w2) as [[] w3]; cbn [fst snd next_region table]; rewrite insert_insert_eq;
    (split; [by apply insert_region_ok | apply insert_region_le]).
Qed.

Lemma into_protected_regions frags rs w :
  zlen (layout_bytes frags) <= usize_max -> regions_ok rs ->
  match into_protected frags (rs, w) with
  | (Ok frags', (rs', _)) => frags' ≡ frags /\ layout_start frags' = 0 /\ region_present rs' frags' /\
      is_Some (store_region (store frags')) /\ regions_ok rs' /\ regions_le rs rs'
  | (Err e, (rs', _)) => rs' = rs
  | _ => False
  end.
Proof.
  intros Hl Hok. pose proof (into_protected_spec frags (rs, w) Hl) as Hs.
  destruct (into_protected frags (rs, w)) as [[frags' | e | |] [rs' w']]; cbn in Hs; [| tauto | done..].
  destruct Hs as (Heq & Hst & Hr & r & [Hr0 _] & ->). split_and!; [done | done | | | |].
  - intros id. rewrite Hr. intros [= <-]. cbn. by rewrite lookup_insert_eq.
  - by rewrite Hr.
  - by apply insert_region_ok.
  - apply insert_region_le.
Qed.

Lemma secret_read_spec {T} secret (f : list byte -> T) rs w :
  regions_ok rs -> region_present rs (secret_fragments secret) ->
  match secret_read secret f (rs, w) with
  | (Ok x, (rs', _)) => x = f (default [] (chunk (secret_fragments secret) 0)) /\
      regions_ok rs' /\ regions_le rs rs'
  | (Err e, (rs', _)) => e = open_failed /\ rs' = rs /\ is_Some (store_region (store (secret_fragments secret)))
  | _ => False
  end.
Proof.
  intros Hok Hp. pose proof (open_close_spec _ rs w Hok Hp) as Ho. unfold secret_read, bind.
  destruct (fragments_open _ (rs, w)) as [[[] | e | |] [rs1 w1]]; [| by destruct Ho as (-> & -> & ?) | done..].
  destruct Ho as (_ & _ & Hc). specialize (Hc w1). unfold finally, gets.
  destruct (fragments_close _ (rs1, w1)) as [rs2 w2]. by destruct Hc.
Qed.
End regions.

(** ** Frames *)

Section frame.
Context {W : Type}.
Implicit Types s : VaultState W.

(** Only the regions and the world may differ; regions stay at rest. *)
Record frame s s' : Prop := {
  fr_keys : keys s' = keys s;
  fr_lock : lock s' = lock s;
  fr_backoff : backoff s' = backoff s;
  fr_next_id : next_id s' = next_id s;
  fr_scratch : scratch s' = scratch s;
  fr_regions : regions_le (regions s) (regions s');
  fr_ok : regions_ok (regions s) -> regions_ok (regions s')
}.

#[export] Instance frame_preorder : PreOrder frame.
Proof.
  split.
  - intros s. by split.
  - intros s1 s2 s3 [] []. split; [by etrans.. | by etrans | auto].
Qed.

Lemma frame_world w s : frame s (set_world w s).
Proof. by split. Qed.

(** A step within the frame, from any state whose regions are at rest and
    which has the regions of [need]. *)
Definition framed {A} (need : list Fragments) (m : M (VaultState W) A)
    (P : A -> VaultState W -> Prop) (E : Error.t -> Prop) : Prop :=
  forall s, regions_ok (regions s) -> Forall (region_present (regions s)) need ->
    match m s with
    | (Ok a, s') => frame s s' /\ P a s'
    | (Err e, s') => frame s s' /\ E e
    | _ => False
    end.

Lemma framed_ret {A} need (a : A) (P : A -> VaultState W -> Prop) E :
  (forall s, regions_ok (regions s) -> P a s) -> framed need (ret a) P E.
Proof. intros HP s Hok _. split; [reflexivity | by apply HP]. Qed.

Lemma framed_fail {A} need e (P : A -> VaultState W -> Prop) (E : Error.t -> Prop) :
  E e -> framed need (fail e) P E.
Proof. intros HE s _ _. by split; [reflexivity |]. Qed.

Lemma framed_bind {A B} need (m : M (VaultState W) A) (k : A -> M (VaultState W) B) P Q E :
  framed need m (fun a _ => P a) E -> (forall a, P a -> framed need (k a) Q E) ->
  framed need (bind m k) Q E.
Proof.
  intros Hm Hk s Hok Hn. specialize (Hm s Hok Hn). unfold bind.
  destruct (m s) as [[a | e | |] s1]; [| done..]. destruct Hm as [Hf HP].
  specialize (Hk a HP s1 (fr_ok _ _ Hf Hok)).
  assert (Forall (region_present (regions s1)) need) as Hn1.
  { eapply Forall_impl; [exact Hn |]. intros f. apply region_present_le, Hf. }
  specialize (Hk Hn1). destruct (k a s1) as [[b | e | |] s2]; [| | done..]; destruct Hk as [Hf2 ?];
    (split; [by etrans | done]).
Qed.

Lemma framed_mono {A} need (m : M (VaultState W) A) (P P' : A -> VaultState W -> Prop) (E E' : Error.t -> Prop) :
  framed need m P E -> (forall a s, P a s -> P' a s) -> (forall e, E e -> E' e) -> framed need m P' E'.
Proof.
  intros Hm HP HE s Hok Hn. specialize (Hm s Hok Hn).
  destruct (m s) as [[a | e | |] s']; [| | done..]; destruct Hm; auto.
Qed.

(** A computation of the outside world that meets a [safe] specification. *)
Lemma framed_world {A} need (m : M W A) (P : A -> Prop) (E : Error.t -> Prop) :
  safe m P E -> framed need (on_world m) (fun a _ => P a) E.
Proof.
  intros Hm s _ _. specialize (Hm (world s)). unfold on_world, zoom.
  destruct (m (world s)) as [[a | e | |] w]; cbn in *; [| | done..]; split; auto using frame_world.
Qed.

Lemma safe_ask {A} (q : W -> A * W) E : safe (ask q) (fun _ => True) E.
Proof. intros w. unfold ask. by destruct (q w). Qed.

Lemma framed_tell need (f : W -> W) E : framed need (tell f) (fun _ _ => True) E.
Proof. intros s _ _. cbn. split; [apply frame_world | done]. Qed.

Lemma framed_gets {A} need (f : VaultState W -> A) E : framed need (gets f) (fun _ _ => True) E.
Proof. intros s _ _. by split; [reflexivity |]. Qed.
End frame.
