(* ===== verification/VaultPipeline.v ===== *)
(** * The vault's pipeline, forwards and backwards

    [fragment_for_registry] stores what [normalized] says in a form that
    [reassemble] turns back; both only touch the protected regions, the
    outside world and (for reading) the scratch buffer. *)

From S2P Require Import Prelude Errors Rust Rng RawKey Normalize Codex Fragment Standard Layouts.
From S2P Require Import Os Guarded Handle Events Config Lockout VaultState Vault VaultFrame.

(** [enc] is [key] after the codex's encode, byte by byte, and decodes back. *)
Definition coded (c : option dyn_codex) (key enc : RawKey.t) : Prop :=
  match c with
  | Some c => Forall2 (fun b e => encode c b = Ok e /\ decode c e = Ok b)
                (RawKey.bytes key) (RawKey.bytes enc)
  | None => enc = key
  end.

Lemma coded_length c key enc : coded c key enc -> RawKey.len enc = RawKey.len key.
Proof.
  destruct c; cbn; [| by intros ->]. intros Hf%Forall2_length. unfold RawKey.len, zlen. lia.
Qed.

Lemma codex_apply_ok {S} (c : dyn_codex) key (s : S) :
  RoundTrips c -> exists enc, codex_apply c key s = (Ok enc, s) /\ coded (Some c) key enc.
Proof.
  intros Hc. destruct key as [bs]. cbn [RawKey.bytes].
  assert (exists out, map_m (fun b => lift (encode c b)) bs s = (Ok out, s) /\
    Forall2 (fun b e => encode c b = Ok e /\ decode c e = Ok b) bs out) as (out & E & Hf).
  { induction bs as [| b bs (out & E & Hf)]; [by exists [] |].
    destruct (Hc b) as (e & He & Hd). exists (e :: out). split; [| by constructor].
    cbn [map_m]. erewrite bind_ok by (unfold lift; by rewrite He). by erewrite bind_ok. }
  exists (RawKey.new out). split; [| done]. unfold codex_apply. by erewrite bind_ok.
Qed.

(** One step of an in-place map. *)
Lemma step_in_place {A} (new old : list A) (i : nat) x y :
  new !! i = Some x -> old !! i = Some y ->
  (take i new ++ drop i old) !! i = Some y /\
  <[i := x]> (take i new ++ drop i old) = take (S i) new ++ drop (S i) old.
Proof.
  intros Hx Hy. pose proof (lookup_lt_Some _ _ _ Hx).
  assert (length (take i new) = i) as Hl by (rewrite length_take; lia).
  rewrite (drop_S _ _ _ Hy). split.
  - rewrite lookup_app_r by lia. by rewrite Hl, Nat.sub_diag.
  - rewrite insert_app_r_alt by lia. rewrite Hl, Nat.sub_diag. cbn.
    rewrite (take_S_r _ _ _ Hx), <- app_assoc. done.
Qed.

Lemma decode_in_place_ok (c : dyn_codex) key enc :
  coded (Some c) key enc ->
  codex_decode_in_place c (RawKey.bytes enc) = (Ok tt, RawKey.bytes key).
Proof.
  intros Hf. destruct key as [new], enc as [old]. cbn [coded RawKey.bytes] in *.
  pose proof (Forall2_length _ _ _ Hf) as Hlen.
  set (I := fun (i : Z) out => out = take (Z.to_nat i) new ++ drop (Z.to_nat i) old).
  enough (triple (I 0) (for_each (seqZ 0 (zlen old)) (fun i =>
    let! bytes := get in let! b := index bytes i in let! d := lift (decode c b) in store_at i d))
    (fun _ => I (0 + zlen old)) (fun _ _ => False)) as H'.
  { specialize (H' old eq_refl). unfold codex_decode_in_place. erewrite bind_ok by done.
    destruct (for_each _ _ old) as [[[] | e | |] out]; [| done..].
    unfold I in H'. rewrite H'. rewrite take_ge, drop_ge by (unfold zlen; lia). by rewrite app_nil_r. }
  apply triple_for_range; [apply zlen_nonneg |]. intros i Hi out ->. unfold zlen in Hi.
  destruct (lookup_lt_is_Some_2 new (Z.to_nat i)) as [x Hx]; [lia |].
  destruct (lookup_lt_is_Some_2 old (Z.to_nat i)) as [y Hy]; [lia |].
  destruct (Forall2_lookup_lr _ _ _ _ _ _ Hf Hx Hy) as [_ Hd].
  destruct (step_in_place _ _ _ _ _ Hx Hy) as [Hl Hi'].
  erewrite bind_ok by done. erewrite bind_ok by (apply index_Some; [lia | exact Hl]).
  erewrite bind_ok by (unfold lift; by rewrite Hd).
  unfold store_at. erewrite bind_ok by done.
  pose proof (lookup_lt_Some _ _ _ Hl). erewrite bind_ok by (apply index_set_ok; unfold zlen; lia).
  cbn. unfold I. rewrite Hi'. by replace (Z.to_nat (i + 1)) with (S (Z.to_nat i)) by lia.
Qed.

Lemma decode_in_place_length c : len_stable (codex_decode_in_place c).
Proof. unfold codex_decode_in_place. auto 12 with kv. Qed.

Section pipeline.
Context {W : Type} `{Rng W} `{Os W} `{Blake3} `{StdTime W} `{PageRefs W} `{Threads W}.
Context (self : VaultInner W).

(** The parts a lawful vault is built from. *)
Record vault_wf : Prop := {
  vw_config : config_wf (config self);
  vw_lawful : LawfulStrategy (W := W) (fragmenter self);
  vw_bounded : BoundedLayout (W := W) (fragmenter self) isize_max;
  vw_codex : forall c, codex self = Some c -> RoundTrips c
}.

Definition secret_bytes (s : SecretBytes) : list byte := default [] (chunk (secret_fragments s) 0).

(** What the registry keeps of a key. *)
Definition normalized (key : RawKey.t) : option RawKey.t :=
  match normalizer self with
  | NormalizerOff => Some key
  | NormalizerPlain => Some (blake3_normalize key)
  | NormalizerKeyed secret =>
      (fun k => blake3_keyed_normalize k key) <$> try_into_array 32 (secret_bytes secret)
  | NormalizerUnavailable _ => None
  end.

(** The vault's own secrets. *)
Definition secrets : list Fragments :=
  match normalizer self with NormalizerKeyed s => [secret_fragments s] | _ => [] end ++
  match master self with Some (MasterReady s) => [secret_fragments s] | _ => [] end.

Lemma normalized_length key k :
  normalized key = Some k -> RawKey.len key <= isize_max -> RawKey.len k <= isize_max.
Proof.
  unfold normalized. intros Hk Hl. assert (32 <= isize_max) by done. destruct (normalizer self); simplify_eq.
  - done.
  - by rewrite blake3_normalize_len.
  - apply fmap_Some in Hk as (hk & _ & ->). by rewrite blake3_keyed_normalize_len.
Qed.

Lemma normalize_key_framed key :
  framed secrets (normalize_key self key) (fun k _ => normalized key = Some k) (fun _ => True).
Proof.
  unfold normalize_key, normalized, secrets. destruct (normalizer self) as [| | secret | reason].
  - apply framed_ret. intros _ _. by destruct key.
  - by apply framed_ret.
  - intros s Hok Hn. apply Forall_app in Hn as [Hn _]. rewrite Forall_singleton in Hn.
    unfold bind, on_regions, zoom.
    pose proof (secret_read_spec secret (fun k =>
        match try_into_array 32 k with
        | Some k => Ok (blake3_keyed_normalize k key)
        | None => Err wrong_key_length
        end) (regions s) (world s) Hok Hn) as Hr.
    destruct (secret_read _ _ _) as [[o | e | |] [rs w]]; [| by destruct Hr as (_ & -> & _) | done..].
    destruct Hr as (-> & Hok' & Hle). fold (secret_bytes secret).
    destruct (try_into_array 32 _); cbn; split; done || by split.
  - by apply framed_fail.
Qed.

Context (Hwf : vault_wf).

Lemma encode_framed need k :
  framed need (transform self k) (fun enc _ => coded (codex self) k enc) (fun _ => False).
Proof.
  unfold transform.
  destruct (codex self) as [c |] eqn:Ec; [| by apply framed_ret].
  intros s _ _. destruct (codex_apply_ok c k s (vw_codex Hwf c Ec)) as (enc & -> & He).
  split; [reflexivity | done].
Qed.

(** Fragments that give [key] back. *)
Definition holds (frags : Fragments) (key : RawKey.t) : Prop :=
  RawKey.len key <= isize_max /\
  exists enc, coded (codex self) key enc /\
    reassembles (defragment (W := W) (fragmenter self)) (defragment_into (W := W) (fragmenter self)) frags enc.

Lemma fragment_pipeline_framed key :
  RawKey.len key <= isize_max ->
  framed secrets (fragment_pipeline self key)
    (fun frags _ => exists k, normalized key = Some k /\
       store_region (store frags) = None /\ layout_start frags = 0 /\ view_ok frags /\
       forall view, view_ok view -> view ≡ frags -> holds view k)
    (fun _ => True).
Proof.
  intros Hl. unfold fragment_pipeline.
  eapply framed_bind; [apply normalize_key_framed |]. intros k Hk.
  pose proof (normalized_length _ _ Hk Hl) as Hkl.
  eapply framed_bind; [eapply framed_mono; [apply encode_framed | intros ? ? Hx; exact Hx | done] |].
  intros enc Hc. cbn beta in Hc. pose proof (coded_length _ _ _ Hc) as Hel.
  eapply framed_mono; [eapply (framed_world _ _ _ (fun _ => True)) | | done].
  - intros w. pose proof (vw_lawful Hwf enc ltac:(lia) w) as Hs.
    pose proof (vw_bounded Hwf enc w) as Hb.
    destruct (fragment _ enc w) as [[frags | e | |] w']; cbn in *; [exact (conj Hs Hb) | done..].
  - intros frags s ((Hr & Hst & Hre) & Hb). cbn beta. exists k.
    assert (view_ok frags) by (split; [lia | exact Hb]).
    split_and!; [done.. |]. intros view Hv Heq. split; [done |]. exists enc. auto.
Qed.

(** Where a stored key lives: a protected region exactly when page protection
    is on. *)
Definition placed (rs : Regions) (frags : Fragments) : Prop :=
  region_present rs frags /\
  (page_protection (config self) = false -> store_region (store frags) = None).

Lemma fragment_for_registry_framed key :
  RawKey.len key <= isize_max ->
  framed secrets (fragment_for_registry self key)
    (fun frags s => exists k, normalized key = Some k /\ holds frags k /\ placed (regions s) frags)
    (fun _ => True).
Proof.
  intros Hl. unfold fragment_for_registry.
  eapply framed_bind; [apply fragment_pipeline_framed, Hl |].
  intros frags (k & Hk & Hr & Hst & Hv & Hre). unfold placed.
  destruct (page_protection (config self)).
  - intros s Hok _. assert (zlen (layout_bytes frags) <= usize_max) as Hlay.
    { destruct Hv. pose proof (zlen_layout_bytes_le frags). unfold usize_max, isize_max in *. lia. }
    pose proof (into_protected_regions frags (regions s) (world s) Hlay Hok) as Hp.
    unfold on_regions, zoom.
    destruct (into_protected frags _) as [[p | e | |] [rs w]]; [| subst rs | done..].
    + destruct Hp as (Heq & Hps & Hpr & _ & Hok' & Hle). split; [by split |]. exists k.
      split_and!; [done | | done..]. apply Hre; [by eapply equiv_view_ok | done].
    + split; [by split | done].
  - apply framed_ret. intros s _. exists k. split_and!; [done | by apply Hre | | done].
    intros id. by rewrite Hr.
Qed.

(** ** Audit and time *)

Lemma clock_unix_framed need E : framed need (clock_unix self) (fun _ _ => True) E.
Proof. apply (framed_world _ _ (fun _ => True)), safe_ask. Qed.

Lemma emit_audit_framed need name kind note :
  framed need (emit_audit self name kind note) (fun _ _ => True) (fun _ => False).
Proof.
  unfold emit_audit. case_test; [by apply framed_ret |].
  eapply framed_bind; [apply clock_unix_framed |]. intros t _.
  eapply framed_bind; [apply framed_gets |]. intros th _. apply framed_tell.
Qed.
End pipeline.
