(* ===== verification/VaultRead.v ===== *)
(** * Reading a key: the scratch buffer and the protected pages

    The scratch buffer is all zeros whenever it is not borrowed, whatever
    happened while it was; a read hands the callback exactly the stored key
    and never faults. *)

From S2P Require Import Prelude Errors Rust Rng RawKey Normalize Codex Fragment Standard Layouts.
From S2P Require Import Os Guarded Handle Events Config Lockout VaultState Vault VaultFrame VaultPipeline.

(** ** Zeroed buffers *)

Definition all_zero (bs : list byte) : Prop := Forall (eq Byte.x00) bs.

Lemma all_zero_zeros n : all_zero (zeros n).
Proof. by apply Forall_replicate. Qed.

Lemma volatile_zero_slice_spec bs : volatile_zero_slice bs = zeros (zlen bs).
Proof.
  unfold zeros, zlen. rewrite Nat2Z.id. induction bs as [| b bs IH]; [done |]. cbn. by rewrite IH.
Qed.

(** Nobody uses the scratch, and it holds no key material. *)
Definition scratch_clean {W} (s : VaultState W) : Prop :=
  borrowed (scratch s) = false /\ all_zero (buf (scratch s)).

(** The scratch is in the hands it was in, and holds only zeros. *)
Definition wiped {W} (s s' : VaultState W) : Prop :=
  borrowed (scratch s') = borrowed (scratch s) /\ all_zero (buf (scratch s')).

(** The callback leaves a borrowed scratch alone, as every program that can
    only use the vault's operations does. *)
Definition respects_scratch {W T} (f : callback W T) : Prop :=
  forall bytes s, borrowed (scratch s) = true -> scratch (snd (f bytes s)) = scratch s.

(** Everything but the scratch's buffer, the regions and the world. *)
Record sframe {W} (s s' : VaultState W) : Prop := {
  sf_keys : keys s' = keys s;
  sf_lock : lock s' = lock s;
  sf_backoff : backoff s' = backoff s;
  sf_next_id : next_id s' = next_id s;
  sf_borrowed : borrowed (scratch s') = borrowed (scratch s);
  sf_regions : regions_le (regions s) (regions s');
  sf_ok : regions_ok (regions s) -> regions_ok (regions s')
}.

#[export] Instance sframe_preorder {W} : PreOrder (sframe (W := W)).
Proof.
  split; [by split |]. intros s1 s2 s3 [] []. split; [by etrans.. | by etrans | auto].
Qed.

Lemma frame_sframe {W} (s s' : VaultState W) : frame s s' -> sframe s s'.
Proof. intros []. split; congruence || done. Qed.

(** What a step may do to a borrowed scratch of at least [total] bytes: only
    the first [total] bytes change. *)
Definition tail_kept {W} (total : Z) (s s' : VaultState W) : Prop :=
  borrowed (scratch s') = borrowed (scratch s) /\
  length (buf (scratch s')) = length (buf (scratch s)) /\
  drop (Z.to_nat total) (buf (scratch s')) = drop (Z.to_nat total) (buf (scratch s)).

#[export] Instance tail_kept_preorder {W} total : PreOrder (tail_kept (W := W) total).
Proof.
  split; [by intros s |]. intros s1 s2 s3 (? & ? & ?) (? & ? & ?). repeat split; congruence.
Qed.

Definition keeps_tail {W A} (total : Z) (m : M (VaultState W) A) : Prop :=
  forall s, total <= zlen (buf (scratch s)) -> tail_kept total s (snd (m s)).

Section keeps_tail.
Context {W : Type} (total : Z).

Lemma keeps_tail_scratch {A} (m : M (VaultState W) A) :
  (forall s, scratch (snd (m s)) = scratch s) -> keeps_tail total m.
Proof. intros Hm s _. unfold tail_kept. by rewrite Hm. Qed.

Lemma keeps_tail_bind {A B} (m : M (VaultState W) A) (k : A -> M (VaultState W) B) :
  keeps_tail total m -> (forall a, keeps_tail total (k a)) -> keeps_tail total (bind m k).
Proof.
  intros Hm Hk s Hl. specialize (Hm s Hl). unfold bind.
  destruct (m s) as [[a | e | |] s1]; cbn in *; [| done..].
  etrans; [exact Hm |]. apply Hk. destruct Hm as (_ & Hlen & _). unfold zlen in *. lia.
Qed.

Lemma keeps_tail_finally {A} (m : M (VaultState W) A) (cleanup : VaultState W -> VaultState W) :
  keeps_tail total m -> (forall s, scratch (cleanup s) = scratch s) ->
  keeps_tail total (finally m cleanup).
Proof.
  intros Hm Hc s Hl. specialize (Hm s Hl). unfold finally. destruct (m s) as [o s1]; cbn in *.
  unfold tail_kept in *. by rewrite Hc.
Qed.

(** Code that works on [buf[..total]] as a slice. *)
Lemma keeps_tail_on_scratch {A} (m : M (list byte) A) :
  len_stable m -> keeps_tail (W := W) total (on_scratch total m).
Proof.
  intros Hm s Hl. unfold on_scratch, zoom. specialize (Hm (take (Z.to_nat total) (buf (scratch s)))).
  destruct (m _) as [o out]; cbn in *. unfold zlen in Hl. rewrite length_take in Hm.
  repeat split; cbn.
  - rewrite length_app, length_drop. lia.
  - rewrite drop_app_length'; [done | lia].
Qed.
End keeps_tail.

Section read.
Context {W : Type} `{Rng W} `{Os W} `{Blake3} `{StdTime W} `{PageRefs W} `{Threads W}.
Context (self : VaultInner W).

Lemma close_access_scratch frags (s : VaultState W) : scratch (close_access frags s) = scratch s.
Proof. unfold close_access. by destruct (fragments_close frags _). Qed.

Lemma reassemble_keeps_tail frags total : keeps_tail total (reassemble self frags total).
Proof.
  assert (keeps_tail total (read_fragments self frags total)) as Hr.
  { intros s Hl. unfold read_fragments. case_test; [| done].
    apply keeps_tail_on_scratch; [| done]. intros out. apply (defragment_into_length (W := W)). }
  unfold reassemble, read_opened. apply keeps_tail_bind.
  - case_test; [| done]. apply keeps_tail_bind.
    + apply keeps_tail_scratch. intros s. unfold on_regions, zoom. by destruct (fragments_open frags _).
    + intros []. apply keeps_tail_finally; [done | apply close_access_scratch].
  - intros _. destruct (codex self); [| by apply keeps_tail_scratch].
    apply keeps_tail_on_scratch, decode_in_place_length.
Qed.

Lemma scratch_release_spec (s : VaultState W) :
  exists s', scratch_release s = (Ok tt, s') /\ sframe s s' /\ regions s' = regions s.
Proof.
  unfold scratch_release. erewrite bind_ok by done. erewrite bind_ok by done.
  unfold tell. case_test; (erewrite bind_ok by done); eexists; (split; [done |]); by split.
Qed.

(** [ensure_len] makes room; the buffer is zeros before and after. *)
Lemma ensure_len_spec len (s : VaultState W) :
  all_zero (buf (scratch s)) ->
  match ensure_len len s with
  | (Ok _, s') => sframe s s' /\ len <= zlen (buf (scratch s')) /\ all_zero (buf (scratch s')) /\
      regions s' = regions s
  | (Panic, s') => isize_max < len /\ s' = s
  | _ => False
  end.
Proof.
  intros Hz. unfold ensure_len. erewrite bind_ok by done. case_test; tests; [by split_and! |].
  unfold vec_zeroed at 1. case_test; tests; [| done]. erewrite bind_ok by done.
  pose proof (zlen_nonneg (buf (scratch s))). rewrite zlen_zeros by lia.
  rewrite (proj2 (Z.eqb_neq len 0)) by lia.
  unfold bind at 1, on_world, zoom at 1, ask. destruct (heap_address len (world s)) as [ptr w1].
  unfold bind at 1, bind at 1, zoom at 1, ask. destruct (acquire_pages ptr len _) as [b w2].
  destruct (scratch_release_spec (set_world w2 (set_world w1 s))) as (s' & E & [] & Hr).
  unfold ret. erewrite bind_ok by exact E. cbn. split_and!.
  - by split.
  - rewrite zlen_zeros; lia.
  - apply all_zero_zeros.
  - done.
Qed.

Lemma zero_on_exit_zero total (s s' : VaultState W) :
  tail_kept total s s' -> all_zero (buf (scratch s)) -> all_zero (buf (scratch (zero_on_exit total s'))).
Proof.
  intros (_ & _ & Hd) Hz. cbn. rewrite volatile_zero_slice_spec, Hd. apply Forall_app. split.
  - apply all_zero_zeros.
  - by apply Forall_drop.
Qed.

(** After [read_key] the scratch is clean again, however it ended. *)
Lemma read_key_clean {T} frags (f : callback W T) (s : VaultState W) :
  respects_scratch f -> all_zero (buf (scratch s)) -> wiped s (snd (read_key self frags f s)).
Proof.
  intros Hf Hz. unfold read_key. destruct (borrowed (scratch s)) eqn:Eb; [by split |].
  set (total := total_len frags). unfold finally at 1.
  set (s0 := set_borrowed true s). pose proof (ensure_len_spec total s0 Hz) as He. unfold bind at 1.
  destruct (ensure_len total s0) as [[[] | e | |] s1];
    [| done | destruct He as [_ ->]; split; [by rewrite Eb | exact Hz] | done].
  destruct He as (Hfr & Hlen & Hz1 & _).
  assert (borrowed (scratch s1) = true) as Hb1 by (by rewrite (sf_borrowed _ _ Hfr)).
  unfold finally at 1. set (m := bind _ _).
  enough (tail_kept total s1 (snd (m s1))) as Ht.
  { pose proof (zero_on_exit_zero total _ _ Ht Hz1) as Hz2.
    destruct (m s1) as [o s2]. split; [by rewrite Eb | exact Hz2]. }
  unfold m. pose proof (reassemble_keeps_tail frags total s1 Hlen) as Hk. unfold bind at 1.
  destruct (reassemble self frags total s1) as [[[] | e | |] s2]; cbn [snd] in *; [| done..].
  unfold bind, gets, call. set (bytes := take _ _).
  pose proof (Hf bytes s2) as Hs. rewrite (proj1 Hk) in Hs. specialize (Hs Hb1).
  destruct (f bytes s2) as [[x |] s3]; cbn [snd] in *; unfold tail_kept in *; by rewrite Hs.
Qed.

(** ** What a read yields *)

Lemma read_fragments_spec frags enc total (s : VaultState W) :
  fragments_readable frags (regions s) = true ->
  reassembles (defragment (W := W) (fragmenter self)) (defragment_into (W := W) (fragmenter self)) frags enc ->
  total = RawKey.len enc -> total <= zlen (buf (scratch s)) ->
  read_fragments self frags total s =
    (Ok tt, set_buf (RawKey.bytes enc ++ drop (Z.to_nat total) (buf (scratch s))) s).
Proof.
  intros Hr (_ & _ & Hi) Ht Hl. unfold read_fragments. rewrite Hr. unfold on_scratch, zoom.
  rewrite Hi; [done |]. unfold RawKey.len, zlen in *. rewrite length_take. lia.
Qed.

Lemma set_buf_sframe bytes (s : VaultState W) : sframe s (set_buf bytes s).
Proof. by split. Qed.

Lemma read_opened_spec frags enc total (s : VaultState W) :
  regions_ok (regions s) -> placed self (regions s) frags ->
  reassembles (defragment (W := W) (fragmenter self)) (defragment_into (W := W) (fragmenter self)) frags enc ->
  total = RawKey.len enc -> total <= zlen (buf (scratch s)) ->
  match read_opened self frags total s with
  | (Ok _, s') => sframe s s' /\ exists rest, buf (scratch s') = RawKey.bytes enc ++ rest
  | (Err e, s') => sframe s s' /\ e = open_failed /\ page_protection (config self) = true
  | _ => False
  end.
Proof.
  intros Hok [Hp Hn] Hre Hte Hl. unfold read_opened.
  destruct (page_protection (config self)) eqn:Epp.
  - pose proof (open_close_spec frags (regions s) (world s) Hok Hp) as Ho.
    unfold bind, on_regions, zoom.
    destruct (fragments_open frags _) as [[[] | e | |] [rs1 w1]]; [| | done..].
    2: { destruct Ho as (-> & -> & _). split_and!; [by split | done | done]. }
    destruct Ho as (Hrd & Hle & Hcl). cbn [fst snd].
    unfold finally. rewrite (read_fragments_spec frags enc total) by done.
    unfold close_access. cbn. specialize (Hcl w1).
    destruct (fragments_close frags (rs1, w1)) as [rs2 w2]. destruct Hcl.
    split; [by split | by eexists].
  - rewrite (read_fragments_spec frags enc total); [| | done..].
    + split; [apply set_buf_sframe | by eexists].
    + unfold fragments_readable. by rewrite (Hn eq_refl).
Qed.

(** Fragmenter first, then the codex, in the first [total] bytes. *)
Lemma reassemble_spec frags key total (s : VaultState W) :
  regions_ok (regions s) -> placed self (regions s) frags -> holds self frags key ->
  total = total_len frags -> total <= zlen (buf (scratch s)) ->
  total = RawKey.len key /\
  match reassemble self frags total s with
  | (Ok _, s') => sframe s s' /\ take (Z.to_nat total) (buf (scratch s')) = RawKey.bytes key
  | (Err e, s') => sframe s s' /\ e = open_failed /\ page_protection (config self) = true
  | _ => False
  end.
Proof.
  intros Hok Hpl (Hkl & enc & Hc & Hre) Ht Hl. pose proof (coded_length _ _ _ Hc) as Hel.
  assert (total = RawKey.len enc) as Hte by (rewrite Ht; apply Hre).
  split; [lia |]. unfold reassemble, bind.
  pose proof (read_opened_spec frags enc total s Hok Hpl Hre Hte Hl) as Hfirst.
  destruct (read_opened self frags total s) as [[u | e | |] s1]; [| done..].
  destruct Hfirst as [Hfr [rest Hb]].
  assert (Z.to_nat total = length (RawKey.bytes enc)) as Hnat
    by (rewrite Hte; unfold RawKey.len, zlen; lia).
  destruct (codex self) as [c |] eqn:Ec.
  - unfold on_scratch, zoom. rewrite Hb, Hnat, take_app_length, drop_app_length.
    rewrite (decode_in_place_ok c key enc Hc). split; [by etrans; [| apply set_buf_sframe] |].
    cbn. apply take_app_length'. unfold RawKey.len, zlen in *. lia.
  - cbn in Hc. subst enc. cbn. split; [done |]. by rewrite Hb, Hnat, take_app_length.
Qed.

(** A read of a stored key: unless the OS refuses to open its pages, the
    callback runs, exactly once, on exactly the key. *)
Lemma read_key_spec {T} frags key (f : callback W T) (s : VaultState W) :
  regions_ok (regions s) -> placed self (regions s) frags -> holds self frags key -> scratch_clean s ->
  (exists s', read_key self frags f s = (Err open_failed, s') /\ sframe s s' /\ scratch_clean s' /\
     page_protection (config self) = true) \/
  (exists s1, sframe (set_borrowed true s) s1 /\
     read_key self frags f s =
       let '(o, s2) := call f (RawKey.bytes key) s1 in
       (o, set_borrowed false (zero_on_exit (RawKey.len key) s2))).
Proof.
  intros Hok Hp Hh [Hb Hz].
  assert (total_len frags <= isize_max) as Hmax.
  { destruct Hh as (? & enc & Hc%coded_length & Ht & _). lia. }
  unfold read_key. rewrite Hb. set (total := total_len frags) in *.
  set (s0 := set_borrowed true s). pose proof (ensure_len_spec total s0 Hz) as He.
  unfold finally at 1 3. unfold bind at 1 4.
  destruct (ensure_len total s0) as [[[] | e | |] s1]; [| done | lia | done].
  destruct He as (Hfr & Hlen & Hz1 & Hrg).
  unfold finally. unfold bind at 1 3.
  pose proof (reassemble_keeps_tail frags total s1 Hlen) as Hk.
  destruct (reassemble_spec frags key total s1) as [Htk Hre]; [by rewrite Hrg.. | done | done | done |].
  destruct (reassemble self frags total s1) as [[[] | e | |] s2]; [| | done..].
  - right. destruct Hre as [Hfr2 Hby]. exists s2. split; [by etrans |].
    unfold bind, gets. rewrite Hby, Htk. by destruct (call f _ s2).
  - left. destruct Hre as (Hfr2 & -> & Hpp). eexists. split; [done |].
    split_and!; [| split; [done |] | done].
    + destruct Hfr, Hfr2. split; cbn in *; congruence || auto || by etrans.
    + by eapply (zero_on_exit_zero total s1).
Qed.
End read.
