(* ===== verification/VaultRegistry.v ===== *)
(** * The registry invariant

    The abstract registry maps handles to names, normalized keys and
    metadata.  [vault_inv] ties it to the vault's state; each operation keeps
    the tie and does to the abstract registry what its name says. *)

From S2P Require Import Prelude Errors Rust Rng RawKey Normalize Codex Fragment Standard Layouts.
From S2P Require Import Os Guarded Handle Events Config Lockout.
From S2P Require Import VaultState Vault VaultFrame VaultPipeline VaultRead.

(** ** The abstract registry *)

Record item := { item_name : string; item_key : RawKey.t; item_meta : KeyMetadata }.
Abbreviation registry := (gmap Z item).

Definition name_used (name : string) (reg : registry) : Prop :=
  exists id i, reg !! id = Some i /\ item_name i = name.

Definition names_unique (reg : registry) : Prop :=
  forall id1 id2 i1 i2, reg !! id1 = Some i1 -> reg !! id2 = Some i2 ->
    item_name i1 = item_name i2 -> id1 = id2.

Lemma names_unique_insert reg id i :
  names_unique reg -> ~ name_used (item_name i) (delete id reg) -> names_unique (<[id := i]> reg).
Proof.
  intros Hu Hn id1 id2 i1 i2 H1 H2 He.
  destruct (decide (id1 = id)) as [-> | N1], (decide (id2 = id)) as [-> | N2]; [done | exfalso..|].
  - rewrite lookup_insert_eq in H1. rewrite lookup_insert_ne in H2 by done. simplify_eq.
    apply Hn. exists id2, i2. by rewrite lookup_delete_ne by done.
  - rewrite lookup_insert_eq in H2. rewrite lookup_insert_ne in H1 by done. simplify_eq.
    apply Hn. exists id1, i1. by rewrite lookup_delete_ne by done.
  - rewrite lookup_insert_ne in H1, H2 by done. by eapply Hu.
Qed.

Lemma names_unique_delete reg id : names_unique reg -> names_unique (delete id reg).
Proof.
  intros Hu id1 id2 i1 i2 [_ H1]%lookup_delete_Some [_ H2]%lookup_delete_Some. by apply (Hu id1 id2).
Qed.

Lemma name_used_delete name reg id : name_used name (delete id reg) -> name_used name reg.
Proof. intros (j & i & [_ Hj]%lookup_delete_Some & Hn). by exists j, i. Qed.

Section registry.
Context {W : Type} `{Rng W} `{Os W} `{Blake3} `{StdTime W} `{PageRefs W} `{Threads W}.
Context (self : VaultInner W).

(** An entry stores an item. *)
Record entry_ok (rs : Regions) (e : KeyEntry) (i : item) : Prop := {
  eo_name : entry_name e = item_name i;
  eo_meta : entry_metadata e = item_meta i;
  eo_holds : holds self (entry_fragments e) (item_key i);
  eo_placed : placed self rs (entry_fragments e)
}.

Record vault_inv (reg : registry) (s : VaultState W) : Prop := {
  vi_entries : forall id, option_Forall2 (entry_ok (regions s)) (keys s !! id) (reg !! id);
  vi_names : names_unique reg;
  vi_ids : forall id, is_Some (reg !! id) -> 1 <= id < next_id s;
  vi_next : 1 <= next_id s;
  vi_regions : regions_ok (regions s);
  vi_secrets : Forall (region_present (regions s)) (secrets self);
  vi_scratch : borrowed (scratch s) = false -> all_zero (buf (scratch s))
}.

Lemma placed_le rs rs' frags : regions_le rs rs' -> placed self rs frags -> placed self rs' frags.
Proof. intros Hle [Hp Hn]. split; [by eapply region_present_le | done]. Qed.

Lemma entry_ok_le rs rs' e i : regions_le rs rs' -> entry_ok rs e i -> entry_ok rs' e i.
Proof. intros Hle []. split; [done.. | by eapply placed_le]. Qed.

Lemma secrets_le rs rs' :
  regions_le rs rs' -> Forall (region_present rs) (secrets self) -> Forall (region_present rs') (secrets self).
Proof. intros Hle Hs. eapply Forall_impl; [exact Hs |]. intros f. by apply region_present_le. Qed.

Lemma entries_le rs rs' (oe : option KeyEntry) oi :
  regions_le rs rs' -> option_Forall2 (entry_ok rs) oe oi -> option_Forall2 (entry_ok rs') oe oi.
Proof. intros Hle []; constructor. by eapply entry_ok_le. Qed.

(** The invariant only needs the registry part of the state to stay, and the
    rest to be well-behaved. *)
Lemma vault_inv_step reg s s' :
  vault_inv reg s -> keys s' = keys s -> next_id s <= next_id s' ->
  regions_le (regions s) (regions s') -> regions_ok (regions s') ->
  (borrowed (scratch s') = false -> all_zero (buf (scratch s'))) ->
  vault_inv reg s'.
Proof.
  intros [He Hn Hi Hx Hr Hse Hs] Hk Hid Hle Hok Hs'. split; try done.
  - intros id. rewrite Hk. by eapply entries_le.
  - intros id Hid'. specialize (Hi id Hid'). lia.
  - lia.
  - by eapply secrets_le.
Qed.

Lemma vault_inv_frame reg s s' : vault_inv reg s -> frame s s' -> vault_inv reg s'.
Proof.
  intros Hinv []. eapply vault_inv_step; [done | done | lia | done | |].
  - apply fr_ok, Hinv.
  - rewrite fr_scratch. apply Hinv.
Qed.

(** Changes of the lockout state and the world. *)
Lemma vault_inv_lock reg s l w :
  vault_inv reg s -> vault_inv reg (set_world w (set_lock l s)).
Proof. intros []. by eapply vault_inv_step. Qed.

Lemma vault_inv_insert reg s id e i :
  vault_inv reg s -> entry_ok (regions s) e i -> 1 <= id < next_id s ->
  ~ name_used (item_name i) (delete id reg) ->
  vault_inv (<[id := i]> reg) (set_keys (<[id := e]> (keys s)) s).
Proof.
  intros [] He Hid Hn. split; cbn; try done.
  - intros j. destruct (decide (j = id)) as [-> | Hne].
    + rewrite !lookup_insert_eq. by constructor.
    + by rewrite !lookup_insert_ne by done.
  - by apply names_unique_insert.
  - intros j. destruct (decide (j = id)) as [-> | Hne]; [done |].
    rewrite lookup_insert_ne by done. auto.
Qed.

Lemma vault_inv_delete reg s id :
  vault_inv reg s -> vault_inv (delete id reg) (set_keys (delete id (keys s)) s).
Proof.
  intros []. split; cbn; try done.
  - intros j. destruct (decide (j = id)) as [-> | Hne].
    + rewrite !lookup_delete_eq. constructor.
    + by rewrite !lookup_delete_ne by done.
  - by apply names_unique_delete.
  - intros j [i [_ Hi]%lookup_delete_Some]. eauto.
Qed.

(** Looking a handle up. *)
Lemma vault_inv_lookup reg s id :
  vault_inv reg s ->
  match keys s !! id with
  | Some e => exists i, reg !! id = Some i /\ entry_ok (regions s) e i
  | None => reg !! id = None
  end.
Proof.
  intros []. specialize (vi_entries0 id). destruct vi_entries0; [by eexists | done].
Qed.

Lemma name_taken_spec reg s name :
  vault_inv reg s -> name_taken name (keys s) = true <-> name_used name reg.
Proof.
  intros Hinv. unfold name_taken. rewrite existsb_exists. split.
  - intros ([id e] & Hin & Hn%bool_decide_eq_true). rewrite <- list_elem_of_In, elem_of_map_to_list in Hin.
    pose proof (vault_inv_lookup reg s id Hinv) as Hl. rewrite Hin in Hl.
    destruct Hl as (i & Hi & []). exists id, i. split; [done |]. cbn in Hn. congruence.
  - intros (id & i & Hi & <-). pose proof (vault_inv_lookup reg s id Hinv) as Hl.
    destruct (keys s !! id) as [e |] eqn:E; [| congruence]. destruct Hl as (i' & Hi' & []).
    exists (id, e). split; [by rewrite <- list_elem_of_In, elem_of_map_to_list |].
    apply bool_decide_eq_true. cbn. congruence.
Qed.
End registry.
