(* ===== verification/VaultSpec.v ===== *)
(** * What each vault operation does

    One lemma per operation: the outcomes it can have in a state that meets
    [vault_inv], when each happens, and the registry it leaves. *)

From S2P Require Import Prelude Errors Rust Rng RawKey Normalize Codex Fragment Standard Layouts.
From S2P Require Import Os Guarded Handle Events Config Lockout.
From S2P Require Import VaultState Vault VaultFrame VaultPipeline VaultRead VaultRegistry.

Section spec.
Context {W : Type} `{Rng W} `{Os W} `{Blake3} `{StdTime W} `{PageRefs W} `{Threads W}.
Context (self : VaultInner W) (Hwf : vault_wf self).
Implicit Types reg : registry.
Implicit Types s : VaultState W.

(** After an operation: the registry is [reg'], at most one handle was
    allocated, and the scratch is borrowed as before. *)
Record after (reg' : registry) s s' : Prop := {
  af_inv : vault_inv self reg' s';
  af_next : next_id s <= next_id s' <= next_id s + 1;
  af_borrowed : borrowed (scratch s') = borrowed (scratch s)
}.

Lemma after_refl reg s : vault_inv self reg s -> after reg s s.
Proof. intros. split; [done | lia | done]. Qed.

Lemma after_frame reg s s' : vault_inv self reg s -> frame s s' -> after reg s s'.
Proof.
  intros Hinv Hf. split; [by eapply vault_inv_frame | |]; destruct Hf; [lia | congruence].
Qed.

(** Framed steps after an operation, or before one. *)
Lemma after_then_frame reg s s' s'' : after reg s s' -> frame s' s'' -> after reg s s''.
Proof.
  intros [Hi Hn Hb] Hf. split; [by eapply vault_inv_frame | |]; destruct Hf; [lia | congruence].
Qed.

Lemma emit_audit_after reg s s' name kind note :
  after reg s s' -> exists s'', emit_audit self name kind note s' = (Ok tt, s'') /\ frame s' s'' /\ after reg s s''.
Proof.
  intros Ha. pose proof (emit_audit_framed self [] name kind note s') as He.
  specialize (He (vi_regions _ _ _ (af_inv _ _ _ Ha)) (List.Forall_nil _)).
  destruct (emit_audit self name kind note s') as [[[] | e | |] s'']; [| by destruct He | done..].
  destruct He as [Hf _]. exists s''. split_and!; [done | done | by eapply after_then_frame].
Qed.

(** Whether a name is locked, and what asking changes. *)
Lemma name_locked_spec name s :
  exists b l w, name_locked self name s = (Ok b, set_world w (set_lock l s)) /\
    key_locked (clock self) name (lock s) (world s) = (b, l, w).
Proof.
  unfold name_locked, on_lock.
  destruct (key_locked _ name (lock s) (world s)) as [[b l] w]. by exists b, l, w.
Qed.

Lemma lock_step_after reg s l w : vault_inv self reg s -> after reg s (set_world w (set_lock l s)).
Proof. intros Hi. split; [by apply vault_inv_lock | cbn; lia | done]. Qed.

(** [fragment_for_registry] in a good state. *)
Lemma fragment_for_registry_after reg s key :
  vault_inv self reg s -> RawKey.len key <= isize_max ->
  match fragment_for_registry self key s with
  | (Ok frags, s') => frame s s' /\ exists k, normalized self key = Some k /\
      holds self frags k /\ placed self (regions s') frags
  | (Err e, s') => frame s s'
  | _ => False
  end.
Proof.
  intros [] Hl. pose proof (fragment_for_registry_framed self Hwf key Hl s) as Hf.
  specialize (Hf vi_regions vi_secrets).
  destruct (fragment_for_registry self key s) as [[frags | e | |] s']; [done | by destruct Hf | done..].
Qed.

Lemma clock_unix_ok s : exists t w, clock_unix self s = (Ok t, set_world w s).
Proof.
  unfold clock_unix, on_world, zoom, ask. destruct (unix_time (clock self) (world s)) as [t w].
  by exists t, w.
Qed.

(** The part of [register] before the writer lock: the entry it makes. *)
Lemma register_prepare_spec reg s name key :
  vault_inv self reg s -> next_id s < u64_max -> RawKey.len key <= isize_max ->
  match register_prepare self name key s with
  | (Ok (h, e), s') => locked_out (lock s) = false /\ ~ name_used name reg /\
      KeyHandle.id h = next_id s /\ next_id s' = next_id s + 1 /\ after reg s s' /\
      exists k t, normalized self key = Some k /\
        entry_ok self (regions s') e {| item_name := name; item_key := k;
                                        item_meta := KeyMetadata.new t (RawKey.len key) None |}
  | (Err e, s') => after reg s s' /\
      (if locked_out (lock s) then e = Error.LockedOut else name_used name reg -> e = duplicate name)
  | _ => False
  end.
Proof.
  intros Hinv Hnext Hl. unfold register_prepare, is_locked_out.
  unfold bind at 1. cbn [gets].
  destruct (locked_out (lock s)) eqn:Elo; [split; [by apply after_refl | done] |].
  erewrite bind_ok by done.
  destruct (name_taken name (keys s)) eqn:Ent; [split; [by apply after_refl | done] |].
  assert (~ name_used name reg) as Hfree.
  { intros Hu%(name_taken_spec self reg s name Hinv). congruence. }
  pose proof (fragment_for_registry_after reg s key Hinv Hl) as Hf. unfold bind at 1.
  destruct (fragment_for_registry self key s) as [[frags | e | |] s1]; [| | done..].
  2: { split; [by apply after_frame | done]. }
  destruct Hf as [Hfr (k & Hk & Hh & Hp)]. pose proof (vault_inv_frame _ _ _ _ Hinv Hfr) as Hi1.
  pose proof (fr_next_id _ _ Hfr) as Hn1. pose proof (vi_next _ _ _ Hinv) as Hn0.
  unfold bind at 1, on_next_id, zoom. rewrite allocate_ok by (unfold u64_max in *; lia).
  unfold wrap64. rewrite Z.mod_small by (unfold u64_max in *; lia).
  set (s2 := set_next_id (next_id s1 + 1) s1). unfold bind at 1.
  destruct (clock_unix_ok s2) as (t & w & ->). cbn [ret KeyHandle.id handle_id].
  split_and!; [done | done | done | cbn; lia | |].
  - split; [| cbn; lia | apply (f_equal borrowed), Hfr].
    eapply vault_inv_step; [exact Hi1 | done | cbn; lia | done | apply Hi1..].
  - exists k, t. split; [done | by split].
Qed.

(** The part under the writer lock. *)
Lemma register_commit_spec reg s h e i :
  vault_inv self reg s -> entry_ok self (regions s) e i -> reg !! KeyHandle.id h = None ->
  1 <= KeyHandle.id h < next_id s ->
  (name_used (item_name i) reg /\ register_commit h e s = (Err (duplicate (item_name i)), s)) \/
  (~ name_used (item_name i) reg /\ exists s', register_commit h e s = (Ok tt, s') /\
     after (<[KeyHandle.id h := i]> reg) s s' /\ next_id s' = next_id s).
Proof.
  intros Hinv He Hfresh Hid. unfold register_commit. rewrite (eo_name _ _ _ _ He).
  erewrite bind_ok by done. destruct (name_taken (item_name i) (keys s)) eqn:Ent.
  - left. split; [by apply (name_taken_spec self reg s) | done].
  - right. assert (~ name_used (item_name i) reg) as Hfree.
    { intros Hu%(name_taken_spec self reg s _ Hinv). congruence. }
    split; [done |]. eexists. split; [done |]. split; [| done].
    split; [| cbn; lia | done]. apply vault_inv_insert; [done..|]. by intros Hu%name_used_delete.
Qed.

Lemma after_trans reg1 reg2 s1 s2 s3 :
  after reg1 s1 s2 -> after reg2 s2 s3 -> next_id s3 = next_id s2 -> after reg2 s1 s3.
Proof. intros [] [] Hn. split; [done | lia | congruence]. Qed.

(** [register]. *)
Lemma register_spec reg s name key :
  vault_inv self reg s -> next_id s < u64_max -> RawKey.len key <= isize_max ->
  match register self name key s with
  | (Ok h, s') => locked_out (lock s) = false /\ ~ name_used name reg /\ reg !! KeyHandle.id h = None /\
      exists k t, normalized self key = Some k /\
        after (<[KeyHandle.id h := {| item_name := name; item_key := k;
                   item_meta := KeyMetadata.new t (RawKey.len key) None |}]> reg) s s'
  | (Err e, s') => after reg s s' /\
      (if locked_out (lock s) then e = Error.LockedOut else name_used name reg -> e = duplicate name)
  | _ => False
  end.
Proof.
  intros Hinv Hnext Hl. unfold register, bind at 1.
  pose proof (register_prepare_spec reg s name key Hinv Hnext Hl) as Hp.
  destruct (register_prepare self name key s) as [[[h e] | e | |] s1]; [| done..].
  destruct Hp as (Hlo & Hfree & Hid & Hn & Ha & k & t & Hk & He). cbn [fst snd].
  pose proof (vi_next _ _ _ Hinv). pose proof (af_inv _ _ _ Ha) as Hi1.
  assert (reg !! KeyHandle.id h = None) as Hfresh.
  { destruct (reg !! KeyHandle.id h) eqn:Er; [| done].
    pose proof (vi_ids _ _ _ Hinv (KeyHandle.id h)) as Hr. rewrite Er in Hr.
    specialize (Hr ltac:(done)). lia. }
  destruct (register_commit_spec reg s1 h e _ Hi1 He Hfresh ltac:(lia)) as [[Hu _] | (_ & s2 & E2 & Ha2 & Hn2)];
    [done |].
  erewrite bind_ok by exact E2. pose proof (after_trans _ _ _ _ _ Ha Ha2 Hn2) as Ha3.
  destruct (emit_audit_after _ _ _ name Register EmptyString Ha3) as (s4 & E4 & _ & Ha4).
  erewrite bind_ok by exact E4. cbn [ret]. split_and!; [done.. |]. by exists k, t.
Qed.

(** [unregister]: allowed while locked out. *)
Lemma unregister_commit_eq h s :
  unregister_commit h s =
    match keys s !! KeyHandle.id h with
    | Some e => (Ok (entry_name e), set_keys (delete (KeyHandle.id h) (keys s)) s)
    | None => (Err Error.KeyNotFound, s)
    end.
Proof. unfold unregister_commit, bind. cbn. by destruct (keys s !! KeyHandle.id h). Qed.

Lemma unregister_spec reg s h :
  vault_inv self reg s ->
  match unregister self h s with
  | (Ok _, s') => is_Some (reg !! KeyHandle.id h) /\ after (delete (KeyHandle.id h) reg) s s'
  | (Err e, s') => e = Error.KeyNotFound /\ reg !! KeyHandle.id h = None /\ s' = s
  | _ => False
  end.
Proof.
  intros Hinv. unfold unregister, bind. rewrite unregister_commit_eq.
  pose proof (vault_inv_lookup self reg s (KeyHandle.id h) Hinv) as Hl.
  destruct (keys s !! KeyHandle.id h) as [e |] eqn:Ek; [| done]. destruct Hl as (i & Hi & _).
  assert (after (delete (KeyHandle.id h) reg) s (set_keys (delete (KeyHandle.id h) (keys s)) s)) as Ha
    by (split; [by apply vault_inv_delete | cbn; lia | done]).
  destruct (emit_audit_after _ _ _ (entry_name e) Unregister EmptyString Ha) as (s' & -> & _ & Ha').
  split; [by eexists | done].
Qed.

(** [rotate]: the new material is stored under the old name. *)
Lemma rotate_commit_eq h frags meta s :
  rotate_commit h frags meta s =
    match keys s !! KeyHandle.id h with
    | Some e => (Ok (entry_name e),
        set_keys (<[KeyHandle.id h := {| entry_name := entry_name e; entry_fragments := frags;
                                         entry_metadata := meta |}]> (keys s)) s)
    | None => (Err Error.KeyNotFound, s)
    end.
Proof. unfold rotate_commit, bind. cbn. by destruct (keys s !! KeyHandle.id h). Qed.

(** A key that [rotate] and [with_key] may use now. *)
Definition usable s name : bool :=
  negb (locked_out (lock s)) && negb (key_locked (clock self) name (lock s) (world s)).1.1.

Lemma rotate_prepare_spec reg s h key :
  vault_inv self reg s -> RawKey.len key <= isize_max ->
  match rotate_prepare self h key s with
  | (Ok (frags, meta), s') => exists i k t, reg !! KeyHandle.id h = Some i /\
      usable s (item_name i) = true /\ normalized self key = Some k /\
      after reg s s' /\ next_id s' = next_id s /\ meta = KeyMetadata.new t (RawKey.len key) None /\
      holds self frags k /\ placed self (regions s') frags
  | (Err e, s') => after reg s s' /\
      (locked_out (lock s) = true -> e = Error.LockedOut) /\
      (locked_out (lock s) = false -> reg !! KeyHandle.id h = None -> e = Error.KeyNotFound) /\
      (forall i, reg !! KeyHandle.id h = Some i -> usable s (item_name i) = false -> e = Error.LockedOut)
  | _ => False
  end.
Proof.
  intros Hinv Hl. unfold rotate_prepare, is_locked_out, usable. unfold bind at 1. cbn [gets].
  destruct (locked_out (lock s)) eqn:Elo; [by split_and!; [apply after_refl | ..] |].
  erewrite bind_ok by done. unfold bind at 1.
  pose proof (vault_inv_lookup self reg s (KeyHandle.id h) Hinv) as Hlk.
  destruct (keys s !! KeyHandle.id h) as [e |] eqn:Ek.
  2: { cbn. rewrite Hlk. by split_and!; [apply after_refl | ..]. }
  destruct Hlk as (i & Hi & He). cbn [ok_or ret]. rewrite (eo_name _ _ _ _ He), Hi. unfold bind at 1.
  destruct (name_locked_spec (item_name i) s) as (b & l & w & -> & Eb).
  pose proof (lock_step_after reg s l w Hinv) as Ha. set (s1 := set_world w (set_lock l s)) in *.
  destruct b; [split_and!; [done.. |]; by intros j [= <-] |].
  pose proof (fragment_for_registry_after reg s1 key (af_inv _ _ _ Ha) Hl) as Hf. unfold bind at 1.
  destruct (fragment_for_registry self key s1) as [[frags | er | |] s2]; [| | done..].
  - destruct Hf as [Hfr (k & Hk & Hh & Hp)]. unfold bind at 1.
    destruct (clock_unix_ok s2) as (t & w2 & ->). cbn [ret].
    exists i, k, t. split_and!; [done | by rewrite Eb | done | | apply Hfr | done..].
    eapply after_then_frame; [by eapply after_then_frame |]. apply frame_world.
  - split_and!; [by eapply after_then_frame | done | done |]. intros j [= <-]. by rewrite Eb.
Qed.

Lemma rotate_spec reg s h key :
  vault_inv self reg s -> RawKey.len key <= isize_max ->
  match rotate self h key s with
  | (Ok _, s') => exists i k t, reg !! KeyHandle.id h = Some i /\
      usable s (item_name i) = true /\ normalized self key = Some k /\
      after (<[KeyHandle.id h := {| item_name := item_name i; item_key := k;
                 item_meta := KeyMetadata.new t (RawKey.len key) None |}]> reg) s s'
  | (Err e, s') => after reg s s' /\
      (locked_out (lock s) = true -> e = Error.LockedOut) /\
      (locked_out (lock s) = false -> reg !! KeyHandle.id h = None -> e = Error.KeyNotFound) /\
      (forall i, reg !! KeyHandle.id h = Some i -> usable s (item_name i) = false -> e = Error.LockedOut)
  | _ => False
  end.
Proof.
  intros Hinv Hl. unfold rotate, bind at 1. pose proof (rotate_prepare_spec reg s h key Hinv Hl) as Hp.
  destruct (rotate_prepare self h key s) as [[[frags meta] | e | |] s1]; [| done..].
  destruct Hp as (i & k & t & Hi & Hu & Hk & Ha & Hn & -> & Hh & Hpl). cbn [fst snd].
  unfold bind. rewrite rotate_commit_eq. pose proof (af_inv _ _ _ Ha) as Hi1.
  pose proof (vault_inv_lookup self reg s1 (KeyHandle.id h) Hi1) as Hlk. rewrite Hi in Hlk.
  destruct (keys s1 !! KeyHandle.id h) as [e |] eqn:Ek; [| done]. destruct Hlk as (_ & [= <-] & He).
  set (i' := {| item_name := item_name i; item_key := k; item_meta := KeyMetadata.new t (RawKey.len key) None |}).
  set (e' := {| entry_name := entry_name e; entry_fragments := frags; entry_metadata := _ |}).
  assert (after (<[KeyHandle.id h := i']> reg) s1 (set_keys (<[KeyHandle.id h := e']> (keys s1)) s1)) as Ha1.
  { split; [| cbn; lia | done]. apply vault_inv_insert; [done | by split; [apply He | ..] | |].
    - apply (vi_ids _ _ _ Hi1). by rewrite Hi.
    - intros (id & j & [Hne Hj]%lookup_delete_Some & Hnm).
      apply Hne. symmetry. by apply (vi_names _ _ _ Hinv id _ j i). }
  pose proof (after_trans _ _ _ _ _ Ha Ha1 eq_refl) as Ha2.
  destruct (emit_audit_after _ _ _ (entry_name e) Rotate EmptyString Ha2) as (s' & -> & _ & Ha').
  by exists i, k, t.
Qed.

Lemma after_sframe reg s s' :
  vault_inv self reg s -> sframe s s' -> (borrowed (scratch s') = false -> all_zero (buf (scratch s'))) ->
  after reg s s'.
Proof.
  intros Hinv [] Hz. split; [| lia | done]. eapply vault_inv_step; [exact Hinv | done | lia | done | | done].
  apply sf_ok, Hinv.
Qed.

Definition read_event (name : string) : M (VaultState W) unit :=
  if is_no_op (W := W) (audit self) then ret tt else emit_audit self name Read EmptyString.

Lemma with_key_eq {T} s h (f : callback W T) :
  with_key self h f s =
    if locked_out (lock s) then (Err Error.LockedOut, s) else
    match keys s !! KeyHandle.id h with
    | None => (Err Error.KeyNotFound, s)
    | Some e =>
        bind (name_locked self (entry_name e)) (fun b : bool =>
          if b then fail Error.LockedOut else
          bind (read_key self (entry_fragments e) f) (fun x =>
            bind (read_event (entry_name e)) (fun _ => ret x))) s
    end.
Proof.
  unfold with_key, is_locked_out, read_event. unfold bind at 1. cbn [gets].
  destruct (locked_out (lock s)); [done |]. erewrite bind_ok by done.
  destruct (keys s !! KeyHandle.id h) as [e |]; [| done].
  unfold bind at 1. cbn [ok_or ret]. cbn zeta.
  assert (share (entry_fragments e) = entry_fragments e) as -> by (by destruct (entry_fragments e)).
  by destruct (is_no_op (audit self)).
Qed.

(** What is left of [with_key] once the key is in the scratch: the callback,
    the wiping, the audit event. *)
Definition deliver {T} (i : item) (f : callback W T) : M (VaultState W) T :=
  let! x := finally (call f (RawKey.bytes (item_key i)))
              (fun s => set_borrowed false (zero_on_exit (RawKey.len (item_key i)) s)) in
  do! read_event (item_name i) in
  ret x.

(** [with_key]: refused, or the callback gets exactly the stored key. *)
Lemma with_key_spec {T} reg s h (f : callback W T) :
  vault_inv self reg s -> borrowed (scratch s) = false ->
  match reg !! KeyHandle.id h with
  | None => with_key self h f s =
      (Err (if locked_out (lock s) then Error.LockedOut else Error.KeyNotFound), s)
  | Some i =>
      (exists e s', with_key self h f s = (Err e, s') /\ after reg s s' /\
         if usable s (item_name i) then e = open_failed /\ page_protection (config self) = true
         else e = Error.LockedOut) \/
      (exists s1, usable s (item_name i) = true /\ vault_inv self reg s1 /\
         next_id s1 = next_id s /\ borrowed (scratch s1) = true /\
         with_key self h f s = deliver i f s1)
  end.
Proof.
  intros Hinv Hb. rewrite with_key_eq. unfold usable.
  pose proof (vault_inv_lookup self reg s (KeyHandle.id h) Hinv) as Hlk.
  destruct (locked_out (lock s)) eqn:Elo.
  { destruct (reg !! KeyHandle.id h); [| done]. left. eexists _, s. by split_and!; [| apply after_refl |]. }
  destruct (keys s !! KeyHandle.id h) as [e |] eqn:Ek; [| by rewrite Hlk].
  destruct Hlk as (i & -> & He). rewrite (eo_name _ _ _ _ He).
  destruct (name_locked_spec (item_name i) s) as (b & l & w & E & ->).
  rewrite (bind_ok _ _ _ _ _ E).
  pose proof (lock_step_after reg s l w Hinv) as Ha. set (s1 := set_world w (set_lock l s)) in *.
  destruct b; [left; by eexists _, s1 |]. cbn [negb andb fst].
  assert (scratch_clean s1) as Hcl by (split; [done | by apply (vi_scratch _ _ _ Hinv)]).
  pose proof (af_inv _ _ _ Ha) as Hi1. unfold bind at 1 3.
  destruct (read_key_spec self (entry_fragments e) (item_key i) f s1)
    as [(s2 & -> & Hs & [_ Hz] & Hpp) | (s2 & Hs & ->)];
    [apply Hi1 | apply He | apply He | done | left | right].
  - eexists _, s2. split_and!; [done | | done | done].
    eapply after_trans; [exact Ha | by apply after_sframe | apply Hs].
  - exists s2. assert (borrowed (scratch s2) = true) as Hb2 by (by rewrite (sf_borrowed _ _ Hs)).
    split_and!; [done | | by rewrite (sf_next_id _ _ Hs) | done |].
    + destruct Hs. eapply vault_inv_step; [exact Hi1 | done | cbn in *; lia | done | |].
      * apply sf_ok, Hi1.
      * congruence.
    + unfold deliver, finally. unfold bind at 2.
      by destruct (call f (RawKey.bytes (item_key i)) s2) as [[x | er | |] s3].
Qed.

(** Clears and reports leave the registry alone. *)
Lemma clear_lockout_after reg s :
  vault_inv self reg s -> exists s', vault_clear_lockout (W := W) s = (Ok tt, s') /\ after reg s s'.
Proof.
  intros Hinv. eexists. split; [done |]. change (set_lock (clear_lockout (lock s)) s) with
    (set_world (world s) (set_lock (clear_lockout (lock s)) s)).
  by apply lock_step_after.
Qed.

Lemma clear_key_lockout_after reg s name :
  vault_inv self reg s ->
  exists b s', vault_clear_key_lockout (W := W) name s = (Ok b, s') /\ after reg s s'.
Proof.
  intros Hinv. unfold vault_clear_key_lockout, on_lock.
  destruct (clear_key_lockout name (lock s)) as [b l]. eexists b, _. split; [done |].
  by apply lock_step_after.
Qed.

Lemma handle_failure_after reg s name note per_key :
  vault_inv self reg s ->
  exists s', vault_handle_failure self name note per_key s = (Ok tt, s') /\ after reg s s'.
Proof.
  intros Hinv. unfold vault_handle_failure, on_lock.
  destruct (handle_failure _ _ _ name note per_key _ _) as [l w]. eexists. split; [done |].
  by apply lock_step_after.
Qed.

Lemma is_key_locked_out_after reg s h :
  vault_inv self reg s -> exists b s', is_key_locked_out self h s = (Ok b, s') /\ after reg s s'.
Proof.
  intros Hinv. unfold is_key_locked_out. erewrite bind_ok by done.
  destruct (keys s !! KeyHandle.id h) as [e |]; [| by exists false, s; split; [| apply after_refl]].
  destruct (name_locked_spec (entry_name e) s) as (b & l & w & -> & _).
  exists b. eexists. split; [done |]. by apply lock_step_after.
Qed.

(** One-shot [fragment]. *)
Lemma vault_fragment_after reg s key :
  vault_inv self reg s -> RawKey.len key <= isize_max ->
  match vault_fragment self key s with
  | (Ok frags, s') => after reg s s' /\ frame s s' /\ locked_out (lock s) = false /\
      exists k, normalized self key = Some k /\ store_region (store frags) = None /\
        view_ok frags /\ holds self frags k
  | (Err e, s') => after reg s s' /\ (locked_out (lock s) = true -> e = Error.LockedOut)
  | _ => False
  end.
Proof.
  intros Hinv Hl. unfold vault_fragment, is_locked_out. unfold bind at 1. cbn [gets].
  destruct (locked_out (lock s)) eqn:Elo; [by split; [apply after_refl |] |].
  pose proof (fragment_pipeline_framed self Hwf key Hl s (vi_regions _ _ _ Hinv) (vi_secrets _ _ _ Hinv)) as Hf.
  unfold bind at 1. destruct (fragment_pipeline self key s) as [[frags | e | |] s1]; [| | done..].
  2: { destruct Hf as [Hf _]. split; [by apply after_frame | done]. }
  destruct Hf as [Hfr (k & Hk & Hr & _ & Hv & Hh)].
  destruct (emit_audit_after reg s s1 EmptyString OneShotFragment EmptyString) as (s' & E & Hf2 & Ha);
    [by apply after_frame |].
  erewrite bind_ok by exact E. cbn [ret]. split_and!; [done | by etrans | done |]. exists k. split_and!; [done.. |].
  by apply Hh.
Qed.

(** One-shot [defragment]: the strategy's answer, decoded; or its failure. *)
Lemma vault_defragment_after reg s frags :
  vault_inv self reg s ->
  match vault_defragment self frags s with
  | (Ok k, s') => after reg s s' /\ locked_out (lock s) = false /\
      exists enc, defragment (W := W) (fragmenter self) frags = Ok enc /\ coded (codex self) enc k
  | (Err e, s') => after reg s s' /\
      if locked_out (lock s) then e = Error.LockedOut
      else defragment (W := W) (fragmenter self) frags = Err e
  | (_, s') => after reg s s' /\ ~ returns (defragment (W := W) (fragmenter self) frags)
  end.
Proof.
  intros Hinv. pose proof (after_refl reg s Hinv) as Ha.
  unfold vault_defragment, is_locked_out. unfold bind at 1. cbn [gets].
  destruct (locked_out (lock s)) eqn:Elo; [by split |].
  unfold bind at 1, lift. destruct (defragment _ frags) as [enc | e | |]; [| by split; [| cbn; auto]..].
  pose proof (encode_framed self Hwf [] enc s (vi_regions _ _ _ Hinv) (List.Forall_nil _)) as Hc.
  unfold bind at 1. destruct (transform self enc s) as [[k | e | |] s1]; [| by destruct Hc | done..].
  destruct Hc as [Hf Hc].
  destruct (emit_audit_after reg s s1 EmptyString OneShotDefragment EmptyString) as (s' & E & _ & Ha');
    [by eapply after_then_frame |].
  erewrite bind_ok by exact E. cbn [ret]. split_and!; [done.. |]. by exists enc.
Qed.

(** ** Master unlock *)

(** The clock reading an attempt is judged by. *)
Definition attempt_time s : Z := (now (clock self) (world s)).1.

(** Everything an attempt can come to. *)
Inductive unlock_case (attempt : list byte) s s' : outcome unit -> Prop :=
| UnlockNoMaster : master self = None -> s' = s -> unlock_case attempt s s' (Err no_master)
| UnlockLimited :
    is_Some (master self) -> attempt_time s < next_allowed (backoff s) ->
    lock s' = lock s -> backoff s' = backoff s ->
    unlock_case attempt s s' (Err (Error.RateLimited (next_allowed (backoff s) - attempt_time s)))
| UnlockUnavailable reason :
    master self = Some (MasterUnavailable reason) -> next_allowed (backoff s) <= attempt_time s ->
    lock s' = lock s -> backoff s' = backoff s ->
    unlock_case attempt s s' (Err (Error.Internal reason))
| UnlockRefused secret :
    master self = Some (MasterReady secret) -> next_allowed (backoff s) <= attempt_time s ->
    is_Some (store_region (store (secret_fragments secret))) ->
    lock s' = lock s -> backoff s' = backoff s ->
    unlock_case attempt s s' (Err open_failed)
| UnlockMatched secret :
    master self = Some (MasterReady secret) -> next_allowed (backoff s) <= attempt_time s ->
    verify_master attempt (secret_bytes secret) = true ->
    lock s' = clear_lockout (lock s) -> backoff s' = backoff_default ->
    unlock_case attempt s s' (Ok tt)
| UnlockMismatch secret w :
    master self = Some (MasterReady secret) -> next_allowed (backoff s) <= attempt_time s ->
    verify_master attempt (secret_bytes secret) = false ->
    lock s' = (handle_failure (config self) (monitor self) (clock self) MASTER_NAME
                 (Some "invalid master credential") false (lock s) w).1 ->
    backoff s' = next_backoff self false (attempt_time s) (backoff s) ->
    unlock_case attempt s s' (Err master_mismatch).

Lemma set_backoff_after reg s b : vault_inv self reg s -> after reg s (set_backoff b s).
Proof. intros Hinv. split; [| cbn; lia | done]. destruct Hinv. by eapply vault_inv_step. Qed.

(** The comparison: refused by the OS, or decided by the stored verifier. *)
Lemma read_master_spec reg s secret attempt :
  vault_inv self reg s -> master self = Some (MasterReady secret) ->
  match on_regions (secret_read secret (verify_master attempt)) s with
  | (Ok b, s') => frame s s' /\ b = verify_master attempt (secret_bytes secret)
  | (Err e, s') => frame s s' /\ e = open_failed /\ is_Some (store_region (store (secret_fragments secret)))
  | _ => False
  end.
Proof.
  intros Hinv Em. pose proof (vi_secrets _ _ _ Hinv) as Hs. unfold secrets in Hs. rewrite Em in Hs.
  apply Forall_app in Hs as [_ Hs]. rewrite Forall_singleton in Hs.
  pose proof (secret_read_spec secret (verify_master attempt) (regions s) (world s) (vi_regions _ _ _ Hinv) Hs) as Hr.
  unfold on_regions, zoom.
  destruct (secret_read _ _ _) as [[b | e | |] [rs w]]; [| | done..].
  - destruct Hr as (-> & Hok & Hle). split; [by split | done].
  - destruct Hr as (-> & -> & Hreg). split; [by split | done].
Qed.

(** After the comparison. *)
Lemma finish_unlock_spec reg s s1 attempt secret matched :
  after reg s s1 -> lock s1 = lock s -> backoff s1 = backoff s ->
  master self = Some (MasterReady secret) -> next_allowed (backoff s) <= attempt_time s ->
  matched = verify_master attempt (secret_bytes secret) ->
  let '(o, s') := finish_unlock self matched (attempt_time s) (backoff s) s1 in
  after reg s s' /\ unlock_case attempt s s' o.
Proof.
  intros Ha Hl Hb Em Ht ->. unfold finish_unlock.
  set (matched := verify_master attempt (secret_bytes secret)).
  set (s2 := set_backoff (next_backoff self matched (attempt_time s) (backoff s)) s1).
  rewrite (bind_ok _ _ s1 tt s2) by done.
  assert (after reg s s2) as Ha2.
  { eapply after_trans; [exact Ha | apply set_backoff_after, Ha | done]. }
  destruct (emit_audit_after reg s s2 MASTER_NAME (MasterUnlockAttempt matched) EmptyString Ha2)
    as (s3 & E & Hf & Ha3). rewrite (bind_ok _ _ _ _ _ E).
  destruct matched eqn:Em2.
  - destruct (clear_lockout_after reg s3 (af_inv _ _ _ Ha3)) as (s4 & E4 & Ha4). rewrite E4.
    injection E4 as <-. split; [eapply after_trans; [exact Ha3 | exact Ha4 | done] |].
    eapply UnlockMatched; [done.. | |]; cbn; [| by rewrite (fr_backoff _ _ Hf)].
    rewrite (fr_lock _ _ Hf). cbn. by rewrite Hl.
  - destruct (handle_failure_after reg s3 MASTER_NAME (Some "invalid master credential") false
      (af_inv _ _ _ Ha3)) as (s4 & E4 & Ha4). rewrite (bind_ok _ _ _ _ _ E4). cbn [fail].
    unfold vault_handle_failure, on_lock in E4.
    destruct (handle_failure (config self) _ _ _ _ _ (lock s3) (world s3)) as [l w] eqn:Eh.
    injection E4 as <-. split; [eapply after_trans; [exact Ha3 | exact Ha4 | done] |].
    eapply (UnlockMismatch _ _ _ secret (world s3)); [done.. | |]; cbn; [| by rewrite (fr_backoff _ _ Hf)].
    assert (lock s = lock s3) as -> by (rewrite (fr_lock _ _ Hf); cbn; by rewrite Hl).
    by rewrite Eh.
Qed.

Lemma unlock_cases reg s attempt :
  vault_inv self reg s ->
  let '(o, s') := unlock_with_master self attempt s in after reg s s' /\ unlock_case attempt s s' o.
Proof.
  intros Hinv. unfold unlock_with_master.
  destruct (master self) as [m |] eqn:Em; [| split; [by apply after_refl | by constructor]].
  erewrite bind_ok by done. unfold bind at 1, clock_now, on_world, zoom, ask.
  pose proof (eq_refl : attempt_time s = (now (clock self) (world s)).1) as Et.
  destruct (now (clock self) (world s)) as [t w]. cbn [fst] in Et. subst t. set (s1 := set_world w s).
  assert (after reg s s1) as Ha1 by (eapply after_frame; [done | apply frame_world]).
  erewrite bind_ok by done. change (backoff s1) with (backoff s). case_test; tests.
  { split; [done |]. cbn [fail]. unfold duration_saturating_sub. rewrite Z.max_r by lia.
    by apply UnlockLimited; [rewrite Em | ..]. }
  destruct m as [secret | reason].
  2: { split; [done |]. by eapply UnlockUnavailable. }
  unfold bind at 1. pose proof (read_master_spec reg s1 secret attempt (af_inv _ _ _ Ha1) Em) as Hr.
  destruct (on_regions _ s1) as [[b | e | |] s2]; [| | done..].
  - destruct Hr as [Hf Hb]. apply (finish_unlock_spec reg s s2 attempt secret b); [| | | done..].
    + by eapply after_then_frame.
    + by rewrite (fr_lock _ _ Hf).
    + by rewrite (fr_backoff _ _ Hf).
  - destruct Hr as (Hf & -> & Hreg). split; [by eapply after_then_frame |].
    eapply UnlockRefused; [done.. | |]; [by rewrite (fr_lock _ _ Hf) | by rewrite (fr_backoff _ _ Hf)].
Qed.
End spec.
