(* ===== verification/VaultProps.v ===== *)
(** * The vault, end to end

    Sequences of operations against the abstract registry, the wiping of the
    scratch buffer, the lockout gates, the one-shot pipeline and the master
    unlock. *)

From S2P Require Import Prelude Errors Rust Rng RawKey Normalize Codex Fragment Standard Layouts.
From S2P Require Import Os Guarded Handle Events Config Lockout.
From S2P Require Import VaultState Vault VaultFrame VaultPipeline VaultRead VaultRegistry VaultSpec.

(** ** Programs over the vault *)

Inductive vault_op :=
| OpRegister (name : string) (key : RawKey.t)
| OpUnregister (h : KeyHandle)
| OpRotate (h : KeyHandle) (key : RawKey.t)
| OpWithKey (h : KeyHandle)
| OpFragment (key : RawKey.t)
| OpDefragment (fragments : Fragments)
| OpContains (h : KeyHandle)
| OpMetadata (h : KeyHandle)
| OpHandleFor (name : string)
| OpCount
| OpReport (name : string) (note : option string)
| OpAnomaly (name : string) (note : option string)
| OpKeyLocked (h : KeyHandle)
| OpClearKey (name : string)
| OpClear
| OpUnlock (attempt : list byte).

Inductive reply :=
| RHandle (h : KeyHandle) | RUnit | RBytes (bytes : list byte) | RBool (b : bool)
| RMeta (m : option KeyMetadata) | RFound (h : option KeyHandle) | RCount (n : Z)
| RFragments (f : Fragments) | RErr (e : Error.t).

(** A callback that copies the key out. *)
Definition copy_out {W} : callback W (list byte) := fun bytes s => (Some bytes, s).

Section programs.
Context {W : Type} `{Rng W} `{Os W} `{Blake3} `{StdTime W} `{PageRefs W} `{Threads W}.
Context (self : VaultInner W).

Definition perform (op : vault_op) : M (VaultState W) reply :=
  match op with
  | OpRegister name key => let! h := register self name key in ret (RHandle h)
  | OpUnregister h => do! unregister self h in ret RUnit
  | OpRotate h key => do! rotate self h key in ret RUnit
  | OpWithKey h => let! bytes := with_key self h copy_out in ret (RBytes bytes)
  | OpFragment key => let! f := vault_fragment self key in ret (RFragments f)
  | OpDefragment f => let! k := vault_defragment self f in ret (RBytes (RawKey.bytes k))
  | OpContains h => let! b := contains h in ret (RBool b)
  | OpMetadata h => let! m := metadata h in ret (RMeta m)
  | OpHandleFor name => let! h := handle_for_name name in ret (RFound h)
  | OpCount => let! n := key_count in ret (RCount n)
  | OpReport name note => do! vault_report_failure self name note in ret RUnit
  | OpAnomaly name note => do! vault_report_anomalous_access self name note in ret RUnit
  | OpKeyLocked h => let! b := is_key_locked_out self h in ret (RBool b)
  | OpClearKey name => let! b := vault_clear_key_lockout name in ret (RBool b)
  | OpClear => do! vault_clear_lockout in ret RUnit
  | OpUnlock attempt => do! unlock_with_master self attempt in ret RUnit
  end.

(** The caller looks at the [Result] and goes on. *)
Definition step_program (op : vault_op) : M (VaultState W) reply :=
  let! r := try_ (perform op) in
  ret (match r with inl a => a | inr e => RErr e end).

Definition run_program (ops : list vault_op) : M (VaultState W) (list reply) := map_m step_program ops.

(** ** The specification: a map from handles to named keys *)

(** The errors an operation may report, and when. *)
Definition error_allowed (op : vault_op) (e : Error.t) (reg : registry) : Prop :=
  match op with
  | OpRegister name _ => name_used name reg -> e = Error.LockedOut \/ e = duplicate name
  | OpUnregister h => e = Error.KeyNotFound /\ reg !! KeyHandle.id h = None
  | OpRotate h _ => reg !! KeyHandle.id h = None -> e = Error.LockedOut \/ e = Error.KeyNotFound
  | OpWithKey h =>
      match reg !! KeyHandle.id h with
      | None => e = Error.LockedOut \/ e = Error.KeyNotFound
      | Some _ => e = Error.LockedOut \/ (e = open_failed /\ page_protection (config self) = true)
      end
  | OpFragment _ | OpUnlock _ => True
  | OpDefragment f => e = Error.LockedOut \/ defragment (W := W) (fragmenter self) f = Err e
  | _ => False
  end.

Inductive registry_step (reg : registry) : vault_op -> reply -> registry -> Prop :=
| StepRegister name key h i :
    ~ name_used name reg -> reg !! KeyHandle.id h = None ->
    item_name i = name -> normalized self key = Some (item_key i) ->
    key_length (item_meta i) = RawKey.len key ->
    registry_step reg (OpRegister name key) (RHandle h) (<[KeyHandle.id h := i]> reg)
| StepUnregister h :
    is_Some (reg !! KeyHandle.id h) ->
    registry_step reg (OpUnregister h) RUnit (delete (KeyHandle.id h) reg)
| StepRotate h key i i' :
    reg !! KeyHandle.id h = Some i -> item_name i' = item_name i ->
    normalized self key = Some (item_key i') -> key_length (item_meta i') = RawKey.len key ->
    registry_step reg (OpRotate h key) RUnit (<[KeyHandle.id h := i']> reg)
| StepWithKey h i :
    reg !! KeyHandle.id h = Some i ->
    registry_step reg (OpWithKey h) (RBytes (RawKey.bytes (item_key i))) reg
| StepFragment key f k :
    normalized self key = Some k -> holds self f k ->
    registry_step reg (OpFragment key) (RFragments f) reg
| StepDefragment f enc k :
    defragment (W := W) (fragmenter self) f = Ok enc -> coded (codex self) enc k ->
    registry_step reg (OpDefragment f) (RBytes (RawKey.bytes k)) reg
| StepContains h :
    registry_step reg (OpContains h) (RBool (bool_decide (is_Some (reg !! KeyHandle.id h)))) reg
| StepMetadata h : registry_step reg (OpMetadata h) (RMeta (item_meta <$> reg !! KeyHandle.id h)) reg
| StepFound name h i :
    reg !! KeyHandle.id h = Some i -> item_name i = name ->
    registry_step reg (OpHandleFor name) (RFound (Some h)) reg
| StepNotFound name : ~ name_used name reg -> registry_step reg (OpHandleFor name) (RFound None) reg
| StepCount : registry_step reg OpCount (RCount (Z.of_nat (size reg))) reg
| StepReport name note : registry_step reg (OpReport name note) RUnit reg
| StepAnomaly name note : registry_step reg (OpAnomaly name note) RUnit reg
| StepKeyLocked h b : registry_step reg (OpKeyLocked h) (RBool b) reg
| StepClearKey name b : registry_step reg (OpClearKey name) (RBool b) reg
| StepClear : registry_step reg OpClear RUnit reg
| StepUnlock attempt : registry_step reg (OpUnlock attempt) RUnit reg
| StepError op e : error_allowed op e reg -> registry_step reg op (RErr e) reg.

Inductive registry_run : registry -> list vault_op -> list reply -> registry -> Prop :=
| run_nil reg : registry_run reg [] [] reg
| run_cons reg op r reg' ops rs reg'' :
    registry_step reg op r reg' -> registry_run reg' ops rs reg'' ->
    registry_run reg (op :: ops) (r :: rs) reg''.

(** The keys a program passes in are values a process can hold, and the
    fragments it passes to [defragment] are ones the strategy has an answer
    for: whether it returns on foreign fragments is its own affair. *)
Definition op_ok (op : vault_op) : Prop :=
  match op with
  | OpRegister _ key | OpRotate _ key | OpFragment key => RawKey.len key <= isize_max
  | OpDefragment f => returns (defragment (W := W) (fragmenter self) f)
  | _ => True
  end.
End programs.

(** ** Scratch *)

Section scratch.
Context {W : Type} `{Rng W} `{Os W} `{Blake3} `{StdTime W} `{PageRefs W} `{Threads W}.
Context (self : VaultInner W).

Lemma emit_audit_scratch name kind note (s : VaultState W) :
  scratch (snd (emit_audit self name kind note s)) = scratch s.
Proof.
  unfold emit_audit. case_test; [done |]. unfold clock_unix, on_world, zoom, ask, bind.
  by destruct (unix_time (clock self) (world s)).
Qed.

Lemma with_key_scratch {T} h (f : callback W T) (s : VaultState W) :
  respects_scratch f -> all_zero (buf (scratch s)) -> wiped s (snd (with_key self h f s)).
Proof.
  intros Hf Hz. rewrite with_key_eq. destruct (locked_out (lock s)); [done |].
  destruct (keys s !! KeyHandle.id h) as [e |]; [| done]. unfold bind at 1, name_locked, on_lock.
  destruct (key_locked (clock self) (entry_name e) (lock s) (world s)) as [[[] l] w]; [done |].
  set (s1 := set_world w (set_lock l s)). unfold bind at 1.
  pose proof (read_key_clean self (entry_fragments e) f s1 Hf Hz) as Hc.
  destruct (read_key self (entry_fragments e) f s1) as [[x | er | |] s2]; [| exact Hc..].
  unfold bind, read_event. destruct (is_no_op (audit self)); [exact Hc |].
  pose proof (emit_audit_scratch (entry_name e) Read EmptyString s2) as Hs.
  destruct (emit_audit self (entry_name e) Read EmptyString s2) as [[u | er | |] s3];
    cbn [snd ret] in *; unfold wiped; by rewrite Hs.
Qed.
End scratch.

(** ** Operations inside a callback *)

Definition scratch_stable {W A} (m : M (VaultState W) A) : Prop :=
  forall s, scratch (snd (m s)) = scratch s.

Section stable.
Context {W : Type}.

Lemma stable_bind {A B} (m : M (VaultState W) A) (k : A -> M (VaultState W) B) :
  scratch_stable m -> (forall a, scratch_stable (k a)) -> scratch_stable (bind m k).
Proof.
  intros Hm Hk s. specialize (Hm s). unfold bind.
  destruct (m s) as [[a | e | |] s']; cbn in *; [by rewrite Hk | done..].
Qed.
Lemma stable_ret {A} (a : A) : scratch_stable (W := W) (ret a).
Proof. done. Qed.
Lemma stable_fail {A} e : scratch_stable (W := W) (A := A) (fail e).
Proof. done. Qed.
Lemma stable_lift {A} (o : outcome A) : scratch_stable (W := W) (lift o).
Proof. done. Qed.
Lemma stable_gets {A} (f : VaultState W -> A) : scratch_stable (gets f).
Proof. done. Qed.
Lemma stable_ok_or {A} (o : option A) e : scratch_stable (W := W) (ok_or o e).
Proof. by destruct o. Qed.
Lemma stable_world {A} (m : M W A) : scratch_stable (on_world m).
Proof. intros s. unfold on_world, zoom. by destruct (m (world s)). Qed.
Lemma stable_regions {A} (m : M (Regions * W) A) : scratch_stable (on_regions m).
Proof. intros s. unfold on_regions, zoom. by destruct (m (regions s, world s)). Qed.
Lemma stable_lock {A} (f : LockState -> W -> A * LockState * W) : scratch_stable (on_lock f).
Proof. intros s. unfold on_lock. by destruct (f (lock s) (world s)) as [[a l] w]. Qed.
Lemma stable_next_id {A} (m : M Z A) : scratch_stable (W := W) (on_next_id m).
Proof. intros s. unfold on_next_id, zoom. by destruct (m (next_id s)). Qed.
Lemma stable_tell (f : W -> W) : scratch_stable (tell f).
Proof. done. Qed.
Lemma stable_modify (f : VaultState W -> VaultState W) :
  (forall s, scratch (f s) = scratch s) -> scratch_stable (modify f).
Proof. intros Hf s. apply Hf. Qed.
Lemma stable_map_m {A B} (f : A -> M (VaultState W) B) l :
  (forall a, scratch_stable (f a)) -> scratch_stable (map_m f l).
Proof.
  intros Hf. induction l as [| a l IH]; cbn [map_m]; [apply stable_ret |].
  apply stable_bind; [done |]. intros b. apply stable_bind; [done |]. intros bs. apply stable_ret.
Qed.
End stable.

#[export] Hint Resolve stable_ret stable_fail stable_lift stable_gets stable_ok_or stable_world
  stable_regions stable_lock stable_next_id stable_tell : kv.
#[export] Hint Extern 1 (scratch_stable (bind _ _)) => (apply stable_bind; [| intros ?]) : kv.
#[export] Hint Extern 1 (scratch_stable (modify _)) => (apply stable_modify; done) : kv.
#[export] Hint Extern 1 (scratch_stable (map_m _ _)) => (apply stable_map_m; intros ?) : kv.
#[export] Hint Extern 2 (scratch_stable (match ?x with _ => _ end)) => destruct x : kv.
#[export] Hint Extern 1 (scratch_stable (let _ := _ in _)) => cbn zeta : kv.

Section nested.
Context {W : Type} `{Rng W} `{Os W} `{Blake3} `{StdTime W} `{PageRefs W} `{Threads W}.
Context (self : VaultInner W).

Lemma emit_audit_stable name kind note : scratch_stable (emit_audit self name kind note).
Proof. intros s. apply emit_audit_scratch. Qed.
#[local] Hint Resolve emit_audit_stable : kv.

Lemma fragment_pipeline_stable key : scratch_stable (fragment_pipeline self key).
Proof. unfold fragment_pipeline, normalize_key, transform, codex_apply. auto 15 with kv. Qed.
#[local] Hint Resolve fragment_pipeline_stable : kv.

Lemma fragment_for_registry_stable key : scratch_stable (fragment_for_registry self key).
Proof. unfold fragment_for_registry. auto with kv. Qed.
#[local] Hint Resolve fragment_for_registry_stable : kv.

Lemma transform_stable key : scratch_stable (transform self key).
Proof. unfold transform, codex_apply. auto 12 with kv. Qed.
#[local] Hint Resolve transform_stable : kv.

(** A read while the scratch is in use panics and touches nothing. *)
Lemma nested_with_key {T} h (f : callback W T) (s : VaultState W) :
  borrowed (scratch s) = true -> scratch (snd (with_key self h f s)) = scratch s.
Proof.
  intros Hb. rewrite with_key_eq. destruct (locked_out (lock s)); [done |].
  destruct (keys s !! KeyHandle.id h) as [e |]; [| done].
  unfold bind at 1, name_locked, on_lock.
  destruct (key_locked (clock self) (entry_name e) (lock s) (world s)) as [[[] l] w]; [done |].
  unfold bind at 1, read_key. cbn [scratch set_world set_lock]. by rewrite Hb.
Qed.

Lemma unlock_stable attempt : scratch_stable (unlock_with_master self attempt).
Proof.
  unfold unlock_with_master, finish_unlock, clock_now, vault_clear_lockout, vault_handle_failure.
  apply stable_bind; [auto with kv |]. intros m. apply stable_bind; [auto with kv |]. intros t.
  apply stable_bind; [auto with kv |]. intros b. case_test; [auto with kv |].
  apply stable_bind; [destruct m; auto with kv |]. intros []; auto with kv.
Qed.
#[local] Hint Resolve unlock_stable : kv.

Lemma perform_stable op (s : VaultState W) :
  borrowed (scratch s) = true -> scratch (snd (perform self op s)) = scratch s.
Proof.
  intros Hb. destruct op; cbn [perform];
    try (match goal with |- scratch (snd (?m s)) = _ => enough (scratch_stable m) as Hm by apply Hm end;
      unfold register, register_prepare, register_commit, unregister, unregister_commit, rotate,
        rotate_prepare, rotate_commit, vault_fragment, vault_defragment, contains, metadata, handle_for_name, key_count,
        vault_report_failure, vault_report_anomalous_access, vault_handle_failure, is_key_locked_out, vault_clear_key_lockout,
        vault_clear_lockout, is_locked_out, name_locked, clock_unix; by auto 30 with kv).
  pose proof (nested_with_key h copy_out s Hb) as Hn. unfold bind.
  by destruct (with_key self h copy_out s) as [[x | e | |] s'].
Qed.

(** A callback that runs a vault program chosen from the key it is given. *)
Definition program_callback (ops : list byte -> list vault_op) : callback W (list reply) := fun bytes s =>
  match run_program self (ops bytes) s with
  | (Ok rs, s') => (Some rs, s')
  | (_, s') => (None, s')
  end.

Lemma run_program_stable ops (s : VaultState W) :
  borrowed (scratch s) = true -> scratch (snd (run_program self ops s)) = scratch s.
Proof.
  revert s. unfold run_program. induction ops as [| op ops IH]; intros s Hb; cbn [map_m]; [done |].
  pose proof (perform_stable op s Hb) as Hp.
  assert (scratch (snd (step_program self op s)) = scratch s) as Hs.
  { unfold step_program, try_, bind. by destruct (perform self op s) as [[r | e | |] s1]. }
  unfold bind at 1. destruct (step_program self op s) as [[r | e | |] s1]; [| done..].
  cbn [snd] in Hs. specialize (IH s1). rewrite Hs in IH. specialize (IH Hb). unfold bind.
  by destruct (map_m (step_program self) ops s1) as [[rs | e | |] s2].
Qed.
End nested.

(** ** Refinement *)

Section refinement.
Context {W : Type} `{Rng W} `{Os W} `{Blake3} `{StdTime W} `{PageRefs W} `{Threads W}.
Context (self : VaultInner W) (Hwf : vault_wf self).
Implicit Types reg : registry.
Implicit Types s : VaultState W.

(** One operation refines the specification and leaves the vault ready for
    the next. *)
Definition refines_step reg s (op : vault_op) : Prop :=
  exists r s' reg', step_program self op s = (Ok r, s') /\
    registry_step self reg op r reg' /\ after self reg' s s'.

Lemma refine_ok {A} reg reg' s s' op (m : M (VaultState W) A) (g : A -> reply) a :
  perform self op = bind m (fun a => ret (g a)) -> m s = (Ok a, s') ->
  registry_step self reg op (g a) reg' -> after self reg' s s' -> refines_step reg s op.
Proof.
  intros Hp Hm Hr Ha. exists (g a), s', reg'. split_and!; [| done..].
  unfold step_program, try_. rewrite Hp. unfold bind at 1. erewrite bind_ok by exact Hm. done.
Qed.

Lemma refine_err {A} reg s s' op (m : M (VaultState W) A) (g : A -> reply) e :
  perform self op = bind m (fun a => ret (g a)) -> m s = (Err e, s') ->
  error_allowed self op e reg -> after self reg s s' -> refines_step reg s op.
Proof.
  intros Hp Hm Hr Ha. exists (RErr e), s', reg. split_and!; [| by constructor | done].
  unfold step_program, try_, bind at 1. rewrite Hp. unfold bind. by rewrite Hm.
Qed.

Lemma register_refines reg s name key :
  vault_inv self reg s -> next_id s < u64_max -> RawKey.len key <= isize_max ->
  refines_step reg s (OpRegister name key).
Proof.
  intros Hinv Hn Hl. pose proof (register_spec self Hwf reg s name key Hinv Hn Hl) as Hs.
  destruct (register self name key s) as [[h | e | |] s'] eqn:E; [| | done..].
  - destruct Hs as (_ & Hu & Hf & k & t & Hk & Ha).
    eapply refine_ok; [done | exact E | | exact Ha]. by apply StepRegister.
  - destruct Hs as [Ha He]. eapply refine_err; [done | exact E | | done]. cbn. intros Hu.
    destruct (locked_out (lock s)); auto.
Qed.

Lemma rotate_refines reg s h key :
  vault_inv self reg s -> RawKey.len key <= isize_max -> refines_step reg s (OpRotate h key).
Proof.
  intros Hinv Hl. pose proof (rotate_spec self Hwf reg s h key Hinv Hl) as Hs.
  destruct (rotate self h key s) as [[u | e | |] s'] eqn:E; [| | done..].
  - destruct Hs as (i & k & t & Hi & _ & Hk & Ha).
    eapply (refine_ok _ _ _ _ _ (rotate self h key) (fun _ => RUnit)); [done | exact E | | exact Ha].
    by eapply StepRotate.
  - destruct Hs as (Ha & Hlo & Hnf & _).
    eapply (refine_err _ _ _ _ (rotate self h key) (fun _ => RUnit)); [done | exact E | | done].
    cbn. intros Hnone. destruct (locked_out (lock s)); auto.
Qed.

Lemma copy_out_respects : respects_scratch (copy_out (W := W)).
Proof. by intros bytes s. Qed.

Lemma with_key_refines reg s h :
  vault_inv self reg s -> borrowed (scratch s) = false -> refines_step reg s (OpWithKey h).
Proof.
  intros Hinv Hb. pose proof (with_key_spec self reg s h copy_out Hinv Hb) as Hs.
  pose proof (with_key_scratch self h copy_out s copy_out_respects (vi_scratch _ _ _ Hinv Hb)) as [Hwb Hwz].
  destruct (reg !! KeyHandle.id h) as [i |] eqn:Ei.
  - destruct Hs as [(e & s' & E & Ha & He) | (s1 & _ & Hi1 & Hn1 & Hb1 & E)].
    + eapply refine_err; [done | exact E | | done]. cbn. rewrite Ei.
      destruct (usable self s (item_name i)); auto.
    + set (s2 := set_borrowed false (zero_on_exit (RawKey.len (item_key i)) s1)).
      assert (exists s', deliver self i copy_out s1 = (Ok (RawKey.bytes (item_key i)), s') /\ frame s2 s') as (s' & E' & Hf).
      { unfold deliver, finally, call, copy_out. erewrite bind_ok by done. fold s2. unfold read_event.
        case_test; [by exists s2 |].
        pose proof (emit_audit_framed self [] (item_name i) Read EmptyString s2
          (vi_regions _ _ _ Hi1) (List.Forall_nil _)) as He.
        destruct (emit_audit _ _ _ _ s2) as [[[] | e | |] s3] eqn:E3; [| by destruct He | done..].
        exists s3. rewrite (bind_ok _ _ _ _ _ E3). by destruct He. }
      rewrite E' in E. rewrite E in Hwb, Hwz. cbn [snd] in Hwb, Hwz.
      eapply refine_ok; [done | exact E | by apply StepWithKey |].
      destruct Hf. split; [| cbn in *; lia | done].
      eapply vault_inv_step; [exact Hi1 | done | cbn in *; lia | done | | done].
      apply fr_ok, Hi1.
  - eapply refine_err; [done | exact Hs | | by apply after_refl]. cbn. rewrite Ei.
    destruct (locked_out (lock s)); auto.
Qed.

Lemma handle_for_refines reg s name : vault_inv self reg s -> refines_step reg s (OpHandleFor name).
Proof.
  intros Hinv. eapply refine_ok; [done | done | | by apply after_refl].
  destruct (head _) as [[id e] |] eqn:Eh; cbn [fmap option_fmap option_map].
  - apply head_Some_elem_of in Eh. apply list_elem_of_filter in Eh as [Hn%bool_decide_eq_true Hin].
    rewrite elem_of_map_to_list in Hin. pose proof (vault_inv_lookup self reg s id Hinv) as Hl.
    rewrite Hin in Hl. destruct Hl as (i & Hi & He). eapply StepFound; [exact Hi |].
    rewrite <- (eo_name _ _ _ _ He). exact Hn.
  - apply StepNotFound. intros (id & i & Hi & Hn). apply head_None in Eh.
    pose proof (vault_inv_lookup self reg s id Hinv) as Hl.
    destruct (keys s !! id) as [e |] eqn:Ek; [| congruence]. destruct Hl as (i' & Hi' & He).
    assert ((id, e) ∈ filter (fun p => bool_decide (entry_name p.2 = name) = true) (map_to_list (keys s))) as Hin.
    { apply list_elem_of_filter. split; [| by apply elem_of_map_to_list].
      apply bool_decide_eq_true. cbn. rewrite (eo_name _ _ _ _ He). congruence. }
    rewrite Eh in Hin. by apply not_elem_of_nil in Hin.
Qed.

Lemma same_size reg s : vault_inv self reg s -> size (keys s) = size reg.
Proof.
  intros Hinv. rewrite <- !(size_dom (D := gset Z)). f_equal. apply set_eq. intros id.
  rewrite !elem_of_dom. pose proof (vi_entries _ _ _ Hinv id) as Hf. destruct Hf; split; intros []; by eauto.
Qed.

Lemma defragment_refines reg s f :
  vault_inv self reg s -> returns (defragment (W := W) (fragmenter self) f) ->
  refines_step reg s (OpDefragment f).
Proof.
  intros Hinv Hr. pose proof (vault_defragment_after self Hwf reg s f Hinv) as Hs.
  destruct (vault_defragment self f s) as [[k | e | |] s'] eqn:E; [| | by destruct Hs..].
  - destruct Hs as (Ha & _ & enc & Hd & Hc). eapply refine_ok; [done | exact E | by eapply StepDefragment | done].
  - destruct Hs as [Ha He]. eapply refine_err; [done | exact E | | done]. cbn.
    destruct (locked_out (lock s)); auto.
Qed.

Lemma step_refines reg s op :
  vault_inv self reg s -> borrowed (scratch s) = false -> next_id s < u64_max -> op_ok self op ->
  refines_step reg s op.
Proof.
  intros Hinv Hb Hn Hop. destruct op as [name key | h | h key | h | key | f | h | h | name | | name note | name note | h | name | | attempt].
  - by apply register_refines.
  - pose proof (unregister_spec self reg s h Hinv) as Hs.
    destruct (unregister self h s) as [[u | e | |] s'] eqn:E; [| | done..].
    + eapply (refine_ok _ _ _ _ _ (unregister self h) (fun _ => RUnit)); [done | exact E | by apply StepUnregister, Hs | apply Hs].
    + destruct Hs as (-> & Hnone & ->).
      eapply (refine_err _ _ _ _ (unregister self h) (fun _ => RUnit)); [done | exact E | done | by apply after_refl].
  - by apply rotate_refines.
  - by apply with_key_refines.
  - pose proof (vault_fragment_after self Hwf reg s key Hinv Hop) as Hs.
    destruct (vault_fragment self key s) as [[f | e | |] s'] eqn:E; [| | done..].
    + destruct Hs as (Ha & _ & _ & k & Hk & _ & _ & Hh).
      eapply refine_ok; [done | exact E | by eapply StepFragment | exact Ha].
    + eapply refine_err; [done | exact E | done | apply Hs].
  - by apply defragment_refines.
  - eapply refine_ok; [done | done | | by apply after_refl].
    assert (bool_decide (is_Some (keys s !! KeyHandle.id h)) = bool_decide (is_Some (reg !! KeyHandle.id h))) as ->.
    { apply bool_decide_ext. pose proof (vi_entries _ _ _ Hinv (KeyHandle.id h)) as Hf.
      destruct Hf; split; intros []; by eauto. }
    constructor.
  - eapply refine_ok; [done | done | | by apply after_refl].
    assert (entry_metadata <$> keys s !! KeyHandle.id h = item_meta <$> reg !! KeyHandle.id h) as ->.
    { pose proof (vi_entries _ _ _ Hinv (KeyHandle.id h)) as Hf. destruct Hf as [e i He |]; [| done].
      cbn. by rewrite (eo_meta _ _ _ _ He). }
    constructor.
  - by apply handle_for_refines.
  - eapply refine_ok; [done | done | | by apply after_refl].
    rewrite (same_size reg s Hinv). constructor.
  - destruct (handle_failure_after self reg s name note true Hinv) as (s' & E & Ha).
    eapply (refine_ok _ _ _ _ _ (vault_report_failure self name note) (fun _ => RUnit)); [done | exact E | constructor | done].
  - eapply (refine_ok _ _ _ _ _ (vault_report_anomalous_access self name note) (fun _ => RUnit));
      [done | done | constructor |]. by apply (lock_step_after self reg s (lock s)).
  - destruct (is_key_locked_out_after self reg s h Hinv) as (b & s' & E & Ha).
    eapply refine_ok; [done | exact E | constructor | done].
  - destruct (clear_key_lockout_after self reg s name Hinv) as (b & s' & E & Ha).
    eapply refine_ok; [done | exact E | constructor | done].
  - destruct (clear_lockout_after self reg s Hinv) as (s' & E & Ha).
    eapply (refine_ok _ _ _ _ _ vault_clear_lockout (fun _ => RUnit)); [done | exact E | constructor | done].
  - pose proof (unlock_cases self reg s attempt Hinv) as Hu.
    destruct (unlock_with_master self attempt s) as [o s'] eqn:E. destruct Hu as [Ha Hc].
    destruct o as [u | e | |]; [| | by inversion Hc..].
    + eapply (refine_ok _ _ _ _ _ (unlock_with_master self attempt) (fun _ => RUnit)); [done | exact E | constructor | done].
    + eapply (refine_err _ _ _ _ (unlock_with_master self attempt) (fun _ => RUnit)); [done | exact E | done | done].
Qed.
End refinement.
