(* ===== verification/VaultDemo.v ===== *)
(** * A concrete vault

    A vault small enough to run inside the checker: the standard fragmenter
    with chunks of three to four bytes, a byte-complementing codex, page
    protection, thresholds of three (vault) and two (key), a master
    credential and a backoff, over a scripted world in which the OS grants
    everything.  The witnesses of the vault's theorems use it. *)

From S2P Require Import Prelude Errors Rust Rng RawKey Normalize Codex Fragment Standard Layouts.
From S2P Require Import Os Guarded Handle Events Config Lockout.
From S2P Require Import VaultState Vault VaultFrame VaultPipeline VaultRead VaultRegistry VaultSpec VaultProps.

(** ** The world *)

#[export] Instance demo_os : Os Tape.world := GrantingOs.os.
#[export] Instance demo_blake3 : Blake3 := ToyBlake3.blake3.
#[export] Instance demo_std : StdTime Tape.world :=
  {| instant_elapsed := Tape.tick; system_time := fun w => (Some 0, w) |}.
#[export] Instance demo_pages : PageRefs Tape.world :=
  {| heap_address := fun _ w => (8192, w); acquire_pages := fun _ _ w => (true, w);
     release_pages := fun _ _ w => w |}.
#[export] Instance demo_threads : Threads Tape.world := {| current_thread := fun _ => 1 |}.

(** ** The vault *)

Definition complement (b : byte) : byte := byte.of_Z (255 - byte.unsigned b).

Lemma complement_involutive b : complement (complement b) = b.
Proof. by destruct b; vm_compute. Qed.

Definition complement_codex : dyn_codex := codex_object {| f := fun b => Ok (complement b) |}.

Definition demo_vault_config : VaultConfig := {|
  key_normalization := false; keyed_normalization := false;
  max_failures_before_lockout := 3; failure_window := 60;
  key_lockout_threshold := 2; key_lockout_window := 50; key_lockout_duration := Some 100;
  master_backoff_base := 10; master_backoff_max := 35; page_protection := true
|}.

Definition demo_fragmenter : StandardFragmenter Tape.world := StandardFragmenter.with_chunk_range 3 4.

(** The stored verifier: a 32-byte key, then the keyed hash of the master. *)
Definition demo_master_key : list byte := replicate 32 Byte.x07.
Definition demo_master : list byte := [Byte.x6d; Byte.x61].
Definition demo_verifier : SecretBytes :=
  {| secret_fragments := from_parts
       [demo_master_key ++ blake3_keyed_into demo_master_key demo_master 32] [] 64 |}.

Definition demo_vault : VaultInner Tape.world := {|
  config := demo_vault_config;
  fragmenter := FragmenterStandard demo_fragmenter;
  decoy_ignored := false;
  normalizer := NormalizerOff;
  codex := Some complement_codex;
  monitor := Tape.monitor;
  clock := ClockCustom Tape.clock;
  master := Some (MasterReady demo_verifier);
  audit := Tape.sink
|}.

Definition demo_state (w : Tape.world) : VaultState Tape.world := {|
  keys := ∅; lock := lock_init; backoff := backoff_default; next_id := 1;
  scratch := scratch_init; regions := regions_init; world := w
|}.

Lemma demo_codex_round_trips : RoundTrips complement_codex.
Proof.
  intros b. exists (complement b). split; [done |]. cbn. by rewrite complement_involutive.
Defined.

Lemma fragmenter_standard_lawful {W} `{Rng W} (s : StandardFragmenter W) :
  LawfulStrategy (W := W) s -> LawfulStrategy (W := W) (FragmenterStandard s).
Proof. intros Hs key. exact (Hs key). Defined.

Lemma fragmenter_standard_bounded {W} `{Rng W} (s : StandardFragmenter W) n :
  BoundedLayout (W := W) s n -> BoundedLayout (W := W) (FragmenterStandard s) n.
Proof. intros Hs key. exact (Hs key). Defined.

Lemma bounded_layout_mono {W F} `{FragmentStrategy W F} (self : F) n m :
  n <= m -> BoundedLayout (W := W) self n -> BoundedLayout (W := W) self m.
Proof. intros Hle Hb key. eapply safe_mono; [apply Hb | cbn; lia | done]. Defined.

Lemma demo_vault_wf : vault_wf demo_vault.
Proof.
  assert (standard_valid demo_fragmenter) as Hv by (by split).
  split.
  - split; cbn; unfold u32_max, duration_max, u64_max, nanos_per_sec; try done; try lia.
    intros d [= <-]. done.
  - by apply fragmenter_standard_lawful, standard_lawful.
  - apply fragmenter_standard_bounded, (bounded_layout_mono _ layout_bound); [done |].
    by apply standard_bounded.
  - intros c [= <-]. apply demo_codex_round_trips.
Defined.

Lemma demo_state_inv w : vault_inv demo_vault ∅ (demo_state w).
Proof.
  split; cbn; try done.
  - intros id. rewrite !lookup_empty. constructor.
  - intros id []. by rewrite lookup_empty in H.
  - by repeat constructor.
  - intros _. constructor.
Defined.

(** Words for the generator, enough to fragment a six- or seven-byte key. *)
Definition demo_answers : Script.world := [Script.word 1; Script.word 0; Script.word 1; Script.word 0].

Definition demo_key1 : RawKey.t := RawKey.new [Byte.x01; Byte.x02; Byte.x03; Byte.x04; Byte.x05; Byte.x06].
Definition demo_key2 : RawKey.t := RawKey.new [Byte.x61; Byte.x62; Byte.x63; Byte.x64; Byte.x65].

(** Where the programs below start. *)
Definition demo_start : VaultState Tape.world := demo_state (Tape.start 100 [] demo_answers).

(** The fragments of a one-shot [fragment]. *)
Definition demo_fragments : Fragments :=
  match fst (vault_fragment demo_vault demo_key1 demo_start) with
  | Ok f => f
  | _ => from_chunks [] [] 0
  end.

Definition demo_program : list vault_op :=
  [OpRegister "db" demo_key1; OpRegister "db" demo_key2; OpWithKey {| handle_id := 1 |};
   OpRotate {| handle_id := 1 |} demo_key2; OpWithKey {| handle_id := 1 |};
   OpReport "db" None; OpReport "db" None; OpWithKey {| handle_id := 1 |};
   OpUnlock [Byte.x00]; OpUnlock demo_master; OpWithKey {| handle_id := 1 |};
   OpUnregister {| handle_id := 1 |}; OpWithKey {| handle_id := 1 |}; OpCount;
   OpAnomaly "db" None; OpDefragment demo_fragments; OpClear; OpDefragment demo_fragments;
   OpDefragment (from_chunks [] [] 1)].
