(* ===== verification/VaultTheorems.v ===== *)
(** * Properties of the vault

    Each theorem is about every vault built from lawful parts, in every state
    that meets the registry invariant; the witnesses run the concrete vault of
    [VaultDemo]. *)

From S2P Require Import Prelude Errors Rust Rng RawKey Normalize Codex Fragment Standard Layouts.
From S2P Require Import Os Guarded Handle Events Config Lockout.
From S2P Require Import VaultState Vault VaultFrame VaultPipeline VaultRead VaultRegistry VaultSpec VaultProps.
From S2P Require Import VaultDemo.

Section theorems.
Context {W : Type} `{Rng W} `{Os W} `{Blake3} `{StdTime W} `{PageRefs W} `{Threads W}.
Implicit Types reg : registry.
Implicit Types s : VaultState W.

(** C1: Refinement, end to end.  Take a sequence of calls, one after the
    other, of [register], [unregister], [rotate], [with_key] with a callback
    that copies the key out, [fragment], [defragment], [contains],
    [metadata], [handle_for_name], [key_count], [report_failure],
    [report_anomalous_access], [is_key_locked_out], [clear_key_lockout],
    [clear_lockout] and [unlock_with_master], in which every key passed in is
    at most [isize::MAX] bytes long and every argument of [defragment] is one
    the configured strategy returns on (the standard one can panic on a
    layout of total length above [isize::MAX]).  Over any lawful strategy and
    codex, with or without normalization and page protection, and whatever
    the generator, the OS, the clock and the observers do, it runs to
    completion without a panic and answers as a plain map from handles to
    named keys would: [with_key] gives back exactly the normalized key last
    stored under its handle, [fragment] gives fragments of the normalized
    key, [defragment] what the strategy reassembles, put through the codex,
    names stay unique, handles are never reused, and an operation that
    reports an error has left the registry as it was.  The scratch holds no
    key material afterwards.  Other callbacks, nested calls among them, are
    the next properties' subject: a nested [with_key] panics. *)
Theorem vault_refines_registry (self : VaultInner W) (ops : list vault_op) reg s :
  vault_wf self -> vault_inv self reg s -> borrowed (scratch s) = false ->
  next_id s + zlen ops <= u64_max -> Forall (op_ok self) ops ->
  exists rs s' reg', run_program self ops s = (Ok rs, s') /\ registry_run self reg ops rs reg' /\
    vault_inv self reg' s' /\ scratch_clean s'.
Proof.
  intros Hwf Hinv Hb Hn Hok. revert reg s Hinv Hb Hn.
  induction Hok as [| op ops Hop _ IH]; intros reg s Hinv Hb Hn.
  - exists [], s, reg. split_and!; [done | constructor | done |].
    split; [done | by apply (vi_scratch _ _ _ Hinv)].
  - rewrite zlen_cons in Hn. pose proof (zlen_nonneg ops).
    destruct (step_refines self Hwf reg s op Hinv Hb ltac:(lia) Hop) as (r & s1 & reg1 & E & Hs & [Hi1 Hn1 Hb1]).
    destruct (IH reg1 s1 Hi1) as (rs & s2 & reg2 & E2 & Hr & Hi2 & Hc); [by rewrite Hb1 | lia |].
    exists (r :: rs), s2, reg2. split_and!; [| by econstructor | done | done].
    unfold run_program. cbn [map_m]. rewrite (bind_ok _ _ _ _ _ E). by rewrite (bind_ok _ _ _ _ _ E2).
Qed.

(** C6: What [with_key] promises its callback, whatever the callback does to the
    vault meanwhile.  An unknown handle and a lockout are refused with the
    documented errors.  Otherwise, unless the OS refuses to open the pages,
    the callback runs once, on exactly the stored key, in a state where the
    registry is intact; [with_key] returns what it returned, or panics if it
    panicked. *)
Theorem with_key_contract {T} (self : VaultInner W) reg s h (f : callback W T) :
  vault_inv self reg s -> borrowed (scratch s) = false ->
  match reg !! KeyHandle.id h with
  | None => fst (with_key self h f s) =
      Err (if locked_out (lock s) then Error.LockedOut else Error.KeyNotFound)
  | Some i =>
      if usable self s (item_name i) then
        (fst (with_key self h f s) = Err open_failed /\ page_protection (config self) = true) \/
        exists s1, vault_inv self reg s1 /\
          fst (with_key self h f s) =
            match fst (f (RawKey.bytes (item_key i)) s1) with Some x => Ok x | None => Panic end
      else fst (with_key self h f s) = Err Error.LockedOut
  end.
Proof.
  intros Hinv Hb. pose proof (with_key_spec self reg s h f Hinv Hb) as Hs.
  destruct (reg !! KeyHandle.id h) as [i |]; [| by rewrite Hs].
  destruct Hs as [(e & s' & -> & _ & He) | (s1 & -> & Hi1 & _ & Hb1 & ->)].
  - destruct (usable self s (item_name i)); [left | by rewrite He]. by destruct He as [-> ->].
  - right. exists s1. split; [done |]. unfold deliver, finally, call, bind.
    destruct (f (RawKey.bytes (item_key i)) s1) as [[x |] s2]; [| done]. unfold read_event. cbn [fst].
    destruct (is_no_op (audit self)); [done |]. unfold emit_audit. case_test; [done |].
    unfold clock_unix, on_world, zoom, ask, bind. by destruct (unix_time (clock self) _).
Qed.

(** C7: Wiping.  Whatever the vault is made of (strategies that fail half way,
    codices that panic, memory the OS will not open), whatever is stored, and
    whether the call succeeds, fails or panics: after [with_key] the scratch
    buffer holds only zeros, if it did before, and is borrowed exactly if it
    was before. *)
Theorem scratch_always_wiped {T} (self : VaultInner W) s h (f : callback W T) :
  respects_scratch f -> all_zero (buf (scratch s)) ->
  borrowed (scratch (snd (with_key self h f s))) = borrowed (scratch s) /\
  all_zero (buf (scratch (snd (with_key self h f s)))).
Proof. intros Hf Hz. exact (with_key_scratch self h f s Hf Hz). Qed.

(** Lockout gates.  While the vault is locked out, every operation that
    creates or reveals key material fails with [LockedOut] and changes
    nothing, whatever its arguments. *)
Theorem locked_out_gates {T} (self : VaultInner W) s name key h (f : callback W T) frags :
  locked_out (lock s) = true ->
  register self name key s = (Err Error.LockedOut, s) /\
  rotate self h key s = (Err Error.LockedOut, s) /\
  with_key self h f s = (Err Error.LockedOut, s) /\
  vault_fragment self key s = (Err Error.LockedOut, s) /\
  vault_defragment self frags s = (Err Error.LockedOut, s).
Proof.
  intros Hl. unfold register, register_prepare, rotate, rotate_prepare, with_key, vault_fragment,
    vault_defragment, is_locked_out, bind. cbn [gets]. by rewrite Hl.
Qed.

(** C13: A per-key lockout refuses reading and rotating that key and nothing
    else: the registry keeps it, and [unregister] still removes it. *)
Theorem locked_key_refused {T} (self : VaultInner W) reg s h i key (f : callback W T) :
  vault_wf self -> vault_inv self reg s -> borrowed (scratch s) = false -> RawKey.len key <= isize_max ->
  reg !! KeyHandle.id h = Some i -> usable self s (item_name i) = false ->
  fst (with_key self h f s) = Err Error.LockedOut /\ vault_inv self reg (snd (with_key self h f s)) /\
  fst (rotate self h key s) = Err Error.LockedOut /\ vault_inv self reg (snd (rotate self h key s)) /\
  fst (unregister self h s) = Ok tt /\
  vault_inv self (delete (KeyHandle.id h) reg) (snd (unregister self h s)).
Proof.
  intros Hwf Hinv Hb Hl Hi Hu. pose proof (with_key_spec self reg s h f Hinv Hb) as Hs.
  rewrite Hi, Hu in Hs. destruct Hs as [(e & s' & -> & Ha & ->) | (s1 & Hu' & _)]; [| done].
  pose proof (rotate_spec self Hwf reg s h key Hinv Hl) as Hr.
  pose proof (unregister_spec self reg s h Hinv) as Hun.
  destruct (rotate self h key s) as [[u | e | |] s2]; [| | done..].
  { destruct Hr as (j & k & t & Hj & Hu' & _). congruence. }
  destruct Hr as (Ha2 & _ & _ & He). rewrite (He i Hi Hu).
  destruct (unregister self h s) as [[[] | e' | |] s3]; [| destruct Hun as (_ & Hn & _); congruence | done..].
  destruct Hun as [_ Ha3]. cbn [fst snd]. split_and!; first [done | apply Ha | apply Ha2 | apply Ha3].
Qed.
(** ** One-shot use *)

Lemma transform_back (self : VaultInner W) k enc s :
  (forall c, codex self = Some c -> SelfInverse c) -> coded (codex self) k enc ->
  transform self enc s = (Ok k, s).
Proof.
  intros Hsi Hc. unfold transform. destruct (codex self) as [c |]; [| by cbn in Hc; subst].
  specialize (Hsi c eq_refl). destruct k as [new], enc as [old]. cbn [coded RawKey.bytes] in Hc.
  unfold codex_apply, RawKey.as_bytes. cbn [RawKey.bytes].
  enough (map_m (fun b => lift (encode c b)) old s = (Ok new, s)) as E by (by erewrite bind_ok).
  induction Hc as [| b e new old [_ Hd] _ IH]; [done |].
  cbn [map_m]. erewrite bind_ok by (unfold lift; by rewrite (Hsi e), Hd).
  by rewrite (bind_ok _ _ _ _ _ IH).
Qed.

(** C8: One-shot round trip.  With a codex that is its own inverse (or none),
    [defragment] after [fragment] gives the normalized key back; neither
    panics. *)
Theorem one_shot_round_trip (self : VaultInner W) reg s key :
  vault_wf self -> vault_inv self reg s -> RawKey.len key <= isize_max ->
  (forall c, codex self = Some c -> SelfInverse c) ->
  match vault_fragment self key s with
  | (Ok frags, s') => exists k, normalized self key = Some k /\ fst (vault_defragment self frags s') = Ok k
  | (Err e, s') => locked_out (lock s) = true -> e = Error.LockedOut
  | _ => False
  end.
Proof.
  intros Hwf Hinv Hl Hsi. pose proof (vault_fragment_after self Hwf reg s key Hinv Hl) as Hf.
  destruct (vault_fragment self key s) as [[frags | e | |] s']; [| by destruct Hf | done..].
  destruct Hf as (Ha & Hfr & Hlo & k & Hk & _ & _ & (_ & enc & Hc & _ & Hd & _)).
  exists k. split; [done |]. unfold vault_defragment, is_locked_out. unfold bind at 1. cbn [gets].
  rewrite (fr_lock _ _ Hfr), Hlo. erewrite bind_ok by (unfold lift; by rewrite Hd).
  rewrite (bind_ok _ _ _ _ _ (transform_back self k enc s' Hsi Hc)).
  destruct (emit_audit_after self reg s' s' EmptyString OneShotDefragment EmptyString) as (s2 & E & _);
    [apply after_refl, Ha |].
  by rewrite (bind_ok _ _ _ _ _ E).
Qed.

(** ** Master unlock *)

(** A wrong credential moves neither the per-key locks nor an existing
    vault-wide lockout. *)
Lemma master_failure_locks (self : VaultInner W) l (w : W) note :
  let l' := (handle_failure (config self) (monitor self) (clock self) MASTER_NAME note false l w).1 in
  key_locks l' = key_locks l /\ (locked_out l = true -> locked_out l' = true).
Proof.
  unfold handle_failure, record_failure. destruct (now (clock self) w) as [t w1].
  destruct (record_entries _ _ _ _) as [counts entries]. unfold vault_threshold, key_threshold_step.
  cbn [Z.ltb Z.compare andb]. by case_test.
Qed.

(** C10: The master unlock.  It succeeds only if a verifier is set up, the backoff
    has passed and the credential matches; then every lockout, every recorded
    failure and the backoff are gone.  A failure clears nothing and locks no single key; an attempt
    before the backoff has passed is refused unseen and does not count; the
    earliest time of the next attempt never moves back. *)
Theorem unlock_contract (self : VaultInner W) reg s attempt :
  vault_wf self -> vault_inv self reg s ->
  next_allowed (backoff s) <= duration_max -> 
  match unlock_with_master self attempt s with
  | (Ok _, s') => exists secret, master self = Some (MasterReady secret) /\
      next_allowed (backoff s) <= attempt_time self s /\
      verify_master attempt (secret_bytes secret) = true /\
      locked_out (lock s') = false /\ key_locks (lock s') = ∅ /\ failure_tracker (lock s') = ∅ /\
      backoff s' = backoff_default /\ vault_inv self reg s'
  | (Err e, s') => vault_inv self reg s' /\
      key_locks (lock s') = key_locks (lock s) /\
      (locked_out (lock s) = true -> locked_out (lock s') = true) /\
      next_allowed (backoff s) <= next_allowed (backoff s') /\
      (is_Some (master self) -> attempt_time self s < next_allowed (backoff s) ->
         lock s' = lock s /\ backoff s' = backoff s /\
         e = Error.RateLimited (next_allowed (backoff s) - attempt_time self s))
  | _ => False
  end.
Proof.
  intros Hwf Hinv Hmax. pose proof (unlock_cases self reg s attempt Hinv) as Hu.
  destruct (unlock_with_master self attempt s) as [o s']. destruct Hu as [[Hi _ _] Hc].
  destruct Hc as [Em -> | Hm Ht Hl Hb | r Em Ht Hl Hb | secret Em Ht _ Hl Hb | secret Em Ht Hv Hl Hb
    | secret w Em Ht Hv Hl Hb].
  - rewrite Em. split_and!; [done.. | lia | by intros []].
  - by rewrite Hl, Hb.
  - rewrite Hl, Hb. split_and!; [done.. | lia].
  - rewrite Hl, Hb. split_and!; [done.. | lia].
  - exists secret. rewrite Hl. by split_and!.
  - rewrite Hl, Hb. pose proof (master_failure_locks self (lock s) w (Some "invalid master credential")) as [Hk Hlo].
    split_and!; [done.. | | lia]. cbn. pose proof (backoff_delay_nonneg (config self) (u32_saturating_add (failures (backoff s)) 1) (vw_config _ Hwf)).
    unfold duration_saturating_add. lia.
Qed.
(** ** Inside a callback *)

(** Callbacks that use the vault.  Any program of vault operations run inside
    a [with_key] callback leaves the borrowed scratch alone, so the wiping
    guarantee covers it; and a nested [with_key] that would reach the key
    panics instead, because the scratch is in use. *)
Theorem nested_operations (self : VaultInner W) reg s h i {T} (f : callback W T) ops :
  respects_scratch (program_callback self ops) /\
  (vault_inv self reg s -> borrowed (scratch s) = true -> reg !! KeyHandle.id h = Some i ->
   usable self s (item_name i) = true -> fst (with_key self h f s) = Panic).
Proof.
  split.
  - intros bytes s0 Hb. unfold program_callback.
    pose proof (run_program_stable self (ops bytes) s0 Hb) as Hs.
    by destruct (run_program self (ops bytes) s0) as [[rs | e | |] s'].
  - intros Hinv Hb Hi Hu. rewrite with_key_eq. unfold usable in Hu.
    apply andb_true_iff in Hu as [Hlo%negb_true_iff Hkl%negb_true_iff]. rewrite Hlo.
    pose proof (vault_inv_lookup self reg s (KeyHandle.id h) Hinv) as Hl.
    destruct (keys s !! KeyHandle.id h) as [e |]; [| congruence]. destruct Hl as (i' & Hi' & He).
    rewrite (eo_name _ _ _ _ He). simplify_eq. unfold bind at 1, name_locked, on_lock.
    destruct (key_locked (clock self) (item_name i) (lock s) (world s)) as [[b l] w]. cbn in Hkl. subst b.
    unfold bind at 1, read_key. cbn [scratch set_world set_lock]. by rewrite Hb.
Qed.
End theorems.

(** C31: The backoff.  For any configuration and any count of consecutive
    failures, the delay is [base * 2^(failures - 1)] up to the configured
    maximum, with the doubling stopped after 31 steps and never beyond what a
    [Duration] holds; it never decreases as failures accumulate, and a zero
    base turns it off. *)
Theorem backoff_delay_spec config failures :
  config_wf config -> 1 <= failures <= u32_max ->
  backoff_delay config failures =
    (if master_backoff_base config =? 0 then 0
     else Z.min (master_backoff_max config) (master_backoff_base config * 2 ^ Z.min (failures - 1) 31)) /\
  backoff_delay config failures <= backoff_delay config (u32_saturating_add failures 1) /\
  0 <= backoff_delay config failures <= master_backoff_max config.
Proof.
  intros Hc Hf. pose proof (backoff_delay_nonneg config failures Hc).
  unfold u32_saturating_add. rewrite !backoff_delay_eq in * by (done || lia). split; [done |].
  destruct Hc. case_test; tests; [split; lia |].
  assert (2 ^ Z.min (failures - 1) 31 <= 2 ^ Z.min (Z.min u32_max (failures + 1) - 1) 31)
    by (apply Z.pow_le_mono_r; lia).
  split; [nia | lia].
Qed.

(** ** Witnesses *)

Lemma vault_refines_registry_witness :
  fst (run_program demo_vault demo_program demo_start) = Ok
    [RHandle {| handle_id := 1 |}; RErr (duplicate "db"); RBytes (RawKey.bytes demo_key1);
     RUnit; RBytes (RawKey.bytes demo_key2); RUnit; RUnit; RErr Error.LockedOut; RErr master_mismatch;
     RErr (Error.RateLimited 10); RErr Error.LockedOut; RUnit; RErr Error.KeyNotFound; RCount 0;
     RUnit; RBytes (RawKey.bytes demo_key1); RUnit; RBytes (RawKey.bytes demo_key1);
     RErr (Error.Defragment "reassembled length does not match recorded total")] /\
  exists rs s' reg', run_program demo_vault demo_program demo_start = (Ok rs, s') /\
    registry_run demo_vault ∅ demo_program rs reg' /\ vault_inv demo_vault reg' s' /\ scratch_clean s'.
Proof.
  split; [vm_compute; reflexivity |].
  apply (vault_refines_registry demo_vault demo_program ∅ demo_start).
  - apply demo_vault_wf.
  - apply demo_state_inv.
  - reflexivity.
  - vm_compute. discriminate.
  - unfold demo_program. repeat (apply List.Forall_cons; [vm_compute; exact I || discriminate |]).
    constructor.
Defined.

(** The vault after [register "db"], and after two failures reported for it. *)
Definition demo_stored : VaultState Tape.world := snd (register demo_vault "db" demo_key1 demo_start).
Definition demo_handle : KeyHandle := {| handle_id := 1 |}.
Definition demo_item : item :=
  {| item_name := "db"; item_key := demo_key1; item_meta := KeyMetadata.new 0 6 None |}.
Definition demo_locked : VaultState Tape.world :=
  snd (vault_report_failure demo_vault "db" None (snd (vault_report_failure demo_vault "db" None demo_stored))).

Lemma demo_stored_inv : vault_inv demo_vault {[1 := demo_item]} demo_stored.
Proof.
  pose proof (register_spec demo_vault demo_vault_wf ∅ demo_start "db" demo_key1
    (demo_state_inv _) ltac:(done) ltac:(done)) as Hs.
  unfold demo_stored. assert (fst (register demo_vault "db" demo_key1 demo_start) = Ok demo_handle) as E
    by (vm_compute; reflexivity).
  destruct (register demo_vault "db" demo_key1 demo_start) as [o s'] eqn:Er. cbn in E. subst o.
  destruct Hs as (_ & _ & _ & k & t & [= <-] & [Hi _ _]).
  assert (entry_metadata <$> keys s' !! 1 = Some (KeyMetadata.new 0 6 None)) as Hm.
  { replace s' with (snd (register demo_vault "db" demo_key1 demo_start)) by (by rewrite Er).
    vm_compute. reflexivity. }
  pose proof (vi_entries _ _ _ Hi 1) as He. cbn [KeyHandle.id handle_id demo_handle] in Hi, He.
  rewrite lookup_insert_eq in He. destruct (keys s' !! 1) as [e |]; [| inversion He].
  inversion He as [? ? Hok |]; subst. pose proof (eo_meta _ _ _ _ Hok) as Hmeta. cbn in Hm, Hmeta.
  injection Hm as Hm. rewrite Hm in Hmeta. injection Hmeta as <-. exact Hi.
Qed.

Lemma demo_locked_inv : vault_inv demo_vault {[1 := demo_item]} demo_locked.
Proof.
  destruct (handle_failure_after demo_vault _ _ "db" None true demo_stored_inv) as (s1 & E1 & Ha1).
  destruct (handle_failure_after demo_vault _ _ "db" None true (af_inv _ _ _ _ Ha1)) as (s2 & E2 & Ha2).
  unfold demo_locked, vault_report_failure. rewrite E1. cbn [snd]. rewrite E2. apply Ha2.
Qed.

(** A scratch in use does not disturb the invariant. *)
Lemma borrowed_inv {W} `{Rng W} `{Blake3} (self : VaultInner W) reg (s : VaultState W) :
  vault_inv self reg s -> vault_inv self reg (set_borrowed true s).
Proof. intros []. by split. Qed.

(** A callback that reads the key and panics. *)
Definition crash : callback Tape.world unit := fun _ s => (None, s).

Lemma with_key_contract_witness :
  fst (with_key demo_vault demo_handle copy_out demo_stored) = Ok (RawKey.bytes demo_key1) /\
  (usable demo_vault demo_stored "db" = true ->
   (fst (with_key demo_vault demo_handle copy_out demo_stored) = Err open_failed /\
      page_protection (config demo_vault) = true) \/
   exists s1, vault_inv demo_vault {[1 := demo_item]} s1 /\
     fst (with_key demo_vault demo_handle copy_out demo_stored) =
       match fst (copy_out (RawKey.bytes demo_key1) s1) with Some x => Ok x | None => Panic end).
Proof.
  split; [vm_compute; reflexivity |]. intros Hu.
  pose proof (with_key_contract demo_vault _ demo_stored demo_handle copy_out demo_stored_inv
    ltac:(vm_compute; reflexivity)) as Hc.
  cbn [KeyHandle.id handle_id demo_handle] in Hc. rewrite lookup_singleton_eq in Hc.
  change (item_name demo_item) with "db" in Hc. rewrite Hu in Hc. exact Hc.
Defined.

Lemma scratch_always_wiped_witness :
  fst (with_key demo_vault demo_handle crash demo_stored) = Panic /\
  borrowed (scratch (snd (with_key demo_vault demo_handle crash demo_stored))) = borrowed (scratch demo_stored) /\
  all_zero (buf (scratch (snd (with_key demo_vault demo_handle crash demo_stored)))).
Proof.
  split; [vm_compute; reflexivity |].
  apply (scratch_always_wiped demo_vault demo_stored demo_handle crash).
  - by intros bytes s.
  - vm_compute. constructor.
Defined.

Lemma locked_out_gates_witness :
  let s := set_lock (with_locked_out true lock_init) demo_stored in
  locked_out (lock s) = true /\
  register demo_vault "k" demo_key1 s = (Err Error.LockedOut, s) /\
  rotate demo_vault demo_handle demo_key1 s = (Err Error.LockedOut, s) /\
  with_key demo_vault demo_handle crash s = (Err Error.LockedOut, s) /\
  vault_fragment demo_vault demo_key1 s = (Err Error.LockedOut, s) /\
  vault_defragment demo_vault (from_chunks [] [] 0) s = (Err Error.LockedOut, s).
Proof.
  cbn zeta. split; [reflexivity |].
  apply (locked_out_gates demo_vault _ "k" demo_key1 demo_handle crash (from_chunks [] [] 0)). reflexivity.
Defined.

Lemma locked_key_refused_witness :
  usable demo_vault demo_locked "db" = false /\
  fst (with_key demo_vault demo_handle crash demo_locked) = Err Error.LockedOut /\
  vault_inv demo_vault {[1 := demo_item]} (snd (with_key demo_vault demo_handle crash demo_locked)) /\
  fst (rotate demo_vault demo_handle demo_key2 demo_locked) = Err Error.LockedOut /\
  vault_inv demo_vault {[1 := demo_item]} (snd (rotate demo_vault demo_handle demo_key2 demo_locked)) /\
  fst (unregister demo_vault demo_handle demo_locked) = Ok tt /\
  vault_inv demo_vault (delete 1 {[1 := demo_item]}) (snd (unregister demo_vault demo_handle demo_locked)).
Proof.
  split; [vm_compute; reflexivity |].
  apply (locked_key_refused demo_vault {[1 := demo_item]} demo_locked demo_handle demo_item demo_key2 crash).
  - apply demo_vault_wf.
  - apply demo_locked_inv.
  - vm_compute. reflexivity.
  - vm_compute. discriminate.
  - apply lookup_singleton_eq.
  - vm_compute. reflexivity.
Defined.

Lemma nested_operations_witness :
  respects_scratch (program_callback demo_vault (fun _ => [OpCount])) /\
  fst (with_key demo_vault demo_handle
        (program_callback demo_vault (fun _ => [OpWithKey demo_handle])) demo_stored) = Panic /\
  fst (with_key demo_vault demo_handle crash (set_borrowed true demo_stored)) = Panic.
Proof.
  split; [| split].
  - apply (nested_operations demo_vault ∅ demo_stored demo_handle demo_item crash (fun _ => [OpCount])).
  - vm_compute. reflexivity.
  - apply (nested_operations demo_vault {[1 := demo_item]} (set_borrowed true demo_stored) demo_handle
      demo_item crash (fun _ => [])).
    + apply borrowed_inv, demo_stored_inv.
    + reflexivity.
    + apply lookup_singleton_eq.
    + vm_compute. reflexivity.
Defined.

Lemma one_shot_round_trip_witness :
  is_ok (fst (vault_fragment demo_vault demo_key1 demo_start)) = true /\
  match vault_fragment demo_vault demo_key1 demo_start with
  | (Ok frags, s') => exists k, normalized demo_vault demo_key1 = Some k /\
      fst (vault_defragment demo_vault frags s') = Ok k
  | (Err e, s') => locked_out (lock demo_start) = true -> e = Error.LockedOut
  | _ => False
  end.
Proof.
  split; [vm_compute; reflexivity |].
  apply (one_shot_round_trip demo_vault ∅ demo_start demo_key1).
  - apply demo_vault_wf.
  - apply demo_state_inv.
  - vm_compute. discriminate.
  - intros c [= <-] b. reflexivity.
Defined.

(** ** A finding *)

(** A codex that decodes what it encodes but is not its own inverse. *)
Definition shift_codex : dyn_codex := {|
  dyn_encode := fun b => Ok (byte.of_Z (byte.unsigned b + 1));
  dyn_decode := fun b => Ok (byte.of_Z (byte.unsigned b - 1))
|}.

Definition shift_vault : VaultInner Tape.world := {|
  config := demo_vault_config; fragmenter := FragmenterStandard demo_fragmenter; decoy_ignored := false;
  normalizer := NormalizerOff; codex := Some shift_codex; monitor := Tape.monitor;
  clock := ClockCustom Tape.clock; master := None; audit := Tape.sink
|}.

(** [defragment] applies the codex's [encode], not its [decode]: with a codex
    that round-trips but is not its own inverse, [with_key] gives the key
    back and [defragment] gives back something else. *)
Theorem defragment_encodes :
  RoundTrips shift_codex /\
  fst (bind (vault_fragment shift_vault demo_key1) (vault_defragment shift_vault) demo_start) =
    Ok (RawKey.new [Byte.x03; Byte.x04; Byte.x05; Byte.x06; Byte.x07; Byte.x08]) /\
  fst (bind (register shift_vault "db" demo_key1) (fun h => with_key shift_vault h copy_out) demo_start) =
    Ok (RawKey.bytes demo_key1).
Proof.
  split_and!.
  - intros b. exists (byte.of_Z (byte.unsigned b + 1)). split; [done |]. by destruct b; vm_compute.
  - vm_compute. reflexivity.
  - vm_compute. reflexivity.
Qed.

Lemma backoff_delay_spec_witness :
  backoff_delay demo_vault_config 2 =
    (if master_backoff_base demo_vault_config =? 0 then 0
     else Z.min (master_backoff_max demo_vault_config)
            (master_backoff_base demo_vault_config * 2 ^ Z.min (2 - 1) 31)) /\
  backoff_delay demo_vault_config 2 <= backoff_delay demo_vault_config (u32_saturating_add 2 1) /\
  0 <= backoff_delay demo_vault_config 2 <= master_backoff_max demo_vault_config.
Proof.
  apply (backoff_delay_spec demo_vault_config 2).
  - apply (vw_config _ demo_vault_wf).
  - split; vm_compute; discriminate.
Defined.

Lemma unlock_contract_witness :
  match unlock_with_master demo_vault demo_master demo_start with
  | (Ok _, s') => exists secret, master demo_vault = Some (MasterReady secret) /\
      next_allowed (backoff demo_start) <= attempt_time demo_vault demo_start /\
      verify_master demo_master (secret_bytes secret) = true /\
      locked_out (lock s') = false /\ key_locks (lock s') = ∅ /\ failure_tracker (lock s') = ∅ /\
      backoff s' = backoff_default /\ vault_inv demo_vault ∅ s'
  | (Err e, s') => vault_inv demo_vault ∅ s' /\
      key_locks (lock s') = key_locks (lock demo_start) /\
      (locked_out (lock demo_start) = true -> locked_out (lock s') = true) /\
      next_allowed (backoff demo_start) <= next_allowed (backoff s') /\
      (is_Some (master demo_vault) ->
         attempt_time demo_vault demo_start < next_allowed (backoff demo_start) ->
         lock s' = lock demo_start /\ backoff s' = backoff demo_start /\
         e = Error.RateLimited (next_allowed (backoff demo_start) - attempt_time demo_vault demo_start))
  | _ => False
  end.
Proof.
  apply (unlock_contract demo_vault ∅ demo_start demo_master).
  - apply demo_vault_wf.
  - apply demo_state_inv.
  - vm_compute. discriminate.
Defined.
