(* ===== verification/Builder.v ===== *)
(** * Building a vault ([vault/mod.rs], [KeyVaultBuilder])

    The builder's fields and setters, [from_features], and [finish], which
    turns a builder into a vault and creates its secrets. *)

From S2P Require Import Prelude Errors Rust Format Rng RawKey Normalize Codex Fragment Decoy Standard.
From S2P Require Import Interleaved RandomFrag Layered Layouts Os Guarded Handle Events Config Lockout.
From S2P Require Import VaultState Vault VaultFrame VaultPipeline VaultRead VaultRegistry VaultSpec.

(** ** Data *)

Inductive BuilderFragmenter (W : Type) :=
| BuilderStandard (s : StandardFragmenter W)
| BuilderCustom (c : dyn_strategy W).
Arguments BuilderStandard {W}.
Arguments BuilderCustom {W}.

Inductive NormalizationKey := NoKey | RandomKey | DerivedKey (key : list byte).

(** [MasterSeed]: the verifier's bytes, or why they could not be made. *)
Definition MasterSeed : Type := list byte + string.

Record KeyVaultBuilder (W : Type) := {
  b_config : VaultConfig;
  b_fragmenter : BuilderFragmenter W;
  decoy_without_standard : bool;
  b_codex : option dyn_codex;
  b_monitor : option (dyn_monitor W);
  b_audit : option (dyn_sink W);
  b_master : option MasterSeed;
  normalization_key : NormalizationKey;
  decoy_set : bool
}.
Arguments b_config {W}.
Arguments b_fragmenter {W}.
Arguments decoy_without_standard {W}.
Arguments b_codex {W}.
Arguments b_monitor {W}.
Arguments b_audit {W}.
Arguments b_master {W}.
Arguments normalization_key {W}.
Arguments decoy_set {W}.

(** The Cargo features [from_features] looks at. *)
Record Features := {
  feature_decoy_self_ref : bool; feature_decoy_key_derived : bool; feature_decoy_random : bool;
  feature_fragment_layered : bool; feature_fragment_random : bool; feature_fragment_interleaved : bool;
  feature_codex : bool; feature_monitor_tracing : bool; feature_audit : bool
}.

Definition master_rng_failed : string := "RNG failed while setting up the master key verifier".
Definition key_rng_failed : string := "RNG failed while creating the normalization key".
Definition key_mapping_failed : string :=
  "could not create the protected mapping for the normalization key".
Definition master_mapping_failed : string :=
  "could not create the protected mapping for the master key verifier".

Section builder.
Context {W : Type} `{Rng W} `{Os W} `{Blake3}.

Definition builder_new : KeyVaultBuilder W := {|
  b_config := VaultConfig.new;
  b_fragmenter := BuilderStandard StandardFragmenter.new;
  decoy_without_standard := false;
  b_codex := None; b_monitor := None; b_audit := None; b_master := None;
  normalization_key := NoKey;
  decoy_set := false
|}.

(** ** Setters *)

Implicit Types b : KeyVaultBuilder W.

Definition set_config (c : VaultConfig) b : KeyVaultBuilder W :=
  {| b_config := c; b_fragmenter := b_fragmenter b; decoy_without_standard := decoy_without_standard b;
     b_codex := b_codex b; b_monitor := b_monitor b; b_audit := b_audit b; b_master := b_master b;
     normalization_key := normalization_key b; decoy_set := decoy_set b |}.
Definition set_fragmenter (f : BuilderFragmenter W) (without set_ : bool) b : KeyVaultBuilder W :=
  {| b_config := b_config b; b_fragmenter := f; decoy_without_standard := without;
     b_codex := b_codex b; b_monitor := b_monitor b; b_audit := b_audit b; b_master := b_master b;
     normalization_key := normalization_key b; decoy_set := set_ |}.
Definition set_normalization (c : VaultConfig) (k : NormalizationKey) b : KeyVaultBuilder W :=
  {| b_config := c; b_fragmenter := b_fragmenter b; decoy_without_standard := decoy_without_standard b;
     b_codex := b_codex b; b_monitor := b_monitor b; b_audit := b_audit b; b_master := b_master b;
     normalization_key := k; decoy_set := decoy_set b |}.
Definition set_parts (c : option dyn_codex) (m : option (dyn_monitor W)) (a : option (dyn_sink W))
    (s : option MasterSeed) b : KeyVaultBuilder W :=
  {| b_config := b_config b; b_fragmenter := b_fragmenter b;
     decoy_without_standard := decoy_without_standard b;
     b_codex := c; b_monitor := m; b_audit := a; b_master := s;
     normalization_key := normalization_key b; decoy_set := decoy_set b |}.

(** The configuration with its normalization flags replaced. *)
Definition config_normalization (on keyed : bool) (c : VaultConfig) : VaultConfig :=
  {| key_normalization := on; keyed_normalization := keyed;
     max_failures_before_lockout := max_failures_before_lockout c; failure_window := failure_window c;
     key_lockout_threshold := key_lockout_threshold c; key_lockout_window := key_lockout_window c;
     key_lockout_duration := key_lockout_duration c; master_backoff_base := master_backoff_base c;
     master_backoff_max := master_backoff_max c; page_protection := page_protection c |}.

Definition normalize_with_blake3 (enabled : bool) b : KeyVaultBuilder W :=
  set_config (config_normalization enabled (keyed_normalization (b_config b)) (b_config b)) b.

Definition with_keyed_normalization b : KeyVaultBuilder W :=
  set_normalization (config_normalization true true (b_config b)) RandomKey b.

Definition with_normalization_key (key : RawKey.t) b : KeyVaultBuilder W :=
  let derived := blake3_derive_into NORMALIZATION_KEY_CONTEXT (RawKey.as_bytes key) 32 in
  set_normalization (config_normalization true true (b_config b)) (DerivedKey derived) b.

Definition with_fragmenter {F} `{FragmentStrategy W F} (fragmenter : F) b : KeyVaultBuilder W :=
  set_fragmenter (BuilderCustom (strategy_object fragmenter)) (decoy_without_standard b) (decoy_set b) b.

Definition with_chunk_range (min max : Z) b : KeyVaultBuilder W :=
  set_fragmenter (BuilderStandard (StandardFragmenter.with_chunk_range min max)) false false b.

Definition with_codex {C} `{Codex C} (codex : C) b : KeyVaultBuilder W :=
  set_parts (Some (codex_object codex)) (b_monitor b) (b_audit b) (b_master b) b.

Definition with_decoy {D} `{DecoyStrategy W D} (decoy : D) b : KeyVaultBuilder W :=
  match b_fragmenter b with
  | BuilderStandard standard =>
      set_fragmenter (BuilderStandard (StandardFragmenter.with_decoy standard decoy))
        (decoy_without_standard b) true b
  | BuilderCustom custom => set_fragmenter (BuilderCustom custom) true true b
  end.

Definition with_monitor {M} `{SecurityMonitor W M} (monitor : M) b : KeyVaultBuilder W :=
  set_parts (b_codex b) (Some (monitor_object monitor)) (b_audit b) (b_master b) b.

Definition with_audit_sink {A} `{AuditSink W A} (sink : A) b : KeyVaultBuilder W :=
  set_parts (b_codex b) (b_monitor b) (Some (sink_object sink)) (b_master b) b.

Definition with_failure_threshold (max window : Z) b : KeyVaultBuilder W :=
  let c := b_config b in
  set_config {| key_normalization := key_normalization c; keyed_normalization := keyed_normalization c;
    max_failures_before_lockout := max; failure_window := window;
    key_lockout_threshold := key_lockout_threshold c; key_lockout_window := key_lockout_window c;
    key_lockout_duration := key_lockout_duration c; master_backoff_base := master_backoff_base c;
    master_backoff_max := master_backoff_max c; page_protection := page_protection c |} b.

Definition with_key_lockout (max window : Z) (lock_for : option Z) b : KeyVaultBuilder W :=
  let c := b_config b in
  set_config {| key_normalization := key_normalization c; keyed_normalization := keyed_normalization c;
    max_failures_before_lockout := max_failures_before_lockout c; failure_window := failure_window c;
    key_lockout_threshold := max; key_lockout_window := window;
    key_lockout_duration := lock_for; master_backoff_base := master_backoff_base c;
    master_backoff_max := master_backoff_max c; page_protection := page_protection c |} b.

Definition with_master_unlock_backoff (base max : Z) b : KeyVaultBuilder W :=
  let c := b_config b in
  set_config {| key_normalization := key_normalization c; keyed_normalization := keyed_normalization c;
    max_failures_before_lockout := max_failures_before_lockout c; failure_window := failure_window c;
    key_lockout_threshold := key_lockout_threshold c; key_lockout_window := key_lockout_window c;
    key_lockout_duration := key_lockout_duration c; master_backoff_base := base;
    master_backoff_max := Z.max max base; page_protection := page_protection c |} b.

Definition with_page_protection (enabled : bool) b : KeyVaultBuilder W :=
  let c := b_config b in
  set_config {| key_normalization := key_normalization c; keyed_normalization := keyed_normalization c;
    max_failures_before_lockout := max_failures_before_lockout c; failure_window := failure_window c;
    key_lockout_threshold := key_lockout_threshold c; key_lockout_window := key_lockout_window c;
    key_lockout_duration := key_lockout_duration c; master_backoff_base := master_backoff_base c;
    master_backoff_max := master_backoff_max c; page_protection := enabled |} b.

(** [with_master_key]: never fails; a generator failure is kept for later. *)
Definition with_master_key (master : RawKey.t) b : M W (KeyVaultBuilder W) :=
  let! r := try_ (fill 32) in
  let seed :=
    match r with
    | inl hash_key => inl (hash_key ++ blake3_keyed_into hash_key (RawKey.as_bytes master) 32)
    | inr _ => inr master_rng_failed
    end in
  ret (set_parts (b_codex b) (b_monitor b) (b_audit b) (Some seed) b).

(** [decoy_ignored]. *)
Definition builder_decoy_ignored b : bool :=
  (decoy_set b && match b_fragmenter b with BuilderCustom _ => true | BuilderStandard _ => false end)
  || decoy_without_standard b.

(** [Debug] for [KeyVaultBuilder]. *)
Definition builder_fmt b : string :=
  let fragmenter :=
    match b_fragmenter b with
    | BuilderStandard s => fragment_describe (W := W) s
    | BuilderCustom c => fragment_describe (W := W) c
    end in
  let set_ {A} (o : option A) := debug_option (fun _ => debug_str "<set>") o in
  debug_struct_open "KeyVaultBuilder" [
    ("config", VaultConfig.fmt (b_config b)); ("fragmenter", debug_str fragmenter);
    ("decoy_ignored", debug_bool (builder_decoy_ignored b)); ("codex", set_ (b_codex b));
    ("monitor", set_ (b_monitor b)); ("audit", set_ (b_audit b)); ("master_key", set_ (b_master b))].

(** [from_features]. *)
Definition from_features `{Tracing W} (f : Features) : M W (KeyVaultBuilder W) :=
  let builder := builder_new in
  let standard := StandardFragmenter.new in
  let standard :=
    if feature_decoy_self_ref f then StandardFragmenter.with_decoy standard self_reference_decoy
    else if feature_decoy_key_derived f then StandardFragmenter.with_decoy standard key_derived_decoy
    else if feature_decoy_random f then StandardFragmenter.with_decoy standard random_decoy
    else standard in
  let! fragmenter :=
    if feature_fragment_layered f then
      let! layered := lift (LayeredFragmenter.new
        [strategy_object standard; strategy_object InterleavedFragmenter.new;
         strategy_object RandomFragmenter.new]) in
      ret (BuilderCustom (strategy_object layered))
    else if feature_fragment_random f then ret (BuilderCustom (strategy_object RandomFragmenter.new))
    else if feature_fragment_interleaved f then
      ret (BuilderCustom (strategy_object InterleavedFragmenter.new))
    else ret (BuilderStandard standard) in
  let builder := set_fragmenter fragmenter false false builder in
  let! builder :=
    if feature_codex f then
      let! dynamic := DynamicCodex.new in ret (with_codex dynamic builder)
    else ret builder in
  let builder :=
    if feature_monitor_tracing f then
      let builder := with_monitor log_monitor builder in
      if feature_audit f then with_audit_sink log_audit builder else builder
    else builder in
  ret builder.

(** ** Finishing *)

(** [secret_or_unavailable]. *)
Definition secret_or_unavailable (key : list byte) (protected : bool) : M (Regions * W) Normalizer :=
  let! r := try_ (secret_new key protected) in
  ret (match r with
       | inl secret => NormalizerKeyed secret
       | inr _ => NormalizerUnavailable key_mapping_failed
       end).

(** The normalizer of [finish]. *)
Definition finish_normalizer b : M (Regions * W) Normalizer :=
  let protect := page_protection (b_config b) in
  if key_normalization (b_config b) then
    match normalization_key b with
    | NoKey => ret NormalizerPlain
    | RandomKey =>
        let! r := try_ (on_snd (fill 32)) in
        match r with
        | inl k => secret_or_unavailable k protect
        | inr _ => ret (NormalizerUnavailable key_rng_failed)
        end
    | DerivedKey k => secret_or_unavailable k protect
    end
  else ret NormalizerOff.

(** The master verifier of [finish]. *)
Definition finish_master b : M (Regions * W) (option MasterVerifier) :=
  match b_master b with
  | None => ret None
  | Some (inl stored) =>
      let! r := try_ (secret_new stored (page_protection (b_config b))) in
      ret (Some (match r with
                 | inl secret => MasterReady secret
                 | inr _ => MasterUnavailable master_mapping_failed
                 end))
  | Some (inr reason) => ret (Some (MasterUnavailable reason))
  end.

(** [finish]; [build] is [finish ClockStd], [build_with_clock] is [finish] of
    a custom clock. *)
Definition finish b (clock : VaultClock W) : M (Regions * W) (VaultInner W) :=
  let! normalizer := finish_normalizer b in
  let! master := finish_master b in
  ret {| config := b_config b;
         fragmenter := match b_fragmenter b with
                       | BuilderStandard s => FragmenterStandard s
                       | BuilderCustom c => FragmenterCustom c
                       end;
         decoy_ignored := builder_decoy_ignored b;
         normalizer := normalizer;
         codex := b_codex b;
         monitor := default (monitor_object no_monitor) (b_monitor b);
         clock := clock;
         master := master;
         audit := default (sink_object no_audit) (b_audit b) |}.

Definition build b : M (Regions * W) (VaultInner W) := finish b ClockStd.
Definition build_with_clock {C} `{Clock W C} (clock : C) b : M (Regions * W) (VaultInner W) :=
  finish b (ClockCustom (clock_object clock)).

(** The state of a vault that was just built, in a process that has handed
    out the handles below [id] and whose scratch is [c]. *)
Definition built_state (id : Z) (c : Scratch) (rw : Regions * W) : VaultState W := {|
  keys := ∅; lock := lock_init; backoff := backoff_default; next_id := id; scratch := c;
  regions := rw.1; world := rw.2
|}.
End builder.

(** ** Lemmas *)

Section lemmas.
Context {W : Type} `{Rng W} `{Os W} `{Blake3} `{StdTime W} `{PageRefs W} `{Threads W}.
Implicit Types b : KeyVaultBuilder W.

(** A builder whose parts meet their contracts; every setter keeps it. *)
Record builder_wf b : Prop := {
  bw_config : config_wf (b_config b);
  bw_strategy : match b_fragmenter b with
                | BuilderStandard s => standard_valid s /\ max_chunk s <= decoy_max
                | BuilderCustom c => LawfulStrategy (W := W) c /\ BoundedLayout (W := W) c isize_max
                end;
  bw_codex : forall c, b_codex b = Some c -> RoundTrips c;
  bw_key : forall k, normalization_key b = DerivedKey k -> zlen k = 32
}.

Lemma secret_new_spec bytes protected rs (w : W) :
  regions_ok rs ->
  match secret_new bytes protected (rs, w) with
  | (Ok s, (rs', _)) => secret_bytes s = bytes /\ region_present rs' (secret_fragments s) /\
      regions_ok rs' /\ regions_le rs rs'
  | (Err e, (rs', _)) => rs' = rs
  | _ => False
  end.
Proof.
  intros Hok. unfold secret_new. destruct protected; [| done].
  pose proof (into_protected_regions (from_parts [bytes] [] (zlen bytes)) rs w) as Hp.
  rewrite layout_from_parts in Hp. specialize (Hp ltac:(done) Hok). unfold bind.
  destruct (into_protected _ (rs, w)) as [[p | e | |] [rs' w']]; [| done..].
  destruct Hp as ((Hc & _) & _ & Hr & _ & Hok' & Hle). cbn [ret]. split_and!; [| done..].
  unfold secret_bytes, chunk. cbn [secret_fragments]. unfold chunks in Hc. by rewrite Hc.
Qed.

(** The secrets a normalizer or verifier adds exist, and regions stay at
    rest. *)
Definition secret_present (rs : Regions) (s : SecretBytes) : Prop := region_present rs (secret_fragments s).

Lemma secret_or_unavailable_spec key protected rs (w : W) :
  regions_ok rs ->
  match secret_or_unavailable key protected (rs, w) with
  | (Ok n, (rs', _)) => regions_ok rs' /\ regions_le rs rs' /\
      ((exists s, n = NormalizerKeyed s /\ secret_bytes s = key /\ secret_present rs' s) \/
       n = NormalizerUnavailable key_mapping_failed)
  | _ => False
  end.
Proof.
  intros Hok. pose proof (secret_new_spec key protected rs w Hok) as Hs.
  unfold secret_or_unavailable, bind, try_.
  destruct (secret_new key protected (rs, w)) as [[s | e | |] [rs' w']]; [| subst rs' | done..]; cbn [ret].
  - destruct Hs as (Hb & Hp & Hok' & Hle). split_and!; [done.. |]. left. by exists s.
  - split_and!; [done | done | by right].
Qed.

Lemma finish_normalizer_spec b rs (w : W) :
  builder_wf b -> regions_ok rs ->
  match finish_normalizer b (rs, w) with
  | (Ok n, (rs', _)) => regions_ok rs' /\ regions_le rs rs' /\
      match n with
      | NormalizerOff => key_normalization (b_config b) = false
      | NormalizerPlain => key_normalization (b_config b) = true /\ normalization_key b = NoKey
      | NormalizerKeyed s => secret_present rs' s /\ zlen (secret_bytes s) = 32 /\
          forall k, normalization_key b = DerivedKey k -> secret_bytes s = k
      | NormalizerUnavailable _ => normalization_key b <> NoKey
      end
  | _ => False
  end.
Proof.
  intros Hb Hok. unfold finish_normalizer. destruct (key_normalization (b_config b)); [| done].
  destruct (normalization_key b) as [| | k] eqn:Ek; [done | |].
  - unfold bind, try_, on_snd, zoom. cbn [fst snd].
    pose proof (fill_safe (W := W) 32 ltac:(done) w) as Hf.
    destruct (fill 32 w) as [[k | e | |] w1]; [| done..]. cbn in Hf.
    pose proof (secret_or_unavailable_spec k (page_protection (b_config b)) rs w1 Hok) as Hs.
    destruct (secret_or_unavailable k _ _) as [[n | e | |] [rs' w']]; [| done..].
    destruct Hs as (? & ? & [(s & -> & Hk & ?) | ->]); split_and!; rewrite ?Hk; done.
  - pose proof (secret_or_unavailable_spec k (page_protection (b_config b)) rs w Hok) as Hs.
    destruct (secret_or_unavailable k _ _) as [[n | e | |] [rs' w']]; [| done..].
    destruct Hs as (? & ? & [(s & -> & Hk & ?) | ->]); split_and!; rewrite ?Hk; try done.
    + by apply (bw_key _ Hb).
    + by intros k' [= ->].
Qed.

Lemma finish_master_spec b rs (w : W) :
  regions_ok rs ->
  match finish_master b (rs, w) with
  | (Ok m, (rs', _)) => regions_ok rs' /\ regions_le rs rs' /\
      match m with
      | None => b_master b = None
      | Some (MasterReady s) => secret_present rs' s /\ b_master b = Some (inl (secret_bytes s))
      | Some (MasterUnavailable _) => is_Some (b_master b)
      end
  | _ => False
  end.
Proof.
  intros Hok. unfold finish_master. destruct (b_master b) as [[stored | reason] |]; [| done..].
  pose proof (secret_new_spec stored (page_protection (b_config b)) rs w Hok) as Hs. unfold bind, try_.
  destruct (secret_new stored _ (rs, w)) as [[s | e | |] [rs' w']]; [| subst rs' | done..]; cbn [ret].
  - destruct Hs as (-> & Hp & Hok' & Hle). by split_and!.
  - by split_and!.
Qed.

(** ** Sequences of setters *)

Inductive setter :=
| SetNormalize (enabled : bool)
| SetKeyedNormalization
| SetNormalizationKey (key : RawKey.t)
| SetFragmenter (c : dyn_strategy W)
| SetChunkRange (min max : Z)
| SetCodex (c : dyn_codex)
| SetDecoy (d : dyn_decoy W)
| SetMonitor (m : dyn_monitor W)
| SetAudit (a : dyn_sink W)
| SetFailureThreshold (max window : Z)
| SetKeyLockout (max window : Z) (lock_for : option Z)
| SetMasterBackoff (base max : Z)
| SetPageProtection (enabled : bool)
| SetMaster (key : RawKey.t).

Definition run_setter (op : setter) b : M W (KeyVaultBuilder W) :=
  match op with
  | SetNormalize on => ret (normalize_with_blake3 on b)
  | SetKeyedNormalization => ret (with_keyed_normalization b)
  | SetNormalizationKey k => ret (with_normalization_key k b)
  | SetFragmenter c => ret (with_fragmenter c b)
  | SetChunkRange min max => ret (with_chunk_range min max b)
  | SetCodex c => ret (with_codex c b)
  | SetDecoy d => ret (with_decoy d b)
  | SetMonitor m => ret (with_monitor m b)
  | SetAudit a => ret (with_audit_sink a b)
  | SetFailureThreshold max window => ret (with_failure_threshold max window b)
  | SetKeyLockout max window lock_for => ret (with_key_lockout max window lock_for b)
  | SetMasterBackoff base max => ret (with_master_unlock_backoff base max b)
  | SetPageProtection on => ret (with_page_protection on b)
  | SetMaster k => with_master_key k b
  end.

Fixpoint run_setters (ops : list setter) b : M W (KeyVaultBuilder W) :=
  match ops with
  | [] => ret b
  | op :: ops' => let! b := run_setter op b in run_setters ops' b
  end.

(** What a setter asks of its arguments: values of their Rust types, and
    strategies, codices and decoys that meet their contracts. *)
Definition setter_ok (op : setter) : Prop :=
  match op with
  | SetFragmenter c => LawfulStrategy (W := W) c /\ BoundedLayout (W := W) c isize_max
  | SetChunkRange min max => 0 <= min <= decoy_max /\ 0 <= max <= decoy_max
  | SetCodex c => RoundTrips c
  | SetDecoy d => LawfulDecoy (W := W) d
  | SetFailureThreshold max window => 0 <= max <= u32_max /\ 0 <= window <= duration_max
  | SetKeyLockout max window lock_for =>
      0 <= max <= u32_max /\ 0 <= window <= duration_max /\
      forall d, lock_for = Some d -> 0 <= d <= duration_max
  | SetMasterBackoff base max => 0 <= base <= duration_max /\ 0 <= max <= duration_max
  | _ => True
  end.

(** A decoy is pending when [with_decoy] was called since the standard
    fragmenter was last reset; the caller's own fragmenter is the one in use
    when no reset followed it; the last master key counts. *)
Definition decoy_step (acc : bool) (op : setter) : bool :=
  match op with SetDecoy _ => true | SetChunkRange _ _ => false | _ => acc end.
Definition custom_step (acc : bool) (op : setter) : bool :=
  match op with SetFragmenter _ => true | SetChunkRange _ _ => false | _ => acc end.
Definition master_step (acc : option RawKey.t) (op : setter) : option RawKey.t :=
  match op with SetMaster k => Some k | _ => acc end.

Definition is_custom b : bool :=
  match b_fragmenter b with BuilderCustom _ => true | BuilderStandard _ => false end.

Definition seed_of (m : RawKey.t) (seed : MasterSeed) : Prop :=
  match seed with
  | inl stored => exists k, zlen k = 32 /\ stored = k ++ blake3_keyed_into k (RawKey.as_bytes m) 32
  | inr reason => reason = master_rng_failed
  end.

(** A builder made by setters, of which the flags are the given ones. *)
Record made (pending custom : bool) (m : option RawKey.t) b : Prop := {
  md_wf : builder_wf b;
  md_pending : decoy_set b = pending;
  md_custom : is_custom b = custom;
  md_without : decoy_without_standard b = true -> pending = true /\ custom = true;
  md_master : option_Forall2 seed_of m (b_master b)
}.

Lemma made_ignored pending custom m b : made pending custom m b -> builder_decoy_ignored b = pending && custom.
Proof.
  intros [_ Hp Hc Hw _]. unfold builder_decoy_ignored. unfold is_custom in Hc. rewrite Hp, Hc.
  destruct (decoy_without_standard b); [| by rewrite orb_false_r]. by destruct Hw as [-> ->].
Qed.

Lemma builder_new_made : made false false None builder_new.
Proof.
  split; [split; [apply default_config_wf | | done..] | done.. | constructor].
  cbn. split; [by split | done].
Qed.

Lemma config_normalization_wf on keyed c : config_wf c -> config_wf (config_normalization on keyed c).
Proof. by intros []. Qed.

(** Setters that only touch the configuration. *)
Lemma made_config pending custom m b c :
  made pending custom m b -> config_wf c -> made pending custom m (set_config c b).
Proof. intros [[] ? ? ? ?] Hc. split; [by split | done..]. Qed.

Lemma made_parts pending custom m m' b cdx mon aud seed :
  made pending custom m b -> (forall c, cdx = Some c -> RoundTrips c) -> option_Forall2 seed_of m' seed ->
  made pending custom m' (set_parts cdx mon aud seed b).
Proof.
  intros [[] ? ? ? ?] Hc Hs. split; [by split | done..].
Qed.

Lemma made_normalization pending custom m b on keyed k :
  made pending custom m b -> (forall bs, k = DerivedKey bs -> zlen bs = 32) ->
  made pending custom m (set_normalization (config_normalization on keyed (b_config b)) k b).
Proof. intros [[Hc ? ? ?] ? ? ? ?] Hk. split; [split; [by apply config_normalization_wf | done..] | done..]. Qed.

Lemma made_fragmenter pending custom m b f without :
  made pending custom m b ->
  match f with
  | BuilderStandard s => standard_valid s /\ max_chunk s <= decoy_max
  | BuilderCustom c => LawfulStrategy (W := W) c /\ BoundedLayout (W := W) c isize_max
  end ->
  let custom' := match f with BuilderCustom _ => true | BuilderStandard _ => false end in
  forall pending' set_, set_ = pending' -> (without = true -> pending' = true /\ custom' = true) ->
  made pending' custom' m (set_fragmenter f without set_ b).
Proof. intros [[] ? ? ? ?] Hf custom' pending' set_ Hs Hw. split; [by split | done..]. Qed.

Lemma with_decoy_made pending custom m b (d : dyn_decoy W) :
  made pending custom m b -> LawfulDecoy (W := W) d -> made true custom m (with_decoy d b).
Proof.
  intros Hm Hd. pose proof Hm as [[_ Hs _ _] _ Hc Hw _]. unfold with_decoy, is_custom in *.
  destruct (b_fragmenter b) as [std | c].
  - subst custom. apply (made_fragmenter pending false m b (BuilderStandard _)); [done | | done |].
    + destruct Hs as [[] Hmax]. split; [| done]. split; try done. intros d' [= <-].
      split; [done | by apply decoy_object_lawful].
    + intros Hwo. by destruct (Hw Hwo).
  - subst custom. by apply (made_fragmenter pending true m b (BuilderCustom c)).
Qed.

Lemma with_master_key_made pending custom m b k :
  made pending custom m b -> safe (with_master_key k b) (made pending custom (Some k)) (fun _ => False).
Proof.
  intros Hm w. unfold with_master_key, bind, try_.
  pose proof (fill_safe (W := W) 32 ltac:(done) w) as Hf.
  destruct (fill 32 w) as [[key | e | |] w1]; [| | done..]; cbn in Hf |- *;
    eapply made_parts; [done | apply (bw_codex _ (md_wf _ _ _ _ Hm)) | | done
                       | apply (bw_codex _ (md_wf _ _ _ _ Hm)) |]; constructor; [by exists key | done].
Qed.

Lemma run_setter_made pending custom m b op :
  made pending custom m b -> setter_ok op ->
  safe (run_setter op b) (made (decoy_step pending op) (custom_step custom op) (master_step m op))
    (fun _ => False).
Proof.
  intros Hm Hop. pose proof (bw_config _ (md_wf _ _ _ _ Hm)) as Hc.
  pose proof (bw_codex _ (md_wf _ _ _ _ Hm)) as Hcodex. pose proof (md_master _ _ _ _ Hm) as Hmaster.
  destruct op; cbn [run_setter decoy_step custom_step master_step setter_ok] in *;
    [apply safe_ret.. | by apply (with_master_key_made pending custom m)].
  - apply made_config; [done | by apply config_normalization_wf].
  - by apply made_normalization.
  - apply made_normalization; [done |]. intros bs [= <-]. unfold blake3_derive_into. by apply xof_fills.
  - apply (made_fragmenter pending custom m b (BuilderCustom (strategy_object c))); [done | | apply Hm |].
    2: { intros Hw. by destruct (md_without _ _ _ _ Hm Hw). }
    destruct Hop as [Hl Hb]. split; intros key; [exact (Hl key) | exact (Hb key)].
  - apply (made_fragmenter pending custom m b (BuilderStandard _)); [done | | done..].
    pose proof (eq_refl : (decoy_max <=? usize_max) = true) as Hmax. apply Z.leb_le in Hmax.
    assert (1 <= decoy_max) by done.
    unfold StandardFragmenter.with_chunk_range.
    split; [split |]; cbn [min_chunk max_chunk decoy]; first [done | lia].
  - apply (made_parts pending custom m); [done | | done]. intros c' [= <-] x. exact (Hop x).
  - by apply (with_decoy_made pending).
  - by apply (made_parts pending custom m).
  - by apply (made_parts pending custom m).
  - apply made_config; [done |]. destruct Hc, Hop. by split.
  - apply made_config; [done |]. destruct Hc, Hop as (? & ? & ?). by split.
  - apply made_config; [done |]. destruct Hc. split; cbn; try done; lia.
  - apply made_config; [done |]. destruct Hc. by split.
Qed.

Lemma run_setters_made ops pending custom m b :
  made pending custom m b -> Forall setter_ok ops ->
  safe (run_setters ops b)
    (made (foldl decoy_step pending ops) (foldl custom_step custom ops) (foldl master_step m ops))
    (fun _ => False).
Proof.
  intros Hm Hok. revert pending custom m b Hm. induction Hok as [| op ops Hop _ IH]; intros pending custom m b Hm.
  - by apply safe_ret.
  - cbn [run_setters foldl]. eapply safe_bind; [by apply run_setter_made |]. intros b' Hb'. by apply IH.
Qed.

(** ** The finished vault *)

(** What [finish] makes of a builder. *)
Record finished b (self : VaultInner W) (rs : Regions) : Prop := {
  fn_config : config self = b_config b;
  fn_ignored : decoy_ignored self = builder_decoy_ignored b;
  fn_wf : vault_wf self;
  fn_secrets : Forall (region_present rs) (secrets self);
  fn_normalizer :
    match normalizer self with
    | NormalizerOff => key_normalization (b_config b) = false
    | NormalizerPlain => key_normalization (b_config b) = true /\ normalization_key b = NoKey
    | NormalizerKeyed s => zlen (secret_bytes s) = 32 /\
        forall k, normalization_key b = DerivedKey k -> secret_bytes s = k
    | NormalizerUnavailable _ => normalization_key b <> NoKey
    end;
  fn_master :
    match master self with
    | None => b_master b = None
    | Some (MasterReady s) => b_master b = Some (inl (secret_bytes s))
    | Some (MasterUnavailable _) => is_Some (b_master b)
    end
}.

Lemma finish_strategy_wf b : builder_wf b ->
  let f := match b_fragmenter b with
           | BuilderStandard s => FragmenterStandard s
           | BuilderCustom c => FragmenterCustom c
           end in
  LawfulStrategy (W := W) f /\ BoundedLayout (W := W) f isize_max.
Proof.
  intros [_ Hs _ _]. destruct (b_fragmenter b) as [std | c].
  - destruct Hs as [Hs _]. pose proof (standard_lawful std Hs) as Hl. pose proof (standard_bounded std Hs) as Hb.
    split; intros key; [exact (Hl key) |]. eapply safe_mono; [exact (Hb key) | | done].
    assert (layout_bound <= isize_max) by done. cbn. lia.
  - destruct Hs as [Hl Hb]. split; intros key; [exact (Hl key) | exact (Hb key)].
Qed.

Lemma finish_spec b clock rs (w : W) :
  builder_wf b -> regions_ok rs ->
  match finish b clock (rs, w) with
  | (Ok self, (rs', _)) => regions_ok rs' /\ finished b self rs'
  | _ => False
  end.
Proof.
  intros Hb Hok. unfold finish, bind at 1.
  pose proof (finish_normalizer_spec b rs w Hb Hok) as Hn.
  destruct (finish_normalizer b (rs, w)) as [[n | e | |] [rs1 w1]]; [| done..].
  destruct Hn as (Hok1 & Hle1 & Hn). unfold bind at 1. pose proof (finish_master_spec b rs1 w1 Hok1) as Hm.
  destruct (finish_master b (rs1, w1)) as [[m | e | |] [rs2 w2]]; [| done..].
  destruct Hm as (Hok2 & Hle2 & Hm). destruct (finish_strategy_wf b Hb) as [Hl Hbd].
  split; [done |]. split; cbn [config decoy_ignored normalizer master codex fragmenter]; [done | done | | | |].
  - split; cbn [config fragmenter codex]; [apply Hb | done | done | apply Hb].
  - unfold secrets. cbn [normalizer master]. apply Forall_app. split.
    + destruct n; constructor; [| done]. eapply region_present_le; [exact Hle2 | apply Hn].
    + destruct m as [[] |]; constructor; [apply Hm | done].
  - destruct n; [done.. | apply Hn | done].
  - destruct m as [[] |]; [apply Hm | done..].
Qed.

(** A whole build: setters on a new builder, then [finish]. *)
Definition assemble (ops : list setter) (clock : VaultClock W) : M (Regions * W) (VaultInner W) :=
  let! b := on_snd (run_setters ops builder_new) in finish b clock.

Lemma assemble_spec ops clock rs (w : W) :
  Forall setter_ok ops -> regions_ok rs ->
  match assemble ops clock (rs, w) with
  | (Ok self, (rs', _)) => regions_ok rs' /\ exists b, finished b self rs' /\
      made (foldl decoy_step false ops) (foldl custom_step false ops) (foldl master_step None ops) b
  | _ => False
  end.
Proof.
  intros Hops Hok. pose proof (run_setters_made ops _ _ _ _ builder_new_made Hops w) as Hm.
  unfold assemble, bind at 1, on_snd, zoom. cbn [fst snd].
  destruct (run_setters ops builder_new w) as [[b | e | |] w1]; [| done..]. cbn in Hm.
  pose proof (finish_spec b clock rs w1 (md_wf _ _ _ _ Hm) Hok) as Hf.
  destruct (finish b clock (rs, w1)) as [[self | e | |] [rs' w']]; [| done..].
  destruct Hf as [Hok' Hf]. split; [done |]. by exists b.
Qed.

Lemma built_inv b self rs id c (w : W) :
  regions_ok rs -> finished b self rs -> 1 <= id -> (borrowed c = false -> all_zero (buf c)) ->
  vault_inv self ∅ (built_state id c (rs, w)).
Proof.
  intros Hok Hf Hid Hc. split; cbn; try done.
  - intros j. rewrite !lookup_empty. constructor.
  - intros j []. by rewrite lookup_empty in *.
  - apply Hf.
Qed.

(** The comparison against a stored verifier. *)
Lemma verify_master_stored attempt k m : zlen k = 32 ->
  verify_master attempt (k ++ blake3_keyed_into k (RawKey.as_bytes m) 32) =
    bool_decide (blake3_keyed_into k attempt 32 = blake3_keyed_into k (RawKey.as_bytes m) 32).
Proof.
  intros Hk. unfold verify_master. assert (length k = 32%nat) as Hl by (unfold zlen in Hk; lia).
  case_test; tests; [unfold zlen in *; rewrite length_app in *; lia |].
  rewrite take_app_length', drop_app_length' by done. by apply bool_decide_ext; split; intros ->.
Qed.
End lemmas.
