(* ===== verification/BuilderTheorems.v ===== *)
(** * Properties of building a vault

    What [KeyVaultBuilder] and [finish] promise, whatever the generator and
    the OS do; the witnesses build a concrete vault. *)

From S2P Require Import Prelude Errors Rust Rng RawKey Normalize Codex Fragment Decoy Standard.
From S2P Require Import Interleaved RandomFrag Layered Layouts Os Guarded Handle Events Config Lockout.
From S2P Require Import VaultState Vault VaultFrame VaultPipeline VaultRead VaultRegistry VaultSpec.
From S2P Require Import VaultProps VaultDemo Builder.

Section theorems.
Context {W : Type} `{Rng W} `{Os W} `{Blake3} `{StdTime W} `{PageRefs W} `{Threads W}.

(** C29: Building is total and gives a good vault.  Any sequence of setters with
    valid arguments, then [finish], succeeds without a panic, whatever the
    generator and the OS refuse; the vault meets the contract every vault
    theorem assumes, starts with an empty registry, and flags a decoy as
    ignored exactly if [with_decoy] was called since the standard fragmenter
    was last reset while the caller's own fragmenter is the one in use. *)
Theorem built_vault_ready (ops : list setter) (clock : VaultClock W) rs w id c :
  Forall setter_ok ops -> regions_ok rs -> 1 <= id -> (borrowed c = false -> all_zero (buf c)) ->
  match assemble ops clock (rs, w) with
  | (Ok self, rw) => vault_wf self /\ vault_inv self ∅ (built_state id c rw) /\
      decoy_ignored self = foldl decoy_step false ops && foldl custom_step false ops
  | _ => False
  end.
Proof.
  intros Hops Hok Hid Hc. pose proof (assemble_spec ops clock rs w Hops Hok) as Ha.
  destruct (assemble ops clock (rs, w)) as [[self | e | |] [rs' w']]; [| done..].
  destruct Ha as (Hok' & b & Hf & Hm). split_and!.
  - apply Hf.
  - by eapply built_inv.
  - rewrite (fn_ignored _ _ _ Hf). by eapply made_ignored.
Qed.

(** C30: No silent fallback.  If keyed normalization was asked for, every key
    the vault stores is normalized with keyed BLAKE3 under one 32-byte key,
    the derived one if one was given; or, where that key could not be made,
    [register] of a free name on an unlocked vault fails with the reason and
    changes nothing.  Plain BLAKE3 is never used in its place. *)
Theorem no_silent_fallback (b : KeyVaultBuilder W) (clock : VaultClock W) rs w self rw :
  builder_wf b -> regions_ok rs -> key_normalization (b_config b) = true -> normalization_key b <> NoKey ->
  finish b clock (rs, w) = (Ok self, rw) ->
  (exists k, zlen k = 32 /\ (forall d, normalization_key b = DerivedKey d -> k = d) /\
     forall key, normalized self key = Some (blake3_keyed_normalize k key)) \/
  (exists reason, forall reg s name key,
     vault_inv self reg s -> locked_out (lock s) = false -> ~ name_used name reg ->
     register self name key s = (Err (Error.Internal reason), s)).
Proof.
  intros Hb Hok Hon Hkey E. pose proof (finish_spec b clock rs w Hb Hok) as Hf. rewrite E in Hf.
  destruct rw as [rs' w'], Hf as [_ Hf]. pose proof (fn_normalizer _ _ _ Hf) as Hn.
  destruct (normalizer self) as [| | secret | reason] eqn:En; [congruence | by destruct Hn | left | right].
  - destruct Hn as [Hl Hd]. exists (secret_bytes secret). split_and!; [done | done |].
    intros key. unfold normalized. rewrite En. unfold try_into_array. by rewrite Hl.
  - exists reason. intros reg s name key Hinv Hlo Hfree. unfold register, register_prepare, is_locked_out, bind.
    cbn [gets]. rewrite Hlo. destruct (name_taken name (keys s)) eqn:Ent.
    { by apply (name_taken_spec self reg s name Hinv) in Ent. }
    unfold fragment_for_registry, fragment_pipeline, normalize_key, bind. by rewrite En.
Qed.

(** The master credential given last is the one that unlocks.  The built
    vault has a verifier; if it could be set up, then once the backoff has
    passed an attempt is accepted exactly if its keyed hash is that of the
    credential, under one key drawn at build time; the only other answer is
    the OS refusing to open the verifier's pages.  If it could not be set up,
    every attempt fails with the reason. *)
Theorem built_master_verifies (ops : list setter) (clock : VaultClock W) rs w self rw m :
  Forall setter_ok ops -> regions_ok rs -> foldl master_step None ops = Some m ->
  assemble ops clock (rs, w) = (Ok self, rw) ->
  match master self with
  | None => False
  | Some (MasterReady _) => exists k, zlen k = 32 /\ forall reg s attempt,
      vault_inv self reg s -> next_allowed (backoff s) <= attempt_time self s ->
      fst (unlock_with_master self attempt s) = Err open_failed \/
      fst (unlock_with_master self attempt s) =
        if bool_decide (blake3_keyed_into k attempt 32 = blake3_keyed_into k (RawKey.as_bytes m) 32)
        then Ok tt else Err master_mismatch
  | Some (MasterUnavailable reason) => forall reg s attempt,
      vault_inv self reg s -> next_allowed (backoff s) <= attempt_time self s ->
      fst (unlock_with_master self attempt s) = Err (Error.Internal reason)
  end.
Proof.
  intros Hops Hok Hlast E. pose proof (assemble_spec ops clock rs w Hops Hok) as Ha. rewrite E in Ha.
  destruct rw as [rs' w'], Ha as (_ & b & Hf & Hm). pose proof (md_master _ _ _ _ Hm) as Hs. rewrite Hlast in Hs.
  pose proof (fn_master _ _ _ Hf) as Hfm. inversion Hs as [x seed Hseed Hx Eb |]; subst x.
  destruct (master self) as [[secret | reason] |] eqn:Em; [| | congruence].
  - rewrite Hfm in Eb. injection Eb as ->. destruct Hseed as (k & Hk & Hsb). exists k. split; [done |].
    intros reg s attempt Hinv Ht. pose proof (verify_master_stored attempt k m Hk) as Hv. rewrite <- Hsb in Hv.
    pose proof (unlock_cases self reg s attempt Hinv) as Hu.
    destruct (unlock_with_master self attempt s) as [o s']. destruct Hu as [_ Hc]. cbn [fst].
    destruct Hc; simplify_eq; try lia; [by left | right..]; rewrite <- Hv; by case_match.
  - intros reg s attempt Hinv Ht. pose proof (unlock_cases self reg s attempt Hinv) as Hu.
    destruct (unlock_with_master self attempt s) as [o s']. destruct Hu as [_ Hc]. cbn [fst].
    destruct Hc; congruence || lia.
Qed.
End theorems.

(** ** Witnesses *)

Definition demo_setters : list setter :=
  [SetDecoy (decoy_object random_decoy); SetChunkRange 3 4; SetCodex complement_codex; SetMonitor Tape.monitor;
   SetAudit Tape.sink; SetFailureThreshold 3 60; SetKeyLockout 2 50 (Some 100); SetMasterBackoff 10 35;
   SetPageProtection true; SetMaster (RawKey.new demo_master)].

Lemma demo_setters_ok : Forall setter_ok demo_setters.
Proof.
  unfold demo_setters. repeat apply List.Forall_cons; try apply List.Forall_nil; try done; try by split.
  - apply decoy_object_lawful, _.
  - apply demo_codex_round_trips.
  - split_and!; try done. by intros d [= <-].
Defined.

(** The generator answers the draw of the hash key, or nothing. *)
Definition demo_entropy : Tape.world := Tape.start 100 [] [demo_master_key].
Definition demo_clock : VaultClock Tape.world := ClockCustom Tape.clock.

Lemma built_vault_ready_witness :
  match assemble demo_setters demo_clock (regions_init, demo_entropy) with
  | (Ok self, rw) => vault_wf self /\ vault_inv self ∅ (built_state 1 scratch_init rw) /\
      decoy_ignored self = false
  | _ => False
  end.
Proof.
  apply (built_vault_ready demo_setters demo_clock regions_init demo_entropy 1 scratch_init).
  - apply demo_setters_ok.
  - by repeat constructor.
  - done.
  - intros _. constructor.
Defined.

Definition demo_keyed : KeyVaultBuilder Tape.world :=
  with_normalization_key (RawKey.new demo_master) builder_new.

Lemma demo_keyed_wf : builder_wf demo_keyed.
Proof.
  split; [apply config_normalization_wf, default_config_wf | | done | by intros k [= <-]].
  cbn. split; [by split | done].
Defined.

Lemma no_silent_fallback_witness :
  exists self rw, finish demo_keyed demo_clock (regions_init, demo_entropy) = (Ok self, rw) /\
  ((exists k, zlen k = 32 /\ (forall d, normalization_key demo_keyed = DerivedKey d -> k = d) /\
     forall key, normalized self key = Some (blake3_keyed_normalize k key)) \/
  (exists reason, forall reg s name key,
     vault_inv self reg s -> locked_out (lock s) = false -> ~ name_used name reg ->
     register self name key s = (Err (Error.Internal reason), s))).
Proof.
  eexists _, _. split; [reflexivity |].
  eapply (no_silent_fallback demo_keyed demo_clock regions_init demo_entropy).
  - apply demo_keyed_wf.
  - by repeat constructor.
  - done.
  - done.
  - reflexivity.
Defined.

Lemma built_master_verifies_witness :
  exists self rw, assemble [SetMaster (RawKey.new demo_master)] demo_clock (regions_init, demo_entropy) = (Ok self, rw) /\
  match master self with
  | None => False
  | Some (MasterReady _) => exists k, zlen k = 32 /\ forall reg s attempt,
      vault_inv self reg s -> next_allowed (backoff s) <= attempt_time self s ->
      fst (unlock_with_master self attempt s) = Err open_failed \/
      fst (unlock_with_master self attempt s) =
        if bool_decide (blake3_keyed_into k attempt 32 = blake3_keyed_into k demo_master 32)
        then Ok tt else Err master_mismatch
  | Some (MasterUnavailable reason) => forall reg s attempt,
      vault_inv self reg s -> next_allowed (backoff s) <= attempt_time self s ->
      fst (unlock_with_master self attempt s) = Err (Error.Internal reason)
  end.
Proof.
  eexists _, _. split; [reflexivity |].
  eapply (built_master_verifies [SetMaster (RawKey.new demo_master)] demo_clock regions_init demo_entropy
    _ _ (RawKey.new demo_master)).
  - by repeat constructor.
  - by repeat constructor.
  - done.
  - reflexivity.
Defined.
