(* ===== verification/Tee.v ===== *)
(** * TEE detection ([tee/mod.rs], [tee/x86_64.rs])

    The probes over an abstract CPUID instruction, DMI vendor string and
    target platform, and what each of them decides. *)

From S2P Require Import Prelude Errors Rust.

(** ** Data *)

Inductive Detection := Detected | NotDetected | Unknown.

#[export] Instance detection_eq_dec : EqDecision Detection.
Proof. solve_decision. Defined.

Definition is_detected (d : Detection) : bool := match d with Detected => true | _ => false end.

Definition detection_fmt (d : Detection) : string :=
  match d with Detected => "detected" | NotDetected => "not detected" | Unknown => "unknown" end.

Record TeeCapabilities := {
  sgx : Detection; tdx : Detection; sev : Detection; sev_snp : Detection;
  trustzone : Detection; secure_enclave : Detection; nitro : Detection
}.

Definition any_detected (c : TeeCapabilities) : bool :=
  is_detected (sgx c) || is_detected (tdx c) || is_detected (sev c) || is_detected (sev_snp c)
  || is_detected (trustzone c) || is_detected (secure_enclave c) || is_detected (nitro c).

Definition tee_fmt (c : TeeCapabilities) : string :=
  "TeeCapabilities { sgx: " +:+ detection_fmt (sgx c) +:+ ", tdx: " +:+ detection_fmt (tdx c)
  +:+ ", sev: " +:+ detection_fmt (sev c) +:+ ", sev_snp: " +:+ detection_fmt (sev_snp c)
  +:+ ", trustzone: " +:+ detection_fmt (trustzone c)
  +:+ ", secure_enclave: " +:+ detection_fmt (secure_enclave c)
  +:+ ", nitro: " +:+ detection_fmt (nitro c) +:+ " }".

(** The registers CPUID fills: [u32] values. *)
Record CpuidResult := { eax : Z; ebx : Z; ecx : Z; edx : Z }.

(** The target the crate is compiled for. *)
Inductive Arch := X86_64 | Aarch64 | OtherArch.
Inductive TargetOs := Linux | Macos | OtherOs.

#[export] Instance arch_eq_dec : EqDecision Arch.
Proof. solve_decision. Defined.
#[export] Instance target_os_eq_dec : EqDecision TargetOs.
Proof. solve_decision. Defined.

(** What the probes ask of the machine: CPUID by leaf and sub-leaf, and the
    DMI system vendor, as the code points of the file's text. *)
Class Machine := {
  cpuid_count : Z -> Z -> CpuidResult;
  sys_vendor : option (list Z)
}.

(** The code points of an ASCII string. *)
Definition chars (s : string) : list Z := (fun a => Z.of_N (Ascii.N_of_ascii a)) <$> String.list_ascii_of_string s.

(** A byte-string literal. *)
Definition ascii_bytes (s : string) : list byte := Ascii.byte_of_ascii <$> String.list_ascii_of_string s.

(** [char::is_whitespace]: the Unicode property White_Space. *)
Definition is_whitespace (c : Z) : bool :=
  ((9 <=? c) && (c <=? 13)) || (c =? 32) || (c =? 0x85) || (c =? 0xa0) || (c =? 0x1680)
  || ((0x2000 <=? c) && (c <=? 0x200a)) || (c =? 0x2028) || (c =? 0x2029) || (c =? 0x202f)
  || (c =? 0x205f) || (c =? 0x3000).

Fixpoint trim_start (s : list Z) : list Z :=
  match s with
  | [] => []
  | c :: s' => if is_whitespace c then trim_start s' else s
  end.
Definition trim (s : list Z) : list Z := rev (trim_start (rev (trim_start s))).

Definition to_ascii_lowercase (c : Z) : Z := if (65 <=? c) && (c <=? 90) then c + 32 else c.
Definition eq_ignore_ascii_case (a b : list Z) : bool :=
  bool_decide ((to_ascii_lowercase <$> a) = (to_ascii_lowercase <$> b)).

(** ** Probes *)

Section detect.
Context `{Machine}.

Definition detect_sgx (standard_max : Z) : Detection :=
  if standard_max <? 7 then NotDetected else
  let leaf7 := cpuid_count 7 0 in
  if negb (Z.land (ebx leaf7) (Z.shiftl 1 2) =? 0) then Detected else NotDetected.

Definition vendor_string : list byte :=
  let leaf0 := cpuid_count 0 0 in
  to_le_bytes32 (ebx leaf0) ++ to_le_bytes32 (edx leaf0) ++ to_le_bytes32 (ecx leaf0).

Definition is_intel (vendor : list byte) : bool := bool_decide (vendor = ascii_bytes "GenuineIntel").
Definition is_amd (vendor : list byte) : bool := bool_decide (vendor = ascii_bytes "AuthenticAMD").

Definition detect_tdx (vendor : list byte) (standard_max : Z) : Detection :=
  if negb (is_intel vendor) then NotDetected else
  if standard_max <? 0x21 then NotDetected else
  let leaf := cpuid_count 0x21 0 in
  let signature := to_le_bytes32 (ebx leaf) ++ to_le_bytes32 (edx leaf) ++ to_le_bytes32 (ecx leaf) in
  if bool_decide (signature = ascii_bytes "IntelTDX    ") then Detected else NotDetected.

Definition detect_sev (vendor : list byte) : Detection * Detection :=
  if negb (is_amd vendor) then (NotDetected, NotDetected) else
  let extended_max := eax (cpuid_count 0x80000000 0) in
  if extended_max <? 0x8000001f then (NotDetected, NotDetected) else
  let leaf := cpuid_count 0x8000001f 0 in
  let sev := if negb (Z.land (eax leaf) (Z.shiftl 1 1) =? 0) then Detected else NotDetected in
  let snp := if negb (Z.land (eax leaf) (Z.shiftl 1 4) =? 0) then Detected else NotDetected in
  (sev, snp).

(** [x86_64::detect]. *)
Definition detect : Detection * Detection * (Detection * Detection) :=
  let vendor := vendor_string in
  let standard_max := eax (cpuid_count 0 0) in
  let sgx := detect_sgx standard_max in
  let tdx := detect_tdx vendor standard_max in
  (sgx, tdx, detect_sev vendor).

Definition detect_x86_64 (arch : Arch) : Detection * Detection * (Detection * Detection) :=
  match arch with
  | X86_64 => detect
  | _ => (Unknown, Unknown, (Unknown, Unknown))
  end.

Definition detect_trustzone (arch : Arch) : Detection :=
  match arch with Aarch64 => Unknown | _ => Unknown end.

Definition detect_secure_enclave (arch : Arch) (os : TargetOs) : Detection :=
  match os, arch with
  | Macos, Aarch64 => Detected
  | Macos, _ => NotDetected
  | _, _ => Unknown
  end.

Definition detect_nitro (os : TargetOs) : Detection :=
  match os with
  | Linux =>
      match sys_vendor with
      | Some vendor =>
          if eq_ignore_ascii_case (trim vendor) (chars "Amazon EC2") then Detected else NotDetected
      | None => Unknown
      end
  | _ => Unknown
  end.

Definition detect_tee_capabilities (arch : Arch) (os : TargetOs) : TeeCapabilities :=
  let '(sgx, tdx, (sev, sev_snp)) := detect_x86_64 arch in
  {| sgx := sgx; tdx := tdx; sev := sev; sev_snp := sev_snp;
     trustzone := detect_trustzone arch; secure_enclave := detect_secure_enclave arch os;
     nitro := detect_nitro os |}.
End detect.

(** ** Registers as words *)

(** A mask test is a bit test. *)
Lemma mask_bit x k : 0 <= k -> (Z.land x (Z.shiftl 1 k) =? 0) = negb (Z.testbit x k).
Proof.
  intros Hk. rewrite Z.shiftl_1_l. destruct (Z.testbit x k) eqn:E.
  - apply Z.eqb_neq. intros Hz. assert (Z.testbit (Z.land x (2 ^ k)) k = true) as Ht
      by (rewrite Z.land_spec, E, Z.pow2_bits_true by done; done).
    by rewrite Hz, Z.bits_0 in Ht.
  - apply Z.eqb_eq, Z.bits_inj'. intros n Hn. rewrite Z.land_spec, Z.bits_0, Z.pow2_bits_eqb by done.
    destruct (Z.eqb_spec k n) as [-> |]; [by rewrite E | by rewrite andb_false_r].
Qed.

Definition u32 (x : Z) : Prop := 0 <= x < 2 ^ 32.

Lemma le_bytes32_inj x y : u32 x -> u32 y -> to_le_bytes32 x = to_le_bytes32 y -> x = y.
Proof. intros Hx Hy E. rewrite <- (le_word32 x Hx), <- (le_word32 y Hy). unfold to_le_bytes32 in E. by rewrite E. Qed.

(** Three registers spell a text of twelve bytes exactly if they are its
    three little-endian words. *)
Lemma three_words b d c x y z :
  u32 b -> u32 d -> u32 c -> u32 x -> u32 y -> u32 z ->
  to_le_bytes32 b ++ to_le_bytes32 d ++ to_le_bytes32 c =
    to_le_bytes32 x ++ to_le_bytes32 y ++ to_le_bytes32 z <-> b = x /\ d = y /\ c = z.
Proof.
  intros. split; [| by intros (-> & -> & ->)]. intros E.
  assert (forall a, length (to_le_bytes32 a) = 4%nat) as Hl by (intros a; apply length_le_split).
  apply app_inj_1 in E as [E1 E]; [| by rewrite !Hl]. apply app_inj_1 in E as [E2 E3]; [| by rewrite !Hl].
  split_and!; by apply le_bytes32_inj.
Qed.

(** ** What is detected *)

Section spec.
Context `{Machine}.

(** CPUID fills [u32] registers. *)
Definition registers_ok : Prop := forall leaf sub,
  u32 (eax (cpuid_count leaf sub)) /\ u32 (ebx (cpuid_count leaf sub)) /\
  u32 (ecx (cpuid_count leaf sub)) /\ u32 (edx (cpuid_count leaf sub)).

Definition vendor_is (b d c : Z) : Prop :=
  ebx (cpuid_count 0 0) = b /\ edx (cpuid_count 0 0) = d /\ ecx (cpuid_count 0 0) = c.
Definition intel : Prop := vendor_is 0x756e6547 0x49656e69 0x6c65746e.
Definition amd : Prop := vendor_is 0x68747541 0x69746e65 0x444d4163.

#[export] Instance intel_dec : Decision intel.
Proof. unfold intel, vendor_is. apply _. Defined.
#[export] Instance amd_dec : Decision amd.
Proof. unfold amd, vendor_is. apply _. Defined.

Definition found (P : Prop) `{Decision P} : Detection := if decide P then Detected else NotDetected.

Lemma is_intel_iff : registers_ok -> is_intel vendor_string = true <-> intel.
Proof.
  intros Hr. destruct (Hr 0 0) as (_ & Hb & Hc & Hd). unfold is_intel, vendor_string, intel, vendor_is.
  rewrite bool_decide_eq_true, <- (three_words _ _ _ 0x756e6547 0x49656e69 0x6c65746e) by done. done.
Qed.

Lemma is_amd_iff : registers_ok -> is_amd vendor_string = true <-> amd.
Proof.
  intros Hr. destruct (Hr 0 0) as (_ & Hb & Hc & Hd). unfold is_amd, vendor_string, amd, vendor_is.
  rewrite bool_decide_eq_true, <- (three_words _ _ _ 0x68747541 0x69746e65 0x444d4163) by done. done.
Qed.

Lemma found_true (P : Prop) `{Decision P} : P -> found P = Detected.
Proof. intros. unfold found. by rewrite decide_True. Qed.
Lemma found_false (P : Prop) `{Decision P} : ~ P -> found P = NotDetected.
Proof. intros. unfold found. by rewrite decide_False. Qed.

Lemma mask_found x k : 0 <= k ->
  (if negb (Z.land x (Z.shiftl 1 k) =? 0) then Detected else NotDetected) = found (Z.testbit x k = true).
Proof.
  intros Hk. rewrite mask_bit, negb_involutive by done. unfold found.
  destruct (Z.testbit x k); [by rewrite decide_True | by rewrite decide_False].
Qed.

(** Trimming takes the white space off both ends and nothing else. *)
Lemma trim_start_spec s : exists w, s = w ++ trim_start s /\ Forall (fun c => is_whitespace c = true) w /\
  forall c, head (trim_start s) = Some c -> is_whitespace c = false.
Proof.
  induction s as [| c s (w & E & Hw & Hh)]; [by exists [] |]. cbn. destruct (is_whitespace c) eqn:Ec.
  - exists (c :: w). cbn. split_and!; [by f_equal | by constructor | done].
  - exists []. split_and!; [done | done |]. cbn. by intros c' [= <-].
Qed.

Lemma trim_spec s : exists w1 w2, s = w1 ++ trim s ++ w2 /\
  Forall (fun c => is_whitespace c = true) (w1 ++ w2) /\
  (forall c, head (trim s) = Some c -> is_whitespace c = false) /\
  (forall c, last (trim s) = Some c -> is_whitespace c = false).
Proof.
  destruct (trim_start_spec s) as (w1 & E1 & Hw1 & Hh1).
  destruct (trim_start_spec (rev (trim_start s))) as (w2 & E2 & Hw2 & Hh2).
  exists w1, (rev w2). apply (f_equal (@rev Z)) in E2. rewrite rev_involutive, rev_app_distr in E2.
  fold (trim s) in E2. split_and!.
  - by rewrite <- E2.
  - apply Forall_app. split; [done |]. by apply Forall_rev.
  - intros c Hc. apply Hh1. rewrite E2. destruct (trim s); [done | exact Hc].
  - intros c Hc. apply Hh2. unfold trim in Hc. destruct (trim_start (rev (trim_start s))) as [| x l]; [done |].
    cbn in Hc. rewrite last_snoc in Hc. exact Hc.
Qed.

Lemma trim_start_app w s :
  Forall (fun c => is_whitespace c = true) w -> (forall c, head s = Some c -> is_whitespace c = false) ->
  trim_start (w ++ s) = s.
Proof.
  intros Hw Hs. induction Hw as [| c w Hc _ IH]; cbn; [| by rewrite Hc].
  destruct s as [| c s]; [done |]. cbn. by rewrite (Hs c eq_refl).
Qed.

Lemma trim_unique w1 name w2 :
  Forall (fun c => is_whitespace c = true) (w1 ++ w2) -> name <> [] ->
  (forall c, head name = Some c -> is_whitespace c = false) ->
  (forall c, last name = Some c -> is_whitespace c = false) -> trim (w1 ++ name ++ w2) = name.
Proof.
  intros [H1' H2']%Forall_app Hne Hh Hl. unfold trim. rewrite (trim_start_app w1); [| done |].
  - rewrite rev_app_distr, trim_start_app; [apply rev_involutive | by apply Forall_rev |].
    intros c Hc. apply Hl. revert Hc. destruct name as [| x l _] using rev_ind; [done |].
    by rewrite rev_app_distr, last_snoc.
  - intros c Hc. apply Hh. destruct name; [done | exact Hc].
Qed.

Lemma land_found (P Q : Prop) `{Decision P, Decision Q} :
  (if decide P then found Q else NotDetected) = found (P /\ Q).
Proof. unfold found. repeat case_decide; tauto. Qed.

Lemma detect_sgx_spec max : detect_sgx max = found (7 <= max /\ Z.testbit (ebx (cpuid_count 7 0)) 2 = true).
Proof.
  unfold detect_sgx. rewrite mask_found by done. unfold found. case_test; tests; repeat case_decide; tauto || lia.
Qed.

Lemma detect_tdx_spec max : registers_ok ->
  detect_tdx vendor_string max = found (intel /\ 0x21 <= max /\ ebx (cpuid_count 0x21 0) = 0x65746e49 /\
    edx (cpuid_count 0x21 0) = 0x5844546c /\ ecx (cpuid_count 0x21 0) = 0x20202020).
Proof.
  intros Hr. destruct (Hr 0x21 0) as (_ & Hb & Hc & Hd). unfold detect_tdx.
  rewrite (bool_decide_ext _ (ebx (cpuid_count 0x21 0) = 0x65746e49 /\
    edx (cpuid_count 0x21 0) = 0x5844546c /\ ecx (cpuid_count 0x21 0) = 0x20202020))
    by (apply (three_words _ _ _ 0x65746e49 0x5844546c 0x20202020); done).
  pose proof (is_intel_iff Hr) as Hi. unfold found.
  destruct (is_intel vendor_string); cbn [negb]; [| rewrite decide_False; [done | intros [? _]; by apply Hi in H0]].
  case_test; tests; [rewrite decide_False; [done | lia] |].
  case_bool_decide; case_decide; tauto.
Qed.

Lemma detect_sev_spec : registers_ok ->
  let leaf := cpuid_count 0x8000001f 0 in let ext := eax (cpuid_count 0x80000000 0) in
  detect_sev vendor_string =
    (found (amd /\ 0x8000001f <= ext /\ Z.testbit (eax leaf) 1 = true),
     found (amd /\ 0x8000001f <= ext /\ Z.testbit (eax leaf) 4 = true)).
Proof.
  intros Hr leaf ext. unfold detect_sev. rewrite !mask_found by done. pose proof (is_amd_iff Hr) as Ha. unfold found.
  destruct (is_amd vendor_string); cbn [negb].
  - case_test; tests; repeat case_decide; intuition lia.
  - assert (~ amd) by (by intros ?%Ha). repeat case_decide; tauto.
Qed.

Lemma vendors_differ : intel -> amd -> False.
Proof. intros (H1' & _) (H2' & _). congruence. Qed.

(** The vendor text names the vendor, up to white space around it and case. *)
Definition names (vendor : list Z) (name : string) : Prop := exists w1 text w2,
  vendor = w1 ++ text ++ w2 /\ Forall (fun c => is_whitespace c = true) (w1 ++ w2) /\
  (to_ascii_lowercase <$> text) = chars name.

Lemma lower_head (text : list Z) (name : list Z) (f : list Z -> option Z) :
  (forall l, f (to_ascii_lowercase <$> l) = to_ascii_lowercase <$> f l) ->
  (to_ascii_lowercase <$> text) = name -> (forall c, f name = Some c -> 97 <= c <= 122 \/ 48 <= c <= 57) ->
  forall c, f text = Some c -> is_whitespace c = false.
Proof.
  intros Hf E Hn c Hc. specialize (Hn (to_ascii_lowercase c)). rewrite <- E, Hf, Hc in Hn. specialize (Hn eq_refl).
  destruct (is_whitespace c) eqn:Ew; [| done]. unfold is_whitespace in Ew. unfold to_ascii_lowercase in Hn.
  revert Hn. case_test; tests; intros Hn; repeat (apply orb_true_iff in Ew as [Ew | Ew]);
    repeat (apply andb_true_iff in Ew as [Ew ?]); tests; lia.
Qed.

Lemma nitro_names vendor :
  eq_ignore_ascii_case (trim vendor) (chars "Amazon EC2") = true <-> names vendor "amazon ec2".
Proof.
  unfold eq_ignore_ascii_case. rewrite bool_decide_eq_true. change (to_ascii_lowercase <$> chars "Amazon EC2") with (chars "amazon ec2").
  split.
  - intros E. destruct (trim_spec vendor) as (w1 & w2 & Ev & Hw & _). by exists w1, (trim vendor), w2.
  - intros (w1 & text & w2 & -> & Hw & E). rewrite trim_unique; [done | done | | |].
    + intros ->. by vm_compute in E.
    + apply (lower_head text _ head) with (2 := E); [by intros [] |]. intros c [= <-]. lia.
    + apply (lower_head text _ last) with (2 := E); [intros l; apply fmap_last |]. intros c [= <-]. lia.
Qed.

(** C40: What the probes decide, field by field.  On x86_64 each field is the
    CPUID bit or signature, read as whole registers, under the vendor and
    leaf-range guards; elsewhere Unknown.  No machine has both TDX and SEV.
    Secure Enclave depends on the platform only; Nitro on the vendor text up
    to surrounding white space and ASCII case.  (The signature's registers
    are EBX, EDX, ECX.) *)
Theorem detect_tee_spec (arch : Arch) (os : TargetOs) : registers_ok ->
  let c := detect_tee_capabilities arch os in
  let leaf7 := cpuid_count 7 0 in let leaf21 := cpuid_count 0x21 0 in
  let leafsev := cpuid_count 0x8000001f 0 in
  let max := eax (cpuid_count 0 0) in let ext := eax (cpuid_count 0x80000000 0) in
  (arch = X86_64 ->
     sgx c = found (7 <= max /\ Z.testbit (ebx leaf7) 2 = true) /\
     tdx c = found (intel /\ 0x21 <= max /\
       ebx leaf21 = 0x65746e49 /\ edx leaf21 = 0x5844546c /\ ecx leaf21 = 0x20202020) /\
     sev c = found (amd /\ 0x8000001f <= ext /\ Z.testbit (eax leafsev) 1 = true) /\
     sev_snp c = found (amd /\ 0x8000001f <= ext /\ Z.testbit (eax leafsev) 4 = true)) /\
  (arch <> X86_64 -> sgx c = Unknown /\ tdx c = Unknown /\ sev c = Unknown /\ sev_snp c = Unknown) /\
  ~ (tdx c = Detected /\ sev c = Detected) /\
  trustzone c = Unknown /\
  secure_enclave c = (if decide (os = Macos) then found (arch = Aarch64) else Unknown) /\
  match os, sys_vendor with
  | Linux, Some vendor => (nitro c = Detected <-> names vendor "amazon ec2") /\ nitro c <> Unknown
  | _, _ => nitro c = Unknown
  end.
Proof.
  intros Hr c leaf7 leaf21 leafsev max ext. unfold c, detect_tee_capabilities, detect_x86_64, detect. split_and!.
  - intros ->. rewrite (surjective_pairing (detect_sev _)). cbn [sgx tdx sev sev_snp].
    rewrite detect_sgx_spec, detect_tdx_spec, detect_sev_spec by done. done.
  - intros Ha. by destruct arch.
  - destruct arch; [| by intros []..]. rewrite (surjective_pairing (detect_sev _)). cbn [tdx sev].
    rewrite detect_tdx_spec, detect_sev_spec by done. unfold found. cbn [fst].
    repeat case_decide; try by intros []. intros _.
    by apply (vendors_differ ltac:(tauto) ltac:(tauto)).
  - by destruct arch, (detect_sev vendor_string) as [].
  - by destruct arch, os, (detect_sev vendor_string) as [].
  - assert (nitro (let '(sgx, tdx, (sev, sev_snp)) :=
        match arch with X86_64 => (detect_sgx (eax (cpuid_count 0 0)), detect_tdx vendor_string (eax (cpuid_count 0 0)),
          detect_sev vendor_string) | _ => (Unknown, Unknown, (Unknown, Unknown)) end in
        {| sgx := sgx; tdx := tdx; sev := sev; sev_snp := sev_snp; trustzone := detect_trustzone arch;
           secure_enclave := detect_secure_enclave arch os; nitro := detect_nitro os |}) = detect_nitro os) as ->
      by (by destruct arch, (detect_sev vendor_string) as []).
    unfold detect_nitro. destruct os; [| done..]. destruct sys_vendor as [vendor |]; [| done].
    rewrite <- nitro_names. by destruct (eq_ignore_ascii_case _ _).
Qed.
End spec.

(** ** Witness *)

Module IntelMachine.
(** An Intel machine with SGX, on EC2. *)
#[global] Instance machine : Machine := {|
  cpuid_count leaf _ :=
    if leaf =? 0 then {| eax := 0x1b; ebx := 0x756e6547; ecx := 0x6c65746e; edx := 0x49656e69 |}
    else if leaf =? 7 then {| eax := 0; ebx := 4; ecx := 0; edx := 0 |}
    else {| eax := 0; ebx := 0; ecx := 0; edx := 0 |};
  sys_vendor := Some (chars "Amazon EC2 ")
|}.

Lemma registers : registers_ok.
Proof. intros leaf sub. cbn. unfold u32. destruct (leaf =? 0), (leaf =? 7); cbn; lia. Defined.
End IntelMachine.

Lemma detect_tee_spec_witness :
  let c := detect_tee_capabilities X86_64 Linux in
  sgx c = found (7 <= 0x1b /\ Z.testbit 4 2 = true) /\ (nitro c = Detected <-> names (chars "Amazon EC2 ") "amazon ec2").
Proof.
  destruct (detect_tee_spec X86_64 Linux IntelMachine.registers) as (Hx & _ & _ & _ & _ & Hn).
  split; [apply (Hx eq_refl) | apply Hn].
Defined.
