(* ===== verification/Fetchers.v ===== *)
(** * Key acquisition ([fetcher/mod.rs], [env.rs], [keychain.rs], [tpm.rs])

    The [KeyFetch] interface and the fetchers that read one value from
    outside: the environment, the OS keychain, the TPM placeholder.  Strings
    are the bytes of their UTF-8 text.  A run keeps the contents of every
    buffer this code frees, so that wiping can be stated. *)

From S2P Require Import Prelude Errors Rust RawKey.

(** ** The interface *)

Record FetchContext := { key_name : string }.
Definition FetchContext_new (key_name : string) : FetchContext := {| key_name := key_name |}.

(** The outside world, and what the freed buffers held when they were
    freed. *)
Record Residue (W : Type) := { freed : list (list byte); outside : W }.
Arguments freed {W}.
Arguments outside {W}.

Section residue.
Context {W : Type}.

Definition on_outside {A} (m : M W A) : M (Residue W) A :=
  zoom outside (fun w s => {| freed := freed s; outside := w |}) m.

(** Give a buffer with these contents back to the allocator. *)
Definition free_buffer (contents : list byte) : M (Residue W) unit :=
  modify (fun s => {| freed := contents :: freed s; outside := outside s |}).

(** [Zeroize] a buffer, then drop it. *)
Definition wipe_and_free (contents : list byte) : M (Residue W) unit := free_buffer (zeros (zlen contents)).
End residue.

Class KeyFetch (W F : Type) := {
  fetch : F -> FetchContext -> M (Residue W) RawKey.t;
  describe : F -> string
}.

(** The contract: a failure is an [Acquisition] error whose source is the
    fetcher's description. *)
Class LawfulFetch {W F : Type} `{KeyFetch W F} (self : F) : Prop :=
  lawful_fetch ctx s :
    match fetch (W := W) self ctx s with
    | (Err e, _) => exists reason, e = Error.Acquisition (describe (W := W) self) reason
    | _ => True
    end.

(** ** UTF-8 ([String::from_utf8], [OsString::into_string]) *)

Definition in_range (lo hi : Z) (b : byte) : bool := (lo <=? byte.unsigned b) && (byte.unsigned b <=? hi).
Definition continuation : byte -> bool := in_range 0x80 0xbf.

(** The well-formed byte sequences: the second byte's range depends on the
    first, so that no encoding is overlong, a surrogate or above U+10FFFF. *)
Definition second_ok2 (b : byte) : bool := in_range 0xc2 0xdf b.
Definition second_ok3 (b c : byte) : bool :=
  (in_range 0xe0 0xe0 b && in_range 0xa0 0xbf c) || (in_range 0xe1 0xec b && continuation c)
  || (in_range 0xed 0xed b && in_range 0x80 0x9f c) || (in_range 0xee 0xef b && continuation c).
Definition second_ok4 (b c : byte) : bool :=
  (in_range 0xf0 0xf0 b && in_range 0x90 0xbf c) || (in_range 0xf1 0xf3 b && continuation c)
  || (in_range 0xf4 0xf4 b && in_range 0x80 0x8f c).

Fixpoint utf8_valid (bs : list byte) : bool :=
  match bs with
  | [] => true
  | b :: r =>
      if in_range 0 0x7f b then utf8_valid r else
      match r with
      | [] => false
      | c :: r =>
          if second_ok2 b then continuation c && utf8_valid r else
          match r with
          | [] => false
          | d :: r =>
              if second_ok3 b c then continuation d && utf8_valid r else
              match r with
              | [] => false
              | e :: r => second_ok4 b c && continuation d && continuation e && utf8_valid r
              end
          end
      end
  end.

(** ** [EnvFetch] *)

Record EnvFetch := { var_name : string }.
Definition EnvFetch_new (var_name : string) : EnvFetch := {| var_name := var_name |}.

(** [std::env::var_os]. *)
Class Environment (W : Type) := { var_os : string -> W -> option (list byte) * W }.

Section env.
Context {W : Type} `{Environment W}.

Definition env_fetch (self : EnvFetch) (_ : FetchContext) : M (Residue W) RawKey.t :=
  let! value := on_outside (ask (var_os (var_name self))) in
  match value with
  | None => fail (Error.Acquisition "env" ("environment variable " +:+ var_name self +:+ " is not set"))
  | Some value =>
      if utf8_valid value then ret (RawKey.new value)
      else
        do! wipe_and_free value in
        fail (Error.Acquisition "env"
          ("environment variable " +:+ var_name self +:+ " contained non-UTF-8 bytes"))
  end.

#[export] Instance env_key_fetch : KeyFetch W EnvFetch := {| fetch := env_fetch; describe := fun _ => "env"%string |}.
End env.

(** ** [KeychainFetch] *)

Record KeychainFetch := { service : string; account : string; binary : bool }.
Definition KeychainFetch_new (service account : string) : KeychainFetch :=
  {| service := service; account := account; binary := false |}.
Definition keychain_binary (self : KeychainFetch) : KeychainFetch :=
  {| service := service self; account := account self; binary := true |}.

(** [keyring::Error], as far as the code looks: what the variants carry that
    the code prints or wipes. *)
Inductive KeyringError :=
| NoEntry
| BadEncoding (bytes : list byte)
| TooLong (field : string)
| Invalid (field : string)
| PlatformFailure
| NoStorageAccess
| Ambiguous
| OtherKeyringError.

(** The [keyring] crate: opening an entry, and reading it as a password
    (whose text is UTF-8) or as raw bytes. *)
Class Keyring (W : Type) := {
  entry_t : Type;
  entry_new : string -> string -> W -> (entry_t + KeyringError) * W;
  get_password : entry_t -> W -> (list byte + KeyringError) * W;
  get_secret : entry_t -> W -> (list byte + KeyringError) * W
}.

Definition redact_keyring_error (e : KeyringError) : string :=
  match e with
  | NoEntry => "no such entry"
  | BadEncoding _ => "stored value is not UTF-8"
  | TooLong field => field +:+ " too long for platform"
  | Invalid field => "invalid " +:+ field
  | PlatformFailure => "platform-specific keyring failure"
  | NoStorageAccess => "keyring service inaccessible"
  | Ambiguous => "multiple matching entries (ambiguous)"
  | OtherKeyringError => "keyring error"
  end.

Section keychain.
Context {W : Type} `{Keyring W}.

(** The two error closures. *)
Definition entry_error (verb : string) (self : KeychainFetch) (e : KeyringError) : Error.t :=
  Error.Acquisition "keychain"
    ("could not " +:+ verb +:+ " keychain entry " +:+ service self +:+ "/" +:+ account self +:+ ": "
     +:+ redact_keyring_error e).

Definition keychain_fetch (self : KeychainFetch) (_ : FetchContext) : M (Residue W) RawKey.t :=
  let! entry := on_outside (ask (entry_new (service self) (account self))) in
  match entry with
  | inr e => fail (entry_error "open" self e)
  | inl entry =>
      if binary self then
        let! value := on_outside (ask (get_secret entry)) in
        match value with
        | inl value => ret (RawKey.new value)
        | inr (BadEncoding bytes as e) => do! free_buffer bytes in fail (entry_error "read" self e)
        | inr e => fail (entry_error "read" self e)
        end
      else
        let! value := on_outside (ask (get_password entry)) in
        match value with
        | inl value => ret (RawKey.new value)
        | inr (BadEncoding bytes as e) => do! wipe_and_free bytes in fail (entry_error "read" self e)
        | inr e => fail (entry_error "read" self e)
        end
  end.

#[export] Instance keychain_key_fetch : KeyFetch W KeychainFetch :=
  {| fetch := keychain_fetch; describe := fun _ => "keychain"%string |}.
End keychain.

(** ** [TpmFetch]: a placeholder that always fails. *)

Inductive TpmFetch := Tpm.

Definition tpm_reason : string :=
  "TPM 2.0 acquisition is not implemented in key-vault (TpmFetch is a placeholder); use another fetcher.".

Definition tpm_fetch {W} (_ : TpmFetch) (_ : FetchContext) : M (Residue W) RawKey.t :=
  fail (Error.Acquisition "tpm" tpm_reason).

#[export] Instance tpm_key_fetch {W} : KeyFetch W TpmFetch := {| fetch := tpm_fetch; describe := fun _ => "tpm"%string |}.

(** ** The fetchers meet the contract *)

#[export] Instance env_lawful {W} `{Environment W} (self : EnvFetch) : LawfulFetch (W := W) self.
Proof.
  intros ctx s. cbn [fetch env_key_fetch describe]. unfold env_fetch, bind, on_outside, zoom, ask.
  destruct (var_os _ _) as [[value |] w]; cbn; [| by eexists].
  destruct (utf8_valid value); [done | by eexists].
Qed.

#[export] Instance keychain_lawful {W} `{Keyring W} (self : KeychainFetch) : LawfulFetch (W := W) self.
Proof.
  intros ctx s. cbn [fetch keychain_key_fetch describe]. unfold keychain_fetch, bind, on_outside, zoom, ask.
  destruct (entry_new _ _ _) as [[entry | e] w]; [| by eexists]. destruct (binary self).
  - destruct (get_secret entry _) as [[value | []] w']; cbn; by eexists.
  - destruct (get_password entry _) as [[value | []] w']; cbn; by eexists.
Qed.

#[export] Instance tpm_lawful {W} (self : TpmFetch) : LawfulFetch (W := W) self.
Proof. intros ctx s. by eexists. Qed.

(** A run that leaves only zeros in the buffers it frees. *)
Definition leaves_nothing {W A} (m : M (Residue W) A) : Prop := forall s,
  Forall (Forall (eq Byte.x00)) (freed s) -> Forall (Forall (eq Byte.x00)) (freed (snd (m s))).

Section leaves.
Context {W : Type}.

Lemma leaves_bind {A B} (m : M (Residue W) A) (k : A -> M (Residue W) B) :
  leaves_nothing m -> (forall a, leaves_nothing (k a)) -> leaves_nothing (bind m k).
Proof.
  intros Hm Hk s Hs. specialize (Hm s Hs). unfold bind. destruct (m s) as [[a | e | |] s']; [| done..].
  by apply Hk.
Qed.

Lemma leaves_ret {A} (a : A) : leaves_nothing (W := W) (ret a).
Proof. by intros s. Qed.
Lemma leaves_fail {A} e : leaves_nothing (W := W) (A := A) (fail e).
Proof. by intros s. Qed.
Lemma leaves_panic {A} : leaves_nothing (W := W) (A := A) panic.
Proof. by intros s. Qed.
Lemma leaves_outside {A} (m : M W A) : leaves_nothing (on_outside m).
Proof. intros s Hs. unfold on_outside, zoom. by destruct (m (outside s)). Qed.
Lemma leaves_wiped bs : leaves_nothing (W := W) (wipe_and_free bs).
Proof. intros s Hs. cbn. constructor; [| done]. unfold zeros. by apply Forall_replicate. Qed.
Lemma leaves_if {A} (b : bool) (m n : M (Residue W) A) :
  leaves_nothing m -> leaves_nothing n -> leaves_nothing (if b then m else n).
Proof. by destruct b. Qed.
End leaves.

#[export] Hint Resolve leaves_bind leaves_ret leaves_fail leaves_panic leaves_outside leaves_wiped leaves_if : kv.

Lemma env_leaves_nothing {W} `{Environment W} (self : EnvFetch) ctx : leaves_nothing (fetch (W := W) self ctx).
Proof.
  cbn. unfold env_fetch. apply leaves_bind; [auto with kv |]. intros [value |]; [| auto with kv].
  apply leaves_if; [| apply leaves_bind; [| intros _]]; auto with kv.
Qed.

(** [Entry::get_secret] does not decode, so it reports no bad encoding. *)
Definition secret_not_decoded {W} `{Keyring W} : Prop := forall entry w bytes w',
  get_secret entry w <> (inr (BadEncoding bytes), w').

Lemma keychain_leaves_nothing {W} `{Keyring W} (self : KeychainFetch) ctx :
  secret_not_decoded (W := W) -> leaves_nothing (fetch (W := W) self ctx).
Proof.
  intros Hs. cbn. unfold keychain_fetch. apply leaves_bind; [auto with kv |]. intros [entry | e]; [| auto with kv].
  apply leaves_if.
  - intros s Hz. unfold bind, on_outside, zoom, ask. specialize (Hs entry (outside s)).
    destruct (get_secret entry (outside s)) as [[value | []] w']; try done. by edestruct Hs.
  - apply leaves_bind; [auto with kv |]. intros [value | []]; auto with kv.
Qed.
