(* ===== verification/FileFetch.v ===== *)
(** * Reading a key file ([fetcher/file.rs])

    The file is opened once; its mode and owner, and the directories on its
    path, are checked; then it is read into a buffer that is wiped whenever
    it is given up.  Every question to the file system is a step that may
    find a changed world. *)

From S2P Require Import Prelude Errors Rust RawKey Fetchers.

(** ** The file system ([std::fs], [std::path]) *)

Inductive ErrorKind := Interrupted | OtherKind (name : string).

(** [{:?}] of an [ErrorKind]. *)
Definition kind_debug (k : ErrorKind) : string :=
  match k with Interrupted => "Interrupted" | OtherKind name => name end.

Record Metadata := { mode : Z; uid : Z; dev : Z; ino : Z; m_len : Z }.

#[export] Instance metadata_eq_dec : EqDecision Metadata.
Proof. solve_decision. Defined.

(** An absolute path without [.], [..] or symbolic links: its components. *)
Abbreviation resolved_path := (list string).

Definition join_path (cs : resolved_path) : string := "/" +:+ String.concat "/" cs.

(** [Path::parent] and [Path::ancestors().skip(1)] of such a path. *)
Definition parent (cs : resolved_path) : option resolved_path :=
  match cs with [] => None | _ => Some (removelast cs) end.
Definition proper_ancestors (cs : resolved_path) : list resolved_path :=
  (fun n => take n cs) <$> rev (seq 0 (length cs)).

Class FileSystem (W : Type) := {
  file_t : Type;
  file_open : string -> W -> (file_t + ErrorKind) * W;
  fstat : file_t -> W -> (Metadata + ErrorKind) * W;
  stat : resolved_path -> W -> (Metadata + ErrorKind) * W;
  canonicalize : string -> W -> (resolved_path + ErrorKind) * W;
  absolute : string -> W -> option resolved_path * W;
  geteuid : Z;
  read : file_t -> Z -> W -> (list byte + ErrorKind) * W
}.

(** [{:o}]. *)
Definition digit (n : Z) : Ascii.ascii := Ascii.ascii_of_N (Z.to_N (48 + n)).
Fixpoint octal_loop (fuel : nat) (n : Z) (acc : string) : string :=
  match fuel with
  | O => acc
  | S fuel' =>
      let acc := String (digit (n mod 8)) acc in
      if n <? 8 then acc else octal_loop fuel' (n / 8) acc
  end.
(** A [u32] has at most eleven octal digits. *)
Definition octal (n : Z) : string := octal_loop 11 n EmptyString.

(** ** [FileFetch] *)

Record FileFetch := { path : string; strict_perms : bool; check_dirs : bool }.

Definition FileFetch_new (path : string) : FileFetch :=
  {| path := path; strict_perms := true; check_dirs := true |}.
Definition allow_loose_perms (self : FileFetch) : FileFetch :=
  {| path := path self; strict_perms := false; check_dirs := check_dirs self |}.
Definition skip_directory_check (self : FileFetch) : FileFetch :=
  {| path := path self; strict_perms := strict_perms self; check_dirs := false |}.

Record Checks := { ck_file : bool; ck_dirs : bool }.
Definition Checks_NONE : Checks := {| ck_file := false; ck_dirs := false |}.

Definition io_failure_message (path : string) (e : ErrorKind) : string :=
  "failed to read " +:+ path +:+ ": " +:+ kind_debug e.
Definition io_error (path : string) (e : ErrorKind) : Error.t :=
  Error.Acquisition "file" (io_failure_message path e).
Definition rejected (reason : string) : Error.t := Error.Acquisition "file" reason.

Section fetch.
Context {W : Type} `{FileSystem W}.

(** A fallible question to the file system, its error reported for [path]. *)
Definition io {A} (path : string) (q : W -> (A + ErrorKind) * W) : M (Residue W) A :=
  let! r := on_outside (ask q) in
  match r with inl a => ret a | inr e => fail (io_error path e) end.

Definition check_owner (owner euid : Z) (what kind : string) : M (Residue W) unit :=
  if (owner =? euid) || (owner =? 0) then ret tt
  else fail (rejected (kind +:+ " " +:+ what +:+ " is owned by uid " +:+ pretty owner +:+ "; expected uid "
    +:+ pretty euid +:+ " (the process user) or root")).

Definition check_directory (dir : resolved_path) (euid : Z) : M (Residue W) unit :=
  let! meta := io (join_path dir) (stat dir) in
  do! check_owner (uid meta) euid (join_path dir) "directory" in
  let mode := mode meta in
  let writable_by_others := negb (Z.land mode 0x12 (* 0o022 *) =? 0) in
  let sticky := negb (Z.land mode 0x200 (* 0o1000 *) =? 0) in
  if writable_by_others && negb sticky
  then fail (rejected ("directory " +:+ join_path dir +:+ " is writable by group or others (mode "
    +:+ octal (Z.land mode 0xfff (* 0o7777 *)) +:+ "), so the key file could be replaced"))
  else ret tt.

Definition check_directories (path : string) (opened : Metadata) (euid : Z) : M (Residue W) unit :=
  let! resolved := io path (canonicalize path) in
  let! current := io path (stat resolved) in
  if negb ((dev current =? dev opened) && (ino current =? ino opened))
  then fail (rejected (path +:+ " changed while it was being checked")) else
  do! for_each (proper_ancestors resolved) (fun dir => check_directory dir euid) in
  let! given := on_outside (ask (absolute path)) in
  match given ≫= parent with
  | Some given_parent =>
      if negb (bool_decide (Some given_parent = parent resolved))
      then check_directory given_parent euid else ret tt
  | None => ret tt
  end.

(** [check_perms] on Unix; elsewhere it is [ret tt]. *)
Definition check_perms (file : file_t) (path : string) (check_dirs : bool) : M (Residue W) unit :=
  let! meta := io path (fstat file) in
  let mode := mode meta in
  if negb (Z.land mode 0x3f (* 0o077 *) =? 0)
  then fail (rejected (path +:+ " is too permissive (mode " +:+ octal (Z.land mode 0x1ff (* 0o777 *))
    +:+ "); expected 0600 or stricter")) else
  do! check_owner (uid meta) geteuid path "file" in
  if check_dirs then check_directories path meta geteuid else ret tt.

(** The growth step of [read_wiping]: the old buffer is wiped, also when the
    new one is too large to exist. *)
Definition grow_buffer (buf : list byte) (filled : Z) : M (Residue W) (list byte) :=
  let new_len := Z.max (saturating_mul (zlen buf) 2) 64 in
  if isize_max <? new_len then do! wipe_and_free buf in panic else
  let! bigger := vec_zeroed new_len in
  let! old := slice buf 0 filled in
  let! bigger := copy_into bigger 0 filled old in
  do! wipe_and_free buf in
  ret bigger.

(** The loop of [read_wiping]. *)
Fixpoint read_loop (fuel : nat) (path : string) (file : file_t) (buf : list byte) (filled : Z)
    : M (Residue W) RawKey.t :=
  match fuel with
  | O => diverge
  | S fuel' =>
      let! buf := if filled =? zlen buf then grow_buffer buf filled else ret buf in
      let! r := on_outside (ask (read file (zlen buf - filled))) in
      match r with
      | inl [] => ret (RawKey.new (take (Z.to_nat filled) buf))
      | inl bs =>
          let! buf := copy_into buf filled (filled + zlen bs) bs in
          read_loop fuel' path file buf (filled + zlen bs)
      | inr Interrupted => read_loop fuel' path file buf filled
      | inr e => do! wipe_and_free buf in fail (io_error path e)
      end
  end.

Definition read_wiping (fuel : nat) (file : file_t) (hint : Z) (path : string) : M (Residue W) RawKey.t :=
  let! buf := vec_zeroed (saturating_add hint 1) in
  read_loop fuel path file buf 0.

Definition read_to_end_wiping (fuel : nat) (file : file_t) (path : string) : M (Residue W) RawKey.t :=
  let! meta := on_outside (ask (fstat file)) in
  let hint := match meta with inl m => m_len m | inr _ => 0 end in
  read_wiping fuel file hint path.

Definition read_checked (fuel : nat) (file : file_t) (path : string) (checks : Checks) : M (Residue W) RawKey.t :=
  do! (if ck_file checks then check_perms file path (ck_dirs checks) else ret tt) in
  read_to_end_wiping fuel file path.

Definition file_fetch (fuel : nat) (self : FileFetch) (_ : FetchContext) : M (Residue W) RawKey.t :=
  let! file := io (path self) (file_open (path self)) in
  let checks :=
    if strict_perms self then {| ck_file := true; ck_dirs := check_dirs self |} else Checks_NONE in
  read_checked fuel file (path self) checks.

#[export] Instance file_key_fetch (fuel : nat) : KeyFetch W FileFetch :=
  {| fetch := file_fetch fuel; describe := fun _ => "file"%string |}.
End fetch.

(** ** Errors and wiping *)

(** Every error is an [Acquisition] error of the source. *)
Definition fails_as {S A} (source : string) (m : M S A) : Prop := forall s,
  match m s with (Err e, _) => exists reason, e = Error.Acquisition source reason | _ => True end.

Section combinators.
Context {S : Type} (source : string).

Lemma fails_as_bind {A B} (m : M S A) (k : A -> M S B) :
  fails_as source m -> (forall a, fails_as source (k a)) -> fails_as source (bind m k).
Proof.
  intros Hm Hk s. specialize (Hm s). unfold bind. destruct (m s) as [[a | e | |] s']; [| done..]. apply Hk.
Qed.
Lemma fails_as_ret {A} (a : A) : fails_as (S := S) source (ret a).
Proof. by intros s. Qed.
Lemma fails_as_fail {A} reason : fails_as (S := S) (A := A) source (fail (Error.Acquisition source reason)).
Proof. intros s. by eexists. Qed.
Lemma fails_as_panic {A} : fails_as (S := S) (A := A) source panic.
Proof. by intros s. Qed.
Lemma fails_as_if {A} (b : bool) (m n : M S A) :
  fails_as source m -> fails_as source n -> fails_as source (if b then m else n).
Proof. by destruct b. Qed.
Lemma fails_as_for_each {A} (l : list A) (f : A -> M S unit) :
  (forall x, fails_as source (f x)) -> fails_as source (for_each l f).
Proof. intros Hf. induction l; [apply fails_as_ret |]. by apply fails_as_bind. Qed.
Lemma fails_as_slice {A} (l : list A) a b : fails_as (S := S) source (slice l a b).
Proof. intros s. unfold slice. by repeat case_match. Qed.
Lemma fails_as_copy {A} (l : list A) a b src : fails_as (S := S) source (copy_into l a b src).
Proof. intros s. unfold copy_into. by repeat case_match. Qed.
Lemma fails_as_zeroed n : fails_as (S := S) source (vec_zeroed n).
Proof. intros s. unfold vec_zeroed. by repeat case_match. Qed.
End combinators.

Lemma fails_as_outside {W A} source (q : W -> A * W) : fails_as source (on_outside (ask q)).
Proof. intros s. unfold on_outside, zoom, ask. by destruct (q _). Qed.
Lemma fails_as_wipe {W} source bs : fails_as source (wipe_and_free (W := W) bs).
Proof. by intros s. Qed.

Lemma leaves_for_each {W A} (l : list A) (f : A -> M (Residue W) unit) :
  (forall x, leaves_nothing (f x)) -> leaves_nothing (for_each l f).
Proof. intros Hf. induction l; [apply leaves_ret |]. by apply leaves_bind. Qed.
Lemma leaves_slice {W A} (l : list A) a b : leaves_nothing (W := W) (slice l a b).
Proof. intros s. unfold slice. by repeat case_match. Qed.
Lemma leaves_copy {W A} (l : list A) a b src : leaves_nothing (W := W) (copy_into l a b src).
Proof. intros s. unfold copy_into. by repeat case_match. Qed.
Lemma leaves_zeroed {W} n : leaves_nothing (W := W) (vec_zeroed n).
Proof. intros s. unfold vec_zeroed. by repeat case_match. Qed.

#[export] Hint Resolve fails_as_ret fails_as_fail fails_as_panic fails_as_if fails_as_for_each fails_as_slice
  fails_as_copy fails_as_zeroed fails_as_outside fails_as_wipe
  leaves_for_each leaves_slice leaves_copy leaves_zeroed : kv.

(** Walk through a computation. *)
Ltac walk_fails := repeat (apply fails_as_bind; [| intros]); repeat case_match; auto with kv.
Ltac walk_leaves := repeat (apply leaves_bind; [| intros]); repeat case_match; auto with kv.

Section lawful.
Context {W : Type} `{FileSystem W}.

Lemma io_spec {A} p (q : W -> (A + ErrorKind) * W) :
  fails_as "file" (io p q) /\ leaves_nothing (io p q).
Proof. split; unfold io; [walk_fails; try apply fails_as_fail | walk_leaves]. Qed.

Lemma check_owner_spec owner euid what kind :
  fails_as "file" (check_owner (W := W) owner euid what kind) /\ leaves_nothing (check_owner (W := W) owner euid what kind).
Proof. split; unfold check_owner; case_match; auto with kv. Qed.

Lemma check_directory_spec dir euid :
  fails_as "file" (check_directory (W := W) dir euid) /\ leaves_nothing (check_directory (W := W) dir euid).
Proof.
  split; unfold check_directory.
  - apply fails_as_bind; [apply io_spec | intros m]. apply fails_as_bind; [apply check_owner_spec | intros _].
    case_match; [apply fails_as_fail | auto with kv].
  - apply leaves_bind; [apply io_spec | intros m]. apply leaves_bind; [apply check_owner_spec | intros _].
    case_match; auto with kv.
Qed.

Lemma check_directories_spec p opened euid :
  fails_as "file" (check_directories (W := W) p opened euid) /\
  leaves_nothing (check_directories (W := W) p opened euid).
Proof.
  split; unfold check_directories.
  - do 2 (apply fails_as_bind; [apply io_spec | intros]). case_match; [apply fails_as_fail |].
    apply fails_as_bind; [apply fails_as_for_each; intros; apply check_directory_spec | intros _].
    apply fails_as_bind; [auto with kv | intros]. repeat case_match; auto with kv. apply check_directory_spec.
  - do 2 (apply leaves_bind; [apply io_spec | intros]). case_match; [auto with kv |].
    apply leaves_bind; [apply leaves_for_each; intros; apply check_directory_spec | intros _].
    apply leaves_bind; [auto with kv | intros]. repeat case_match; auto with kv. apply check_directory_spec.
Qed.

Lemma check_perms_spec f p dirs :
  fails_as "file" (check_perms (W := W) f p dirs) /\ leaves_nothing (check_perms (W := W) f p dirs).
Proof.
  split; unfold check_perms.
  - apply fails_as_bind; [apply io_spec | intros]. case_match; [apply fails_as_fail |].
    apply fails_as_bind; [apply check_owner_spec | intros]. case_match; [apply check_directories_spec | auto with kv].
  - apply leaves_bind; [apply io_spec | intros]. case_match; [auto with kv |].
    apply leaves_bind; [apply check_owner_spec | intros]. case_match; [apply check_directories_spec | auto with kv].
Qed.

Lemma grow_buffer_spec buf filled :
  fails_as "file" (grow_buffer (W := W) buf filled) /\ leaves_nothing (grow_buffer (W := W) buf filled).
Proof.
  split; unfold grow_buffer; case_match.
  - walk_fails.
  - walk_fails.
  - walk_leaves.
  - walk_leaves.
Qed.

Lemma read_loop_fails fuel p f buf filled :
  fails_as "file" (read_loop (W := W) fuel p f buf filled) /\ leaves_nothing (read_loop (W := W) fuel p f buf filled).
Proof.
  revert buf filled. induction fuel as [| fuel IH]; intros buf filled; [by split; intros s |]. cbn [read_loop]. split.
  - apply fails_as_bind; [apply fails_as_if; [apply grow_buffer_spec | auto with kv] | intros b].
    apply fails_as_bind; [auto with kv | intros [[| x bs] | []]]; auto with kv.
    + apply fails_as_bind; [auto with kv | intros]. apply IH.
    + apply IH.
    + apply fails_as_bind; [auto with kv | intros]. try apply fails_as_fail.
  - apply leaves_bind; [apply leaves_if; [apply grow_buffer_spec | auto with kv] | intros b].
    apply leaves_bind; [auto with kv | intros [[| x bs] | []]]; auto with kv.
    + apply leaves_bind; [auto with kv | intros]. apply IH.
    + apply IH.
Qed.

Lemma read_to_end_fails fuel f p :
  fails_as "file" (read_to_end_wiping (W := W) fuel f p) /\ leaves_nothing (read_to_end_wiping (W := W) fuel f p).
Proof.
  split; unfold read_to_end_wiping, read_wiping.
  - do 2 (apply fails_as_bind; [auto with kv | intros]). apply read_loop_fails.
  - do 2 (apply leaves_bind; [auto with kv | intros]). apply read_loop_fails.
Qed.

Lemma file_fetch_fails fuel (self : FileFetch) ctx :
  fails_as "file" (file_fetch (W := W) fuel self ctx) /\ leaves_nothing (file_fetch (W := W) fuel self ctx).
Proof.
  split; unfold file_fetch, read_checked.
  - apply fails_as_bind; [apply io_spec | intros]. apply fails_as_bind; [| intros; apply read_to_end_fails].
    case_match; [apply check_perms_spec | auto with kv].
  - apply leaves_bind; [apply io_spec | intros]. apply leaves_bind; [| intros; apply read_to_end_fails].
    case_match; [apply check_perms_spec | auto with kv].
Qed.
End lawful.

#[export] Instance file_lawful {W} `{FileSystem W} fuel (self : FileFetch) :
  LawfulFetch (W := W) (H := file_key_fetch fuel) self.
Proof.
  intros ctx s. destruct (file_fetch_fails (W := W) fuel self ctx) as [Hf _]. specialize (Hf s).
  cbn [fetch file_key_fetch describe]. destruct (file_fetch fuel self ctx s) as [[] ?]; done.
Qed.

(** ** Reading returns the file's content

    The documented behaviour of [Read]: a read returns at most what was asked
    for, [Ok(0)] only at the end, and interruptions change nothing.
    [pending] bounds how many reads a finite file can still answer. *)
Class ReadLaw (W : Type) `{FileSystem W} := {
  content : file_t -> W -> list byte;
  pending : file_t -> W -> nat;
  read_law f n w : 0 < n ->
    match read f n w with
    | (inl [], _) => content f w = []
    | (inl bs, w') => zlen bs <= n /\ content f w = bs ++ content f w' /\ (pending f w' < pending f w)%nat
    | (inr Interrupted, w') => content f w' = content f w /\ (pending f w' < pending f w)%nat
    | (inr (OtherKind _), _) => True
    end
}.

Section reading.
Context {W : Type} `{ReadLaw W}.

(** The largest file the theorems speak of. *)
Definition file_max : Z := 2 ^ 61.

Lemma grow_buffer_ok buf (s : Residue W) : zlen buf <= file_max ->
  exists bigger s', grow_buffer buf (zlen buf) s = (Ok bigger, s') /\ outside s' = outside s /\
    zlen bigger = Z.max (2 * zlen buf) 64 /\ take (length buf) bigger = buf.
Proof.
  intros Hb. pose proof (zlen_nonneg buf) as Hn. unfold file_max in Hb.
  assert (2 ^ 62 <= isize_max /\ isize_max <= usize_max) as [Hi Hu] by done. unfold grow_buffer, saturating_mul.
  replace (usize_max `min` (zlen buf * 2)) with (2 * zlen buf) by lia.
  set (n := Z.max (2 * zlen buf) 64). rewrite (proj2 (Z.ltb_ge _ _)) by lia.
  assert (zlen (zeros n) = n) as Hz by (apply zlen_zeros; lia).
  erewrite bind_ok by (unfold vec_zeroed; rewrite (proj2 (Z.leb_le _ _)) by lia; done).
  erewrite bind_ok by (apply slice_ok; lia). rewrite range_0 by done.
  erewrite bind_ok by (apply copy_into_ok; lia). erewrite bind_ok by done. cbn [ret].
  eexists _, _. split; [reflexivity |]. split_and!; [done | by rewrite zlen_inserts |].
  change (Z.to_nat 0) with 0%nat. apply list_eq. intros i.
  destruct (decide (i < length buf)%nat) as [Hlt |].
  - rewrite lookup_take_lt by done. rewrite list_lookup_inserts by (unfold zlen in *; lia).
    by replace (i - 0)%nat with i by lia.
  - by rewrite lookup_take_ge, lookup_ge_None_2 by lia.
Qed.

Lemma copy_read (buf bs : list byte) filled :
  0 <= filled -> filled + zlen bs <= zlen buf ->
  take (Z.to_nat (filled + zlen bs)) (list_inserts (Z.to_nat filled) bs buf) = take (Z.to_nat filled) buf ++ bs.
Proof.
  intros Hf Hb. unfold zlen in *. apply list_eq. intros i.
  destruct (decide (i < Z.to_nat filled + length bs)%nat) as [Hi |].
  - rewrite lookup_take_lt by lia. destruct (decide (i < Z.to_nat filled)%nat).
    + rewrite list_lookup_inserts_lt, lookup_app_l, lookup_take_lt by (rewrite ?length_take; lia). done.
    + rewrite list_lookup_inserts by lia. rewrite lookup_app_r by (rewrite length_take; lia).
      f_equal. rewrite length_take. lia.
  - rewrite !lookup_ge_None_2; [done | rewrite length_app, length_take; lia | rewrite length_take; lia].
Qed.

Lemma read_loop_spec f p : forall fuel buf filled (s : Residue W),
  (pending f (outside s) < fuel)%nat -> 0 <= filled <= zlen buf ->
  filled + zlen (content f (outside s)) <= file_max ->
  match read_loop fuel p f buf filled s with
  | (Ok k, _) => RawKey.bytes k = take (Z.to_nat filled) buf ++ content f (outside s)
  | (Err e, _) => exists name, e = io_error p (OtherKind name)
  | _ => False
  end.
Proof.
  induction fuel as [| fuel IH]; intros buf filled s Hp Hf Hc; [lia |]. cbn [read_loop].
  pose proof (zlen_nonneg (content f (outside s))) as Hc0.
  assert (exists buf' s', (if filled =? zlen buf then grow_buffer buf filled else ret buf) s = (Ok buf', s') /\
    outside s' = outside s /\ filled < zlen buf' /\ take (Z.to_nat filled) buf' = take (Z.to_nat filled) buf)
    as (buf' & s' & E & Ho & Hl & Ht).
  { destruct (Z.eqb_spec filled (zlen buf)) as [-> | Hne].
    - destruct (grow_buffer_ok buf s) as (b & s' & E & Ho & Hl & Ht); [lia |]. exists b, s'.
      split_and!; [done | done | lia |]. replace (Z.to_nat (zlen buf)) with (length buf) by (unfold zlen; lia).
      rewrite Ht. by rewrite take_ge.
    - exists buf, s. split_and!; [done | done | lia | done]. }
  rewrite (bind_ok _ _ _ _ _ E), <- Ht. unfold bind at 1, on_outside, zoom, ask.
  pose proof (read_law f (zlen buf' - filled) (outside s') ltac:(lia)) as Hr. rewrite Ho in *.
  destruct (read f (zlen buf' - filled) (outside s)) as [[[| x bs] | [| name]] w'].
  - cbn [ret]. by rewrite Hr, app_nil_r.
  - destruct Hr as (Hn & Hcont & Hlt). set (data := x :: bs) in *. rewrite Hcont, zlen_app in Hc.
    pose proof (zlen_nonneg data).
    erewrite bind_ok by (apply copy_into_ok; lia).
    specialize (IH (list_inserts (Z.to_nat filled) data buf') (filled + zlen data)
      {| freed := freed s'; outside := w' |}). cbn [outside] in IH. rewrite zlen_inserts in IH.
    specialize (IH ltac:(lia) ltac:(lia) ltac:(lia)).
    destruct (read_loop fuel p f _ _ _) as [[k | e | |] s2]; [| done..].
    rewrite IH, copy_read, <- app_assoc, Hcont by lia. done.
  - destruct Hr as [Hcont Hlt]. specialize (IH buf' filled {| freed := freed s'; outside := w' |}).
    cbn [outside] in IH. rewrite Hcont in IH. apply IH; lia.
  - by exists name.
Qed.

(** Reading a file.  With fuel for as many reads as the file can still
    answer (interruptions included), and for contents up to 2^61 bytes, the
    buffer loop ends without a panic: the key is exactly the content that
    was left to read, whatever size was guessed and however the reads were
    split; an error is a read error of another kind than an interruption. *)
Theorem read_wiping_content f p fuel hint (s : Residue W) :
  (pending f (outside s) < fuel)%nat -> 0 <= hint <= file_max -> zlen (content f (outside s)) <= file_max ->
  match read_wiping fuel f hint p s with
  | (Ok k, _) => RawKey.bytes k = content f (outside s)
  | (Err e, _) => exists name, e = io_error p (OtherKind name)
  | _ => False
  end.
Proof.
  intros Hp Hh Hc. unfold read_wiping, saturating_add. assert (2 ^ 62 <= isize_max /\ isize_max <= usize_max) as [Hi Hu] by done.
  unfold file_max in *. rewrite Z.min_r by lia.
  erewrite bind_ok by (unfold vec_zeroed; rewrite (proj2 (Z.leb_le _ _)) by lia; done).
  apply (read_loop_spec f p fuel (zeros (hint + 1)) 0 s); [done | rewrite zlen_zeros; lia | unfold file_max; lia].
Qed.
End reading.

(** ** What a successful fetch has checked *)

Section checked.
Context {W : Type} `{FileSystem W}.

(** One call of the file system that a fetch makes after opening the file,
    and a sequence of them. *)
Inductive fs_call (w : W) : W -> Prop :=
| CallFstat f : fs_call w (fstat f w).2
| CallStat dir : fs_call w (stat dir w).2
| CallCanonicalize p : fs_call w (canonicalize p w).2
| CallAbsolute p : fs_call w (absolute p w).2.
Definition later : W -> W -> Prop := rtc fs_call.

(** Between [from] and [upto] the call [q] was made, and answered [a]. *)
Definition observed {A E} (from upto : W) (q : W -> (A + E) * W) (a : A) : Prop :=
  exists w w', later from w /\ q w = (inl a, w') /\ later w' upto.

(** No permission for group or others, and the process user or root owns
    it. *)
Definition file_secure (m : Metadata) : Prop :=
  (forall i, 0 <= i < 6 -> Z.testbit (mode m) i = false) /\ (uid m = geteuid \/ uid m = 0).

(** Owned likewise; and not writable by group or others, or sticky. *)
Definition directory_secure (m : Metadata) : Prop :=
  (uid m = geteuid \/ uid m = 0) /\
  ((Z.testbit (mode m) 1 = false /\ Z.testbit (mode m) 4 = false) \/ Z.testbit (mode m) 9 = true).

Lemma land_zero x k : Z.land x k = 0 <-> forall i, 0 <= i -> Z.testbit k i = true -> Z.testbit x i = false.
Proof.
  split.
  - intros Hl i Hi Hk. apply (f_equal (fun z => Z.testbit z i)) in Hl.
    by rewrite Z.land_spec, Hk, Z.bits_0, andb_true_r in Hl.
  - intros Hb. apply Z.bits_inj'. intros i Hi. rewrite Z.land_spec, Z.bits_0.
    destruct (Z.testbit k i) eqn:E; [by rewrite Hb | by rewrite andb_false_r].
Qed.

Lemma mode_private x : (Z.land x 0x3f =? 0) = true <-> forall i, 0 <= i < 6 -> Z.testbit x i = false.
Proof.
  rewrite Z.eqb_eq, land_zero. split; intros Hb i Hi.
  - apply Hb; [lia |]. change 0x3f with (Z.ones 6). by apply Z.ones_spec_low.
  - intros Hk. apply Hb. split; [done |]. destruct (decide (i < 6)); [done |].
    change 0x3f with (Z.ones 6) in Hk. rewrite Z.ones_spec_high in Hk by lia. done.
Qed.

Lemma mode_bits x : (Z.land x 0x12 =? 0) = negb (Z.testbit x 1) && negb (Z.testbit x 4).
Proof.
  apply eq_bool_prop_intro. rewrite Is_true_true, Z.eqb_eq, land_zero, Is_true_true, andb_true_iff, !negb_true_iff.
  split; [intros Hb; split; by apply Hb |]. intros [H1' H4'] i Hi Hk.
  assert (i = 1 \/ i = 4) as [-> | ->]; [| done..].
  destruct (decide (i < 5)) as [Hlt |].
  - assert (i = 0 \/ i = 1 \/ i = 2 \/ i = 3 \/ i = 4) as Hc by lia. by destruct Hc as [-> | [-> | [-> | [-> | ->]]]]; auto.
  - rewrite Z.bits_above_log2 in Hk; [done | lia |]. change (Z.log2 0x12) with 4. lia.
Qed.

Lemma mode_sticky x : (Z.land x 0x200 =? 0) = negb (Z.testbit x 9).
Proof.
  change 0x200 with (2 ^ 9). destruct (Z.testbit x 9) eqn:E.
  - apply Z.eqb_neq. rewrite land_zero. intros Hb. specialize (Hb 9 ltac:(lia) eq_refl). congruence.
  - apply Z.eqb_eq, land_zero. intros i Hi Hk. apply Z.pow2_bits_eqb with (m := i) in Hi as _.
    destruct (decide (i = 9)) as [-> |]; [done |]. rewrite Z.pow2_bits_false in Hk by done. done.
Qed.

(** Inversions. *)
Lemma io_ok {A} p (q : W -> (A + ErrorKind) * W) s a s' :
  io p q s = (Ok a, s') -> q (outside s) = (inl a, outside s').
Proof.
  unfold io, bind, on_outside, zoom, ask. destruct (q (outside s)) as [[a' | e] w]; [| done]. by intros [= -> <-].
Qed.

Lemma check_owner_ok owner euid what kind (s : Residue W) u s' :
  check_owner owner euid what kind s = (Ok u, s') -> s' = s /\ (owner = euid \/ owner = 0).
Proof. unfold check_owner. case_match; [| done]. intros [= _ <-]. apply orb_true_iff in H0 as []; tests; auto. Qed.

Lemma observed_wider {A E} from from' upto upto' (q : W -> (A + E) * W) a :
  later from from' -> later upto' upto -> observed from' upto' q a -> observed from upto q a.
Proof. intros Hf Hu (w & w' & Hw & E' & Hw'). exists w, w'. split_and!; [by etrans | done | by etrans]. Qed.

Lemma observed_once {A E} w w' (q : W -> (A + E) * W) a : q w = (inl a, w') -> observed w w' q a.
Proof. intros E'. exists w, w'. split_and!; [apply rtc_refl | done | apply rtc_refl]. Qed.

Lemma call_later {A E} w w' (q : W -> (A + E) * W) a : (forall w, fs_call w (q w).2) -> q w = (inl a, w') -> later w w'.
Proof. intros Hq E'. apply rtc_once. specialize (Hq w). by rewrite E' in Hq. Qed.

Lemma check_directory_ok dir s u s' :
  check_directory dir geteuid s = (Ok u, s') ->
  later (outside s) (outside s') /\
  exists m, observed (outside s) (outside s') (stat dir) m /\ directory_secure m.
Proof.
  unfold check_directory. intros (m & s1 & Em%io_ok & E)%bind_inv_ok.
  apply bind_inv_ok in E as ([] & s2 & [-> Ho]%check_owner_ok & E).
  rewrite mode_bits, mode_sticky in E. case_match eqn:Eb; [done |]. injection E as _ <-.
  split; [eapply call_later, Em; constructor |].
  exists m. split; [by apply observed_once |]. split; [done |].
  destruct (Z.testbit (mode m) 1), (Z.testbit (mode m) 4), (Z.testbit (mode m) 9); try discriminate; auto.
Qed.

Lemma check_each_ok dirs s u s' :
  for_each dirs (fun dir => check_directory dir geteuid) s = (Ok u, s') ->
  later (outside s) (outside s') /\
  forall dir, dir ∈ dirs -> exists m, observed (outside s) (outside s') (stat dir) m /\ directory_secure m.
Proof.
  revert s. induction dirs as [| y dirs IH]; intros s; cbn.
  { intros [= _ <-]. split; [apply rtc_refl | by intros dir ?%not_elem_of_nil]. }
  intros ([] & s1 & [Hl (m & Hm & Hs)]%check_directory_ok & [Hl' Hx]%IH)%bind_inv_ok.
  split; [by etrans |]. intros dir [-> | Hdir]%elem_of_cons.
  - exists m. split; [| done]. by eapply observed_wider; [apply rtc_refl | exact Hl' |].
  - destruct (Hx dir Hdir) as (m' & Hm' & Hs'). exists m'. split; [| done].
    by eapply observed_wider; [exact Hl | apply rtc_refl |].
Qed.

(** Between [from] and [upto], the resolved path led to the opened file, and
    its directories were found safe; so was the directory of the path as
    given, unless it is one of them. *)
Definition directories_checked (from upto : W) (p : string) (opened : Metadata) : Prop :=
  exists resolved current given,
  observed from upto (canonicalize p) resolved /\ observed from upto (stat resolved) current /\
  dev current = dev opened /\ ino current = ino opened /\
  (forall dir, dir ∈ proper_ancestors resolved -> exists m, observed from upto (stat dir) m /\ directory_secure m) /\
  (exists w w', later from w /\ absolute p w = (given, w') /\ later w' upto) /\
  forall dir, given ≫= parent = Some dir -> exists m, observed from upto (stat dir) m /\ directory_secure m.

Lemma parent_proper cs dir : parent cs = Some dir -> dir ∈ proper_ancestors cs.
Proof.
  unfold parent, proper_ancestors. destruct cs as [| c cs] using rev_ind; [done |]. clear IHcs.
  destruct (cs ++ [c]) as [| x l] eqn:E; [by destruct cs |]. rewrite <- E. intros [= <-]. rewrite removelast_last.
  apply list_elem_of_fmap. exists (length cs). split; [by rewrite take_app_length |].
  apply list_elem_of_In, in_rev. rewrite rev_involutive. apply in_seq. rewrite length_app. cbn. lia.
Qed.

Lemma check_directories_ok p opened s u s' :
  check_directories p opened geteuid s = (Ok u, s') ->
  later (outside s) (outside s') /\ directories_checked (outside s) (outside s') p opened.
Proof.
  unfold check_directories. intros (resolved & s1 & Er%io_ok & E)%bind_inv_ok.
  apply bind_inv_ok in E as (current & s2 & Ec%io_ok & E). case_match eqn:Ed; [done |].
  apply negb_false_iff, andb_true_iff in Ed as [Ed Ei]. tests.
  apply bind_inv_ok in E as ([] & s3 & [H23 Hd]%check_each_ok & E). apply bind_inv_ok in E as (given & s4 & Eg & E).
  assert (absolute p (outside s3) = (given, outside s4)) as Ea.
  { unfold on_outside, zoom, ask in Eg. destruct (absolute p (outside s3)) as [g w]. by injection Eg as -> <-. }
  assert (later (outside s) (outside s1)) as H01 by (eapply call_later, Er; constructor).
  assert (later (outside s1) (outside s2)) as H12 by (eapply call_later, Ec; constructor).
  assert (later (outside s3) (outside s4)) as H34.
  { apply rtc_once. pose proof (CallAbsolute (outside s3) p) as Hc. by rewrite Ea in Hc. }
  assert (later (outside s) (outside s2)) as H02 by by etrans.
  assert (later (outside s) (outside s4)) as H04 by (etrans; [exact H02 |]; by etrans).
  assert (forall s5, later (outside s4) (outside s5) ->
    (forall dir, given ≫= parent = Some dir ->
      exists m, observed (outside s) (outside s5) (stat dir) m /\ directory_secure m) ->
    later (outside s) (outside s5) /\ directories_checked (outside s) (outside s5) p opened) as Hall.
  { intros s5 H45 Hg. split; [by etrans |]. exists resolved, current, given. split_and!; [| | done | done | | | done].
    - eapply observed_wider; [apply rtc_refl | | by apply observed_once]. etrans; [exact H12 |]. etrans; [exact H23 |]. by etrans.
    - eapply observed_wider; [exact H01 | | by apply observed_once]. etrans; [exact H23 |]. by etrans.
    - intros dir Hin. destruct (Hd dir Hin) as (m & Hm & Hs). exists m. split; [| done].
      eapply observed_wider; [exact H02 | | exact Hm]. by etrans.
    - exists (outside s3), (outside s4). split_and!; [by transitivity (outside s2) | done | done]. }
  destruct (given ≫= parent) as [dir |] eqn:Eg'; [| injection E as _ <-; by apply Hall; [apply rtc_refl |]].
  destruct (negb (bool_decide (Some dir = parent resolved))) eqn:Ep.
  - apply check_directory_ok in E as (H45 & m & Hm & Hs). apply Hall; [done |]. intros dir' [= <-].
    exists m. split; [| done]. by eapply observed_wider; [exact H04 | apply rtc_refl |].
  - injection E as _ <-. apply negb_false_iff, bool_decide_eq_true in Ep.
    apply Hall; [apply rtc_refl |]. intros dir' [= <-].
    destruct (Hd dir) as (m & Hm & Hs); [by apply parent_proper |]. exists m. split; [| done].
    by eapply observed_wider; [exact H02 | exact H34 |].
Qed.
End checked.

Section secure.
Context {W : Type} `{ReadLaw W}.

Lemma check_perms_ok f p dirs s u s' :
  check_perms f p dirs s = (Ok u, s') -> exists meta w,
    fstat f (outside s) = (inl meta, w) /\ later w (outside s') /\ file_secure meta /\
    (dirs = true -> directories_checked w (outside s') p meta).
Proof.
  unfold check_perms. intros (meta & s1 & Em%io_ok & E)%bind_inv_ok. exists meta, (outside s1).
  case_match eqn:Eb; [done |]. apply negb_false_iff in Eb. rewrite mode_private in Eb.
  apply bind_inv_ok in E as ([] & s2 & [-> Ho]%check_owner_ok & E). destruct dirs.
  - apply check_directories_ok in E as [Hl Hd]. by split_and!.
  - injection E as _ <-. by split_and!; [| apply rtc_refl | |].
Qed.

Lemma read_to_end_ok fuel f p s k s' :
  read_to_end_wiping fuel f p s = (Ok k, s') ->
  exists s1 hint, later (outside s) (outside s1) /\ read_wiping fuel f hint p s1 = (Ok k, s').
Proof.
  unfold read_to_end_wiping. intros (m & s1 & Em & E)%bind_inv_ok. eexists s1, _. split; [| exact E].
  unfold on_outside, zoom, ask in Em. pose proof (CallFstat (outside s) f) as Hc.
  destruct (fstat f (outside s)) as [r w]. injection Em as _ <-. by apply rtc_once.
Qed.

(** C38: What a key file was when it is accepted.  If a strict fetcher returns
    a key, the bytes were read through one handle, and that handle's own
    metadata, taken after opening, gave no permission to group or others and
    named the process user or root as owner, whatever happened to the path
    meanwhile.  Unless the directory check is off, between that and the first
    read the resolved path led to the same file, and every directory on it,
    and the directory of the path as given, was found to be owned likewise and
    not writable by others, or sticky. *)
Theorem accepted_file_was_secure (fuel : nat) (self : FileFetch) ctx (s : Residue W) k s' :
  strict_perms self = true -> file_fetch fuel self ctx s = (Ok k, s') ->
  exists f meta w1 w2 w3 hint s1,
    file_open (path self) (outside s) = (inl f, w1) /\ fstat f w1 = (inl meta, w2) /\ file_secure meta /\
    (check_dirs self = true -> directories_checked w2 w3 (path self) meta) /\
    later w2 w3 /\ later w3 (outside s1) /\ read_wiping fuel f hint (path self) s1 = (Ok k, s').
Proof.
  intros Hst. unfold file_fetch. rewrite Hst. intros (f & s0 & Eo%io_ok & E)%bind_inv_ok.
  unfold read_checked in E. cbn [ck_file ck_dirs] in E. apply bind_inv_ok in E as (u & s1 & Ec & E).
  destruct (check_perms_ok _ _ _ _ _ _ Ec) as (meta & w2 & Em & Hl & Hs & Hd).
  destruct (read_to_end_ok _ _ _ _ _ _ E) as (s2 & hint & Hl2 & Er).
  by exists f, meta, (outside s0), w2, (outside s1), hint, s2.
Qed.

(** C39: No fetcher leaves key bytes behind.  The environment, keychain and
    file fetchers free only buffers full of zeros, on every way out: success,
    bad encoding, read errors, growth of the file buffer, even the panic of
    an oversized allocation.  Their errors name them as the source and carry
    none of the value. *)
Theorem fetchers_leave_nothing `{Environment W, Keyring W} fuel (e : EnvFetch) (k : KeychainFetch) (f : FileFetch) ctx
    (s : Residue W) :
  secret_not_decoded (W := W) -> Forall (Forall (eq Byte.x00)) (freed s) ->
  Forall (Forall (eq Byte.x00)) (freed (snd (env_fetch e ctx s))) /\
  Forall (Forall (eq Byte.x00)) (freed (snd (keychain_fetch k ctx s))) /\
  Forall (Forall (eq Byte.x00)) (freed (snd (file_fetch fuel f ctx s))).
Proof.
  intros Hk Hs. split_and!.
  - by apply (env_leaves_nothing e ctx).
  - by apply (keychain_leaves_nothing k ctx).
  - by apply (file_fetch_fails fuel f ctx).
Qed.
End secure.

(** ** A small file system

    One key file, [/etc/app/key], delivered in chunks with interruptions;
    directories owned by root; an environment and a keychain whose values
    are not UTF-8. *)
Module MiniFs.
(** [None] is an interruption, [Some (b, bs)] a chunk [b :: bs]. *)
Definition world : Type := list (option (byte * list byte)).

Definition key_meta : Metadata := {| mode := 0x8180 (* 0o100600 *); uid := 1000; dev := 1; ino := 77; m_len := 4 |}.
Definition dir_meta : Metadata := {| mode := 0x41ed (* 0o040755 *); uid := 0; dev := 1; ino := 2; m_len := 0 |}.
Definition key_path : list string := ["etc"; "app"; "key"]%string.

Definition push (bs : list byte) (w : world) : world :=
  match bs with [] => w | b :: bs' => Some (b, bs') :: w end.

Definition read_chunk (n : Z) (w : world) : (list byte + ErrorKind) * world :=
  match w with
  | [] => (inl [], [])
  | None :: w' => (inr Interrupted, w')
  | Some (b, bs) :: w' => (inl (take (Z.to_nat n) (b :: bs)), push (drop (Z.to_nat n) (b :: bs)) w')
  end.

#[global] Instance fs : FileSystem world := {|
  file_t := unit;
  file_open := fun _ w => (inl tt, w);
  fstat := fun _ w => (inl key_meta, w);
  stat := fun p w => (inl (if decide (p = key_path) then key_meta else dir_meta), w);
  canonicalize := fun _ w => (inl key_path, w);
  absolute := fun _ w => (Some key_path, w);
  geteuid := 1000;
  read := fun _ => read_chunk
|}.

Fixpoint rest (w : world) : list byte :=
  match w with
  | [] => []
  | None :: w' => rest w'
  | Some (b, bs) :: w' => b :: bs ++ rest w'
  end.
Fixpoint answers (w : world) : nat :=
  match w with
  | [] => 0
  | None :: w' => S (answers w')
  | Some (_, bs) :: w' => S (length bs + answers w')
  end.

Lemma rest_push bs w : rest (push bs w) = bs ++ rest w.
Proof. by destruct bs. Qed.
Lemma answers_push bs w : answers (push bs w) = (length bs + answers w)%nat.
Proof. by destruct bs. Qed.

#[global, program] Instance law : ReadLaw world := {| content := fun _ => rest; pending := fun _ => answers |}.
Next Obligation.
  intros f n w Hn. cbn. destruct w as [| [[b bs] |] w]; cbn [read_chunk]; [done | | cbn; split; [done | lia]].
  destruct (Z.to_nat n) as [| m] eqn:Em; [lia |]. cbn [take drop]. rewrite rest_push, answers_push. cbn.
  rewrite length_drop, zlen_cons. unfold zlen. rewrite length_take. split_and!; [lia | | lia].
  by rewrite app_assoc, take_drop.
Qed.

#[global] Instance env : Environment world := {| var_os := fun _ w => (Some [Byte.xff; Byte.x41], w) |}.
#[global] Instance keyring : Keyring world := {|
  entry_t := unit;
  entry_new := fun _ _ w => (inl tt, w);
  get_password := fun _ w => (inr (BadEncoding [Byte.xc0; Byte.x80]), w);
  get_secret := fun _ w => (inl [Byte.xc0; Byte.x80], w)
|}.

Definition handle : file_t (W := world) := tt.

Definition start : Residue world :=
  {| freed := []; outside := [Some (Byte.x01, [Byte.x02]); None; Some (Byte.x03, [Byte.x04; Byte.x05; Byte.x06])] |}.
Definition key : RawKey.t := RawKey.new [Byte.x01; Byte.x02; Byte.x03; Byte.x04; Byte.x05; Byte.x06].
End MiniFs.

(** The file is longer than its metadata said: the buffer grows once, and the
    old one is wiped. *)
Example mini_fetch :
  file_fetch 9 (FileFetch_new "/etc/app/key") (FetchContext_new "k") MiniFs.start =
    (Ok MiniFs.key, {| freed := [zeros 5]; outside := [] |}).
Proof. vm_compute. done. Qed.

Lemma read_wiping_content_witness :
  match read_wiping (W := MiniFs.world) 9 MiniFs.handle 4 "/etc/app/key" MiniFs.start with
  | (Ok k, _) => RawKey.bytes k = content MiniFs.handle (outside MiniFs.start)
  | (Err e, _) => exists name, e = io_error "/etc/app/key" (OtherKind name)
  | _ => False
  end.
Proof.
  apply (read_wiping_content (W := MiniFs.world) MiniFs.handle "/etc/app/key" 9 4 MiniFs.start).
  - cbn. lia.
  - unfold file_max. lia.
  - done.
Defined.

Lemma accepted_file_was_secure_witness :
  exists f meta w1 w2 w3 hint s1,
    file_open "/etc/app/key" (outside MiniFs.start) = (inl f, w1) /\ fstat f w1 = (inl meta, w2) /\ file_secure meta /\
    (true = true -> directories_checked w2 w3 "/etc/app/key" meta) /\
    later w2 w3 /\ later w3 (outside s1) /\
    read_wiping 9 f hint "/etc/app/key" s1 = (Ok MiniFs.key, {| freed := [zeros 5]; outside := [] : MiniFs.world |}).
Proof.
  apply (accepted_file_was_secure (W := MiniFs.world) 9 (FileFetch_new "/etc/app/key") (FetchContext_new "k") MiniFs.start).
  - done.
  - vm_compute. done.
Defined.

Lemma fetchers_leave_nothing_witness :
  Forall (Forall (eq Byte.x00)) (freed (snd (env_fetch {| var_name := "K" |} (FetchContext_new "k") MiniFs.start))) /\
  Forall (Forall (eq Byte.x00)) (freed (snd (keychain_fetch (KeychainFetch_new "s" "a") (FetchContext_new "k") MiniFs.start))) /\
  Forall (Forall (eq Byte.x00)) (freed (snd (file_fetch 9 (FileFetch_new "/etc/app/key") (FetchContext_new "k") MiniFs.start))).
Proof.
  apply (fetchers_leave_nothing (W := MiniFs.world)).
  - intros entry w bytes w'. discriminate.
  - constructor.
Defined.
