(* ===== verification/Concurrent.v ===== *)
(** * Several threads in one vault ([vault/mod.rs], the writer lock)

    [register], [unregister], [rotate] and [with_key] cut at every access to
    shared state: the lockout flag, the loads and swaps of the registry, the
    key-lockout map, the handle counter, the writer lock, the audit sink.
    What runs between two cuts is the code of [Vault].  A thread is a call, a
    program point and its own scratch buffer; the scheduler picks a thread and
    runs it to its next program point.  One step is coarser than the code:
    [read_fill] opens a page-protected region, reads it and drops the guard in
    one go, so two such windows never overlap here ([Readers] interleaves them
    and shows each sees the stored bytes).  Everything else that may happen in
    the process meanwhile (failure reports, lockout clears, unlock attempts,
    other vaults, the clock) is one over-approximating step. *)

From S2P Require Import Prelude Errors Rust Rng RawKey Normalize Codex Fragment Standard.
From S2P Require Import Os Guarded Handle Events Config Lockout VaultState Vault VaultFrame VaultPipeline.

(** What a thread asks of the vault.  The callback is a function of the
    bytes: whatever else it does, the scheduler lets other threads do. *)
Inductive vault_call (T : Type) :=
| CallRegister (name : string) (key : RawKey.t)
| CallUnregister (h : KeyHandle)
| CallRotate (h : KeyHandle) (key : RawKey.t)
| CallWithKey (h : KeyHandle) (f : list byte -> option T).
Arguments CallRegister {T}.
Arguments CallUnregister {T}.
Arguments CallRotate {T}.
Arguments CallWithKey {T}.

Inductive answer (T : Type) :=
| AnswerHandle (h : KeyHandle) | AnswerUnit | AnswerValue (x : T).
Arguments AnswerHandle {T}.
Arguments AnswerUnit {T}.
Arguments AnswerValue {T}.

(** What a writer is about to do to the registry. *)
Inductive pending :=
| PutNew (h : KeyHandle) (entry : KeyEntry)
| Remove (h : KeyHandle)
| Replace (h : KeyHandle) (fragments : Fragments) (metadata : KeyMetadata).

(** The new map and the key's name, or the error, from the map loaded under
    the lock. *)
Definition update (w : pending) (current : gmap Z KeyEntry) : outcome (gmap Z KeyEntry * string) :=
  match w with
  | PutNew h entry =>
      if name_taken (entry_name entry) current then Err (duplicate (entry_name entry))
      else Ok (<[KeyHandle.id h := entry]> current, entry_name entry)
  | Remove h =>
      match current !! KeyHandle.id h with
      | Some entry => Ok (delete (KeyHandle.id h) current, entry_name entry)
      | None => Err Error.KeyNotFound
      end
  | Replace h fragments metadata =>
      match current !! KeyHandle.id h with
      | Some entry =>
          Ok (<[KeyHandle.id h := {| entry_name := entry_name entry; entry_fragments := fragments;
                                     entry_metadata := metadata |}]> current, entry_name entry)
      | None => Err Error.KeyNotFound
      end
  end.

(** The audit event of a write, and what the call returns. *)
Definition write_kind (w : pending) : AccessKind :=
  match w with PutNew _ _ => Register | Remove _ => Unregister | Replace _ _ _ => Rotate end.
Definition write_answer {T} (w : pending) : answer T :=
  match w with PutNew h _ => AnswerHandle h | _ => AnswerUnit end.

(** Program points: what the thread does next. *)
Inductive pc (T : Type) :=
| AtGate                                     (* is_locked_out() *)
| AtLoad                                     (* keys.load() *)
| AtKeyLock (entry : KeyEntry)               (* key_locked(&entry.name) *)
| AtFragment                                 (* fragment_for_registry(&key) *)
| AtAllocate (fragments : Fragments)         (* KeyHandle::allocate() *)
| AtStamp (h : KeyHandle) (fragments : Fragments)  (* clock.unix_time() *)
| AtAcquire (w : pending)                    (* lock_writer() *)
| AtReload (w : pending)                     (* keys.load_full(), under the lock *)
| AtSwap (w : pending) (new_map : gmap Z KeyEntry) (name : string)  (* keys.swap() *)
| AtRelease (next : pc T)                    (* drop(_writer) *)
| AtAudit (name : string) (kind : AccessKind) (a : answer T)        (* emit_audit *)
| AtFill (entry : KeyEntry)                  (* borrow, ensure_len, reassemble *)
| AtCall (total : Z) (name : string)         (* f(&scratch.buf[..total]) *)
| AtWipe (total : Z) (name : string) (result : option T)            (* ZeroOnExit *)
| Returned (r : outcome (answer T)).
Arguments AtGate {T}.
Arguments AtLoad {T}.
Arguments AtKeyLock {T}.
Arguments AtFragment {T}.
Arguments AtAllocate {T}.
Arguments AtStamp {T}.
Arguments AtAcquire {T}.
Arguments AtReload {T}.
Arguments AtSwap {T}.
Arguments AtRelease {T}.
Arguments AtAudit {T}.
Arguments AtFill {T}.
Arguments AtCall {T}.
Arguments AtWipe {T}.
Arguments Returned {T}.

Section threads.
Context {W T : Type} `{Rng W} `{Os W} `{Blake3} `{StdTime W} `{PageRefs W} `{Threads W}.
Context (self : VaultInner W).
Abbreviation point := (pc T).
Abbreviation call := (vault_call T).

(** Run a piece of code and go on at [k]; [?] and unwinding leave the call. *)
Definition act {A} (m : M (VaultState W) A) (k : A -> point) (s : VaultState W) : point * VaultState W :=
  match m s with
  | (Ok a, s) => (k a, s)
  | (Err e, s) => (Returned (Err e), s)
  | (Panic, s) => (Returned Panic, s)
  | (Diverge, s) => (Returned Diverge, s)
  end.

(** The first half of [read_key]: borrow the scratch and fill it.  On the way
    out of a failure the guard zeroes and the borrow ends. *)
Definition read_fill (fragments : Fragments) : M (VaultState W) unit := fun s =>
  if borrowed (scratch s) then (Panic, s) else
  let total := total_len fragments in
  match ensure_len total (set_borrowed true s) with
  | (Ok _, s) =>
      match reassemble self fragments total s with
      | (Ok _, s) => (Ok tt, s)
      | (o, s) => (o, set_borrowed false (zero_on_exit total s))
      end
  | (o, s) => (o, set_borrowed false s)
  end.

(** The end of [read_key]. *)
Definition read_wipe (total : Z) (s : VaultState W) : VaultState W := set_borrowed false (zero_on_exit total s).

Definition refused : point := Returned (Err Error.LockedOut).

(** [register] up to the writer lock. *)
Definition register_move (name : string) (key : RawKey.t) (p : point) (s : VaultState W)
    : option (point * VaultState W) :=
  match p with
  | AtGate => Some (act is_locked_out (fun locked => if locked then refused else AtLoad) s)
  | AtLoad => Some (act (gets keys) (fun snapshot =>
      if name_taken name snapshot then Returned (Err (duplicate name)) else AtFragment) s)
  | AtFragment => Some (act (fragment_for_registry self key) AtAllocate s)
  | AtAllocate fragments => Some (act (on_next_id KeyHandle.allocate) (fun h => AtStamp h fragments) s)
  | AtStamp h fragments => Some (act (clock_unix self) (fun now =>
      AtAcquire (PutNew h {| entry_name := name; entry_fragments := fragments;
                             entry_metadata := KeyMetadata.new now (RawKey.len key) None |})) s)
  | _ => None
  end.

(** [rotate] up to the writer lock. *)
Definition rotate_move (h : KeyHandle) (key : RawKey.t) (p : point) (s : VaultState W)
    : option (point * VaultState W) :=
  match p with
  | AtGate => Some (act is_locked_out (fun locked => if locked then refused else AtLoad) s)
  | AtLoad => Some (act (gets keys) (fun snapshot =>
      match snapshot !! KeyHandle.id h with
      | Some entry => AtKeyLock entry
      | None => Returned (Err Error.KeyNotFound)
      end) s)
  | AtKeyLock entry => Some (act (name_locked self (entry_name entry)) (fun locked : bool =>
      if locked then refused else AtFragment) s)
  | AtFragment => Some (act (fragment_for_registry self key) (AtStamp h) s)
  | AtStamp h fragments => Some (act (clock_unix self) (fun now =>
      AtAcquire (Replace h fragments (KeyMetadata.new now (RawKey.len key) None))) s)
  | _ => None
  end.

(** [with_key]. *)
Definition with_key_move (h : KeyHandle) (f : list byte -> option T) (p : point) (s : VaultState W)
    : option (point * VaultState W) :=
  match p with
  | AtGate => Some (act is_locked_out (fun locked => if locked then refused else AtLoad) s)
  | AtLoad => Some (act (gets keys) (fun snapshot =>
      match snapshot !! KeyHandle.id h with
      | Some entry => AtKeyLock entry
      | None => Returned (Err Error.KeyNotFound)
      end) s)
  | AtKeyLock entry => Some (act (name_locked self (entry_name entry)) (fun locked : bool =>
      if locked then refused else AtFill entry) s)
  | AtFill entry =>
      let fragments := share (entry_fragments entry) in
      Some (act (read_fill fragments) (fun _ => AtCall (total_len fragments) (entry_name entry)) s)
  | AtCall total name => Some (AtWipe total name (f (take (Z.to_nat total) (buf (scratch s)))), s)
  | AtWipe total name result =>
      Some (match result with
            | Some x => if is_no_op (W := W) (audit self) then Returned (Ok (AnswerValue x))
                        else AtAudit name Read (AnswerValue x)
            | None => Returned Panic
            end, read_wipe total s)
  | _ => None
  end.

(** Outside the writer lock. *)
Definition move (c : call) (p : point) (s : VaultState W) : option (point * VaultState W) :=
  match c with
  | CallRegister name key => register_move name key p s
  | CallUnregister _ => None
  | CallRotate h key => rotate_move h key p s
  | CallWithKey h f => with_key_move h f p s
  end.

(** The next step of thread [t], given who holds the writer lock: [None] when
    it has returned, or waits for the lock. *)
Definition thread_step (t : nat) (writer : option nat) (c : call) (p : point) (s : VaultState W)
    : option (point * option nat * VaultState W) :=
  match p with
  | AtAcquire w => if decide (writer = None) then Some (AtReload w, Some t, s) else None
  | AtReload w =>
      Some (match update w (keys s) with
            | Ok (new_map, name) => AtSwap w new_map name
            | Err e => AtRelease (Returned (Err e))
            | Panic => AtRelease (Returned Panic)
            | Diverge => AtRelease (Returned Diverge)
            end, writer, s)
  | AtSwap w new_map name =>
      Some (AtRelease (AtAudit name (write_kind w) (write_answer w)), writer, set_keys new_map s)
  | AtRelease next => Some (next, None, s)
  | AtAudit name kind a =>
      let '(p, s) := act (emit_audit self name kind EmptyString) (fun _ => Returned (Ok a)) s in
      Some (p, writer, s)
  | Returned _ => None
  | _ => match move c p s with Some (p, s) => Some (p, writer, s) | None => None end
  end.

(** Where a call starts: [unregister] goes straight for the lock. *)
Definition entry_point (c : call) : point :=
  match c with CallUnregister h => AtAcquire (Remove h) | _ => AtGate end.

(** ** The process *)

Record thread := { the_call : call; at_ : point; local : Scratch }.

Record process := { shared : VaultState W; writer : option nat; threads : list thread }.

Definition start_thread (c : call) : thread :=
  {| the_call := c; at_ := entry_point c; local := scratch_init |}.
Definition start (calls : list call) (s : VaultState W) : process :=
  {| shared := s; writer := None; threads := start_thread <$> calls |}.

(** Thread [t] runs to its next program point, on its own scratch buffer. *)
Definition run_thread (t : nat) (c : process) : option process :=
  match threads c !! t with
  | None => None
  | Some th =>
      match thread_step t (writer c) (the_call th) (at_ th) (set_scratch (local th) (shared c)) with
      | None => None
      | Some (p, w, s) =>
          Some {| shared := set_scratch scratch_init s; writer := w;
                  threads := <[t := {| the_call := the_call th; at_ := p; local := scratch s |}]>
                               (threads c) |}
      end
  end.

(** What the rest of the process may do to what the threads share: anything
    but write this registry, rewind the handle counter, take regions away or
    leave them open; the lockout state may be anything at any time. *)
Record others (s s' : VaultState W) : Prop := {
  ot_keys : keys s' = keys s;
  ot_next_id : next_id s <= next_id s';
  ot_regions : regions_le (regions s) (regions s');
  ot_ok : regions_ok (regions s) -> regions_ok (regions s');
  ot_scratch : scratch s' = scratch s
}.

(** ** Regions nobody refers to

    A protected region lives as long as an [Arc] of its storage does: in the
    registry, in a thread's hands, or as one of the vault's own secrets.  When
    the last is dropped the region is wiped, unmapped and gone. *)

Definition pending_fragments (w : pending) : list Fragments :=
  match w with PutNew _ entry => [entry_fragments entry] | Remove _ => [] | Replace _ fragments _ => [fragments] end.

Definition held (p : point) : list Fragments :=
  match p with
  | AtKeyLock entry | AtFill entry => [entry_fragments entry]
  | AtAllocate fragments | AtStamp _ fragments => [fragments]
  | AtAcquire w | AtReload w | AtSwap w _ _ => pending_fragments w
  | _ => []
  end.

Definition lives_in (id : Z) (fragments : Fragments) : Prop := store_region (store fragments) = Some id.

Definition referenced (c : process) (id : Z) : Prop :=
  (exists k entry, keys (shared c) !! k = Some entry /\ lives_in id (entry_fragments entry)) \/
  (exists th, th ∈ threads c /\ Exists (lives_in id) (held (at_ th))) \/
  Exists (lives_in id) (secrets self).

(** [Drop] for the region. *)
Definition drop_region (id : Z) (r : GuardedRegion) (s : VaultState W) : VaultState W :=
  let '(_, w) := region_drop r (world s) in
  set_world w (set_regions {| table := delete id (table (regions s)); next_region := next_region (regions s) |} s).

(** Executions in which the 64-bit handle counter has not run out. *)
Inductive process_step (c : process) : process -> Prop :=
| StepThread t c' :
    next_id (shared c) < u64_max -> run_thread t c = Some c' -> process_step c c'
| StepOthers s' :
    others (shared c) s' -> process_step c {| shared := s'; writer := writer c; threads := threads c |}
| StepDrop id r :
    table (regions (shared c)) !! id = Some r -> ~ referenced c id ->
    process_step c {| shared := drop_region id r (shared c); writer := writer c; threads := threads c |}.

(** Run a schedule; a thread that cannot move is skipped. *)
Fixpoint run_schedule (schedule : list nat) (c : process) : process :=
  match schedule with
  | [] => c
  | t :: schedule => run_schedule schedule (default c (run_thread t c))
  end.

(** A single thread run for [n] steps, alone. *)
Fixpoint run_alone (n : nat) (c : call) (p : point) (w : option nat) (s : VaultState W)
    : point * option nat * VaultState W :=
  match n with
  | O => (p, w, s)
  | S n => match thread_step 0 w c p s with
           | Some (p, w, s) => run_alone n c p w s
           | None => (p, w, s)
           end
  end.

(** The same call on a vault used by one thread. *)
Definition call_alone (c : call) : M (VaultState W) (answer T) :=
  match c with
  | CallRegister name key => let! h := register self name key in ret (AnswerHandle h)
  | CallUnregister h => do! unregister self h in ret AnswerUnit
  | CallRotate h key => do! rotate self h key in ret AnswerUnit
  | CallWithKey h f => let! x := with_key self h (fun bytes s => (f bytes, s)) in ret (AnswerValue x)
  end.
End threads.
