(* ===== verification/Linear.v ===== *)
(** * An interleaved call, alone

    The steps of [Concurrent], taken by one thread without interruption, are
    the sequential operations of [Vault]: same result, same final state. *)

From S2P Require Import Prelude Errors Rust Rng RawKey Normalize Codex Fragment Standard Layouts.
From S2P Require Import Os Guarded Handle Events Config Lockout.
From S2P Require Import VaultState Vault VaultFrame VaultPipeline VaultRead VaultRegistry VaultSpec Concurrent.
From stdpp Require Import relations.

Section alone.
Context {W T : Type} `{Rng W} `{Os W} `{Blake3} `{StdTime W} `{PageRefs W} `{Threads W}.
Context (self : VaultInner W).
Implicit Types s : VaultState W.
Abbreviation vcall := (vault_call T).

Lemma run_alone_returned n (c : vcall) r w s : run_alone self n c (Returned r) w s = (Returned r, w, s).
Proof. by destruct n. Qed.

(** The outcome of a sequential computation, as the end of a call. *)
Definition ended (m : M (VaultState W) (answer T)) s : pc T * option nat * VaultState W :=
  let '(r, s) := m s in (Returned r, None, s).

Lemma ended_assoc {A B} (m : M (VaultState W) A) (f : A -> M (VaultState W) B) g s :
  ended (bind (bind m f) g) s = ended (bind m (fun x => bind (f x) g)) s.
Proof. unfold ended, bind. by destruct (m s) as [[] ?]. Qed.

Lemma ended_fail {A} e (g : A -> M (VaultState W) (answer T)) s :
  ended (bind (fail e) g) s = (Returned (Err e), None, s).
Proof. done. Qed.

Lemma ended_ret_bind {A} (a : A) (g : A -> M (VaultState W) (answer T)) s : ended (bind (ret a) g) s = ended (g a) s.
Proof. done. Qed.

Lemma ended_ext (m m' : M (VaultState W) (answer T)) s : m s = m' s -> ended m s = ended m' s.
Proof. unfold ended. by intros ->. Qed.

(** A piece of code followed by the rest of the call. *)
Lemma run_alone_act {A} n (c : vcall) (m : M (VaultState W) A) k g s :
  (forall a s', run_alone self n c (k a) None s' = ended (g a) s') ->
  (let '(p, s') := act m k s in run_alone self n c p None s') = ended (bind m g) s.
Proof.
  intros Hk. unfold act, ended, bind.
  destruct (m s) as [[a | e | |] s']; [exact (Hk a s') | apply run_alone_returned..].
Qed.

(** From the writer lock on. *)
Definition write_alone (w : pending) : M (VaultState W) (answer T) :=
  let! current := gets keys in
  let! p := lift (update w current) in
  do! modify (set_keys p.1) in
  do! emit_audit self p.2 (write_kind w) EmptyString in
  ret (write_answer w).

Lemma run_alone_write n (c : vcall) w s :
  run_alone self (5 + n) c (AtAcquire w) None s = ended (write_alone w) s.
Proof.
  cbn [run_alone thread_step Nat.add]. rewrite decide_True by done.
  unfold write_alone, ended at 1, bind at 1. cbn [gets run_alone thread_step].
  destruct (update w (keys s)) as [[new name] | e | |] eqn:E; cbn [run_alone thread_step]; unfold bind at 1; cbn [lift];
    [| by rewrite ?run_alone_returned..].
  unfold bind at 1. cbn [modify fst snd].
  pose proof (run_alone_act n c (emit_audit self name (write_kind w) EmptyString)
    (fun _ => Returned (Ok (write_answer w))) (fun _ => ret (write_answer w)) (set_keys new s)) as Ha.
  destruct (act _ _ (set_keys new s)) as [p s']. apply Ha. intros _ s''. apply run_alone_returned.
Qed.

(** [read_key] is its two halves around the callback. *)
Lemma read_key_split frags (g : list byte -> option T) s :
  read_key self frags (fun bytes s => (g bytes, s)) s =
    bind (read_fill self frags) (fun _ =>
      finally (call (fun bytes s => (g bytes, s)) (take (Z.to_nat (total_len frags)) (buf (scratch (snd (read_fill self frags s))))))
        (read_wipe (total_len frags))) s.
Proof.
  unfold read_key, read_fill, bind, finally, gets, call, read_wipe. case_test; [done |].
  destruct (ensure_len _ _) as [[[] | e | |] s1]; [| done..].
  destruct (reassemble self frags _ s1) as [[[] | e | |] s2]; [| done..]. cbn [snd].
  by destruct (g _).
Qed.

(** A step that is a piece of code: the rest of the call after it. *)
Lemma run_alone_piece {A} n (c : vcall) p (m : M (VaultState W) A) k g s :
  thread_step self 0 None c p s = (let '(p, s) := act m k s in Some (p, None, s)) ->
  (forall a s', run_alone self n c (k a) None s' = ended (g a) s') ->
  run_alone self (1 + n) c p None s = ended (bind m g) s.
Proof.
  intros Hs Hk. cbn [Nat.add run_alone]. rewrite Hs. pose proof (run_alone_act n c m k g s Hk) as Ha.
  by destruct (act m k s).
Qed.

(** Align the next [bind] of the sequential code with the thread's next step. *)
Ltac piece :=
  rewrite ?ended_assoc; cbn [ok_or]; rewrite ?ended_ret_bind, ?ended_assoc; eapply run_alone_piece; [reflexivity |]; intros ? ?; cbn beta.

(** From the scratch on. *)
Lemma run_alone_read n h f e s :
  run_alone self (4 + n) (CallWithKey h f) (AtFill e) None s =
    ended (bind (read_key self (share (entry_fragments e)) (fun bytes s => (f bytes, s))) (fun result =>
      bind (bind (match (if is_no_op (W := W) (audit self) then None else Some (entry_name e)) with
                  | Some name => emit_audit self name Read EmptyString
                  | None => ret tt
                  end) (fun _ => ret result)) (fun x => ret (AnswerValue x)))) s.
Proof.
  cbn [run_alone thread_step move with_key_move Nat.add]. unfold act. unfold ended, bind at 1.
  rewrite read_key_split. unfold bind at 1. set (frags := share _).
  destruct (read_fill self frags s) as [[[] | e' | |] s1]; [| by rewrite ?run_alone_returned..].
  cbn [run_alone thread_step move with_key_move snd]. unfold finally, call. set (bytes := take _ _).
  destruct (f bytes) as [x |]; [| by rewrite ?run_alone_returned].
  destruct (is_no_op (audit self)); [by rewrite ?run_alone_returned |].
  change (run_alone self (1 + n) (CallWithKey h f) (AtAudit (entry_name e) Read (AnswerValue x)) None
    (read_wipe (total_len frags) s1) =
    ended (bind (bind (emit_audit self (entry_name e) Read EmptyString) (fun _ => ret x))
      (fun x => ret (AnswerValue x))) (read_wipe (total_len frags) s1)).
  piece. by rewrite ?run_alone_returned.
Qed.

Lemma write_alone_eq w s :
  write_alone w s =
    match update w (keys s) with
    | Ok (new, name) =>
        bind (emit_audit self name (write_kind w) EmptyString) (fun _ => ret (write_answer w)) (set_keys new s)
    | Err e => (Err e, s) | Panic => (Panic, s) | Diverge => (Diverge, s)
    end.
Proof. unfold write_alone, bind at 1 2. cbn. by destruct (update w (keys s)) as [[new name] | e | |]. Qed.

(** The sequential writers, from the commit on. *)
Lemma bind_bind {A B C} (m : M (VaultState W) A) (f : A -> M (VaultState W) B) (g : B -> M (VaultState W) C) s :
  bind (bind m f) g s = bind m (fun x => bind (f x) g) s.
Proof. unfold bind. by destruct (m s) as [[] ?]. Qed.

Lemma write_alone_register h e s :
  write_alone (PutNew h e) s =
    bind (bind (register_commit h e) (fun _ =>
      bind (emit_audit self (entry_name e) Register EmptyString) (fun _ => ret h))) (fun h => ret (AnswerHandle h)) s.
Proof.
  rewrite write_alone_eq, bind_bind. cbn [update]. unfold register_commit. rewrite bind_bind.
  unfold bind at 2. cbn [gets]. destruct (name_taken _ _); [done |]. unfold bind at 2. cbn [modify].
  by rewrite bind_bind.
Qed.

Lemma write_alone_unregister h s :
  write_alone (Remove h) s =
    bind (bind (unregister_commit h) (fun name => emit_audit self name Unregister EmptyString))
      (fun _ => ret AnswerUnit) s.
Proof.
  rewrite write_alone_eq, bind_bind. unfold bind at 2. rewrite unregister_commit_eq. cbn [update].
  by destruct (keys s !! _).
Qed.

Lemma write_alone_rotate h frags meta s :
  write_alone (Replace h frags meta) s =
    bind (bind (rotate_commit h frags meta) (fun name => emit_audit self name Rotate EmptyString))
      (fun _ => ret AnswerUnit) s.
Proof.
  rewrite write_alone_eq, bind_bind. unfold bind at 2. rewrite rotate_commit_eq. cbn [update].
  by destruct (keys s !! _).
Qed.

Lemma writes n (c : vcall) w m s :
  write_alone w s = m s -> run_alone self (5 + n) c (AtAcquire w) None s = ended m s.
Proof. intros E. rewrite run_alone_write. by apply ended_ext. Qed.

(** The call is over on both sides. *)
Ltac call_over := rewrite ?ended_assoc; cbn [ok_or]; rewrite ?ended_fail; apply run_alone_returned.

(** C27: The interleaved program is the sequential one.  A thread that runs
    alone, from any state, ends exactly as the sequential operation does:
    same result (value, error or panic), same final state of the vault, the
    scratch, the regions and the world, writer lock free. *)
Theorem call_alone_sequential (c : vcall) s :
  run_alone self 10 c (entry_point c) None s = ended (call_alone self c) s.
Proof.
  destruct c as [name key | h | h key | h f]; cbn [entry_point call_alone].
  - unfold register, register_prepare. piece.
    destruct a; [call_over |]. piece. destruct (name_taken name a); [call_over |].
    do 3 piece. rewrite ?ended_ret_bind. apply (writes 0), write_alone_register.
  - unfold unregister. apply (writes 5), write_alone_unregister.
  - unfold Vault.rotate, rotate_prepare. piece. destruct a; [call_over |].
    piece. destruct (a !! KeyHandle.id h) as [e |]; [| call_over]. piece. rename a0 into locked. destruct locked; [call_over |].
    do 2 piece. rewrite ?ended_ret_bind. apply (writes 0), write_alone_rotate.

  - unfold with_key. piece. destruct a; [call_over |]. piece. destruct (a !! KeyHandle.id h) as [e |]; [| call_over].
    piece. destruct a0; [call_over |].
    rewrite !ended_assoc. apply run_alone_read.
Qed.
End alone.
