(* ===== verification/Linearize.v ===== *)
(** * Linearizability of concurrent vault calls

    The abstract registry takes each call's effect at one moment between the
    call's start and its return; [inv] is the invariant of the interleaved
    steps that makes it so. *)

From S2P Require Import Prelude Errors Rust Rng RawKey Normalize Codex Fragment Standard Layouts.
From S2P Require Import Os Guarded Handle Events Config Lockout.
From S2P Require Import VaultState Vault VaultFrame VaultPipeline VaultRead VaultRegistry VaultSpec Concurrent.
From stdpp Require Import relations.

#[local] Open Scope Z_scope.

(** What a call does to the abstract registry, or learns from it. *)
Inductive effect :=
| Inserted (h : KeyHandle) (i : item) | NameInUse | Removed | Replaced | Missing | Seen (i : item) | Refusal.

Section linearize.
Context {W T : Type} `{Rng W} `{Os W} `{Blake3} `{StdTime W} `{PageRefs W} `{Threads W}.
Context (self : VaultInner W).
Implicit Types s : VaultState W.
Implicit Types reg : registry.
Abbreviation vcall := (vault_call T).

(** The abstract registry: one call, at one moment. *)
Inductive takes_effect reg : vcall -> effect -> registry -> Prop :=
| EffInserted name key h i :
    ~ name_used name reg -> reg !! KeyHandle.id h = None ->
    item_name i = name -> normalized self key = Some (item_key i) ->
    takes_effect reg (CallRegister name key) (Inserted h i) (<[KeyHandle.id h := i]> reg)
| EffNameInUse name key : name_used name reg -> takes_effect reg (CallRegister name key) NameInUse reg
| EffRemoved h :
    is_Some (reg !! KeyHandle.id h) ->
    takes_effect reg (CallUnregister h) Removed (delete (KeyHandle.id h) reg)
| EffReplaced h key i i' :
    reg !! KeyHandle.id h = Some i -> item_name i' = item_name i ->
    normalized self key = Some (item_key i') ->
    takes_effect reg (CallRotate h key) Replaced (<[KeyHandle.id h := i']> reg)
| EffSeen h f i :
    reg !! KeyHandle.id h = Some i -> takes_effect reg (CallWithKey h f) (Seen i) reg
| EffNotUnregistered h : reg !! KeyHandle.id h = None -> takes_effect reg (CallUnregister h) Missing reg
| EffNotRotated h key : reg !! KeyHandle.id h = None -> takes_effect reg (CallRotate h key) Missing reg
| EffNotRead h f : reg !! KeyHandle.id h = None -> takes_effect reg (CallWithKey h f) Missing reg
| EffRefusedRegister name key : takes_effect reg (CallRegister name key) Refusal reg
| EffRefusedRotate h key : takes_effect reg (CallRotate h key) Refusal reg
| EffRefusedRead h f : takes_effect reg (CallWithKey h f) Refusal reg.

(** The errors of the pipeline that turns a key into fragments. *)
Definition pipeline_error (key : RawKey.t) (e : Error.t) : Prop :=
  exists s s', fragment_for_registry self key s = (Err e, s').

(** What a call may return, given its effect. *)
Inductive returns : vcall -> effect -> outcome (answer T) -> Prop :=
| RetInserted name key h i : returns (CallRegister name key) (Inserted h i) (Ok (AnswerHandle h))
| RetNameInUse name key : returns (CallRegister name key) NameInUse (Err (duplicate name))
| RetRemoved h : returns (CallUnregister h) Removed (Ok AnswerUnit)
| RetReplaced h key : returns (CallRotate h key) Replaced (Ok AnswerUnit)
| RetMissing c : returns c Missing (Err Error.KeyNotFound)
| RetValue h f i :
    returns (CallWithKey h f) (Seen i)
      (match f (RawKey.bytes (item_key i)) with Some x => Ok (AnswerValue x) | None => Panic end)
| RetSealed h f i :
    page_protection (config self) = true -> returns (CallWithKey h f) (Seen i) (Err open_failed)
| RetKeyLocked h f i : returns (CallWithKey h f) (Seen i) (Err Error.LockedOut)
| RetLockedOut c : returns c Refusal (Err Error.LockedOut)
| RetRegisterFailed name key e : pipeline_error key e -> returns (CallRegister name key) Refusal (Err e)
| RetRotateFailed h key e : pipeline_error key e -> returns (CallRotate h key) Refusal (Err e).

(** A log of effects, by thread, from [reg0] to [reg]. *)
Inductive history (calls : list vcall) (reg0 : registry) : list (nat * effect) -> registry -> Prop :=
| history_nil : history calls reg0 [] reg0
| history_snoc log reg t c ev reg' :
    history calls reg0 log reg -> calls !! t = Some c -> takes_effect reg c ev reg' ->
    history calls reg0 (log ++ [(t, ev)]) reg'.

Abbreviation log := (list (nat * effect)).

(** ** The state of a thread *)

(** A handle [register] has allocated and not stored yet. *)
Definition fresh reg s (h : KeyHandle) : Prop :=
  reg !! KeyHandle.id h = None /\ 1 <= KeyHandle.id h < next_id s.

Definition prepared s (key : RawKey.t) (frags : Fragments) : Prop :=
  exists k, normalized self key = Some k /\ holds self frags k /\ placed self (regions s) frags.

(** A write that is ready to commit. *)
Definition pending_ok reg s (c : vcall) (w : pending) : Prop :=
  match c, w with
  | CallRegister name key, PutNew h e =>
      fresh reg s h /\ exists i, entry_ok self (regions s) e i /\ item_name i = name /\
        normalized self key = Some (item_key i)
  | CallUnregister h, Remove h' => h' = h
  | CallRotate h key, Replace h' frags meta => h' = h /\ prepared s key frags
  | _, _ => False
  end.

Definition clean (l : Scratch) : Prop := borrowed l = false /\ all_zero (buf l).

(** The scratch holds [bytes] in its first [total] bytes and zeros after. *)
Definition filled (l : Scratch) (total : Z) (bytes : list byte) : Prop :=
  borrowed l = true /\ take (Z.to_nat total) (buf l) = bytes /\ all_zero (drop (Z.to_nat total) (buf l)).

Definition not_yet (L : log) (t : nat) : Prop := t ∉ L.*1.

(** The result a thread is on its way to. *)
Definition result_of (p : pc T) : option (outcome (answer T)) :=
  match p with
  | AtAudit _ _ a | AtRelease (AtAudit _ _ a) => Some (Ok a)
  | Returned r | AtRelease (Returned r) => Some r
  | _ => None
  end.

Definition done_ok (L : log) (t : nat) (c : vcall) (p : pc T) (l : Scratch) : Prop :=
  clean l /\ exists ev r, (t, ev) ∈ L /\ result_of p = Some r /\ returns c ev r.

Definition seen_ok s (L : log) (t : nat) (e : KeyEntry) (i : item) : Prop :=
  (t, Seen i) ∈ L /\ entry_ok self (regions s) e i.

(** What is known of a thread at each program point. *)
Definition pc_ok reg s (L : log) (t : nat) (c : vcall) (p : pc T) (l : Scratch) : Prop :=
  match c, p with
  | (CallRegister _ _ | CallRotate _ _ | CallWithKey _ _), (AtGate | AtLoad) => not_yet L t /\ clean l
  | (CallRegister _ _ | CallRotate _ _), AtFragment => not_yet L t /\ clean l
  | CallRegister _ key, AtAllocate frags => not_yet L t /\ clean l /\ prepared s key frags
  | CallRegister _ key, AtStamp h frags => not_yet L t /\ clean l /\ prepared s key frags /\ fresh reg s h
  | CallRotate h key, AtStamp h' frags => not_yet L t /\ clean l /\ h' = h /\ prepared s key frags
  | CallRotate _ _, AtKeyLock _ => not_yet L t /\ clean l
  | CallWithKey _ _, (AtKeyLock e | AtFill e) => clean l /\ exists i, seen_ok s L t e i
  | CallWithKey _ _, AtCall total _ =>
      exists i, (t, Seen i) ∈ L /\ total = RawKey.len (item_key i) /\
        filled l total (RawKey.bytes (item_key i))
  | CallWithKey _ f, AtWipe total _ o =>
      exists i, (t, Seen i) ∈ L /\ o = f (RawKey.bytes (item_key i)) /\
        filled l total (RawKey.bytes (item_key i))
  | _, (AtAcquire w | AtReload w) => not_yet L t /\ clean l /\ pending_ok reg s c w
  | _, AtSwap w new name =>
      not_yet L t /\ clean l /\ pending_ok reg s c w /\ update w (keys s) = Ok (new, name)
  | _, (AtRelease _ | AtAudit _ _ _ | Returned _) => done_ok L t c p l
  | _, _ => False
  end.

(** The handle a thread has allocated and not stored yet. *)
Definition allocated (c : vcall) (p : pc T) : option Z :=
  match c, p with
  | CallRegister _ _, AtStamp h _ => Some (KeyHandle.id h)
  | CallRegister _ _, (AtAcquire (PutNew h _) | AtReload (PutNew h _) | AtSwap (PutNew h _) _ _) =>
      Some (KeyHandle.id h)
  | _, _ => None
  end.

(** Between [lock_writer()] and the guard's drop. *)
Definition in_critical (p : pc T) : bool :=
  match p with AtReload _ | AtSwap _ _ _ | AtRelease _ => true | _ => false end.

(** ** The invariant *)

Record inv (calls : list vcall) (reg0 reg : registry) (L : log) (c : process (W := W)) : Prop := {
  iv_state : vault_inv self reg (shared c);
  iv_scratch : scratch (shared c) = scratch_init;
  iv_history : history calls reg0 L reg;
  iv_log : NoDup L.*1;
  iv_calls : the_call <$> threads c = calls;
  iv_threads : forall t th, threads c !! t = Some th ->
    pc_ok reg (shared c) L t (the_call th) (at_ th) (local th);
  iv_writer : forall t th, threads c !! t = Some th ->
    in_critical (at_ th) = bool_decide (writer c = Some t);
  iv_owner : forall t, writer c = Some t -> is_Some (threads c !! t);
  iv_fresh : forall t1 t2 th1 th2 id, threads c !! t1 = Some th1 -> threads c !! t2 = Some th2 ->
    allocated (the_call th1) (at_ th1) = Some id -> allocated (the_call th2) (at_ th2) = Some id -> t1 = t2
}.

(** ** Other threads' steps *)

(** The fragments in the thread's hands stay where they are. *)
Definition keeps s s' (p : pc T) : Prop :=
  forall f, f ∈ held p -> placed self (regions s) f -> placed self (regions s') f.

Lemma keeps_le s s' p : regions_le (regions s) (regions s') -> keeps s s' p.
Proof. intros Hle f _. by apply placed_le. Qed.

Lemma prepared_keeps s s' key frags p : keeps s s' p -> frags ∈ held p -> prepared s key frags -> prepared s' key frags.
Proof. intros Hk Hin (k & Hn & Hh & Hp). exists k. split_and!; [done.. | by apply Hk]. Qed.

Lemma entry_keeps s s' e i p :
  keeps s s' p -> entry_fragments e ∈ held p -> entry_ok self (regions s) e i -> entry_ok self (regions s') e i.
Proof. intros Hk Hin []. split; [done.. | by apply Hk]. Qed.

Lemma fresh_stable reg s reg' s' h :
  fresh reg s h -> next_id s <= next_id s' -> (reg !! KeyHandle.id h = None -> reg' !! KeyHandle.id h = None) ->
  fresh reg' s' h.
Proof. intros [Hn Hi] Hle Hr. split; [by apply Hr | lia]. Qed.

Lemma pending_ok_stable reg s reg' s' c w :
  pending_ok reg s c w -> keeps s s' (AtAcquire w) -> next_id s <= next_id s' ->
  (forall id, allocated c (AtAcquire w) = Some id -> reg !! id = None -> reg' !! id = None) ->
  pending_ok reg' s' c w.
Proof.
  destruct c, w; cbn; try done.
  - intros [Hf (i & He & Hi)] Hk Hn Ha. split; [by eapply fresh_stable; [| | apply Ha] |].
    exists i. split; [eapply entry_keeps; [exact Hk | by apply list_elem_of_singleton | done] | done].
  - intros [-> Hp] Hk _ _. split; [done | eapply prepared_keeps; [exact Hk | by apply list_elem_of_singleton | done]].
Qed.

Lemma seen_ok_stable s s' L L' t e i p :
  seen_ok s L t e i -> keeps s s' p -> entry_fragments e ∈ held p -> (forall x, x ∈ L -> x ∈ L') -> seen_ok s' L' t e i.
Proof. intros [Hi He] Hk Hin HL. split; [by apply HL | by eapply entry_keeps]. Qed.

Lemma pc_ok_stable reg s L reg' s' L' t c p l :
  pc_ok reg s L t c p l -> keeps s s' p -> next_id s <= next_id s' ->
  (in_critical p = true -> keys s' = keys s) ->
  (forall x, x ∈ L -> x ∈ L') -> (not_yet L t -> not_yet L' t) ->
  (forall id, allocated c p = Some id -> reg !! id = None -> reg' !! id = None) ->
  pc_ok reg' s' L' t c p l.
Proof.
  intros Hp Hle Hn Hk HL Hy Ha.
  assert (done_ok L t c p l -> done_ok L' t c p l) as Hdone.
  { intros (Hc & ev & r & Hin & Hr). split; [done |]. exists ev, r. by split; [apply HL |]. }
  assert (forall w, held p = held (T := T) (AtAcquire w) -> allocated c (AtAcquire w) = allocated c p ->
    pending_ok reg s c w -> pending_ok reg' s' c w) as Hpend.
  { intros w Hh Hw Hpo. eapply pending_ok_stable; [done | | done |].
    - intros f. rewrite <- Hh. apply Hle.
    - intros id. rewrite Hw. apply Ha. }
  assert (forall f, f ∈ held p -> forall key, prepared s key f -> prepared s' key f) as Hprep
    by (intros f Hf key; by eapply prepared_keeps).
  assert (forall e, entry_fragments e ∈ held p -> forall i, seen_ok s L t e i -> seen_ok s' L' t e i) as Hseen
    by (intros e He i Hs; by eapply seen_ok_stable).
  pose proof @list_elem_of_singleton as Hone.
  destruct p, c; cbn [pc_ok held] in *; try done; try (by apply Hdone); try tauto.
  all: try (destruct Hp as (? & ? & ?); split_and!; eauto using list_elem_of_here; done).
  all: try (destruct Hp as (? & i & ?); split; [done |]; exists i; eauto using list_elem_of_here; done).
  all: try (destruct Hp as (? & ? & ? & ?); split_and!; eauto using list_elem_of_here, fresh_stable; done).
  all: try (destruct Hp as (? & ? & ? & ?); rewrite Hk by done; split_and!; eauto; done).
  all: try (destruct Hp as (i & ? & ? & ?); exists i; split_and!; eauto; done).

Qed.

(** ** A thread's own steps *)

Record moved reg s L t c p reg' s' L' p' : Prop := {
  mv_inv : vault_inv self reg' s';
  mv_log : (L' = L /\ reg' = reg) \/
           exists ev, L' = L ++ [(t, ev)] /\ not_yet L t /\ takes_effect reg c ev reg';
  mv_ok : pc_ok reg' s' L' t c p' (scratch s');
  mv_regions : regions_le (regions s) (regions s');
  mv_next : next_id s <= next_id s';
  mv_keys : in_critical p = false -> keys s' = keys s;
  mv_put : forall id, reg !! id = None -> is_Some (reg' !! id) -> allocated c p = Some id;
  mv_allocated : forall id, allocated c p' = Some id -> allocated c p = Some id \/ next_id s <= id
}.

(** The registry and the counter stay; [calm]: the scratch too. *)
Record still s s' : Prop := {
  st_keys : keys s' = keys s;
  st_next : next_id s' = next_id s;
  st_regions : regions_le (regions s) (regions s')
}.

Definition calm s s' : Prop := still s s' /\ scratch s' = scratch s.

Lemma calm_refl s : calm s s.
Proof. by split; [split |]. Qed.

Lemma frame_calm s s' : frame s s' -> calm s s'.
Proof. intros []. by split; [split |]. Qed.

(** A step without effect on the registry. *)
Lemma moved_still reg s L t c p s' p' :
  vault_inv self reg s' -> still s s' ->
  (pc_ok reg s' L t c p' (scratch s')) ->
  (forall id, allocated c p' = Some id -> allocated c p = Some id) ->
  moved reg s L t c p reg s' L p'.
Proof.
  intros Hi [Hk Hn Hr] Hp Ha. split; [done | by left | done | done | lia | done | |].
  - intros id Hno [? Hyes]. congruence.
  - intros id Hid. left. by apply Ha.
Qed.

Lemma moved_calm reg s L t c p s' p' :
  vault_inv self reg s' -> calm s s' ->
  (pc_ok reg s' L t c p' (scratch s)) ->
  (forall id, allocated c p' = Some id -> allocated c p = Some id) ->
  moved reg s L t c p reg s' L p'.
Proof. intros Hi [Hs Hsc] Hp Ha. apply moved_still; [done.. | by rewrite Hsc | done]. Qed.

Lemma pc_ok_returned reg s L t c r l : done_ok L t c (Returned r) l -> pc_ok reg s L t c (Returned r) l.
Proof. by destruct c. Qed.

Lemma done_returned L t c ev r l : clean l -> (t, ev) ∈ L -> returns c ev r -> done_ok L t c (Returned r) l.
Proof. intros Hc Hin Hr. split; [done |]. by exists ev, r. Qed.

Lemma elem_of_snoc (L : log) x : x ∈ L ++ [x].
Proof. apply elem_of_app. right. by apply list_elem_of_singleton. Qed.
#[local] Hint Resolve elem_of_snoc done_returned pc_ok_returned calm_refl frame_calm : kv.

(** A call that learns something from the registry, and goes on or ends. *)
Lemma moved_learn reg s L t c p s' ev p' :
  vault_inv self reg s' -> still s s' -> not_yet L t -> takes_effect reg c ev reg ->
  pc_ok reg s' (L ++ [(t, ev)]) t c p' (scratch s') ->
  (forall id, allocated c p' = Some id -> allocated c p = Some id) ->
  moved reg s L t c p reg s' (L ++ [(t, ev)]) p'.
Proof.
  intros Hi [Hk Hn Hr] Hy He Hp Ha. split; [done | right; by exists ev | done | done | lia | done | |].
  - intros id Hno [? Hyes]. congruence.
  - intros id Hid. left. by apply Ha.
Qed.

Lemma moved_return reg s L t c p s' ev r :
  vault_inv self reg s' -> calm s s' -> not_yet L t -> clean (scratch s) ->
  takes_effect reg c ev reg -> returns c ev r ->
  moved reg s L t c p reg s' (L ++ [(t, ev)]) (Returned r).
Proof.
  intros Hi [Hs Hsc] Hy Hc He Hret. apply moved_learn; [done.. | |].
  - rewrite Hsc. eauto with kv.
  - intros id. by destruct c.
Qed.

Definition call_ok (c : vcall) : Prop :=
  match c with
  | CallRegister _ key | CallRotate _ key => RawKey.len key <= isize_max
  | _ => True
  end.

(** What a step of thread [t] does. *)
Definition moves reg s L t c p (r : option (pc T * VaultState W)) : Prop :=
  match r with
  | Some (p', s') => exists reg' L', moved reg s L t c p reg' s' L' p'
  | None => True
  end.

(** The gate, for the calls that have one. *)
Lemma gate_moves reg s L t c :
  vault_inv self reg s -> not_yet L t -> clean (scratch s) -> takes_effect reg c Refusal reg ->
  pc_ok reg s L t c AtLoad (scratch s) ->
  moves reg s L t c AtGate
    (Some (act is_locked_out (fun locked => if locked then refused else AtLoad) s)).
Proof.
  intros Hi Hy Hc He Hp. cbn. destruct (locked_out (lock s)).
  - exists reg, (L ++ [(t, Refusal)]). apply moved_return; auto with kv. constructor.
  - exists reg, L. apply moved_calm; [done | apply calm_refl | done | done].
Qed.

(** Fragmenting, for the calls that bring a key. *)
Lemma fragment_moves reg s L t c key k :
  vault_wf self -> RawKey.len key <= isize_max ->
  vault_inv self reg s -> not_yet L t -> clean (scratch s) -> takes_effect reg c Refusal reg ->
  (forall e, pipeline_error key e -> returns c Refusal (Err e)) ->
  (forall frags s', prepared s' key frags -> pc_ok reg s' L t c (k frags) (scratch s)) ->
  (forall frags id, allocated c (k frags) = Some id -> allocated c AtFragment = Some id) ->
  moves reg s L t c AtFragment (Some (act (fragment_for_registry self key) k s)).
Proof.
  intros Hwf Hl Hi Hy Hc He Hret Hp Ha. unfold act.
  pose proof (fragment_for_registry_after self Hwf reg s key Hi Hl) as Hf.
  destruct (fragment_for_registry self key s) as [[frags | e | |] s'] eqn:E; [| | done..]; cbn.
  - destruct Hf as [Hfr Hprep]. exists reg, L. apply moved_calm; eauto using vault_inv_frame with kv.
  - exists reg, (L ++ [(t, Refusal)]). apply moved_return; eauto using vault_inv_frame with kv.
    apply Hret. by exists s, s'.
Qed.

(** Reading the clock for the metadata. *)
Lemma stamp_moves reg s L t c p k :
  vault_inv self reg s ->
  (forall now s', regions s' = regions s -> next_id s' = next_id s -> pc_ok reg s' L t c (k now) (scratch s)) ->
  (forall now id, allocated c (k now) = Some id -> allocated c p = Some id) ->
  moves reg s L t c p (Some (act (clock_unix self) k s)).
Proof.
  intros Hi Hp Ha. unfold act. destruct (clock_unix_ok self s) as (now & w & ->). cbn.
  pose proof (frame_world w s) as Hf. exists reg, L.
  apply moved_calm; eauto using vault_inv_frame with kv.
Qed.

(** Filling the scratch. *)
Lemma read_fill_spec frags key s :
  regions_ok (regions s) -> placed self (regions s) frags -> holds self frags key -> clean (scratch s) ->
  match read_fill self frags s with
  | (Ok _, s') => sframe (set_borrowed true s) s' /\ total_len frags = RawKey.len key /\
      filled (scratch s') (total_len frags) (RawKey.bytes key)
  | (Err e, s') => sframe s s' /\ e = open_failed /\ page_protection (config self) = true /\ clean (scratch s')
  | _ => False
  end.
Proof.
  intros Hok Hp Hh [Hb Hz].
  assert (total_len frags <= isize_max) as Hmax.
  { destruct Hh as (? & enc & Hc%coded_length & Ht & _). lia. }
  unfold read_fill. rewrite Hb. set (total := total_len frags) in *.
  set (s0 := set_borrowed true s). pose proof (ensure_len_spec total s0 Hz) as He.
  destruct (ensure_len total s0) as [[[] | e | |] s1]; [| done | lia | done].
  destruct He as (Hfr & Hlen & Hz1 & Hrg).
  pose proof (reassemble_keeps_tail self frags total s1 Hlen) as Hk.
  destruct (reassemble_spec self frags key total s1) as [Htk Hre]; [by rewrite Hrg.. | done | done | done |].
  destruct (reassemble self frags total s1) as [[[] | e | |] s2]; [| | done..].
  - destruct Hre as [Hfr2 Hby]. split_and!; [by etrans | done |].
    destruct Hk as (Hkb & _ & Hkd). cbn [snd] in *. split_and!; [| done |].
    + rewrite Hkb. by rewrite (sf_borrowed _ _ Hfr).
    + rewrite Hkd. by apply Forall_drop.
  - destruct Hre as (Hfr2 & -> & Hpp). split_and!; [| done | done | split; [done |]].
    + destruct Hfr, Hfr2. split; cbn in *; congruence || auto || by etrans.
    + by eapply (zero_on_exit_zero total s1).
Qed.

(** Wiping it again. *)
Lemma read_wipe_clean total bytes s :
  filled (scratch s) total bytes -> clean (scratch (read_wipe total s)).
Proof.
  intros (_ & _ & Hd). split; [done |]. cbn. rewrite volatile_zero_slice_spec. apply Forall_app.
  split; [apply all_zero_zeros | done].
Qed.

Lemma vault_inv_scratch reg s l :
  vault_inv self reg s -> (borrowed l = false -> all_zero (buf l)) -> vault_inv self reg (set_scratch l s).
Proof. intros [] Hl. by split. Qed.

Lemma sframe_inv reg s s' b :
  vault_inv self reg s -> sframe (set_borrowed b s) s' ->
  (borrowed (scratch s') = false -> all_zero (buf (scratch s'))) ->
  vault_inv self reg s' /\ still s s'.
Proof.
  intros Hi []. cbn in *. split; [| by split].
  eapply vault_inv_step; [exact Hi | done | lia | done | | done].
  apply sf_ok, Hi.
Qed.

(** ** [with_key] *)

Lemma with_key_moves reg s L t h f p :
  vault_inv self reg s -> pc_ok reg s L t (CallWithKey h f) p (scratch s) ->
  moves reg s L t (CallWithKey h f) p (with_key_move self h f p s).
Proof.
  intros Hi Hp. destruct p; cbn [with_key_move]; try done; cbn [pc_ok] in Hp.
  - destruct Hp. apply gate_moves; [done.. | constructor | done].
  - destruct Hp as [Hy Hc]. cbn. pose proof (vault_inv_lookup self reg s (KeyHandle.id h) Hi) as Hl.
    destruct (keys s !! KeyHandle.id h) as [e |].
    + destruct Hl as (i & Hr & He). exists reg, (L ++ [(t, Seen i)]).
      apply moved_learn; [done | apply calm_refl | done | by constructor | | done].
      split; [done |]. exists i. split; [apply elem_of_snoc | done].
    + exists reg, (L ++ [(t, Missing)]). apply moved_return; auto with kv; by constructor.
  - destruct Hp as [Hc (i & Hin & He)]. unfold act.
    destruct (name_locked_spec self (entry_name entry) s) as (b & l & w & -> & _).
    pose proof (vault_inv_lock self reg s l w Hi) as Hi'. exists reg, L.
    destruct b; apply moved_still; try done.
    + apply (done_returned _ _ _ (Seen i)); [done.. | constructor].
    + split; [done |]. by exists i.
  - destruct Hp as [Hc (i & Hin & He)]. unfold act.
    assert (share (entry_fragments entry) = entry_fragments entry) as -> by (by destruct (entry_fragments entry)).
    pose proof (read_fill_spec (entry_fragments entry) (item_key i) s (vi_regions _ _ _ Hi)
      (eo_placed _ _ _ _ He) (eo_holds _ _ _ _ He) Hc) as Hf.
    destruct (read_fill self _ s) as [[[] | e | |] s']; [| | done..]; exists reg, L.
    + destruct Hf as (Hs & Ht & Hfl). destruct (sframe_inv reg s s' true Hi Hs) as [Hi' Hst].
      { destruct Hfl as (-> & _). done. }
      apply moved_still; [done.. | | done]. exists i. by split_and!.
    + destruct Hf as (Hs & -> & Hpp & Hc'). destruct (sframe_inv reg s s' (borrowed (scratch s)) Hi) as [Hi' Hst].
      { etrans; [| exact Hs]. by destruct s as [? ? ? ? [] ? ?]. }
      { intros _. apply Hc'. }
      apply moved_still; [done.. | | done]. apply (done_returned _ _ _ (Seen i)); [done.. | by constructor].
  - destruct Hp as (i & Hin & -> & Hfl). exists reg, L. apply moved_calm; [done | apply calm_refl | | done].
    exists i. split_and!; [done | | done]. destruct Hfl as (_ & -> & _). done.
  - destruct Hp as (i & Hin & -> & Hfl). exists reg, L.
    pose proof (read_wipe_clean _ _ s Hfl) as Hc.
    assert (vault_inv self reg (read_wipe total s)) as Hi'.
    { apply (vault_inv_scratch reg s (scratch (read_wipe total s)) Hi). intros _. apply Hc. }
    assert (returns (CallWithKey h f) (Seen i) (match f (RawKey.bytes (item_key i)) with
      Some x => Ok (AnswerValue x) | None => Panic end)) as Hret by constructor.
    destruct (f _) as [x |]; [destruct (is_no_op (audit self)) |]; apply moved_still; try done.
    all: split; [done |]; exists (Seen i); eexists; by split_and!.
Qed.

(** ** The writers, up to the lock *)

Lemma register_moves reg s L t name key p :
  vault_wf self -> RawKey.len key <= isize_max -> next_id s < u64_max ->
  vault_inv self reg s -> pc_ok reg s L t (CallRegister name key) p (scratch s) ->
  moves reg s L t (CallRegister name key) p (register_move self name key p s).
Proof.
  intros Hwf Hl Hnext Hi Hp. destruct p; cbn [register_move]; try done; cbn [pc_ok] in Hp.
  - destruct Hp. apply gate_moves; [done.. | constructor | done].
  - destruct Hp as [Hy Hc]. cbn. destruct (name_taken name (keys s)) eqn:E.
    + exists reg, (L ++ [(t, NameInUse)]).
      apply moved_return; auto with kv; constructor. by apply (name_taken_spec self reg s).
    + exists reg, L. apply moved_calm; [done | apply calm_refl | done | done].
  - destruct Hp as [Hy Hc]. eapply fragment_moves; [done.. | constructor | by constructor | | done].
    intros frags s' Hprep. by split_and!.
  - destruct Hp as (Hy & Hc & Hprep). pose proof (vi_next _ _ _ Hi).
    unfold act, on_next_id, zoom. rewrite allocate_ok by (unfold u64_max in *; lia).
    unfold wrap64. rewrite Z.mod_small by (unfold u64_max in *; lia). cbn.
    set (s' := set_next_id (next_id s + 1) s). exists reg, L.
    assert (vault_inv self reg s') as Hi'.
    { eapply vault_inv_step; [exact Hi | done | cbn; lia | done | apply Hi..]. }
    split; [done | by left | | done | cbn; lia | done | |].
    + split_and!; [done | apply Hc.. | apply Hprep | split; [| cbn; lia]].
      cbn. destruct (reg !! next_id s) eqn:Er; [| done].
      pose proof (vi_ids _ _ _ Hi (next_id s)) as Hr. rewrite Er in Hr. specialize (Hr ltac:(done)). lia.
    + intros id Hno [? Hyes]. congruence.
    + intros id [= <-]. right. cbn. lia.
  - destruct Hp as (Hy & Hc & (k & Hk & Hh & Hpl) & Hf).
    apply stamp_moves; [done | | done].
    intros now s' Hr Hn. split_and!; [done | apply Hc.. |]. cbn. split; [by unfold fresh; rewrite Hn |].
    exists {| item_name := name; item_key := k; item_meta := KeyMetadata.new now (RawKey.len key) None |}.
    split_and!; [split; by rewrite ?Hr | done | done].
Qed.

Lemma rotate_moves reg s L t h key p :
  vault_wf self -> RawKey.len key <= isize_max ->
  vault_inv self reg s -> pc_ok reg s L t (CallRotate h key) p (scratch s) ->
  moves reg s L t (CallRotate h key) p (rotate_move self h key p s).
Proof.
  intros Hwf Hl Hi Hp. destruct p; cbn [rotate_move]; try done; cbn [pc_ok] in Hp.
  - destruct Hp. apply gate_moves; [done.. | constructor | done].
  - destruct Hp as [Hy Hc]. cbn. pose proof (vault_inv_lookup self reg s (KeyHandle.id h) Hi) as Hlk.
    destruct (keys s !! KeyHandle.id h) as [e |].
    + exists reg, L. apply moved_calm; [done | apply calm_refl | done | done].
    + exists reg, (L ++ [(t, Missing)]). apply moved_return; auto with kv; by constructor.
  - destruct Hp as [Hy Hc]. unfold act.
    destruct (name_locked_spec self (entry_name entry) s) as (b & l & w & -> & _).
    pose proof (vault_inv_lock self reg s l w Hi) as Hi'.
    destruct b; [exists reg, (L ++ [(t, Refusal)]) | exists reg, L].
    + apply moved_return; [done | by split; [split |] | done.. | constructor | constructor].
    + by apply moved_still.
  - destruct Hp as [Hy Hc]. eapply fragment_moves; [done.. | constructor | by constructor | | done].
    intros frags s' Hprep. by split_and!.
  - destruct Hp as (Hy & Hc & -> & (k & Hk & Hh & Hpl)).
    apply stamp_moves; [done | | done].
    intros now s' Hr Hn. split_and!; [done | apply Hc.. |]. cbn. split; [done |]. exists k.
    by rewrite Hr.
Qed.

Lemma move_moves reg s L t c p :
  vault_wf self -> call_ok c -> next_id s < u64_max ->
  vault_inv self reg s -> pc_ok reg s L t c p (scratch s) ->
  moves reg s L t c p (move self c p s).
Proof.
  intros Hwf Hc Hnext Hi Hp. destruct c; cbn [move].
  - by apply register_moves.
  - done.
  - by apply rotate_moves.
  - by apply with_key_moves.
Qed.

(** ** Under the lock *)

Lemma pc_ok_acquire reg s L t c w l :
  pc_ok reg s L t c (AtAcquire w) l = (not_yet L t /\ clean l /\ pending_ok reg s c w).
Proof. by destruct c. Qed.

Lemma pc_ok_reload reg s L t c w l :
  pc_ok reg s L t c (AtReload w) l = (not_yet L t /\ clean l /\ pending_ok reg s c w).
Proof. by destruct c. Qed.

Lemma pc_ok_swap reg s L t c w new name l :
  pc_ok reg s L t c (AtSwap w new name) l =
    (not_yet L t /\ clean l /\ pending_ok reg s c w /\ update w (keys s) = Ok (new, name)).
Proof. by destruct c. Qed.

Lemma pc_ok_done reg s L t c p l :
  is_Some (result_of p) -> pc_ok reg s L t c p l = done_ok L t c p l.
Proof. intros [r Hr]. by destruct c, p. Qed.

(** Loading the map and checking it. *)
Lemma reload_moves reg s L t c w :
  vault_inv self reg s -> pc_ok reg s L t c (AtReload w) (scratch s) ->
  exists L', moved reg s L t c (AtReload w) reg s L'
    (match update w (keys s) with
     | Ok (new_map, name) => AtSwap w new_map name
     | Err e => AtRelease (Returned (Err e))
     | Panic => AtRelease (Returned Panic)
     | Diverge => AtRelease (Returned Diverge)
     end).
Proof.
  rewrite pc_ok_reload. intros Hi (Hy & Hc & Hp).
  assert (forall ev e, takes_effect reg c ev reg -> returns c ev (Err e) ->
    moved reg s L t c (AtReload w) reg s (L ++ [(t, ev)]) (AtRelease (Returned (Err e)))) as Hfail.
  { intros ev e He Hr. apply moved_learn; [done | apply calm_refl | done | done | |]; [| by destruct c].
    rewrite pc_ok_done by done. split; [done |]. exists ev, (Err e). split_and!; [apply elem_of_snoc | done | done]. }
  assert (forall new name, update w (keys s) = Ok (new, name) ->
    moved reg s L t c (AtReload w) reg s L (AtSwap w new name)) as Hok.
  { intros new name E. apply moved_calm; [done | apply calm_refl | by rewrite pc_ok_swap | by destruct c]. }
  destruct (update w (keys s)) as [[new name] | e | |] eqn:E.
  - exists L. by apply Hok.
  - destruct c as [name key | h | h key | h f], w as [h' en | h' | h' frags meta]; cbn in Hp, E; try done.
    + destruct Hp as [_ (i & He & <- & _)]. rewrite (eo_name _ _ _ _ He) in E.
      destruct (name_taken (item_name i) (keys s)) eqn:Ent; [| done]. injection E as <-.
      eexists. apply (Hfail NameInUse); [| constructor]. constructor. by apply (name_taken_spec self reg s).
    + pose proof (vault_inv_lookup self reg s (KeyHandle.id h') Hi) as Hl.
      destruct (keys s !! KeyHandle.id h'); [done |]. injection E as <-. subst h'.
      eexists. apply (Hfail Missing); by constructor.
    + pose proof (vault_inv_lookup self reg s (KeyHandle.id h') Hi) as Hl.
      destruct (keys s !! KeyHandle.id h'); [done |]. injection E as <-. destruct Hp as [-> _].
      eexists. apply (Hfail Missing); by constructor.
  - by destruct w; cbn in E; case_match.
  - by destruct w; cbn in E; case_match.
Qed.

(** The swap is where a write takes effect. *)
Lemma swap_moves reg s L t c w new name :
  vault_inv self reg s -> pc_ok reg s L t c (AtSwap w new name) (scratch s) ->
  exists reg' L', moved reg s L t c (AtSwap w new name) reg' (set_keys new s) L'
    (AtRelease (AtAudit name (write_kind w) (write_answer w))).
Proof.
  rewrite pc_ok_swap. intros Hi (Hy & Hc & Hp & E).
  assert (forall ev reg', takes_effect reg c ev reg' -> returns c ev (Ok (write_answer w)) ->
    vault_inv self reg' (set_keys new s) ->
    (forall id, reg !! id = None -> is_Some (reg' !! id) -> allocated c (AtSwap w new name) = Some id) ->
    exists reg' L', moved reg s L t c (AtSwap w new name) reg' (set_keys new s) L'
      (AtRelease (AtAudit name (write_kind w) (write_answer w)))) as Hdone.
  { intros ev reg' He Hr Hi' Hput. exists reg', (L ++ [(t, ev)]).
    split; [done | right; by exists ev | | done | cbn; lia | done | done | by destruct c].
    rewrite pc_ok_done by done. split; [done |]. eexists ev, _. split_and!; [apply elem_of_snoc | done | done]. }
  destruct c as [name' key | h | h key | h f], w as [h' en | h' | h' frags meta]; cbn in Hp, E; try done.
  - destruct Hp as [[Hno Hid] (i & He & Hn & Hk)].
    destruct (name_taken (entry_name en) (keys s)) eqn:Ent; [done |]. injection E as <- <-.
    assert (~ name_used (item_name i) reg) as Hfree.
    { intros Hu%(name_taken_spec self reg s _ Hi). rewrite (eo_name _ _ _ _ He) in Ent. congruence. }
    apply (Hdone (Inserted h' i) (<[KeyHandle.id h' := i]> reg)); [constructor; by rewrite <- ?Hn | constructor | |].
    + apply vault_inv_insert; [done.. |]. by intros Hu%name_used_delete.
    + intros id Hid0 Hid1. cbn. destruct (decide (id = KeyHandle.id h')) as [-> | Hne]; [done |].
      rewrite lookup_insert_ne in Hid1 by done. rewrite Hid0 in Hid1. by destruct Hid1.
  - pose proof (vault_inv_lookup self reg s (KeyHandle.id h') Hi) as Hl. subst h'.
    destruct (keys s !! KeyHandle.id h); [| done]. injection E as <- <-. destruct Hl as (i & Hr & _).
    apply (Hdone Removed (delete (KeyHandle.id h) reg)); [by constructor | constructor | by apply vault_inv_delete |].
    intros id Hno [j [_ Hj]%lookup_delete_Some]. congruence.
  - pose proof (vault_inv_lookup self reg s (KeyHandle.id h') Hi) as Hl. destruct Hp as [-> (k & Hk & Hh & Hpl)].
    destruct (keys s !! KeyHandle.id h) as [e |]; [| done]. injection E as <- <-. destruct Hl as (i & Hr & He).
    set (i' := {| item_name := item_name i; item_key := k; item_meta := meta |}).
    apply (Hdone Replaced (<[KeyHandle.id h := i']> reg)); [by econstructor | constructor | |].
    + apply vault_inv_insert; [done | by split; [apply He | ..] | apply (vi_ids _ _ _ Hi); by rewrite Hr |].
      intros (id & j & [Hne Hj]%lookup_delete_Some & Hnm). apply Hne. symmetry.
      by apply (vi_names _ _ _ Hi id _ j i).
    + intros id Hno Hyes. destruct (decide (id = KeyHandle.id h)) as [-> | Hne]; [congruence |].
      rewrite lookup_insert_ne in Hyes by done. rewrite Hno in Hyes. by destruct Hyes.
Qed.

(** ** One step of one thread *)

(** How a step changes who holds the lock. *)
Definition writer_moved (t : nat) (w w' : option nat) (before after_ : bool) : Prop :=
  match before, after_ with
  | false, true => w = None /\ w' = Some t
  | true, false => w' = None
  | _, _ => w' = w
  end.

Lemma act_outside {A} (m : M (VaultState W) A) (k : A -> pc T) s :
  (forall a, in_critical (k a) = false) -> in_critical (act m k s).1 = false.
Proof. intros Hk. unfold act. destruct (m s) as [[a | e | |] s']; [apply Hk | done..]. Qed.

Lemma move_outside c p s p' s' :
  move self c p s = Some (p', s') -> in_critical p = false /\ in_critical p' = false.
Proof.
  assert (forall A (m : M (VaultState W) A) k, (forall a, in_critical (k a) = false) ->
    Some (act m k s) = Some (p', s') -> in_critical p' = false) as Ha.
  { intros A m k Hk [= E]. pose proof (act_outside m k s Hk) as Hx. by rewrite E in Hx. }
  destruct c, p; cbn [move register_move rotate_move with_key_move]; try done; intros E; (split; [done |]).
  all: try (eapply Ha, E; intros a; cbn beta; by repeat case_match).
  - by injection E as <- <-.
  - injection E as <- <-. by repeat case_match.
Qed.

Lemma thread_step_moves reg s L t w c p p' w' s' :
  vault_wf self -> call_ok c -> next_id s < u64_max ->
  vault_inv self reg s -> pc_ok reg s L t c p (scratch s) ->
  thread_step self t w c p s = Some (p', w', s') ->
  (exists reg' L', moved reg s L t c p reg' s' L' p') /\
  writer_moved t w w' (in_critical p) (in_critical p').
Proof.
  intros Hwf Hc Hnext Hi Hp E.
  assert (match move self c p s with Some (p, s) => Some (p, w, s) | None => None end = Some (p', w', s') ->
    (exists reg' L', moved reg s L t c p reg' s' L' p') /\
    writer_moved t w w' (in_critical p) (in_critical p')) as Hmove.
  { clear E. pose proof (move_moves reg s L t c p Hwf Hc Hnext Hi Hp) as Hm.
    destruct (move self c p s) as [[p1 s1] |] eqn:Em; [| done]. intros [= -> <- ->].
    destruct (move_outside _ _ _ _ _ Em) as [-> ->]. done. }
  destruct p; cbn [thread_step] in E; try (by apply Hmove).
  - destruct (decide (w = None)); [| done]. injection E as <- <- <-. split; [| done].
    exists reg, L. apply moved_calm; [done | apply calm_refl | | by destruct c].
    rewrite pc_ok_reload. by rewrite pc_ok_acquire in Hp.
  - injection E as <- <- <-. split.
    + destruct (reload_moves reg s L t c w0 Hi Hp) as [L' Hm]. by exists reg, L'.
    + by destruct (update w0 (keys s)) as [[] | | |].
  - injection E as <- <- <-. split; [by apply swap_moves | done].
  - injection E as <- <- <-. split.
    + exists reg, L. assert (is_Some (result_of (AtRelease p))) as Hr by (by destruct c; destruct Hp as (_ & ? & r & _ & Hr & _); exists r).
      apply moved_calm; [done | apply calm_refl | | destruct Hr as [r Hr]; by destruct p; destruct c].
      rewrite pc_ok_done in Hp by done. destruct Hp as (Hcl & ev & r & Hin & Hres & Hret).
      destruct p; cbn in Hres; try done; rewrite pc_ok_done by done; split; try done; by exists ev, r.
    + assert (is_Some (result_of (AtRelease p))) as [r Hr] by (by destruct c; destruct Hp as (_ & ? & r & _ & Hr & _); exists r).
      by destruct p.
  - rewrite pc_ok_done in Hp by done. destruct Hp as (Hcl & ev & r & Hin & Hres & Hret). cbn in Hres.
    destruct (emit_audit_after self reg s s name kind EmptyString) as (s1 & Es & Hf & Ha); [by apply after_refl |].
    unfold act in E. rewrite Es in E. injection E as <- <- <-. split; [| done].
    exists reg, L. apply moved_calm; [apply Ha | by apply frame_calm | | by destruct c].
    rewrite pc_ok_done by done. split; [done |]. by exists ev, r.
Qed.

(** ** The invariant holds throughout *)

Lemma pc_ok_scratch reg s L t c p l :
  pc_ok reg s L t c p l -> borrowed l = false -> all_zero (buf l).
Proof.
  assert (clean l -> borrowed l = false -> all_zero (buf l)) as Hcl by (by intros []).
  assert (forall total bytes, filled l total bytes -> borrowed l = false -> all_zero (buf l)) as Hfl
    by (intros total bytes (Hb & _) ?; congruence).
  destruct c, p; cbn [pc_ok]; try done; try (intros (? & ? & ?); by eauto); try (intros (? & ? & ? & ?); by eauto).
  all: intros []; by eauto.
Qed.

Lemma pc_ok_allocated reg s L t c p l id :
  pc_ok reg s L t c p l -> allocated c p = Some id -> reg !! id = None /\ 1 <= id < next_id s.
Proof.
  destruct c as [name key | | |]; try done. destruct p; cbn [pc_ok allocated]; try done.
  - intros (_ & _ & _ & Hf) [= <-]. exact Hf.
  - destruct w; try done. intros (_ & _ & Hf & _) [= <-]. exact Hf.
  - destruct w; try done. intros (_ & _ & Hf & _) [= <-]. exact Hf.
  - destruct w; try done. intros (_ & _ & [Hf _] & _) [= <-]. exact Hf.
Qed.

Lemma inv_start calls reg0 s :
  vault_inv self reg0 s -> scratch s = scratch_init -> inv calls reg0 reg0 [] (start calls s).
Proof.
  intros Hi Hs. split; cbn; [done | done | constructor | constructor | | | | done |].
  - rewrite <- list_fmap_compose. apply list_eq_Forall2, Forall2_fmap_l, Forall_Forall2_diag, Forall_forall.
    intros c _. by destruct c.
  - intros t th Ht. rewrite list_lookup_fmap in Ht. apply fmap_Some in Ht as (c & _ & ->). cbn.
    assert (not_yet [] t) as Hy by (apply not_elem_of_nil).
    assert (clean scratch_init) as Hc by (split; [done | constructor]).
    destruct c; by split_and!.
  - intros t th Ht. rewrite list_lookup_fmap in Ht. apply fmap_Some in Ht as (c & _ & ->). by destruct c.
  - intros t1 t2 th1 th2 id Ht. rewrite list_lookup_fmap in Ht. apply fmap_Some in Ht as (c & _ & ->).
    by destruct c.
Qed.

Lemma inv_others calls reg0 reg L c s' :
  inv calls reg0 reg L c -> others (shared c) s' ->
  inv calls reg0 reg L {| shared := s'; writer := writer c; threads := threads c |}.
Proof.
  intros [] []. split; cbn; try done.
  - eapply vault_inv_step; [done | done | done | done | apply ot_ok, iv_state0 |].
    rewrite ot_scratch. apply iv_state0.
  - congruence.
  - intros t th Ht. eapply pc_ok_stable; eauto using keeps_le.
Qed.

(** A region nobody refers to goes: what everyone holds stays in place. *)
Lemma drop_region_spec id r s :
  exists w, drop_region id r s =
    set_world w (set_regions {| table := delete id (table (regions s)); next_region := next_region (regions s) |} s).
Proof. unfold drop_region. destruct (region_drop r (world s)) as [bytes w]. by exists w. Qed.

Lemma present_drop id r s f :
  ~ lives_in id f -> region_present (regions s) f -> region_present (regions (drop_region id r s)) f.
Proof.
  destruct (drop_region_spec id r s) as [w ->]. cbn. intros Hno Hp j Hj. cbn.
  rewrite lookup_delete_ne; [by apply Hp |]. intros ->. by apply Hno.
Qed.

Lemma placed_drop id r s f :
  ~ lives_in id f -> placed self (regions s) f -> placed self (regions (drop_region id r s)) f.
Proof. intros Hno [Hp Hn]. split; [by apply present_drop | done]. Qed.

Lemma vault_inv_drop reg s id r :
  vault_inv self reg s -> (forall k e, keys s !! k = Some e -> ~ lives_in id (entry_fragments e)) ->
  ~ Exists (lives_in id) (secrets self) -> vault_inv self reg (drop_region id r s).
Proof.
  intros Hi Hkeys Hsec. pose proof (fun f => placed_drop id r s f) as Hpl.
  pose proof (fun f => present_drop id r s f) as Hpr.
  destruct (drop_region_spec id r s) as [w E]. rewrite E in *. destruct Hi. split; cbn; try done.
  - intros k. specialize (vi_entries k). specialize (Hkeys k).
    destruct vi_entries as [e i [] |]; constructor. split; [done.. |]. apply Hpl; [by apply Hkeys | done].
  - by apply map_Forall_delete.
  - rewrite Forall_forall in vi_secrets |- *. intros f Hf. apply Hpr; [| by apply vi_secrets].
    intros Hl. apply Hsec, Exists_exists. by exists f.
Qed.

Lemma inv_drop_region calls reg0 reg L c id r :
  inv calls reg0 reg L c -> ~ referenced self c id ->
  inv calls reg0 reg L {| shared := drop_region id r (shared c); writer := writer c; threads := threads c |}.
Proof.
  intros [] Hno. pose proof (fun f => placed_drop id r (shared c) f) as Hpl.
  assert (vault_inv self reg (drop_region id r (shared c))) as Hi.
  { apply vault_inv_drop; [done | |].
    - intros k e Hk Hl. apply Hno. left. by exists k, e.
    - intros Hs. apply Hno. by right; right. }
  destruct (drop_region_spec id r (shared c)) as [w E]. rewrite E in *. split; cbn; try done.
  intros t th Ht. eapply pc_ok_stable; [by apply iv_threads0 | | done..].
  intros f Hf. apply Hpl. intros Hl. apply Hno. right; left. exists th.
  split; [by eapply list_elem_of_lookup_2 |]. apply Exists_exists. by exists f.
Qed.

Lemma writer_self t w w' b b' :
  writer_moved t w w' b b' -> b = bool_decide (w = Some t) -> b' = bool_decide (w' = Some t).
Proof.
  intros Hw Hb. symmetry in Hb. destruct b, b'; cbn in Hw; subst; try done.
  - destruct Hw as [_ ->]. by rewrite bool_decide_eq_true_2.
Qed.

Lemma writer_others t u w w' b b' :
  writer_moved t w w' b b' -> b = bool_decide (w = Some t) -> t <> u ->
  bool_decide (w' = Some u) = bool_decide (w = Some u).
Proof.
  intros Hw Hb Hne. symmetry in Hb. destruct b, b'; cbn in Hw; subst; try done.
  - apply bool_decide_eq_true in Hb as ->. rewrite !bool_decide_eq_false_2; [done | congruence..].
  - destruct Hw as [-> ->]. rewrite !bool_decide_eq_false_2; [done | congruence..].
Qed.

Lemma not_yet_snoc L t u ev : u <> t -> not_yet L u -> not_yet (L ++ [(t, ev)]) u.
Proof.
  unfold not_yet. intros Hne Hn. rewrite fmap_app, elem_of_app. intros [? | Hin]; [done |].
  apply list_elem_of_singleton in Hin. done.
Qed.

Lemma moved_log calls reg0 reg s L t c p reg' s' L' p' :
  moved reg s L t c p reg' s' L' p' -> history calls reg0 L reg -> NoDup L.*1 -> calls !! t = Some c ->
  history calls reg0 L' reg' /\ NoDup L'.*1 /\ (exists new, L' = L ++ new) /\
  (forall x, x ∈ L -> x ∈ L') /\ (forall u, u <> t -> not_yet L u -> not_yet L' u).
Proof.
  intros Hm Hh Hn Hc. destruct (mv_log _ _ _ _ _ _ _ _ _ _ Hm) as [[-> ->] | (ev & -> & Hy & He)].
  - split_and!; [done | done | by exists []; rewrite app_nil_r | done | done].
  - split_and!.
    + by econstructor.
    + rewrite fmap_app. apply NoDup_app. split_and!; [done | | by apply NoDup_singleton].
      intros u Hu Hin. apply list_elem_of_singleton in Hin. cbn in Hin. by subst.
    + by eexists.
    + intros x Hx. apply elem_of_app. by left.
    + intros u. apply not_yet_snoc.
Qed.

Lemma inv_thread calls reg0 reg L c t c' :
  vault_wf self -> Forall call_ok calls -> next_id (shared c) < u64_max ->
  inv calls reg0 reg L c -> run_thread self t c = Some c' ->
  exists reg' new, inv calls reg0 reg' (L ++ new) c'.
Proof.
  intros Hwf Hok Hnext [] Hrun. unfold run_thread in Hrun.
  destruct (threads c !! t) as [th |] eqn:Et; [| done].
  set (s := set_scratch (local th) (shared c)) in *.
  destruct (thread_step self t (writer c) (the_call th) (at_ th) s) as [[[p' w'] s'] |] eqn:Es; [| done].
  injection Hrun as <-.
  assert (calls !! t = Some (the_call th)) as Hcall.
  { rewrite <- iv_calls0, list_lookup_fmap, Et. done. }
  pose proof (iv_threads0 t th Et) as Hpt.
  assert (vault_inv self reg s) as Hi by (apply vault_inv_scratch; [done | by eapply pc_ok_scratch]).
  assert (pc_ok reg s L t (the_call th) (at_ th) (scratch s)) as Hps.
  { eapply pc_ok_stable; [exact Hpt | by apply keeps_le | cbn; lia | done..]. }
  destruct (thread_step_moves reg s L t (writer c) (the_call th) (at_ th) p' w' s') as [(reg' & L' & Hm) Hw];
    [done | by eapply Forall_lookup_1 | done..|].
  destruct (moved_log calls reg0 _ _ _ _ _ _ _ _ _ _ Hm iv_history0 iv_log0 Hcall)
    as (Hh & Hnd & [new ->] & HL & Hy).
  pose proof (iv_writer0 t th Et) as Hwt.
  exists reg', new. split; cbn [shared writer threads]; [| done | done | done | | | | |].
  - apply (vault_inv_scratch reg' s' scratch_init); [apply Hm | intros _; constructor].
  - rewrite list_fmap_insert. cbn. rewrite list_insert_id; [done |]. by rewrite iv_calls0.
  - intros u thu [(<- & <- & _) | (Hne & Hu)]%list_lookup_insert_Some.
    + cbn. eapply pc_ok_stable; [apply Hm | by apply keeps_le | cbn; lia | done..].
    + specialize (iv_threads0 u thu Hu). destruct Hm.
      eapply pc_ok_stable; [exact iv_threads0 | by apply keeps_le | done | | done | by apply Hy |].
      * intros Hcu. apply mv_keys0. rewrite Hwt. apply bool_decide_eq_false. intros Ew.
        rewrite (iv_writer0 u thu Hu), Ew in Hcu. apply bool_decide_eq_true in Hcu. congruence.
      * intros id Hid Hno. destruct (reg' !! id) eqn:Er; [| done].
        assert (allocated (the_call th) (at_ th) = Some id) as Ht by (apply mv_put0; [done | by rewrite Er]).
        destruct Hne. by apply (iv_fresh0 t u th thu id).
  - intros u thu [(<- & <- & _) | (Hne & Hu)]%list_lookup_insert_Some; cbn.
    + by eapply writer_self.
    + rewrite (iv_writer0 u thu Hu). symmetry. by eapply writer_others.
  - intros u Hu. rewrite lookup_lt_is_Some, length_insert, <- lookup_lt_is_Some.
    destruct (decide (t = u)) as [-> | Hne]; [by rewrite Et |]. apply iv_owner0.
    apply (bool_decide_eq_true (writer c = Some u)). rewrite <- (writer_others t u _ _ _ _ Hw Hwt Hne).
    by apply bool_decide_eq_true.
  - assert (forall u thu id, u <> t -> threads c !! u = Some thu -> allocated (the_call thu) (at_ thu) = Some id ->
      allocated (the_call th) p' = Some id -> False) as Hclash.
    { intros u thu id Hne Hu Ha Hp'. destruct (mv_allocated _ _ _ _ _ _ _ _ _ _ Hm id Hp') as [Hold | Hnew].
      - apply Hne. by apply (iv_fresh0 u t thu th id).
      - pose proof (pc_ok_allocated _ _ _ _ _ _ _ id (iv_threads0 u thu Hu) Ha) as [_ Hid]. cbn in Hnew. lia. }
    intros t1 t2 th1 th2 id [(<- & <- & _) | (N1 & K1)]%list_lookup_insert_Some
      [(<- & <- & _) | (N2 & K2)]%list_lookup_insert_Some; cbn; intros A1 A2; [done | exfalso; eauto.. |].
    by apply (iv_fresh0 t1 t2 th1 th2 id).
Qed.

End linearize.
