(* ===== verification/ConcurrentTheorems.v ===== *)
(** * Properties of concurrent vault calls

    Linearizability against the abstract registry, uniqueness of names under
    races, and progress; the witnesses run schedules of the demo vault. *)

From S2P Require Import Prelude Errors Rust Rng RawKey Normalize Codex Fragment Standard Layouts.
From S2P Require Import Os Guarded Handle Events Config Lockout.
From S2P Require Import VaultState Vault VaultFrame VaultPipeline VaultRead VaultRegistry VaultSpec VaultDemo.
From S2P Require Import Concurrent Linear Linearize.
From stdpp Require Import relations.

#[local] Open Scope Z_scope.

Section theorems.
Context {W T : Type} `{Rng W} `{Os W} `{Blake3} `{StdTime W} `{PageRefs W} `{Threads W}.
Context (self : VaultInner W).
Implicit Types s : VaultState W.
Implicit Types reg : registry.
Abbreviation vcall := (vault_call T).
Abbreviation proc := (process (W := W) (T := T)).
Abbreviation reachable calls s := (rtc (process_step (T := T) self) (start calls s)).

(** ** Linearizability *)

(** The calls have taken effect in the order of [L]: each at most once, none
    before it started, every returned one with the result it returned, and
    the vault stores what the log says.  A returned thread's scratch is wiped. *)
Record linearized (calls : list vcall) reg0 (c : proc) (L : list (nat * effect)) reg : Prop := {
  lz_history : history self calls reg0 L reg;
  lz_once : NoDup L.*1;
  lz_state : vault_inv self reg (shared c);
  lz_started : forall t th, threads c !! t = Some th ->
    at_ th = entry_point (the_call th) -> t ∉ L.*1;
  lz_returned : forall t th r, threads c !! t = Some th -> at_ th = Returned r ->
    clean (local th) /\ exists ev, (t, ev) ∈ L /\ returns self (the_call th) ev r
}.

Lemma inv_linearized (calls : list vcall) reg0 reg L c : inv self calls reg0 reg L c -> linearized calls reg0 c L reg.
Proof.
  intros Hi. split; try by destruct Hi.
  - intros t th Ht Hp. pose proof (iv_threads _ _ _ _ _ _ Hi t th Ht) as Hpc. rewrite Hp in Hpc.
    destruct (the_call th); apply Hpc.
  - intros t th r Ht Hp. pose proof (iv_threads _ _ _ _ _ _ Hi t th Ht) as Hpc. rewrite Hp in Hpc.
    rewrite pc_ok_done in Hpc by done. destruct Hpc as (Hc & ev & r' & Hin & [= <-] & Hr).
    split; [done |]. by exists ev.
Qed.

Lemma inv_step (calls : list vcall) reg0 reg L c c' :
  vault_wf self -> Forall call_ok calls -> inv self calls reg0 reg L c -> process_step self c c' ->
  exists reg' new, inv self calls reg0 reg' (L ++ new) c'.
Proof.
  intros Hwf Hok Hi [t c'' Hn Hr | s' Ho | id r _ Hno]; [by eapply inv_thread | ..];
    exists reg, []; rewrite app_nil_r; [by apply inv_others | by apply inv_drop_region].
Qed.

Lemma inv_steps (calls : list vcall) reg0 c c' :
  vault_wf self -> Forall call_ok calls -> rtc (process_step self) c c' ->
  forall reg L, inv self calls reg0 reg L c -> exists reg' new, inv self calls reg0 reg' (L ++ new) c'.
Proof.
  intros Hwf Hok Hs. induction Hs as [c | c c1 c2 Hstep _ IH]; intros reg L Hi.
  - exists reg, []. by rewrite app_nil_r.
  - destruct (inv_step calls reg0 reg L c c1 Hwf Hok Hi Hstep) as (reg1 & new1 & Hi1).
    destruct (IH reg1 _ Hi1) as (reg2 & new2 & Hi2). exists reg2, (new1 ++ new2). by rewrite app_assoc.
Qed.

Lemma inv_reachable (calls : list vcall) reg0 s c :
  vault_wf self -> vault_inv self reg0 s -> scratch s = scratch_init -> Forall call_ok calls ->
  reachable calls s c -> exists reg L, inv self calls reg0 reg L c.
Proof.
  intros Hwf Hi Hs Hok Hr.
  destruct (inv_steps calls reg0 _ c Hwf Hok Hr reg0 [] (inv_start _ _ _ _ Hi Hs)) as (reg & new & Hi').
  by exists reg, new.
Qed.

(** C2: Linearizability of [register], [unregister], [rotate] and [with_key].
    Let any number of threads run these calls on one vault, interleaved at
    every access to shared state, while the rest of the process reports
    failures, clears lockouts, moves the clock and uses other vaults, and
    protected regions are wiped and unmapped as soon as nobody refers to
    them (so no reader ever meets an unmapped one).  At
    every moment there is an order in which the calls that are past their
    decision have taken effect on a plain map from handles to named keys:
    each call at most once and not before it started, every returned call
    with the effect its result claims, the callback of [with_key] on exactly
    the key the map held under its handle at that moment.  The order is only
    ever extended, so it respects real time; the registry stores exactly what
    the map says (no lost update, names unique), and a returned thread's
    scratch is wiped. *)
Theorem concurrent_calls_linearizable (calls : list vcall) reg0 s c :
  vault_wf self -> vault_inv self reg0 s -> scratch s = scratch_init -> Forall call_ok calls ->
  reachable calls s c ->
  exists L reg, linearized calls reg0 c L reg /\
    forall c', rtc (process_step self) c c' ->
      exists new reg', linearized calls reg0 c' (L ++ new) reg'.
Proof.
  intros Hwf Hi Hs Hok Hr. destruct (inv_reachable calls reg0 s c) as (reg & L & Hc); [done.. |].
  exists L, reg. split; [by apply inv_linearized |]. intros c' Hr'.
  destruct (inv_steps calls reg0 c c' Hwf Hok Hr' reg L Hc) as (reg' & new & Hc').
  exists new, reg'. by apply inv_linearized.
Qed.

(** ** Concurrent registrations of one name *)

Definition registers (name : string) (c : vcall) : Prop := exists key, c = CallRegister name key.

(** In a log of such calls one at most is an insertion, and it is there as
    soon as the name is taken. *)
Lemma registrations_log name (calls : list vcall) reg0 L reg :
  Forall (registers name) calls -> ~ name_used name reg0 -> history self calls reg0 L reg ->
  (~ name_used name reg /\ forall t ev, (t, ev) ∈ L -> ev = Refusal) \/
  (exists t h i, (t, Inserted h i) ∈ L /\ name_used name reg /\
     forall u ev, (u, ev) ∈ L -> u = t /\ ev = Inserted h i \/ ev = NameInUse \/ ev = Refusal).
Proof.
  intros Hall Hno Hh. induction Hh as [| L reg t c ev reg' Hh IH Hc He].
  { left. split; [done |]. intros t ev Hin. by apply not_elem_of_nil in Hin. }
  apply (Forall_lookup_1 _ _ _ _ Hall) in Hc as [key ->].
  destruct IH as [[Hfree Href] | (t0 & h0 & i0 & Hin & Hused & Hothers)].
  - inversion He; subst.
    + right. exists t, h, i. split_and!; [apply elem_of_app; right; by apply list_elem_of_singleton | |].
      * exists (KeyHandle.id h), i. by rewrite lookup_insert_eq.
      * intros u ev [Hu | Hu]%elem_of_app; [right; right; by eapply Href |].
        apply list_elem_of_singleton in Hu as [= -> ->]. by left.
    + done.
    + left. split; [done |]. intros u ev [Hu | Hu]%elem_of_app; [by eapply Href |].
      by apply list_elem_of_singleton in Hu as [= _ ->].
  - right. exists t0, h0, i0.
    assert (reg' = reg /\ (ev = NameInUse \/ ev = Refusal)) as [-> Hev] by (inversion He; subst; auto; done).
    split_and!; [apply elem_of_app; by left | done |].
    intros u ev' [Hu | Hu]%elem_of_app; [by apply Hothers |].
    apply list_elem_of_singleton in Hu as [= -> ->]. by right.
Qed.

Lemma history_thread (calls : list vcall) reg0 L reg t ev :
  history self calls reg0 L reg -> (t, ev) ∈ L -> (t < length calls)%nat.
Proof.
  intros Hh. induction Hh as [| L reg u c ev' reg' _ IH Hc _]; [by intros ?%not_elem_of_nil |].
  intros [Hin | Hin]%elem_of_app; [by apply IH |]. apply list_elem_of_singleton in Hin as [= -> ->].
  by eapply lookup_lt_Some.
Qed.

Lemma log_once (L : list (nat * effect)) t a b : NoDup L.*1 -> (t, a) ∈ L -> (t, b) ∈ L -> a = b.
Proof.
  intros Hn (i & Hi)%list_elem_of_lookup (j & Hj)%list_elem_of_lookup.
  assert (i = j) as ->; [| congruence].
  eapply NoDup_lookup; [exact Hn | |]; rewrite list_lookup_fmap; [by rewrite Hi | by rewrite Hj].
Qed.

Definition returned (c : proc) (t : nat) (r : outcome (answer T)) : Prop :=
  exists th, threads c !! t = Some th /\ at_ th = Returned r.

(** The errors of a registration that never got to compete for the name. *)
Definition refused_with (e : Error.t) : Prop :=
  e = Error.LockedOut \/ exists key, pipeline_error self key e.

(** C9: "Concurrent [register] calls with the same name are safe: exactly one
    succeeds."  When any number of threads register one free name and all
    have returned, exactly one got a handle and every other one an error,
    the duplicate-name error unless a lockout or the pipeline refused it
    first; unless every one of them was refused that way. *)
Theorem one_registration_wins name (calls : list vcall) reg0 s c :
  vault_wf self -> vault_inv self reg0 s -> scratch s = scratch_init -> Forall call_ok calls ->
  Forall (registers name) calls -> ~ name_used name reg0 -> reachable calls s c ->
  (forall t, (t < length calls)%nat -> exists r, returned c t r) ->
  (forall t r, returned c t r -> exists e, r = Err e /\ refused_with e) \/
  (exists t h, returned c t (Ok (AnswerHandle h)) /\
     forall u r, u <> t -> returned c u r ->
       exists e, r = Err e /\ (e = duplicate name \/ refused_with e)).
Proof.
  intros Hwf Hi Hs Hok Hall Hno Hr Hret. destruct (inv_reachable calls reg0 s c) as (reg & L & Hc); [done.. |].
  pose proof (inv_linearized _ _ _ _ _ Hc) as Hl.
  assert (forall t r, returned c t r -> exists key ev, (t, ev) ∈ L /\ returns self (CallRegister name key) ev r) as Hev.
  { intros t r (th & Ht & Hp). destruct (lz_returned _ _ _ _ _ Hl t th r Ht Hp) as (_ & ev & Hin & Hre).
    assert (registers name (the_call th)) as [key Hk].
    { apply (Forall_lookup_1 _ _ t _ Hall). rewrite <- (iv_calls _ _ _ _ _ _ Hc), list_lookup_fmap, Ht. done. }
    rewrite Hk in Hre. by exists key, ev. }
  destruct (registrations_log name calls reg0 L reg Hall Hno (lz_history _ _ _ _ _ Hl))
    as [[_ Href] | (t & h & i & Hin & _ & Hothers)]; [left | right].
  - intros t r Htr. destruct (Hev t r Htr) as (key & ev & Hin & Hre). rewrite (Href t ev Hin) in Hre.
    inversion Hre; subst; eexists; split; [done | by left | done | right; by exists key].
  - destruct (Hret t) as [r Htr]; [by eapply history_thread, Hin; apply Hl |].
    assert (r = Ok (AnswerHandle h)) as ->.
    { destruct (Hev t r Htr) as (key & ev & Hin' & Hre).
      rewrite (log_once L t _ _ (lz_once _ _ _ _ _ Hl) Hin' Hin) in Hre. by inversion Hre. }
    exists t, h. split; [done |]. intros u r Hne Hur. destruct (Hev u r Hur) as (key & ev & Hin' & Hre).
    destruct (Hothers u ev Hin') as [[-> _] | [-> | ->]]; [done | |]; inversion Hre; subst; eexists;
      (split; [done |]); [by left | by right; left | by right; right; exists key].
Qed.

(** ** Every call returns *)

(** How many steps a thread is from its return, at most. *)
Fixpoint rank (p : pc T) : nat :=
  match p with
  | AtGate => 11 | AtLoad => 10 | AtKeyLock _ => 9 | AtFragment => 8 | AtAllocate _ => 7 | AtStamp _ _ => 6
  | AtAcquire _ => 5 | AtReload _ => 4 | AtSwap _ _ _ => 3 | AtRelease next => 1 + rank next
  | AtFill _ => 4 | AtCall _ _ => 3 | AtWipe _ _ _ => 2 | AtAudit _ _ _ => 1 | Returned _ => 0
  end%nat.

Definition total_rank (c : proc) : nat := sum_list_with (fun th => rank (at_ th)) (threads c).

Lemma act_rank {A} (m : M (VaultState W) A) (k : A -> pc T) s n :
  (forall a, (rank (k a) < n)%nat) -> (0 < n)%nat -> (rank (act m k s).1 < n)%nat.
Proof. intros Hk Hn. unfold act. destruct (m s) as [[a | e | |] s']; [apply Hk | done..]. Qed.

Lemma move_rank c p s p' s' : move self c p s = Some (p', s') -> (rank p' < rank p)%nat.
Proof.
  assert (forall A (m : M (VaultState W) A) k n, (forall a, (rank (k a) < n)%nat) -> (0 < n)%nat ->
    Some (act m k s) = Some (p', s') -> (rank p' < n)%nat) as Ha.
  { intros A m k n Hk Hn [= E]. pose proof (act_rank m k s n Hk Hn) as Hx. by rewrite E in Hx. }
  destruct c, p; cbn [move register_move rotate_move with_key_move]; try done; intros E.
  all: try (eapply Ha, E; [intros a; cbn beta; repeat case_match; cbn; lia | cbn; lia]).
  - injection E as <- <-. cbn. lia.
  - injection E as <- <-. repeat case_match; cbn; lia.
Qed.

Lemma thread_step_rank t w c p s p' w' s' :
  thread_step self t w c p s = Some (p', w', s') -> (rank p' < rank p)%nat.
Proof.
  intros E.
  assert (match move self c p s with Some (p, s) => Some (p, w, s) | None => None end = Some (p', w', s') ->
    (rank p' < rank p)%nat) as Hmove.
  { clear E. destruct (move self c p s) as [[p1 s1] |] eqn:Em; [| done]. intros [= -> <- ->].
    by eapply move_rank. }
  destruct p; cbn [thread_step] in E; try (by apply Hmove).
  - destruct (decide (w = None)); [| done]. injection E as <- <- <-. cbn. lia.
  - injection E as <- <- <-. repeat case_match; cbn; lia.
  - injection E as <- <- <-. cbn. lia.
  - injection E as <- <- <-. cbn. lia.
  - destruct (act _ _ s) as [p1 s1] eqn:Ea. injection E as <- <- <-.
    pose proof (act_rank (emit_audit self name kind EmptyString) (fun _ => Returned (Ok a)) s 1) as Hr.
    rewrite Ea in Hr. apply Hr; [intros _ |]; cbn; lia.
Qed.

Lemma sum_list_with_insert {A} (f : A -> nat) l i x y :
  l !! i = Some x -> (sum_list_with f (<[i := y]> l) + f x = sum_list_with f l + f y)%nat.
Proof.
  revert i. induction l as [| z l IH]; intros [| i] Hi; cbn in *; [done.. | |].
  - injection Hi as ->. lia.
  - specialize (IH i Hi). unfold insert in *. lia.
Qed.

Lemma run_thread_rank t c c' : run_thread self t c = Some c' -> (total_rank c' < total_rank c)%nat.
Proof.
  unfold run_thread, total_rank. destruct (threads c !! t) as [th |] eqn:Et; [| done].
  destruct (thread_step self t _ _ _ _) as [[[p w] s] |] eqn:Es; [| done]. intros [= <-]. cbn [threads].
  apply thread_step_rank in Es.
  pose proof (sum_list_with_insert (fun th => rank (at_ th)) (threads c) t th
    {| the_call := the_call th; at_ := p; local := scratch s |} Et) as Hs. cbn [at_] in Hs. lia.
Qed.

(** Executions with the number of steps the threads take in them. *)
Inductive execution : nat -> proc -> proc -> Prop :=
| exec_refl c : execution 0 c c
| exec_thread n t c c1 c2 :
    next_id (shared c) < u64_max -> run_thread self t c = Some c1 -> execution n c1 c2 ->
    execution (S n) c c2
| exec_others n c s' c2 :
    others (shared c) s' ->
    execution n {| shared := s'; writer := writer c; threads := threads c |} c2 -> execution n c c2
| exec_drop n c id r c2 :
    table (regions (shared c)) !! id = Some r -> ~ referenced self c id ->
    execution n {| shared := drop_region id r (shared c); writer := writer c; threads := threads c |} c2 ->
    execution n c c2.

Lemma execution_rank n c c' : execution n c c' -> (n + total_rank c' <= total_rank c)%nat.
Proof.
  intros Hx. induction Hx as [c | n t c c1 c2 _ Hr _ IH | n c s' c2 _ _ IH | n c id r c2 _ _ _ IH]; [lia | | exact IH | exact IH].
  apply run_thread_rank in Hr. lia.
Qed.

Lemma start_rank (calls : list vcall) s : (total_rank (start calls s) <= 11 * length calls)%nat.
Proof.
  unfold total_rank, start. cbn. induction calls as [| c calls IH]; cbn; [lia |].
  destruct c; cbn in *; lia.
Qed.

Lemma pc_ok_moves reg s L t (c : vcall) p l w :
  pc_ok self reg s L t c p l -> (forall w, p <> AtAcquire w) -> (forall r, p <> Returned r) ->
  is_Some (thread_step self t w c p s).
Proof.
  intros Hp Ha Hr. destruct p; try done; cbn [thread_step]; try (by destruct c);
    try (by eexists); try (by destruct (Ha w0)); try (by destruct (Hr r)).
  all: try (by destruct (act _ _ _)).
  all: destruct c; try done; cbn [move register_move rotate_move with_key_move]; by destruct (act _ _ _).
Qed.

Lemma run_thread_moves (calls : list vcall) reg0 reg L c t th :
  inv self calls reg0 reg L c -> threads c !! t = Some th ->
  (forall r, at_ th <> Returned r) -> (forall w, at_ th = AtAcquire w -> writer c = None) ->
  is_Some (run_thread self t c).
Proof.
  intros Hi Ht Hr Hw. unfold run_thread. rewrite Ht.
  pose proof (iv_threads _ _ _ _ _ _ Hi t th Ht) as Hp.
  set (s := set_scratch (local th) (shared c)).
  enough (is_Some (thread_step self t (writer c) (the_call th) (at_ th) s)) as [[[p w] s'] ->] by done.
  assert (pc_ok self reg s L t (the_call th) (at_ th) (local th)) as Hps.
  { eapply pc_ok_stable; [exact Hp | by apply keeps_le | cbn; lia | done..]. }
  destruct (at_ th) as [| | | | | | w | | | | | | | |] eqn:Ep.
  7: { cbn [thread_step]. by rewrite decide_True by (by eapply Hw). }
  all: eapply pc_ok_moves; [exact Hps | done | done].
Qed.

(** Someone can move until every call has returned. *)
Lemma no_deadlock (calls : list vcall) reg0 reg L c :
  inv self calls reg0 reg L c ->
  (exists t th, threads c !! t = Some th /\ forall r, at_ th <> Returned r) ->
  exists t c', run_thread self t c = Some c'.
Proof.
  intros Hi (t & th & Ht & Hr). destruct (writer c) as [u |] eqn:Ew.
  - destruct (iv_owner _ _ _ _ _ _ Hi u Ew) as [thu Hu].
    pose proof (iv_writer _ _ _ _ _ _ Hi u thu Hu) as Hc. rewrite bool_decide_eq_true_2 in Hc by done.
    destruct (run_thread_moves calls reg0 reg L c u thu Hi Hu) as [c' Hc'];
      [by intros r E; rewrite E in Hc | by intros w E; rewrite E in Hc | by exists u, c'].
  - destruct (run_thread_moves calls reg0 reg L c t th Hi Ht Hr) as [c' Hc']; [done | by exists t, c'].
Qed.

Lemma execution_reachable n c c' : execution n c c' -> rtc (process_step self) c c'.
Proof.
  intros Hx. induction Hx as [c | n t c c1 c2 Hn Hr _ IH | n c s' c2 Ho _ IH | n c id r c2 Hr Hno _ IH]; [done | ..].
  - eapply rtc_l; [by eapply StepThread | done].
  - eapply rtc_l; [by apply StepOthers | done].
  - eapply rtc_l; [by eapply StepDrop | done].
Qed.

(** C12: No schedule blocks the vault's callers for ever.  However the threads
    are interleaved, they take at most eleven steps per call in all, and as
    long as some call has not returned some thread can take a step: the
    writer lock is never left held and nobody waits while holding it.  So
    every fair execution ends with every call returned. *)
Theorem concurrent_calls_return (calls : list vcall) reg0 s n c :
  vault_wf self -> vault_inv self reg0 s -> scratch s = scratch_init -> Forall call_ok calls ->
  execution n (start calls s) c ->
  (n <= 11 * length calls)%nat /\
  ((forall t, run_thread self t c = None) -> forall t, (t < length calls)%nat -> exists r, returned c t r).
Proof.
  intros Hwf Hi Hs Hok Hx. split.
  - pose proof (execution_rank _ _ _ Hx). pose proof (start_rank calls s). lia.
  - intros Hstuck t Ht. apply execution_reachable in Hx.
    destruct (inv_reachable calls reg0 s c) as (reg & L & Hc); [done.. |].
    assert (is_Some (threads c !! t)) as [th Hth].
    { rewrite lookup_lt_is_Some, <- (length_fmap the_call), (iv_calls _ _ _ _ _ _ Hc). done. }
    destruct (at_ th) as [| | | | | | | | | | | | | | r] eqn:Ep;
      [.. | exists r; by exists th].
    all: destruct (no_deadlock calls reg0 reg L c Hc) as (u & c' & Hu);
      [exists t, th; split; [done | by rewrite Ep] | by rewrite Hstuck in Hu].
Qed.
End theorems.

(** ** Witnesses *)

(** Schedules of steps that stay clear of the end of the handle counter. *)
Fixpoint schedule_ok {W T} `{Rng W} `{Os W} `{Blake3} `{StdTime W} `{PageRefs W} `{Threads W}
    (self : VaultInner W) (schedule : list nat) (c : process (W := W) (T := T)) : bool :=
  match schedule with
  | [] => true
  | t :: schedule =>
      (next_id (shared c) <? u64_max) && schedule_ok self schedule (default c (run_thread self t c))
  end.

Lemma schedule_execution {W T} `{Rng W} `{Os W} `{Blake3} `{StdTime W} `{PageRefs W} `{Threads W}
    (self : VaultInner W) schedule (c : process (W := W) (T := T)) :
  schedule_ok self schedule c = true -> exists n, execution self n c (run_schedule self schedule c).
Proof.
  revert c. induction schedule as [| t schedule IH]; intros c Hok; cbn in *; [exists 0%nat; constructor |].
  apply andb_true_iff in Hok as [Hn%Z.ltb_lt Hok]. destruct (IH _ Hok) as [n Hx].
  destruct (run_thread self t c) as [c' |] eqn:Er; cbn in *; [| by exists n].
  exists (S n). by econstructor.
Defined.

(** Two threads register the same name while a third reads the first handle
    the vault gives out. *)
Definition race_calls : list (vault_call (list byte)) :=
  [CallRegister "db" demo_key1; CallRegister "db" demo_key2; CallWithKey {| handle_id := 1 |} Some].
Definition race_start : VaultState Tape.world := demo_state (Tape.start 100 [] (demo_answers ++ demo_answers)).
Definition race_schedule : list nat :=
  concat (replicate 10 [0; 1])%nat ++ replicate 12 1%nat ++ replicate 8 2%nat.
Definition race_end := run_schedule demo_vault race_schedule (start race_calls race_start).

Lemma race_reachable : rtc (process_step demo_vault) (start race_calls race_start) race_end.
Proof.
  destruct (schedule_execution demo_vault race_schedule (start race_calls race_start)) as [n Hx];
    [by vm_compute |]. by eapply execution_reachable.
Defined.

Lemma race_calls_ok : Forall call_ok race_calls.
Proof. repeat constructor; by vm_compute. Defined.

Lemma linearizable_witness :
  (at_ <$> threads race_end =
    [Returned (Ok (AnswerHandle {| handle_id := 1 |})); Returned (Err (duplicate "db"));
     Returned (Ok (AnswerValue (RawKey.bytes demo_key1)))]) /\
  exists L reg, linearized demo_vault race_calls ∅ race_end L reg /\
    forall c', rtc (process_step demo_vault) race_end c' ->
      exists new reg', linearized demo_vault race_calls ∅ c' (L ++ new) reg'.
Proof.
  split; [by vm_compute |].
  apply (concurrent_calls_linearizable demo_vault race_calls ∅ race_start race_end).
  - apply demo_vault_wf.
  - apply demo_state_inv.
  - done.
  - apply race_calls_ok.
  - apply race_reachable.
Defined.

Definition duel_calls : list (vault_call (list byte)) :=
  [CallRegister "db" demo_key1; CallRegister "db" demo_key2].
Definition duel_end := run_schedule demo_vault race_schedule (start duel_calls race_start).

Lemma returned_lookup {W T} (c : process (W := W) (T := T)) t r :
  (at_ <$> threads c) !! t = Some (Returned r) -> returned c t r.
Proof.
  rewrite list_lookup_fmap. destruct (threads c !! t) as [th |] eqn:Et; [| done]. intros [= Hp]. by exists th.
Defined.

Lemma one_registration_wins_witness :
  (exists t r, returned duel_end t r /\ r = Ok (AnswerHandle {| handle_id := 1 |})) /\
  ((forall t r, returned duel_end t r -> exists e, r = Err e /\ refused_with demo_vault e) \/
   (exists t h, returned duel_end t (Ok (AnswerHandle h)) /\
     forall u r, u <> t -> returned duel_end u r ->
       exists e, r = Err e /\ (e = duplicate "db" \/ refused_with demo_vault e))).
Proof.
  assert (at_ <$> threads duel_end =
    [Returned (Ok (AnswerHandle {| handle_id := 1 |})); Returned (Err (duplicate "db"))]) as E by (by vm_compute).
  pose proof (returned_lookup duel_end) as Hr. rewrite E in Hr.
  split; [exists 0%nat; eexists; split; [by apply Hr | done] |].
  apply (one_registration_wins demo_vault "db" duel_calls ∅ race_start duel_end).
  - apply demo_vault_wf.
  - apply demo_state_inv.
  - done.
  - repeat constructor; by vm_compute.
  - repeat constructor; by eexists.
  - intros (id & i & Hi & _). by rewrite lookup_empty in Hi.
  - destruct (schedule_execution demo_vault race_schedule (start duel_calls race_start)) as [n Hx];
      [by vm_compute |]. by eapply execution_reachable.
  - intros [| [| t]] Ht; [eexists; by apply Hr.. | cbn in Ht; lia].
Defined.

Lemma concurrent_calls_return_witness :
  exists n, execution demo_vault n (start race_calls race_start) race_end /\
    (n <= 11 * length race_calls)%nat /\
    ((forall t, run_thread demo_vault t race_end = None) ->
     forall t, (t < length race_calls)%nat -> exists r, returned race_end t r).
Proof.
  destruct (schedule_execution demo_vault race_schedule (start race_calls race_start)) as [n Hx];
    [by vm_compute |].
  exists n. split; [exact Hx |].
  apply (concurrent_calls_return demo_vault race_calls ∅ race_start n race_end).
  - apply demo_vault_wf.
  - apply demo_state_inv.
  - done.
  - apply race_calls_ok.
  - exact Hx.
Defined.
