(* ===== verification/Sync.v ===== *)
(** * Locks ([sync.rs])

    The spin lock and the [Arc] cell of [no_std] builds, one atomic access or
    one access of the protected value per step.  [compare_exchange_weak] may
    fail for no reason.  Steps interleave freely (sequential consistency;
    [SyncWeak] takes the lock again with the orderings of the source, and
    shows that they order its accesses).  With [std] the lock is the standard
    one, whose poisoning is ignored. *)

From S2P Require Import Prelude.
From stdpp Require Import relations.

#[local] Open Scope Z_scope.

(** [std::sync::Mutex]: the value, and whether a holder panicked. *)
Record StdMutex (T : Type) := { std_value : T; poisoned : bool }.
Arguments std_value {T}.
Arguments poisoned {T}.

(** What the standard [lock] hands out: a guard, or one inside a
    [PoisonError]; and [PoisonError::into_inner]. *)
Inductive LockResult (T : Type) := LockOk (guard : T) | LockPoisoned (guard : T).
Arguments LockOk {T}.
Arguments LockPoisoned {T}.

Definition std_try (T : Type) (m : StdMutex T) : LockResult T :=
  if poisoned m then LockPoisoned (std_value m) else LockOk (std_value m).

Definition std_lock {T : Type} (m : StdMutex T) : T :=
  match std_try T m with LockOk guard => guard | LockPoisoned guard => guard end.

(** ** The spin lock *)

Record Mutex (T : Type) := { locked : bool; value : T }.
Arguments locked {T}.
Arguments value {T}.
Arguments Build_Mutex {T}.

Definition mutex_new {T} (v : T) : Mutex T := {| locked := false; value := v |}.

Section spin.
Context {T A : Type}.

(** What a thread does with the guard: a read of the value, possibly a write
    of a new one, and a result. *)
Abbreviation access := (T -> option T * A).

(** Where a thread is in [lock()], the guard's use and its drop. *)
Inductive spin_point :=
| CasLoop                       (* compare_exchange_weak(false, true) *)
| SpinLoad                      (* self.locked.load() *)
| Holding                       (* &**guard *)
| Writing (v : T) (a : A)       (* **guard = v *)
| Dropping (a : A)              (* locked.store(false) *)
| Finished (a : A).

Definition set_locked (b : bool) (m : Mutex T) : Mutex T := {| locked := b; value := value m |}.
Definition set_value (v : T) (m : Mutex T) : Mutex T := {| locked := locked m; value := v |}.

Definition use (body : access) (m : Mutex T) : spin_point :=
  match body (value m) with (Some v, a) => Writing v a | (None, a) => Dropping a end.

Inductive spin_step (body : access) (m : Mutex T) : spin_point -> Mutex T -> spin_point -> Prop :=
| CasTaken : locked m = false -> spin_step body m CasLoop (set_locked true m) Holding
| CasFailed : spin_step body m CasLoop m SpinLoad
| SpinBusy : locked m = true -> spin_step body m SpinLoad m SpinLoad
| SpinFree : locked m = false -> spin_step body m SpinLoad m CasLoop
| GuardRead : spin_step body m Holding m (use body m)
| GuardWrite v a : spin_step body m (Writing v a) (set_value v m) (Dropping a)
| GuardDrop a : spin_step body m (Dropping a) (set_locked false m) (Finished a).

(** The step a scheduled thread takes when the exchange does not fail
    spuriously. *)
Definition spin_next (body : access) (m : Mutex T) (p : spin_point) : option (Mutex T * spin_point) :=
  match p with
  | CasLoop => Some (if locked m then (m, SpinLoad) else (set_locked true m, Holding))
  | SpinLoad => Some (m, if locked m then SpinLoad else CasLoop)
  | Holding => Some (m, use body m)
  | Writing v a => Some (set_value v m, Dropping a)
  | Dropping a => Some (set_locked false m, Finished a)
  | Finished _ => None
  end.

(** Threads at work on one lock, each with its access. *)
Record cell := { mutex : Mutex T; points : list spin_point }.

Inductive cell_step (bodies : list access) (c : cell) : cell -> Prop :=
| CellStep t body p m' p' :
    bodies !! t = Some body -> points c !! t = Some p -> spin_step body (mutex c) p m' p' ->
    cell_step bodies c {| mutex := m'; points := <[t := p']> (points c) |}.

Definition run_cell_thread (bodies : list access) (t : nat) (c : cell) : cell :=
  match bodies !! t, points c !! t with
  | Some body, Some p =>
      match spin_next body (mutex c) p with
      | Some (m, p) => {| mutex := m; points := <[t := p]> (points c) |}
      | None => c
      end
  | _, _ => c
  end.

Definition run_cell (bodies : list access) (schedule : list nat) (c : cell) : cell :=
  foldl (fun c t => run_cell_thread bodies t c) c schedule.

Definition cell_start (bodies : list access) (v : T) : cell :=
  {| mutex := mutex_new v; points := (fun _ => CasLoop) <$> bodies |}.

(** ** The specification: accesses one after the other *)

Definition access_value (body : access) (v : T) : T := default v (body v).1.

Inductive one_by_one (bodies : list access) (v0 : T) : list (nat * A) -> T -> Prop :=
| one_nil : one_by_one bodies v0 [] v0
| one_snoc order v t body :
    one_by_one bodies v0 order v -> bodies !! t = Some body ->
    one_by_one bodies v0 (order ++ [(t, (body v).2)]) (access_value body v).

(** ** Mutual exclusion *)

Definition holds_lock (p : spin_point) : bool :=
  match p with Holding | Writing _ _ | Dropping _ => true | _ => false end.

(** The value the accesses so far have made, which a writer has yet to store. *)
Definition value_seen (c : cell) (v : T) : Prop :=
  (forall t w a, points c !! t = Some (Writing w a) -> v = w) /\
  ((forall t w a, points c !! t <> Some (Writing w a)) -> v = value (mutex c)).

Definition result_ok (order : list (nat * A)) (t : nat) (p : spin_point) : Prop :=
  match p with
  | CasLoop | SpinLoad | Holding => t ∉ order.*1
  | Writing _ a | Dropping a | Finished a => (t, a) ∈ order
  end.

Record spin_inv (bodies : list access) (v0 v : T) (order : list (nat * A)) (c : cell) : Prop := {
  si_length : length (points c) = length bodies;
  si_one : forall t u p q, points c !! t = Some p -> points c !! u = Some q ->
    holds_lock p = true -> holds_lock q = true -> t = u;
  si_locked : locked (mutex c) = true <-> exists t p, points c !! t = Some p /\ holds_lock p = true;
  si_order : one_by_one bodies v0 order v;
  si_once : NoDup order.*1;
  si_results : forall t p, points c !! t = Some p -> result_ok order t p;
  si_value : value_seen c v
}.
End spin.

Arguments spin_point : clear implicits.
Arguments cell : clear implicits.

(** ** [ArcCell]

    [T] is the type of the [Arc]s; cloning one yields the same pointer. *)
Section arc.
Context {T : Type}.

Definition from_pointee (arc : T) : Mutex T := mutex_new arc.

(** The calls on a cell: [load] (and [load_full]) clones the [Arc] under the
    lock, [swap] is [mem::replace] under the lock. *)
Inductive arc_op := ArcLoad | ArcSwap (new : T).

Definition arc_load (arc : T) : option T * T := (None, arc).
Definition arc_load_full : T -> option T * T := arc_load.
Definition arc_swap (new arc : T) : option T * T := (Some new, arc).

Definition arc_access (op : arc_op) : T -> option T * T :=
  match op with ArcLoad => arc_load | ArcSwap new => arc_swap new end.

(** The pointers put into the cell and taken out of it by the swaps of a log. *)
Definition installed (ops : list arc_op) (order : list (nat * T)) : list T :=
  omap (fun p => match ops !! p.1 with Some (ArcSwap new) => Some new | _ => None end) order.
Definition taken (ops : list arc_op) (order : list (nat * T)) : list T :=
  omap (fun p => match ops !! p.1 with Some (ArcSwap _) => Some p.2 | _ => None end) order.
End arc.

(** ** Proofs *)

Section proofs.
Context {T A : Type}.
Implicit Types (bodies : list (T -> option T * A)) (c : cell T A).

(** The other threads' results survive an extension of the order. *)
Lemma result_ok_snoc (order : list (nat * A)) t u a (p : spin_point T A) :
  u <> t -> result_ok order u p -> result_ok (order ++ [(t, a)]) u p.
Proof.
  intros Hne. assert (u ∉ order.*1 -> u ∉ (order ++ [(t, a)]).*1) as Hn.
  { intros Hu. rewrite fmap_app, elem_of_app. intros [? | Hin]; [done |].
    apply list_elem_of_singleton in Hin. done. }
  destruct p; cbn; auto; intros Hin; apply elem_of_app; by left.
Qed.

(** A step that neither takes nor gives back the lock. *)
Lemma inv_keep bodies v0 v order c t p m' p' v' order' :
  spin_inv bodies v0 v order c -> points c !! t = Some p ->
  holds_lock p' = holds_lock p -> locked m' = locked (mutex c) ->
  one_by_one bodies v0 order' v' -> NoDup order'.*1 ->
  result_ok order' t p' -> (forall u (q : spin_point T A), u <> t -> result_ok order u q -> result_ok order' u q) ->
  value_seen {| mutex := m'; points := <[t := p']> (points c) |} v' ->
  spin_inv bodies v0 v' order' {| mutex := m'; points := <[t := p']> (points c) |}.
Proof.
  intros Hi Hp Hh Hl Ho Hn Hr Hothers Hv.
  assert (forall u q, <[t := p']> (points c) !! u = Some q -> exists q0, points c !! u = Some q0 /\
    holds_lock q = holds_lock q0) as Hback.
  { intros u q [(<- & <- & _) | (_ & Hq)]%list_lookup_insert_Some; [by exists p | by exists q]. }
  split; cbn [mutex points]; [| | | done | done | | done].
  - rewrite length_insert. apply Hi.
  - intros u1 u2 q1 q2 (r1 & K1 & E1)%Hback (r2 & K2 & E2)%Hback. rewrite E1, E2. by eapply (si_one _ _ _ _ _ Hi).
  - rewrite Hl, (si_locked _ _ _ _ _ Hi). split.
    + intros (u & q & Hu & Hq). destruct (decide (u = t)) as [-> | Hne].
      * exists t, p'. simplify_eq. rewrite list_lookup_insert_eq by (by eapply lookup_lt_Some). by rewrite Hh.
      * exists u, q. by rewrite list_lookup_insert_ne by done.
    + intros (u & q & (r & Hu & E)%Hback & Hq). exists u, r. by rewrite <- E.
  - intros u q [(<- & <- & _) | (Hne & Hq)]%list_lookup_insert_Some; [done |].
    apply Hothers; [done |]. by apply (si_results _ _ _ _ _ Hi).
Qed.

(** Nobody writes while a thread that is not writing holds the lock, or
    nobody holds it. *)
Lemma no_writer bodies v0 v order c :
  spin_inv bodies v0 v order c ->
  (locked (mutex c) = false \/
   exists t p, points c !! t = Some p /\ holds_lock p = true /\ forall w a, p <> Writing w a) ->
  (forall t w a, points c !! t <> Some (Writing w a)) /\ v = value (mutex c).
Proof.
  intros Hi Hno. assert (forall t w a, points c !! t <> Some (Writing w a)) as Hw.
  { intros t w a Ht. destruct Hno as [Hf | (u & p & Hu & Hh & Hp)].
    - assert (locked (mutex c) = true) as E; [| congruence]. apply (si_locked _ _ _ _ _ Hi). by exists t, (Writing w a).
    - rewrite (si_one _ _ _ _ _ Hi t u (Writing w a) p Ht Hu) in Ht by done. simplify_eq. by apply (Hp w a). }
  split; [done |]. by apply (si_value _ _ _ _ _ Hi).
Qed.

Lemma value_seen_quiet c t (p' : spin_point T A) m' v :
  (forall t w a, points c !! t <> Some (Writing w a)) -> (forall w a, p' <> Writing w a) -> v = value m' ->
  value_seen {| mutex := m'; points := <[t := p']> (points c) |} v.
Proof.
  intros Hno Hp Hv. split; cbn [points mutex]; [| done].
  intros u w a [(_ & E & _) | (_ & E)]%list_lookup_insert_Some; [by apply Hp in E | by apply Hno in E].
Qed.

(** Taking the lock. *)
Lemma inv_take bodies v0 v order c t :
  spin_inv bodies v0 v order c -> points c !! t = Some CasLoop -> locked (mutex c) = false ->
  spin_inv bodies v0 v order {| mutex := set_locked true (mutex c); points := <[t := Holding]> (points c) |}.
Proof.
  intros Hi Hp Hf. destruct (no_writer _ _ _ _ _ Hi (or_introl Hf)) as [Hw Hv].
  assert (forall u q, points c !! u = Some q -> holds_lock q = false) as Hnone.
  { intros u q Hu. apply not_true_is_false. intros Hq.
    assert (locked (mutex c) = true) as E; [| congruence]. apply (si_locked _ _ _ _ _ Hi). by exists u, q. }
  pose proof (lookup_lt_Some _ _ _ Hp) as Hlt.
  split; cbn [mutex points]; try apply Hi.
  - rewrite length_insert. apply Hi.
  - intros u1 u2 q1 q2 [(<- & _) | (_ & K1)]%list_lookup_insert_Some
      [(<- & _) | (_ & K2)]%list_lookup_insert_Some E1 E2; [done | exfalso..].
    + by rewrite (Hnone _ _ K2) in E2.
    + by rewrite (Hnone _ _ K1) in E1.
    + by rewrite (Hnone _ _ K1) in E1.
  - split; [intros _ | done]. exists t, Holding. by rewrite list_lookup_insert_eq.
  - intros u q [(<- & <- & _) | (_ & Hq)]%list_lookup_insert_Some; [exact (si_results _ _ _ _ _ Hi t _ Hp) |].
    by apply (si_results _ _ _ _ _ Hi).
  - by apply value_seen_quiet.
Qed.

(** Giving it back. *)
Lemma inv_drop bodies v0 v order c t a :
  spin_inv bodies v0 v order c -> points c !! t = Some (Dropping a) ->
  spin_inv bodies v0 v order {| mutex := set_locked false (mutex c); points := <[t := Finished a]> (points c) |}.
Proof.
  intros Hi Hp. destruct (no_writer _ _ _ _ _ Hi) as [Hw Hv]; [right; by exists t, (Dropping a) |].
  assert (forall u q, u <> t -> points c !! u = Some q -> holds_lock q = false) as Hnone.
  { intros u q Hne Hu. apply not_true_is_false. intros Hq. apply Hne. by apply (si_one _ _ _ _ _ Hi u t q (Dropping a)). }
  split; cbn [mutex points]; try apply Hi.
  - rewrite length_insert. apply Hi.
  - intros u1 u2 q1 q2 [(<- & <- & _) | (N1 & K1)]%list_lookup_insert_Some
      [(<- & <- & _) | (N2 & K2)]%list_lookup_insert_Some E1 E2; try done.
    by rewrite (Hnone u1 q1) in E1.
  - split; [done |]. intros (u & q & [(_ & <- & _) | (Hne & Hu)]%list_lookup_insert_Some & Hq); [done |].
    by rewrite (Hnone u q) in Hq.
  - intros u q [(<- & <- & _) | (_ & Hq)]%list_lookup_insert_Some; [exact (si_results _ _ _ _ _ Hi t _ Hp) |].
    by apply (si_results _ _ _ _ _ Hi).
  - by apply value_seen_quiet.
Qed.

(** Reading the value: the access takes effect. *)
Lemma inv_read bodies v0 v order c t body :
  spin_inv bodies v0 v order c -> bodies !! t = Some body -> points c !! t = Some Holding ->
  spin_inv bodies v0 (access_value body v) (order ++ [(t, (body v).2)])
    {| mutex := mutex c; points := <[t := use body (mutex c)]> (points c) |}.
Proof.
  intros Hi Hb Hp. destruct (no_writer _ _ _ _ _ Hi) as [Hw Hv]; [right; by exists t, Holding |].
  unfold use. rewrite <- Hv. pose proof (si_results _ _ _ _ _ Hi t _ Hp) as Hfresh. cbn in Hfresh.
  assert (NoDup (order ++ [(t, (body v).2)]).*1) as Hn.
  { rewrite fmap_app. apply NoDup_app. split_and!; [apply Hi | | by apply NoDup_singleton].
    intros u Hu Hin. apply list_elem_of_singleton in Hin. cbn in Hin. by subst. }
  assert (one_by_one bodies v0 (order ++ [(t, (body v).2)]) (access_value body v)) as Ho
    by (econstructor; [apply Hi | done]).
  assert (forall a : A, (t, a) ∈ order ++ [(t, a)]) as Hin
    by (intros a; apply elem_of_app; right; by apply list_elem_of_singleton).
  unfold access_value in *. destruct (body v) as [[v' |] a]; cbn [fst snd] in *.
  - eapply inv_keep; [done | exact Hp | done | done | exact Ho | done | apply Hin | |].
    + intros u q Hne. by apply result_ok_snoc.
    + split; cbn [points mutex].
      * intros u w b [(_ & E & _) | (_ & E)]%list_lookup_insert_Some; [by simplify_eq | by apply Hw in E].
      * intros Hno. destruct (Hno t v' a). by rewrite list_lookup_insert_eq by (by eapply lookup_lt_Some).
  - eapply inv_keep; [done | exact Hp | done | done | exact Ho | done | apply Hin | |].
    + intros u q Hne. by apply result_ok_snoc.
    + by apply value_seen_quiet.
Qed.

Lemma spin_inv_step bodies v0 v order c c' :
  spin_inv bodies v0 v order c -> cell_step bodies c c' ->
  exists v' new, spin_inv bodies v0 v' (order ++ new) c'.
Proof.
  intros Hi [t body p m' p' Hb Hp Hs].
  enough ((exists v', spin_inv bodies v0 v' order {| mutex := m'; points := <[t := p']> (points c) |}) \/
          (exists v' x, spin_inv bodies v0 v' (order ++ [x]) {| mutex := m'; points := <[t := p']> (points c) |}))
    as [[v' Hv] | (v' & x & Hv)];
    [exists v', []; by rewrite app_nil_r | by exists v', [x] |].
  pose proof (si_results _ _ _ _ _ Hi t p Hp) as Hres.
  (* A step around a lock the thread does not hold. *)
  assert (forall q : spin_point T A, holds_lock p = false -> holds_lock q = false -> result_ok order t q ->
    spin_inv bodies v0 v order {| mutex := mutex c; points := <[t := q]> (points c) |}) as Hspin.
  { intros q Hhp Hhq Hrq. eapply inv_keep; [done | exact Hp | congruence | done | apply Hi | apply Hi | done | done |].
    destruct (si_value _ _ _ _ _ Hi) as [V1 V2]. split; cbn [points mutex].
    - intros u w b [(_ & E & _) | (_ & E)]%list_lookup_insert_Some; [by subst | by eapply V1].
    - intros Hno. apply V2. intros u w b Hu. destruct (decide (u = t)) as [-> | Hne].
      + simplify_eq.
      + apply (Hno u w b). by rewrite list_lookup_insert_ne by done. }
  destruct Hs; [left; exists v.. | right | left | left].
  - by apply inv_take.
  - by apply Hspin.
  - by apply Hspin.
  - by apply Hspin.
  - eexists _, _. by apply inv_read.
  - exists v. eapply inv_keep; [done | exact Hp | done | done | apply Hi | apply Hi | exact Hres | done |].
    destruct (si_value _ _ _ _ _ Hi) as [V1 _]. pose proof (V1 t v1 a Hp) as ->.
    split; cbn [points mutex]; [| done].
    intros u w b [(_ & E & _) | (Hne & E)]%list_lookup_insert_Some; [done |].
    exfalso. apply Hne. by apply (si_one _ _ _ _ _ Hi t u (Writing v1 a) (Writing w b)).
  - exists v. by apply inv_drop.
Qed.

Lemma spin_inv_start bodies v0 : spin_inv bodies v0 v0 [] (cell_start bodies v0).
Proof.
  assert (forall t (p : spin_point T A), (points (cell_start bodies v0)) !! t = Some p -> p = CasLoop) as Hcas.
  { intros t p. cbn. rewrite list_lookup_fmap. destruct (bodies !! t); [by intros [= <-] | done]. }
  split; [by cbn; rewrite length_fmap | | | constructor | constructor | |].
  - intros t u p q Hp Hq Hh. by rewrite (Hcas t p Hp) in Hh.
  - split; [done |]. intros (t & p & Hp & Hh). by rewrite (Hcas t p Hp) in Hh.
  - intros t p Hp. rewrite (Hcas t p Hp). apply not_elem_of_nil.
  - split; [| done]. intros t w a Ht. by apply Hcas in Ht.
Qed.

Lemma spin_inv_steps bodies v0 c c' :
  rtc (cell_step bodies) c c' -> forall v order, spin_inv bodies v0 v order c ->
  exists v' new, spin_inv bodies v0 v' (order ++ new) c'.
Proof.
  intros Hs. induction Hs as [c | c c1 c2 Hstep _ IH]; intros v order Hi.
  - exists v, []. by rewrite app_nil_r.
  - destruct (spin_inv_step bodies v0 v order c c1 Hi Hstep) as (v1 & new1 & Hi1).
    destruct (IH v1 _ Hi1) as (v2 & new2 & Hi2). exists v2, (new1 ++ new2). by rewrite app_assoc.
Qed.

(** ** Progress *)

(** [n] steps of thread [t] that leave the other threads where they were. *)
Definition solo bodies (t : nat) (n : nat) c c' : Prop :=
  nsteps (cell_step bodies) n c c' /\ forall u, u <> t -> points c' !! u = points c !! u.

Lemma solo_step bodies t n c body p m' p' c' :
  bodies !! t = Some body -> points c !! t = Some p -> spin_step body (mutex c) p m' p' ->
  solo bodies t n {| mutex := m'; points := <[t := p']> (points c) |} c' -> solo bodies t (S n) c c'.
Proof.
  intros Hb Hp Hs [Hn Ho]. split.
  - eapply nsteps_l; [by econstructor | done].
  - intros u Hne. rewrite Ho by done. cbn. by rewrite list_lookup_insert_ne by done.
Qed.

Lemma solo_done bodies t c : solo bodies t 0 c c.
Proof. split; [constructor | done]. Qed.

Definition finished c (t : nat) : Prop := exists a, points c !! t = Some (Finished a).

(** From the moment it has the lock a thread is at most three steps from the
    end, and leaves the lock free. *)
Lemma holder_finishes bodies c t body p :
  bodies !! t = Some body -> points c !! t = Some p -> holds_lock p = true ->
  exists n c', (n <= 3)%nat /\ solo bodies t n c c' /\ finished c' t /\ locked (mutex c') = false.
Proof.
  intros Hb Hp Hh.
  assert (forall c a, points c !! t = Some (Dropping a) ->
    exists c', solo bodies t 1 c c' /\ finished c' t /\ locked (mutex c') = false) as Hdrop.
  { intros c0 a Hd. eexists. split; [eapply solo_step; [done | exact Hd | constructor | apply solo_done] |].
    split; [exists a; cbn; by rewrite list_lookup_insert_eq by (by eapply lookup_lt_Some) | done]. }
  assert (forall c w a, points c !! t = Some (Writing w a) ->
    exists c', solo bodies t 2 c c' /\ finished c' t /\ locked (mutex c') = false) as Hwrite.
  { intros c0 w a Hw.
    destruct (Hdrop {| mutex := set_value w (mutex c0); points := <[t := Dropping a]> (points c0) |} a) as (c' & Hs & Hf);
      [cbn; by rewrite list_lookup_insert_eq by (by eapply lookup_lt_Some) |].
    exists c'. split; [eapply solo_step; [done | exact Hw | constructor | exact Hs] | done]. }
  destruct p as [| | | w a | a | a]; try done.
  - set (c1 := {| mutex := mutex c; points := <[t := use body (mutex c)]> (points c) |}).
    assert (points c1 !! t = Some (use body (mutex c))) as H1
      by (cbn; by rewrite list_lookup_insert_eq by (by eapply lookup_lt_Some)).
    unfold use in H1. destruct (body (value (mutex c))) as [[w |] a].
    + destruct (Hwrite c1 w a H1) as (c' & Hs & Hf). exists 3%nat, c'.
      split_and!; [lia | eapply solo_step; [done | exact Hp | constructor | exact Hs] | apply Hf..].
    + destruct (Hdrop c1 a H1) as (c' & Hs & Hf). exists 2%nat, c'.
      split_and!; [lia | eapply solo_step; [done | exact Hp | constructor | exact Hs] | apply Hf..].
  - destruct (Hwrite c w a Hp) as (c' & Hs & Hf). exists 2%nat, c'. split_and!; [lia | done | apply Hf..].
  - destruct (Hdrop c a Hp) as (c' & Hs & Hf). exists 1%nat, c'. split_and!; [lia | done | apply Hf..].
Qed.

(** With the lock free, a waiting thread is at most five steps from the end. *)
Lemma waiter_finishes bodies c t body p :
  bodies !! t = Some body -> points c !! t = Some p -> (p = CasLoop \/ p = SpinLoad) ->
  locked (mutex c) = false ->
  exists n c', (n <= 5)%nat /\ solo bodies t n c c' /\ finished c' t.
Proof.
  intros Hb Hp Hw Hf.
  assert (forall c, points c !! t = Some CasLoop -> locked (mutex c) = false ->
    exists n c', (n <= 4)%nat /\ solo bodies t n c c' /\ finished c' t) as Hcas.
  { intros c0 Hc Hl. pose proof (lookup_lt_Some _ _ _ Hc) as Hlt.
    destruct (holder_finishes bodies {| mutex := set_locked true (mutex c0); points := <[t := Holding]> (points c0) |}
      t body Holding) as (n & c' & Hn & Hs & Hfin & _);
      [done | cbn; by rewrite list_lookup_insert_eq | done |].
    exists (S n), c'. split_and!; [lia | | done].
    eapply solo_step; [done | exact Hc | by constructor | exact Hs]. }
  destruct Hw as [-> | ->].
  - destruct (Hcas c Hp Hf) as (n & c' & Hn & Hs). exists n, c'. split; [lia | done].
  - destruct (Hcas {| mutex := mutex c; points := <[t := CasLoop]> (points c) |}) as (n & c' & Hn & Hs & Hfin);
      [cbn; by rewrite list_lookup_insert_eq by (by eapply lookup_lt_Some) | done |].
    exists (S n), c'. split_and!; [lia | | done]. eapply solo_step; [done | exact Hp | by constructor | exact Hs].
Qed.
End proofs.

(** ** Properties *)

Section properties.
Context {T A : Type}.

Lemma spin_next_step (body : T -> option T * A) m p m' p' :
  spin_next body m p = Some (m', p') -> spin_step body m p m' p'.
Proof.
  destruct p; cbn [spin_next]; try destruct (locked m) eqn:El; intros E; simplify_eq; by constructor.
Defined.

Lemma run_cell_reachable (bodies : list (T -> option T * A)) schedule c :
  rtc (cell_step bodies) c (run_cell bodies schedule c).
Proof.
  revert c. induction schedule as [| t schedule IH]; intros c; [constructor |]. cbn.
  etrans; [| apply IH]. unfold run_cell_thread.
  destruct (bodies !! t) as [body |] eqn:Eb; [| constructor].
  destruct (points c !! t) as [p |] eqn:Ep; [| constructor].
  destruct (spin_next body (mutex c) p) as [[m p'] |] eqn:Es; [| constructor].
  apply rtc_once. econstructor; [exact Eb | exact Ep | by apply spin_next_step].
Defined.

(** The accesses so far are atomic: one after the other, in [order]. *)
Record atomic_so_far (bodies : list (T -> option T * A)) (v0 : T) (c : cell T A)
    (order : list (nat * A)) (v : T) : Prop := {
  at_order : one_by_one bodies v0 order v;
  at_once : NoDup order.*1;
  at_waiting : forall t, points c !! t = Some CasLoop -> t ∉ order.*1;
  at_finished : forall t a, points c !! t = Some (Finished a) -> (t, a) ∈ order;
  at_value : locked (mutex c) = false -> value (mutex c) = v;
  at_exclusive : forall t u p q, points c !! t = Some p -> points c !! u = Some q ->
    holds_lock p = true -> holds_lock q = true -> t = u
}.

Lemma spin_inv_atomic bodies v0 v order c : spin_inv bodies v0 v order c -> atomic_so_far bodies v0 c order v.
Proof.
  intros Hi. split; try apply Hi.
  - intros t Ht. exact (si_results _ _ _ _ _ Hi t _ Ht).
  - intros t a Ht. exact (si_results _ _ _ _ _ Hi t _ Ht).
  - intros Hf. symmetry. apply (no_writer _ _ _ _ _ Hi). by left.
Qed.

(** The spin lock excludes.  Whatever threads take the lock, read and
    write the protected value through the guard and drop it, one memory
    access at a time and in any interleaving, with spurious failures of the
    exchange: at most one of them is between its exchange and its release,
    and the accesses amount to running their bodies one after the other in
    some order, each once, each finished one with the result it had in that
    order; while the lock is free the value is what that order gives.  The
    order only grows, so it respects real time. *)
Theorem spin_lock_linearizable (bodies : list (T -> option T * A)) v0 c :
  rtc (cell_step bodies) (cell_start bodies v0) c ->
  exists order v, atomic_so_far bodies v0 c order v /\
    forall c', rtc (cell_step bodies) c c' -> exists new v', atomic_so_far bodies v0 c' (order ++ new) v'.
Proof.
  intros Hr. destruct (spin_inv_steps bodies v0 _ c Hr v0 [] (spin_inv_start bodies v0)) as (v & order & Hi).
  exists order, v. split; [by apply spin_inv_atomic |]. intros c' Hr'.
  destruct (spin_inv_steps bodies v0 c c' Hr' v order Hi) as (v' & new & Hi'). exists new, v'.
  by apply spin_inv_atomic.
Qed.

(** Nobody waits for ever by necessity.  From every reachable state, each
    thread can still finish its access within eight steps: the holder, if
    another, in three, then the waiting thread in five. *)
Theorem spin_lock_progress (bodies : list (T -> option T * A)) v0 c t :
  rtc (cell_step bodies) (cell_start bodies v0) c -> (t < length bodies)%nat ->
  exists n c', (n <= 8)%nat /\ nsteps (cell_step bodies) n c c' /\ finished c' t.
Proof.
  intros Hr Ht. destruct (spin_inv_steps bodies v0 _ c Hr v0 [] (spin_inv_start bodies v0)) as (v & order & Hi).
  destruct (lookup_lt_is_Some_2 bodies t Ht) as [body Hb].
  assert (is_Some (points c !! t)) as [p Hp] by (rewrite lookup_lt_is_Some, (si_length _ _ _ _ _ Hi); done).
  destruct (holds_lock p) eqn:Hh.
  { destruct (holder_finishes bodies c t body p Hb Hp Hh) as (n & c' & Hn & [Hs _] & Hf & _).
    exists n, c'. split_and!; [lia | done | done]. }
  destruct p as [| | | | | a]; try done; [| | exists 0%nat, c; split_and!; [lia | constructor | by exists a]].
  all: destruct (locked (mutex c)) eqn:El;
    [| edestruct (waiter_finishes bodies c t body) as (n & c' & Hn & [Hs _] & Hf);
       [done | exact Hp | by auto | done | exists n, c'; split_and!; [lia | done | done]]].
  all: apply (si_locked _ _ _ _ _ Hi) in El as (u & q & Hu & Hq);
    assert (u <> t) as Hne by (intros ->; simplify_eq);
    destruct (lookup_lt_is_Some_2 bodies u) as [body' Hb'];
      [rewrite <- (si_length _ _ _ _ _ Hi); by eapply lookup_lt_Some |];
    destruct (holder_finishes bodies c u body' q Hb' Hu Hq) as (n & c1 & Hn & [Hs Ho] & _ & Hl);
    edestruct (waiter_finishes bodies c1 t body) as (n2 & c2 & Hn2 & [Hs2 _] & Hf);
      [done | by rewrite Ho | by auto | done |];
    exists (n + n2)%nat, c2; split_and!; [lia | by eapply nsteps_trans | done].
Qed.
End properties.

Section arc_properties.
Context {T : Type}.
Implicit Types ops : list (arc_op (T := T)).

Lemma arc_log_conserves ops v0 order v :
  one_by_one (arc_access <$> ops) v0 order v -> v0 :: installed ops order ≡ₚ v :: taken ops order.
Proof.
  intros Ho. induction Ho as [| order v t body _ IH Hb]; [done |].
  rewrite list_lookup_fmap in Hb. destruct (ops !! t) as [op |] eqn:Eop; [| done]. injection Hb as <-.
  unfold installed, taken, access_value in *. rewrite !omap_app. cbn. rewrite Eop.
  destruct op as [| new]; cbn; [by rewrite !app_nil_r |].
  rewrite app_comm_cons, IH. cbn. change (id new) with new.
  rewrite (Permutation_app_comm _ [new]), (Permutation_app_comm _ [v]). apply Permutation_swap.
Qed.

(** The cell neither loses nor duplicates an [Arc].  Whatever loads and
    swaps run on it at once, whenever the lock is free there is an order of
    the calls, holding the result of every finished one, in which the
    pointers put in (at creation and by swaps) are exactly the pointers the
    swaps handed back plus the one in the cell. *)
Theorem arc_cell_conserves ops v0 c :
  rtc (cell_step (arc_access <$> ops)) (cell_start (arc_access <$> ops) v0) c -> locked (mutex c) = false ->
  exists order, NoDup order.*1 /\ (forall t a, points c !! t = Some (Finished a) -> (t, a) ∈ order) /\
    v0 :: installed ops order ≡ₚ value (mutex c) :: taken ops order.
Proof.
  intros Hr Hl. destruct (spin_lock_linearizable _ _ _ Hr) as (order & v & Ha & _).
  exists order. split_and!; [apply Ha | apply Ha |]. rewrite (at_value _ _ _ _ _ Ha Hl).
  apply arc_log_conserves, Ha.
Qed.
End arc_properties.

(** ** Witnesses *)

(** Two swaps and a load, racing. *)
Definition arc_race : list (arc_op (T := Z)) := [ArcSwap 7; ArcLoad; ArcSwap 9].
Definition arc_race_bodies : list (Z -> option Z * Z) := arc_access <$> arc_race.
Definition arc_race_middle : cell Z Z := run_cell arc_race_bodies [0; 1; 0; 2; 1; 2; 1]%nat (cell_start arc_race_bodies 5).
Definition arc_race_end : cell Z Z :=
  run_cell arc_race_bodies ([0; 0; 2; 2; 2; 1; 2; 2] ++ replicate 6 1)%nat arc_race_middle.

Lemma arc_race_end_reachable : rtc (cell_step arc_race_bodies) (cell_start arc_race_bodies 5) arc_race_end.
Proof. etrans; [apply run_cell_reachable | apply run_cell_reachable]. Defined.

Lemma spin_lock_linearizable_witness :
  points arc_race_end = [Finished 5; Finished 9; Finished 7] /\
  exists order v, atomic_so_far arc_race_bodies 5 arc_race_end order v /\
    forall c', rtc (cell_step arc_race_bodies) arc_race_end c' ->
      exists new v', atomic_so_far arc_race_bodies 5 c' (order ++ new) v'.
Proof.
  split; [by vm_compute |].
  apply (spin_lock_linearizable arc_race_bodies 5 arc_race_end), arc_race_end_reachable.
Defined.

Lemma spin_lock_progress_witness :
  points arc_race_middle !! 1%nat = Some SpinLoad /\
  exists n c', (n <= 8)%nat /\ nsteps (cell_step arc_race_bodies) n arc_race_middle c' /\ finished c' 1%nat.
Proof.
  split; [by vm_compute |].
  apply (spin_lock_progress arc_race_bodies 5 arc_race_middle 1).
  - apply run_cell_reachable.
  - cbn. lia.
Defined.

Lemma arc_cell_conserves_witness :
  value (mutex arc_race_end) = 9 /\
  exists order, NoDup order.*1 /\
    (forall t a, points arc_race_end !! t = Some (Finished a) -> (t, a) ∈ order) /\
    5 :: installed arc_race order ≡ₚ value (mutex arc_race_end) :: taken arc_race order.
Proof.
  split; [by vm_compute |].
  apply (arc_cell_conserves arc_race 5 arc_race_end); [exact arc_race_end_reachable | by vm_compute].
Defined.
