(* ===== verification/OsUnix.v ===== *)
(** * The Unix backend ([memory/unix.rs])

    The functions the memory layer calls, over the C library: [libc] is the
    class [Libc], one operation per function with the C return value, and the
    constants the backend passes.  [unix_os] is the [Os] they make. *)

From S2P Require Import Prelude Errors Rust Os Guarded.

(** The parts of [libc] the backend uses.  Pointers and sizes are addresses;
    [sysconf] and [mmap] return what C returns. *)
Class Libc (W : Type) := {
  mlock : Z -> Z -> W -> Z * W;
  munlock : Z -> Z -> W -> Z * W;
  madvise : Z -> Z -> Z -> W -> Z * W;
  sysconf : Z -> Z;
  mmap : Z -> Z -> Z -> Z -> Z -> Z -> W -> Z * W;
  munmap : Z -> Z -> W -> Z * W;
  mprotect : Z -> Z -> Z -> W -> Z * W;
  SC_PAGESIZE : Z;
  PROT_NONE : Z; PROT_READ : Z; PROT_WRITE : Z;
  MAP_PRIVATE : Z; MAP_ANON : Z; MAP_FAILED : Z;
  MADV_DONTDUMP : Z; MADV_DODUMP : Z; MADV_NOCORE : Z; MADV_CORE : Z
}.

(** [target_os], as far as the backend asks. *)
Inductive UnixTarget := Linux | Android | FreeBSD | DragonFly | OtherUnix.

Definition null : Z := 0.

Section unix.
Context {W : Type} `{Libc W} (target_os : UnixTarget).

Definition UNIX_LOCK_SURVIVES_NO_ACCESS : bool := true.

Definition unix_lock_pages (ptr len : Z) (w : W) : bool * W :=
  let '(rc, w) := mlock ptr len w in (rc =? 0, w).

Definition unix_unlock_pages (ptr len : Z) (w : W) : W := (munlock ptr len w).2.

Definition unix_exclude_from_dumps (ptr len : Z) (w : W) : bool * W :=
  match target_os with
  | Linux | Android => let '(rc, w) := madvise ptr len MADV_DONTDUMP w in (rc =? 0, w)
  | FreeBSD | DragonFly => let '(rc, w) := madvise ptr len MADV_NOCORE w in (rc =? 0, w)
  | OtherUnix => (false, w)
  end.

Definition unix_include_in_dumps (ptr len : Z) (w : W) : W :=
  match target_os with
  | Linux | Android => (madvise ptr len MADV_DODUMP w).2
  | FreeBSD | DragonFly => (madvise ptr len MADV_CORE w).2
  | OtherUnix => w
  end.

(** [usize::try_from(n).ok().filter(|&n| n > 0)]. *)
Definition positive_usize (n : Z) : option Z :=
  if (0 <=? n) && (n <=? usize_max) then if 0 <? n then Some n else None else None.

Definition unix_system_page_size : option Z := positive_usize (sysconf (W := W) SC_PAGESIZE).

Definition unix_map_region (len : Z) (w : W) : option Z * W :=
  let '(p, w) := mmap null len (Z.lor PROT_READ PROT_WRITE) (Z.lor MAP_PRIVATE MAP_ANON) (-1) 0 w in
  (if (p =? MAP_FAILED) || (p =? null) then None else Some p, w).

Definition unix_unmap_region (ptr len : Z) (w : W) : W := (munmap ptr len w).2.

Definition unix_prot (access : Access) : Z :=
  match access with
  | AccessNone => PROT_NONE (W := W)
  | AccessRead => PROT_READ
  | AccessReadWrite => Z.lor PROT_READ PROT_WRITE
  end.

Definition unix_protect (ptr len : Z) (access : Access) (w : W) : bool * W :=
  let '(rc, w) := mprotect ptr len (unix_prot access) w in (rc =? 0, w).

#[export] Instance unix_os : Os W := {|
  system_page_size := unix_system_page_size;
  lock_survives_no_access := UNIX_LOCK_SURVIVES_NO_ACCESS;
  map_region := unix_map_region;
  lock_pages := unix_lock_pages;
  unlock_pages := unix_unlock_pages;
  exclude_from_dumps := unix_exclude_from_dumps;
  include_in_dumps := unix_include_in_dumps;
  protect := unix_protect;
  unmap_region := unix_unmap_region
|}.
End unix.

(** What POSIX says of [mprotect]: on success every byte of the range has the
    protection asked for; on failure some may and the others are as before;
    bytes outside the range are as before in any case. *)
Class Mprotect (W : Type) `{Libc W} := {
  prot_of : W -> Z -> Z;
  mprotect_law addr len prot w q :
    let '(rc, w') := mprotect addr len prot w in
    if decide (addr <= q < addr + len) then
      prot_of w' q = prot \/ (rc <> 0 /\ prot_of w' q = prot_of w q)
    else prot_of w' q = prot_of w q
}.

(** ** Guards and the kernel's protection *)

Section guards.
Context {W : Type} `{Libc W, !Mprotect W} (target_os : UnixTarget).
#[local] Instance the_os : Os W := unix_os target_os.

(** Every byte of the region's mapping has this protection. *)
Definition mapped_as (a : Access) (r : GuardedRegion) (w : W) : Prop :=
  forall q, base r <= q < base r + map_len r -> prot_of w q = unix_prot (W := W) a.

Lemma protect_granted r a w w' :
  unix_protect (base r) (map_len r) a w = (true, w') -> mapped_as a r w'.
Proof.
  unfold unix_protect. intros E q Hq. pose proof (mprotect_law (base r) (map_len r) (unix_prot (W := W) a) w q) as Hl.
  destruct (mprotect _ _ _ w) as [rc w1]. injection E as Erc <-. apply Z.eqb_eq in Erc.
  rewrite decide_True in Hl by done. destruct Hl as [-> | [? _]]; [done | lia].
Qed.

(** Readers are the live guards; with a guard the mapping is readable. *)
Definition guarded_by (r : GuardedRegion) (live : Z) (w : W) : Prop :=
  readers r = live /\ 0 <= live /\ (0 < live -> mapped_as AccessRead r w).

Lemma open_tracked r live w :
  guarded_by r live w ->
  match open r w with
  | (Ok r', w') => guarded_by r' (live + 1) w' /\ base r' = base r /\ map_len r' = map_len r
  | (_, w') => live = 0
  end.
Proof.
  intros (Hr & Hl & Hm). unfold open. cbn [protect the_os unix_os]. case_test; tests.
  - destruct (unix_protect (base r) (map_len r) AccessRead w) as [[] w'] eqn:E; [| by lia].
    split; [| done]. unfold guarded_by. cbn. split_and!; [lia | lia |].
    intros _. exact (protect_granted r AccessRead w w' E).
  - split; [| done]. unfold guarded_by. cbn. split_and!; [lia | lia | intros _ q Hq; apply Hm; [lia | done]].
Qed.

Lemma close_tracked r live w :
  guarded_by r live w -> 0 < live ->
  let '(r', w') := close r w in
  guarded_by r' (live - 1) w' /\ base r' = base r /\ map_len r' = map_len r.
Proof.
  intros (Hr & Hl & Hm) Hp. unfold close. cbn [protect the_os unix_os set_readers readers base map_len].
  case_test; tests.
  - destruct (unix_protect (base r) (map_len r) AccessNone w) as [[] w']; (split; [| done]);
      unfold guarded_by; cbn; split_and!; lia.
  - split; [| done]. unfold guarded_by. cbn. split_and!; [lia | lia | intros _ q Hq; apply Hm; [lia | done]].
Qed.

Lemma run_guards_guarded ops r live w :
  guarded_by r live w ->
  let '(r', live', w') := run_guards ops r live w in
  guarded_by r' live' w' /\ base r' = base r /\ map_len r' = map_len r.
Proof.
  revert r live w. induction ops as [| [] ops IH]; intros r live w Hg; cbn [run_guards]; [done | |].
  - pose proof (open_tracked r live w Hg) as Ho.
    destruct (open r w) as [[r1 | e | |] w1] eqn:E.
    + destruct Ho as (Hg1 & Hb & Hn). specialize (IH r1 _ w1 Hg1).
      destruct (run_guards ops r1 (live + 1) w1) as [[r2 l2] w2]. destruct IH as (? & -> & ->). done.
    + subst live. apply IH. destruct Hg as (? & ? & _). split_and!; [done | done | lia].
    + subst live. apply IH. destruct Hg as (? & ? & _). split_and!; [done | done | lia].
    + subst live. apply IH. destruct Hg as (? & ? & _). split_and!; [done | done | lia].
  - case_test; tests; [by apply IH |].
    pose proof (close_tracked r live w Hg) as Hc. destruct (close r w) as [r1 w1].
    destruct Hc as (Hg1 & Hb & Hn); [destruct Hg; lia |]. specialize (IH r1 _ w1 Hg1).
    destruct (run_guards ops r1 (live - 1) w1) as [[r2 l2] w2]. destruct IH as (? & -> & ->). done.
Qed.

(** C28: Reading under a guard never faults.  On Unix, whatever sequence of
    opens and guard drops runs on a sealed region (from any threads: each is
    one call under the region's mutex), and whichever [mprotect] calls the
    kernel refuses: while a guard lives, every byte of the region's mapping
    has exactly the protection [PROT_READ] in the kernel, readable and not
    writable. *)
Theorem live_guard_pages_readable ops r w :
  readers r = 0 ->
  let '(r', live, w') := run_guards ops r 0 w in
  0 < live -> forall q, base r <= q < base r + map_len r -> prot_of w' q = PROT_READ.
Proof.
  intros Hr. pose proof (run_guards_guarded ops r 0 w) as Hg.
  destruct (run_guards ops r 0 w) as [[r' live] w']. destruct Hg as ((_ & _ & Hm) & Hb & Hn).
  - split_and!; [done | done | lia].
  - intros Hl q Hq. apply Hm; [done |]. by rewrite Hb, Hn.
Qed.
End guards.

(** ** A small kernel

    The world is the list of granted protection changes, newest first; a
    change of more than four pages is refused. *)
Module TinyKernel.
Definition world := list (Z * Z * Z).

Fixpoint protection_at (w : world) (q : Z) : Z :=
  match w with
  | [] => 0
  | (addr, len, prot) :: w' => if decide (addr <= q < addr + len) then prot else protection_at w' q
  end.

#[export] Instance libc : Libc world := {|
  mlock := fun _ _ w => (0, w);
  munlock := fun _ _ w => (0, w);
  madvise := fun _ _ _ w => (0, w);
  sysconf := fun _ => 4096;
  mmap := fun _ len _ _ _ _ w => (65536, (65536, len, 3) :: w);
  munmap := fun _ _ w => (0, w);
  mprotect := fun addr len prot w => if 16384 <? len then (-1, w) else (0, (addr, len, prot) :: w);
  SC_PAGESIZE := 30;
  PROT_NONE := 0; PROT_READ := 1; PROT_WRITE := 2;
  MAP_PRIVATE := 2; MAP_ANON := 32; MAP_FAILED := -1;
  MADV_DONTDUMP := 16; MADV_DODUMP := 17; MADV_NOCORE := 8; MADV_CORE := 9
|}.

Lemma protection_law addr len prot (w : world) q :
  let '(rc, w') := mprotect addr len prot w in
  if decide (addr <= q < addr + len) then
    protection_at w' q = prot \/ (rc <> 0 /\ protection_at w' q = protection_at w q)
  else protection_at w' q = protection_at w q.
Proof.
  cbn. destruct (16384 <? len); cbn; destruct (decide (addr <= q < addr + len)); auto.
Defined.

#[export] Instance protections : Mprotect world := {| prot_of := protection_at; mprotect_law := protection_law |}.

(** A two-page region, sealed. *)
Definition region : GuardedRegion :=
  {| base := 65536; map_len := 8192; region_len := 100; region_locked := true; no_dump := true;
     readers := 0; contents := zeros 8192; protection := AccessNone |}.
End TinyKernel.

#[local] Existing Instance TinyKernel.libc.
#[local] Existing Instance TinyKernel.protections.
#[local] Instance tiny_os : Os TinyKernel.world := unix_os Linux.
Definition tiny_boot : TinyKernel.world := [].
Definition tiny_ops : list GuardOp := [OpenGuard; OpenGuard; DropGuard].

Lemma live_guard_witness :
  (let '(r', live, w') := run_guards tiny_ops TinyKernel.region 0 tiny_boot in
   live = 1 /\ prot_of w' 65536 = 1) /\
  let '(r', live, w') := run_guards tiny_ops TinyKernel.region 0 tiny_boot in
  0 < live -> forall q, base TinyKernel.region <= q < base TinyKernel.region + map_len TinyKernel.region ->
    prot_of w' q = PROT_READ.
Proof.
  split; [by vm_compute |].
  apply (live_guard_pages_readable Linux tiny_ops TinyKernel.region tiny_boot).
  done.
Defined.

(** ** A kernel that changes part of a range and refuses the rest

    What [mprotect_law] allows: of a range of several pages it makes the first
    one readable and then fails, say because the second cannot be split off. *)
Module PartialKernel.
#[export] Instance libc : Libc TinyKernel.world := {|
  mlock := fun _ _ w => (0, w);
  munlock := fun _ _ w => (0, w);
  madvise := fun _ _ _ w => (0, w);
  sysconf := fun _ => 4096;
  mmap := fun _ len _ _ _ _ w => (65536, (65536, len, 3) :: w);
  munmap := fun _ _ w => (0, w);
  mprotect := fun addr len prot w =>
    if (prot =? 1) && (4096 <? len) then (-1, (addr, 4096, prot) :: w) else (0, (addr, len, prot) :: w);
  SC_PAGESIZE := 30;
  PROT_NONE := 0; PROT_READ := 1; PROT_WRITE := 2;
  MAP_PRIVATE := 2; MAP_ANON := 32; MAP_FAILED := -1;
  MADV_DONTDUMP := 16; MADV_DODUMP := 17; MADV_NOCORE := 8; MADV_CORE := 9
|}.

Lemma partial_protection_law addr len prot (w : TinyKernel.world) q :
  let '(rc, w') := mprotect (Libc := libc) addr len prot w in
  if decide (addr <= q < addr + len) then
    TinyKernel.protection_at w' q = prot \/ (rc <> 0 /\ TinyKernel.protection_at w' q = TinyKernel.protection_at w q)
  else TinyKernel.protection_at w' q = TinyKernel.protection_at w q.
Proof.
  cbn. destruct (prot =? 1); cbn; [destruct (Z.ltb_spec 4096 len); cbn |];
    destruct (decide (addr <= q < addr + len)); auto.
  all: destruct (decide (addr <= q < addr + 4096)); auto; lia.
Qed.

#[export] Instance protections : Mprotect TinyKernel.world (H := libc) :=
  {| prot_of := TinyKernel.protection_at; mprotect_law := partial_protection_law |}.
End PartialKernel.

(** [open] gives up without sealing the region again: nobody holds a guard,
    and the first page of the key stays readable.  So sealed-between-uses
    needs a system on which a refused read access changes nothing. *)
Lemma refused_open_leaves_readable :
  let r := TinyKernel.region in
  let '(o, w) := open (H := unix_os (H := PartialKernel.libc) Linux) r tiny_boot in
  o = Err open_failed /\ readers r = 0 /\
  prot_of (Mprotect := PartialKernel.protections) w (base r) = 1 /\
  prot_of (Mprotect := PartialKernel.protections) w (base r + 4096) = 0.
Proof. vm_compute. done. Qed.
