(* ===== verification/OsWindows.v ===== *)
(** * The Windows backend ([memory/windows.rs])

    The functions the memory layer calls, over the Win32 API: [windows_sys]
    is the class [Win32], one operation per function with what it returns.
    The two cached export addresses are statics of the process; the state is
    the cache next to the world. *)

From S2P Require Import Prelude Errors Rust Os.

(** The Win32 functions and constants the backend uses.  A [BOOL] is 0 or
    not; an [HRESULT] is a failure when negative; [GetProcAddress] gives a
    function's address or nothing; [call_wer_register] and its counterpart
    call the function at an address with the documented signature. *)
Class Win32 (W : Type) := {
  VirtualLock : Z -> Z -> W -> Z * W;
  VirtualUnlock : Z -> Z -> W -> Z * W;
  GetModuleHandleW : list Z -> W -> Z * W;
  GetProcAddress : Z -> list byte -> W -> option Z * W;
  call_wer_register : Z -> Z -> Z -> W -> Z * W;
  call_wer_unregister : Z -> Z -> W -> Z * W;
  dwPageSize : Z;
  VirtualAlloc : Z -> Z -> Z -> Z -> W -> Z * W;
  VirtualFree : Z -> Z -> Z -> W -> Z * W;
  VirtualProtect : Z -> Z -> Z -> W -> Z * W;
  MEM_COMMIT : Z; MEM_RESERVE : Z; MEM_RELEASE : Z;
  PAGE_NOACCESS : Z; PAGE_READONLY : Z; PAGE_READWRITE : Z
}.

(** [WER_REGISTER] and [WER_UNREGISTER]: 0 not looked up, 1 not available,
    anything else the address. *)
Record WerCache := { wer_register : Z; wer_unregister : Z }.
Definition wer_cache_init : WerCache := {| wer_register := 0; wer_unregister := 0 |}.

(** One of the two statics. *)
Record Slot := { slot_load : WerCache -> Z; slot_store : Z -> WerCache -> WerCache }.
Definition WER_REGISTER : Slot :=
  {| slot_load := wer_register;
     slot_store := fun v c => {| wer_register := v; wer_unregister := wer_unregister c |} |}.
Definition WER_UNREGISTER : Slot :=
  {| slot_load := wer_unregister;
     slot_store := fun v c => {| wer_register := wer_register c; wer_unregister := v |} |}.

Definition ascii_bytes (s : string) : list byte := String.list_byte_of_string s.

(** The names, NUL-terminated. *)
Definition register_name : list byte := ascii_bytes "WerRegisterExcludedMemoryBlock" ++ [Byte.x00].
Definition unregister_name : list byte := ascii_bytes "WerUnregisterExcludedMemoryBlock" ++ [Byte.x00].

(** The 13 [u16]s: the name's bytes written over zeros. *)
Definition module_name : list Z :=
  list_inserts 0 (byte.unsigned <$> ascii_bytes "kernel32.dll") (replicate 13 0).

Section windows.
Context {W : Type} `{Win32 W}.

Definition WINDOWS_LOCK_SURVIVES_NO_ACCESS : bool := false.

Definition windows_lock_pages (ptr len : Z) (w : W) : bool * W :=
  let '(ok, w) := VirtualLock ptr len w in (negb (ok =? 0), w).

Definition windows_unlock_pages (ptr len : Z) (w : W) : W := (VirtualUnlock ptr len w).2.

(** The lookup proper: the export's address, if the module and the export
    are there. *)
Definition kernel32_lookup (name : list byte) (w : W) : option Z * W :=
  let '(module_, w) := GetModuleHandleW module_name w in
  if module_ =? 0 then (None, w) else GetProcAddress module_ name w.

Definition kernel32_export (slot : Slot) (name : list byte) (st : WerCache * W) : option Z * (WerCache * W) :=
  let addr := slot_load slot st.1 in
  if addr =? 0 then
    let '(addr, w) := kernel32_lookup name st.2 in
    (addr, (slot_store slot (default 1 addr) st.1, w))
  else if addr =? 1 then (None, st)
  else (Some addr, st).

Definition windows_exclude_from_dumps (ptr len : Z) (st : WerCache * W) : bool * (WerCache * W) :=
  match u32_try_from len with
  | None => (false, st)
  | Some size =>
      match kernel32_export WER_REGISTER register_name st with
      | (None, st) => (false, st)
      | (Some addr, (cache, w)) =>
          let '(hr, w) := call_wer_register addr ptr size w in (0 <=? hr, (cache, w))
      end
  end.

Definition windows_include_in_dumps (ptr len : Z) (st : WerCache * W) : WerCache * W :=
  match kernel32_export WER_UNREGISTER unregister_name st with
  | (None, st) => st
  | (Some addr, (cache, w)) => (cache, (call_wer_unregister addr ptr w).2)
  end.

(** [dwPageSize] is a [u32]; zero is filtered out. *)
Definition windows_system_page_size : option Z :=
  if 0 <? dwPageSize (W := W) then Some (dwPageSize (W := W)) else None.

Definition windows_map_region (len : Z) (w : W) : option Z * W :=
  let '(p, w) := VirtualAlloc 0 len (Z.lor MEM_COMMIT MEM_RESERVE) PAGE_READWRITE w in
  (if p =? 0 then None else Some p, w).

Definition windows_unmap_region (ptr len : Z) (w : W) : W := (VirtualFree ptr 0 MEM_RELEASE w).2.

Definition windows_prot (access : Access) : Z :=
  match access with
  | AccessNone => PAGE_NOACCESS (W := W)
  | AccessRead => PAGE_READONLY
  | AccessReadWrite => PAGE_READWRITE
  end.

Definition windows_protect (ptr len : Z) (access : Access) (w : W) : bool * W :=
  let '(ok, w) := VirtualProtect ptr len (windows_prot access) w in (negb (ok =? 0), w).

(** A call that does not look at the cache. *)
Definition beside {A} (f : W -> A * W) (st : WerCache * W) : A * (WerCache * W) :=
  let '(a, w) := f st.2 in (a, (st.1, w)).
Definition beside_ (f : W -> W) (st : WerCache * W) : WerCache * W := (st.1, f st.2).

#[export] Instance windows_os : Os (WerCache * W) := {|
  system_page_size := windows_system_page_size;
  lock_survives_no_access := WINDOWS_LOCK_SURVIVES_NO_ACCESS;
  map_region := fun len => beside (windows_map_region len);
  lock_pages := fun ptr len => beside (windows_lock_pages ptr len);
  unlock_pages := fun ptr len => beside_ (windows_unlock_pages ptr len);
  exclude_from_dumps := windows_exclude_from_dumps;
  include_in_dumps := windows_include_in_dumps;
  protect := fun ptr len access => beside (windows_protect ptr len access);
  unmap_region := fun ptr len => beside_ (windows_unmap_region ptr len)
|}.
End windows.

(** ** The cache

    A loaded module's exports do not change while it is loaded, and kernel32
    stays loaded: looking a name up again finds what it found before.  An
    export's address is never one of the two marks. *)
Class StableExports (W : Type) `{Win32 W} := {
  exports : list byte -> option Z;
  lookup_law name w : (kernel32_lookup name w).1 = exports name;
  exports_marks name addr : exports name = Some addr -> addr <> 0 /\ addr <> 1
}.

Section cache.
Context {W : Type} `{Win32 W, !StableExports W}.

(** What a slot may hold: nothing yet, or what the lookup of its name gives. *)
Definition slot_ok (slot : Slot) (name : list byte) (c : WerCache) : Prop :=
  slot_load slot c = 0 \/ slot_load slot c = default 1 (exports name).

Definition cache_ok (c : WerCache) : Prop :=
  slot_ok WER_REGISTER register_name c /\ slot_ok WER_UNREGISTER unregister_name c.

Lemma mark_absent name : default 1 (exports name) = 1 <-> exports name = None.
Proof.
  destruct (exports name) as [addr |] eqn:E; [| done]. cbn. split; [| done].
  intros ->. by destruct (exports_marks name 1 E).
Qed.

Lemma mark_nonzero name : default 1 (exports name) <> 0.
Proof. destruct (exports name) as [addr |] eqn:E; cbn; [by apply (exports_marks name) | done]. Qed.

(** One lookup: right, and never again. *)
Lemma kernel32_export_spec slot name c w :
  (forall v c, slot_load slot (slot_store slot v c) = v) -> slot_ok slot name c ->
  let '(addr, (c', w')) := kernel32_export slot name (c, w) in
  addr = exports name /\ slot_load slot c' = default 1 (exports name) /\
  (slot_load slot c <> 0 -> c' = c /\ w' = w) /\
  (c' = c \/ c' = slot_store slot (default 1 (exports name)) c).
Proof.
  intros Hslot Hok. unfold kernel32_export. cbn [fst snd]. case_test; tests.
  - pose proof (lookup_law name w) as Hl. destruct (kernel32_lookup name w) as [addr w']. cbn in Hl. subst addr.
    split_and!; [done | apply Hslot | done | by right].
  - destruct Hok as [? | Hv]; [done |]. rewrite Hv in *. case_test; tests.
    + split_and!; [symmetry; by apply mark_absent | done | done | by left].
    + split_and!; [| done | done | by left].
      destruct (exports name) as [addr |] eqn:E; [done |]. by cbn in *.
Qed.
End cache.
