(* ===== verification/NoStd.v ===== *)
(** * Reading a key without [std] ([vault/mod.rs], [memory/mod.rs])

    Builds without [std] have no thread-local storage: [read_key] allocates a
    [ScratchBuf] per call and frees it on the way out.  The [scratch] field
    of the state is then the buffer of the innermost call; enclosing calls'
    buffers come back when the inner call returns.  No [RefCell] guards it,
    so a callback may read keys.  The global allocator is a parameter that
    sees the memory it is given back. *)

From S2P Require Import Prelude Errors Rust Rng RawKey Normalize Codex Fragment Standard Layouts.
From S2P Require Import Os Guarded Handle Events Config Lockout.
From S2P Require Import VaultState Vault VaultFrame VaultPipeline VaultRead VaultRegistry VaultSpec VaultProps.
From S2P Require Import VaultDemo VaultTheorems.

(** The global allocator's [dealloc]: the address, the memory as it is. *)
Class Allocator (W : Type) := { deallocate : Z -> list byte -> W -> W }.

(** ** Operations *)

Section no_std.
Context {W : Type} `{Rng W} `{Os W} `{Blake3} `{StdTime W} `{PageRefs W} `{Threads W}.
Context (allocator : Allocator W) (self : VaultInner W).

(** [ScratchBuf::new]. *)
Definition scratch_buf_new (len : Z) : M (VaultState W) Scratch :=
  let! buf := vec_zeroed len in
  let! ptr := on_world (ask (heap_address len)) in
  do! (if 0 <? len then do! on_world (ask (acquire_pages ptr len)) in ret tt else ret tt) in
  ret {| scratch_ptr := ptr; buf := buf; borrowed := true |}.

(** [Drop for ScratchBuf], and of the [Vec] in it; the caller's buffer is
    the current one again. *)
Definition scratch_buf_drop (outer : Scratch) (s : VaultState W) : VaultState W :=
  let s := set_buf (zeros (zlen (buf (scratch s)))) s in
  let ptr := scratch_ptr (scratch s) in
  let len := zlen (buf (scratch s)) in
  let s :=
    if len =? 0 then s else
    let s := set_world (release_pages ptr len (world s)) s in
    set_world (deallocate ptr (buf (scratch s)) (world s)) s in
  set_scratch outer s.

(** [read_key]; the guard that wipes the buffer drops before the buffer. *)
Definition read_key_no_std {T} (fragments : Fragments) (f : callback W T) : M (VaultState W) T :=
  let! outer := gets scratch in
  let total := total_len fragments in
  let! scratch_buf := scratch_buf_new total in
  do! modify (set_scratch scratch_buf) in
  finally (
    finally (
      do! reassemble self fragments total in
      let! bytes := gets (fun s => take (Z.to_nat total) (buf (scratch s))) in
      call f bytes) (zero_on_exit total))
    (scratch_buf_drop outer).

(** [with_key], which both builds share, over a [read_key]. *)
Definition with_key_over {T} (read : Fragments -> callback W T -> M (VaultState W) T)
    (handle : KeyHandle) (f : callback W T) : M (VaultState W) T :=
  let! locked := is_locked_out in
  if locked then fail Error.LockedOut else
  let! snapshot := gets keys in
  let! entry := ok_or (snapshot !! KeyHandle.id handle) Error.KeyNotFound in
  let! key_locked := name_locked self (entry_name entry) in
  if (key_locked : bool) then fail Error.LockedOut else
  let fragments := share (entry_fragments entry) in
  let name := if is_no_op (W := W) (audit self) then None else Some (entry_name entry) in
  let! result := read fragments f in
  do! match name with Some name => emit_audit self name Read EmptyString | None => ret tt end in
  ret result.

Definition with_key_no_std {T} (handle : KeyHandle) (f : callback W T) : M (VaultState W) T :=
  with_key_over read_key_no_std handle f.

(** With [std], it is the [with_key] of the rest of the development. *)
Lemma with_key_over_std {T} h (f : callback W T) s :
  with_key_over (read_key self) h f s = with_key self h f s.
Proof. reflexivity. Qed.

Lemma with_key_over_eq {T} read s h (f : callback W T) :
  with_key_over read h f s =
    if locked_out (lock s) then (Err Error.LockedOut, s) else
    match keys s !! KeyHandle.id h with
    | None => (Err Error.KeyNotFound, s)
    | Some e =>
        bind (name_locked self (entry_name e)) (fun b : bool =>
          if b then fail Error.LockedOut else
          bind (read (entry_fragments e) f) (fun x =>
            bind (read_event self (entry_name e)) (fun _ => ret x))) s
    end.
Proof.
  unfold with_key_over, is_locked_out, read_event. unfold bind at 1. cbn [gets].
  destruct (locked_out (lock s)); [done |]. erewrite bind_ok by done.
  destruct (keys s !! KeyHandle.id h) as [e |]; [| done].
  unfold bind at 1. cbn [ok_or ret]. cbn zeta.
  assert (share (entry_fragments e) = entry_fragments e) as -> by (by destruct (entry_fragments e)).
  by destruct (is_no_op (audit self)).
Qed.

(** ** The buffer *)

Lemma scratch_buf_new_spec len s :
  0 <= len ->
  match scratch_buf_new len s with
  | (Ok b, s') => frame s s' /\ regions s' = regions s /\ borrowed b = true /\ buf b = zeros len
  | (Panic, s') => isize_max < len /\ s' = s
  | _ => False
  end.
Proof.
  intros Hl. unfold scratch_buf_new, vec_zeroed. unfold bind at 1.
  destruct (len <=? isize_max) eqn:E; tests; [| done]. cbn [ret].
  unfold bind at 1, on_world, zoom at 1, ask. destruct (heap_address len (world s)) as [ptr w1].
  unfold bind at 1. destruct (0 <? len).
  - unfold bind, zoom, ask. by destruct (acquire_pages ptr len _) as [b w2].
  - done.
Qed.

Lemma scratch_buf_drop_scratch outer s : scratch (scratch_buf_drop outer s) = outer.
Proof. done. Qed.

Lemma read_event_ok name s : exists s', read_event self name s = (Ok tt, s') /\ scratch s' = scratch s.
Proof.
  unfold read_event, emit_audit. destruct (is_no_op (audit self)); [by eexists |].
  unfold clock_unix, on_world, zoom, ask, bind. destruct (unix_time (clock self) (world s)). by eexists.
Qed.

(** The invariant holds while a buffer is in use. *)
Lemma vault_inv_busy reg c s s' :
  vault_inv self reg s -> borrowed c = true -> sframe (set_scratch c s) s' -> vault_inv self reg s'.
Proof.
  intros Hinv Hc []. cbn in *. eapply vault_inv_step; [exact Hinv | done | lia | done | |].
  - apply sf_ok, Hinv.
  - congruence.
Qed.

Lemma read_key_no_std_scratch {T} frags (f : callback W T) s :
  0 <= total_len frags -> scratch (snd (read_key_no_std frags f s)) = scratch s.
Proof.
  intros Hl. unfold read_key_no_std. unfold bind at 1. cbn [gets]. unfold bind at 1.
  pose proof (scratch_buf_new_spec (total_len frags) s Hl) as Hn.
  destruct (scratch_buf_new (total_len frags) s) as [[b | e | |] s1]; [| done | by destruct Hn as [_ ->] | done].
  erewrite bind_ok by done. unfold finally at 1. by destruct (finally _ _ _) as [o s2].
Qed.

(** The key in a fresh buffer, then the callback, then everything is put
    back as it was. *)
Lemma read_key_no_std_spec {T} frags key (f : callback W T) s :
  regions_ok (regions s) -> placed self (regions s) frags -> holds self frags key ->
  (exists s', read_key_no_std frags f s = (Err open_failed, s') /\ page_protection (config self) = true) \/
  (exists b s1, borrowed b = true /\ sframe (set_scratch b s) s1 /\
     read_key_no_std frags f s =
       let '(o, s2) := call f (RawKey.bytes key) s1 in
       (o, scratch_buf_drop (scratch s) (zero_on_exit (RawKey.len key) s2))).
Proof.
  intros Hok Hp Hh.
  assert (0 <= total_len frags <= isize_max) as [Hmin Hmax].
  { destruct Hh as (? & enc & Hc%coded_length & Ht & _). pose proof (zlen_nonneg (RawKey.bytes enc)).
    unfold RawKey.len in *. lia. }
  set (total := total_len frags) in *. pose proof (scratch_buf_new_spec total s Hmin) as Hn.
  destruct (scratch_buf_new total s) as [[b | e | |] s0] eqn:En; [| done | lia | done].
  destruct Hn as (Hfr & Hrg & Hb & Hbuf). set (s1 := set_scratch b s0).
  assert (total <= zlen (buf (scratch s1))) as Hlen by (cbn; rewrite Hbuf, zlen_zeros; lia).
  destruct (reassemble_spec self frags key total s1) as [Htk Hre];
    [by cbn; rewrite Hrg.. | done | done | done |].
  set (m := let! bytes := gets (fun s => take (Z.to_nat total) (buf (scratch s))) in call f bytes).
  assert (read_key_no_std frags f s =
    let '(o, s2) := bind (reassemble self frags total) (fun _ => m) s1 in
    (o, scratch_buf_drop (scratch s) (zero_on_exit total s2))) as ->.
  { unfold read_key_no_std. erewrite bind_ok by done. fold total. rewrite (bind_ok _ _ _ _ _ En).
    erewrite bind_ok by done. unfold finally. subst m s1. by destruct (bind _ _ _). }
  unfold bind at 1 2.
  destruct (reassemble self frags total s1) as [[[] | e | |] s2]; [| | done..].
  - right. destruct Hre as [Hfr2 Hby]. exists b, s2. split; [done |]. split.
    + destruct Hfr, Hfr2. split; cbn in *; congruence || auto || by etrans.
    + unfold m, bind, gets. by rewrite Hby, Htk.
  - left. destruct Hre as (_ & -> & Hpp). by eexists.
Qed.
End no_std.

(** ** Properties *)

(** C17: Without [std], [with_key] needs no free scratch: from any state of the
    vault, also inside another [with_key]'s callback, an unknown handle and a
    lockout are refused with the documented errors, and otherwise, unless the
    OS refuses to open the pages, the callback runs once, on exactly the
    stored key.  Whatever the callback does, the caller's own buffer is left
    as it was. *)
Theorem no_std_with_key {W T} `{Rng W} `{Os W} `{Blake3} `{StdTime W} `{PageRefs W} `{Threads W}
    (allocator : Allocator W) (self : VaultInner W) reg s h (f : callback W T) :
  vault_inv self reg s ->
  scratch (snd (with_key_no_std allocator self h f s)) = scratch s /\
  match reg !! KeyHandle.id h with
  | None => fst (with_key_no_std allocator self h f s) =
      Err (if locked_out (lock s) then Error.LockedOut else Error.KeyNotFound)
  | Some i =>
      if usable self s (item_name i) then
        (fst (with_key_no_std allocator self h f s) = Err open_failed /\
           page_protection (config self) = true) \/
        exists s1, vault_inv self reg s1 /\
          fst (with_key_no_std allocator self h f s) =
            match fst (f (RawKey.bytes (item_key i)) s1) with Some x => Ok x | None => Panic end
      else fst (with_key_no_std allocator self h f s) = Err Error.LockedOut
  end.
Proof.
  intros Hinv. unfold with_key_no_std. rewrite with_key_over_eq. unfold usable.
  pose proof (vault_inv_lookup self reg s (KeyHandle.id h) Hinv) as Hlk.
  destruct (locked_out (lock s)); [by destruct (reg !! _) |].
  destruct (keys s !! KeyHandle.id h) as [e |]; [| by rewrite Hlk].
  destruct Hlk as (i & -> & He). rewrite (eo_name _ _ _ _ He).
  destruct (name_locked_spec self (item_name i) s) as (b & l & w & E & ->).
  rewrite (bind_ok _ _ _ _ _ E).
  pose proof (af_inv _ _ _ _ (lock_step_after self reg s l w Hinv)) as Hi1.
  set (s1 := set_world w (set_lock l s)) in *. change (scratch s) with (scratch s1).
  destruct b; [done |]. cbn [negb andb fst].
  unfold bind at 1 3 5. destruct (read_key_no_std_spec allocator self (entry_fragments e) (item_key i) f s1)
    as [(s2 & Es & Hpp) | (c & s2 & Hb & Hs & Es)]; [apply Hi1 | apply He | apply He | |].
  - pose proof (read_key_no_std_scratch allocator self (entry_fragments e) f s1) as Hsc.
    rewrite Es in *. split; [| by left]. apply Hsc.
    destruct (eo_holds _ _ _ _ He) as (? & enc & ? & -> & _). apply zlen_nonneg.
  - rewrite Es. assert (vault_inv self reg s2) as Hi2 by by eapply vault_inv_busy.
    split; [| right; exists s2; split; [done |]]; unfold call;
      (destruct (f (RawKey.bytes (item_key i)) s2) as [[x |] s3]; [| done]); unfold bind;
      destruct (read_event_ok self (item_name i)
        (scratch_buf_drop allocator (scratch s1) (zero_on_exit (RawKey.len (item_key i)) s3))) as (s4 & -> & Hsc);
      done.
Qed.

(** C16: Nothing secret reaches the allocator without [std].  Whatever the vault
    is made of, whether the read succeeds, fails or panics, and whatever the
    callback leaves in the buffer: the memory [with_key] frees holds only
    zeros.  An allocator that keeps what it is given back and one that is
    shown zeros instead cannot be told apart. *)
Theorem no_std_frees_zeros {W T} `{Rng W} `{Os W} `{Blake3} `{StdTime W} `{PageRefs W} `{Threads W}
    (dealloc : Z -> list byte -> W -> W) (self : VaultInner W) h (f : callback W T) s :
  with_key_no_std {| deallocate := dealloc |} self h f s =
  with_key_no_std {| deallocate := fun ptr bytes => dealloc ptr (zeros (zlen bytes)) |} self h f s.
Proof.
  unfold with_key_no_std. rewrite !with_key_over_eq.
  destruct (locked_out (lock s)); [done |]. destruct (keys s !! KeyHandle.id h) as [e |]; [| done].
  apply bind_ext. intros []; [done |]. intros s1. apply bind_ext_l.
  apply bind_ext; intros outer s2. apply bind_ext; intros c s3. apply bind_ext; intros [] s4.
  apply finally_ext. intros s5. unfold scratch_buf_drop, deallocate. cbn.
  pose proof (zlen_nonneg (buf (scratch s5))). by rewrite !zlen_zeros by lia.
Qed.

(** An allocator that looks at what it is given back. *)
Definition logging : Allocator Tape.world := {|
  deallocate := fun _ bytes => Tape.observe (Tape.Anomalous
    {| ac_key_name := "freed"; ac_note := if forallb (fun b => bool_decide (b = Byte.x00)) bytes then "zeros" else "secret" |})
|}.

(** A callback that reads the key again. *)
Definition read_again : callback Tape.world (list byte * list byte) := fun bytes s =>
  match with_key_no_std logging demo_vault demo_handle copy_out s with
  | (Ok again, s) => (Some (bytes, again), s)
  | (_, s) => (None, s)
  end.

Lemma no_std_with_key_witness :
  fst (with_key_no_std logging demo_vault demo_handle read_again demo_stored) =
    Ok (RawKey.bytes demo_key1, RawKey.bytes demo_key1) /\
  omap (fun o => match o with Tape.Anomalous c => Some (ac_note c) | _ => None end)
    (Tape.log (world (snd (with_key_no_std logging demo_vault demo_handle read_again demo_stored)))) =
    ["zeros"; "zeros"]%string /\
  scratch (snd (with_key_no_std logging demo_vault demo_handle read_again demo_stored)) = scratch demo_stored.
Proof.
  split; [vm_compute; reflexivity |]. split; [vm_compute; reflexivity |].
  apply (no_std_with_key logging demo_vault {[1 := demo_item]} demo_stored demo_handle read_again).
  apply demo_stored_inv.
Defined.
