(* ===== verification/AuditTrail.v ===== *)
(** * The audit trail ([vault/mod.rs], [audit/mod.rs])

    What reaches the audit sink: one event for each operation that took
    effect, none for one that did not, and one for each master credential
    that was compared.  The sink's journal is observed through [events]; the
    laws of [Journaled] say that nothing but the sink writes to it. *)

From S2P Require Import Prelude Errors Rust Rng RawKey Normalize Codex Fragment Decoy Standard Layouts.
From S2P Require Import Os Guarded Handle Events Config Lockout.
From S2P Require Import VaultState Vault VaultFrame VaultPipeline VaultSpec VaultProps VaultDemo VaultTheorems.

(** ** The journal *)

(** [events w] is what the sink has received so far.  The OS, the generator
    and the process do not write to it. *)
Class Journaled (W : Type) `{Rng W} `{Os W} `{PageRefs W} := {
  events : W -> list AuditEvent;
  jr_random n w : events (getrandom n w).2 = events w;
  jr_map n w : events (map_region n w).2 = events w;
  jr_lock p n w : events (lock_pages p n w).2 = events w;
  jr_unlock p n w : events (unlock_pages p n w) = events w;
  jr_exclude p n w : events (exclude_from_dumps p n w).2 = events w;
  jr_include p n w : events (include_in_dumps p n w) = events w;
  jr_protect p n a w : events (protect p n a w).2 = events w;
  jr_unmap p n w : events (unmap_region p n w) = events w;
  jr_heap n w : events (heap_address n w).2 = events w;
  jr_acquire p n w : events (acquire_pages p n w).2 = events w;
  jr_release p n w : events (release_pages p n w) = events w
}.

(** ** Fragmenting writes nothing *)

Section fragmenting.
Context {W : Type} `{Journaled W}.

Lemma quiet_fill n : quiet events (fill n).
Proof.
  intros w. unfold fill. pose proof (jr_random n w) as E. by destruct (getrandom n w) as [[bs |] w'].
Qed.

Lemma quiet_random_u64 : quiet events random_u64.
Proof. unfold random_u64. hush; [apply quiet_fill | hush]. Qed.

#[local] Hint Resolve quiet_fill quiet_random_u64 : kv.

Lemma quiet_sample_range min max : quiet events (sample_range min max).
Proof. unfold sample_range. repeat hush. Qed.

Lemma quiet_fisher_yates {A} (l : list A) : quiet events (fisher_yates l).
Proof.
  unfold fisher_yates. hush; [hush |].
  assert (forall n l, quiet events (fisher_yates_loop (A := A) n l)) as Hl; [| apply Hl].
  clear l. induction n as [| n IH]; intros l; cbn [fisher_yates_loop]; repeat hush.
Qed.

#[local] Hint Resolve quiet_sample_range quiet_fisher_yates : kv.

Lemma quiet_sample_chunk_sizes total min max : quiet events (sample_chunk_sizes total min max).
Proof.
  unfold sample_chunk_sizes. hush; [hush |]. generalize (Z.to_nat total) as fuel. intros fuel.
  revert total. induction fuel as [| fuel IH]; intros total; cbn [sample_loop]; repeat hush.
Qed.

Lemma quiet_real_pairs bytes offset sizes : quiet (S := W) events (real_pairs bytes offset sizes).
Proof. revert offset. induction sizes as [| n ns IH]; intros offset; cbn [real_pairs]; repeat hush. Qed.

Lemma quiet_materialize pairs slots order : quiet (S := W) events (materialize pairs slots order).
Proof.
  revert slots. induction order as [| [i | i] order IH]; intros slots; cbn [materialize]; repeat hush.
Qed.

#[local] Hint Resolve quiet_sample_chunk_sizes quiet_real_pairs quiet_materialize : kv.

(** The default fragmenter, with decoys that write nothing. *)
Lemma quiet_standard (self : StandardFragmenter W) key :
  (forall d key n, decoy self = Some d -> quiet events (generate d key n)) ->
  quiet events (standard_fragment self key).
Proof.
  intros Hd. unfold standard_fragment.
  assert (forall n, quiet events (make_decoys self key n)) as Hm.
  { intros n. unfold make_decoys. destruct (decoy self) as [d |] eqn:E; repeat hush. }
  repeat hush.
Qed.
End fragmenting.

(** ** Page protection writes nothing *)

Ltac journal_step :=
  match goal with
  | |- context [map_region ?n ?w] =>
      let E := fresh in pose proof (jr_map n w) as E; destruct (map_region n w) as [[?|] ?]; cbn in E
  | |- context [lock_pages ?p ?n ?w] =>
      let E := fresh in pose proof (jr_lock p n w) as E; destruct (lock_pages p n w); cbn in E
  | |- context [exclude_from_dumps ?p ?n ?w] =>
      let E := fresh in pose proof (jr_exclude p n w) as E; destruct (exclude_from_dumps p n w); cbn in E
  | |- context [protect ?p ?n ?a ?w] =>
      let E := fresh in pose proof (jr_protect p n a w) as E; destruct (protect p n a w) as [[] ?]; cbn in E
  end.

Section pages.
Context {W : Type} `{Journaled W}.
Abbreviation obs := (fun rw : Regions * W => events rw.2).

Lemma quiet_region_new n : quiet events (region_new n).
Proof.
  unfold region_new. hush; [hush |]. intros w. journal_step; [| done].
  destruct lock_survives_no_access; repeat journal_step; cbn; congruence.
Qed.

Lemma quiet_copy_chunks dst at_ cs : quiet (S := W) events (copy_chunks dst at_ cs).
Proof. revert dst at_. induction cs as [| c cs IH]; intros dst at_; cbn [copy_chunks]; repeat hush. Qed.

Lemma region_drop_events r w : events (region_drop r w).2 = events w.
Proof.
  unfold region_drop. journal_step; cbn; rewrite jr_unmap;
    destruct (region_locked r), (no_dump r); by rewrite ?jr_unlock, ?jr_include.
Qed.

Lemma quiet_on_snd {A} (m : M W A) : quiet events m -> quiet obs (on_snd m).
Proof. intros Hm. apply quiet_zoom. intros [r w]. apply Hm. Qed.

Lemma quiet_into_protected frags : quiet obs (into_protected frags).
Proof.
  unfold into_protected. hush; [hush |]. hush; [apply quiet_on_snd, quiet_region_new |].
  hush; [apply quiet_on_snd, quiet_copy_chunks |]. hush. hush; [hush |].
  intros [rs w]. unfold seal. cbn [snd]. journal_step; cbn; [done |].
  rewrite region_drop_events. congruence.
Qed.

Lemma quiet_fragments_open frags : quiet obs (fragments_open frags).
Proof.
  intros [rs w]. unfold fragments_open. destruct (store_region _) as [id |]; [| done]. cbn [fst snd].
  destruct (table rs !! id) as [r |]; [| done]. unfold open. case_test; [| done].
  by journal_step.
Qed.

Lemma fragments_close_events frags st : events (fragments_close frags st).2 = events st.2.
Proof.
  unfold fragments_close. destruct (store_region _) as [id |]; [| done].
  destruct (table st.1 !! id) as [r |]; [| done]. unfold close. case_test; [| done].
  by journal_step.
Qed.

Lemma quiet_secret_read {T} secret (f : list byte -> T) : quiet obs (secret_read secret f).
Proof.
  unfold secret_read. hush; [apply quiet_fragments_open |]. hush; [hush |]. intros st.
  apply fragments_close_events.
Qed.
End pages.

(** ** The vault's operations *)

Section trail.
Context {W : Type} `{Journaled W} `{Blake3} `{StdTime W} `{Threads W}.
Context (self : VaultInner W).
Implicit Types s : VaultState W.

(** The vault's parts write nothing themselves, and its sink records what it
    is told. *)
Record observed : Prop := {
  ob_fragment key : quiet events (fragment (fragmenter self) key);
  ob_now w : events (now (clock self) w).2 = events w;
  ob_unix w : events (unix_time (clock self) w).2 = events w;
  ob_failure c w : events (on_decryption_failure (monitor self) c w) = events w;
  ob_breach c w : events (on_threshold_breach (monitor self) c w) = events w;
  ob_anomaly c w : events (on_anomalous_access (monitor self) c w) = events w;
  ob_sink e w : events (on_event (audit self) e w) = events w ++ [e];
  ob_listens : is_no_op (W := W) (audit self) = false
}.

Context (Hob : observed).

(** The journal and the registry. *)
Definition seen s : list AuditEvent * gmap Z KeyEntry := (events (world s), keys s).

Abbreviation silent := (quiet seen).

Lemma silent_world {A} (m : M W A) : quiet events m -> silent (on_world m).
Proof. intros Hm. apply quiet_zoom. intros s. unfold seen. cbn. by rewrite Hm. Qed.

Lemma silent_regions {A} (m : M (Regions * W) A) :
  quiet (fun rw => events rw.2) m -> silent (on_regions m).
Proof.
  intros Hm. apply quiet_zoom. intros s. unfold seen. cbn. pose proof (Hm (regions s, world s)) as E.
  cbn in E. by rewrite E.
Qed.

Lemma silent_lock {A} (f : LockState -> W -> A * LockState * W) :
  (forall l w, events (f l w).2 = events w) -> silent (on_lock f).
Proof.
  intros Hf s. unfold on_lock. specialize (Hf (lock s) (world s)).
  destruct (f _ _) as [[a l] w]. unfold seen. cbn in *. by rewrite Hf.
Qed.

Lemma silent_scratch {A} total (m : M (list byte) A) : silent (on_scratch total m).
Proof. by apply quiet_zoom. Qed.

Lemma silent_next_id {A} (m : M Z A) : silent (on_next_id m).
Proof. by apply quiet_zoom. Qed.

Lemma quiet_ask {A} (q : W -> A * W) : (forall w, events (q w).2 = events w) -> quiet events (ask q).
Proof. intros Hq w. specialize (Hq w). unfold ask. by destruct (q w). Qed.

Lemma silent_clock_now : silent (clock_now self).
Proof. apply silent_world, quiet_ask, Hob. Qed.

Lemma silent_clock_unix : silent (clock_unix self).
Proof. apply silent_world, quiet_ask, Hob. Qed.

Lemma silent_name_locked name : silent (name_locked self name).
Proof.
  apply silent_lock. intros l w. unfold key_locked, key_locked_slow. case_test; [done |].
  destruct (key_locks l !! name) as [[until |] |]; [| done..].
  pose proof (ob_now Hob w) as E. destruct (now (clock self) w) as [t w']. by case_test.
Qed.

Lemma vault_threshold_events name counts l w :
  events (vault_threshold (config self) (monitor self) name counts l w).2 = events w.
Proof. unfold vault_threshold. case_test; [apply Hob | done]. Qed.

Lemma key_threshold_events name n counts l w :
  events (key_threshold_step (config self) (monitor self) (clock self) name n counts l w).2 = events w.
Proof.
  unfold key_threshold_step. case_test; [| done]. destruct (key_lockout_duration (config self)); [| apply Hob].
  pose proof (ob_now Hob w) as E. destruct (now (clock self) w) as [t w']. cbn [fst snd] in *.
  by rewrite (ob_breach Hob).
Qed.

Lemma silent_handle_failure name note per_key : silent (vault_handle_failure self name note per_key).
Proof.
  apply silent_lock. intros l w. unfold handle_failure, record_failure.
  pose proof (ob_now Hob w) as E. destruct (now (clock self) w) as [t w1]. cbn in E.
  destruct (record_entries _ _ _ _) as [counts entries].
  set (w2 := on_decryption_failure _ _ _). set (l1 := with_tracker _ _).
  pose proof (vault_threshold_events name counts l1 w2) as Ev.
  destruct (vault_threshold _ _ _ _ _ _) as [l2 w3]. cbn in Ev.
  set (n := if per_key then _ else _). pose proof (key_threshold_events name n counts l2 w3) as Ek.
  destruct (key_threshold_step _ _ _ _ _ _ _ _) as [l3 w4]. cbn [fst snd] in *.
  rewrite Ek, Ev. etrans; [apply (ob_failure Hob) | exact E].
Qed.

Lemma silent_clear_lockout : silent (vault_clear_lockout (W := W)).
Proof. done. Qed.

Lemma silent_clear_key name : silent (vault_clear_key_lockout (W := W) name).
Proof. apply silent_lock. intros l w. by destruct (clear_key_lockout name l). Qed.

#[local] Hint Resolve silent_scratch silent_next_id silent_clock_now silent_clock_unix silent_name_locked
  silent_handle_failure silent_clear_lockout silent_clear_key : kv.

Lemma silent_codex_apply c key : silent (codex_apply c key).
Proof. unfold codex_apply. repeat hush. Qed.

Lemma silent_pipeline key : silent (fragment_pipeline self key).
Proof.
  unfold fragment_pipeline. hush.
  { unfold normalize_key. hush; [hush.. | | hush]. hush; [| hush].
    apply silent_regions, quiet_secret_read. }
  hush; [unfold transform; hush; [apply silent_codex_apply | hush] |].
  apply silent_world, Hob.
Qed.

Lemma silent_for_registry key : silent (fragment_for_registry self key).
Proof.
  unfold fragment_for_registry. hush; [apply silent_pipeline |]. hush; [| hush].
  apply silent_regions, quiet_into_protected.
Qed.

Lemma silent_ensure_len len : silent (ensure_len (W := W) len).
Proof.
  unfold ensure_len. hush; [hush |]. hush; [hush |]. hush; [hush |].
  hush; [apply silent_world, quiet_ask, jr_heap |].
  hush; [hush; [hush |]; hush; [apply silent_world, quiet_ask; intros w; apply jr_acquire | hush] |].
  hush; [| done]. unfold scratch_release. hush; [done |]. hush; [done |].
  hush; [hush; [hush |] | done]. intros s. unfold seen. cbn. by rewrite jr_release.
Qed.

Lemma silent_read_key {T} frags (f : callback W T) :
  (forall bytes s, seen (f bytes s).2 = seen s) -> silent (read_key self frags f).
Proof.
  intros Hf. assert (Hr : forall total, silent (reassemble self frags total)).
  { intros total. assert (silent (read_fragments self frags total)) as Hr.
    { intros s. unfold read_fragments. case_test; [apply silent_scratch | done]. }
    unfold reassemble, read_opened. hush; [| hush; hush]. hush; [| done].
    hush; [apply silent_regions, quiet_fragments_open |]. hush; [done |].
    intros s. unfold close_access. pose proof (fragments_close_events frags (regions s, world s)) as E.
    destruct (fragments_close _ _) as [r w]. unfold seen. cbn in *. by rewrite E. }
  assert (silent (finally (do! ensure_len (total_len frags) in
      finally (do! reassemble self frags (total_len frags) in
               let! bytes := gets (fun s => take (Z.to_nat (total_len frags)) (buf (scratch s))) in
               call f bytes) (zero_on_exit (total_len frags))) (set_borrowed false))) as Hm.
  { hush; [| done]. hush; [apply silent_ensure_len |]. hush; [| done]. hush; [apply Hr |].
    apply quiet_bind; [done |]. intros bytes s. unfold call. pose proof (Hf bytes s) as E.
    by destruct (f bytes s) as [[x |] s']. }
  intros s. unfold read_key. case_test; [done |]. exact (Hm (set_borrowed true s)).
Qed.

(** ** What each operation writes *)

(** Who an event is about, and what happened. *)
Definition summary (e : AuditEvent) : string * AccessKind := (ae_key_name e, kind e).

(** From [s] to [s'] the sink was told [l]. *)
Definition told s s' (l : list (string * AccessKind)) : Prop :=
  exists es, events (world s') = events (world s) ++ es /\ summary <$> es = l.

(** The event of an operation on the key [h] names in [s]. *)
Definition about s (h : KeyHandle) (k : AccessKind) : list (string * AccessKind) :=
  match keys s !! KeyHandle.id h with Some e => [(entry_name e, k)] | None => [] end.

(** What the sink should be told of an operation that ended in [o]. *)
Definition audited (op : vault_op) (o : outcome reply) s : list (string * AccessKind) :=
  match op, o with
  | OpRegister name _, Ok _ => [(name, Register)]
  | OpUnregister h, Ok _ => about s h Unregister
  | OpRotate h _, Ok _ => about s h Rotate
  | OpWithKey h, Ok _ => about s h Read
  | OpFragment _, Ok _ => [(EmptyString, OneShotFragment)]
  | OpDefragment _, Ok _ => [(EmptyString, OneShotDefragment)]
  | OpUnlock _, Ok _ => [(MASTER_NAME, MasterUnlockAttempt true)]
  | OpUnlock _, Err e =>
      if decide (e = master_mismatch) then [(MASTER_NAME, MasterUnlockAttempt false)] else []
  | _, _ => []
  end.

(** [m] tells the sink [L], a function of its outcome. *)
Definition logs {A} (P : VaultState W -> Prop) (m : M (VaultState W) A)
    (L : outcome A -> list (string * AccessKind)) : Prop :=
  forall s, P s -> told s (snd (m s)) (L (fst (m s))).

Lemma told_nothing s s' : events (world s') = events (world s) -> told s s' [].
Proof. intros E. exists []. by rewrite app_nil_r. Qed.

Lemma told_after s s1 s' l : events (world s1) = events (world s) -> told s1 s' l -> told s s' l.
Proof. intros E (es & E' & Hl). exists es. by rewrite E', E. Qed.

Lemma told_before s s1 s' l : told s s1 l -> events (world s') = events (world s1) -> told s s' l.
Proof. intros (es & E & Hl) E'. exists es. by rewrite E', E. Qed.

Lemma silent_events {A} (m : M (VaultState W) A) s : silent m -> events (world (snd (m s))) = events (world s).
Proof. intros Hm. exact (f_equal fst (Hm s)). Qed.

Lemma silent_keys {A} (m : M (VaultState W) A) s : silent m -> keys (snd (m s)) = keys s.
Proof. intros Hm. exact (f_equal snd (Hm s)). Qed.

(** A step that writes nothing, before the rest; if it fails, nothing more is
    to be told. *)
Lemma logs_bind {A B} P (R : A -> VaultState W -> Prop) (m : M (VaultState W) A) (k : A -> M (VaultState W) B) L :
  (forall s, events (world (snd (m s))) = events (world s)) ->
  (forall s, P s -> match m s with
    | (Ok a, s') => R a s' | (Err e, _) => L (Err e) = [] | (Panic, _) => L Panic = []
    | (Diverge, _) => L Diverge = [] end) ->
  (forall a, logs (R a) (k a) L) -> logs P (bind m k) L.
Proof.
  intros Hm HR Hk s Hs. specialize (Hm s). specialize (HR s Hs). unfold bind.
  destruct (m s) as [[a | e | |] s1]; cbn [fst snd] in *.
  - eapply told_after; [exact Hm | by apply Hk].
  - rewrite HR. by apply told_nothing.
  - rewrite HR. by apply told_nothing.
  - rewrite HR. by apply told_nothing.
Qed.

(** A silent step. *)
Abbreviation any := (fun _ : VaultState W => True).

Lemma logs_step {A B} (m : M (VaultState W) A) (k : A -> M (VaultState W) B) L :
  silent m -> (forall s e, fst (m s) = Err e -> L (Err e) = []) -> L Panic = [] -> L Diverge = [] ->
  (forall a, logs any (k a) L) -> logs any (bind m k) L.
Proof.
  intros Hm He Hp Hd Hk. apply logs_bind with (R := fun _ => any); [| | exact Hk].
  - intros s. by apply silent_events.
  - intros s _. specialize (He s). destruct (m s) as [[a | e | |] s1]; cbn in *; [done | by apply He | done..].
Qed.

(** The event itself; what follows it is silent and decides nothing. *)
Lemma logs_emit {A} P name kind note (k : M (VaultState W) A) L :
  silent k -> (forall s, L (fst (k s)) = [(name, kind)]) ->
  logs P (do! emit_audit self name kind note in k) L.
Proof.
  intros Hk HL s _. unfold emit_audit. rewrite (ob_listens Hob).
  pose proof (silent_events _ s silent_clock_unix) as Ec.
  unfold clock_unix, on_world, zoom, ask, bind in *. destruct (unix_time (clock self) (world s)) as [t w].
  cbn [fst snd world set_world] in *. unfold tell, modify, gets.
  match goal with |- context [k ?s1] => set (s2 := s1) end.
  rewrite HL. eapply told_before; [| by apply silent_events].
  eexists [_]. subst s2. cbn [world set_world]. by rewrite (ob_sink Hob), Ec.
Qed.

Lemma logs_done {A} P (m : M (VaultState W) A) L :
  (forall s, events (world (snd (m s))) = events (world s)) -> (forall s, L (fst (m s)) = []) -> logs P m L.
Proof. intros Hm HL s _. rewrite HL. by apply told_nothing. Qed.

Lemma logs_map {A B} P (m : M (VaultState W) A) (f : A -> B) L :
  logs P m (fun o => L (outcome_map f o)) -> logs P (let! a := m in ret (f a)) L.
Proof.
  intros Hm s Hs. specialize (Hm s Hs). unfold bind. by destruct (m s) as [[a | e | |] s1].
Qed.

Lemma logs_mono {A} (P : VaultState W -> Prop) (m : M (VaultState W) A) L L' :
  logs P m L -> (forall s o, P s -> o = fst (m s) -> L o = L' o) -> logs P m L'.
Proof. intros Hm HL s Hs. specialize (Hm s Hs). by rewrite <- (HL s _ Hs eq_refl). Qed.

(** Success is told as [l], anything else not at all. *)
Definition on_ok {A} (l : list (string * AccessKind)) (o : outcome A) : list (string * AccessKind) :=
  match o with Ok _ => l | _ => [] end.

Lemma silent_register_prepare name key : silent (register_prepare self name key).
Proof.
  unfold register_prepare. hush; [done |]. hush; [hush |]. hush; [done |]. hush; [hush |].
  hush; [apply silent_for_registry |]. hush; [hush |]. hush; [hush |]. hush.
Qed.

Lemma register_commit_events h e s : events (world (snd (register_commit h e s))) = events (world s).
Proof. unfold register_commit, bind. cbn. by case_test. Qed.

Lemma logs_register name key : logs (fun _ => True) (register self name key) (on_ok [(name, Register)]).
Proof.
  unfold register. apply logs_bind with (R := fun _ _ => True).
  - intros s. apply silent_events, silent_register_prepare.
  - intros s _. by destruct (register_prepare self name key s) as [[p | e | |] s1].
  - intros [h e]. cbn [fst snd]. apply logs_bind with (R := fun _ _ => True).
    + apply register_commit_events.
    + intros s _. by destruct (register_commit h e s) as [[p | e' | |] s1].
    + intros _. by apply logs_emit.
Qed.

Lemma emit_then_done name kind note s :
  emit_audit self name kind note s = bind (emit_audit self name kind note) (fun _ => ret tt) s.
Proof. unfold bind. by destruct (emit_audit self name kind note s) as [[[] | er | |] s1]. Qed.

Lemma logs_unregister h K :
  logs (fun s => keys s = K) (unregister self h)
    (on_ok (match K !! KeyHandle.id h with Some e => [(entry_name e, Unregister)] | None => [] end)).
Proof.
  unfold unregister. apply logs_bind with
    (R := fun name _ => exists e, K !! KeyHandle.id h = Some e /\ name = entry_name e).
  - intros s. rewrite unregister_commit_eq. by destruct (keys s !! KeyHandle.id h).
  - intros s <-. rewrite unregister_commit_eq. destruct (keys s !! KeyHandle.id h) as [e |]; [by exists e | done].
  - intros name s (e & -> & ->). rewrite emit_then_done. by apply (logs_emit (fun _ => True)).
Qed.

Lemma silent_rotate_prepare h key : silent (rotate_prepare self h key).
Proof.
  unfold rotate_prepare. hush; [done |]. hush; [hush |]. hush; [done |]. hush; [hush |].
  hush; [hush |]. hush; [hush |]. hush; [apply silent_for_registry |]. hush; [hush |]. hush.
Qed.

Lemma logs_rotate h key K :
  logs (fun s => keys s = K) (rotate self h key)
    (on_ok (match K !! KeyHandle.id h with Some e => [(entry_name e, Rotate)] | None => [] end)).
Proof.
  unfold rotate. apply logs_bind with (R := fun _ s => keys s = K).
  - intros s. apply silent_events, silent_rotate_prepare.
  - intros s Hs. pose proof (silent_keys _ s (silent_rotate_prepare h key)) as E.
    destruct (rotate_prepare self h key s) as [[p | e | |] s1]; [by rewrite <- Hs | done..].
  - intros [frags meta]. cbn [fst snd]. apply logs_bind with
      (R := fun name _ => exists e, K !! KeyHandle.id h = Some e /\ name = entry_name e).
    + intros s. rewrite rotate_commit_eq. by destruct (keys s !! KeyHandle.id h).
    + intros s <-. rewrite rotate_commit_eq. destruct (keys s !! KeyHandle.id h) as [e |]; [by exists e | done].
    + intros name s (e & -> & ->). rewrite emit_then_done. by apply (logs_emit (fun _ => True)).
Qed.

Lemma logs_with_key {T} h (f : callback W T) K :
  (forall bytes s, seen (f bytes s).2 = seen s) ->
  logs (fun s => keys s = K) (with_key self h f)
    (on_ok (match K !! KeyHandle.id h with Some e => [(entry_name e, Read)] | None => [] end)).
Proof.
  intros Hf s <-. rewrite with_key_eq. destruct (locked_out (lock s)); [by apply told_nothing |].
  destruct (keys s !! KeyHandle.id h) as [e |]; [| by apply told_nothing].
  match goal with |- told _ (snd (?m s)) _ => enough (logs any m (on_ok [(entry_name e, Read)])) as Hl; [by apply Hl |] end.
  apply logs_step; [hush | done.. |]. intros [|]; [by apply logs_done |].
  apply logs_step; [by apply silent_read_key | done.. |]. intros x.
  unfold read_event. rewrite (ob_listens Hob). by apply logs_emit.
Qed.

Lemma logs_fragment key : logs any (vault_fragment self key) (on_ok [(EmptyString, OneShotFragment)]).
Proof.
  unfold vault_fragment. apply logs_step; [done.. |]. intros [|]; [by apply logs_done |].
  apply logs_step; [apply silent_pipeline | done.. |]. intros f. by apply logs_emit.
Qed.

Lemma logs_defragment f : logs any (vault_defragment self f) (on_ok [(EmptyString, OneShotDefragment)]).
Proof.
  unfold vault_defragment. apply logs_step; [done.. |]. intros [|]; [by apply logs_done |].
  apply logs_step; [done.. |]. intros enc.
  apply logs_step; [unfold transform; case_match; [apply silent_codex_apply | done] | done.. |].
  intros k. by apply logs_emit.
Qed.

(** The master unlock: told once the credential was compared. *)
Definition unlock_told (o : outcome unit) : list (string * AccessKind) :=
  match o with
  | Ok _ => [(MASTER_NAME, MasterUnlockAttempt true)]
  | Err e => if decide (e = master_mismatch) then [(MASTER_NAME, MasterUnlockAttempt false)] else []
  | _ => []
  end.

Lemma secret_read_errors {T} secret (f : list byte -> T) (s : VaultState W) e :
  fst (on_regions (secret_read secret f) s) = Err e -> e = open_failed.
Proof.
  unfold on_regions, zoom, secret_read, bind, fragments_open.
  destruct (store_region (store (secret_fragments secret))) as [id |]; [| done]. cbn [fst snd].
  destruct (table (regions s) !! id) as [r |]; [| done]. unfold open.
  destruct (readers r =? 0); [destruct (protect _ _ _ _) as [[] w] |]; cbn;
    try (destruct (fragments_close _ _)); by intros [= <-].
Qed.

Lemma handle_failure_ok name note per_key (s : VaultState W) :
  fst (vault_handle_failure self name note per_key s) = Ok tt.
Proof. unfold vault_handle_failure, on_lock. by destruct (handle_failure _ _ _ _ _ _ _ _). Qed.

Lemma logs_finish_unlock matched t b : logs any (finish_unlock self matched t b) unlock_told.
Proof.
  unfold finish_unlock. apply logs_step; [done.. |]. intros _. destruct matched.
  - by apply logs_emit.
  - apply logs_emit; [hush; hush |]. intros s. unfold bind.
    pose proof (handle_failure_ok MASTER_NAME (Some "invalid master credential") false s) as E.
    destruct (vault_handle_failure _ _ _ _ s) as [o s1]. cbn in E. subst o. cbn. by rewrite decide_True.
Qed.

Lemma logs_unlock attempt : logs any (unlock_with_master self attempt) unlock_told.
Proof.
  assert (forall e, e <> master_mismatch -> unlock_told (Err e) = []) as Hne
    by (intros e He; cbn; by rewrite decide_False).
  unfold unlock_with_master. apply logs_step; [hush | | done.. |].
  { intros s e. destruct (master self); [done |]. intros [= <-]. by apply Hne. }
  intros m. apply logs_step; [hush | | done.. |].
  { intros s e. unfold clock_now, on_world, zoom, ask. by destruct (now _ _). }
  intros t. apply logs_step; [done.. |]. intros b. destruct (t <? next_allowed b).
  { apply logs_done; [done |]. intros s. by apply Hne. }
  apply logs_step; [| | done.. | intros matched; apply logs_finish_unlock].
  - destruct m; [apply silent_regions, quiet_secret_read | hush].
  - intros s e. destruct m as [secret | reason].
    + intros ->%secret_read_errors. by apply Hne.
    + intros [= <-]. by apply Hne.
Qed.

(** ** Programs *)

(** An operation that says nothing. *)
Lemma logs_quiet_op {A} (m : M (VaultState W) A) (f : A -> reply) :
  silent m -> logs any (let! a := m in ret (f a)) (fun _ => []).
Proof. intros Hm. apply logs_done; [| done]. intros s. apply silent_events. by hush. Qed.

Lemma silent_anomaly name note : silent (vault_report_anomalous_access self name note).
Proof.
  intros s. unfold vault_report_anomalous_access, tell, modify, seen, report_anomalous_access.
  cbn [fst snd set_world world keys]. f_equal. apply (ob_anomaly Hob).
Qed.

Lemma silent_is_key_locked_out h : silent (is_key_locked_out self h).
Proof. unfold is_key_locked_out. hush; [done |]. hush; hush. Qed.

Lemma perform_audited op s : told s (snd (perform self op s)) (audited op (fst (perform self op s)) s).
Proof.
  set (L := fun o => audited op o s).
  enough (logs (fun s1 => keys s1 = keys s) (perform self op) L) as Hl by by apply Hl.
  assert (forall m, logs any m L -> logs (fun s1 => keys s1 = keys s) m L) as Hany
    by (intros m Hm s1 _; by apply Hm).
  subst L. destruct op; cbn [perform audited].
  - apply Hany, logs_map. eapply logs_mono; [apply logs_register |]. by intros ? [] ??.
  - apply logs_map. eapply logs_mono; [apply logs_unregister |]. by intros ? [] ??.
  - apply logs_map. eapply logs_mono; [apply logs_rotate |]. by intros ? [] ??.
  - apply logs_map. eapply logs_mono; [by apply logs_with_key |]. by intros ? [] ??.
  - apply Hany, logs_map. eapply logs_mono; [apply logs_fragment |]. by intros ? [] ??.
  - apply Hany, logs_map. eapply logs_mono; [apply logs_defragment |]. by intros ? [] ??.
  - by apply Hany, logs_quiet_op.
  - by apply Hany, logs_quiet_op.
  - by apply Hany, logs_quiet_op.
  - by apply Hany, logs_quiet_op.
  - apply Hany, logs_quiet_op, silent_handle_failure.
  - apply Hany, logs_quiet_op, silent_anomaly.
  - apply Hany, logs_quiet_op, silent_is_key_locked_out.
  - apply Hany, logs_quiet_op, silent_clear_key.
  - by apply Hany, logs_quiet_op.
  - apply Hany, logs_map. eapply logs_mono; [apply logs_unlock |]. by intros ? [] ??.
Qed.

(** What the sink should be told of a whole program: the next operation runs
    where the last one left the vault, unless that one never returned. *)
Fixpoint trail (ops : list vault_op) s : list (string * AccessKind) :=
  match ops with
  | [] => []
  | op :: ops =>
      let '(o, s') := perform self op s in
      audited op o s ++ match o with Ok _ | Err _ => trail ops s' | _ => [] end
  end.

Lemma told_app s s1 s2 l1 l2 : told s s1 l1 -> told s1 s2 l2 -> told s s2 (l1 ++ l2).
Proof.
  intros (e1 & E1 & <-) (e2 & E2 & <-). exists (e1 ++ e2). by rewrite E2, E1, app_assoc, fmap_app.
Qed.

Lemma snd_bind_ret {A B} (m : M (VaultState W) A) (f : A -> B) s :
  snd (bind m (fun a => ret (f a)) s) = snd (m s).
Proof. unfold bind. by destruct (m s) as [[a | e | |] s1]. Qed.

Lemma run_program_told ops s : told s (snd (run_program self ops s)) (trail ops s).
Proof.
  unfold run_program. revert s. induction ops as [| op ops IH]; intros s; [by apply told_nothing |].
  pose proof (perform_audited op s) as Hp. cbn [map_m trail].
  assert (step_program self op s = match perform self op s with
    | (Ok r, s1) => (Ok r, s1) | (Err e, s1) => (Ok (RErr e), s1)
    | (Panic, s1) => (Panic, s1) | (Diverge, s1) => (Diverge, s1) end) as E.
  { unfold step_program, bind, try_. by destruct (perform self op s) as [[r | e | |] s1]. }
  unfold bind at 1. rewrite E. destruct (perform self op s) as [[r | e | |] s1]; cbn [fst snd] in *.
  - eapply told_app; [exact Hp |]. rewrite snd_bind_ret. apply IH.
  - eapply told_app; [exact Hp |]. rewrite snd_bind_ret. apply IH.
  - by rewrite app_nil_r.
  - by rewrite app_nil_r.
Qed.
End trail.

(** ** The property *)

(** C15: The audit trail is exact.  With a sink that records what it is told,
    and parts that do not write to it themselves, a program's journal grows by
    exactly one event for each registration, removal, rotation, read,
    one-shot fragmentation and one-shot defragmentation that took effect,
    with the key's name and the right kind, and one for each master credential that was compared, with
    its verdict, in the order of the operations.  Refused, failed and
    rate-limited operations and queries add nothing. *)
Theorem audit_trail {W} `{Journaled W} `{Blake3} `{StdTime W} `{Threads W}
    (self : VaultInner W) (ops : list vault_op) (s : VaultState W) :
  observed self ->
  exists es, events (world (snd (run_program self ops s))) = events (world s) ++ es /\
    summary <$> es = trail self ops s.
Proof. intros Hob. exact (run_program_told self Hob ops s). Qed.

(** The demo world keeps a journal: the audit events of its log. *)
Definition tape_events (w : Tape.world) : list AuditEvent :=
  omap (fun o => match o with Tape.Audited e => Some e | _ => None end) (Tape.log w).


Lemma tape_events_random n w : tape_events (getrandom n w).2 = tape_events w.
Proof.
  unfold getrandom. cbn. unfold Tape.answer. by destruct (Script.answer n (Tape.answers w)).
Qed.

#[export] Instance tape_journal : Journaled Tape.world :=
  {| events := tape_events; jr_random := tape_events_random; jr_map _ _ := eq_refl; jr_lock _ _ _ := eq_refl;
     jr_unlock _ _ _ := eq_refl; jr_exclude _ _ _ := eq_refl; jr_include _ _ _ := eq_refl;
     jr_protect _ _ _ _ := eq_refl; jr_unmap _ _ _ := eq_refl; jr_heap _ _ := eq_refl;
     jr_acquire _ _ _ := eq_refl; jr_release _ _ _ := eq_refl |}.

Lemma tape_observe_events o w :
  tape_events (Tape.observe o w) = tape_events w ++ match o with Tape.Audited e => [e] | _ => [] end.
Proof. unfold tape_events. cbn. rewrite omap_app. by destruct o. Qed.

Lemma demo_observed : observed demo_vault.
Proof.
  split.
  - intros key. apply quiet_standard. by intros d.
  - done.
  - done.
  - intros c w. apply (eq_trans (tape_observe_events _ w)), app_nil_r.
  - intros c w. apply (eq_trans (tape_observe_events _ w)), app_nil_r.
  - intros c w. apply (eq_trans (tape_observe_events _ w)), app_nil_r.
  - intros e w. apply (tape_observe_events (Tape.Audited e) w).
  - done.
Qed.

(** Registering twice under one name, reading, a wrong credential, a
    rate-limited one, rotating, removing, reading again. *)
Definition audited_program : list vault_op :=
  [OpRegister "db" demo_key1; OpRegister "db" demo_key2; OpWithKey demo_handle; OpUnlock [];
   OpUnlock demo_master; OpRotate demo_handle demo_key2; OpCount; OpUnregister demo_handle; OpWithKey demo_handle].

Lemma audit_trail_witness :
  trail demo_vault audited_program demo_start =
    [("db", Register); ("db", Read); (MASTER_NAME, MasterUnlockAttempt false); ("db", Rotate);
     ("db", Unregister)] /\
  exists es, events (world (snd (run_program demo_vault audited_program demo_start))) =
      events (world demo_start) ++ es /\
    summary <$> es = trail demo_vault audited_program demo_start.
Proof.
  split; [vm_compute; reflexivity |].
  apply (audit_trail demo_vault audited_program demo_start). apply demo_observed.
Defined.
