(* ===== verification/MasterUnlock.v ===== *)
(** * Concurrent master unlocks ([vault/mod.rs], [unlock_with_master])

    [unlock_with_master] cut at its accesses to shared state: the backoff's
    mutex, the clock, the backoff, the verifier's pages, the audit sink, the
    lockout state.  Any number of threads guess at once, while the rest of
    the process does anything but write the backoff.  [guesses] records, as a
    ghost, the comparisons made and the clock reading each was admitted at. *)

From S2P Require Import Prelude Errors Rust Rng RawKey Normalize Codex Fragment Standard Layouts.
From S2P Require Import Os Guarded Handle Events Config Lockout VaultState Vault.
From S2P Require Import VaultPipeline VaultDemo VaultTheorems.
From stdpp Require Import relations.
#[local] Open Scope Z_scope.

(** Program points: what the thread does next. *)
Inductive unlock_point :=
| UEnter                                            (* master.as_ref().ok_or(..)? *)
| UAcquire (m : MasterVerifier)                     (* master_backoff.lock() *)
| UClock (m : MasterVerifier)                       (* clock.now(), under the lock *)
| UCheck (m : MasterVerifier) (now : Z)             (* now < backoff.next_allowed *)
| UCompare (m : MasterVerifier) (now : Z)           (* secret.read(..) *)
| UUpdate (matched : bool) (now : Z)                (* *backoff = .. *)
| URelease (next : unlock_point)                    (* the guard drops *)
| UAudit (matched : bool)                           (* emit_audit *)
| USettle (matched : bool)                          (* clear_lockout or handle_failure *)
| UReturned (r : outcome unit).

Section unlock.
Context {W : Type} `{Rng W} `{Os W} `{Blake3} `{StdTime W} `{PageRefs W} `{Threads W}.
Context (self : VaultInner W).

(** The comparison: [Some] is a verdict. *)
Definition compare (m : MasterVerifier) (attempt : list byte) : M (VaultState W) bool :=
  match m with
  | MasterUnavailable reason => fail (Error.Internal reason)
  | MasterReady secret => on_regions (secret_read secret (verify_master attempt))
  end.

(** After the verdict: the lockouts are cleared, or the failure counted. *)
Definition settle (matched : bool) : M (VaultState W) unit :=
  if matched then vault_clear_lockout
  else
    do! vault_handle_failure self MASTER_NAME (Some "invalid master credential") false in
    fail master_mismatch.

(** Under the lock every way out passes the guard's drop. *)
Definition leave {A} (o : outcome A) (k : A -> unlock_point) : unlock_point :=
  match o with
  | Ok a => k a
  | Err e => URelease (UReturned (Err e))
  | Panic => URelease (UReturned Panic)
  | Diverge => URelease (UReturned Diverge)
  end.

(** The next step of thread [t]: [None] when it has returned or waits. *)
Definition unlock_step (t : nat) (attempt : list byte) (p : unlock_point) (owner : option nat)
    (s : VaultState W) : option (unlock_point * option nat * VaultState W) :=
  match p with
  | UEnter =>
      Some (match master self with
            | Some m => UAcquire m
            | None => UReturned (Err no_master)
            end, owner, s)
  | UAcquire m => if decide (owner = None) then Some (UClock m, Some t, s) else None
  | UClock m => let '(o, s) := clock_now self s in Some (leave o (UCheck m), owner, s)
  | UCheck m now =>
      Some (if now <? next_allowed (backoff s)
            then URelease (UReturned (Err (Error.RateLimited
                   (duration_saturating_sub (next_allowed (backoff s)) now))))
            else UCompare m now, owner, s)
  | UCompare m now =>
      let '(o, s) := compare m attempt s in
      Some (leave o (fun matched => UUpdate matched now), owner, s)
  | UUpdate matched now =>
      Some (URelease (UAudit matched), owner, set_backoff (next_backoff self matched now (backoff s)) s)
  | URelease next => Some (next, None, s)
  | UAudit matched =>
      let '(o, s) := emit_audit self MASTER_NAME (MasterUnlockAttempt matched) EmptyString s in
      Some (match o with
            | Ok _ => USettle matched
            | Err e => UReturned (Err e) | Panic => UReturned Panic | Diverge => UReturned Diverge
            end, owner, s)
  | USettle matched =>
      let '(o, s) := settle matched s in Some (UReturned o, owner, s)
  | UReturned _ => None
  end.

(** A comparison a step makes: the reading it was admitted at, the verdict. *)
Definition guess_of (p p' : unlock_point) : list (Z * bool) :=
  match p, p' with UCompare _ _, UUpdate matched now => [(now, matched)] | _, _ => [] end.

(** ** The process *)

Record guesser := { the_attempt : list byte; stands : unlock_point }.

Record unlock_process := {
  vault_state : VaultState W;
  holder : option nat;
  guessers : list guesser;
  guesses : list (Z * bool)
}.

Definition start_unlocks (attempts : list (list byte)) (s : VaultState W) : unlock_process :=
  {| vault_state := s; holder := None;
     guessers := (fun a => {| the_attempt := a; stands := UEnter |}) <$> attempts; guesses := [] |}.

Definition run_guesser (t : nat) (c : unlock_process) : option unlock_process :=
  match guessers c !! t with
  | None => None
  | Some g =>
      match unlock_step t (the_attempt g) (stands g) (holder c) (vault_state c) with
      | None => None
      | Some (p, w, s) =>
          Some {| vault_state := s; holder := w;
                  guessers := <[t := {| the_attempt := the_attempt g; stands := p |}]> (guessers c);
                  guesses := guesses c ++ guess_of (stands g) p |}
      end
  end.

(** A guess, or anything else in the process: other operations, other
    threads, the passing of time; only [unlock_with_master] writes the
    backoff. *)
Inductive unlock_process_step (c : unlock_process) : unlock_process -> Prop :=
| StepGuesser t c' : run_guesser t c = Some c' -> unlock_process_step c c'
| StepElse s' : backoff s' = backoff (vault_state c) ->
    unlock_process_step c {| vault_state := s'; holder := holder c; guessers := guessers c; guesses := guesses c |}.

Fixpoint run_guessers (schedule : list nat) (c : unlock_process) : unlock_process :=
  match schedule with
  | [] => c
  | t :: schedule => run_guessers schedule (default c (run_guesser t c))
  end.

(** One thread, run alone. *)
Fixpoint unlock_alone (n : nat) (attempt : list byte) (p : unlock_point) (w : option nat) (s : VaultState W)
    : unlock_point * option nat * VaultState W :=
  match n with
  | O => (p, w, s)
  | S n => match unlock_step 0 attempt p w s with
           | Some (p, w, s) => unlock_alone n attempt p w s
           | None => (p, w, s)
           end
  end.

(** ** Alone it is the sequential operation *)

Lemma clock_now_ok s : exists t w, clock_now self s = (Ok t, set_world w s).
Proof. unfold clock_now, on_world, zoom, ask. destruct (now (clock self) (world s)) as [t w]. by eexists _, _. Qed.

Lemma compare_backoff m attempt s : backoff (snd (compare m attempt s)) = backoff s.
Proof.
  destruct m as [secret | reason]; [| done]. unfold compare, on_regions, zoom.
  by destruct (secret_read _ _ _) as [o [r w]].
Qed.

Lemma emit_audit_ok name kind note s : exists s', emit_audit self name kind note s = (Ok tt, s').
Proof.
  unfold emit_audit. destruct (is_no_op (audit self)); [by eexists |].
  unfold clock_unix, on_world, zoom, ask, bind. destruct (unix_time (clock self) (world s)). by eexists.
Qed.

Lemma emit_audit_backoff name kind note s : backoff (snd (emit_audit self name kind note s)) = backoff s.
Proof.
  unfold emit_audit. destruct (is_no_op (audit self)); [done |].
  unfold clock_unix, on_world, zoom, ask, bind. by destruct (unix_time (clock self) (world s)).
Qed.

Lemma settle_backoff matched s : backoff (snd (settle matched s)) = backoff s.
Proof.
  destruct matched; [done |]. unfold settle, bind, vault_handle_failure, on_lock.
  by destruct (handle_failure (config self) (monitor self) (clock self) _ _ _ (lock s) (world s)).
Qed.

Lemma alone_step n attempt p w s p' w' s' :
  unlock_step 0 attempt p w s = Some (p', w', s') ->
  unlock_alone (S n) attempt p w s = unlock_alone n attempt p' w' s'.
Proof. intros E. cbn [unlock_alone]. by rewrite E. Qed.

Lemma alone_returned n attempt r w s : unlock_alone n attempt (UReturned r) w s = (UReturned r, w, s).
Proof. by destruct n. Qed.

(** Nine steps are always enough. *)
Lemma unlock_alone_sequential attempt s :
  unlock_alone 9 attempt UEnter None s =
    (UReturned (fst (unlock_with_master self attempt s)), None, snd (unlock_with_master self attempt s)).
Proof.
  erewrite alone_step by done. unfold unlock_with_master.
  destruct (master self) as [m |]; [| done]. erewrite bind_ok by done.
  erewrite alone_step by done. destruct (clock_now_ok s) as (t & w & E). rewrite (bind_ok _ _ _ _ _ E).
  erewrite alone_step by (cbn [unlock_step]; by rewrite E). cbn [leave]. set (s1 := set_world w s).
  erewrite bind_ok by done. erewrite alone_step by done.
  destruct (t <? next_allowed (backoff s1)); [done |].
  change (match m with MasterReady secret => _ | MasterUnavailable reason => _ end) with (compare m attempt).
  pose proof (compare_backoff m attempt s1) as Hb. unfold bind at 1 2.
  erewrite alone_step by (cbn [unlock_step]; by rewrite (surjective_pairing (compare m attempt s1))).
  destruct (compare m attempt s1) as [[matched | e | |] s2]; cbn [fst snd leave] in *; [| done..].
  erewrite alone_step by done. rewrite Hb. erewrite alone_step by done.
  unfold finish_unlock. erewrite bind_ok by done. set (s3 := set_backoff _ s2).
  destruct (emit_audit_ok MASTER_NAME (MasterUnlockAttempt matched) EmptyString s3) as [s4 Ea].
  rewrite (bind_ok _ _ _ _ _ Ea). erewrite alone_step by (cbn [unlock_step]; by rewrite Ea).
  erewrite alone_step by (cbn [unlock_step]; by rewrite (surjective_pairing (settle matched s4))). done.
Qed.

(** ** The invariant *)

(** The backoff after a history of comparisons, oldest first. *)
Definition after_guesses (gs : list (Z * bool)) (b : Backoff) : Backoff :=
  foldl (fun b g => next_backoff self g.2 g.1 b) b gs.

(** Each comparison was admitted by the backoff the earlier ones left. *)
Fixpoint spaced (b : Backoff) (gs : list (Z * bool)) : Prop :=
  match gs with
  | [] => True
  | g :: gs => next_allowed b <= g.1 /\ spaced (next_backoff self g.2 g.1 b) gs
  end.

Lemma spaced_snoc b gs g : spaced b (gs ++ [g]) <-> spaced b gs /\ next_allowed (after_guesses gs b) <= g.1.
Proof. revert b. induction gs as [| x gs IH]; intros b; cbn; [tauto |]. rewrite IH. tauto. Qed.

Lemma spaced_app b gs gs' : spaced b (gs ++ gs') -> spaced (after_guesses gs b) gs'.
Proof. revert b. induction gs as [| x gs IH]; intros b; cbn; [done |]. intros [_ Hs]. by apply IH. Qed.

Lemma spaced_prefix b gs gs' : spaced b (gs ++ gs') -> spaced b gs.
Proof. revert b. induction gs as [| x gs IH]; intros b; cbn; [done |]. intros [Ha Hs]. split; [done | by apply IH]. Qed.

Lemma after_snoc gs g b : after_guesses (gs ++ [g]) b = next_backoff self g.2 g.1 (after_guesses gs b).
Proof. unfold after_guesses. by rewrite foldl_app. Qed.

Definition under_lock (p : unlock_point) : bool :=
  match p with UClock _ | UCheck _ _ | UCompare _ _ | UUpdate _ _ | URelease _ => true | _ => false end.

(** What a point says of the backoff and the history [gs]. *)
Definition point_ok (b : Backoff) (gs : list (Z * bool)) (p : unlock_point) : Prop :=
  match p with
  | UCompare _ now => next_allowed b <= now /\ b = after_guesses gs backoff_default
  | UUpdate matched now => exists gs', gs = gs' ++ [(now, matched)] /\ b = after_guesses gs' backoff_default
  | UClock _ | UCheck _ _ => b = after_guesses gs backoff_default
  | URelease next => under_lock next = false /\ b = after_guesses gs backoff_default
  | _ => True
  end.

Record unlock_inv (c : unlock_process) : Prop := {
  ui_owner t g : guessers c !! t = Some g -> under_lock (stands g) = true -> holder c = Some t;
  ui_point t g : guessers c !! t = Some g -> point_ok (backoff (vault_state c)) (guesses c) (stands g);
  ui_free : holder c = None -> backoff (vault_state c) = after_guesses (guesses c) backoff_default;
  ui_live t : holder c = Some t -> exists g, guessers c !! t = Some g /\ under_lock (stands g) = true;
  ui_spaced : spaced backoff_default (guesses c)
}.

(** What one step does, in terms of the backoff and the history. *)
Lemma unlock_step_spec t attempt p w s p' w' s' gs :
  unlock_step t attempt p w s = Some (p', w', s') ->
  point_ok (backoff s) gs p -> (under_lock p = true -> w = Some t) ->
  (w = None -> backoff s = after_guesses gs backoff_default) -> spaced backoff_default gs ->
  point_ok (backoff s') (gs ++ guess_of p p') p' /\ spaced backoff_default (gs ++ guess_of p p') /\
  (under_lock p' = true -> w' = Some t) /\
  (w' = w /\ (under_lock p = under_lock p') /\ (under_lock p = false -> backoff s' = backoff s /\ guess_of p p' = []) \/
   w = None /\ w' = Some t /\ under_lock p' = true \/
   w = Some t /\ w' = None /\ under_lock p' = false /\
     backoff s' = after_guesses (gs ++ guess_of p p') backoff_default).
Proof.
  intros E Hp Hw Hf Hs. destruct p; cbn [unlock_step] in E.
  - injection E as <- <- <-. rewrite app_nil_r. destruct (master self); split_and!; try done; by left.
  - destruct (decide (w = None)) as [-> | ]; [| done]. injection E as <- <- <-. rewrite app_nil_r.
    split_and!; [by apply Hf | done | done |]. by right; left.
  - destruct (clock_now_ok s) as (now & w1 & En). rewrite En in E. injection E as <- <- <-. rewrite app_nil_r.
    split_and!; [done | done | by intros; apply Hw | by left].
  - injection E as <- <- <-. cbn in Hp.
    destruct (now <? next_allowed (backoff s)) eqn:El; tests; rewrite app_nil_r;
      (split_and!; [done | done | by intros; apply Hw | by left]).
  - destruct Hp as [Hn Hb]. pose proof (compare_backoff m attempt s) as Hc.
    destruct (compare m attempt s) as [[matched | e | |] s1]; cbn [leave snd] in *; injection E as <- <- <-;
      cbn [guess_of]; rewrite ?app_nil_r; rewrite Hc.
    + split_and!; [by exists gs | | by intros; apply Hw | by left].
      apply spaced_snoc. by rewrite <- Hb.
    + split_and!; [done | done | by intros; apply Hw | by left].
    + split_and!; [done | done | by intros; apply Hw | by left].
    + split_and!; [done | done | by intros; apply Hw | by left].
  - destruct Hp as (gs' & -> & Hb). injection E as <- <- <-. rewrite app_nil_r.
    split_and!; [| done | by intros; apply Hw | by left].
    cbn. by rewrite after_snoc, Hb.
  - destruct Hp as [Hu Hb]. injection E as <- <- <-. assert (guess_of (URelease p) p = []) as -> by done.
    rewrite app_nil_r. split_and!; [by destruct p | done | by rewrite Hu | right; right; split_and!; auto].
  - pose proof (emit_audit_backoff MASTER_NAME (MasterUnlockAttempt matched) EmptyString s) as Hb.
    destruct (emit_audit self _ _ _ s) as [[[] | e | |] s1]; injection E as <- <- <-; rewrite app_nil_r;
      (split_and!; [done | done | done | by left]).
  - pose proof (settle_backoff matched s) as Hb.
    destruct (settle matched s) as [o s1]. injection E as <- <- <-. rewrite app_nil_r.
    split_and!; [done | done | done | by left].
  - done.
Qed.

(** The point of a thread that did not move, after another one did. *)
Lemma point_ok_unlocked b gs b' gs' p : under_lock p = false -> point_ok b gs p -> point_ok b' gs' p.
Proof. by destruct p. Qed.

Lemma unlock_inv_guesser c t c' : unlock_inv c -> run_guesser t c = Some c' -> unlock_inv c'.
Proof.
  intros [Ho Hp Hf Hl Hs]. unfold run_guesser.
  destruct (guessers c !! t) as [g |] eqn:Eg; [| done].
  destruct (unlock_step _ _ _ _ _) as [[[p' w'] s'] |] eqn:E; [| done]. intros [= <-].
  destruct (unlock_step_spec t _ _ _ _ p' w' s' (guesses c) E) as (Hp' & Hs' & Ho' & Hw'); [by apply (Hp t) | by apply (Ho t) | done | done |].
  assert (Hlen : (t < length (guessers c))%nat) by by eapply lookup_lt_Some.
  set (g' := {| the_attempt := the_attempt g; stands := p' |}) in *.
  assert (Hself : <[t:=g']> (guessers c) !! t = Some g') by by apply list_lookup_insert_eq.
  assert (Hother : forall u x, <[t:=g']> (guessers c) !! u = Some x -> u <> t ->
    guessers c !! u = Some x /\ (under_lock (stands x) = true -> holder c = Some u)).
  { intros u x Hu Hne. rewrite list_lookup_insert_ne in Hu by done. split; [done | by apply Ho]. }
  split; cbn [guessers vault_state guesses holder]; [| | | | exact Hs'].
  - intros u x Hx Hu. destruct (decide (u = t)) as [-> | Hne].
    + rewrite Hself in Hx. injection Hx as <-. by apply Ho'.
    + destruct (Hother u x Hx Hne) as [_ Hh]. specialize (Hh Hu).
      destruct Hw' as [(-> & _) | [(E0 & _) | (E0 & _)]]; [done | congruence | congruence].
  - intros u x Hx. destruct (decide (u = t)) as [-> | Hne].
    { rewrite Hself in Hx. by injection Hx as <-. }
    destruct (Hother u x Hx Hne) as [Hx' Hh]. specialize (Hp u x Hx').
    destruct (under_lock (stands x)) eqn:Eu; [| by eapply point_ok_unlocked]. specialize (Hh eq_refl).
    destruct Hw' as [(_ & El & Hq) | [(E0 & _) | (E0 & _)]]; [| congruence | congruence].
    destruct (under_lock (stands g)) eqn:Eug; [exfalso; specialize (Ho t g Eg Eug); congruence |].
    destruct (Hq eq_refl) as [-> ->]. by rewrite app_nil_r.
  - intros Hn. destruct Hw' as [(E0 & El & Hq) | [(_ & E0 & _) | (_ & _ & _ & Hb)]]; [| congruence | done].
    assert (under_lock (stands g) = false) as Eu.
    { destruct (under_lock (stands g)) eqn:Eu; [| done]. specialize (Ho t g Eg Eu). congruence. }
    destruct (Hq Eu) as [-> ->]. rewrite app_nil_r. apply Hf. congruence.
  - intros u Hu. destruct Hw' as [(E0 & El & _) | [(_ & E0 & El) | (_ & E0 & _)]]; [| | congruence].
    + destruct (Hl u) as (x & Hx & Hux); [congruence |]. destruct (decide (u = t)) as [-> | Hne].
      * exists g'. split; [done |]. cbn. rewrite <- El. congruence.
      * exists x. by rewrite list_lookup_insert_ne by done.
    + assert (u = t) as -> by congruence. by exists g'.
Qed.

Lemma unlock_inv_step c c' : unlock_inv c -> unlock_process_step c c' -> unlock_inv c'.
Proof.
  intros Hi [t c1 Hr | s' Hb]; [by eapply unlock_inv_guesser |].
  destruct Hi. split; cbn; rewrite ?Hb; done.
Qed.

Lemma unlock_inv_reachable c c' : unlock_inv c -> rtc unlock_process_step c c' -> unlock_inv c'.
Proof. intros Hi Hr. induction Hr as [| x y z Hxy _ IH]; [done |]. apply IH. by eapply unlock_inv_step. Qed.

Lemma unlock_inv_start attempts s : backoff s = backoff_default -> unlock_inv (start_unlocks attempts s).
Proof.
  intros Hb. split; cbn; try done.
  - intros t g Hg. apply list_lookup_fmap_Some in Hg as (a & -> & _). done.
  - intros t g Hg. apply list_lookup_fmap_Some in Hg as (a & -> & _). done.
Qed.

(** ** The rate of wrong guesses *)

(** The delays after the first [n] failures in a row. *)
Definition total_delay (n : nat) : Z :=
  foldr Z.add 0 ((fun i => backoff_delay (config self) (Z.of_nat i)) <$> seq 1 n).

Context (Hwf : config_wf (config self)).

Lemma pow2_mono a b : 0 <= a <= b -> 1 <= 2 ^ a <= 2 ^ b.
Proof. intros. split; [apply (Z.pow_le_mono_r 2 0); lia | apply Z.pow_le_mono_r; lia]. Qed.

Lemma delay_mono a b : 1 <= a <= b -> backoff_delay (config self) a <= backoff_delay (config self) b.
Proof.
  intros Hab. rewrite !backoff_delay_eq by (done || lia). case_test; [done |].
  pose proof (cw_base _ Hwf). pose proof (pow2_mono (Z.min (a - 1) 31) (Z.min (b - 1) 31) ltac:(lia)).
  apply Z.min_le_compat_l, Z.mul_le_mono_nonneg_l; lia.
Qed.

(** The delay stops growing long before the failure counter saturates. *)
Lemma delay_saturates i : 1 <= i -> backoff_delay (config self) (Z.min u32_max i) = backoff_delay (config self) i.
Proof.
  intros Hi. rewrite !backoff_delay_eq by (done || unfold u32_max; lia). case_test; [done |].
  do 3 f_equal. unfold u32_max. lia.
Qed.

Definition wrong (t : Z) : Z * bool := (t, false).

(** A run of wrong guesses, when at least [i - 1] came right before it. *)
Lemma wrong_run b t ts (i : nat) :
  spaced b (wrong <$> t :: ts) -> Forall (fun t => t < duration_max) ts -> (1 <= i)%nat ->
  0 <= failures b -> Z.min u32_max (Z.of_nat i) <= Z.min u32_max (failures b + 1) ->
  t + foldr Z.add 0 ((fun i => backoff_delay (config self) (Z.of_nat i)) <$> seq i (length ts)) <=
    default t (last (t :: ts)).
Proof.
  revert b t i. induction ts as [| t2 ts IH]; intros b t i Hs Ht Hi Hf0 Hf; [cbn; lia |].
  inversion_clear Ht as [| ? ? Ht2 Hts]. destruct Hs as [_ Hs].
  set (b1 := next_backoff self false t b) in *. pose proof Hs as [Hn _].
  change (next_allowed b1 <= t2) in Hn.
  assert (failures b1 = Z.min u32_max (failures b + 1)) as Hf1 by done.
  assert (next_allowed b1 = Z.min duration_max (t + backoff_delay (config self) (failures b1))) as Hn1 by done.
  assert (backoff_delay (config self) (Z.of_nat i) <= backoff_delay (config self) (failures b1)) as Hd.
  { rewrite <- (delay_saturates (Z.of_nat i)) by lia. rewrite Hf1. apply delay_mono. unfold u32_max in *. lia. }
  specialize (IH b1 t2 (S i) Hs Hts ltac:(lia) ltac:(rewrite Hf1; unfold u32_max; lia)
    ltac:(rewrite Hf1; unfold u32_max in *; lia)). cbn [length seq fmap list_fmap foldr].
  rewrite last_cons_cons. destruct (last (t2 :: ts)) as [z |] eqn:El; [| by apply last_None in El].
  cbn [default id] in *. lia.
Qed.

Lemma failures_nonneg gs b : 0 <= failures b -> 0 <= failures (after_guesses gs b).
Proof.
  revert b. induction gs as [| [t m] gs IH]; intros b Hb; [done |]. cbn. apply IH.
  destruct m; cbn; [done |]. unfold u32_saturating_add, u32_max. lia.
Qed.
End unlock.

(** ** Property *)

(** C5: Guessing is slowed down, however many threads guess.  In any
    interleaving of [unlock_with_master] calls with each other and with
    whatever else the process does, from a vault as built, a run of wrong
    guesses (comparisons against the stored verifier, wherever in the history
    and whichever threads made them) is spread over at least the sum of the
    backoff delays: the clock reading that admitted the last one is at least
    the first one's plus the delays after 1, 2, 3, ... failures.  Attempts in
    between are refused without a comparison.  Nothing is assumed of the
    clock but that it has not reached [Duration::MAX]. *)
Theorem guesses_slowed {W} `{Rng W} `{Os W} `{Blake3} `{StdTime W} `{PageRefs W} `{Threads W}
    (self : VaultInner W) attempts s c pre t ts post :
  config_wf (config self) -> backoff s = backoff_default ->
  rtc (unlock_process_step self) (start_unlocks attempts s) c ->
  guesses c = pre ++ (wrong <$> t :: ts) ++ post ->
  Forall (fun t => t < duration_max) ts ->
  t + total_delay self (length ts) <= default t (last (t :: ts)).
Proof.
  intros Hwf Hb Hr Hg Hts.
  pose proof (ui_spaced _ _ (unlock_inv_reachable self _ _ (unlock_inv_start self attempts s Hb) Hr)) as Hs.
  rewrite Hg in Hs. apply spaced_app in Hs.
  apply spaced_prefix in Hs. set (b := after_guesses self pre backoff_default) in *.
  pose proof (failures_nonneg self pre backoff_default ltac:(done)) as Hf. fold b in Hf.
  apply (wrong_run self Hwf b t ts 1 Hs Hts); [done | done |]. unfold u32_max. lia.
Qed.

Lemma run_guessers_reachable {W} `{Rng W} `{Os W} `{Blake3} `{StdTime W} `{PageRefs W} `{Threads W}
    (self : VaultInner W) schedule c :
  rtc (unlock_process_step self) c (run_guessers self schedule c).
Proof.
  revert c. induction schedule as [| t ts IH]; intros c; cbn; [done |].
  destruct (run_guesser self t c) as [c1 |] eqn:E; cbn; [| by apply IH].
  eapply rtc_l; [by eapply StepGuesser | apply IH].
Qed.

(** Four threads guess wrongly at once; the second is refused. *)
Definition guessing_schedule : list nat :=
  [0; 1; 2; 3; 0; 1; 2; 3; 0; 0; 1; 0; 0; 0; 1; 1; 0; 0; 1; 1]%nat ++ replicate 9 2%nat ++ replicate 9 3%nat.
Definition guessing_start : VaultState Tape.world :=
  demo_state (Tape.start 100 [0; 1; 15; 1; 2; 30]%N demo_answers).
Definition guessing : unlock_process :=
  run_guessers demo_vault guessing_schedule (start_unlocks [[]; []; []; []] guessing_start).

Lemma guesses_slowed_witness :
  ((fun g => match stands g with UReturned (Err e) => Some e | _ => None end) <$> guessers guessing =
    [Some master_mismatch; Some (Error.RateLimited 9); Some master_mismatch; Some master_mismatch]) /\
  100 + total_delay demo_vault 2 <= default 100 (last [100; 117; 149]).
Proof.
  split; [vm_compute; reflexivity |].
  apply (guesses_slowed demo_vault [[]; []; []; []] guessing_start guessing [] 100 [117; 149] []).
  - apply (vw_config _ demo_vault_wf).
  - reflexivity.
  - apply run_guessers_reachable.
  - vm_compute. reflexivity.
  - repeat constructor; vm_compute; reflexivity.
Defined.
