(* ===== verification/Atomics.v ===== *)
(** * The writes of one atomic

    A C11 atomic, for the files that look at one under release/acquire
    memory: its writes form a modification order, here a list, oldest first;
    a load returns any write that is not older than what the thread knows; an
    exchange comes right after the write it read, a store at any later place
    that does not come between the two.  What a thread knows of the order is
    a position. *)

From S2P Require Import Prelude.
#[local] Open Scope nat_scope.

(** What a step does to the atomic. *)
Inductive atomic_access := Untouched | Loads | Exchanges | Stores.

Section order.
Context {M : Type} (exchange : M -> bool).
Implicit Types (mo : list M) (m : M).

(** A write may go to position [j] unless an exchange sits there. *)
Definition free_slot mo (j : nat) : bool := match mo !! j with Some m => negb (exchange m) | None => true end.
Definition insert_write (j : nat) m mo : list M := take j mo ++ m :: drop j mo.

(** The position of a write that was at [n], after one more at [j]. *)
Definition pushed (j n : nat) : nat := if j <=? n then S n else n.

(** Where thread [t] may read, exchange and store, if it knows position [n]. *)
Definition may_load (n i : nat) mo : bool := (n <=? i) && (i <? length mo).
Definition may_exchange (n i : nat) mo : bool := may_load n i mo && free_slot mo (S i).
Definition may_store (n i : nat) mo : bool := (n <? i) && (i <=? length mo) && free_slot mo i.

Lemma may_load_spec n i mo : may_load n i mo = true -> n <= i < length mo.
Proof. unfold may_load. intros [?%Nat.leb_le ?%Nat.ltb_lt]%andb_true_iff. lia. Qed.

Lemma may_exchange_spec n i mo :
  may_exchange n i mo = true -> n <= i < length mo /\ free_slot mo (S i) = true.
Proof. unfold may_exchange. intros [?%may_load_spec ?]%andb_true_iff. done. Qed.

Lemma may_store_spec n i mo :
  may_store n i mo = true -> n < i <= length mo /\ free_slot mo i = true.
Proof. unfold may_store. intros [[?%Nat.ltb_lt ?%Nat.leb_le]%andb_true_iff ?]%andb_true_iff. split; [lia | done]. Qed.

(** ** Insertion *)

Lemma pushed_last j n : n < j -> pushed j n = n.
Proof. intros Hn. unfold pushed. by rewrite (proj2 (Nat.leb_gt _ _)). Qed.

Lemma pushed_bounds j n : n <= pushed j n <= S n.
Proof. unfold pushed. case_match; lia. Qed.

Lemma insert_last m mo : insert_write (length mo) m mo = mo ++ [m].
Proof. unfold insert_write. by rewrite take_ge, drop_ge by lia. Qed.

Lemma length_insert_write j m mo : length (insert_write j m mo) = S (length mo).
Proof. unfold insert_write. rewrite length_app. cbn. rewrite length_take, length_drop. lia. Qed.

Lemma lookup_insert_write j m mo i :
  j <= length mo ->
  insert_write j m mo !! i = if decide (i = j) then Some m else if decide (i < j) then mo !! i else mo !! pred i.
Proof.
  intros Hj. unfold insert_write. assert (length (take j mo) = j) as Hl by (rewrite length_take; lia).
  repeat case_decide; subst.
  - by rewrite list_lookup_middle.
  - rewrite lookup_app_l by lia. by rewrite lookup_take_lt.
  - rewrite lookup_app_r, Hl, lookup_cons_ne_0, lookup_drop by lia. f_equal. lia.
Qed.

(** A position that is pushed stays at its write. *)
Lemma lookup_pushed j m mo n : j <= length mo -> insert_write j m mo !! pushed j n = mo !! n.
Proof.
  intros Hj. rewrite lookup_insert_write by done. unfold pushed.
  destruct (Nat.leb_spec j n); repeat case_decide; done || lia.
Qed.
End order.
