(* ===== verification/LockoutThreads.v ===== *)
(** * Lockouts under concurrent calls ([vault/mod.rs])

    Failure reports, lock queries and clears cut at every access to what the
    threads share: the tracker (each use is one critical section of its
    mutex), the vault-wide flag, the map of locked names under its mutex, and
    the atomic counter of locked names that lets queries skip the mutex.
    Alone they are the operations of [Lockout].  Together, the counter never
    hides a lock, with one exception: a [clear_key_lockout] that decrements
    the counter after a [clear_lockout] reset it leaves it wrong for good. *)

From S2P Require Import Prelude Errors Rust Config Events Lockout.
From stdpp Require Import relations.
#[local] Open Scope Z_scope.

(** ** Calls and program points *)

Inductive lockout_call :=
| CallReport (name : string) (note : option string) (per_key : bool)  (* handle_failure *)
| CallQuery (name : string)                                           (* key_locked *)
| CallClearKey (name : string)                                        (* clear_key_lockout *)
| CallClear.                                                          (* clear_lockout *)

#[export] Instance lockout_call_eq_dec : EqDecision lockout_call.
Proof. solve_decision. Defined.

(** What the thread does next. *)
Inductive lockout_point :=
| LNow                                       (* clock.now() *)
| LRecord (now : Z)                          (* the tracker's critical section *)
| LNotify (counts : FailureCounts)           (* monitor.on_decryption_failure *)
| LSwap (counts : FailureCounts)             (* locked_out.swap(true) *)
| LBreach (counts : FailureCounts) (was_locked : bool)  (* on_threshold_breach *)
| LUntil (counts : FailureCounts)            (* clock.now() + duration *)
| LLock (counts : FailureCounts) (until : option Z)     (* key_locks.lock() *)
| LInsert (counts : FailureCounts) (until : option Z)   (* locks.insert *)
| LAdd (counts : FailureCounts) (newly : bool)          (* fetch_add(1) *)
| LUnlock (counts : FailureCounts) (newly : bool)       (* the guard drops *)
| LBreachKey (counts : FailureCounts) (newly : bool)    (* on_threshold_breach *)
| QLoad                                      (* key_locks_active.load() == 0 *)
| QLock                                      (* key_locks.lock() *)
| QGet                                       (* locks.get(name) *)
| QClock (until : Z)                         (* clock.now() < until *)
| QRemove                                    (* locks.remove(name) *)
| QSub                                       (* fetch_sub(1), under the lock *)
| QForget                                    (* tracker.remove(name), under the lock *)
| QUnlock (answer : bool)                    (* the guard drops *)
| KLock                                      (* key_locks.lock() *)
| KRemove                                    (* locks.remove(name) *)
| KUnlock (removed : bool)                   (* the temporary guard drops *)
| KSub (removed : bool)                      (* fetch_sub(1), without the lock *)
| KForget (removed : bool)                   (* tracker.remove(name) *)
| CStore                                     (* locked_out.store(false) *)
| CLock                                      (* key_locks.lock() *)
| CEmpty                                     (* locks.clear() *)
| CZero                                      (* key_locks_active.store(0) *)
| CUnlock                                    (* the guard drops *)
| CForget                                    (* tracker.clear() *)
| LDone (answer : bool).                     (* returned; [false] for no value *)

Definition lockout_entry (c : lockout_call) : lockout_point :=
  match c with
  | CallReport _ _ _ => LNow | CallQuery _ => QLoad | CallClearKey _ => KLock | CallClear => CStore
  end.

Section threads.
Context {W C : Type} `{Clock W C}.
Context (config : VaultConfig) (monitor : dyn_monitor W) (clock : C).
Implicit Types s : LockState.
Implicit Types w : W.

Definition per_key_threshold (per_key : bool) : Z := if per_key then key_lockout_threshold config else 0.

(** Where a report goes after the vault-wide threshold. *)
Definition after_vault (per_key : bool) (counts : FailureCounts) : lockout_point :=
  if (0 <? per_key_threshold per_key) && (per_key_threshold per_key <=? in_key_window counts)
  then LUntil counts else LDone false.

(** [key_locks.lock()] by thread [t], if nobody holds the mutex. *)
Definition take_map (t : nat) (holder : option nat) (next : lockout_point) s w
    : option (lockout_point * option nat * LockState * W) :=
  if decide (holder = None) then Some (next, Some t, s, w) else None.

Definition set_locks (locks : gmap string (option Z)) s : LockState := with_locks locks (key_locks_active s) s.
Definition set_active (n : Z) s : LockState := with_locks (key_locks s) n s.

(** [handle_failure], with [record_failure]. *)
Definition report_step (t : nat) (name : string) (note : option string) (per_key : bool) (p : lockout_point)
    (holder : option nat) s w : option (lockout_point * option nat * LockState * W) :=
  match p with
  | LNow => let '(t, w) := now clock w in Some (LRecord t, holder, s, w)
  | LRecord t =>
      let entries := default [] (failure_tracker s !! name) in
      let '(counts, entries) := record_entries config t (0 <? per_key_threshold per_key) entries in
      Some (LNotify counts, holder, with_tracker <[name := entries]> s, w)
  | LNotify counts =>
      let ctx := {| fc_key_name := name; consecutive_failures := in_window counts;
                    window_elapsed := fc_window_elapsed counts; fc_note := default EmptyString note |} in
      let threshold := max_failures_before_lockout config in
      Some (if (0 <? threshold) && (threshold <=? in_window counts) then LSwap counts
            else after_vault per_key counts, holder, s, on_decryption_failure monitor ctx w)
  | LSwap counts => Some (LBreach counts (locked_out s), holder, with_locked_out true s, w)
  | LBreach counts was_locked =>
      let breach := {| tc_key_name := name; failures_in_window := in_window counts;
                       tc_window := failure_window config; lockout_triggered := negb was_locked;
                       scope := VaultScope |} in
      Some (after_vault per_key counts, holder, s, on_threshold_breach monitor breach w)
  | LUntil counts =>
      match key_lockout_duration config with
      | Some d =>
          let '(t, w) := now clock w in
          Some (LLock counts (Some (duration_saturating_add t d)), holder, s, w)
      | None => Some (LLock counts None, holder, s, w)
      end
  | LLock counts until => take_map t holder (LInsert counts until) s w
  | LInsert counts until =>
      let newly := bool_decide (key_locks s !! name = None) in
      Some (LAdd counts newly, holder, set_locks (<[name := until]> (key_locks s)) s, w)
  | LAdd counts newly =>
      Some (LUnlock counts newly, holder,
        set_active (if newly then wrap64 (key_locks_active s + 1) else key_locks_active s) s, w)
  | LUnlock counts newly => Some (LBreachKey counts newly, None, s, w)
  | LBreachKey counts newly =>
      let breach := {| tc_key_name := name; failures_in_window := in_key_window counts;
                       tc_window := key_lockout_window config; lockout_triggered := newly;
                       scope := KeyScope |} in
      Some (LDone false, holder, s, on_threshold_breach monitor breach w)
  | _ => None
  end.

(** [key_locked] and [key_locked_slow]. *)
Definition query_step (t : nat) (name : string) (p : lockout_point) (holder : option nat) s w
    : option (lockout_point * option nat * LockState * W) :=
  match p with
  | QLoad => Some (if key_locks_active s =? 0 then LDone false else QLock, holder, s, w)
  | QLock => take_map t holder QGet s w
  | QGet =>
      Some (match key_locks s !! name with
            | None => QUnlock false
            | Some None => QUnlock true
            | Some (Some until) => QClock until
            end, holder, s, w)
  | QClock until =>
      let '(t, w) := now clock w in Some (if t <? until then QUnlock true else QRemove, holder, s, w)
  | QRemove => Some (QSub, holder, set_locks (delete name (key_locks s)) s, w)
  | QSub => Some (QForget, holder, set_active (wrap64 (key_locks_active s - 1)) s, w)
  | QForget => Some (QUnlock false, holder, with_tracker (delete name) s, w)
  | QUnlock answer => Some (LDone answer, None, s, w)
  | _ => None
  end.

(** [clear_key_lockout]: the guard is a temporary of the first statement. *)
Definition clear_key_step (t : nat) (name : string) (p : lockout_point) (holder : option nat) s w
    : option (lockout_point * option nat * LockState * W) :=
  match p with
  | KLock => take_map t holder KRemove s w
  | KRemove =>
      Some (KUnlock (bool_decide (is_Some (key_locks s !! name))), holder,
        set_locks (delete name (key_locks s)) s, w)
  | KUnlock removed => Some (KSub removed, None, s, w)
  | KSub removed =>
      Some (KForget removed, holder,
        set_active (if removed then wrap64 (key_locks_active s - 1) else key_locks_active s) s, w)
  | KForget removed => Some (LDone removed, holder, with_tracker (delete name) s, w)
  | _ => None
  end.

(** [clear_lockout]. *)
Definition clear_step (t : nat) (p : lockout_point) (holder : option nat) s w
    : option (lockout_point * option nat * LockState * W) :=
  match p with
  | CStore => Some (CLock, holder, with_locked_out false s, w)
  | CLock => take_map t holder CEmpty s w
  | CEmpty => Some (CZero, holder, set_locks ∅ s, w)
  | CZero => Some (CUnlock, holder, set_active 0 s, w)
  | CUnlock => Some (CForget, None, s, w)
  | CForget => Some (LDone false, holder, with_tracker (fun _ => ∅) s, w)
  | _ => None
  end.

(** The next step of thread [t], given who holds the mutex of the map:
    [None] when the call has returned or waits. *)
Definition lockout_step (t : nat) (c : lockout_call) (p : lockout_point) (holder : option nat) s w
    : option (lockout_point * option nat * LockState * W) :=
  match c with
  | CallReport name note per_key => report_step t name note per_key p holder s w
  | CallQuery name => query_step t name p holder s w
  | CallClearKey name => clear_key_step t name p holder s w
  | CallClear => clear_step t p holder s w
  end.

(** The name a call is about. *)
Definition call_name (c : lockout_call) : string :=
  match c with CallReport n _ _ | CallQuery n | CallClearKey n => n | CallClear => EmptyString end.

(** ** The process *)

Record lockout_thread := { lt_call : lockout_call; lt_at : lockout_point }.

Record lockout_process := {
  lp_state : LockState;
  lp_world : W;
  lp_holder : option nat;
  lp_threads : list lockout_thread
}.

Definition start_lockouts (calls : list lockout_call) s w : lockout_process :=
  {| lp_state := s; lp_world := w; lp_holder := None;
     lp_threads := (fun c => {| lt_call := c; lt_at := lockout_entry c |}) <$> calls |}.

Definition run_lockout_thread (t : nat) (c : lockout_process) : option lockout_process :=
  match lp_threads c !! t with
  | None => None
  | Some th =>
      match lockout_step t (lt_call th) (lt_at th) (lp_holder c) (lp_state c) (lp_world c) with
      | None => None
      | Some (p, h, s, w) =>
          Some {| lp_state := s; lp_world := w; lp_holder := h;
                  lp_threads := <[t := {| lt_call := lt_call th; lt_at := p |}]> (lp_threads c) |}
      end
  end.

(** A thread's step, or a change of the world (the clock, the monitors'
    other work). *)
Inductive lockout_process_step (c : lockout_process) : lockout_process -> Prop :=
| StepCaller t c' : run_lockout_thread t c = Some c' -> lockout_process_step c c'
| StepWorld w : lockout_process_step c
    {| lp_state := lp_state c; lp_world := w; lp_holder := lp_holder c; lp_threads := lp_threads c |}.

Fixpoint run_lockouts (schedule : list nat) (c : lockout_process) : lockout_process :=
  match schedule with
  | [] => c
  | t :: schedule => run_lockouts schedule (default c (run_lockout_thread t c))
  end.

(** ** Alone they are the sequential operations *)

Fixpoint lockout_alone (n : nat) (c : lockout_call) (p : lockout_point) (holder : option nat) s w
    : lockout_point * option nat * LockState * W :=
  match n with
  | O => (p, holder, s, w)
  | S n => match lockout_step 0 c p holder s w with
           | Some (p, holder, s, w) => lockout_alone n c p holder s w
           | None => (p, holder, s, w)
           end
  end.

(** The same call on state nobody else touches. *)
Definition lockout_effect (c : lockout_call) s w : bool * LockState * W :=
  match c with
  | CallReport name note per_key =>
      let '(s, w) := handle_failure config monitor clock name note per_key s w in (false, s, w)
  | CallQuery name => key_locked clock name s w
  | CallClearKey name => let '(b, s) := clear_key_lockout name s in (b, s, w)
  | CallClear => (false, clear_lockout s, w)
  end.

Definition ended (r : bool * LockState * W) : lockout_point * option nat * LockState * W :=
  let '(b, s, w) := r in (LDone b, None, s, w).

Lemma lalone_step n c p h s w p' h' s' w' :
  lockout_step 0 c p h s w = Some (p', h', s', w') ->
  lockout_alone (S n) c p h s w = lockout_alone n c p' h' s' w'.
Proof. intros E. cbn [lockout_alone]. by rewrite E. Qed.

Lemma lalone_done n c b h s w : lockout_alone n c (LDone b) h s w = (LDone b, h, s, w).
Proof. by destruct n, c. Qed.

(** The second half of a report. *)
Lemma key_half_alone k name note per_key counts s w :
  lockout_alone (6 + k) (CallReport name note per_key) (after_vault per_key counts) None s w =
    ended (let '(s, w) := key_threshold_step config monitor clock name (per_key_threshold per_key) counts s w in
           (false, s, w)).
Proof.
  unfold after_vault, key_threshold_step. case_test; [| apply lalone_done]. cbn [Nat.add].
  destruct (key_lockout_duration config) as [d |] eqn:Ed.
  - destruct (now clock w) as [t w1] eqn:En.
    erewrite lalone_step by (cbn; by rewrite Ed, En). do 5 (erewrite lalone_step by done). apply lalone_done.
  - erewrite lalone_step by (cbn; by rewrite Ed). do 5 (erewrite lalone_step by done). apply lalone_done.
Qed.

Lemma report_alone name note per_key s w :
  lockout_alone 11 (CallReport name note per_key) LNow None s w =
    ended (lockout_effect (CallReport name note per_key) s w).
Proof.
  cbn [lockout_effect]. unfold handle_failure, record_failure.
  destruct (now clock w) as [t w1] eqn:En. erewrite lalone_step by (cbn; by rewrite En).
  fold (per_key_threshold per_key).
  destruct (record_entries config t (0 <? per_key_threshold per_key)
    (default [] (failure_tracker s !! name))) as [counts entries] eqn:Er.
  erewrite lalone_step by (cbn [lockout_step report_step]; by rewrite Er).
  erewrite lalone_step by done. unfold vault_threshold.
  destruct ((0 <? max_failures_before_lockout config) &&
            (max_failures_before_lockout config <=? in_window counts)).
  - do 2 (erewrite lalone_step by done). apply (key_half_alone 0).
  - apply (key_half_alone 2).
Qed.

Lemma query_alone name s w :
  lockout_alone 8 (CallQuery name) QLoad None s w = ended (lockout_effect (CallQuery name) s w).
Proof.
  erewrite lalone_step by done. cbn [lockout_effect]. unfold key_locked.
  case_test; [apply lalone_done |]. do 2 (erewrite lalone_step by done). unfold key_locked_slow.
  cbn [call_name]. destruct (key_locks s !! name) as [[until |] |].
  - destruct (now clock w) as [t w1] eqn:En. erewrite lalone_step by (cbn; by rewrite En).
    destruct (t <? until); [erewrite lalone_step by done; apply lalone_done |].
    do 4 (erewrite lalone_step by done). apply lalone_done.
  - erewrite lalone_step by done. apply lalone_done.
  - erewrite lalone_step by done. apply lalone_done.
Qed.

(** Any call, run without interruption, takes at most eleven steps and does
    what the sequential operation does. *)
Lemma lockout_alone_sequential c s w :
  lockout_alone 11 c (lockout_entry c) None s w = ended (lockout_effect c s w).
Proof.
  destruct c as [name note per_key | name | name |].
  - apply report_alone.
  - pose proof (query_alone name s w) as E. change 11%nat with (8 + 3)%nat.
    assert (forall n k c p h s w b h' s' w', lockout_alone n c p h s w = (LDone b, h', s', w') ->
      lockout_alone (n + k) c p h s w = (LDone b, h', s', w')) as Hmore.
    { clear. induction n as [| n IH]; intros k c p h s w b h' s' w'; cbn [lockout_alone Nat.add].
      - intros [= -> -> -> ->]. apply lalone_done.
      - destruct (lockout_step 0 c p h s w) as [[[[? ?] ?] ?] |]; [apply IH | done]. }
    cbn [lockout_entry]. unfold ended in *. destruct (lockout_effect (CallQuery name) s w) as [[b s'] w'].
    by apply Hmore.
  - do 5 (erewrite lalone_step by done). by destruct s.
  - do 6 (erewrite lalone_step by done). by destruct s.
Qed.

(** ** Unless a decrement races with the reset, the counter hides no lock *)

(** What a thread at [p] has still to do to the counter. *)
Definition owes (p : lockout_point) : Z :=
  match p with
  | LAdd _ true => -1
  | QSub | KUnlock true | KSub true => 1
  | _ => 0
  end.

Definition total_owed (ths : list lockout_thread) : Z := foldr (fun th n => owes (lt_at th) + n) 0 ths.

(** Points under the map's mutex. *)
Definition in_map (p : lockout_point) : bool :=
  match p with
  | LInsert _ _ | LAdd _ _ | LUnlock _ _ | QGet | QClock _ | QRemove | QSub | QForget | QUnlock _
  | KRemove | KUnlock _ | CEmpty | CZero | CUnlock => true
  | _ => false
  end.

(** The lock a report inserted is there when it counts it, the one a query
    found when it removes it; the map that was emptied is empty when the
    counter is reset. *)
Definition found (c : lockout_call) (p : lockout_point) s : Prop :=
  match p with
  | LAdd _ _ | QClock _ | QRemove => is_Some (key_locks s !! call_name c)
  | CZero => key_locks s = ∅
  | _ => True
  end.

(** The counter is about to be reset although a [clear_key_lockout] has still
    to decrement it. *)
Definition races (c : lockout_process) : Prop :=
  (exists th, th ∈ lp_threads c /\ lt_at th = CZero) /\ (exists th, th ∈ lp_threads c /\ lt_at th = KSub true).

(** Steps from states without that race. *)
Definition raceless_step (c c' : lockout_process) : Prop := ~ races c /\ lockout_process_step c c'.

Lemma total_owed_insert ths t th th' :
  ths !! t = Some th -> total_owed (<[t:=th']> ths) = total_owed ths - owes (lt_at th) + owes (lt_at th').
Proof.
  revert t. induction ths as [| x ths IH]; intros [| t] Ht; cbn in *; [done | done | |].
  - injection Ht as ->. unfold total_owed. cbn. lia.
  - specialize (IH t Ht). unfold total_owed in *. apply (f_equal (Z.add (owes (lt_at x)))) in IH.
    etrans; [exact IH | cbn; lia].
Qed.

Lemma owed_bound ths : (forall th, th ∈ ths -> 0 <= owes (lt_at th)) -> 0 <= total_owed ths <= zlen ths.
Proof.
  intros Hp. unfold zlen. induction ths as [| th ths IH]; cbn; [lia |].
  specialize (IH ltac:(intros x Hx; apply Hp; by constructor)).
  pose proof (Hp th ltac:(constructor)). assert (owes (lt_at th) <= 1) by (unfold owes; repeat case_match; lia).
  unfold total_owed in IH. lia.
Qed.

Lemma size_delete_present (m : gmap string (option Z)) name :
  is_Some (m !! name) -> Z.of_nat (size (delete name m)) = Z.of_nat (size m) - 1.
Proof.
  intros [v Hv]. rewrite map_size_delete, Hv.
  assert (size m <> 0%nat) by (intros E; apply map_size_empty_inv in E; by rewrite E in Hv). cbn. lia.
Qed.

(** Add what is owed: the counter is right up to that. *)
Definition counted s (owed : Z) : Prop := key_locks_active s = wrap64 (Z.of_nat (size (key_locks s)) + owed).

Lemma wrap64_shift a b n : a = wrap64 b -> wrap64 (a + n) = wrap64 (b + n).
Proof. intros ->. apply wrap64_add. Qed.

Lemma counted_step s s' a b n :
  counted s a -> key_locks_active s' = wrap64 (key_locks_active s + n) ->
  Z.of_nat (size (key_locks s')) + b = Z.of_nat (size (key_locks s)) + a + n -> counted s' b.
Proof. unfold counted. intros E -> E2. rewrite (wrap64_shift _ _ n E). f_equal. lia. Qed.

Lemma counted_same s s' a b :
  counted s a -> key_locks_active s' = key_locks_active s ->
  Z.of_nat (size (key_locks s')) + b = Z.of_nat (size (key_locks s)) + a -> counted s' b.
Proof. unfold counted. intros -> -> E2. f_equal. lia. Qed.

(** What a step does to the counter. *)
Definition counter_effect (p p' : lockout_point) s s' : Prop :=
  match p with
  | CEmpty => p' = CZero
  | CZero => p' = CUnlock /\ counted s' 0
  | _ => p' <> CZero /\ forall owed, counted s (owes p + owed) -> counted s' (owes p' + owed)
  end.

Definition resets (p : lockout_point) : bool := match p with CEmpty | CZero => true | _ => false end.

Lemma counter_plain p p' s s' :
  resets p = false -> p' <> CZero ->
  (forall owed, counted s (owes p + owed) -> counted s' (owes p' + owed)) -> counter_effect p p' s s'.
Proof. by destruct p. Qed.

(** What a step does to the map, its mutex and the counter. *)
Record step_effect (t : nat) (c : lockout_call) (p p' : lockout_point) (h h' : option nat) s s' : Prop := {
  se_in_map : in_map p' = true -> h' = Some t;
  se_found : found c p' s';
  se_holder : h' = h /\ in_map p' = in_map p \/ h = None /\ h' = Some t \/ h = Some t /\ h' = None /\ in_map p' = false;
  se_locks : key_locks s' = key_locks s \/ h = Some t /\ h' = Some t;
  se_counted : counter_effect p p' s s'
}.

(** Steps that touch neither the map nor the counter. *)
Lemma untouched t c p p' h h' s s' :
  (in_map p' = true -> h' = Some t) -> found c p' s ->
  (h' = h /\ in_map p' = in_map p \/ h = None /\ h' = Some t \/ h = Some t /\ h' = None /\ in_map p' = false) ->
  key_locks s' = key_locks s -> key_locks_active s' = key_locks_active s -> owes p' = owes p ->
  resets p = false -> p' <> CZero ->
  step_effect t c p p' h h' s s'.
Proof.
  intros ??? El Ea Eo Hr Hz. split; try done.
  - unfold found in *. by rewrite El.
  - by left.
  - apply counter_plain; [done.. |]. intros owed. unfold counted. by rewrite El, Ea, Eo.
Qed.

Lemma after_vault_plain per_key counts :
  in_map (after_vault per_key counts) = false /\ owes (after_vault per_key counts) = 0 /\
  after_vault per_key counts <> CZero /\ forall c s, found c (after_vault per_key counts) s.
Proof. unfold after_vault. by case_test. Qed.

Lemma report_step_effect t name note per_key p h s w p' h' s' w' :
  report_step t name note per_key p h s w = Some (p', h', s', w') -> (in_map p = true -> h = Some t) ->
  step_effect t (CallReport name note per_key) p p' h h' s s'.
Proof.
  intros E Hm. destruct p; try done; cbn [report_step] in E.
  - destruct (now clock w) as [t1 w1]. injection E as <- <- <- <-. by apply untouched; auto.
  - destruct (record_entries _ _ _ _) as [counts entries]. injection E as <- <- <- <-. by apply untouched; auto.
  - injection E as <- <- <- <-. destruct (after_vault_plain per_key counts) as (A1 & A2 & A3 & A4).
    case_test; apply untouched; rewrite ?A1, ?A2; auto; done.
  - injection E as <- <- <- <-. by apply untouched; auto.
  - injection E as <- <- <- <-. destruct (after_vault_plain per_key counts) as (A1 & A2 & A3 & A4).
    apply untouched; rewrite ?A1, ?A2; auto; done.
  - destruct (key_lockout_duration config); [destruct (now clock w) as [t1 w1] |];
      injection E as <- <- <- <-; by apply untouched; auto.
  - unfold take_map in E. destruct (decide (h = None)) as [-> |]; [| done].
    injection E as <- <- <- <-. by apply untouched; auto.
  - injection E as <- <- <- <-. specialize (Hm eq_refl). split; try done; auto.
    { cbn. by rewrite lookup_insert_eq. }
    apply counter_plain; [done.. |]. intros owed Ho.
    eapply counted_same; [exact Ho | done |]. cbn. rewrite map_size_insert.
    case_bool_decide as Hn; [rewrite Hn; cbn; lia |]. destruct (key_locks s !! name); [cbn; lia | done].
  - injection E as <- <- <- <-. specialize (Hm eq_refl). split; try done; auto. apply counter_plain; [done.. |]. intros owed Ho.
    destruct newly; [| eapply counted_same; [exact Ho | done |]; cbn; lia].
    eapply counted_step with (n := 1); [exact Ho | done |]. cbn. lia.
  - injection E as <- <- <- <-. specialize (Hm eq_refl). apply untouched; try done; auto.
  - injection E as <- <- <- <-. by apply untouched; auto.
Qed.

Lemma query_step_effect t name p h s w p' h' s' w' :
  query_step t name p h s w = Some (p', h', s', w') -> (in_map p = true -> h = Some t) ->
  found (CallQuery name) p s -> step_effect t (CallQuery name) p p' h h' s s'.
Proof.
  intros E Hm Hf. destruct p; try done; cbn [query_step] in E.
  - injection E as <- <- <- <-. case_test; apply untouched; try done; auto.
  - unfold take_map in E. destruct (decide (h = None)) as [-> |]; [| done].
    injection E as <- <- <- <-. by apply untouched; auto.
  - specialize (Hm eq_refl). destruct (key_locks s !! name) as [[until |] |] eqn:Ek;
      injection E as <- <- <- <-; apply untouched; try done; auto. by exists (Some until).
  - specialize (Hm eq_refl). destruct (now clock w) as [t1 w1]. injection E as <- <- <- <-.
    case_test; apply untouched; try done; auto.
  - injection E as <- <- <- <-. specialize (Hm eq_refl). split; try done; auto. apply counter_plain; [done.. |]. intros owed Ho.
    eapply counted_same; [exact Ho | done |]. cbn [key_locks set_locks with_locks owes].
    rewrite size_delete_present by exact Hf. lia.
  - injection E as <- <- <- <-. specialize (Hm eq_refl). split; try done; auto. apply counter_plain; [done.. |]. intros owed Ho.
    eapply counted_step with (n := -1); [exact Ho | done |]. cbn. lia.
  - injection E as <- <- <- <-. specialize (Hm eq_refl). apply untouched; try done; auto.
  - injection E as <- <- <- <-. specialize (Hm eq_refl). apply untouched; try done; auto; by right; right.
Qed.

Lemma clear_key_step_effect t name p h s w p' h' s' w' :
  clear_key_step t name p h s w = Some (p', h', s', w') -> (in_map p = true -> h = Some t) ->
  step_effect t (CallClearKey name) p p' h h' s s'.
Proof.
  intros E Hm. destruct p; try done; cbn [clear_key_step] in E.
  - unfold take_map in E. destruct (decide (h = None)) as [-> |]; [| done].
    injection E as <- <- <- <-. by apply untouched; auto.
  - injection E as <- <- <- <-. specialize (Hm eq_refl). split; try done; auto. apply counter_plain; [done.. |]. intros owed Ho.
    eapply counted_same; [exact Ho | done |]. cbn [key_locks set_locks with_locks].
    case_bool_decide as Hd; [rewrite size_delete_present by exact Hd; cbn; lia |].
    rewrite delete_id by by apply eq_None_not_Some. cbn. lia.
  - injection E as <- <- <- <-. specialize (Hm eq_refl).
    apply untouched; try done; try (by right; right); by destruct removed.
  - injection E as <- <- <- <-. split; try done; auto. apply counter_plain; [done.. |]. intros owed Ho.
    destruct removed; [| eapply counted_same; [exact Ho | done |]; cbn; lia].
    eapply counted_step with (n := -1); [exact Ho | done |]. cbn. lia.
  - injection E as <- <- <- <-. apply untouched; try done; auto.
Qed.

Lemma clear_step_effect t p h s w p' h' s' w' :
  clear_step t p h s w = Some (p', h', s', w') -> (in_map p = true -> h = Some t) -> found CallClear p s ->
  step_effect t CallClear p p' h h' s s'.
Proof.
  intros E Hm Hf. destruct p; try done; cbn [clear_step] in E.
  - injection E as <- <- <- <-. by apply untouched; auto.
  - unfold take_map in E. destruct (decide (h = None)) as [-> |]; [| done].
    injection E as <- <- <- <-. by apply untouched; auto.
  - injection E as <- <- <- <-. specialize (Hm eq_refl). split; try done; auto.
  - injection E as <- <- <- <-. specialize (Hm eq_refl). split; try done; auto. split; [done |].
    cbn in Hf. unfold counted. cbn. by rewrite Hf.
  - injection E as <- <- <- <-. specialize (Hm eq_refl). apply untouched; try done; auto; by right; right.
  - injection E as <- <- <- <-. by apply untouched; auto.
Qed.

Lemma lockout_step_effect t c p h s w p' h' s' w' :
  lockout_step t c p h s w = Some (p', h', s', w') -> (in_map p = true -> h = Some t) -> found c p s ->
  step_effect t c p p' h h' s s'.
Proof.
  intros E Hm Hf. destruct c; cbn [lockout_step] in E.
  - by eapply report_step_effect.
  - by eapply query_step_effect.
  - by eapply clear_key_step_effect.
  - by eapply clear_step_effect.
Qed.

Record lockouts_inv (c : lockout_process) : Prop := {
  li_holder t th : lp_threads c !! t = Some th -> in_map (lt_at th) = true -> lp_holder c = Some t;
  li_found t th : lp_threads c !! t = Some th -> found (lt_call th) (lt_at th) (lp_state c);
  li_counted : (forall t th, lp_threads c !! t = Some th -> lt_at th <> CZero) ->
    counted (lp_state c) (total_owed (lp_threads c))
}.

Lemma total_owed_zero ths : (forall th, th ∈ ths -> owes (lt_at th) = 0) -> total_owed ths = 0.
Proof.
  intros Hz. induction ths as [| th ths IH]; [done |]. cbn. rewrite Hz by constructor.
  apply IH. intros x Hx. apply Hz. by constructor.
Qed.

(** While a thread resets the counter nobody owes it anything, without the
    race. *)
Lemma nobody_owes c t th :
  lockouts_inv c -> ~ races c -> lp_threads c !! t = Some th -> lt_at th = CZero -> total_owed (lp_threads c) = 0.
Proof.
  intros Hi Hr Ht Hz. apply total_owed_zero. intros x Hx. pose proof Hx as [u Hu]%list_elem_of_lookup.
  pose proof (li_holder _ Hi t th Ht) as H1. rewrite Hz in H1. specialize (H1 eq_refl).
  pose proof (li_holder _ Hi u x Hu) as H2.
  assert (in_map (lt_at x) = true -> lt_at x = CZero) as Hsame.
  { intros Hm. specialize (H2 Hm). assert (u = t) as -> by congruence. congruence. }
  destruct (lt_at x) as [] eqn:Ex; try done; try (by specialize (Hsame eq_refl));
    match goal with b : bool |- _ => destruct b; [| done] end; try (by specialize (Hsame eq_refl)).
  destruct Hr. split; [exists th | by exists x]. split; [by eapply list_elem_of_lookup_2 | done].
Qed.

Lemma lockouts_inv_thread c t c' :
  lockouts_inv c -> ~ races c -> run_lockout_thread t c = Some c' -> lockouts_inv c'.
Proof.
  intros Hi Hr. pose proof (nobody_owes c t) as Hnone. destruct Hi as [Hh Hf Hn]. unfold run_lockout_thread.
  destruct (lp_threads c !! t) as [th |] eqn:Eth; [| done].
  destruct (lockout_step _ _ _ _ _ _) as [[[[p' h'] s'] w'] |] eqn:E; [| done]. intros [= <-].
  specialize (Hnone th (Build_lockouts_inv c Hh Hf Hn) Hr eq_refl).
  destruct (lockout_step_effect _ _ _ _ _ _ _ _ _ _ E (Hh t th Eth) (Hf t th Eth)) as [A2 A3 A4 A5 A6].
  assert (Hlen : (t < length (lp_threads c))%nat) by by eapply lookup_lt_Some.
  set (th' := {| lt_call := lt_call th; lt_at := p' |}).
  assert (Hcase : forall u x, <[t:=th']> (lp_threads c) !! u = Some x ->
    u = t /\ x = th' \/ u <> t /\ lp_threads c !! u = Some x).
  { intros u x Hx. destruct (decide (u = t)) as [-> | Hne].
    - rewrite list_lookup_insert_eq in Hx by done. left. by simplify_eq.
    - rewrite list_lookup_insert_ne in Hx by done. by right. }
  split; cbn [lp_threads lp_holder lp_state].
  - intros u x [[-> ->] | [Hne Hx]]%Hcase Hi; [by apply A2 |]. pose proof (Hh u x Hx Hi) as Hu.
    destruct A4 as [[-> _] | [[E1 _] | [E1 _]]]; [done | congruence | congruence].
  - intros u x [[-> ->] | [Hne Hx]]%Hcase; [done |]. pose proof (Hf u x Hx) as Hu.
    destruct A5 as [El | [E1 _]]; [unfold found in *; by rewrite El |].
    destruct (lt_at x) eqn:Ex; try done; exfalso; pose proof (Hh u x Hx) as Hi; rewrite Ex in Hi;
      specialize (Hi eq_refl); congruence.
  - intros Hno. rewrite (total_owed_insert _ _ _ th' Eth). replace (total_owed _ - _ + _) with
      (owes p' + (total_owed (lp_threads c) - owes (lt_at th))) by (cbn; lia).
    assert (p' <> CZero) as Hp' by (apply (Hno t th'); by apply list_lookup_insert_eq).
    destruct (resets (lt_at th)) eqn:Ers.
    + destruct (lt_at th); try done. destruct A6 as [-> A6]. by rewrite (Hnone eq_refl).
    + assert (p' <> CZero /\ forall owed, counted (lp_state c) (owes (lt_at th) + owed) ->
        counted s' (owes p' + owed)) as [_ A7] by (by destruct (lt_at th)).
      apply A7. replace (owes (lt_at th) + _) with (total_owed (lp_threads c)) by lia.
      apply Hn. intros u x Hu. destruct (decide (u = t)) as [-> | Hne].
      * rewrite Eth in Hu. injection Hu as <-. by destruct (lt_at th).
      * apply (Hno u x). by rewrite list_lookup_insert_ne.
Qed.

(** A locked name that has been counted keeps the counter from zero. *)
Definition adding (p : lockout_point) : bool := match p with LAdd _ true => true | _ => false end.

Lemma locked_counted c name :
  lockouts_inv c -> is_Some (key_locks (lp_state c) !! name) ->
  (forall th, th ∈ lp_threads c -> call_name (lt_call th) = name -> adding (lt_at th) = false) ->
  Z.of_nat (size (key_locks (lp_state c))) + zlen (lp_threads c) < 2 ^ 64 ->
  key_locks_active (lp_state c) <> 0.
Proof.
  intros [Hh Hf Hn] Hl Hadd Hb. set (locks := key_locks (lp_state c)) in *.
  assert (counted (lp_state c) (total_owed (lp_threads c))) as Hc.
  { apply Hn. intros t th Ht Hz. pose proof (Hf t th Ht) as E. rewrite Hz in E. cbn in E.
    fold locks in E. rewrite E in Hl. by destruct Hl. }
  assert (forall th, th ∈ lp_threads c -> owes (lt_at th) = -1 -> adding (lt_at th) = true) as Hneg.
  { intros th _. unfold owes. repeat case_match; try done. }
  assert (forall th, -1 <= owes (lt_at th) <= 1) as Ho by (intros th; unfold owes; repeat case_match; lia).
  assert (1 <= Z.of_nat (size locks) + total_owed (lp_threads c) < 2 ^ 64) as Hsum;
    [| unfold counted, wrap64 in Hc; fold locks in Hc; rewrite Z.mod_small in Hc by lia; lia].
  assert (Z.of_nat (size (delete name locks)) = Z.of_nat (size locks) - 1) as Hsz by (by apply size_delete_present).
  destruct (decide (Exists (fun th => adding (lt_at th) = true) (lp_threads c))) as [Hx | Hx].
  - apply Exists_exists in Hx as (th & Hin & Ha). pose proof Hin as [u Hu]%list_elem_of_lookup.
    set (idle := {| lt_call := lt_call th; lt_at := LDone false |}).
    pose proof (total_owed_insert _ u th idle Hu) as E. cbn in E.
    assert (owes (lt_at th) = -1) as E1 by (destruct (lt_at th) as [| | | | | | | | ? [] | | | | | | | | | | | | | | | | | | | | | |]; done).
    pose proof (owed_bound (<[u:=idle]> (lp_threads c))) as Hbd. rewrite zlen_insert in Hbd.
    assert (0 <= total_owed (<[u:=idle]> (lp_threads c)) <= zlen (lp_threads c)) as Hbd2.
    { apply Hbd. intros x [v Hv]%list_elem_of_lookup.
      destruct (decide (v = u)) as [-> | Hne].
      { rewrite list_lookup_insert_eq in Hv by (by eapply lookup_lt_Some). by injection Hv as <-. }
      rewrite list_lookup_insert_ne in Hv by done. destruct (decide (owes (lt_at x) = -1)) as [E2 | ]; [| by specialize (Ho x); lia].
      assert (lp_holder c = Some u) as H1 by (apply (Hh u th Hu); by destruct (lt_at th)).
      assert (lp_holder c = Some v) as H2; [| congruence].
      apply (Hh v x Hv). apply Hneg in E2; [| by eapply list_elem_of_lookup_2]. by destruct (lt_at x). }
    assert (is_Some (delete name locks !! call_name (lt_call th))) as Hother.
    { rewrite lookup_delete_ne; [| intros En; specialize (Hadd th Hin (eq_sym En)); congruence].
      pose proof (Hf u th Hu) as E2. by destruct (lt_at th). }
    assert (size (delete name locks) <> 0%nat)
      by (intros E0%map_size_empty_inv; rewrite E0 in Hother; by destruct Hother).
    lia.
  - pose proof (owed_bound (lp_threads c)) as Hbd. enough (0 <= total_owed (lp_threads c) <= zlen (lp_threads c)) by lia.
    apply Hbd. intros th Hin. destruct (decide (owes (lt_at th) = -1)) as [E | ]; [| specialize (Ho th); lia].
    destruct Hx. apply Exists_exists. exists th. split; [done | by apply Hneg].
Qed.

Lemma lockouts_inv_reachable c c' : lockouts_inv c -> rtc raceless_step c c' -> lockouts_inv c'.
Proof.
  intros Hi Hr. induction Hr as [| x y z [Hn [t y' E | w]] _ IH]; [done | |].
  - apply IH. by eapply lockouts_inv_thread.
  - apply IH. by destruct Hi.
Qed.

Lemma total_owed_start calls :
  total_owed ((fun c => {| lt_call := c; lt_at := lockout_entry c |}) <$> calls) = 0.
Proof. apply total_owed_zero. intros th (c & -> & _)%list_elem_of_fmap. by destruct c. Qed.

Lemma lockouts_inv_start calls s w : lock_inv s -> lockouts_inv (start_lockouts calls s w).
Proof.
  intros Hs.
  assert (Hth : forall t th, lp_threads (start_lockouts calls s w) !! t = Some th ->
    exists c, th = {| lt_call := c; lt_at := lockout_entry c |}).
  { intros t th (c & -> & Hc)%list_lookup_fmap_Some. by exists c. }
  split.
  - intros t th (c & ->)%Hth. by destruct c.
  - intros t th (c & ->)%Hth. by destruct c.
  - intros _. unfold counted, lock_inv in *. cbn [start_lockouts lp_state lp_threads].
    rewrite Hs, total_owed_start. f_equal. lia.
Qed.
End threads.

(** ** Properties *)

(** No lock is hidden.  However failure reports, lock queries and clears
    interleave, access by access: once the report that locked a name has
    counted it (in particular, once it has returned), the counter is not
    zero, so a query for that name does not take the fast path past the
    lock.  The one interleaving excluded is the one that breaks it
    ([clear_race_hides_lock]): a [clear_lockout] that resets the counter
    after a [clear_key_lockout] gave up the mutex and before its decrement. *)
Theorem lock_not_hidden {W C} `{Clock W C} (config : VaultConfig) (monitor : dyn_monitor W) (clock : C)
    (calls : list lockout_call) s w c name until :
  lock_inv s ->
  rtc (raceless_step config monitor clock) (start_lockouts calls s w) c ->
  key_locks (lp_state c) !! name = Some until ->
  (forall th, th ∈ lp_threads c -> call_name (lt_call th) = name -> adding (lt_at th) = false) ->
  Z.of_nat (size (key_locks (lp_state c))) + zlen (lp_threads c) < 2 ^ 64 ->
  key_locks_active (lp_state c) <> 0 /\
  forall t holder, lockout_step config monitor clock t (CallQuery name) QLoad holder (lp_state c) (lp_world c) =
    Some (QLock, holder, lp_state c, lp_world c).
Proof.
  intros Hs Hr Hl Hadd Hb.
  assert (key_locks_active (lp_state c) <> 0) as Hne.
  { eapply locked_counted; [| by rewrite Hl | done | done].
    by eapply lockouts_inv_reachable, Hr; apply lockouts_inv_start. }
  split; [done |]. intros t holder. cbn. by rewrite (proj2 (Z.eqb_neq _ _) Hne).
Qed.

(** Every failure locks its name for good; ["a"] is locked already. *)
Definition race_config : VaultConfig := {|
  key_normalization := false; keyed_normalization := false;
  max_failures_before_lockout := 0; failure_window := 60;
  key_lockout_threshold := 1; key_lockout_window := 50; key_lockout_duration := None;
  master_backoff_base := 0; master_backoff_max := 0; page_protection := false
|}.

Definition one_locked : LockState := with_locks {["a" := None]} 1 lock_init.

Definition report_b : lockout_call := CallReport "b" None true.

Definition run_race (calls : list lockout_call) (schedule : list nat) : lockout_process (W := Tape.world) :=
  run_lockouts race_config Tape.monitor Tape.clock schedule (start_lockouts calls one_locked (Tape.start 0 [] [])).

Lemma run_lockouts_reachable {W C} `{Clock W C} (config : VaultConfig) (monitor : dyn_monitor W) (clock : C)
    schedule c :
  rtc (lockout_process_step config monitor clock) c (run_lockouts config monitor clock schedule c).
Proof.
  revert c. induction schedule as [| t ts IH]; intros c; cbn; [done |].
  destruct (run_lockout_thread config monitor clock t c) as [c1 |] eqn:E; cbn; [| by apply IH].
  eapply rtc_l; [by eapply StepCaller | apply IH].
Qed.

(** A schedule that never meets the race. *)
Definition race_free {W} (c : lockout_process (W := W)) : bool :=
  negb (existsb (fun th => match lt_at th with CZero => true | _ => false end) (lp_threads c) &&
        existsb (fun th => match lt_at th with KSub true => true | _ => false end) (lp_threads c)).

Fixpoint raceless_schedule {W C} `{Clock W C} (config : VaultConfig) (monitor : dyn_monitor W) (clock : C)
    (schedule : list nat) (c : lockout_process) : bool :=
  race_free c &&
  match schedule with
  | [] => true
  | t :: schedule =>
      raceless_schedule config monitor clock schedule (default c (run_lockout_thread config monitor clock t c))
  end.

Lemma race_free_spec {W} (c : lockout_process (W := W)) : race_free c = true -> ~ races c.
Proof.
  intros Hf [(th1 & Hin1 & E1) (th2 & Hin2 & E2)]. apply negb_true_iff, andb_false_iff in Hf.
  destruct Hf as [Hf | Hf]; apply not_true_iff_false in Hf; destruct Hf; apply existsb_exists;
    [exists th1; rewrite E1 | exists th2; rewrite E2]; (split; [by apply list_elem_of_In | done]).
Qed.

Lemma raceless_reachable {W C} `{Clock W C} (config : VaultConfig) (monitor : dyn_monitor W) (clock : C)
    schedule c :
  raceless_schedule config monitor clock schedule c = true ->
  rtc (raceless_step config monitor clock) c (run_lockouts config monitor clock schedule c).
Proof.
  revert c. induction schedule as [| t ts IH]; intros c; cbn; [done |].
  intros [Hf Hs]%andb_true_iff. apply race_free_spec in Hf.
  destruct (run_lockout_thread config monitor clock t c) as [c1 |] eqn:E; cbn in *; [| by apply IH].
  eapply rtc_l; [split; [done | by eapply StepCaller] | by apply IH].
Qed.

(** Two reports about one name, a clear of another between them, and a clear
    of everything before the second. *)
Definition busy_calls : list lockout_call := [CallClearKey "a"; report_b; CallClear; report_b].
Definition clear_in_between : list nat :=
  [0; 0; 0; 1; 2; 2; 0; 2; 2; 2; 0; 2; 1; 1; 1; 1; 3; 3; 1; 3; 1; 1; 3; 1; 1; 1; 3; 3; 3; 3; 3]%nat.

Lemma lock_not_hidden_witness :
  lt_at <$> lp_threads (run_race busy_calls clear_in_between) =
    [LDone true; LDone false; LDone false; LDone false] /\
  key_locks_active (lp_state (run_race busy_calls clear_in_between)) <> 0.
Proof.
  split; [vm_compute; reflexivity |].
  refine (proj1 (lock_not_hidden race_config Tape.monitor Tape.clock busy_calls
    one_locked (Tape.start 0 [] []) _ "b" None _ (raceless_reachable _ _ _ _ _ _) _ _ _)).
  - vm_compute. reflexivity.
  - vm_compute. reflexivity.
  - vm_compute. reflexivity.
  - intros th Hth. vm_compute in Hth. set_solver.
  - vm_compute. reflexivity.
Defined.

(** A key that is locked for good and used all the same.  One thread clears
    the lockout of ["a"], another clears every lockout, and the decrement of
    the first comes after the reset of the second: the counter is one short
    from then on.  The next name to be locked brings it to zero: with every
    call returned and ["b"] locked without a deadline, queries say that it is
    not locked, whatever the clock says. *)
Definition decrement_after_reset : list nat :=
  [0; 0; 0; 1; 1; 1; 1; 1; 1; 0; 0; 2; 2; 2; 2; 2; 2; 2; 2; 2; 2]%nat.

Lemma clear_race_hides_lock :
  let c := run_race [CallClearKey "a"; CallClear; report_b] decrement_after_reset in
  lock_inv one_locked /\
  rtc (lockout_process_step race_config Tape.monitor Tape.clock)
    (start_lockouts [CallClearKey "a"; CallClear; report_b] one_locked (Tape.start 0 [] [])) c /\
  lt_at <$> lp_threads c = [LDone true; LDone false; LDone false] /\
  (forall t, locked_at (lp_state c) t "b" = true) /\
  (forall w, (key_locked Tape.clock "b" (lp_state c) w).1.1 = false).
Proof.
  cbv zeta. split; [vm_compute; reflexivity |]. split; [apply run_lockouts_reachable |].
  split; [vm_compute; reflexivity |]. split; intros; vm_compute; reflexivity.
Qed.
