(* ===== verification/LockoutSteps.v ===== *)
(** * Lockouts whose callers come and go

    [LockoutThreads] fixes the calls.  Seen from outside, as a part of the
    vault's process or with reads of the counter that may be old, a thread
    also begins further calls, and leaves them, between those steps; the
    invariant holds there as well.  A name that is locked, and whose report
    has counted it, stays so until somebody removes the lock, and queries
    that find the counter at work refuse it. *)

From S2P Require Import Prelude Errors Rust Config Events Lockout LockoutThreads.
From stdpp Require Import relations.
#[local] Open Scope Z_scope.

Section steps.
Context {W C : Type} `{Clock W C}.
Context (config : VaultConfig) (monitor : dyn_monitor W) (clock : C).
Implicit Types v : lockout_process (W := W).
Implicit Types s : LockState.
Abbreviation run_lockout := (run_lockout_thread config monitor clock).

(** Points of a call that is about to start, to wait for the map, or over. *)
Definition resting (p : lockout_point) : bool :=
  match p with LDone _ | LNow | QLoad | QLock | KLock | CStore => true | _ => false end.

Inductive lock_view_step v : lockout_process -> Prop :=
| LvRun id v' : run_lockout id v = Some v' -> lock_view_step v v'
| LvChange id th th' :
    lp_threads v !! id = Some th -> resting (lt_at th) = true -> resting (lt_at th') = true ->
    lock_view_step v {| lp_state := lp_state v; lp_world := lp_world v; lp_holder := lp_holder v;
                        lp_threads := <[id := th']> (lp_threads v) |}
| LvWorld w : lock_view_step v
    {| lp_state := lp_state v; lp_world := w; lp_holder := lp_holder v; lp_threads := lp_threads v |}.


Lemma lv_world v v' :
  lp_state v' = lp_state v -> lp_holder v' = lp_holder v -> lp_threads v' = lp_threads v -> lock_view_step v v'.
Proof. intros E1 E2 E3. destruct v'. cbn in *. subst. constructor. Qed.

Lemma lv_change v v' id th th' :
  lp_threads v' = <[id := th']> (lp_threads v) -> lp_threads v !! id = Some th ->
  lp_state v' = lp_state v -> lp_world v' = lp_world v -> lp_holder v' = lp_holder v ->
  resting (lt_at th) = true -> resting (lt_at th') = true -> lock_view_step v v'.
Proof. intros E4 ? E1 E2 E3 ??. destruct v'. cbn in *. subst. by eapply LvChange. Qed.

Lemma resting_plain p :
  resting p = true ->
  LockoutThreads.in_map p = false /\ owes p = 0 /\ adding p = false /\ p <> CZero /\ forall call l, found call p l.
Proof. by destruct p. Qed.

Lemma lockouts_inv_change v id th th' :
  lockouts_inv v -> lp_threads v !! id = Some th -> resting (lt_at th) = true -> resting (lt_at th') = true ->
  lockouts_inv {| lp_state := lp_state v; lp_world := lp_world v; lp_holder := lp_holder v;
                  lp_threads := <[id := th']> (lp_threads v) |}.
Proof.
  intros [Hh Hf Hn] Hid (_ & Ho & _ & Hz & _)%resting_plain (Hm' & Ho' & _ & Hz' & Hf')%resting_plain.
  split; cbn [lp_threads lp_state lp_holder].
  - intros u x [(<- & <- & _) | (_ & Hx)]%list_lookup_insert_Some Hi; [congruence | by apply (Hh u x)].
  - intros u x [(<- & <- & _) | (_ & Hx)]%list_lookup_insert_Some; [apply Hf' | by apply (Hf u x)].
  - intros Hno. rewrite (total_owed_insert _ _ th th') by done. rewrite Ho, Ho', Z.sub_0_r, Z.add_0_r.
    apply Hn. intros u x Hx. destruct (decide (u = id)) as [-> | Hne]; [congruence |].
    apply (Hno u x). by rewrite list_lookup_insert_ne.
Qed.

Lemma lockouts_inv_view v v' : lockouts_inv v -> ~ races v -> lock_view_step v v' -> lockouts_inv v'.
Proof.
  intros Hi Hr [id v1 E | id th th' Hid Hr1 Hr2 | w].
  - by eapply (lockouts_inv_thread config monitor clock).
  - by eapply lockouts_inv_change.
  - by destruct Hi.
Qed.

(** ** A name that stays locked *)

(** The thread is about to remove the lock of [name], or every lock. *)
Definition frees (name : string) (th : lockout_thread) : Prop :=
  match lt_at th with QRemove | KRemove => call_name (lt_call th) = name | CEmpty => True | _ => False end.

(** [name] is locked, and the report that locked it has counted it. *)
Record barred (name : string) v : Prop := {
  ba_inv : lockouts_inv v;
  ba_locked : is_Some (key_locks (lp_state v) !! name);
  ba_counted th : th ∈ lp_threads v -> call_name (lt_call th) = name -> adding (lt_at th) = false
}.

(** No lock of [name] is removed, and the locked names fit the counter. *)
Record undisturbed (name : string) v : Prop := {
  un_frees th : th ∈ lp_threads v -> ~ frees name th;
  un_fits : Z.of_nat (size (key_locks (lp_state v))) + zlen (lp_threads v) < 2 ^ 64
}.

Definition is_undisturbed (name : string) v : bool :=
  forallb (fun th => match lt_at th with
                     | QRemove | KRemove => negb (bool_decide (call_name (lt_call th) = name))
                     | CEmpty => false
                     | _ => true
                     end) (lp_threads v) &&
  (Z.of_nat (size (key_locks (lp_state v))) + zlen (lp_threads v) <? 2 ^ 64).

Lemma is_undisturbed_spec name v : is_undisturbed name v = true -> undisturbed name v.
Proof.
  intros [Hf Hs%Z.ltb_lt]%andb_true_iff. split; [| exact Hs]. intros th Hin Hfr.
  rewrite forallb_forall in Hf. specialize (Hf th (proj1 (list_elem_of_In _ _) Hin)). unfold frees in Hfr.
  destruct (lt_at th); try done; by rewrite bool_decide_true in Hf.
Qed.

Lemma barred_raceless name v : barred name v -> ~ races v.
Proof.
  intros [[_ Hf _] [x Hl] _] [(th & [t Ht]%list_elem_of_lookup & Hz) _].
  specialize (Hf t th Ht). rewrite Hz in Hf. cbn in Hf. by rewrite Hf, lookup_empty in Hl.
Qed.

Lemma barred_open name v : barred name v -> undisturbed name v -> key_locks_active (lp_state v) <> 0.
Proof. intros [] []. by apply (locked_counted v name). Qed.

(** A lockout step that does not remove the lock of [name] leaves it there,
    and does not insert it anew. *)
Lemma lockout_step_bars t call p h l (w : W) p' h' l' w' name :
  lockout_step config monitor clock t call p h l w = Some (p', h', l', w') ->
  ~ frees name {| lt_call := call; lt_at := p |} -> is_Some (key_locks l !! name) ->
  is_Some (key_locks l' !! name) /\ (call_name call = name -> adding p' = true -> adding p = true).
Proof.
  intros E Hfree Hl. unfold frees in Hfree. cbn in Hfree.
  assert (forall n, call_name call = n -> n <> name -> is_Some (delete n (key_locks l) !! name)) as Hdel
    by (intros n _ Hne; by rewrite lookup_delete_ne).
  assert (forall per_key counts, adding (after_vault config per_key counts) = false) as Hav
    by (intros; unfold after_vault; by case_test).
  destruct call as [n note pk | n | n |], p; cbn [lockout_step report_step query_step clear_key_step clear_step] in E;
    try done; unfold take_map in E; repeat case_match; simplify_eq; cbn; try done;
    try (split; [done | by rewrite Hav]).
  all: try (split; [apply Hdel; [done | naive_solver] | done]).
  split; [| intros <-; case_bool_decide as Hn; [by rewrite Hn in Hl; destruct Hl | done]].
  destruct (decide (n = name)) as [-> | Hne]; [by rewrite lookup_insert_eq | by rewrite lookup_insert_ne].
Qed.

Lemma barred_step name v v' : barred name v -> undisturbed name v -> lock_view_step v v' -> barred name v'.
Proof.
  intros Hb [Hfr _] Hs. pose proof (barred_raceless name v Hb) as Hr. destruct Hb as [Hi Hl Ha].
  split; [by eapply lockouts_inv_view | |].
  - destruct Hs as [id v1 E | id th th' Hid _ _ | w]; [| done..].
    unfold run_lockout_thread in E. destruct (lp_threads v !! id) as [th |] eqn:Eth; [| done].
    destruct (lockout_step _ _ _ _ _ _ _ _ _) as [[[[p h] l] w] |] eqn:Es; [| done]. injection E as <-.
    apply list_elem_of_lookup_2 in Eth. specialize (Hfr th Eth).
    by eapply (lockout_step_bars _ (lt_call th) (lt_at th)); [exact Es | by destruct th |].
  - destruct Hs as [id v1 E | id th th' Hid _ Hr2 | w]; [| |done].
    + unfold run_lockout_thread in E. destruct (lp_threads v !! id) as [th |] eqn:Eth; [| done].
      destruct (lockout_step _ _ _ _ _ _ _ _ _) as [[[[p h] l] w] |] eqn:Es; [| done]. injection E as <-.
      intros x [u [(<- & <- & _) | (_ & Hx)]%list_lookup_insert_Some]%list_elem_of_lookup Hn;
        [| apply Ha; [by eapply list_elem_of_lookup_2 | done]].
      apply list_elem_of_lookup_2 in Eth.
      destruct (lockout_step_bars _ (lt_call th) (lt_at th) _ _ _ _ _ _ _ name Es) as [_ Hadd];
        [destruct th; by apply Hfr | done |].
      apply not_true_is_false. intros Hp. specialize (Hadd Hn Hp). specialize (Ha th Eth Hn). congruence.
    + intros x [u [(<- & <- & _) | (_ & Hx)]%list_lookup_insert_Some]%list_elem_of_lookup Hn.
      * by apply resting_plain in Hr2 as (_ & _ & ? & _).
      * apply Ha; [by eapply list_elem_of_lookup_2 | done].
Qed.

(** Where a query for a barred name can be. *)
Definition will_refuse (q : lockout_point) : bool :=
  match q with QLoad | QLock | QGet | QClock _ | QRemove | QUnlock true | LDone true => true | _ => false end.

Lemma query_refuses t name q h l (w : W) q' h' l' w' :
  lockout_step config monitor clock t (CallQuery name) q h l w = Some (q', h', l', w') ->
  q <> QRemove -> is_Some (key_locks l !! name) -> key_locks_active l <> 0 -> will_refuse q = true ->
  will_refuse q' = true.
Proof.
  intros E Hq [until Hl] Hn Hw. cbn [lockout_step] in E. destruct q; try done; cbn [query_step] in E;
    unfold take_map in E; rewrite ?Hl in E; repeat case_match; simplify_eq; try done.
  by tests.
Qed.

End steps.
