(* ===== verification/LockoutWeak.v ===== *)
(** * Lockouts under release/acquire memory ([vault/mod.rs])

    [LockoutThreads] lets every thread see the latest value of the counter of
    locked names.  Here the counter is a C11 atomic: its writes form a
    modification order, a load may return any of them that is not older than
    what the thread knows, an exchange comes right after the write it read.
    A thread knows the writes it has read or made; taking the mutex of the
    map, it learns what the thread that released it knew, and any other
    synchronization (the tracker's mutex, the flag, joining a thread, a
    message) may teach it what another thread knows.  A query may then load
    an old value.  But one by a thread that knows of the report which locked
    the name still finds the counter at work, and refuses. *)

From S2P Require Import Prelude Errors Rust Config Events Lockout Atomics LockoutThreads LockoutSteps.
From stdpp Require Import relations.
#[local] Open Scope Z_scope.

(** ** The counter's history *)

Record counter_write := { cw_value : Z; cw_rmw : bool }.
Implicit Types mo : list counter_write.

(** The value read at position [i]. *)
Definition value_at mo (i : nat) : Z := default 0 (cw_value <$> mo !! i).

(** What the next step of a call does to [key_locks_active]. *)
Definition touches (p : lockout_point) : atomic_access :=
  match p with
  | QLoad => Loads
  | LAdd _ true | QSub | KSub true => Exchanges
  | CZero => Stores
  | _ => Untouched
  end.

Section weak.
Context {W C : Type} `{Clock W C}.
Context (config : VaultConfig) (monitor : dyn_monitor W) (clock : C).

Record weak_lockouts := {
  wl_state : LockState;          (* all but the counter *)
  wl_world : W;
  wl_holder : option nat;
  wl_threads : list lockout_thread;
  wl_counter : list counter_write;   (* oldest first *)
  wl_seen : nat -> nat;          (* the latest write each thread knows *)
  wl_passed : nat                (* and the one the map's mutex passes on *)
}.
Implicit Types c : weak_lockouts.
Implicit Types s : LockState.

(** What thread [t] knows, and what the mutex passes on, when its holder
    becomes [h]. *)
Definition seen_then (t : nat) (h : option nat) c : nat :=
  match wl_holder c, h with None, Some _ => wl_seen c t `max` wl_passed c | _, _ => wl_seen c t end.
Definition passed_then (t : nat) (h : option nat) c : nat :=
  match wl_holder c, h with Some _, None => wl_seen c t | _, _ => wl_passed c end.

(** Thread [t] goes on at [th], knowing the write at [n]. *)
Definition moved (t : nat) (th : lockout_thread) (h : option nat) s (w : W) (n passed : nat) c : weak_lockouts :=
  {| wl_state := s; wl_world := w; wl_holder := h; wl_threads := <[t := th]> (wl_threads c);
     wl_counter := wl_counter c; wl_seen := fun u => if decide (u = t) then n else wl_seen c u;
     wl_passed := passed |}.

(** It writes [m] at position [j]. *)
Definition written (t : nat) (th : lockout_thread) s (w : W) (j : nat) (m : counter_write) c : weak_lockouts :=
  {| wl_state := s; wl_world := w; wl_holder := wl_holder c; wl_threads := <[t := th]> (wl_threads c);
     wl_counter := insert_write j m (wl_counter c);
     wl_seen := fun u => if decide (u = t) then j else pushed j (wl_seen c u);
     wl_passed := pushed j (wl_passed c) |}.

(** The step of thread [t] that reads the counter at position [i], or stores
    to it there. *)
Definition weak_next (t i : nat) c : option weak_lockouts :=
  match wl_threads c !! t with
  | None => None
  | Some th =>
      let mo := wl_counter c in
      match lockout_step config monitor clock t (lt_call th) (lt_at th) (wl_holder c)
              (set_active (value_at mo i) (wl_state c)) (wl_world c) with
      | None => None
      | Some (p, h, s, w) =>
          let th' := {| lt_call := lt_call th; lt_at := p |} in
          match touches (lt_at th) with
          | Untouched => Some (moved t th' h s w (seen_then t h c) (passed_then t h c) c)
          | Loads =>
              if may_load (wl_seen c t) i mo then Some (moved t th' h s w i (wl_passed c) c) else None
          | Exchanges =>
              if may_exchange cw_rmw (wl_seen c t) i mo
              then Some (written t th' s w (S i) {| cw_value := key_locks_active s; cw_rmw := true |} c)
              else None
          | Stores =>
              if may_store cw_rmw (wl_seen c t) i mo
              then Some (written t th' s w i {| cw_value := key_locks_active s; cw_rmw := false |} c)
              else None
          end
      end
  end.

Inductive weak_lockout_step c : weak_lockouts -> Prop :=
| WlRun t i c' : weak_next t i c = Some c' -> weak_lockout_step c c'
| WlCall t th b call :                      (* a thread that returned makes another call *)
    wl_threads c !! t = Some th -> lt_at th = LDone b ->
    weak_lockout_step c (moved t {| lt_call := call; lt_at := lockout_entry call |} (wl_holder c) (wl_state c)
                           (wl_world c) (wl_seen c t) (wl_passed c) c)
| WlLearn t u th :                          (* it learns what [u] knows *)
    wl_threads c !! t = Some th ->
    weak_lockout_step c (moved t th (wl_holder c) (wl_state c) (wl_world c)
                           (wl_seen c t `max` wl_seen c u) (wl_passed c) c)
| WlWorld w :
    weak_lockout_step c {| wl_state := wl_state c; wl_world := w; wl_holder := wl_holder c;
      wl_threads := wl_threads c; wl_counter := wl_counter c; wl_seen := wl_seen c; wl_passed := wl_passed c |}.

Definition weak_start (calls : list lockout_call) s (w : W) : weak_lockouts :=
  {| wl_state := s; wl_world := w; wl_holder := None;
     wl_threads := (fun call => {| lt_call := call; lt_at := lockout_entry call |}) <$> calls;
     wl_counter := [{| cw_value := key_locks_active s; cw_rmw := false |}];
     wl_seen := fun _ => 0%nat; wl_passed := 0 |}.

(** ** The latest value, as [LockoutThreads] sees it *)

Definition last_value c : Z := value_at (wl_counter c) (pred (length (wl_counter c))).

Definition latest c : lockout_process :=
  {| lp_state := set_active (last_value c) (wl_state c); lp_world := wl_world c; lp_holder := wl_holder c;
     lp_threads := wl_threads c |}.

(** What whoever may touch the map next knows. *)
Definition freshest c : nat := match wl_holder c with Some t => wl_seen c t | None => wl_passed c end.

(** No store is later than [n]. *)
Definition stored_by (n : nat) mo : Prop := forall j m, mo !! j = Some m -> cw_rmw m = false -> (j <= n)%nat.

Record history_ok c : Prop := {
  wo_inv : lockouts_inv (latest c);
  wo_seen t : (wl_seen c t < length (wl_counter c))%nat;
  wo_passed : (wl_passed c < length (wl_counter c))%nat;
  wo_fresh : stored_by (freshest c) (wl_counter c);
  wo_late t th : wl_threads c !! t = Some th -> lt_at th = KSub true -> stored_by (wl_seen c t) (wl_counter c)
}.

(** ** The steps, seen from the latest value *)

Lemma set_active_id s : set_active (key_locks_active s) s = s.
Proof. by destruct s. Qed.

(** A step that does not touch the counter does not depend on it. *)
Lemma untouched_step t call p h s (w : W) n p' h' s' w' :
  touches p = Untouched ->
  lockout_step config monitor clock t call p h (set_active n s) w = Some (p', h', s', w') ->
  forall n', lockout_step config monitor clock t call p h (set_active n' s) w = Some (p', h', set_active n' s', w').
Proof.
  intros Ht E n'. unfold set_active in *.
  destruct call, p; cbn [lockout_step report_step query_step clear_key_step clear_step] in *; try done;
    unfold take_map in *; cbn [failure_tracker key_locks with_locks] in *; repeat case_match; simplify_eq; done.
Qed.

Lemma touching_step t call p h s (w : W) p' h' s' w' :
  touches p = Exchanges \/ touches p = Stores ->
  lockout_step config monitor clock t call p h s w = Some (p', h', s', w') ->
  h' = h /\ key_locks s' = key_locks s.
Proof.
  intros Ht E. destruct call, p; cbn [lockout_step report_step query_step clear_key_step clear_step] in *; try done;
    simplify_eq; try done; by destruct Ht.
Qed.

(** What a step of thread [t] can be. *)
Inductive weak_case (t i : nat) (th : lockout_thread) c : weak_lockouts -> Prop :=
| WcPlain p h s w :
    touches (lt_at th) = Untouched ->
    lockout_step config monitor clock t (lt_call th) (lt_at th) (wl_holder c) (lp_state (latest c)) (wl_world c) =
      Some (p, h, set_active (last_value c) s, w) ->
    weak_case t i th c (moved t {| lt_call := lt_call th; lt_at := p |} h s w (seen_then t h c) (passed_then t h c) c)
| WcLoad name :
    th = {| lt_call := CallQuery name; lt_at := QLoad |} -> (wl_seen c t <= i < length (wl_counter c))%nat ->
    weak_case t i th c
      (moved t {| lt_call := CallQuery name; lt_at := if value_at (wl_counter c) i =? 0 then LDone false else QLock |}
         (wl_holder c) (set_active (value_at (wl_counter c) i) (wl_state c)) (wl_world c) i (wl_passed c) c)
| WcWrite p s w m :
    touches (lt_at th) = Exchanges \/ touches (lt_at th) = Stores -> (cw_rmw m = false -> lt_at th = CZero) ->
    lockout_step config monitor clock t (lt_call th) (lt_at th) (wl_holder c) (lp_state (latest c)) (wl_world c) =
      Some (p, wl_holder c, s, w) ->
    key_locks s = key_locks (wl_state c) -> cw_value m = key_locks_active s ->
    weak_case t i th c (written t {| lt_call := lt_call th; lt_at := p |} s w (length (wl_counter c)) m c).

(** Exchanges and stores come last. *)
Lemma write_last c t th j :
  history_ok c -> wl_threads c !! t = Some th -> touches (lt_at th) = Exchanges \/ touches (lt_at th) = Stores ->
  (wl_seen c t < j <= length (wl_counter c))%nat -> free_slot cw_rmw (wl_counter c) j = true -> j = length (wl_counter c).
Proof.
  intros Hok Ht Hp Hj Hs. destruct (decide (j = length (wl_counter c))) as [| Hne]; [done |]. exfalso.
  destruct (lookup_lt_is_Some_2 (wl_counter c) j) as [m Hm]; [lia |].
  unfold free_slot in Hs. rewrite Hm in Hs. apply negb_true_iff in Hs.
  assert (stored_by (wl_seen c t) (wl_counter c)) as Hb; [| specialize (Hb j m Hm Hs); lia].
  destruct (LockoutThreads.in_map (lt_at th)) eqn:Em.
  - pose proof (li_holder _ (wo_inv _ Hok) t th Ht Em) as Hh. pose proof (wo_fresh _ Hok) as Hb.
    unfold freshest in Hb. cbn in Hh. by rewrite Hh in Hb.
  - apply (wo_late _ Hok t th Ht). destruct (lt_at th); cbn in *; try done; repeat case_match; try done; by destruct Hp.
Qed.

Lemma weak_next_case c t i c' :
  history_ok c -> weak_next t i c = Some c' -> exists th, wl_threads c !! t = Some th /\ weak_case t i th c c'.
Proof.
  intros Hok. unfold weak_next. destruct (wl_threads c !! t) as [th |] eqn:Ht; [| done]. intros E. exists th. split; [done |].
  destruct (lockout_step _ _ _ _ _ _ _ _ _) as [[[[p h] s] w] |] eqn:Es; [| done].
  destruct (touches (lt_at th)) eqn:Et.
  - injection E as <-. apply WcPlain; [done |]. by eapply untouched_step.
  - destruct th as [call q]. destruct q; try done; [by destruct newly | | by destruct removed]. cbn in Es.
    destruct call as [| name | |]; try done. cbn in Es. injection Es as <- <- <- <-.
    destruct (may_load _ _ _) eqn:Eb; [| done]. injection E as <-. apply may_load_spec in Eb. by apply WcLoad.
  - destruct (may_exchange _ _ _ _) eqn:Eb; [| done]. injection E as <-. apply may_exchange_spec in Eb as [Hi Hs].
    apply (write_last c t th) in Hs; [| done.. | by rewrite Et; left | lia].
    destruct (touching_step _ _ _ _ _ _ _ _ _ _ (or_introl Et) Es) as [-> Hk]. rewrite Hs.
    apply WcWrite; [by left | done | | done..]. cbn. unfold last_value. by rewrite <- Hs.
  - destruct (may_store _ _ _ _) eqn:Eb; [| done]. injection E as <-. apply may_store_spec in Eb as [Hi Hs].
    apply (write_last c t th) in Hs; [| done.. | by rewrite Et; right | lia].
    destruct (touching_step _ _ _ _ _ _ _ _ _ _ (or_intror Et) Es) as [-> Hk]. rewrite Hs.
    assert (lt_at th = CZero) as Ez by (destruct (lt_at th); cbn in Et; repeat case_match; done).
    apply WcWrite; [by right | done | | done..].
    rewrite Ez in Es |- *. by destruct (lt_call th).
Qed.

Lemma last_written t th s w m c : last_value (written t th s w (length (wl_counter c)) m c) = cw_value m.
Proof.
  unfold last_value, written, insert_write, value_at. cbn. rewrite take_ge, drop_ge by lia.
  rewrite length_app, Nat.add_comm. cbn. by rewrite list_lookup_middle.
Qed.

Lemma weak_case_latest t i th c c' :
  wl_threads c !! t = Some th -> weak_case t i th c c' -> lock_view_step config monitor clock (latest c) (latest c').
Proof.
  intros Ht [p h s w Et Es | name -> Hi | p s w m Et _ Es Hk Hm].
  - eapply LvRun with (id := t). unfold run_lockout_thread. cbn [lp_threads latest lp_holder lp_world].
    by rewrite Ht, Es.
  - eapply LvChange with (id := t); [exact Ht | done |]. by destruct (_ =? 0).
  - eapply LvRun with (id := t). unfold run_lockout_thread. cbn [lp_threads latest lp_holder lp_world].
    rewrite Ht, Es. unfold latest. by rewrite last_written, Hm, set_active_id.
Qed.

(** ** The invariant *)

Lemma stored_by_le n n' mo : (n <= n')%nat -> stored_by n mo -> stored_by n' mo.
Proof. intros Hn Hs j m Hm Hr. specialize (Hs j m Hm Hr). lia. Qed.

Lemma stored_by_snoc n mo m :
  stored_by n mo -> cw_rmw m = true \/ n = length mo -> stored_by n (mo ++ [m]).
Proof.
  intros Hs Hm j m' [Hj | [Hj Hj']]%lookup_app_Some Hr; [by eapply Hs |].
  apply list_lookup_singleton_Some in Hj' as [Hj0 <-]. destruct Hm as [Hm | ->]; [congruence | lia].
Qed.

Lemma pending_decrement t call p h s (w : W) h' s' w' :
  lockout_step config monitor clock t call p h s w = Some (KSub true, h', s', w') -> p = KUnlock true.
Proof.
  destruct call, p; cbn [lockout_step report_step query_step clear_key_step clear_step]; try done;
    unfold take_map, after_vault; repeat case_match; naive_solver.
Qed.

(** A step in which only thread [t]'s knowledge, and the mutex, change. *)
Lemma history_ok_moved t th th' h s w n passed c :
  history_ok c -> wl_threads c !! t = Some th -> lockouts_inv (latest (moved t th' h s w n passed c)) ->
  (wl_seen c t <= n < length (wl_counter c))%nat -> (passed < length (wl_counter c))%nat ->
  (freshest c <= freshest (moved t th' h s w n passed c))%nat ->
  (lt_at th' = KSub true -> stored_by n (wl_counter c)) ->
  history_ok (moved t th' h s w n passed c).
Proof.
  intros Hok Ht Hi Hn Hp Hf Hk. split; cbn [moved wl_seen wl_counter wl_passed wl_threads]; try done.
  - intros u. case_decide; [lia | apply (wo_seen _ Hok)].
  - eapply stored_by_le; [exact Hf | apply (wo_fresh _ Hok)].
  - intros u x [(<- & <- & _) | (Hne & Hx)]%list_lookup_insert_Some He; [rewrite decide_True by done; by apply Hk |].
    rewrite decide_False by done. by apply (wo_late _ Hok u x).
Qed.

Lemma history_ok_written t th th' s w m c :
  history_ok c -> ~ races (latest c) -> wl_threads c !! t = Some th -> lt_at th' <> KSub true ->
  (cw_rmw m = false -> lt_at th = CZero) ->
  lockouts_inv (latest (written t th' s w (length (wl_counter c)) m c)) ->
  history_ok (written t th' s w (length (wl_counter c)) m c).
Proof.
  intros Hok Hr Ht Hk Hm Hi.
  assert (forall u, pushed (length (wl_counter c)) (wl_seen c u) = wl_seen c u) as Hpu
    by (intros u; apply pushed_last, (wo_seen _ Hok)).
  pose proof (wo_passed _ Hok) as Hp. pose proof (li_holder _ (wo_inv _ Hok) t th Ht) as Hh. cbn in Hh.
  split; cbn [written wl_seen wl_counter wl_passed wl_threads]; rewrite ?insert_last, ?length_app; cbn [length]; try done.
  - intros u. pose proof (wo_seen _ Hok u). rewrite Hpu. case_decide; lia.
  - rewrite pushed_last by done. lia.
  - destruct (cw_rmw m) eqn:Em.
    + apply stored_by_snoc; [| by left]. eapply stored_by_le; [| apply (wo_fresh _ Hok)].
      unfold freshest. cbn. destruct (wl_holder c) as [u |]; [| by rewrite pushed_last].
      rewrite Hpu. case_decide; [subst; pose proof (wo_seen _ Hok t); lia | done].
    + rewrite Hm in Hh by done. unfold freshest. cbn. rewrite (Hh eq_refl), decide_True by done.
      apply stored_by_snoc; [| by right]. eapply stored_by_le; [| apply (wo_fresh _ Hok)].
      unfold freshest. rewrite (Hh eq_refl). pose proof (wo_seen _ Hok t). lia.
  - intros u x [(<- & <- & _) | (Hne & Hx)]%list_lookup_insert_Some He; [done |]. rewrite decide_False, Hpu by done.
    apply stored_by_snoc; [by apply (wo_late _ Hok u x) |]. left. apply not_false_is_true. intros Em.
    apply Hr. split; [exists th | exists x]; (split; [by eapply list_elem_of_lookup_2 | auto]).
Qed.

Lemma seen_then_bounds t h c :
  history_ok c -> (wl_seen c t <= seen_then t h c < length (wl_counter c))%nat /\
  (passed_then t h c < length (wl_counter c))%nat.
Proof.
  intros Hok. pose proof (wo_seen _ Hok t). pose proof (wo_passed _ Hok).
  unfold seen_then, passed_then. destruct (wl_holder c), h; lia.
Qed.

(** Nothing is forgotten as the mutex changes hands. *)
Lemma freshest_grows t th' h s w c :
  h = wl_holder c \/ wl_holder c = None /\ h = Some t \/ wl_holder c = Some t /\ h = None ->
  (freshest c <= freshest (moved t th' h s w (seen_then t h c) (passed_then t h c) c))%nat.
Proof.
  intros Hh. unfold freshest, seen_then, passed_then. cbn.
  destruct Hh as [-> | [[-> ->] | [-> ->]]]; [| rewrite decide_True by done; lia | done].
  destruct (wl_holder c) as [u |]; [| done]. by case_decide; subst.
Qed.

Lemma history_ok_run t i c c' : history_ok c -> ~ races (latest c) -> weak_next t i c = Some c' -> history_ok c'.
Proof.
  intros Hok Hr (th & Ht & Hc)%weak_next_case; [| done].
  pose proof (lockouts_inv_view _ _ _ _ _ (wo_inv _ Hok) Hr (weak_case_latest _ _ _ _ _ Ht Hc)) as Hi.
  pose proof (li_holder _ (wo_inv _ Hok) t th Ht) as Hh. pose proof (li_found _ (wo_inv _ Hok) t th Ht) as Hf.
  destruct Hc as [p h s w Et Es | name -> Hl | p s w m Et Hm Es Hk Hv].
  - destruct (seen_then_bounds t h c Hok) as [Hn Hp].
    destruct (lockout_step_effect _ _ _ _ _ _ _ _ _ _ _ _ _ Es Hh Hf) as [_ _ A _ _].
    apply (history_ok_moved t th); try done.
    + apply freshest_grows. destruct A as [[? _] | [? | (? & ? & _)]]; auto.
    + cbn [lt_at]. intros ->. apply pending_decrement in Es. rewrite Es in Hh. specialize (Hh eq_refl).
      eapply stored_by_le; [apply Hn |]. pose proof (wo_fresh _ Hok) as Hb. unfold freshest in Hb. cbn in Hh.
      by rewrite Hh in Hb.
  - apply (history_ok_moved t {| lt_call := CallQuery name; lt_at := QLoad |}); try done; [apply (wo_passed _ Hok) | |].
    + unfold freshest. cbn. destruct (wl_holder c) as [u |]; [case_decide; subst |]; lia.
    + cbn [lt_at]. by destruct (_ =? 0).
  - apply (history_ok_written t th); try done. cbn [lt_at]. intros ->. apply pending_decrement in Es. rewrite Es in Et. by destruct Et.
Qed.

(** Steps from states without the race. *)
Definition calm_weak_step c c' : Prop := ~ races (latest c) /\ weak_lockout_step c c'.

Lemma resting_start call : resting (lockout_entry call) = true.
Proof. by destruct call. Qed.

(** [LockoutThreads] makes the same step, or none. *)
Lemma weak_step_latest c c' :
  history_ok c -> weak_lockout_step c c' -> lock_view_step config monitor clock (latest c) (latest c').
Proof.
  intros Hok [t i c1 (th & Ht & Hc)%weak_next_case | t th b call Ht Hp | t u th Ht | w]; [| done | | |].
  - by eapply weak_case_latest.
  - eapply LvChange with (id := t); [exact Ht | by rewrite Hp | apply resting_start].
  - apply lv_world; [done.. |]. cbn. by apply list_insert_id.
  - by apply lv_world.
Qed.

Lemma history_ok_step c c' : history_ok c -> calm_weak_step c c' -> history_ok c'.
Proof.
  intros Hok [Hr Hs]. pose proof (weak_step_latest c c' Hok Hs) as Hl. apply lockouts_inv_view in Hl; [| apply Hok | done].
  pose proof (wo_seen _ Hok) as Hn. pose proof (wo_passed _ Hok) as Hp.
  destruct Hs as [t i c1 E | t th b call Ht Hb | t u th Ht | w]; [by eapply history_ok_run | | |].
  - apply (history_ok_moved t th); try done; [| by destruct call].
    unfold freshest. cbn. destruct (wl_holder c); [case_decide; by subst | done].
  - apply (history_ok_moved t th); try done; [pose proof (Hn t); pose proof (Hn u); lia | |].
    + unfold freshest. cbn. destruct (wl_holder c); [case_decide; subst | ]; lia.
    + intros Hk. eapply stored_by_le; [| by apply (wo_late _ Hok t th)]. lia.
  - by destruct Hok.
Qed.

Lemma history_ok_start calls s w : lock_inv s -> history_ok (weak_start calls s w).
Proof.
  intros Hs. split; cbn; try lia.
  - assert (latest (weak_start calls s w) = start_lockouts calls s w) as ->; [| by apply lockouts_inv_start].
    unfold latest, last_value, value_at. cbn. by rewrite set_active_id.
  - by intros [| j] m Hj _.
  - intros t th (call & -> & _)%list_lookup_fmap_Some Hk. by destruct call.
Qed.

(** ** Queries that know of the lock *)

(** Whoever knows the write at [p] does not load zero. *)
Definition shows (p : nat) c : Prop :=
  (p < length (wl_counter c))%nat /\
  forall j m, (p <= j)%nat -> wl_counter c !! j = Some m -> cw_value m <> 0.

(** Thread [t] knows that write, and refuses [name] when it is asked for. *)
Record kept (name : string) (p t : nat) c : Prop := {
  ke_ok : history_ok c;
  ke_barred : barred name (latest c);
  ke_shows : shows p c;
  ke_knows : (p <= wl_seen c t)%nat;
  ke_thread : exists th, wl_threads c !! t = Some th /\ (lt_call th = CallQuery name -> will_refuse (lt_at th) = true)
}.

Lemma seen_grows c c' t : history_ok c -> weak_lockout_step c c' -> (wl_seen c t <= wl_seen c' t)%nat.
Proof.
  intros Hok [u i c1 (th & Ht & Hc)%weak_next_case | u th b call Ht Hp | u v th Ht | w]; [| done | | | done];
    cbn; try (case_decide; subst; lia).
  destruct Hc as [p h s w Et Es | name -> Hl | p s w m Et Hm Es Hk Hv]; cbn; pose proof (wo_seen _ Hok u);
    unfold pushed, seen_then; repeat case_match; case_decide; subst; lia.
Qed.

Lemma written_nonzero name t th s w m c :
  barred name (latest (written t th s w (length (wl_counter c)) m c)) ->
  Z.of_nat (size (key_locks s)) + zlen (wl_threads c) < 2 ^ 64 -> cw_value m <> 0.
Proof.
  intros Hb Hfit. rewrite <- (last_written t th s w m c).
  apply (locked_counted (latest (written t th s w (length (wl_counter c)) m c)) name); [apply Hb.. |].
  cbn. by rewrite zlen_insert.
Qed.

Lemma shows_step name p c c' :
  history_ok c -> shows p c -> barred name (latest c') -> undisturbed name (latest c) -> weak_lockout_step c c' ->
  shows p c'.
Proof.
  intros Hok [Hp Hs] Hb [_ Hfit] Hs'. destruct Hs' as [u i c1 (th & Ht & Hc)%weak_next_case | u th b call Ht _ | u v th Ht | w]; try done.
  destruct Hc as [q h s w Et Es | n -> Hl | q s w m Et Hm Es Hk Hv]; try done.
  assert (cw_value m <> 0) as Hne.
  { eapply written_nonzero; [exact Hb |]. cbn in Hfit. by rewrite Hk. }
  unfold shows. cbn. rewrite insert_last, length_app. split; [lia |].
  intros j m' Hj [Hj' | [_ [_ <-]%list_lookup_singleton_Some]]%lookup_app_Some; [by eapply Hs | done].
Qed.

Lemma weak_case_threads t i th c c' :
  weak_case t i th c c' -> exists q, wl_threads c' = <[t := {| lt_call := lt_call th; lt_at := q |}]> (wl_threads c).
Proof. intros [p h s w _ _ | name -> _ | p s w m _ _ _ _ _]; by eexists. Qed.

Lemma query_kept name t c th i c' :
  history_ok c -> barred name (latest c) -> undisturbed name (latest c) -> shows (wl_seen c t) c ->
  wl_threads c !! t = Some th -> lt_call th = CallQuery name -> will_refuse (lt_at th) = true ->
  weak_next t i c = Some c' ->
  exists q, wl_threads c' !! t = Some {| lt_call := CallQuery name; lt_at := q |} /\ will_refuse q = true.
Proof.
  intros Hok Hb Hu [Hp Hs] Ht Hc Hr (x & Hx & Hs')%weak_next_case; [| done]. assert (x = th) as -> by congruence.
  pose proof (lookup_lt_Some _ _ _ Ht) as Hlt. pose proof (barred_open name _ Hb Hu) as Hne.
  assert (lt_at th <> QRemove) as Hq.
  { intros E. apply (un_frees _ _ Hu th); [by eapply list_elem_of_lookup_2 |]. unfold frees. by rewrite E, Hc. }
  destruct Hs' as [q h s w Et Es | n -> Hl | q s w m Et Hm Es Hk Hv]; cbn; rewrite list_lookup_insert_eq by done.
  - rewrite Hc in *. exists q. split; [done |]. by eapply (query_refuses config monitor clock), Hr; [exact Es | done | apply Hb |].
  - injection Hc as ->. eexists. split; [done |].
    destruct (lookup_lt_is_Some_2 (wl_counter c) i) as [m Hm]; [lia |].
    unfold value_at. rewrite Hm. cbn. rewrite (proj2 (Z.eqb_neq _ _)); [done |]. by eapply Hs, Hm; lia.
  - by destruct (lt_at th); try done; destruct Et.
Qed.

Lemma kept_step name p t c c' :
  kept name p t c -> undisturbed name (latest c) -> weak_lockout_step c c' -> kept name p t c'.
Proof.
  intros [Hok Hb Hsh Hk (th & Ht & Hth)] Hu Hs. pose proof (weak_step_latest c c' Hok Hs) as Hl.
  pose proof (barred_step _ _ _ _ _ _ Hb Hu Hl) as Hb'. pose proof (barred_raceless _ _ Hb) as Hr.
  pose proof (seen_grows c c' t Hok Hs) as Hg.
  split; [by eapply history_ok_step | done | by eapply shows_step | lia |].
  pose proof (lookup_lt_Some _ _ _ Ht) as Hlt.
  destruct Hs as [u i c1 E | u x b call Hx _ | u v x Hx | w]; cbn; [| | | by exists th].
  - destruct (decide (u = t /\ lt_call th = CallQuery name)) as [[-> Ec] | Hne].
    + destruct (query_kept name t c th i c1) as (q & Hq & Hw); try done; [| by auto | by eexists].
      destruct Hsh as [_ Hsh]. split; [apply (wo_seen _ Hok) |]. intros j m Hj. apply Hsh. lia.
    + apply weak_next_case in E as (x & Hx & (q & ->)%weak_case_threads); [| done].
      destruct (decide (u = t)) as [-> | Hne']; [| rewrite list_lookup_insert_ne by done; by exists th].
      rewrite list_lookup_insert_eq by done. eexists. split; [done |]. cbn [lt_call]. naive_solver.
  - destruct (decide (u = t)) as [-> | Hne].
    + rewrite list_lookup_insert_eq by done. eexists. split; [done |]. cbn. by intros ->.
    + rewrite list_lookup_insert_ne by done. by exists th.
  - destruct (decide (u = t)) as [-> | Hne].
    + rewrite list_lookup_insert_eq by done. exists x. split; [done |]. by replace x with th by congruence.
    + rewrite list_lookup_insert_ne by done. by exists th.
Qed.

Definition undisturbed_weak_step (name : string) c c' : Prop :=
  undisturbed name (latest c) /\ weak_lockout_step c c'.

Lemma kept_steps name p t c c' : kept name p t c -> rtc (undisturbed_weak_step name) c c' -> kept name p t c'.
Proof. intros Hk Hr. induction Hr as [| c c1 c2 [Hu Hs] _ IH]; [done |]. apply IH. by eapply kept_step. Qed.

Lemma history_ok_steps c c' : history_ok c -> rtc calm_weak_step c c' -> history_ok c'.
Proof. intros Hk Hr. induction Hr as [| c c1 c2 Hs _ IH]; [done |]. apply IH. by eapply history_ok_step. Qed.

(** The map's mutex lets one thread count at a time. *)
Lemma adding_alone (v : lockout_process (W := W)) t u th x :
  lockouts_inv v -> lp_threads v !! t = Some th -> lp_threads v !! u = Some x ->
  adding (lt_at th) = true -> adding (lt_at x) = true -> t = u.
Proof.
  intros Hi Ht Hu Ha Hb. pose proof (li_holder _ Hi t th Ht) as H1. pose proof (li_holder _ Hi u x Hu) as H2.
  destruct (lt_at th), (lt_at x); try done. specialize (H1 eq_refl). specialize (H2 eq_refl). congruence.
Qed.

(** Whoever counts the lock of a name knows that it did. *)
Lemma kept_start u i th counts name c c1 :
  history_ok c -> wl_threads c !! u = Some th -> lt_at th = LAdd counts true -> call_name (lt_call th) = name ->
  lt_call th <> CallQuery name -> Z.of_nat (size (key_locks (wl_state c))) + zlen (wl_threads c) < 2 ^ 64 ->
  weak_next u i c = Some c1 -> kept name (wl_seen c1 u) u c1.
Proof.
  intros Hok Ht Ha Hn Hq Hfit E. pose proof (wo_inv _ Hok) as Hi. pose proof (lookup_lt_Some _ _ _ Ht) as Hlt.
  assert (is_Some (key_locks (wl_state c) !! name)) as Hl.
  { pose proof (li_found _ Hi u th Ht) as Hf. rewrite Ha in Hf. cbn in Hf. by rewrite Hn in Hf. }
  assert (~ races (latest c)) as Hr.
  { intros [(x & [v Hx]%list_elem_of_lookup & Hz) _]. pose proof (li_found _ Hi v x Hx) as Hf. rewrite Hz in Hf.
    cbn in Hf. rewrite Hf in Hl. by destruct Hl. }
  assert (history_ok c1) as Hok1 by (by eapply history_ok_run).
  apply weak_next_case in E as (x & Hx & Hc); [| done]. assert (x = th) as -> by congruence.
  destruct Hc as [q h s w Et Es | n -> Hl' | q s w m Et Hm Es Hk Hv]; [by rewrite Ha in Et | done |].
  set (th' := {| lt_call := lt_call th; lt_at := q |}) in *.
  assert (adding q = false) as Hadd by (rewrite Ha in Es; destruct (lt_call th); cbn in Es; by simplify_eq).
  assert (barred name (latest (written u th' s w (length (wl_counter c)) m c))) as Hb.
  { split; [apply Hok1 | cbn; by rewrite Hk |]. cbn.
    intros x [v [(_ & <- & _) | (Hne & Hv')]%list_lookup_insert_Some]%list_elem_of_lookup _; [done |].
    apply not_true_is_false. intros Ha'. destruct Hne. eapply (adding_alone (latest c)); [done | exact Ht | exact Hv' | | done].
    by rewrite Ha. }
  assert (cw_value m <> 0) as Hne by (eapply written_nonzero; [exact Hb | by rewrite Hk]).
  split; [done | done | | done |].
  - unfold shows. cbn. rewrite decide_True, insert_last, length_app by done. split; [cbn; lia |].
    intros j m' Hj [?%lookup_lt_Some | [_ [_ <-]%list_lookup_singleton_Some]]%lookup_app_Some; [lia | done].
  - cbn. rewrite list_lookup_insert_eq by done. by eexists.
Qed.
End weak.

(** Schedules all of whose states pass a test. *)
Section schedules.
Context {W C : Type} `{Clock W C}.
Context (config : VaultConfig) (monitor : dyn_monitor W) (clock : C).
Implicit Types c : weak_lockouts (W := W).

Definition run_weak_lockouts (schedule : list (nat * nat)) c : weak_lockouts :=
  foldl (fun c ti => default c (weak_next config monitor clock ti.1 ti.2 c)) c schedule.

Fixpoint all_pass (test : weak_lockouts (W := W) -> bool) (schedule : list (nat * nat)) c : bool :=
  match schedule with
  | [] => true
  | ti :: schedule => test c && all_pass test schedule (default c (weak_next config monitor clock ti.1 ti.2 c))
  end.

Lemma all_pass_reachable test (P : weak_lockouts (W := W) -> Prop) schedule c :
  (forall x, test x = true -> P x) -> all_pass test schedule c = true ->
  rtc (fun x y => P x /\ weak_lockout_step config monitor clock x y) c (run_weak_lockouts schedule c).
Proof.
  intros HP. revert c. induction schedule as [| [t i] schedule IH]; intros c Hok; cbn in *; [done |].
  apply andb_true_iff in Hok as [Ht Hok].
  destruct (weak_next _ _ _ t i c) as [c1 |] eqn:E; cbn in *; [| by apply IH].
  eapply rtc_l; [split; [by apply HP | by eapply WlRun] | by apply IH].
Qed.
End schedules.

(** ** Properties *)

(** C11: A known lock is seen, whatever the memory does.  Let threads report,
    query and clear, call after call, in any interleaving and with any old
    values of the counter the memory model allows, without the race that
    [clear_race_hides_lock] shows; and let a report that locks [name] count
    it.  From then on, as long as nobody is about to remove the lock, a
    query for [name] that starts in a thread that knows of the count (in the
    reporter itself, in whoever took the map's mutex later, in a thread that
    synchronized with one that knows) does not find the key unlocked: it is
    on its way to the map, or has answered that the name is locked.  So does
    every later query in that thread. *)
Theorem known_lock_refuses {W C} `{Clock W C} (config : VaultConfig) (monitor : dyn_monitor W) (clock : C)
    calls s w c c1 c2 c3 u t i name note counts th :
  lock_inv s ->
  rtc (calm_weak_step config monitor clock) (weak_start calls s w) c ->
  wl_threads c !! u = Some {| lt_call := CallReport name note true; lt_at := LAdd counts true |} ->
  Z.of_nat (size (key_locks (wl_state c))) + zlen (wl_threads c) < 2 ^ 64 ->
  weak_next config monitor clock u i c = Some c1 ->
  rtc (undisturbed_weak_step config monitor clock name) c1 c2 ->
  (wl_seen c1 u <= wl_seen c2 t)%nat ->
  wl_threads c2 !! t = Some th -> (lt_call th = CallQuery name -> lt_at th = QLoad) ->
  rtc (undisturbed_weak_step config monitor clock name) c2 c3 ->
  exists th', wl_threads c3 !! t = Some th' /\ (lt_call th' = CallQuery name -> will_refuse (lt_at th') = true).
Proof.
  intros Hs Hr Hu Hfit E Hr1 Hk Ht Hq Hr2.
  assert (history_ok c) as Hok by (eapply history_ok_steps, Hr; by apply history_ok_start).
  assert (kept name (wl_seen c1 u) u c2) as [Hok2 Hb2 Hs2 _ _]
    by (eapply kept_steps, Hr1; by eapply kept_start).
  assert (kept name (wl_seen c1 u) t c2) as Hk2.
  { split; try done. exists th. split; [done |]. by intros ->%Hq. }
  by destruct (kept_steps _ _ _ _ _ _ _ _ Hk2 Hr2).
Qed.

(** A report locks ["b"], and a query for it loads the counter. *)
Definition one_query : weak_lockouts := weak_start [report_b; CallQuery "b"] lock_init (Tape.start 0 [] []).
Definition run_query := run_weak_lockouts race_config Tape.monitor Tape.clock.
Definition about_to_count := run_query (replicate 6 (0, 0)%nat) one_query.
Definition just_counted := run_query [(0, 0)%nat] about_to_count.
Definition informed : weak_lockouts :=
  moved 1 {| lt_call := CallQuery "b"; lt_at := QLoad |} (wl_holder just_counted) (wl_state just_counted)
    (wl_world just_counted) (wl_seen just_counted 1 `max` wl_seen just_counted 0) (wl_passed just_counted) just_counted.
Definition refused := run_query [(1, 1); (0, 0); (1, 0); (1, 0); (1, 0)]%nat informed.

Lemma known_lock_refuses_witness :
  lt_at <$> wl_threads refused = [LBreachKey {| in_window := 1; in_key_window := 1; fc_window_elapsed := 0 |} true; LDone true] /\
  exists th', wl_threads refused !! 1%nat = Some th' /\ (lt_call th' = CallQuery "b" -> will_refuse (lt_at th') = true).
Proof.
  split; [vm_compute; reflexivity |].
  eapply (known_lock_refuses race_config Tape.monitor Tape.clock [report_b; CallQuery "b"] lock_init (Tape.start 0 [] [])
    about_to_count just_counted informed refused 0 1 0 "b" None).
  - vm_compute. reflexivity.
  - apply (all_pass_reachable _ _ _ (fun c => race_free (latest c))); [intros x; apply race_free_spec | vm_compute; reflexivity].
  - vm_compute. reflexivity.
  - vm_compute. reflexivity.
  - vm_compute. reflexivity.
  - eapply rtc_l; [split; [apply is_undisturbed_spec; vm_compute; reflexivity |] | apply rtc_refl].
    eapply (WlLearn _ _ _ just_counted 1 0). vm_compute. reflexivity.
  - vm_compute. lia.
  - vm_compute. reflexivity.
  - done.
  - apply (all_pass_reachable _ _ _ (fun c => is_undisturbed "b" (latest c)));
      [intros x; apply is_undisturbed_spec | vm_compute; reflexivity].
Defined.

(** A thread that knows nothing of the report may load the old counter, even
    after the report has returned, and let the key through: the theorem's
    premise is needed. *)
Lemma uninformed_query_misses :
  lt_at <$> wl_threads (run_query (replicate 9 (0, 0) ++ [(1, 0)])%nat one_query) = [LDone false; LDone false] /\
  key_locks (wl_state (run_query (replicate 9 (0, 0) ++ [(1, 0)])%nat one_query)) !! "b" = Some None.
Proof. split; vm_compute; reflexivity. Qed.
