(* ===== verification/FlagWeak.v ===== *)
(** * The vault-wide flag under release/acquire memory ([vault/mod.rs])

    [locked_out] is an atomic of its own: reports that reach the threshold
    exchange it for [true], [clear_lockout] stores [false] without any mutex,
    and [is_locked_out], the gate of every operation, loads it.  Here its
    writes form a modification order ([Atomics]); the calls are those of
    [LockoutThreads], point by point, and any thread may pass the gate at any
    time.  Whatever synchronizes two threads may teach one what the other
    knows of the flag.  A gate may then load an old value, and a clear may
    be ordered before a lockout it runs after.  But of the reports that find
    the flag set and unset, each time exactly the one that set it tells the
    monitor so; and a thread that knows of a lockout is refused until a
    clear. *)

From S2P Require Import Prelude Errors Rust Config Events Lockout Atomics LockoutThreads.
From stdpp Require Import relations.
#[local] Open Scope Z_scope.

(** ** The flag's history *)

Record flag_write := { fw_value : bool; fw_rmw : bool }.
Implicit Types mo : list flag_write.

(** The value read at position [i]. *)
Definition flag_at mo (i : nat) : bool := from_option fw_value false (mo !! i).

(** How many of its elements pass. *)
Definition number_of {A} (test : A -> bool) (l : list A) : nat := length (List.filter test l).

(** How often the flag goes from unset to set, if it is [before] at first. *)
Fixpoint rises (before : bool) mo : nat :=
  match mo with
  | [] => 0
  | m :: mo => (if fw_value m && negb before then 1 else 0) + rises (fw_value m) mo
  end.
Definition lockouts mo : nat := rises false mo.

(** What the next step of a call does to [locked_out]. *)
Definition touches_flag (p : lockout_point) : atomic_access :=
  match p with LSwap _ => Exchanges | CStore => Stores | _ => Untouched end.

(** What a report that has just set the flag will tell the monitor as
    [lockout_triggered]. *)
Definition will_tell (p : lockout_point) : list bool :=
  match p with LBreach _ was_locked => [negb was_locked] | _ => [] end.

(** ** What insertions do to the number of lockouts *)

Lemma number_of_app {A} (test : A -> bool) l k : number_of test (l ++ k) = (number_of test l + number_of test k)%nat.
Proof. unfold number_of. by rewrite List.filter_app, length_app. Qed.

Lemma number_of_insert {M} (test : M -> bool) j m (l : list M) :
  number_of test (insert_write j m l) = ((if test m then 1 else 0) + number_of test l)%nat.
Proof.
  rewrite <- (take_drop j l) at 2. unfold insert_write. rewrite !number_of_app.
  unfold number_of at 2. cbn [List.filter]. case_match; cbn [length]; fold (number_of test (drop j l)); lia.
Qed.

Lemma rises_app before mo1 mo2 :
  rises before (mo1 ++ mo2) = (rises before mo1 + rises (from_option fw_value before (last mo1)) mo2)%nat.
Proof.
  revert before. induction mo1 as [| m mo1 IH]; intros before; [done |]. cbn [app rises]. rewrite IH, last_cons.
  destruct (last mo1); cbn; lia.
Qed.

(** What follows a free slot does not depend on what goes there. *)
Lemma rises_free before before' mo :
  (forall m, head mo = Some m -> fw_value m = false) -> rises before mo = rises before' mo.
Proof. destruct mo as [| m mo]; [done |]. intros Hm. cbn. by rewrite (Hm m eq_refl). Qed.

Lemma rises_insert mo j m :
  (forall x, mo !! j = Some x -> fw_value x = false) ->
  (0 < j <= length mo)%nat ->
  lockouts (insert_write j m mo) = ((if fw_value m && negb (flag_at mo (pred j)) then 1 else 0) + lockouts mo)%nat.
Proof.
  intros Hj Hl. unfold lockouts. rewrite <- (take_drop j mo) at 3. unfold insert_write. rewrite !rises_app. cbn [rises].
  assert (from_option fw_value false (last (take j mo)) = flag_at mo (pred j)) as ->.
  { unfold flag_at. rewrite last_lookup, length_take, lookup_take_lt by lia. do 2 f_equal. lia. }
  rewrite (rises_free (fw_value m) (flag_at mo (pred j)) (drop j mo)); [lia |].
  intros x Hx. apply Hj. by rewrite head_lookup, lookup_drop, Nat.add_0_r in Hx.
Qed.

(** Between two lockouts the flag was cleared. *)
Lemma rises_clears before mo :
  (rises before mo <= (if before then 0 else 1) + number_of (negb ∘ fw_value) mo)%nat.
Proof.
  revert before. induction mo as [| m mo IH]; intros before; [cbn; lia |]. cbn [rises]. specialize (IH (fw_value m)).
  change (m :: mo) with ([m] ++ mo). rewrite number_of_app. unfold number_of at 1. cbn.
  destruct (fw_value m), before; cbn in *; lia.
Qed.

Lemma lockouts_cleared mo : flag_at mo 0 = false -> (lockouts mo <= number_of (negb ∘ fw_value) mo)%nat.
Proof.
  destruct mo as [| m mo]; [done |]. unfold flag_at, lockouts. cbn. intros Hm. rewrite Hm.
  pose proof (rises_clears false mo) as Hr. unfold number_of, compose in *. cbn. lia.
Qed.

Lemma rises_set before mo : number_of fw_value mo <> 0%nat -> before = false -> (1 <= rises before mo)%nat.
Proof.
  intros Hn ->. induction mo as [| m mo IH]; [done |]. cbn. unfold number_of in *. cbn in Hn.
  destruct (fw_value m); cbn in *; [lia | by apply IH].
Qed.

Section weak.
Context {W C : Type} `{Clock W C}.
Context (config : VaultConfig) (monitor : dyn_monitor W) (clock : C).
Implicit Types v : lockout_process (W := W).

Record flag_process := {
  fl_rest : lockout_process (W := W);  (* all but the flag *)
  fl_flag : list flag_write;           (* oldest first *)
  fl_seen : nat -> nat;                (* the latest write each thread knows *)
  fl_told : list bool;                 (* what the reports that set the flag tell the monitor *)
  fl_gates : list (nat * bool)         (* the threads that asked [is_locked_out], and its answers *)
}.
Implicit Types c : flag_process.

Definition with_flag (b : bool) v : lockout_process :=
  {| lp_state := with_locked_out b (lp_state v); lp_world := lp_world v; lp_holder := lp_holder v;
     lp_threads := lp_threads v |}.

(** Thread [t] writes [m] at position [j], and tells [told]. *)
Definition flag_written (t j : nat) (m : flag_write) v (told : list bool) c : flag_process :=
  {| fl_rest := v; fl_flag := insert_write j m (fl_flag c);
     fl_seen := fun u => if decide (u = t) then j else pushed j (fl_seen c u);
     fl_told := fl_told c ++ told; fl_gates := fl_gates c |}.

(** The rest of the process becomes [v]; thread [t] knows the write at [n]. *)
Definition flag_moved (t n : nat) v (gates : list (nat * bool)) c : flag_process :=
  {| fl_rest := v; fl_flag := fl_flag c; fl_seen := fun u => if decide (u = t) then n else fl_seen c u;
     fl_told := fl_told c; fl_gates := fl_gates c ++ gates |}.

(** The step of thread [t]'s call that reads the flag at position [i], or
    stores to it there. *)
Definition flag_next (t i : nat) c : option flag_process :=
  match lp_threads (fl_rest c) !! t, run_lockout_thread config monitor clock t (with_flag (flag_at (fl_flag c) i) (fl_rest c)) with
  | Some th, Some v =>
      let told := from_option (will_tell ∘ lt_at) [] (lp_threads v !! t) in
      match touches_flag (lt_at th) with
      | Exchanges =>
          if may_exchange fw_rmw (fl_seen c t) i (fl_flag c)
          then Some (flag_written t (S i) {| fw_value := locked_out (lp_state v); fw_rmw := true |} v told c) else None
      | Stores =>
          if may_store fw_rmw (fl_seen c t) i (fl_flag c)
          then Some (flag_written t i {| fw_value := locked_out (lp_state v); fw_rmw := false |} v [] c) else None
      | _ => Some (flag_moved t (fl_seen c t) v [] c)
      end
  | _, _ => None
  end.

(** [is_locked_out] in thread [t], reading position [i]. *)
Definition flag_gate (t i : nat) c : option flag_process :=
  if may_load (fl_seen c t) i (fl_flag c)
  then Some (flag_moved t i (fl_rest c) [(t, flag_at (fl_flag c) i)] c) else None.

Inductive flag_step c : flag_process -> Prop :=
| FlRun t i c' : flag_next t i c = Some c' -> flag_step c c'
| FlGate t i c' : flag_gate t i c = Some c' -> flag_step c c'
| FlCall t th b call :                      (* a thread that returned makes another call *)
    lp_threads (fl_rest c) !! t = Some th -> lt_at th = LDone b ->
    flag_step c (flag_moved t (fl_seen c t)
      {| lp_state := lp_state (fl_rest c); lp_world := lp_world (fl_rest c); lp_holder := lp_holder (fl_rest c);
         lp_threads := <[t := {| lt_call := call; lt_at := lockout_entry call |}]> (lp_threads (fl_rest c)) |} [] c)
| FlLearn t u :                             (* it learns what [u] knows *)
    flag_step c (flag_moved t (fl_seen c t `max` fl_seen c u) (fl_rest c) [] c)
| FlWorld w t :
    flag_step c (flag_moved t (fl_seen c t)
      {| lp_state := lp_state (fl_rest c); lp_world := w; lp_holder := lp_holder (fl_rest c);
         lp_threads := lp_threads (fl_rest c) |} [] c).

Definition flag_start (calls : list lockout_call) s (w : W) : flag_process :=
  {| fl_rest := start_lockouts calls s w; fl_flag := [{| fw_value := locked_out s; fw_rmw := false |}];
     fl_seen := fun _ => 0%nat; fl_told := []; fl_gates := [] |}.

(** ** What a step does to the flag *)

Inductive flag_effect c c' : Prop :=
| FeSame l :
    fl_flag c' = fl_flag c -> fl_told c' = fl_told c -> fl_gates c' = fl_gates c ++ l ->
    (forall u, fl_seen c u < length (fl_flag c))%nat -> (forall u, fl_seen c u <= fl_seen c' u < length (fl_flag c))%nat ->
    (forall u b, (u, b) ∈ l -> exists n, (fl_seen c u <= n < length (fl_flag c))%nat /\ b = flag_at (fl_flag c) n) ->
    flag_effect c c'
| FeLocks t i :
    (fl_seen c t <= i < length (fl_flag c))%nat -> free_slot fw_rmw (fl_flag c) (S i) = true ->
    fl_flag c' = insert_write (S i) {| fw_value := true; fw_rmw := true |} (fl_flag c) ->
    fl_told c' = fl_told c ++ [negb (flag_at (fl_flag c) i)] -> fl_gates c' = fl_gates c ->
    fl_seen c' = (fun u => if decide (u = t) then S i else pushed (S i) (fl_seen c u)) -> flag_effect c c'
| FeClears t i th :
    lp_threads (fl_rest c) !! t = Some th -> lt_at th = CStore ->
    (fl_seen c t < i <= length (fl_flag c))%nat -> free_slot fw_rmw (fl_flag c) i = true ->
    fl_flag c' = insert_write i {| fw_value := false; fw_rmw := false |} (fl_flag c) ->
    fl_told c' = fl_told c -> fl_gates c' = fl_gates c ->
    fl_seen c' = (fun u => if decide (u = t) then i else pushed i (fl_seen c u)) -> flag_effect c c'.

(** A call's step that exchanges or stores the flag. *)
Lemma run_swap t th v v' counts :
  lp_threads v !! t = Some th -> lt_at th = LSwap counts -> run_lockout_thread config monitor clock t v = Some v' ->
  locked_out (lp_state v') = true /\
  from_option (will_tell ∘ lt_at) [] (lp_threads v' !! t) = [negb (locked_out (lp_state v))].
Proof.
  intros Ht Hp. unfold run_lockout_thread. rewrite Ht. pose proof (lookup_lt_Some _ _ _ Ht) as Hl.
  destruct th as [call p]. cbn in Hp. subst p. destruct call; try done. cbn. intros [= <-]. cbn.
  by rewrite list_lookup_insert_eq.
Qed.

Lemma run_store t th v v' :
  lp_threads v !! t = Some th -> lt_at th = CStore -> run_lockout_thread config monitor clock t v = Some v' ->
  locked_out (lp_state v') = false.
Proof.
  intros Ht Hp. unfold run_lockout_thread. rewrite Ht.
  destruct th as [call p]. cbn in Hp. subst p. destruct call; try done. cbn. by intros [= <-].
Qed.

Lemma moved_effect t n v l c :
  (forall u, fl_seen c u < length (fl_flag c))%nat -> (fl_seen c t <= n < length (fl_flag c))%nat ->
  (forall u b, (u, b) ∈ l -> u = t /\ b = flag_at (fl_flag c) n) -> flag_effect c (flag_moved t n v l c).
Proof.
  intros Hs Hn Hl. eapply FeSame; try done.
  - intros u. cbn. pose proof (Hs u). case_decide; subst; lia.
  - intros u b [-> ->]%Hl. by exists n.
Qed.

Lemma flag_next_effect t i c c' :
  (forall u, fl_seen c u < length (fl_flag c))%nat -> flag_next t i c = Some c' -> flag_effect c c'.
Proof.
  intros Hs. unfold flag_next. destruct (lp_threads (fl_rest c) !! t) as [th |] eqn:Ht; [| done].
  destruct (run_lockout_thread _ _ _ t _) as [v |] eqn:E; [| done]. pose proof (Hs t).
  destruct (touches_flag (lt_at th)) eqn:Et; [| by destruct (lt_at th) | |].
  - intros [= <-]. apply moved_effect; [done | lia | by intros ? ? ?%not_elem_of_nil].
  - destruct (may_exchange _ _ _ _) eqn:Em; [| done]. apply may_exchange_spec in Em as [Hi Hf]. intros [= <-].
    destruct (lt_at th) as [| | | counts | | | | | | | | | | | | | | | | | | | | | | | | | | |] eqn:Ep; try done.
    destruct (run_swap t th (with_flag (flag_at (fl_flag c) i) (fl_rest c)) v counts Ht Ep E) as [Ev Hw].
    eapply (FeLocks c _ t i); try done; cbn; [by rewrite Ev | by rewrite Hw].
  - destruct (may_store _ _ _ _) eqn:Em; [| done]. apply may_store_spec in Em as [Hi Hf]. intros [= <-].
    assert (lt_at th = CStore) as Ep by (by destruct (lt_at th)).
    pose proof (run_store t th (with_flag (flag_at (fl_flag c) i) (fl_rest c)) v Ht Ep E) as Ev.
    eapply (FeClears c _ t i th); try done; cbn; [by rewrite Ev | by rewrite app_nil_r].
Qed.

Lemma flag_step_effect c c' :
  (forall u, fl_seen c u < length (fl_flag c))%nat -> flag_step c c' -> flag_effect c c'.
Proof.
  intros Hs [t i c1 E | t i c1 E | t th b call Ht _ | t u | w t]; try pose proof (Hs t);
    [by eapply flag_next_effect | | | pose proof (Hs u) |]; try (apply moved_effect; [done | lia | by intros ? ? ?%not_elem_of_nil]).
  unfold flag_gate in E. destruct (may_load _ _ _) eqn:Em; [| done]. injection E as <-.
  apply may_load_spec in Em. apply moved_effect; [done | lia |]. intros ? ? Hin%list_elem_of_singleton. by simplify_eq.
Qed.

(** ** The invariant *)

Record flag_ok c : Prop := {
  fo_seen u : (fl_seen c u < length (fl_flag c))%nat;
  fo_plain j m : fl_flag c !! j = Some m -> fw_value m = fw_rmw m;     (* only reports write [true] *)
  fo_first : flag_at (fl_flag c) 0 = false;
  fo_told : number_of id (fl_told c) = lockouts (fl_flag c);
  fo_swaps : length (fl_told c) = number_of fw_value (fl_flag c)
}.

Lemma free_unset c j :
  flag_ok c -> free_slot fw_rmw (fl_flag c) j = true -> forall x, fl_flag c !! j = Some x -> fw_value x = false.
Proof.
  intros Hok Hf x Hx. rewrite (fo_plain _ Hok j x Hx). unfold free_slot in Hf. rewrite Hx in Hf. by apply negb_true_iff.
Qed.

Lemma plain_insert j m mo :
  (j <= length mo)%nat -> fw_value m = fw_rmw m -> (forall i x, mo !! i = Some x -> fw_value x = fw_rmw x) ->
  forall i x, insert_write j m mo !! i = Some x -> fw_value x = fw_rmw x.
Proof. intros Hj Hm Hmo i x. rewrite lookup_insert_write by done. repeat case_decide; [by intros [= <-] | apply Hmo..]. Qed.

Lemma flag_at_0 j m mo : (0 < j <= length mo)%nat -> flag_at (insert_write j m mo) 0 = flag_at mo 0.
Proof. intros Hj. unfold flag_at. rewrite lookup_insert_write by lia. repeat case_decide; done || lia. Qed.

Lemma flag_ok_step c c' : flag_ok c -> flag_step c c' -> flag_ok c'.
Proof.
  intros Hok Hs. destruct (flag_step_effect c c' (fo_seen _ Hok) Hs) as
    [l Ef Et _ _ Hn _ | t i Hi Hf Ef Et _ En | t i th _ _ Hi Hf Ef Et _ En]; split; rewrite ?Ef, ?Et, ?En; try apply Hok.
  - intros u. apply Hn.
  - intros u. rewrite length_insert_write. pose proof (fo_seen _ Hok u). pose proof (pushed_bounds (S i) (fl_seen c u)).
    case_decide; lia.
  - apply plain_insert; [lia | done | apply (fo_plain _ Hok)].
  - rewrite flag_at_0 by lia. apply Hok.
  - rewrite number_of_app, rises_insert, (fo_told _ Hok) by (lia || by apply (free_unset c)). cbn.
    destruct (flag_at (fl_flag c) i); cbn; lia.
  - rewrite number_of_insert, length_app, (fo_swaps _ Hok). cbn. lia.
  - intros u. rewrite length_insert_write. pose proof (fo_seen _ Hok u). pose proof (pushed_bounds i (fl_seen c u)).
    case_decide; lia.
  - apply plain_insert; [lia | done | apply (fo_plain _ Hok)].
  - rewrite flag_at_0 by lia. apply Hok.
  - by rewrite rises_insert, (fo_told _ Hok) by (lia || by apply (free_unset c)).
  - by rewrite number_of_insert, (fo_swaps _ Hok).
Qed.

Lemma flag_ok_start calls s w : locked_out s = false -> flag_ok (flag_start calls s w).
Proof.
  intros Hs. split; cbn; rewrite ?Hs; try done; [intros; lia |].
  by intros [| j] m; cbn; [intros [= <-] |].
Qed.

Lemma flag_ok_steps c c' : flag_ok c -> rtc flag_step c c' -> flag_ok c'.
Proof. intros Hk Hr. induction Hr as [| c c1 c2 Hs _ IH]; [done |]. apply IH. by eapply flag_ok_step. Qed.

(** ** Knowing of a lockout *)

(** Thread [t] knows a lockout that no clear follows. *)
Definition knows_lockout (t : nat) c : Prop :=
  forall j m, (fl_seen c t <= j)%nat -> fl_flag c !! j = Some m -> fw_value m = true.

(** The writes of [false]: the builder's, and the clears. *)
Definition clears c : nat := number_of (negb ∘ fw_value) (fl_flag c).

Lemma clears_grow c c' : flag_ok c -> flag_step c c' -> (clears c <= clears c')%nat.
Proof.
  intros Hok Hs. unfold clears. destruct (flag_step_effect c c' (fo_seen _ Hok) Hs) as
    [l -> _ _ _ _ _ | t i _ _ -> _ _ _ | t i th _ _ _ _ -> _ _ _]; rewrite ?number_of_insert; cbn; lia.
Qed.

Lemma clears_grow_steps c c' : flag_ok c -> rtc flag_step c c' -> (clears c <= clears c')%nat.
Proof.
  intros Hok Hr. induction Hr as [| c c1 c2 Hs _ IH]; [done |]. etrans; [by eapply clears_grow |].
  apply IH. by eapply flag_ok_step.
Qed.

Lemma knows_step t c c' :
  flag_ok c -> knows_lockout t c -> flag_step c c' -> clears c' = clears c ->
  knows_lockout t c' /\ exists l, fl_gates c' = fl_gates c ++ l /\ forall b, (t, b) ∈ l -> b = true.
Proof.
  intros Hok Hk Hs Hc. destruct (flag_step_effect c c' (fo_seen _ Hok) Hs) as
    [l Ef _ Eg _ Hn Hl | u i Hi _ Ef _ Eg En | u i th _ _ _ _ Ef _ _ _].
  - split.
    + intros j m Hj Hm. rewrite Ef in Hm. apply (Hk j m); [pose proof (Hn t); lia | done].
    + exists l. split; [done |]. intros b (n & Hb & ->)%Hl. unfold flag_at.
      destruct (lookup_lt_is_Some_2 (fl_flag c) n) as [m Hm]; [lia |]. rewrite Hm. eapply Hk, Hm. lia.
  - split; [| exists []; split; [by rewrite app_nil_r | by intros ? ?%not_elem_of_nil]].
    intros j m Hj. rewrite Ef, lookup_insert_write by lia. rewrite En in Hj. cbv beta in Hj.
    pose proof (fo_seen _ Hok t) as Hlt.
    assert (fl_seen c t <= j /\ (S i < j -> fl_seen c t <= pred j))%nat as [Hj1 Hj2].
    { unfold pushed in Hj. case_decide; subst; [lia |]. destruct (Nat.leb_spec (S i) (fl_seen c t)); lia. }
    clear Hj. repeat case_decide; [by intros [= <-] | by apply Hk | apply Hk, Hj2; lia].
  - unfold clears in Hc. rewrite Ef, number_of_insert in Hc. cbn in Hc. lia.
Qed.

Lemma knows_steps t c c' :
  flag_ok c -> knows_lockout t c -> rtc flag_step c c' -> clears c' = clears c ->
  exists l, fl_gates c' = fl_gates c ++ l /\ forall b, (t, b) ∈ l -> b = true.
Proof.
  intros Hok Hk Hr. induction Hr as [c | c c1 c2 Hs Hr IH]; intros Hc.
  { exists []. split; [by rewrite app_nil_r | by intros ? ?%not_elem_of_nil]. }
  pose proof (flag_ok_step _ _ Hok Hs) as Hok1.
  pose proof (clears_grow _ _ Hok Hs) as H1. pose proof (clears_grow_steps _ _ Hok1 Hr) as H2.
  destruct (knows_step t c c1 Hok Hk Hs) as [Hk1 (l1 & E1 & Hl1)]; [lia |].
  destruct IH as (l2 & E2 & Hl2); [done | done | lia |].
  exists (l1 ++ l2). split; [by rewrite E2, E1, app_assoc |]. intros b [?%Hl1 | ?%Hl2]%elem_of_app; done.
Qed.
End weak.

(** ** Properties *)

(** C22: The vault-wide lockout under release/acquire memory.  However the
    points of any number of reports and clears interleave, and whichever of
    the writes the memory model allows the exchanges, stores and loads see
    or precede: as many reports tell the monitor [lockout_triggered] as the
    flag goes from unset to set in its history, so at least one if any
    report reached the threshold, and never more than there were clears,
    the vault's creation included.  And a thread that knows of a lockout, by
    having set the flag, seen it set, or synchronized with a thread that
    did, is refused at every [is_locked_out] until some clear stores. *)
Theorem lockout_told_once {W C} `{Clock W C} (config : VaultConfig) (monitor : dyn_monitor W) (clock : C)
    calls s w c :
  locked_out s = false ->
  rtc (flag_step config monitor clock) (flag_start calls s w) c ->
  number_of id (fl_told c) = lockouts (fl_flag c) /\
  (fl_told c <> [] -> 1 <= number_of id (fl_told c))%nat /\
  (number_of id (fl_told c) <= clears c)%nat /\
  (forall t c', knows_lockout t c -> rtc (flag_step config monitor clock) c c' -> clears c' = clears c ->
     exists l, fl_gates c' = fl_gates c ++ l /\ forall b, (t, b) ∈ l -> b = true).
Proof.
  intros Hs Hr. assert (flag_ok c) as Hok by (eapply flag_ok_steps, Hr; by apply flag_ok_start).
  rewrite (fo_told _ Hok). split_and!; [done | | | by intros; eapply knows_steps].
  - intros Ht. apply rises_set; [| done]. rewrite <- (fo_swaps _ Hok). by destruct (fl_told c).
  - apply lockouts_cleared, Hok.
Qed.

(** Schedules: a call's step, or a gate, of thread [t] at position [i]. *)
Section schedules.
Context {W C : Type} `{Clock W C}.
Context (config : VaultConfig) (monitor : dyn_monitor W) (clock : C).
Implicit Types c : flag_process (W := W).

Inductive flag_move := Move (t i : nat) | Ask (t i : nat).

Definition run_flag (schedule : list flag_move) c : flag_process :=
  foldl (fun c m => match m with
                    | Move t i => default c (flag_next config monitor clock t i c)
                    | Ask t i => default c (flag_gate t i c)
                    end) c schedule.

Lemma run_flag_reachable schedule c : rtc (flag_step config monitor clock) c (run_flag schedule c).
Proof.
  revert c. induction schedule as [| m schedule IH]; intros c; [done |]. cbn [run_flag foldl].
  destruct m as [t i | t i].
  - destruct (flag_next config monitor clock t i c) as [c1 |] eqn:E; [| apply IH].
    eapply rtc_l; [by eapply FlRun | apply IH].
  - destruct (flag_gate t i c) as [c1 |] eqn:E; [| apply IH]. eapply rtc_l; [by eapply FlGate | apply IH].
Qed.
End schedules.

(** Two reports reach the threshold, before and after a clear; the clear's
    thread has heard of the first, the second report of nothing. *)
Definition strict_config : VaultConfig := {|
  key_normalization := false; keyed_normalization := false;
  max_failures_before_lockout := 1; failure_window := 60;
  key_lockout_threshold := 0; key_lockout_window := 50; key_lockout_duration := None;
  master_backoff_base := 0; master_backoff_max := 0; page_protection := false
|}.
Definition run_strict := run_flag strict_config Tape.monitor Tape.clock.
Definition two_reports : flag_process :=
  flag_start [CallReport "a" None false; CallReport "b" None false; CallClear] lock_init (Tape.start 0 [] []).

(** The first report sets the flag; the clear comes after it, the second
    report's exchange in between the two, so it finds the flag set. *)
Definition first_set : flag_process := run_strict (replicate 4 (Move 0 0)) two_reports.
Definition second_too : flag_process := run_strict (replicate 3 (Move 1 1) ++ [Move 2 2; Move 1 1]) first_set.

Lemma lockout_told_once_witness :
  fl_told second_too = [true; false] /\ lt_at <$> lp_threads (fl_rest second_too) !! 2%nat = Some CLock /\
  fw_value <$> fl_flag second_too = [false; true; true; false] /\
  fl_gates (run_strict [Ask 0 1; Ask 3 0; Ask 0 1] first_set) = [(0, true); (3, false); (0, true)]%nat /\
  number_of id (fl_told second_too) = lockouts (fl_flag second_too) /\
  forall b, (0%nat, b) ∈ [(0, true); (3, false); (0, true)]%nat -> b = true.
Proof.
  split; [vm_compute; reflexivity |]. split; [vm_compute; reflexivity |]. split; [vm_compute; reflexivity |].
  split; [vm_compute; reflexivity |].
  destruct (lockout_told_once strict_config Tape.monitor Tape.clock
    [CallReport "a" None false; CallReport "b" None false; CallClear] lock_init (Tape.start 0 [] []) second_too)
    as [Hn _]; [reflexivity | |].
  { trans first_set; apply run_flag_reachable. }
  destruct (lockout_told_once strict_config Tape.monitor Tape.clock
    [CallReport "a" None false; CallReport "b" None false; CallClear] lock_init (Tape.start 0 [] []) first_set)
    as (_ & _ & _ & Hk); [reflexivity | apply run_flag_reachable |].
  split; [exact Hn |].
  destruct (Hk 0%nat (run_strict [Ask 0 1; Ask 3 0; Ask 0 1] first_set)) as (l & E & Hl).
  - intros j m Hj Hm. vm_compute in Hj. destruct j as [| [| j]]; [lia | | by vm_compute in Hm].
    vm_compute in Hm. by injection Hm as <-.
  - apply run_flag_reachable.
  - vm_compute. reflexivity.
  - vm_compute in E. subst l. exact Hl.
Defined.
