(* ===== verification/Process.v ===== *)
(** * The whole process ([vault/mod.rs])

    Every call of a shared [KeyVault] in one process: threads that register,
    unregister, rotate and use keys ([Concurrent]), threads that try the
    master credential ([MasterUnlock]), and threads that report failures,
    query and clear lockouts ([LockoutThreads]).  Where the first two call
    [key_locked], [clear_lockout] or [handle_failure] they run those calls
    access by access too, so that one state and three mutexes (the writer
    lock, the backoff's, the map of locked names') meet.  Seen through
    [vault_view] it is an execution of [Concurrent], through [unlock_view]
    one of [MasterUnlock]; [locks_view] is what the lockout state sees. *)

From S2P Require Import Prelude Errors Rust Rng RawKey Normalize Codex Fragment Standard Layouts.
From S2P Require Import Os Guarded Handle Events Config Lockout.
From S2P Require Import VaultState Vault VaultFrame VaultPipeline VaultRead VaultRegistry.
From S2P Require Import Concurrent MasterUnlock LockoutThreads.
From stdpp Require Import relations.
#[local] Open Scope Z_scope.

(** ** Threads *)

(** A caller, and where it is inside [key_locked]. *)
Record caller (T : Type) := { main : thread (T := T); asking : option lockout_point }.
Arguments main {T}.
Arguments asking {T}.

(** A guesser, and where it is inside [clear_lockout] or [handle_failure]. *)
Record unlocker := { tries : guesser; settling : option lockout_point }.

Record vault_process (W T : Type) := {
  state : VaultState W;
  writer_lock : option nat;      (* [writer]: the caller that holds it *)
  backoff_lock : option nat;     (* [master_backoff]: the guesser that holds it *)
  map_lock : option nat;         (* [key_locks]: the holder, as [locks_view] numbers threads *)
  callers : list (caller T);
  unlockers : list unlocker;
  reporters : list lockout_thread
}.
Arguments state {W T}.
Arguments writer_lock {W T}.
Arguments backoff_lock {W T}.
Arguments map_lock {W T}.
Arguments callers {W T}.
Arguments unlockers {W T}.
Arguments reporters {W T}.

Section process.
Context {W T : Type} `{Rng W} `{Os W} `{Blake3} `{StdTime W} `{PageRefs W} `{Threads W}.
Context (self : VaultInner W).
Implicit Types (s : VaultState W) (c : vault_process W T).

(** A step of a lockout call on the vault's state. *)
Definition lockout_on (id : nat) (call : lockout_call) (q : lockout_point) (holder : option nat) s
    : option (lockout_point * option nat * VaultState W) :=
  match lockout_step (config self) (monitor self) (clock self) id call q holder (lock s) (world s) with
  | Some (q, holder, l, w) => Some (q, holder, set_world w (set_lock l s))
  | None => None
  end.

(** Where a caller goes on with the answer of [key_locked(&entry.name)]. *)
Definition after_query (call : vault_call T) (entry : KeyEntry) (locked : bool) : pc T :=
  if locked then refused else
  match call with CallRotate _ _ => AtFragment | _ => AtFill entry end.

(** What follows the verdict on a master credential, and its result. *)
Definition settle_call (matched : bool) : lockout_call :=
  if matched then CallClear else CallReport MASTER_NAME (Some "invalid master credential") false.
Definition settle_result (matched : bool) : outcome unit := if matched then Ok tt else Err master_mismatch.

Definition caller_at (th : caller T) (p : pc T) (l : Scratch) (q : option lockout_point) : caller T :=
  {| main := {| the_call := the_call (main th); at_ := p; local := l |}; asking := q |}.
Definition unlocker_at (u : unlocker) (p : unlock_point) (q : option lockout_point) : unlocker :=
  {| tries := {| the_attempt := the_attempt (tries u); stands := p |}; settling := q |}.

Definition put_caller (t : nat) (th : caller T) (writer map : option nat) s c : vault_process W T :=
  {| state := s; writer_lock := writer; backoff_lock := backoff_lock c; map_lock := map;
     callers := <[t := th]> (callers c); unlockers := unlockers c; reporters := reporters c |}.
Definition put_unlocker (t : nat) (u : unlocker) (backoff map : option nat) s c : vault_process W T :=
  {| state := s; writer_lock := writer_lock c; backoff_lock := backoff; map_lock := map;
     callers := callers c; unlockers := <[t := u]> (unlockers c); reporters := reporters c |}.
Definition put_reporter (t : nat) (r : lockout_thread) (map : option nat) s c : vault_process W T :=
  {| state := s; writer_lock := writer_lock c; backoff_lock := backoff_lock c; map_lock := map;
     callers := callers c; unlockers := unlockers c; reporters := <[t := r]> (reporters c) |}.
Definition put_state s c : vault_process W T :=
  {| state := s; writer_lock := writer_lock c; backoff_lock := backoff_lock c; map_lock := map_lock c;
     callers := callers c; unlockers := unlockers c; reporters := reporters c |}.

(** ** Steps *)

(** Inside [key_locked(&entry.name)], called from [AtKeyLock entry]. *)
Definition query_caller (t : nat) (th : caller T) (entry : KeyEntry) (q : lockout_point) c
    : option (vault_process W T) :=
  match q with
  | LDone locked =>
      Some (put_caller t (caller_at th (after_query (the_call (main th)) entry locked) (local (main th)) None)
              (writer_lock c) (map_lock c) (state c) c)
  | _ =>
      match lockout_on t (CallQuery (entry_name entry)) q (map_lock c) (state c) with
      | Some (q, map, s) =>
          Some (put_caller t (caller_at th (at_ (main th)) (local (main th)) (Some q)) (writer_lock c) map s c)
      | None => None
      end
  end.

(** The entry whose name a caller is about to ask [key_locked] for. *)
Definition asks (call : vault_call T) (p : pc T) : option KeyEntry :=
  match call, p with (CallRotate _ _ | CallWithKey _ _), AtKeyLock entry => Some entry | _, _ => None end.

Definition step_caller (t : nat) c : option (vault_process W T) :=
  match callers c !! t with
  | None => None
  | Some th =>
      match asks (the_call (main th)) (at_ (main th)), asking th with
      | Some entry, Some q => query_caller t th entry q c
      | Some _, None =>
          Some (put_caller t (caller_at th (at_ (main th)) (local (main th)) (Some QLoad))
                  (writer_lock c) (map_lock c) (state c) c)
      | None, _ =>
          match thread_step self t (writer_lock c) (the_call (main th)) (at_ (main th))
                  (set_scratch (local (main th)) (state c)) with
          | Some (p, writer, s) =>
              Some (put_caller t (caller_at th p (scratch s) None) writer (map_lock c)
                      (set_scratch scratch_init s) c)
          | None => None
          end
      end
  end.

(** Inside [clear_lockout] or [handle_failure], called from [USettle matched]. *)
Definition settle_unlocker (t : nat) (u : unlocker) (matched : bool) (q : lockout_point) c
    : option (vault_process W T) :=
  match q with
  | LDone _ =>
      Some (put_unlocker t (unlocker_at u (UReturned (settle_result matched)) None)
              (backoff_lock c) (map_lock c) (state c) c)
  | _ =>
      match lockout_on (length (callers c) + t) (settle_call matched) q (map_lock c) (state c) with
      | Some (q, map, s) =>
          Some (put_unlocker t (unlocker_at u (stands (tries u)) (Some q)) (backoff_lock c) map s c)
      | None => None
      end
  end.

Definition step_unlocker (t : nat) c : option (vault_process W T) :=
  match unlockers c !! t with
  | None => None
  | Some u =>
      match stands (tries u), settling u with
      | USettle matched, Some q => settle_unlocker t u matched q c
      | USettle matched, None =>
          Some (put_unlocker t (unlocker_at u (stands (tries u)) (Some (lockout_entry (settle_call matched))))
                  (backoff_lock c) (map_lock c) (state c) c)
      | p, _ =>
          match unlock_step self t (the_attempt (tries u)) p (backoff_lock c) (state c) with
          | Some (p, backoff, s) => Some (put_unlocker t (unlocker_at u p None) backoff (map_lock c) s c)
          | None => None
          end
      end
  end.

Definition step_reporter (t : nat) c : option (vault_process W T) :=
  match reporters c !! t with
  | None => None
  | Some r =>
      match lockout_on (length (callers c) + length (unlockers c) + t) (lt_call r) (lt_at r) (map_lock c) (state c) with
      | Some (q, map, s) => Some (put_reporter t {| lt_call := lt_call r; lt_at := q |} map s c)
      | None => None
      end
  end.

(** The process as [Concurrent] sees it. *)
Definition vault_view c : process :=
  {| shared := state c; writer := writer_lock c; threads := main <$> callers c |}.

(** What other vaults and the outside world do meanwhile. *)
Record elsewhere s s' : Prop := {
  el_others : others s s';
  el_lock : lock s' = lock s;
  el_backoff : backoff s' = backoff s
}.

(** The handle counter has not run out. *)
Inductive vault_process_step c : vault_process W T -> Prop :=
| ByCaller t c' : next_id (state c) < u64_max -> step_caller t c = Some c' -> vault_process_step c c'
| ByUnlocker t c' : step_unlocker t c = Some c' -> vault_process_step c c'
| ByReporter t c' : step_reporter t c = Some c' -> vault_process_step c c'
| ByElsewhere s : elsewhere (state c) s -> vault_process_step c (put_state s c)
| ByDrop id r :
    table (regions (state c)) !! id = Some r ->
    ~ referenced self (vault_view c) id ->
    vault_process_step c (put_state (drop_region id r (state c)) c).

Definition start_process (calls : list (vault_call T)) (attempts : list (list byte))
    (reports : list lockout_call) s : vault_process W T :=
  {| state := s; writer_lock := None; backoff_lock := None; map_lock := None;
     callers := (fun call => {| main := start_thread call; asking := None |}) <$> calls;
     unlockers := (fun a => {| tries := {| the_attempt := a; stands := UEnter |}; settling := None |}) <$> attempts;
     reporters := (fun call => {| lt_call := call; lt_at := lockout_entry call |}) <$> reports |}.

(** Who moves next. *)
Inductive turn := Caller (t : nat) | Unlocker (t : nat) | Reporter (t : nat).

Definition run_turn (who : turn) c : option (vault_process W T) :=
  match who with Caller t => step_caller t c | Unlocker t => step_unlocker t c | Reporter t => step_reporter t c end.

Fixpoint run_turns (schedule : list turn) c : vault_process W T :=
  match schedule with
  | [] => c
  | who :: schedule => run_turns schedule (default c (run_turn who c))
  end.
(** ** The cases of a step *)

Inductive caller_step (t : nat) c (th : caller T) : vault_process W T -> Prop :=
| CallerMoves p writer s :
    asks (the_call (main th)) (at_ (main th)) = None ->
    thread_step self t (writer_lock c) (the_call (main th)) (at_ (main th))
      (set_scratch (local (main th)) (state c)) = Some (p, writer, s) ->
    caller_step t c th (put_caller t (caller_at th p (scratch s) None) writer (map_lock c)
                          (set_scratch scratch_init s) c)
| CallerAsks entry :
    asks (the_call (main th)) (at_ (main th)) = Some entry -> asking th = None ->
    caller_step t c th (put_caller t (caller_at th (at_ (main th)) (local (main th)) (Some QLoad))
                          (writer_lock c) (map_lock c) (state c) c)
| CallerQueries entry q q' map s :
    asks (the_call (main th)) (at_ (main th)) = Some entry -> asking th = Some q ->
    lockout_on t (CallQuery (entry_name entry)) q (map_lock c) (state c) = Some (q', map, s) ->
    caller_step t c th (put_caller t (caller_at th (at_ (main th)) (local (main th)) (Some q'))
                          (writer_lock c) map s c)
| CallerAnswered entry locked :
    asks (the_call (main th)) (at_ (main th)) = Some entry -> asking th = Some (LDone locked) ->
    caller_step t c th (put_caller t (caller_at th (after_query (the_call (main th)) entry locked)
                          (local (main th)) None) (writer_lock c) (map_lock c) (state c) c).

Lemma step_caller_cases t c c' :
  step_caller t c = Some c' -> exists th, callers c !! t = Some th /\ caller_step t c th c'.
Proof.
  unfold step_caller. destruct (callers c !! t) as [th |]; [| done]. intros E. exists th. split; [done |].
  destruct (asks _ _) as [entry |] eqn:Ea.
  - destruct (asking th) as [q |] eqn:Eq; [| injection E as <-; by eapply CallerAsks].
    unfold query_caller in E.
    assert (forall o, o = lockout_on t (CallQuery (entry_name entry)) q (map_lock c) (state c) ->
      match o with Some (q, map, s) => Some (put_caller t (caller_at th (at_ (main th)) (local (main th)) (Some q))
        (writer_lock c) map s c) | None => None end = Some c' -> caller_step t c th c') as Hq.
    { intros [[[q' map] s] |] Eo; [| done]. intros [= <-]. by eapply CallerQueries. }
    destruct q; try (by eapply Hq). injection E as <-. by eapply CallerAnswered.
  - destruct (thread_step _ _ _ _ _ _) as [[[p writer] s] |] eqn:Es; [| done]. injection E as <-.
    by eapply CallerMoves.
Qed.

Inductive unlocker_step (t : nat) c (u : unlocker) : vault_process W T -> Prop :=
| UnlockerMoves p backoff s :
    (forall matched, stands (tries u) <> USettle matched) ->
    unlock_step self t (the_attempt (tries u)) (stands (tries u)) (backoff_lock c) (state c) = Some (p, backoff, s) ->
    unlocker_step t c u (put_unlocker t (unlocker_at u p None) backoff (map_lock c) s c)
| UnlockerSettles matched :
    stands (tries u) = USettle matched -> settling u = None ->
    unlocker_step t c u (put_unlocker t (unlocker_at u (stands (tries u)) (Some (lockout_entry (settle_call matched))))
                           (backoff_lock c) (map_lock c) (state c) c)
| UnlockerInCall matched q q' map s :
    stands (tries u) = USettle matched -> settling u = Some q ->
    lockout_on (length (callers c) + t) (settle_call matched) q (map_lock c) (state c) = Some (q', map, s) ->
    unlocker_step t c u (put_unlocker t (unlocker_at u (stands (tries u)) (Some q')) (backoff_lock c) map s c)
| UnlockerSettled matched b :
    stands (tries u) = USettle matched -> settling u = Some (LDone b) ->
    unlocker_step t c u (put_unlocker t (unlocker_at u (UReturned (settle_result matched)) None)
                           (backoff_lock c) (map_lock c) (state c) c).

Lemma step_unlocker_cases t c c' :
  step_unlocker t c = Some c' -> exists u, unlockers c !! t = Some u /\ unlocker_step t c u c'.
Proof.
  unfold step_unlocker. destruct (unlockers c !! t) as [u |]; [| done]. intros E. exists u. split; [done |]. revert E.
  assert (forall p, p = stands (tries u) -> (forall matched, p <> USettle matched) ->
    match unlock_step self t (the_attempt (tries u)) p (backoff_lock c) (state c) with
    | Some (p, backoff, s) => Some (put_unlocker t (unlocker_at u p None) backoff (map_lock c) s c)
    | None => None end = Some c' -> unlocker_step t c u c') as Hmove.
  { intros p -> Hp. destruct (unlock_step _ _ _ _ _ _) as [[[p' b] s] |] eqn:Es; [| done]. intros [= <-].
    by eapply UnlockerMoves. }
  destruct (stands (tries u)) as [| | | | | | | | matched |] eqn:Ep; try (by apply (Hmove _ eq_refl)).
  destruct (settling u) as [q |] eqn:Eq; [| intros [= <-]; rewrite <- Ep; by eapply UnlockerSettles].
  unfold settle_unlocker. rewrite Ep.
  assert (forall o, o = lockout_on (length (callers c) + t) (settle_call matched) q (map_lock c) (state c) ->
    match o with Some (q, map, s) => Some (put_unlocker t (unlocker_at u (stands (tries u)) (Some q))
      (backoff_lock c) map s c) | None => None end = Some c' -> unlocker_step t c u c') as Hq.
  { intros [[[q' map] s] |] Eo; [| done]. intros [= <-]. by eapply UnlockerInCall. }
  rewrite Ep in Hq. destruct q; try (by eapply Hq). intros [= <-]. by eapply UnlockerSettled.
Qed.

Lemma step_reporter_cases t c c' :
  step_reporter t c = Some c' -> exists r q map s, reporters c !! t = Some r /\
    lockout_on (length (callers c) + length (unlockers c) + t) (lt_call r) (lt_at r) (map_lock c) (state c) =
      Some (q, map, s) /\
    c' = put_reporter t {| lt_call := lt_call r; lt_at := q |} map s c.
Proof.
  unfold step_reporter. destruct (reporters c !! t) as [r |]; [| done].
  destruct (lockout_on _ _ _ _ _) as [[[q map] s] |] eqn:E; [| done]. intros [= <-]. by eexists _, _, _, _.
Qed.

(** ** As [Concurrent] sees it *)

Lemma lockout_on_lock id call q holder s q' holder' s' :
  lockout_on id call q holder s = Some (q', holder', s') -> exists l w, s' = set_world w (set_lock l s).
Proof.
  unfold lockout_on. destruct (lockout_step _ _ _ _ _ _ _ _ _) as [[[[? ?] l] w] |]; [| done].
  intros [= <- <- <-]. by exists l, w.
Qed.

Lemma others_lock l w s : others s (set_world w (set_lock l s)).
Proof. by split. Qed.

(** The other mutexes' steps leave the callers as they are. *)
Lemma view_others c c' s :
  others (state c) s -> state c' = s -> writer_lock c' = writer_lock c -> main <$> callers c' = main <$> callers c ->
  rtc (process_step self) (vault_view c) (vault_view c').
Proof. intros Ho <- Ew Em. apply rtc_once. unfold vault_view. rewrite Ew, Em. by apply (StepOthers self (vault_view c)). Qed.

Lemma caller_same (l : list (caller T)) t th q :
  l !! t = Some th ->
  main <$> <[t := caller_at th (at_ (main th)) (local (main th)) q]> l = main <$> l.
Proof.
  intros Ht. rewrite list_fmap_insert. apply list_insert_id. rewrite list_lookup_fmap, Ht. by destruct th as [[] ].
Qed.

(** A lockout state in which [key_locked name] answers [locked]. *)
Definition answering (name : string) (locked : bool) : LockState :=
  if locked then with_locks {[name := None]} 1 lock_init else lock_init.

Lemma key_locked_answering name locked w :
  key_locked (clock self) name (answering name locked) w = (locked, answering name locked, w).
Proof. destruct locked; cbn; [| done]. unfold key_locked_slow. cbn. by rewrite lookup_singleton_eq. Qed.

(** The atomic query of [Concurrent], answered as the caller was. *)
Lemma answered_move (call : vault_call T) p entry locked s t writer :
  asks call p = Some entry ->
  thread_step self t writer call p (set_lock (answering (entry_name entry) locked) s) =
    Some (after_query call entry locked, writer, set_lock (answering (entry_name entry) locked) s).
Proof.
  intros Ha. destruct call, p; try done; injection Ha as ->; cbn [thread_step move rotate_move with_key_move];
    unfold act, name_locked, on_lock; cbn [lock world set_lock]; rewrite key_locked_answering; by destruct s.
Qed.

Lemma step_caller_view t c c' :
  scratch (state c) = scratch_init -> next_id (state c) < u64_max -> step_caller t c = Some c' ->
  rtc (process_step self) (vault_view c) (vault_view c') /\ scratch (state c') = scratch_init.
Proof.
  intros Hsc Hn (th & Ht & Hs)%step_caller_cases.
  assert (threads (vault_view c) !! t = Some (main th)) as Hm by (cbn; by rewrite list_lookup_fmap, Ht).
  destruct Hs as [p wr s _ Hs | entry _ _ | entry q q' map s _ _ Hs | entry locked Ha _].
  - split; [| done]. apply rtc_once, (StepThread self (vault_view c) t); [done |].
    unfold run_thread. rewrite Hm. cbn [vault_view writer shared]. rewrite Hs. unfold vault_view. cbn.
    by rewrite list_fmap_insert.
  - split; [| done]. eapply view_others; [apply (others_lock (lock (state c)) (world (state c))) | | done |].
    + by destruct (state c).
    + by apply caller_same.
  - apply lockout_on_lock in Hs as (l & w & ->). split; [| done].
    eapply view_others; [apply others_lock | done | done |]. by apply caller_same.
  - split; [| done]. set (s1 := set_lock (answering (entry_name entry) locked) (state c)).
    set (th' := caller_at th (after_query (the_call (main th)) entry locked) (local (main th)) None).
    eapply rtc_l; [apply (StepOthers self (vault_view c) s1), (others_lock _ (world (state c))) |].
    eapply rtc_l.
    { eapply StepThread with (t := t); [done |]. unfold run_thread. cbn [threads writer shared vault_view]. cbn in Hm.
      rewrite Hm. change (set_scratch (local (main th)) s1) with
        (set_lock (answering (entry_name entry) locked) (set_scratch (local (main th)) (state c))).
      by rewrite (answered_move _ _ entry). }
    eapply rtc_l; [eapply StepOthers with (s' := state c) |].
    + destruct (state c); cbn in *; subst. by split.
    + cbn. unfold vault_view. cbn. by rewrite list_fmap_insert.
Qed.

(** Opening, reading and closing a secret, whatever state its region is in. *)
Lemma fragments_open_le frags rs (w : W) : regions_le rs (snd (fragments_open frags (rs, w))).1.
Proof.
  unfold fragments_open. destruct (store_region _) as [id |]; [| done]. cbn [fst snd].
  destruct (table rs !! id) as [r |]; [| done].
  destruct (open r w) as [[r' | e | |] w']; cbn; [apply insert_region_le | done..].
Qed.

Lemma fragments_close_le frags rs (w : W) : regions_le rs (fragments_close frags (rs, w)).1.
Proof.
  unfold fragments_close. destruct (store_region _) as [id |]; [| done]. cbn [fst snd].
  destruct (table rs !! id) as [r |]; [| done]. destruct (close r w) as [r' w']. apply insert_region_le.
Qed.

Lemma secret_read_le {A} secret (f : list byte -> A) rs (w : W) :
  regions_le rs (snd (secret_read secret f (rs, w))).1.
Proof.
  unfold secret_read, bind, finally, gets. pose proof (fragments_open_le (secret_fragments secret) rs w) as Ho.
  destruct (fragments_open _ _) as [[[] | e | |] [rs1 w1]]; [| done..]. cbn [snd fst] in *.
  etrans; [exact Ho | apply fragments_close_le].
Qed.

Lemma secret_read_ok {A} secret (f : list byte -> A) rs (w : W) :
  regions_ok rs -> regions_ok (snd (secret_read secret f (rs, w))).1.
Proof.
  intros Hok. assert (region_present rs (secret_fragments secret) \/
    snd (secret_read secret f (rs, w)) = (rs, w)) as [Hp | ->]; [| | done].
  - unfold region_present, secret_read, bind, fragments_open.
    destruct (store_region _) as [id |]; [| by left]. cbn [fst snd].
    destruct (table rs !! id) as [r |] eqn:Er; [left | by right]. intros id' [= <-]. by rewrite Er.
  - pose proof (secret_read_spec secret f rs w Hok Hp) as Hs.
    destruct (secret_read secret f (rs, w)) as [[x | e | |] [rs' w']]; [tauto | | done..].
    by destruct Hs as (_ & -> & _).
Qed.

Lemma on_regions_others {A} (m : M (Regions * W) A) s :
  regions_le (regions s) (snd (m (regions s, world s))).1 ->
  (regions_ok (regions s) -> regions_ok (snd (m (regions s, world s))).1) ->
  others s (snd (on_regions m s)).
Proof.
  intros Hle Hok. unfold on_regions, zoom. destruct (m (regions s, world s)) as [o [rs' w']]. by split.
Qed.

Lemma emit_audit_world name kind note s : exists w, snd (emit_audit self name kind note s) = set_world w s.
Proof.
  unfold emit_audit. destruct (is_no_op (audit self)); [exists (world s); by destruct s |].
  unfold clock_unix, on_world, zoom, ask, bind. destruct (unix_time (clock self) (world s)). by eexists.
Qed.

Lemma unlock_step_others t attempt p owner s p' owner' s' :
  (forall matched, p <> USettle matched) ->
  unlock_step self t attempt p owner s = Some (p', owner', s') ->
  others s s' /\ scratch s' = scratch s /\ lock s' = lock s.
Proof.
  intros Hp E. assert (others s s /\ scratch s = scratch s /\ lock s = lock s) as Hsame by (by split_and!; [split |..]).
  destruct p; cbn [unlock_step] in E; try done; try (by injection E as <- <- <-).
  - by destruct (decide (owner = None)); [injection E as <- <- <- |].
  - destruct (clock_now_ok self s) as (now & w & En). rewrite En in E. by injection E as <- <- <-.
  - pose proof (on_regions_others (A := bool)) as Ho. unfold compare in E.
    destruct m as [secret | reason]; [| by injection E as <- <- <-].
    specialize (Ho (secret_read secret (verify_master attempt)) s (secret_read_le _ _ _ _) (secret_read_ok _ _ _ _)).
    destruct (on_regions _ s) as [o s1] eqn:E1. injection E as <- <- <-. split; [done |].
    unfold on_regions, zoom in E1. destruct (secret_read _ _ _) as [o' [rs' w']]. by injection E1 as <- <-.
  - destruct (emit_audit_world MASTER_NAME (MasterUnlockAttempt matched) EmptyString s) as [w Ew].
    destruct (emit_audit _ _ _ _ _) as [[[] | e | |] s1]; cbn in Ew; subst; by injection E as <- <- <-.
  - by destruct (Hp matched).
Qed.

Lemma step_unlocker_view t c c' :
  step_unlocker t c = Some c' ->
  rtc (process_step self) (vault_view c) (vault_view c') /\ scratch (state c') = scratch (state c).
Proof.
  intros (u & Hu & Hs)%step_unlocker_cases.
  assert (others (state c) (state c') /\ scratch (state c') = scratch (state c) ->
    vault_view c' = {| shared := state c'; writer := writer_lock c; threads := main <$> callers c |} ->
    rtc (process_step self) (vault_view c) (vault_view c') /\ scratch (state c') = scratch (state c)) as Hv.
  { intros [Ho Hsc] E. split; [| done]. rewrite E. by apply rtc_once, (StepOthers self (vault_view c)). }
  assert (forall s, others s s) as Hrefl by by split.
  destruct Hs as [p b s Hp Hs | matched Hp _ | matched q q' map s Hp _ Hs | matched b Hp _]; apply Hv; try done.
  - by destruct (unlock_step_others _ _ _ _ _ _ _ _ Hp Hs) as (? & ? & _).
  - apply lockout_on_lock in Hs as (l & w & ->). split; [apply others_lock | done].
Qed.

Lemma step_reporter_view t c c' :
  step_reporter t c = Some c' ->
  rtc (process_step self) (vault_view c) (vault_view c') /\ scratch (state c') = scratch (state c).
Proof.
  intros (r & q & map & s & _ & E & ->)%step_reporter_cases.
  apply lockout_on_lock in E as (l & w & ->). split; [| done].
  eapply view_others; [apply others_lock | done..].
Qed.

Lemma vault_view_step c c' :
  scratch (state c) = scratch_init -> vault_process_step c c' ->
  rtc (process_step self) (vault_view c) (vault_view c') /\ scratch (state c') = scratch_init.
Proof.
  intros Hsc [t c1 Hn Hs | t c1 Hs | t c1 Hs | s He | id r Hr Hno].
  - by eapply step_caller_view.
  - rewrite <- Hsc. by eapply step_unlocker_view.
  - rewrite <- Hsc. by eapply step_reporter_view.
  - split; [eapply view_others; [apply (el_others _ _ He) | done..] |].
    cbn. by rewrite (ot_scratch _ _ (el_others _ _ He)).
  - split; [by apply rtc_once, (StepDrop self (vault_view c)) |].
    cbn. unfold drop_region. by destruct (region_drop r (world (state c))).
Qed.

Lemma vault_view_steps c c' :
  scratch (state c) = scratch_init -> rtc vault_process_step c c' ->
  rtc (process_step self) (vault_view c) (vault_view c') /\ scratch (state c') = scratch_init.
Proof.
  intros Hsc Hr. induction Hr as [c | c c1 c2 Hs _ IH]; [done |].
  destruct (vault_view_step c c1 Hsc Hs) as [Hv Hsc1]. destruct (IH Hsc1) as [Hv2 ?].
  split; [by etrans | done].
Qed.

(** ** As [MasterUnlock] sees it *)

Definition unlock_view (gs : list (Z * bool)) c : unlock_process :=
  {| vault_state := state c; holder := backoff_lock c; guessers := tries <$> unlockers c; guesses := gs |}.

(** What the callers' own steps leave alone, but for the two that take a
    handle and swap the registry. *)
Definition gates s : LockState * Backoff * gmap Z KeyEntry * Z := (lock s, backoff s, keys s, next_id s).

Definition writes (p : pc T) : bool := match p with AtAllocate _ | AtSwap _ _ _ => true | _ => false end.

Lemma gates_codex_apply cx key : quiet gates (codex_apply cx key).
Proof. unfold codex_apply. repeat hush. Qed.

Lemma gates_zoom_world {A} (m : M W A) : quiet gates (on_world m).
Proof. by apply quiet_zoom. Qed.
Lemma gates_zoom_regions {A} (m : M (Regions * W) A) : quiet gates (on_regions m).
Proof. by apply quiet_zoom. Qed.
Lemma gates_zoom_scratch {A} total (m : M (list byte) A) : quiet gates (on_scratch (W := W) total m).
Proof. by apply quiet_zoom. Qed.
Lemma gates_tell (f : W -> W) : quiet gates (tell f).
Proof. done. Qed.
#[local] Hint Resolve gates_codex_apply gates_zoom_world gates_zoom_regions gates_zoom_scratch gates_tell : kv.

Lemma gates_for_registry key : quiet gates (fragment_for_registry self key).
Proof.
  unfold fragment_for_registry, fragment_pipeline, normalize_key, transform.
  hush; [| hush; [apply gates_zoom_regions | done]]. hush; [| hush; [hush; hush | hush]].
  hush; [done.. | | done]. hush; [apply gates_zoom_regions | done].
Qed.

Lemma gates_ensure_len len : quiet gates (ensure_len (W := W) len).
Proof.
  unfold ensure_len. hush; [done |]. hush; [done |]. hush; [hush |]. hush; [apply gates_zoom_world |].
  hush; [hush; [done |]; hush; [apply gates_zoom_world | done] |]. hush; [| done].
  unfold scratch_release. repeat (hush; try done).
Qed.

Lemma gates_reassemble frags total : quiet gates (reassemble self frags total).
Proof.
  assert (quiet gates (read_fragments self frags total)) as Hr
    by (intros s; unfold read_fragments; case_test; [apply gates_zoom_scratch | done]).
  unfold reassemble, read_opened. hush; [| destruct (codex self); [apply gates_zoom_scratch | done]].
  hush; [| done]. hush; [apply gates_zoom_regions |]. hush; [done |].
  intros s. unfold close_access. by destruct (fragments_close _ _).
Qed.

Lemma gates_read_fill frags : quiet gates (read_fill self frags).
Proof.
  intros s. unfold read_fill. destruct (borrowed (scratch s)); [done |].
  pose proof (gates_ensure_len (total_len frags) (set_borrowed true s)) as He.
  destruct (ensure_len _ _) as [[[] | e | |] s1]; [| exact He..].
  pose proof (gates_reassemble frags (total_len frags) s1) as Hr.
  destruct (reassemble _ _ _ _) as [[[] | e | |] s2]; cbn [snd] in *; by etrans; [exact Hr |].
Qed.

Lemma gates_act {A} (m : M (VaultState W) A) (k : A -> pc T) s :
  quiet gates m -> gates (act m k s).2 = gates s.
Proof. intros Hm. specialize (Hm s). unfold act. by destruct (m s) as [[] ?]. Qed.

Lemma gates_clock_unix : quiet gates (clock_unix self).
Proof. apply gates_zoom_world. Qed.

Lemma gates_emit name kind note : quiet gates (emit_audit self name kind note).
Proof. intros s. by destruct (emit_audit_world name kind note s) as [w ->]. Qed.
#[local] Hint Resolve gates_for_registry gates_read_fill gates_clock_unix gates_emit : kv.

Lemma move_gates call p s p' s' :
  asks call p = None -> writes p = false -> move self call p s = Some (p', s') -> gates s' = gates s.
Proof.
  intros Ha Hw E. assert (forall A (m : M (VaultState W) A) k, quiet gates m ->
    Some (act m k s) = Some (p', s') -> gates s' = gates s) as Hact.
  { intros A m k Hm [= E']. pose proof (gates_act m k s Hm) as Hg. by rewrite E' in Hg. }
  destruct call, p; try done; cbn [move register_move rotate_move with_key_move] in E;
    (eapply Hact; [| exact E]; eauto with kv; done) || (by injection E as <- <-).
Qed.

Lemma thread_step_gates t call p writer s p' writer' s' :
  asks call p = None -> writes p = false ->
  thread_step self t writer call p s = Some (p', writer', s') -> gates s' = gates s.
Proof.
  intros Ha Hw E. assert (match move self call p s with Some (p, s) => Some (p, writer, s) | None => None end =
    Some (p', writer', s') -> gates s' = gates s) as Hmove.
  { destruct (move self call p s) as [[p1 s1] |] eqn:Em; [| done]. intros [= -> <- ->]. by eapply move_gates. }
  destruct p; try done; cbn [thread_step] in E; try (by apply Hmove); try (by injection E as <- <- <-).
  - by destruct (decide (writer = None)); [injection E as <- <- <- |].
  - pose proof (gates_act (emit_audit self name kind EmptyString) (fun _ => Returned (Ok a)) s) as Hg.
    destruct (act _ _ s) as [p1 s1]. injection E as <- <- <-. apply Hg. apply gates_emit.
Qed.

(** The two that write. *)
Lemma allocate_step t call frags writer s p' writer' s' :
  thread_step self t writer call (AtAllocate (T := T) frags) s = Some (p', writer', s') ->
  exists n, s' = set_next_id n s /\
    (1 <= next_id s < u64_max -> n = next_id s + 1 /\ p' = AtStamp {| handle_id := next_id s |} frags).
Proof.
  intros E. destruct call; try done. cbn [thread_step move register_move] in E. unfold act, on_next_id, zoom in E.
  destruct (KeyHandle.allocate (next_id s)) as [o n] eqn:En.
  assert (s' = set_next_id n s) as -> by (destruct o; injection E as <- <- <-; done).
  exists n. split; [done |]. intros Hn. unfold u64_max in Hn.
  rewrite allocate_ok in En by lia. injection En as <- <-. injection E as <- <-.
  unfold wrap64. by rewrite Z.mod_small by lia.
Qed.

Lemma swap_step t call w new name writer s p' writer' s' :
  thread_step self t writer call (AtSwap (T := T) w new name) s = Some (p', writer', s') ->
  s' = set_keys new s /\ p' = AtRelease (AtAudit name (write_kind w) (write_answer w)).
Proof. by intros [= <- <- <-]. Qed.

Lemma step_caller_gates t c c' :
  step_caller t c = Some c' ->
  backoff (state c') = backoff (state c) /\ backoff_lock c' = backoff_lock c /\ unlockers c' = unlockers c /\
  reporters c' = reporters c.
Proof.
  intros (th & Ht & Hs)%step_caller_cases. destruct Hs as [p wr s Ha Hs | | entry q q' map s _ _ Hs |]; try done.
  - destruct (writes (at_ (main th))) eqn:Ew; [| apply thread_step_gates in Hs as [= _ E _ _]; [by split | done..]].
    destruct (at_ (main th)); try done.
    + by apply allocate_step in Hs as (n & -> & _).
    + by apply swap_step in Hs as [-> _].
  - by apply lockout_on_lock in Hs as (l & w & ->).
Qed.

Lemma settle_outcome matched s : exists s', settle self matched s = (settle_result matched, s').
Proof.
  destruct matched; [by eexists |]. unfold settle, bind, vault_handle_failure, on_lock.
  destruct (handle_failure _ _ _ _ _ _ _ _) as [l w]. by eexists.
Qed.

Lemma unlocker_same (l : list unlocker) t u q :
  l !! t = Some u -> tries <$> <[t := unlocker_at u (stands (tries u)) q]> l = tries <$> l.
Proof.
  intros Ht. rewrite list_fmap_insert. apply list_insert_id. rewrite list_lookup_fmap, Ht. by destruct u as [[] ].
Qed.

Lemma step_unlocker_tries t c c' gs :
  step_unlocker t c = Some c' ->
  exists gs', rtc (unlock_process_step self) (unlock_view gs c) (unlock_view gs' c').
Proof.
  intros (u & Ht & Hs)%step_unlocker_cases.
  assert (guessers (unlock_view gs c) !! t = Some (tries u)) as Hg by (cbn; by rewrite list_lookup_fmap, Ht).
  destruct Hs as [p b s _ Hs | matched Hp _ | matched q q' map s Hp _ Hs | matched b Hp _].
  - eexists. apply rtc_once, (StepGuesser self (unlock_view gs c) t). unfold run_guesser. rewrite Hg.
    cbn [holder vault_state unlock_view]. rewrite Hs. unfold unlock_view. cbn. by rewrite list_fmap_insert.
  - exists gs. unfold unlock_view. cbn. by rewrite unlocker_same.
  - exists gs. apply lockout_on_lock in Hs as (l & w & ->). unfold unlock_view. cbn. rewrite unlocker_same by done.
    by apply rtc_once, (StepElse self (unlock_view gs c)).
  - destruct (settle_outcome matched (state c)) as [s1 E].
    pose proof (settle_backoff self matched (state c)) as Hb. rewrite E in Hb. cbn in Hb.
    exists (gs ++ []). eapply rtc_l.
    + apply (StepGuesser self (unlock_view gs c) t). unfold run_guesser. rewrite Hg.
      cbn [holder vault_state unlock_view]. rewrite Hp. cbn [unlock_step]. rewrite E. reflexivity.
    + unfold unlock_view. cbn. rewrite list_fmap_insert.
      by apply rtc_once, (StepElse self {| vault_state := s1; holder := backoff_lock c;
        guessers := <[t := tries (unlocker_at u (UReturned (settle_result matched)) None)]> (tries <$> unlockers c);
        guesses := gs ++ [] |}).
Qed.

Lemma unlock_view_step c c' gs :
  vault_process_step c c' -> exists gs', rtc (unlock_process_step self) (unlock_view gs c) (unlock_view gs' c').
Proof.
  assert (forall c', backoff (state c') = backoff (state c) -> backoff_lock c' = backoff_lock c ->
    unlockers c' = unlockers c -> exists gs', rtc (unlock_process_step self) (unlock_view gs c) (unlock_view gs' c'))
    as Helse.
  { intros c1 Hb Hl Hu. exists gs. unfold unlock_view. rewrite Hl, Hu.
    by apply rtc_once, (StepElse self (unlock_view gs c)). }
  intros [t c1 _ Hs | t c1 Hs | t c1 Hs | s He | id r _ _].
  - apply step_caller_gates in Hs as (? & ? & ? & _). by apply Helse.
  - by eapply step_unlocker_tries.
  - apply step_reporter_cases in Hs as (r & q & map & s & _ & E & ->).
    apply lockout_on_lock in E as (l & w & ->). by apply Helse.
  - apply Helse; [apply (el_backoff _ _ He) | done..].
  - apply Helse; [| done..]. cbn. unfold drop_region. by destruct (region_drop r (world (state c))).
Qed.

Lemma unlock_view_steps c c' gs :
  rtc vault_process_step c c' -> exists gs', rtc (unlock_process_step self) (unlock_view gs c) (unlock_view gs' c').
Proof.
  intros Hr. revert gs. induction Hr as [c | c c1 c2 Hs _ IH]; intros gs; [by exists gs |].
  destruct (unlock_view_step c c1 gs Hs) as [gs1 E1]. destruct (IH gs1) as [gs2 E2]. exists gs2. by etrans.
Qed.

Lemma views_start calls attempts reports s :
  vault_view (start_process calls attempts reports s) = start calls s /\
  unlock_view [] (start_process calls attempts reports s) = start_unlocks attempts s.
Proof. split; unfold vault_view, unlock_view, start, start_unlocks; cbn; f_equal; by rewrite <- list_fmap_compose. Qed.
End process.
