(* ===== verification/ProcessLocks.v ===== *)
(** * Lockouts in the whole process

    What the lockout state sees of a [vault_process] is an execution of
    [LockoutThreads] in which threads make further calls; so its invariant
    holds of the whole process.  A key whose name is locked, and counted,
    stays closed: whoever asks for it from then on is refused. *)

From S2P Require Import Prelude Errors Rust Rng RawKey Normalize Codex Fragment Standard Layouts.
From S2P Require Import Os Guarded Handle Events Config Lockout.
From S2P Require Import VaultState Vault VaultFrame VaultPipeline VaultRead VaultRegistry VaultSpec.
From S2P Require Import Concurrent Linear Linearize ConcurrentTheorems MasterUnlock LockoutThreads LockoutSteps Process.
From stdpp Require Import relations.
#[local] Open Scope Z_scope.

Section locks.
Context {W T : Type} `{Rng W} `{Os W} `{Blake3} `{StdTime W} `{PageRefs W} `{Threads W}.
Context (self : VaultInner W).
Implicit Types (s : VaultState W) (c : vault_process W T) (v : lockout_process (W := W)).
Abbreviation run_lockout := (run_lockout_thread (config self) (monitor self) (clock self)).
Abbreviation view_step := (lock_view_step (config self) (monitor self) (clock self)).

(** ** The process as [LockoutThreads] sees it *)

(** A thread that is in none of the lockout calls. *)
Definition idle : lockout_thread := {| lt_call := CallQuery EmptyString; lt_at := LDone false |}.

Definition caller_lock (th : caller T) : lockout_thread :=
  match asks (the_call (main th)) (at_ (main th)), asking th with
  | Some entry, Some q => {| lt_call := CallQuery (entry_name entry); lt_at := q |}
  | _, _ => idle
  end.

Definition unlocker_lock (u : unlocker) : lockout_thread :=
  match stands (tries u), settling u with
  | USettle matched, Some q => {| lt_call := settle_call matched; lt_at := q |}
  | _, _ => idle
  end.

Definition locks_view c : lockout_process :=
  {| lp_state := lock (state c); lp_world := world (state c); lp_holder := map_lock c;
     lp_threads := (caller_lock <$> callers c) ++ (unlocker_lock <$> unlockers c) ++ reporters c |}.

Lemma caller_lookup c t th : callers c !! t = Some th -> lp_threads (locks_view c) !! t = Some (caller_lock th).
Proof. intros Ht. cbn. apply lookup_app_l_Some. by rewrite list_lookup_fmap, Ht. Qed.

Lemma unlocker_lookup c t u :
  unlockers c !! t = Some u -> lp_threads (locks_view c) !! (length (callers c) + t)%nat = Some (unlocker_lock u).
Proof.
  intros Ht. cbn. rewrite lookup_app_r by (rewrite length_fmap; lia). rewrite length_fmap.
  replace (_ + t - _)%nat with t by lia. apply lookup_app_l_Some. by rewrite list_lookup_fmap, Ht.
Qed.

Lemma reporter_lookup c t r :
  reporters c !! t = Some r ->
  lp_threads (locks_view c) !! (length (callers c) + length (unlockers c) + t)%nat = Some r.
Proof.
  intros Ht. cbn. rewrite lookup_app_r by (rewrite length_fmap; lia). rewrite length_fmap.
  rewrite lookup_app_r by (rewrite length_fmap; lia). rewrite length_fmap.
  by replace (_ + _ + t - _ - _)%nat with t by lia.
Qed.

(** The view of a process in which one thread moved. *)
Lemma view_caller c t th th' wr map s :
  callers c !! t = Some th ->
  locks_view (put_caller t th' wr map s c) =
    {| lp_state := lock s; lp_world := world s; lp_holder := map;
       lp_threads := <[t := caller_lock th']> (lp_threads (locks_view c)) |}.
Proof.
  intros Ht. unfold locks_view. cbn. f_equal. rewrite list_fmap_insert, insert_app_l; [done |].
  rewrite length_fmap. by eapply lookup_lt_Some.
Qed.

Lemma view_unlocker c t u u' bo map s :
  unlockers c !! t = Some u ->
  locks_view (put_unlocker t u' bo map s c) =
    {| lp_state := lock s; lp_world := world s; lp_holder := map;
       lp_threads := <[(length (callers c) + t)%nat := unlocker_lock u']> (lp_threads (locks_view c)) |}.
Proof.
  intros Ht. unfold locks_view. cbn. f_equal. rewrite <- (length_fmap caller_lock (callers c)), insert_app_r.
  f_equal. rewrite list_fmap_insert, insert_app_l; [done |]. rewrite length_fmap. by eapply lookup_lt_Some.
Qed.

Lemma view_reporter c t r map s :
  locks_view (put_reporter t r map s c) =
    {| lp_state := lock s; lp_world := world s; lp_holder := map;
       lp_threads := <[(length (callers c) + length (unlockers c) + t)%nat := r]> (lp_threads (locks_view c)) |}.
Proof.
  unfold locks_view. cbn. f_equal.
  rewrite <- (length_fmap caller_lock (callers c)), <- (length_fmap unlocker_lock (unlockers c)), <- Nat.add_assoc.
  by rewrite !insert_app_r.
Qed.

Lemma lockout_on_run id call q c q' map s th :
  lockout_on self id call q (map_lock c) (state c) = Some (q', map, s) ->
  lp_threads (locks_view c) !! id = Some th -> th = {| lt_call := call; lt_at := q |} ->
  run_lockout id (locks_view c) = Some
    {| lp_state := lock s; lp_world := world s; lp_holder := map;
       lp_threads := <[id := {| lt_call := call; lt_at := q' |}]> (lp_threads (locks_view c)) |}.
Proof.
  unfold lockout_on, run_lockout_thread. intros E -> ->. cbn [lt_call lt_at lp_holder lp_state lp_world locks_view].
  destruct (lockout_step _ _ _ _ _ _ _ _ _) as [[[[? ?] ?] ?] |]; [| done]. by injection E as <- <- <-.
Qed.

Lemma resting_entry call : resting (lockout_entry (settle_call call)) = true.
Proof. by destruct call. Qed.

Lemma caller_moves_lock t call p wr s p' wr' s' :
  asks call p = None -> thread_step self (T := T) t wr call p s = Some (p', wr', s') -> lock s' = lock s.
Proof.
  intros Ha Hs. destruct (writes p) eqn:Ew; [| by apply thread_step_gates in Hs as [= E _ _ _]].
  destruct p; try done; [by apply allocate_step in Hs as (n & -> & _) | by apply swap_step in Hs as [-> _]].
Qed.

Lemma caller_lock_none th p l : caller_lock (caller_at th p l None) = idle.
Proof. unfold caller_lock. cbn [asking caller_at]. by destruct (asks _ _). Qed.

Lemma caller_lock_some th entry q :
  asks (the_call (main th)) (at_ (main th)) = Some entry ->
  caller_lock (caller_at th (at_ (main th)) (local (main th)) (Some q)) =
    {| lt_call := CallQuery (entry_name entry); lt_at := q |}.
Proof. intros Ha. unfold caller_lock. cbn [asking caller_at main the_call at_]. by rewrite Ha. Qed.

Lemma unlocker_lock_none u p : unlocker_lock (unlocker_at u p None) = idle.
Proof. unfold unlocker_lock. cbn. by destruct p. Qed.

Lemma unlocker_lock_some u matched q :
  stands (tries u) = USettle matched ->
  unlocker_lock (unlocker_at u (stands (tries u)) (Some q)) = {| lt_call := settle_call matched; lt_at := q |}.
Proof. intros Hp. unfold unlocker_lock. cbn. by rewrite Hp. Qed.

Lemma locks_view_step c c' : vault_process_step self c c' -> view_step (locks_view c) (locks_view c').
Proof.
  intros [t c1 _ (th & Ht & Hs)%step_caller_cases | t c1 (u & Ht & Hs)%step_unlocker_cases
    | t c1 (r & q & map & s & Ht & E & ->)%step_reporter_cases | s He | id r _ _].
  - pose proof (caller_lookup c t th Ht) as Hl.
    destruct Hs as [p wr s Ha Hs | entry Ha Hq | entry q q' map s Ha Hq Hs | entry locked Ha Hq];
      rewrite (view_caller c t th) by done; unfold caller_lock at 1 in Hl; rewrite Ha in Hl; rewrite ?Hq in Hl.
    + apply lv_world; [exact (caller_moves_lock _ _ _ _ _ _ _ _ Ha Hs) | done |].
      rewrite caller_lock_none. by apply list_insert_id.
    + rewrite (caller_lock_some _ entry) by done. by eapply lv_change.
    + eapply LvRun with (id := t). rewrite (lockout_on_run _ _ _ _ _ _ _ _ Hs Hl) by done.
      by rewrite (caller_lock_some _ entry).
    + rewrite caller_lock_none. by eapply lv_change.
  - pose proof (unlocker_lookup c t u Ht) as Hl.
    destruct Hs as [p b s Hp Hs | matched Hp Hq | matched q q' map s Hp Hq Hs | matched b Hp Hq];
      rewrite (view_unlocker c t u) by done; unfold unlocker_lock at 1 in Hl.
    + assert (lp_threads (locks_view c) !! (length (callers c) + t)%nat = Some idle) as Hi
        by (destruct (stands (tries u)) eqn:Eu; try done; by destruct (Hp matched)).
      apply unlock_step_others in Hs as (_ & _ & Hlk); [| done]. apply lv_world; [done.. |].
      rewrite unlocker_lock_none. by apply list_insert_id.
    + rewrite Hp, Hq in Hl. rewrite (unlocker_lock_some _ matched) by done.
      eapply lv_change; [done | exact Hl | done.. | apply resting_entry].
    + rewrite Hp, Hq in Hl. eapply LvRun with (id := (length (callers c) + t)%nat).
      rewrite (lockout_on_run _ _ _ _ _ _ _ _ Hs Hl) by done. by rewrite (unlocker_lock_some _ matched).
    + rewrite Hp, Hq in Hl. rewrite unlocker_lock_none. by eapply lv_change.
  - pose proof (reporter_lookup c t r Ht) as Hl. eapply LvRun.
    rewrite (lockout_on_run _ _ _ _ _ _ _ _ E Hl) by (by destruct r). by rewrite view_reporter.
  - apply lv_world; [apply (el_lock _ _ He) | done..].
  - apply lv_world; [| done..]. cbn. unfold drop_region. by destruct (region_drop r (world (state c))).
Qed.

(** ** The invariant of the lockouts, in the process *)

(** Steps of the process from states without the race. *)
Definition calm_step c c' : Prop := ~ races (locks_view c) /\ vault_process_step self c c'.

Lemma lockouts_inv_calm c c' : lockouts_inv (locks_view c) -> rtc calm_step c c' -> lockouts_inv (locks_view c').
Proof.
  intros Hi Hr. induction Hr as [c | c c1 c2 [Hn Hs] _ IH]; [done |]. apply IH.
  by apply (lockouts_inv_view _ _ _ _ _ Hi Hn (locks_view_step _ _ Hs)).
Qed.

Lemma lockouts_inv_process calls attempts reports s :
  lock_inv (lock s) -> lockouts_inv (locks_view (start_process calls attempts reports s)).
Proof.
  intros Hs. assert (forall th, th ∈ lp_threads (locks_view (start_process calls attempts reports s)) ->
    th = idle \/ exists call, th = {| lt_call := call; lt_at := lockout_entry call |}) as Hth.
  { intros th Hin. cbn in Hin. rewrite !elem_of_app in Hin.
    destruct Hin as [(x & -> & (y & -> & _)%list_elem_of_fmap)%list_elem_of_fmap |
      [(x & -> & (y & -> & _)%list_elem_of_fmap)%list_elem_of_fmap | (y & -> & _)%list_elem_of_fmap]];
      [left | by left | right; by exists y]. by destruct y. }
  assert (forall t th, lp_threads (locks_view (start_process calls attempts reports s)) !! t = Some th ->
    LockoutThreads.in_map (lt_at th) = false /\ owes (lt_at th) = 0 /\ forall l, found (lt_call th) (lt_at th) l) as Hall.
  { intros t th Ht%list_elem_of_lookup_2. destruct (Hth th Ht) as [-> | [call ->]]; [done | by destruct call]. }
  split.
  - intros t th Ht Hm. destruct (Hall t th Ht) as [E _]. congruence.
  - intros t th Ht. apply (Hall t th Ht).
  - intros _. unfold counted, lock_inv in *. rewrite total_owed_zero.
    + cbn. rewrite Hs. f_equal. lia.
    + intros th [t Ht]%list_elem_of_lookup. by destruct (Hall t th Ht) as (_ & ? & _).
Qed.

(** ** The name behind a handle *)

(** The handle of an insertion a thread is about to make. *)
Definition puts (w : pending) : option Z := match w with PutNew h _ => Some (KeyHandle.id h) | _ => None end.

Lemma update_bound name id w (ks new : gmap Z KeyEntry) n e :
  (forall e, ks !! id = Some e -> entry_name e = name) -> puts w <> Some id ->
  update w ks = Ok (new, n) -> new !! id = Some e -> entry_name e = name.
Proof.
  intros Hk Hp E He. destruct w as [h entry | h | h frags meta]; cbn [update puts] in *.
  - destruct (name_taken _ _); [done |]. injection E as <- <-.
    rewrite lookup_insert_ne in He by congruence. by apply Hk.
  - destruct (ks !! KeyHandle.id h) as [entry |]; [| done]. injection E as <- <-.
    apply lookup_delete_Some in He as [_ He]. by apply Hk.
  - destruct (ks !! KeyHandle.id h) as [entry |] eqn:Ek; [| done]. injection E as <- <-.
    apply lookup_insert_Some in He as [[Hid <-] | [_ He]]; [| by apply Hk]. cbn. apply Hk. by rewrite <- Hid.
Qed.

Definition fresh_handle (call : vault_call T) (p : pc T) : option Z :=
  match p with
  | AtStamp h _ => match call with CallRegister _ _ => Some (KeyHandle.id h) | _ => None end
  | AtAcquire w | AtReload w | AtSwap w _ _ => puts w
  | _ => None
  end.

(** A thread that inserts nothing under [id], and swaps in no other name. *)
Definition thread_bound (name : string) (id : Z) (call : vault_call T) (p : pc T) : Prop :=
  fresh_handle call p <> Some id /\
  match p with
  | AtSwap _ new _ => forall e, new !! id = Some e -> entry_name e = name
  | AtRelease next => is_Some (result_of next)
  | _ => True
  end.

(** What the registry holds under [id], if anything, has this name. *)
Definition state_bound (name : string) (id : Z) s : Prop :=
  1 <= id < next_id s /\ forall e, keys s !! id = Some e -> entry_name e = name.

Lemma result_bound name id call p : is_Some (result_of p) -> thread_bound name id call p.
Proof.
  intros [r Hr]. destruct p as [| | | | | | | | | next | | | | | r']; try done.
  cbn in Hr. split; [done |]. by destruct next; try done; eexists.
Qed.

Lemma act_goal (Q : pc T -> Prop) {A} (m : M (VaultState W) A) k s p' s' :
  (forall a, Q (k a)) -> (forall r, Q (Returned r)) -> Some (act m k s) = Some (p', s') -> Q p'.
Proof. intros Hk Hr [= E]. unfold act in E. destruct (m s) as [[] ?]; injection E as <- <-; auto. Qed.

Lemma move_bound name id call p s p' s' :
  asks call p = None -> writes p = false -> thread_bound name id call p ->
  move self call p s = Some (p', s') -> thread_bound name id call p'.
Proof.
  intros Ha Hw [Hf Hp] E. assert (forall cl r, thread_bound name id cl (Returned r)) as Hret by done.
  destruct call, p; try done; cbn [move register_move rotate_move with_key_move] in E;
    try (eapply act_goal; [| apply Hret | exact E]; intros a; unfold refused; repeat case_match; by split).
  - by injection E as <- <-.
  - injection E as <- <-. repeat case_match; by split.
Qed.

Lemma thread_step_bound t call p wr s p' wr' s' name id :
  next_id s < u64_max -> state_bound name id s -> thread_bound name id call p ->
  thread_step self t wr call p s = Some (p', wr', s') ->
  asks call p = None ->
  state_bound name id s' /\ thread_bound name id call p'.
Proof.
  intros Hn Hs Hp E Ha. destruct (writes p) eqn:Ew.
  - destruct p; try done.
    + apply allocate_step in E as (n & -> & Hal). destruct Hs as [Hid Hk]. destruct Hal as [-> ->]; [lia |].
      split; [split; cbn; [lia | done] |]. split; [| done]. cbn. destruct call; [intros [= E] | done..]. cbn in E. lia.
    + apply swap_step in E as [-> ->]. destruct Hs as [Hid Hk], Hp as [_ Hnew]. split; [by split |].
      split; [done |]. by eexists.
  - pose proof (thread_step_gates _ _ _ _ _ _ _ _ _ Ha Ew E) as [= _ _ Ek En].
    destruct Hs as [Hid Hk]. split; [split; [congruence | by rewrite Ek] |]. destruct Hp as [Hf Hp].
    assert (forall p, asks call p = None -> writes p = false -> thread_bound name id call p ->
      match move self call p s with Some (p, s) => Some (p, wr, s) | None => None end = Some (p', wr', s') ->
      thread_bound name id call p') as Hmove.
    { intros q H1' H2' H3' E'. destruct (move self call q s) as [[p1 s1] |] eqn:Em; [| done].
      injection E' as -> <- ->. by eapply move_bound. }
    destruct p; try done; cbn [thread_step] in E; try (by eapply Hmove).
    + destruct (decide (wr = None)); [| done]. by injection E as <- <- <-.
    + injection E as <- <- <-. destruct (update w (keys s)) as [[new n] | e | |] eqn:Eu; [| by split..].
      split; [exact Hf |]. intros e. by eapply update_bound.
    + injection E as <- <- <-. by apply result_bound.
    + destruct (act _ _ s) as [p1 s1] eqn:Eact. injection E as <- <- <-.
      eapply (act_goal (thread_bound name id call)); [| | by rewrite Eact]; by split.
Qed.

(** ** Callers of a locked key *)

Definition wants (call : vault_call T) (id : Z) : Prop :=
  match call with CallWithKey h _ | CallRotate h _ => KeyHandle.id h = id | _ => False end.

(** The caller is not past the query, and will not get past it. *)
Definition kept_out (name : string) (th : caller T) : Prop :=
  match at_ (main th) with
  | AtGate | AtLoad => True
  | AtKeyLock entry =>
      entry_name entry = name /\ match asking th with Some q => will_refuse q = true | None => True end
  | Returned r => r = Err Error.LockedOut \/ r = Err Error.KeyNotFound
  | _ => False
  end.

Lemma kept_move t call p wr s p' wr' s' name id l l' :
  state_bound name id s -> wants call id -> asks call p = None ->
  kept_out name {| main := {| the_call := call; at_ := p; local := l |}; asking := None |} ->
  thread_step self t wr call p s = Some (p', wr', s') ->
  kept_out name {| main := {| the_call := call; at_ := p'; local := l' |}; asking := None |}.
Proof.
  intros [_ Hk] Hw Ha Hp E. unfold kept_out in *. cbn [main at_ asking] in *.
  assert (forall h, KeyHandle.id h = id ->
    match match keys s !! KeyHandle.id h with Some e => AtKeyLock e | None => Returned (T := T) (Err Error.KeyNotFound) end with
    | AtGate | AtLoad => True | AtKeyLock e => entry_name e = name /\ True
    | Returned r => r = Err Error.LockedOut \/ r = Err Error.KeyNotFound | _ => False end) as Hload.
  { intros h ->. destruct (keys s !! id) as [e |]; [split; [by apply Hk | done] | by right]. }
  destruct call, p; try done; cbn [thread_step move rotate_move with_key_move] in E; injection E as <- <- <-;
    try (by apply Hload); cbn; unfold refused; destruct (locked_out (lock s)); auto.
Qed.

(** The caller [t] of a key whose name is locked, and the rest. *)
Record closed (name : string) (id : Z) (t : nat) (call : vault_call T) c : Prop := {
  cl_barred : barred name (locks_view c);
  cl_state : state_bound name id (state c);
  cl_threads u th : callers c !! u = Some th -> thread_bound name id (the_call (main th)) (at_ (main th));
  cl_caller : exists th, callers c !! t = Some th /\ the_call (main th) = call /\ wants call id /\ kept_out name th
}.

Lemma state_bound_others name id s s' : others s s' -> state_bound name id s -> state_bound name id s'.
Proof. intros [Hk Hn _ _ _] [? ?]. split; [lia | by rewrite Hk]. Qed.

(** A step of somebody else. *)
Lemma closed_others name id t call c c' :
  closed name id t call c -> barred name (locks_view c') -> state_bound name id (state c') -> callers c' = callers c ->
  closed name id t call c'.
Proof. intros [] ?? E. split; [done | done | by rewrite E | by rewrite E]. Qed.

(** A step of caller [u]. *)
Lemma closed_caller name id t call c u th th' wr map s :
  closed name id t call c -> callers c !! u = Some th ->
  barred name (locks_view (put_caller u th' wr map s c)) -> state_bound name id s ->
  the_call (main th') = the_call (main th) -> thread_bound name id (the_call (main th)) (at_ (main th')) ->
  (wants (the_call (main th)) id -> kept_out name th -> kept_out name th') ->
  closed name id t call (put_caller u th' wr map s c).
Proof.
  intros [_ _ Ht (tt & Htt & Hcall & Hw & Hk)] Hu Hb Hs Ec Hbd Hkept. split; [done | done | |]; cbn [callers put_caller].
  - intros v x [(<- & <- & _) | (_ & Hx)]%list_lookup_insert_Some; [by rewrite Ec | by apply (Ht v)].
  - destruct (decide (t = u)) as [-> | Hne].
    + rewrite Hu in Htt. injection Htt as <-. exists th'.
      rewrite list_lookup_insert_eq by (by eapply lookup_lt_Some). rewrite <- Hcall in Hw. split_and!; [done | by rewrite Ec | by rewrite <- Hcall | by apply Hkept].
    + exists tt. by rewrite list_lookup_insert_ne.
Qed.

Lemma closed_step name id t call c c' :
  closed name id t call c -> undisturbed name (locks_view c) -> vault_process_step self c c' -> closed name id t call c'.
Proof.
  intros Hc Hu Hs. pose proof (barred_step _ _ _ name _ _ (cl_barred _ _ _ _ _ Hc) Hu (locks_view_step c c' Hs)) as Hb.
  pose proof (cl_state _ _ _ _ _ Hc) as Hst.
  destruct Hs as [u c1 Hn (th & Ht & Hs)%step_caller_cases | u c1 (x & Ht & Hs)%step_unlocker_cases
    | u c1 (r & q & map & s & Ht & E & ->)%step_reporter_cases | s He | rid r _ _].
  - pose proof (cl_threads _ _ _ _ _ Hc u th Ht) as Hbd.
    destruct Hs as [p wr s Ha Hs | entry Ha Hq | entry q q' map s Ha Hq Hs | entry locked Ha Hq].
    + eapply thread_step_bound in Hs as Hs'; [| exact Hn | exact Hst | exact Hbd | exact Ha].
      destruct Hs' as [Hst' Hbd']. eapply closed_caller; [exact Hc | exact Ht | exact Hb | exact Hst' | done | exact Hbd' |].
      intros Hw Hk. assert (state_bound name id (set_scratch (local (main th)) (state c))) as Hst2 by exact Hst.
      apply (kept_move _ _ _ _ _ _ _ _ name id (local (main th)) (scratch s) Hst2 Hw Ha) in Hs; [exact Hs |].
      unfold kept_out in *. cbn. destruct (at_ (main th)); try done. split; [apply Hk | done].
    + eapply closed_caller; [exact Hc | exact Ht | exact Hb | exact Hst | done | exact Hbd |].
      intros _ Hk. unfold kept_out in *. cbn. by destruct (at_ (main th)); try done; destruct Hk.
    + assert (state_bound name id s) as Hst'.
      { apply lockout_on_lock in Hs as (l & w & ->). by eapply state_bound_others; [apply others_lock |]. }
      assert (entry_name entry = name -> will_refuse q = true -> will_refuse q' = true) as Href.
      { intros En Hk. unfold lockout_on in Hs.
        destruct (lockout_step _ _ _ _ _ _ _ _ _) as [[[[q1 h1] l1] w1] |] eqn:Es; [| done].
        injection Hs as -> _ _. rewrite En in Es. pose proof (cl_barred _ _ _ _ _ Hc) as Hba.
        eapply (query_refuses (config self) (monitor self) (clock self)); [exact Es | | apply Hba | by apply (barred_open name (locks_view c)) | done].
        intros ->. apply (un_frees _ _ Hu (caller_lock th)); [by eapply list_elem_of_lookup_2, caller_lookup |].
        unfold caller_lock. by rewrite Ha, Hq. }
      eapply closed_caller; [exact Hc | exact Ht | exact Hb | exact Hst' | done | exact Hbd |].
      intros Hw Hk. unfold kept_out in *. cbn. destruct (the_call (main th)), (at_ (main th)); try done;
        injection Ha as ->; destruct Hk as [En Hk]; rewrite Hq in Hk; auto.
    + eapply closed_caller; [exact Hc | exact Ht | exact Hb | exact Hst | done | |].
      * cbn. unfold after_query, refused. destruct locked; [done |]. by destruct (the_call (main th)).
      * intros Hw Hk. unfold kept_out in *. cbn. destruct (the_call (main th)), (at_ (main th)); try done;
          injection Ha as ->; destruct Hk as [En Hk]; rewrite Hq in Hk; destruct locked; try done; by left.
  - destruct Hs as [p b s Hp Hs | matched Hp Hq | matched q q' map s Hp Hq Hs | matched b Hp Hq];
      (eapply closed_others; [exact Hc | exact Hb | | done]); try exact Hst.
    + apply unlock_step_others in Hs as (Ho & _ & _); [| done]. by eapply state_bound_others.
    + apply lockout_on_lock in Hs as (l & w & ->). eapply state_bound_others; [apply others_lock | exact Hst].
  - apply lockout_on_lock in E as (l & w & ->). eapply closed_others; [exact Hc | exact Hb | | done].
    eapply state_bound_others; [apply others_lock | exact Hst].
  - eapply closed_others; [exact Hc | exact Hb | | done].
    eapply state_bound_others; [apply (el_others _ _ He) | exact Hst].
  - eapply closed_others; [exact Hc | exact Hb | | done]. cbn. unfold drop_region.
    by destruct (region_drop r (world (state c))).
Qed.

(** Steps from states in which nobody removes the lock of [name]. *)
Definition undisturbed_step (name : string) c c' : Prop :=
  undisturbed name (locks_view c) /\ vault_process_step self c c'.

Lemma closed_steps name id t call c c' : closed name id t call c -> rtc (undisturbed_step name) c c' -> closed name id t call c'.
Proof.
  intros Hc Hr. induction Hr as [c | c c1 c2 [Hu Hs] _ IH]; [done |]. apply IH. by eapply closed_step.
Qed.

Lemma pending_puts reg s (call : vault_call T) w id i :
  pending_ok self reg s call w -> reg !! id = Some i -> puts w <> Some id.
Proof.
  intros Hp Hi. destruct call, w; try done. destruct Hp as [[Hn _] _]. intros [= E]. congruence.
Qed.

Lemma pc_ok_bound name id reg s (L : list (nat * effect)) t (call : vault_call T) p l i :
  pc_ok self reg s L t call p l -> reg !! id = Some i ->
  (forall e, keys s !! id = Some e -> entry_name e = name) -> thread_bound name id call p.
Proof.
  intros Hp Hi Hk. destruct p as [| | | | | h frags | w | w | w new n | next | n kind a | | | |]; try done.
  - destruct call; try done. destruct Hp as (_ & _ & _ & [Hn _]). split; [cbn; intros [= E]; congruence | done].
  - assert (pending_ok self reg s call w) as Hpe by (destruct call; apply Hp). split; [by eapply pending_puts | done].
  - assert (pending_ok self reg s call w) as Hpe by (destruct call; apply Hp). split; [by eapply pending_puts | done].
  - assert (pending_ok self reg s call w /\ update w (keys s) = Ok (new, n)) as [Hpe Hup] by (destruct call; apply Hp).
    split; [by eapply pending_puts |]. intros e. eapply update_bound; [exact Hk | by eapply pending_puts | exact Hup].
  - assert (done_ok self L t call (AtRelease next) l) as (_ & ev & r & _ & Hr & _) by (destruct call; exact Hp).
    split; [done |]. by destruct next; try done; eexists.
Qed.

(** In a reachable state, a handle of the registry is bound to its name. *)
Lemma reachable_bound calls attempts reports reg0 s c id entry :
  vault_wf self -> vault_inv self reg0 s -> scratch s = scratch_init -> Forall call_ok calls ->
  rtc (vault_process_step self) (start_process calls attempts reports s) c ->
  keys (state c) !! id = Some entry ->
  state_bound (entry_name entry) id (state c) /\
  forall u th, callers c !! u = Some th -> thread_bound (entry_name entry) id (the_call (main th)) (at_ (main th)).
Proof.
  intros Hwf Hi Hs Hok Hr He.
  destruct (vault_view_steps self (start_process calls attempts reports s) c Hs Hr) as [Hv _].
  rewrite (proj1 (views_start calls attempts reports s)) in Hv.
  destruct (inv_reachable self calls reg0 s (vault_view c)) as (reg & L & Hc); [done.. |].
  pose proof (iv_state _ _ _ _ _ _ Hc) as Hst. pose proof (vault_inv_lookup self reg _ id Hst) as Hl.
  cbn [shared vault_view] in Hl, Hst. rewrite He in Hl. destruct Hl as (i & Hr1 & _).
  assert (forall e, keys (state c) !! id = Some e -> entry_name e = entry_name entry) as Hk by congruence.
  split; [split; [apply (vi_ids _ _ _ Hst); by rewrite Hr1 | done] |].
  intros u th Hu. assert (threads (vault_view c) !! u = Some (main th)) as Hm by (cbn; by rewrite list_lookup_fmap, Hu).
  eapply pc_ok_bound; [exact (iv_threads _ _ _ _ _ _ Hc u (main th) Hm) | exact Hr1 | exact Hk].
Qed.
End locks.
