(* ===== verification/ProcessTheorems.v ===== *)
(** * Properties of the whole process

    Its executions are executions of [Concurrent] and of [MasterUnlock], so
    what holds of every one of those holds of the whole; and a locked key
    stays closed to every caller that comes after the lock. *)

From S2P Require Import Prelude Errors Rust Rng RawKey Normalize Codex Fragment Standard Layouts.
From S2P Require Import Os Guarded Handle Events Config Lockout.
From S2P Require Import VaultState Vault VaultFrame VaultPipeline VaultRead VaultRegistry VaultSpec VaultDemo.
From S2P Require Import Concurrent Linear Linearize MasterUnlock LockoutThreads LockoutSteps Process ProcessLocks.
From stdpp Require Import relations.
#[local] Open Scope Z_scope.

Section theorems.
Context {W T : Type} `{Rng W} `{Os W} `{Blake3} `{StdTime W} `{PageRefs W} `{Threads W}.
Context (self : VaultInner W).
Implicit Types (s : VaultState W) (c : vault_process W T).

(** C4: The whole process refines its parts.  Let any number of threads
    register, unregister, rotate and use keys, try the master credential,
    report failures, query and clear lockouts, on one vault, interleaved at
    every access to what they share.  What the first group and the registry
    do is an execution of [Concurrent], in which a query of the lockouts is
    one step and everything else over-approximated; what the guessers and
    the backoff do is an execution of [MasterUnlock], in which clearing the
    lockouts or counting the failure is one step.  So the properties of
    those executions (linearizability, one registration per name, the rate
    of guesses) hold in the process where all of it runs at once. *)
Theorem process_refines (calls : list (vault_call T)) attempts reports s c :
  scratch s = scratch_init ->
  rtc (vault_process_step self) (start_process calls attempts reports s) c ->
  rtc (process_step self) (start calls s) (vault_view c) /\
  exists gs, rtc (unlock_process_step self) (start_unlocks attempts s) (unlock_view gs c).
Proof.
  intros Hs Hr. destruct (views_start calls attempts reports s) as [<- <-]. split.
  - by apply vault_view_steps.
  - by apply unlock_view_steps.
Qed.

(** C3: A locked key stays closed.  Let the process run, without a
    [clear_lockout] that resets the counter of locked names in the middle of
    a [clear_key_lockout], to a moment at which the name behind a handle is
    locked and the report that locked it has counted it (it may have
    returned or not).  From then on, as long as nobody is about to remove
    that lock (no clear, no query that finds it expired), a [with_key] or
    [rotate] of the handle that starts is never let through, however all the
    threads' steps interleave: it is on its way to the query, or was refused
    with [LockedOut], or with [KeyNotFound] if the key was removed
    meanwhile; its callback does not run and no fragments are made.  Without
    the exclusion it is false ([LockoutThreads.clear_race_hides_lock]). *)
Theorem locked_key_stays_closed (calls : list (vault_call T)) attempts reports reg0 s c c' t th id entry until :
  vault_wf self -> vault_inv self reg0 s -> scratch s = scratch_init -> Forall call_ok calls -> lock_inv (lock s) ->
  rtc (calm_step self) (start_process calls attempts reports s) c ->
  keys (state c) !! id = Some entry -> key_locks (lock (state c)) !! entry_name entry = Some until ->
  (forall x, x ∈ lp_threads (locks_view c) -> call_name (lt_call x) = entry_name entry -> adding (lt_at x) = false) ->
  callers c !! t = Some th -> wants (the_call (main th)) id -> at_ (main th) = AtGate ->
  rtc (undisturbed_step self (entry_name entry)) c c' ->
  exists th', callers c' !! t = Some th' /\ the_call (main th') = the_call (main th) /\
    match at_ (main th') with
    | AtGate | AtLoad | AtKeyLock _ => True
    | Returned r => r = Err Error.LockedOut \/ r = Err Error.KeyNotFound
    | _ => False
    end.
Proof.
  intros Hwf Hi Hs Hok Hlock Hr He Hl Hadd Ht Hw Hg Hr'.
  assert (rtc (vault_process_step self) (start_process calls attempts reports s) c) as Hr0
    by (eapply rtc_subrel; [| exact Hr]; by intros x y [_ ?]).
  destruct (reachable_bound self calls attempts reports reg0 s c id entry) as [Hst Hth]; [done.. |].
  assert (closed (entry_name entry) id t (the_call (main th)) c) as Hc.
  { split; [split | exact Hst | exact Hth |].
    - eapply lockouts_inv_calm; [by apply lockouts_inv_process | exact Hr].
    - by exists until.
    - exact Hadd.
    - exists th. split_and!; [done.. |]. unfold kept_out. by rewrite Hg. }
  destruct (closed_steps self _ _ _ _ c c' Hc Hr') as [_ _ _ (th' & Ht' & Ec & _ & Hk)].
  exists th'. split_and!; [done.. |]. unfold kept_out in Hk. by destruct (at_ (main th')).
Qed.
End theorems.

(** ** Witnesses *)

(** Schedules all of whose states satisfy a test. *)
Fixpoint turns_ok {W T} `{Rng W} `{Os W} `{Blake3} `{StdTime W} `{PageRefs W} `{Threads W}
    (self : VaultInner W) (test : vault_process W T -> bool) (schedule : list turn) (c : vault_process W T) : bool :=
  match schedule with
  | [] => true
  | who :: schedule =>
      (next_id (state c) <? u64_max) && test c &&
      turns_ok self test schedule (default c (run_turn self who c))
  end.

Lemma run_turn_step {W T} `{Rng W} `{Os W} `{Blake3} `{StdTime W} `{PageRefs W} `{Threads W}
    (self : VaultInner W) who (c c' : vault_process W T) :
  next_id (state c) < u64_max -> run_turn self who c = Some c' -> vault_process_step self c c'.
Proof. intros Hn. destruct who; cbn; intros E; [by eapply ByCaller | by eapply ByUnlocker | by eapply ByReporter]. Defined.

Lemma turns_reachable {W T} `{Rng W} `{Os W} `{Blake3} `{StdTime W} `{PageRefs W} `{Threads W}
    (self : VaultInner W) (test : vault_process W T -> bool) (P : vault_process W T -> Prop) schedule c :
  (forall x, test x = true -> P x) -> turns_ok self test schedule c = true ->
  rtc (fun x y => P x /\ vault_process_step self x y) c (run_turns self schedule c).
Proof.
  intros HP. revert c. induction schedule as [| who schedule IH]; intros c Hok; cbn in *; [done |].
  apply andb_true_iff in Hok as [[Hn%Z.ltb_lt Ht]%andb_true_iff Hok].
  destruct (run_turn self who c) as [c1 |] eqn:E; cbn in *; [| by apply IH].
  eapply rtc_l; [split; [by apply HP | by eapply run_turn_step] | by apply IH].
Defined.

(** A key is registered, read by one thread, and locked by two failure
    reports, while a third thread guesses the master credential wrong; then a
    second reader asks for it. *)
Definition day_calls : list (vault_call (list byte)) :=
  [CallRegister "db" demo_key1; CallWithKey {| handle_id := 1 |} Some; CallWithKey {| handle_id := 1 |} Some].
Definition day_attempts : list (list byte) := [[Byte.x00]].
Definition day_reports : list lockout_call := [CallReport "db" None true; CallReport "db" None true].
Definition day_start := start_process day_calls day_attempts day_reports (demo_state (Tape.start 0 [] demo_answers)).
Definition day_schedule : list turn :=
  replicate 12 (Caller 0) ++ concat (replicate 12 [Caller 1; Reporter 0; Unlocker 0; Reporter 1]) ++
  replicate 12 (Unlocker 0).
Definition day_locked := run_turns demo_vault day_schedule day_start.
Definition day_end := run_turns demo_vault (replicate 12 (Caller 2)) day_locked.

Lemma day_reachable : rtc (calm_step demo_vault) day_start day_locked.
Proof.
  apply (turns_reachable demo_vault (fun c => race_free (locks_view c))); [intros x; apply race_free_spec | by vm_compute].
Defined.

Lemma process_refines_witness :
  at_ ∘ main <$> callers day_locked =
    [Returned (Ok (AnswerHandle {| handle_id := 1 |})); Returned (Ok (AnswerValue (RawKey.bytes demo_key1))); AtGate] /\
  rtc (process_step demo_vault) (start day_calls (demo_state (Tape.start 0 [] demo_answers))) (vault_view day_locked) /\
  exists gs, rtc (unlock_process_step demo_vault)
    (start_unlocks day_attempts (demo_state (Tape.start 0 [] demo_answers))) (unlock_view gs day_locked).
Proof.
  split; [by vm_compute |].
  apply (process_refines demo_vault day_calls day_attempts day_reports (demo_state (Tape.start 0 [] demo_answers)) day_locked).
  - done.
  - eapply rtc_subrel; [| exact day_reachable]. by intros x y [_ ?].
Defined.

Lemma locked_key_stays_closed_witness :
  (exists th, callers day_end !! 2%nat = Some th /\ at_ (main th) = Returned (Err Error.LockedOut)) /\
  exists th', callers day_end !! 2%nat = Some th' /\ the_call (main th') = CallWithKey {| handle_id := 1 |} Some /\
    match at_ (main th') with
    | AtGate | AtLoad | AtKeyLock _ => True
    | Returned r => r = Err Error.LockedOut \/ r = Err Error.KeyNotFound
    | _ => False
    end.
Proof.
  split; [eexists; split; vm_compute; reflexivity |].
  pose (th := {| main := start_thread (CallWithKey {| handle_id := 1 |} (Some (A := list byte))); asking := None |}).
  eapply (locked_key_stays_closed demo_vault day_calls day_attempts day_reports ∅
    (demo_state (Tape.start 0 [] demo_answers)) day_locked day_end 2 th 1).
  - apply demo_vault_wf.
  - apply demo_state_inv.
  - reflexivity.
  - repeat constructor; by vm_compute.
  - reflexivity.
  - exact day_reachable.
  - vm_compute. reflexivity.
  - vm_compute. reflexivity.
  - refine (proj1 (Forall_forall (fun x => call_name (lt_call x) = _ -> adding (lt_at x) = false) _) _).
    vm_compute. repeat constructor; done.
  - vm_compute. reflexivity.
  - reflexivity.
  - reflexivity.
  - apply (turns_reachable demo_vault (fun c => is_undisturbed "db" (locks_view c))); [intros x; apply is_undisturbed_spec | by vm_compute].
Defined.
