(* ===== verification/SyncWeak.v ===== *)
(** * The spin lock under release/acquire memory ([sync.rs])

    [Sync] lets threads see one another's writes at once.  Here the flag is a
    C11 atomic: its writes form a modification order, a thread may read any
    of them that is not older than one it has read or written already, an
    exchange writes right after what it read, and only acquire reads of
    release writes (or of exchanges that continue their release sequence)
    pass on what the writer knew.  The protected value is not atomic: two
    conflicting accesses of which neither is known to the other's thread are
    a data race, which the model records.  With the orderings the source
    gives its accesses there is none, and the lock does what [Sync] says. *)

From S2P Require Import Prelude Atomics Sync.
From stdpp Require Import relations.

#[local] Open Scope nat_scope.

(** ** Orderings and clocks *)

Inductive Ordering := Relaxed | Acquire | Release.

Definition acquires (o : Ordering) : bool := match o with Acquire => true | _ => false end.
Definition releases (o : Ordering) : bool := match o with Release => true | _ => false end.

(** The orderings in [lock] and in the guard's drop. *)
Definition CAS_SUCCESS : Ordering := Acquire.
Definition CAS_FAILURE : Ordering := Relaxed.
Definition SPIN_LOAD : Ordering := Relaxed.
Definition UNLOCK : Ordering := Release.

(** How many of each thread's accesses of the value are known. *)
Definition clock : Type := nat -> nat.
Definition clock_zero : clock := fun _ => 0.
Definition join (a b : clock) : clock := fun t => a t `max` b t.
Definition tick (t : nat) (a : clock) : clock := fun u => if decide (u = t) then S (a u) else a u.

(** A write of the flag: what it wrote, what reading it with acquire tells,
    and whether it is an exchange's. *)
Record message := { msg_locked : bool; msg_clock : clock; msg_rmw : bool }.

(** An access of the value: whose, that thread's how-manieth, a write? *)
Record data_access := { da_thread : nat; da_nth : nat; da_write : bool }.

Section weak.
Context {T A : Type}.
Implicit Types (bodies : list (T -> option T * A)).

(** A thread: its point, the position in the modification order of the
    latest write of the flag it has seen, what it knows. *)
Record weak_thread := { wt_at : spin_point T A; wt_seen : nat; wt_clock : clock }.

Record weak_cell := {
  wc_mo : list message;           (* writes of the flag, oldest first *)
  wc_value : T;
  wc_log : list data_access;
  wc_raced : bool;
  wc_threads : list weak_thread
}.
Implicit Types c : weak_cell.

(** What a thread knows after reading [m]. *)
Definition after_read (o : Ordering) (m : message) (k : clock) : clock :=
  if acquires o then join k (msg_clock m) else k.

(** What a plain store, or an exchange that read [m], passes on. *)
Definition store_clock (o : Ordering) (k : clock) : clock := if releases o then k else clock_zero.
Definition rmw_clock (o : Ordering) (m : message) (k : clock) : clock :=
  if releases o then join k (msg_clock m) else msg_clock m.

Definition shift (j : nat) (th : weak_thread) : weak_thread :=
  {| wt_at := wt_at th; wt_seen := pushed j (wt_seen th); wt_clock := wt_clock th |}.

Definition set_thread (t : nat) (th : weak_thread) c : weak_cell :=
  {| wc_mo := wc_mo c; wc_value := wc_value c; wc_log := wc_log c; wc_raced := wc_raced c;
     wc_threads := <[t := th]> (wc_threads c) |}.

(** Thread [t] writes [m] at position [j], and goes on at [p] knowing [k]. *)
Definition write_flag (t j : nat) (m : message) (p : spin_point T A) (k : clock) c : weak_cell :=
  {| wc_mo := insert_write j m (wc_mo c); wc_value := wc_value c; wc_log := wc_log c; wc_raced := wc_raced c;
     wc_threads := <[t := {| wt_at := p; wt_seen := j; wt_clock := k |}]> (shift j <$> wc_threads c) |}.

(** Whether an access by a thread that knows [k] races with an earlier one. *)
Definition races_with (write : bool) (k : clock) (log : list data_access) : bool :=
  existsb (fun a => (da_write a || write) && (k (da_thread a) <? da_nth a)) log.

(** Thread [t], at [th], reads the value, or writes [v] to it. *)
Definition touch_value (t : nat) (th : weak_thread) (v : option T) (p : spin_point T A) c : weak_cell :=
  let write := match v with Some _ => true | None => false end in
  {| wc_mo := wc_mo c; wc_value := default (wc_value c) v;
     wc_log := wc_log c ++ [{| da_thread := t; da_nth := S (wt_clock th t); da_write := write |}];
     wc_raced := wc_raced c || races_with write (wt_clock th) (wc_log c);
     wc_threads := <[t := {| wt_at := p; wt_seen := wt_seen th; wt_clock := tick t (wt_clock th) |}]> (wc_threads c) |}.

Inductive weak_step bodies c : weak_cell -> Prop :=
| WeakTaken t th i m :
    wc_threads c !! t = Some th -> wt_at th = CasLoop -> wt_seen th <= i -> wc_mo c !! i = Some m ->
    msg_locked m = false -> free_slot msg_rmw (wc_mo c) (S i) = true ->
    weak_step bodies c (write_flag t (S i)
      {| msg_locked := true; msg_clock := rmw_clock CAS_SUCCESS m (wt_clock th); msg_rmw := true |}
      Holding (after_read CAS_SUCCESS m (wt_clock th)) c)
| WeakFailed t th i m :
    wc_threads c !! t = Some th -> wt_at th = CasLoop -> wt_seen th <= i -> wc_mo c !! i = Some m ->
    weak_step bodies c (set_thread t
      {| wt_at := SpinLoad; wt_seen := i; wt_clock := after_read CAS_FAILURE m (wt_clock th) |} c)
| WeakSpin t th i m :
    wc_threads c !! t = Some th -> wt_at th = SpinLoad -> wt_seen th <= i -> wc_mo c !! i = Some m ->
    weak_step bodies c (set_thread t
      {| wt_at := if msg_locked m then SpinLoad else CasLoop; wt_seen := i;
         wt_clock := after_read SPIN_LOAD m (wt_clock th) |} c)
| WeakRead t th body :
    wc_threads c !! t = Some th -> wt_at th = Holding -> bodies !! t = Some body ->
    weak_step bodies c (touch_value t th None (use body {| locked := true; value := wc_value c |}) c)
| WeakWrite t th v a :
    wc_threads c !! t = Some th -> wt_at th = Writing v a ->
    weak_step bodies c (touch_value t th (Some v) (Dropping a) c)
| WeakDrop t th a j :
    wc_threads c !! t = Some th -> wt_at th = Dropping a -> wt_seen th < j <= length (wc_mo c) ->
    free_slot msg_rmw (wc_mo c) j = true ->
    weak_step bodies c (write_flag t j
      {| msg_locked := false; msg_clock := store_clock UNLOCK (wt_clock th); msg_rmw := false |}
      (Finished a) (wt_clock th) c).

(** The step of thread [t] that reads or writes the flag at position [j]; an
    exchange fails only if it has to. *)
Definition weak_next bodies (t j : nat) c : option weak_cell :=
  match wc_threads c !! t with
  | None => None
  | Some th =>
      match wt_at th with
      | CasLoop =>
          match wc_mo c !! j with
          | Some m =>
              if wt_seen th <=? j then
                Some (if negb (msg_locked m) && free_slot msg_rmw (wc_mo c) (S j)
                      then write_flag t (S j)
                             {| msg_locked := true; msg_clock := rmw_clock CAS_SUCCESS m (wt_clock th); msg_rmw := true |}
                             Holding (after_read CAS_SUCCESS m (wt_clock th)) c
                      else set_thread t
                             {| wt_at := SpinLoad; wt_seen := j; wt_clock := after_read CAS_FAILURE m (wt_clock th) |} c)
              else None
          | None => None
          end
      | SpinLoad =>
          match wc_mo c !! j with
          | Some m =>
              if wt_seen th <=? j then
                Some (set_thread t
                  {| wt_at := if msg_locked m then SpinLoad else CasLoop; wt_seen := j;
                     wt_clock := after_read SPIN_LOAD m (wt_clock th) |} c)
              else None
          | None => None
          end
      | Holding =>
          match bodies !! t with
          | Some body => Some (touch_value t th None (use body {| locked := true; value := wc_value c |}) c)
          | None => None
          end
      | Writing v a => Some (touch_value t th (Some v) (Dropping a) c)
      | Dropping a =>
          if may_store msg_rmw (wt_seen th) j (wc_mo c)
          then Some (write_flag t j
                 {| msg_locked := false; msg_clock := store_clock UNLOCK (wt_clock th); msg_rmw := false |}
                 (Finished a) (wt_clock th) c)
          else None
      | Finished _ => None
      end
  end.

Definition run_weak bodies (schedule : list (nat * nat)) c : weak_cell :=
  foldl (fun c tj => default c (weak_next bodies tj.1 tj.2 c)) c schedule.

(** [Mutex::new], seen by every thread. *)
Definition weak_start bodies (v : T) : weak_cell :=
  {| wc_mo := [{| msg_locked := false; msg_clock := clock_zero; msg_rmw := false |}];
     wc_value := v; wc_log := []; wc_raced := false;
     wc_threads := (fun _ => {| wt_at := CasLoop; wt_seen := 0; wt_clock := clock_zero |}) <$> bodies |}.

(** ** The invariant *)

Definition knows (k : clock) (log : list data_access) : Prop := Forall (fun a => da_nth a <= k (da_thread a)) log.

Record weak_inv c : Prop := {
  (* a write of [false] that is not the last has been taken by an exchange *)
  wi_taken i m : wc_mo c !! i = Some m -> msg_locked m = false -> S i < length (wc_mo c) ->
    free_slot msg_rmw (wc_mo c) (S i) = false;
  wi_seen t th : wc_threads c !! t = Some th -> wt_seen th < length (wc_mo c);
  wi_holder t th : wc_threads c !! t = Some th -> holds_lock (wt_at th) = true ->
    S (wt_seen th) = length (wc_mo c) /\ (exists m, last (wc_mo c) = Some m /\ msg_locked m = true) /\
    knows (wt_clock th) (wc_log c);
  wi_free m : last (wc_mo c) = Some m -> msg_locked m = false -> knows (msg_clock m) (wc_log c);
  wi_busy m : last (wc_mo c) = Some m -> msg_locked m = true ->
    exists t th, wc_threads c !! t = Some th /\ holds_lock (wt_at th) = true;
  wi_one t u th th' : wc_threads c !! t = Some th -> wc_threads c !! u = Some th' ->
    holds_lock (wt_at th) = true -> holds_lock (wt_at th') = true -> t = u;
  wi_raced : wc_raced c = false
}.
End weak.

Arguments weak_thread : clear implicits.
Arguments weak_cell : clear implicits.

Section proofs.
Context {T A : Type}.
Implicit Types (bodies : list (T -> option T * A)) (c : weak_cell T A).

(** ** Writes of the flag go to the end *)

Lemma shift_id j (ths : list (weak_thread T A)) :
  (forall t th, ths !! t = Some th -> wt_seen th < j) -> shift j <$> ths = ths.
Proof.
  intros Hs. apply list_eq. intros t. rewrite list_lookup_fmap.
  destruct (ths !! t) as [th |] eqn:Et; [| done]. cbn. unfold shift.
  rewrite pushed_last by (by apply (Hs t)). by destruct th.
Qed.

Lemma write_flag_end c t m p k :
  weak_inv c ->
  write_flag t (length (wc_mo c)) m p k c =
    {| wc_mo := wc_mo c ++ [m]; wc_value := wc_value c; wc_log := wc_log c; wc_raced := wc_raced c;
       wc_threads := <[t := {| wt_at := p; wt_seen := length (wc_mo c); wt_clock := k |}]> (wc_threads c) |}.
Proof.
  intros Hi. unfold write_flag. rewrite insert_last, shift_id; [done |]. intros u th. apply (wi_seen _ Hi).
Qed.

(** An exchange takes the last write. *)
Lemma taken_last c i m :
  weak_inv c -> wc_mo c !! i = Some m -> msg_locked m = false -> free_slot msg_rmw (wc_mo c) (S i) = true ->
  S i = length (wc_mo c) /\ last (wc_mo c) = Some m.
Proof.
  intros Hi Hm Hf Hs. pose proof (lookup_lt_Some _ _ _ Hm).
  assert (S i = length (wc_mo c)) as E.
  { destruct (decide (S i < length (wc_mo c))) as [Hlt | ]; [| lia].
    pose proof (wi_taken _ Hi i m Hm Hf Hlt). congruence. }
  split; [done |]. rewrite last_lookup, <- E. done.
Qed.

Lemma nobody_holds c m t th :
  weak_inv c -> last (wc_mo c) = Some m -> msg_locked m = false -> wc_threads c !! t = Some th ->
  holds_lock (wt_at th) = false.
Proof.
  intros Hi Hl Hf Ht. apply not_true_is_false. intros Hh.
  destruct (wi_holder _ Hi t th Ht Hh) as (_ & (m' & Hl' & Ht') & _). congruence.
Qed.

(** Older writes stay taken when one is added at the end. *)
Lemma taken_snoc c m' i m :
  weak_inv c -> (msg_rmw m' = true \/ exists l, last (wc_mo c) = Some l /\ msg_locked l = true) ->
  (wc_mo c ++ [m']) !! i = Some m -> msg_locked m = false -> S i < length (wc_mo c ++ [m']) ->
  free_slot msg_rmw (wc_mo c ++ [m']) (S i) = false.
Proof.
  intros Hi Hm' Hm Hf Hlt. rewrite length_app in Hlt. cbn [length] in Hlt.
  assert (wc_mo c !! i = Some m) as Hm0 by (rewrite lookup_app_l in Hm by lia; done).
  destruct (decide (S i < length (wc_mo c))) as [Hl | Hl].
  - pose proof (wi_taken _ Hi i m Hm0 Hf Hl) as Hs. unfold free_slot in *. by rewrite lookup_app_l.
  - assert (S i = length (wc_mo c)) as E by lia. destruct Hm' as [Hm' | (l & Hl' & Hlt')].
    + unfold free_slot. rewrite E, list_lookup_middle by done. by rewrite Hm'.
    + rewrite last_lookup, <- E in Hl'. cbn in Hl'. congruence.
Qed.

(** ** Each step keeps the invariant *)

Lemma inv_taken c t th i m k :
  weak_inv c -> wc_threads c !! t = Some th -> wt_at th = CasLoop -> wc_mo c !! i = Some m ->
  msg_locked m = false -> free_slot msg_rmw (wc_mo c) (S i) = true ->
  weak_inv (write_flag t (S i) {| msg_locked := true; msg_clock := k; msg_rmw := true |}
    Holding (after_read CAS_SUCCESS m (wt_clock th)) c).
Proof.
  intros Hi Ht Hp Hm Hf Hs. destruct (taken_last c i m Hi Hm Hf Hs) as [E Hl]. rewrite E, write_flag_end by done.
  pose proof (fun u x => nobody_holds c m u x Hi Hl Hf) as Hno. pose proof (lookup_lt_Some _ _ _ Ht) as Hlt.
  split; cbn [wc_mo wc_value wc_log wc_raced wc_threads].
  - intros j m' Hj Hf' Hlen. eapply taken_snoc; [done | by left | exact Hj | done | exact Hlen].
  - intros u x [(_ & <- & _) | (_ & Hx)]%list_lookup_insert_Some; rewrite length_app; cbn [length wt_seen]; [lia |].
    pose proof (wi_seen _ Hi u x Hx). lia.
  - intros u x [(_ & <- & _) | (_ & Hx)]%list_lookup_insert_Some Hh; [| by rewrite (Hno u x) in Hh].
    cbn [wt_seen wt_clock]. split_and!; [rewrite length_app; cbn [length]; lia | eexists; by rewrite last_snoc |].
    eapply Forall_impl; [exact (wi_free _ Hi m Hl Hf) |]. intros a Ha. cbv beta in Ha.
    change (da_nth a <= wt_clock th (da_thread a) `max` msg_clock m (da_thread a)). lia.
  - intros m'. rewrite last_snoc. by intros [= <-].
  - intros m' _ _. exists t, {| wt_at := Holding; wt_seen := length (wc_mo c);
      wt_clock := after_read CAS_SUCCESS m (wt_clock th) |}. by rewrite list_lookup_insert_eq.
  - intros u v x y [(<- & <- & _) | (_ & Hx)]%list_lookup_insert_Some
      [(<- & <- & _) | (_ & Hy)]%list_lookup_insert_Some Hhx Hhy; try done;
      [by rewrite (Hno v y) in Hhy | by rewrite (Hno u x) in Hhx..].
  - apply Hi.
Qed.

(** A thread that waits for the lock, and goes on waiting. *)
Lemma inv_waits c t th th' :
  weak_inv c -> wc_threads c !! t = Some th -> holds_lock (wt_at th) = false -> holds_lock (wt_at th') = false ->
  wt_seen th' < length (wc_mo c) -> weak_inv (set_thread t th' c).
Proof.
  intros Hi Ht Hh Hh' Hs. split; cbn [set_thread wc_mo wc_value wc_log wc_raced wc_threads]; try apply Hi.
  - intros u x [(_ & <- & _) | (_ & Hx)]%list_lookup_insert_Some; [done | by apply (wi_seen _ Hi u)].
  - intros u x [(_ & <- & _) | (_ & Hx)]%list_lookup_insert_Some Hx'; [congruence | by apply (wi_holder _ Hi u)].
  - intros m Hl Hm. destruct (wi_busy _ Hi m Hl Hm) as (u & x & Hu & Hx). exists u, x.
    rewrite list_lookup_insert_ne; [done |]. intros ->. congruence.
  - intros u v x y [(<- & <- & _) | (_ & Hx)]%list_lookup_insert_Some
      [(<- & <- & _) | (_ & Hy)]%list_lookup_insert_Some Hhx Hhy; try congruence. by eapply (wi_one _ Hi).
Qed.

Lemma knows_no_race write k log : knows k log -> races_with write k log = false.
Proof.
  intros Hk. apply not_true_is_false. intros (a & Hin & [_ Hlt%Nat.ltb_lt]%andb_true_iff)%existsb_exists.
  apply list_elem_of_In in Hin. eapply Forall_forall in Hk; [| exact Hin]. lia.
Qed.

(** The holder's accesses of the value race with nothing. *)
Lemma inv_touch c t th v p :
  weak_inv c -> wc_threads c !! t = Some th -> holds_lock (wt_at th) = true -> holds_lock p = true ->
  weak_inv (touch_value t th v p c).
Proof.
  intros Hi Ht Hh Hp. destruct (wi_holder _ Hi t th Ht Hh) as (Hs & (m & Hl & Hm) & Hk).
  pose proof (lookup_lt_Some _ _ _ Ht) as Hlt.
  split; cbn [touch_value wc_mo wc_value wc_log wc_raced wc_threads]; try apply Hi.
  - intros u x [(_ & <- & _) | (_ & Hx)]%list_lookup_insert_Some; cbn; [lia | by apply (wi_seen _ Hi u)].
  - intros u x [(_ & <- & _) | (Hne & Hx)]%list_lookup_insert_Some Hx'.
    + cbn [wt_seen wt_clock]. split_and!; [done | by exists m |]. apply Forall_app. split.
      * eapply Forall_impl; [exact Hk |]. intros a Ha. cbv beta in *. cbn. unfold tick. case_decide; subst; lia.
      * constructor; [| constructor]. cbn. unfold tick. by rewrite decide_True.
    + destruct Hne. by apply (wi_one _ Hi t u th x).
  - intros m' Hl' Hm'. congruence.
  - intros m' _ _. eexists t, _. rewrite list_lookup_insert_eq by done. done.
  - intros u w x y [(<- & <- & _) | (N1 & Hx)]%list_lookup_insert_Some
      [(<- & <- & _) | (N2 & Hy)]%list_lookup_insert_Some Hhx Hhy; [done | | |].
    + by apply (wi_one _ Hi t w th y).
    + by apply (wi_one _ Hi u t x th).
    + by apply (wi_one _ Hi u w x y).
  - rewrite (wi_raced _ Hi). by apply knows_no_race.
Qed.

Lemma inv_dropped c t th a j :
  weak_inv c -> wc_threads c !! t = Some th -> wt_at th = Dropping a -> wt_seen th < j <= length (wc_mo c) ->
  weak_inv (write_flag t j {| msg_locked := false; msg_clock := store_clock UNLOCK (wt_clock th); msg_rmw := false |}
    (Finished a) (wt_clock th) c).
Proof.
  intros Hi Ht Hp Hj. assert (holds_lock (wt_at th) = true) as Hh by by rewrite Hp.
  destruct (wi_holder _ Hi t th Ht Hh) as (Hs & (m & Hl & Hm) & Hk).
  assert (j = length (wc_mo c)) as -> by lia. rewrite write_flag_end by done.
  assert (forall u x, u <> t -> wc_threads c !! u = Some x -> holds_lock (wt_at x) = false) as Hno.
  { intros u x Hne Hx. apply not_true_is_false. intros Hx'. apply Hne. by apply (wi_one _ Hi u t x th). }
  split; cbn [wc_mo wc_value wc_log wc_raced wc_threads].
  - intros i m' Hi' Hf Hlen. eapply taken_snoc; [done | right; by exists m | exact Hi' | done | exact Hlen].
  - intros u x [(_ & <- & _) | (_ & Hx)]%list_lookup_insert_Some; rewrite length_app; cbn [length wt_seen]; [lia |].
    pose proof (wi_seen _ Hi u x Hx). lia.
  - intros u x [(_ & <- & _) | (Hne & Hx)]%list_lookup_insert_Some Hx'; [done |].
    rewrite (Hno u x) in Hx'; [done | congruence | done].
  - intros m'. rewrite last_snoc. intros [= <-] _. exact Hk.
  - intros m'. rewrite last_snoc. by intros [= <-].
  - intros u v x y [(<- & <- & _) | (N & Hx)]%list_lookup_insert_Some Hy' Hhx; [done |].
    rewrite (Hno u x) in Hhx; [done | congruence | done].
  - apply Hi.
Qed.

Lemma weak_inv_step bodies c c' : weak_inv c -> weak_step bodies c c' -> weak_inv c'.
Proof.
  intros Hi [t th i m Ht Hp Hle Hm Hf Hs | t th i m Ht Hp Hle Hm | t th i m Ht Hp Hle Hm | t th body Ht Hp Hb
    | t th v a Ht Hp | t th a j Ht Hp Hj _].
  - by apply inv_taken.
  - eapply inv_waits; [done | exact Ht | by rewrite Hp | done | by eapply lookup_lt_Some].
  - eapply inv_waits; [done | exact Ht | by rewrite Hp | cbn; by destruct (msg_locked m) | by eapply lookup_lt_Some].
  - eapply inv_touch; [done | exact Ht | by rewrite Hp |]. unfold use. by destruct (body _) as [[w |] a].
  - eapply inv_touch; [done | exact Ht | by rewrite Hp | done].
  - by apply inv_dropped.
Qed.

Lemma weak_inv_start bodies v : weak_inv (weak_start bodies v).
Proof.
  assert (forall t th, wc_threads (weak_start bodies v) !! t = Some th ->
    th = {| wt_at := CasLoop; wt_seen := 0; wt_clock := clock_zero |}) as Hth
    by (by intros t th (b & -> & _)%list_lookup_fmap_Some).
  split; cbn [weak_start wc_mo wc_log wc_raced length] in *; try done.
  - intros i m _ _ Hlt. lia.
  - intros t th ->%Hth. cbn. lia.
  - by intros t th ->%Hth.
  - intros m _ _. constructor.
  - by intros m [= <-].
  - by intros t u th th' ->%Hth.
Qed.

(** ** What [Sync] makes of it *)

Definition waiting (p : spin_point T A) : bool := match p with CasLoop | SpinLoad => true | _ => false end.

(** A waiting thread may have read old writes of the flag; for the rest the
    two agree. *)
Definition agree (th : weak_thread T A) (p : spin_point T A) : Prop :=
  wt_at th = p \/ waiting (wt_at th) = true /\ waiting p = true.

Definition simulates c (sc : cell T A) : Prop :=
  value (mutex sc) = wc_value c /\ Forall2 agree (wc_threads c) (points sc).

Lemma agree_holds th p : agree th p -> holds_lock (wt_at th) = holds_lock p.
Proof. intros [-> | [Hw Hp]]; [done |]. by destruct (wt_at th), p. Qed.

Lemma agree_back c sc t p :
  simulates c sc -> points sc !! t = Some p -> exists th, wc_threads c !! t = Some th /\ agree th p.
Proof. intros [_ Hf] Hp. destruct (Forall2_lookup_r _ _ _ _ _ Hf Hp) as (th & ? & ?). by exists th. Qed.

(** The thread that took the last exchange is the one [Sync] has inside. *)
Lemma simulates_free bodies v0 v order c sc m :
  weak_inv c -> simulates c sc -> spin_inv bodies v0 v order sc ->
  last (wc_mo c) = Some m -> msg_locked m = false -> locked (mutex sc) = false.
Proof.
  intros Hi Hs Hsp Hl Hf. apply not_true_is_false. intros (t & p & Hp & Hh)%(si_locked _ _ _ _ _ Hsp).
  destruct (agree_back c sc t p Hs Hp) as (th & Ht & Ha). apply agree_holds in Ha.
  rewrite (nobody_holds c m t th Hi Hl Hf Ht) in Ha. congruence.
Qed.

(** What a [Sync] step does to the simulated cell. *)
Lemma sim_step bodies c sc t body m' p' th' v' :
  simulates c sc -> bodies !! t = Some body ->
  (exists p, points sc !! t = Some p /\ spin_step body (mutex sc) p m' p') ->
  value m' = v' -> agree th' p' ->
  exists sc', rtc (cell_step bodies) sc sc' /\
    value (mutex sc') = v' /\ Forall2 agree (<[t := th']> (wc_threads c)) (points sc').
Proof.
  intros [_ Hf] Hb (p & Hp & Hs) Hv Ha. eexists. split; [apply rtc_once; by econstructor |].
  split; [done |]. by apply Forall2_insert.
Qed.

(** A waiting thread takes the lock, if need be after it has looked at the
    flag once more. *)
Lemma sim_taken bodies c sc t body p th' :
  simulates c sc -> bodies !! t = Some body -> points sc !! t = Some p -> waiting p = true ->
  locked (mutex sc) = false -> wt_at th' = Holding ->
  exists sc', rtc (cell_step bodies) sc sc' /\
    value (mutex sc') = wc_value c /\ Forall2 agree (<[t := th']> (wc_threads c)) (points sc').
Proof.
  intros Hsim Hb Hp Hw Hfree Hth. destruct p; try done.
  - apply (sim_step bodies c sc t body (set_locked true (mutex sc)) Holding); [done.. | | by apply Hsim | by left].
    eexists. split; [done | by constructor].
  - set (sc1 := {| mutex := mutex sc; points := <[t := CasLoop]> (points sc) |}).
    assert (rtc (cell_step bodies) sc sc1) as H1.
    { apply rtc_once. econstructor; [done.. | by constructor]. }
    assert (simulates (set_thread t {| wt_at := CasLoop; wt_seen := 0; wt_clock := clock_zero |} c) sc1) as Hs1.
    { split; [apply Hsim |]. apply Forall2_insert; [apply Hsim | by left]. }
    destruct (sim_step bodies _ sc1 t body (set_locked true (mutex sc)) Holding th' (wc_value c) Hs1 Hb)
      as (sc' & Hr & Hv & Hf2); [| by apply Hsim | by left |].
    { exists CasLoop. split; [cbn; by rewrite list_lookup_insert_eq by (by eapply lookup_lt_Some) | by constructor]. }
    exists sc'. split; [by etrans |]. split; [done |]. cbn [set_thread wc_threads] in *.
    by rewrite list_insert_insert_eq in Hf2.
Qed.

Lemma simulates_step bodies v0 v order c sc c' :
  weak_inv c -> simulates c sc -> spin_inv bodies v0 v order sc -> weak_step bodies c c' ->
  exists sc', rtc (cell_step bodies) sc sc' /\ simulates c' sc'.
Proof.
  intros Hi Hsim Hsp Hstep.
  assert (forall t th, wc_threads c !! t = Some th -> exists p body,
    points sc !! t = Some p /\ agree th p /\ bodies !! t = Some body) as Hlook.
  { intros t th Ht. destruct (Forall2_lookup_l _ _ _ _ _ (proj2 Hsim) Ht) as (p & Hp & Ha).
    destruct (lookup_lt_is_Some_2 bodies t) as [body Hb]; [| by exists p, body].
    rewrite <- (si_length _ _ _ _ _ Hsp). by eapply lookup_lt_Some. }
  destruct Hstep as [t th i m Ht Hp Hle Hm Hf Hs | t th i m Ht Hp Hle Hm | t th i m Ht Hp Hle Hm | t th body Ht Hp Hb
    | t th w a Ht Hp | t th a j Ht Hp Hj _].
  - destruct (taken_last c i m Hi Hm Hf Hs) as [E Hl]. rewrite E, write_flag_end by done.
    pose proof (simulates_free _ _ _ _ _ _ m Hi Hsim Hsp Hl Hf) as Hfree.
    destruct (Hlook t th Ht) as (p & body & Hsp_t & Ha & Hb).
    set (th' := {| wt_at := Holding; wt_seen := length (wc_mo c); wt_clock := after_read CAS_SUCCESS m (wt_clock th) |}).
    assert (waiting p = true) as Hw by (destruct Ha as [<- | [_ ?]]; [by rewrite Hp | done]).
    by apply (sim_taken bodies c sc t body p).
  - exists sc. split; [done |]. split; [apply Hsim |]. cbn [set_thread wc_threads].
    destruct (Hlook t th Ht) as (p & body & Hpt & Ha & _).
    rewrite <- (list_insert_id (points sc) t p) by done. apply Forall2_insert; [apply Hsim |]. right.
    destruct Ha as [<- | [_ ?]]; [by rewrite Hp | done].
  - exists sc. split; [done |]. split; [apply Hsim |]. cbn [set_thread wc_threads].
    destruct (Hlook t th Ht) as (p & body & Hpt & Ha & _).
    rewrite <- (list_insert_id (points sc) t p) by done. apply Forall2_insert; [apply Hsim |]. right.
    cbn. split; [by destruct (msg_locked m) |]. destruct Ha as [<- | [_ ?]]; [by rewrite Hp | done].
  - destruct (Hlook t th Ht) as (p & body' & Hpt & Ha & Hb'). rewrite Hb in Hb'. injection Hb' as <-.
    assert (p = Holding) as -> by (destruct Ha as [<- | [Hw _]]; [done | by rewrite Hp in Hw]).
    eapply (sim_step bodies c sc t body); [done | done | eexists; split; [done | constructor] | apply Hsim |].
    left. cbn. unfold use. cbn. by rewrite (proj1 Hsim).
  - destruct (Hlook t th Ht) as (p & body & Hpt & Ha & Hb).
    assert (p = Writing w a) as -> by (destruct Ha as [<- | [Hw _]]; [done | by rewrite Hp in Hw]).
    eapply (sim_step bodies c sc t body); [done | done | eexists; split; [done | constructor] | done | by left].
  - destruct (Hlook t th Ht) as (p & body & Hpt & Ha & Hb).
    assert (p = Dropping a) as -> by (destruct Ha as [<- | [Hw _]]; [done | by rewrite Hp in Hw]).
    destruct (wi_holder _ Hi t th Ht) as (Hsn & _); [by rewrite Hp |].
    assert (j = length (wc_mo c)) as -> by lia. rewrite write_flag_end by done.
    eapply (sim_step bodies c sc t body); [done | done | eexists; split; [done | constructor] | apply Hsim | by left].
Qed.

(** The whole state of knowledge. *)
Definition weak_ok bodies v0 (v : T) (order : list (nat * A)) c : Prop :=
  weak_inv c /\ exists sc, simulates c sc /\ spin_inv bodies v0 v order sc.

Lemma weak_ok_step bodies v0 v order c c' :
  weak_ok bodies v0 v order c -> weak_step bodies c c' ->
  exists v' new, weak_ok bodies v0 v' (order ++ new) c'.
Proof.
  intros [Hi (sc & Hs & Hsp)] Hstep. destruct (simulates_step _ _ _ _ _ _ _ Hi Hs Hsp Hstep) as (sc' & Hr & Hs').
  destruct (spin_inv_steps bodies v0 sc sc' Hr v order Hsp) as (v' & new & Hsp').
  exists v', new. split; [by eapply weak_inv_step | by exists sc'].
Qed.

Lemma weak_ok_steps bodies v0 c c' :
  rtc (weak_step bodies) c c' -> forall v order, weak_ok bodies v0 v order c ->
  exists v' new, weak_ok bodies v0 v' (order ++ new) c'.
Proof.
  intros Hs. induction Hs as [c | c c1 c2 Hstep _ IH]; intros v order Hi.
  - exists v, []. by rewrite app_nil_r.
  - destruct (weak_ok_step _ _ _ _ _ _ Hi Hstep) as (v1 & new1 & Hi1).
    destruct (IH v1 _ Hi1) as (v2 & new2 & Hi2). exists v2, (new1 ++ new2). by rewrite app_assoc.
Qed.

Lemma weak_ok_start bodies v0 : weak_ok bodies v0 v0 [] (weak_start bodies v0).
Proof.
  split; [apply weak_inv_start |]. exists (cell_start bodies v0). split; [| apply spin_inv_start].
  split; [done |]. apply Forall2_fmap, Forall_Forall2_diag, Forall_true. by left.
Qed.
End proofs.

(** ** Properties *)

Section properties.
Context {T A : Type}.
Implicit Types c : weak_cell T A.

(** No data race so far, one holder at most, and the finished accesses one
    after the other in [order]. *)
Record synchronized (bodies : list (T -> option T * A)) (v0 : T) c (order : list (nat * A)) (v : T) : Prop := {
  sy_race_free : wc_raced c = false;
  sy_order : one_by_one bodies v0 order v;
  sy_once : NoDup order.*1;
  sy_finished t th a : wc_threads c !! t = Some th -> wt_at th = Finished a -> (t, a) ∈ order;
  sy_value : (forall t th, wc_threads c !! t = Some th -> holds_lock (wt_at th) = false) -> wc_value c = v;
  sy_exclusive t u th th' : wc_threads c !! t = Some th -> wc_threads c !! u = Some th' ->
    holds_lock (wt_at th) = true -> holds_lock (wt_at th') = true -> t = u
}.

Lemma weak_ok_synchronized bodies v0 v order c : weak_ok bodies v0 v order c -> synchronized bodies v0 c order v.
Proof.
  intros [Hi (sc & Hs & Hsp)]. split; try apply Hi; try apply Hsp.
  - intros t th a Ht Hp. destruct (Forall2_lookup_l _ _ _ _ _ (proj2 Hs) Ht) as (p & Hpt & [Ha | [Hw _]]);
      [| by rewrite Hp in Hw]. apply (si_results _ _ _ _ _ Hsp t (Finished a)). by rewrite <- Hp, Ha.
  - intros Hno. rewrite <- (proj1 Hs). symmetry. apply (no_writer _ _ _ _ _ Hsp). left.
    apply not_true_is_false. intros (t & p & Hp & Hh)%(si_locked _ _ _ _ _ Hsp).
    destruct (agree_back c sc t p Hs Hp) as (th & Ht & Ha). apply agree_holds in Ha.
    rewrite (Hno t th Ht) in Ha. congruence.
Qed.

(** C21: The spin lock synchronizes.  Under release/acquire memory, where
    threads may read old values of the flag and learn of others' writes only
    through acquire reads of release writes: whatever threads lock, read and
    write the protected value through the guard and unlock, no two accesses
    of the value race; at most one thread is between its exchange and its
    release; and the accesses amount to running their bodies one after the
    other in some order, each once, each finished one with the result it had
    in that order, the value being what that order gives whenever nobody is
    inside.  The order only grows, so it respects real time. *)
Theorem spin_lock_synchronizes (bodies : list (T -> option T * A)) v0 c :
  rtc (weak_step bodies) (weak_start bodies v0) c ->
  exists order v, synchronized bodies v0 c order v /\
    forall c', rtc (weak_step bodies) c c' -> exists new v', synchronized bodies v0 c' (order ++ new) v'.
Proof.
  intros Hr. destruct (weak_ok_steps bodies v0 _ c Hr v0 [] (weak_ok_start bodies v0)) as (v & order & Hi).
  exists order, v. split; [by apply weak_ok_synchronized |]. intros c' Hr'.
  destruct (weak_ok_steps bodies v0 c c' Hr' v order Hi) as (v' & new & Hi'). exists new, v'.
  by apply weak_ok_synchronized.
Qed.
End properties.

(** ** Witnesses *)

Lemma weak_next_step {T A} (bodies : list (T -> option T * A)) t j c c' :
  weak_next bodies t j c = Some c' -> weak_step bodies c c'.
Proof.
  unfold weak_next. destruct (wc_threads c !! t) as [th |] eqn:Et; [| done].
  destruct (wt_at th) as [| | | v a | a | a] eqn:Ep.
  - destruct (wc_mo c !! j) as [m |] eqn:Em; [| done]. destruct (Nat.leb_spec (wt_seen th) j) as [Hle |]; [| done].
    intros [= <-]. destruct (negb (msg_locked m) && _) eqn:Ef; [| by eapply WeakFailed].
    apply andb_true_iff in Ef as [Ef%negb_true_iff Es]. by eapply WeakTaken.
  - destruct (wc_mo c !! j) as [m |] eqn:Em; [| done]. destruct (Nat.leb_spec (wt_seen th) j) as [Hle |]; [| done].
    intros [= <-]. by eapply WeakSpin.
  - destruct (bodies !! t) as [body |] eqn:Eb; [| done]. intros [= <-]. by eapply WeakRead.
  - intros [= <-]. by eapply WeakWrite.
  - destruct (may_store _ _ _ _) eqn:Ef; [| done]. intros [= <-]. apply may_store_spec in Ef as [E Es].
    by eapply WeakDrop.
  - done.
Defined.

Lemma run_weak_reachable {T A} (bodies : list (T -> option T * A)) schedule c :
  rtc (weak_step bodies) c (run_weak bodies schedule c).
Proof.
  revert c. induction schedule as [| [t j] schedule IH]; intros c; [constructor |].
  cbn [run_weak foldl fst snd]. destruct (weak_next bodies t j c) as [c1 |] eqn:E; cbn; [| apply IH].
  eapply rtc_l; [by eapply weak_next_step | apply IH].
Defined.

(** The race of [Sync], with reads of writes long past: thread 1 tries the
    first write after it was taken, and spins on it after that. *)
Definition stale_reads : list (nat * nat) :=
  [(0, 0); (1, 0); (1, 0); (0, 0); (2, 0); (1, 0); (0, 0); (2, 1); (0, 2); (1, 1); (2, 2); (1, 1); (2, 2); (1, 1);
   (2, 0); (1, 2); (2, 0); (2, 4); (1, 4); (1, 4); (1, 4); (1, 0); (1, 6)].
Definition stale_end : weak_cell Z Z := run_weak arc_race_bodies stale_reads (weak_start arc_race_bodies 5%Z).

Lemma spin_lock_synchronizes_witness :
  wt_at <$> wc_threads stale_end = [Finished 5%Z; Finished 9%Z; Finished 7%Z] /\
  exists order v, synchronized arc_race_bodies 5%Z stale_end order v /\
    forall c', rtc (weak_step arc_race_bodies) stale_end c' ->
      exists new v', synchronized arc_race_bodies 5%Z c' (order ++ new) v'.
Proof.
  split; [by vm_compute |].
  apply (spin_lock_synchronizes arc_race_bodies 5%Z stale_end), run_weak_reachable.
Defined.
